(* ===== verification/_CoqProject ===== *)
-Q . S2P
Prelude.v
Sha256.v
Protocol.v
Bitmap.v
Replay.v
Framing.v
Delivery.v
Rtt.v
AckCoalesce.v
F64.v
Flow.v
Sack.v
ChunkPipe.v
Erasure.v
FecLoss.v
FecWire.v
FecBlock.v
FecSender.v
FecReceiver.v
FecRecovery.v
GoStrings.v
GoNet.v
Readers.v
PathQuality.v
PortRange.v
GenConfig.v
Targets.v
Spread.v
SpreadSockets.v
SpreadBatch.v
SendSock.v
SendSockPool.v
SendSockLru.v
SynGuard.v
Arq.v
Session.v
ClientSession.v
ServerSession.v
Endpoint.v
Nonces.v
FecLink.v
Actions.v
Tunnel.v
Pump.v
TargetWriter.v
Stream.v
Migration.v
Mtu.v
Noise.v
NoiseKeys.v
HandshakeClient.v
HandshakeServer.v
Replies.v
SessionTable.v
Handshake.v
HandshakeSafety.v
Config.v
AutoReconnect.v
EventBus.v
Transmit.v
ShareUri.v
