(* ===== verification/Prelude.v ===== *)
(** udp_custom: a verification development.

    The program tunnels TCP and UDP connections through UDP datagrams.  A client
    (src/tunnel/client.go) shakes hands with a server (src/tunnel/server.go); from
    then on each side cuts what its application writes into records, seals them
    under per-direction AEAD keys, keeps each until it is acknowledged, and hands
    what arrives to its own application in order.  On top run cumulative and
    selective acknowledgement, congestion control, forward error correction,
    replay filtering, address migration and abuse limits on the handshake.

    * The files

    Foundations.  This file: Go's integers as [Z] with the wrap-around written out
    ([u64], [u16], [i64]), slices as lists with [upto], [from], [slice], big-endian
    integers, results.  [Sha256]: HMAC-SHA256, executable.  [GoStrings] and
    [GoNet]: the functions of packages strings and net the program calls.  [F64]: IEEE doubles, for the
    delivery-rate average and the port weights.

    The record layer.  [Protocol] (protocol.go and the key schedule of noise.go):
    the frame header, its MAC, the SYN payload, session keys, sealing and opening.
    [Bitmap] and [Replay] (ReplayFilter in server.go): the sliding window, refined
    to a set of packet numbers with a horizon.  [Framing] (framing.go): messages in
    a byte stream.

    Reliability.  [Delivery] (delivery.go): the reorder buffer, its writer
    goroutine and the delayed acknowledgement, as interleaved critical sections.
    [Rtt] (rtt_estimator.go), [AckCoalesce] (session_transport.go), [Flow] and
    [Sack] (recovery.go): timing, congestion window, selective acknowledgement and
    repair.  [Arq] (client.go, server.go): the map of unacknowledged records, which
    is where the two sides' code is nearly the same; the theorem
    [endpoints_ack_agree] says how nearly.

    Forward error correction (fec.go).  [Erasure]: the Reed-Solomon interface and a
    concrete one-parity code.  [FecLoss], [FecWire], [FecBlock]: loss estimation,
    the metadata on the wire, what a block is.  [FecSender], [FecReceiver]: the two
    ends.  [FecRecovery]: their composition.

    Endpoints.  [Session]: what the two session types share - sealing, feedback,
    sending, closing.  [ClientSession], [ServerSession]: what each does with a
    datagram.  [Endpoint]: a session with its writer goroutine, and runs of calls.
    [Nonces]: packet numbers over such runs.  [FecLink]: what the FEC of a session
    promises to the rest of it, whether it is on or off - the contract of each end and
    the streams of either direction that keep it.  [Actions], [Tunnel]: two endpoints
    joined by a network that loses, repeats and reorders, proved against that contract.  [Pump]: the loops that read
    an application connection and send what they read, on both sides, and the
    keepalive.  [TargetWriter]: the server's buffered and unbuffered writes to its
    target.  [Stream]: the tunnel with those at its ends.

    Setting up.  [Noise] (noise.go): the NK handshake, from key generation to the
    transport ciphers.  [HandshakeClient] (client.go) and [HandshakeServer]
    (server.go): the SYN/ACK exchange, and the server's session table.
    [Handshake]: the two composed; [HandshakeSafety]: what each does when things go
    wrong; [SessionTable]: the table over every interleaving.  [Migration]: changes
    of address of an established session.  [Mtu] (mtu.go, mtuprobe.go): the record
    size, from the ladder probe at the start to the idle re-probe.

    Paths and sockets.  [PortRange] (portrange.go): port specifications, and the
    shuffled and weighted choice of a port.  [PathQuality] (pathquality.go): the
    loss average that weighs the choice.  [Spread] (spread.go): the client's dialer,
    which spreads datagrams over sockets and server ports and rebinds a socket whose
    write failed; [SpreadSockets] interleaves its Reopen and Close, [SpreadBatch] sends
    batches.  [SendSock]
    (sendsock.go): the server's pool of reply sockets, one operation at a time;
    [SendSockPool] runs those operations as goroutines, [SendSockLru] compares the
    pool with a least-recently-used list.  [Replies] (server.go, session_transport.go):
    the path and the reply socket of a session's datagrams.  [Readers]
    (packet_reader.go, origdst_linux.go): receiving in batches.  [Transmit]
    (transmit.go): the queue that batches records for the socket.

    Around the tunnel.  [ChunkPipe] (chunkpipe.go): the in-memory connection of the
    application side.  [AutoReconnect] (autoreconnect.go): the connection that dials
    a replacement session.  [EventBus] (events.go): notifications to the embedding
    program.  [Targets] and [SynGuard] (server.go): which targets a client may ask
    for, and the SYN cache and rate limiter.  [NoiseKeys] (noise.go): keys as text.
    [Config] (main.go, newServer, NewClient): from a configuration file to the two
    ends.  [GenConfig] (gen_config.go): the firewall rules.  [ShareUri] (sharecrypto.go,
    uri.go, main.go): the links that share a node, and the command that prints them.

    * How code becomes definitions

    A Go struct is a record, a method a function from the record (and its
    arguments) to results and the new record.  A method that runs under a mutex is
    one function; where a method unlocks in the middle it is one function per
    critical section, and threads interleave between them ([Delivery.dstep],
    [ChunkPipe.pstep], [SendSockPool.pstep], [SpreadSockets.sstep],
    [AutoReconnect.rstep], [EventBus.bstep], [Transmit.tqstep]).  Code that works with
    atomics and a concurrent map is cut at each access: a server handshake after its
    dial goes through the phases of [HandshakeServer.commitStep] (store, closed check,
    mark, counter, path, cached answer), a [Close] of a session through those of
    [closeStep] (mark taken back, counter, table), and [SessionTable.wstep] interleaves
    both with everything else; [HandshakeServer.commit] is the phases in a row, for the
    theorems about one handshake.  Clock readings, random bytes, timer outcomes and Go's map
    iteration order are arguments; theorems quantify over them.  What a call writes
    to sockets and channels is its list of outputs.  Logging and statistics are
    left out.

    Code that is not in the repository is an interface with laws: [Crypto]
    (HKDF and ChaCha20-Poly1305: opening what was sealed gives it back, and opening
    succeeds on nothing else), [NoisePrims] (X25519 commutes, keys and hashes have
    their lengths), [ReedSolomon] (any k of the k+m shards give the data back) and
    [ShareLib] (what was sealed, compressed or encoded comes back).
    Each has a concrete instance, [toy_crypto], [plain_crypto], [toy_noise],
    [xor_code] and [toy_share], so the witnesses evaluate.

    * What the theorems show

    The tunnel: over a network that loses, repeats and reorders, what one side
    delivers is what the other sent and acknowledged means delivered
    ([tunnel_reliable]), with forward error correction off or on, in which case a
    record delivered may be one the receiver rebuilt; and the target receives a prefix of what the application at
    the client wrote, and the other way round ([stream_end_to_end]); the records of
    the pumps fit in a datagram ([upstream_datagrams_fit]); the handshake leaves both ends with the same session
    ([handshake_agreement], [noise_agreement]), trusts authenticated messages only
    ([established_authentic], [noise_tamper_evident], [forged_datagram_inert]),
    ends ([handshake_terminates]) and leaves nothing behind when it fails; the
    session table stays consistent ([session_table_consistent]), but for a session
    closed between its store and its registration, which the counter and the table keep
    for good ([early_close_leaks]).
    Safety of the data path: the application gets a prefix of what was sent
    ([delivery_in_order]), sealed records open to what was sealed and to nothing
    else ([seal_parse_open], [open_authentic]), recovered records are the ones
    sent ([fec_recovery_sound]), no packet number is used twice until the counter
    wraps ([nonces_increase]; [exhaustion_reuses_nonce] is what happens then).
    Refinements: the replay window is a set with a horizon, the SACK bitmap marks
    exactly what the receiver holds, the reply pool is a least-recently-used list
    ([reply_pool_lru]).  Liveness: the writer delivers what is
    contiguous, no wakeup or acknowledgement is lost.  Bounds: buffers, windows,
    caches and limiters.  Round trips and reference equivalences for the codecs,
    the port sets, the share links ([share_uri_roundtrip]; their command can give the
    private key away, [gen_uri_shares_private_key]) and the wildcard matcher.

    Sockets: goroutines never use a socket the pool has lost count of, except in the
    two races that [eviction_loses_replacement] and [close_race_leaks] exhibit
    ([reply_pool_consistent], [spread_sockets_owned]); datagrams go to ports of the
    configured range only ([spread_in_range], [batch_routes]); replies go to
    authenticated addresses only, the first of them that of the handshake
    ([replies_authenticated]), in batches as one by one
    ([batch_like_singles]); packets are the datagrams that arrived ([reader_exact]);
    two configuration files that fit give ends that can shake hands
    ([configured_ends_match]); a reconnecting connection has one
    session at a time and dials at the pace of its backoff
    ([reconnect_one_session], [redials_throttled]); events and batches keep their
    order ([events_in_order], [transmit_in_order]).

    * Fuel

    Loops that are not structural take fuel, and the definitions that call them
    supply enough: the buffer's length for [Framing.feedLoop] and [Arq.splitData]
    (each turn consumes a byte), the map's size for the evictions of [FecReceiver]
    (each turn removes an entry), the interval count for the binary search of
    [PortRange.containsLoop], the map's size for [SendSock.reclaimLoop] (each turn
    but the last removes an entry), the distance for [Replay.slideLoop], 64 turns for
    [Sack.markWord] (each clears a bit), the answers a target
    has left for [TargetWriter.fill] and [writeAllLoop] (every write but the last uses
    one up), the number of digits for
    [GoStrings.itoa_digits].  [Targets.globLoop] answers within [globFuel]
    ([wildcard_total]).  In each case the specification proved of the calling
    function fails if the fuel runs out.

    * Not modelled

    System calls, goroutine start-up and shutdown, logging, flag and JSON parsing, QR
    codes: input, output and calls into other libraries.  The queue a session would use
    without an ordered delivery (every session has one). *)
From stdpp Require Export base numbers list gmap sets option strings sorting.
From Stdlib Require Export ZArith Lia.

(** * Results: Go's [(value, error)] pairs *)

Inductive result (A E : Type) : Type :=
| Ok (a : A)
| Err (e : E).
Arguments Ok {A E} a.
Arguments Err {A E} e.

Definition is_Ok {A E} (r : result A E) : bool :=
  match r with Ok _ => true | Err _ => false end.

Definition result_bind {A B E} (r : result A E) (k : A → result B E) : result B E :=
  match r with Ok a => k a | Err e => Err e end.

Declare Scope go_scope.
Delimit Scope go_scope with go.
Notation "x <-! r ;; k" := (result_bind r (λ x, k))
  (at level 100, r at next level, right associativity) : go_scope.
Notation "'guard!' b 'else' e ;; k" := (if b then k else Err e)
  (at level 100, b at level 99, e at level 99, right associativity) : go_scope.

Local Open Scope Z_scope.

(** * Machine integers

    A w-bit unsigned value is a [Z] in [0, 2^w); Go's wrap-around is written
    with [uwrap].  [swrap 64] is the wrap-around of [int], [int64] and
    [time.Duration]. *)

Definition uwrap (w z : Z) : Z := z mod 2 ^ w.
Definition swrap (w z : Z) : Z := (z + 2 ^ (w - 1)) mod 2 ^ w - 2 ^ (w - 1).

Definition u16 (z : Z) : Z := uwrap 16 z.
Definition u32 (z : Z) : Z := uwrap 32 z.
Definition u64 (z : Z) : Z := uwrap 64 z.
Definition i64 (z : Z) : Z := swrap 64 z.

Definition max_u64 : Z := 2 ^ 64 - 1.

Lemma uwrap_range w z : 0 ≤ w → 0 ≤ uwrap w z < 2 ^ w.
Proof. intros. apply Z.mod_pos_bound. lia. Qed.

Lemma uwrap_small w z : 0 ≤ z < 2 ^ w → uwrap w z = z.
Proof. apply Z.mod_small. Qed.

Lemma swrap_small w z : 0 < w → - 2 ^ (w - 1) ≤ z < 2 ^ (w - 1) → swrap w z = z.
Proof.
  intros Hw Hz. unfold swrap. rewrite Z.mod_small; [lia|].
  replace (2 ^ w) with (2 * 2 ^ (w - 1)); [lia|].
  rewrite <- Z.pow_succ_r by lia. f_equal. lia.
Qed.

Lemma u64_small z : 0 ≤ z < 2 ^ 64 → u64 z = z.
Proof. apply uwrap_small. Qed.
Lemma u64_range z : 0 ≤ u64 z < 2 ^ 64.
Proof. apply uwrap_range. lia. Qed.
Lemma u16_small z : 0 ≤ z < 2 ^ 16 → u16 z = z.
Proof. apply uwrap_small. Qed.
Lemma i64_small z : - 2 ^ 63 ≤ z < 2 ^ 63 → i64 z = z.
Proof. intros. by apply swrap_small. Qed.

(** Clamping as Go writes it: [if x < lo { x = lo }], [if x > hi { x = hi }]. *)
Lemma if_lt_max a b : (if a <? b then b else a) = Z.max a b.
Proof. destruct (Z.ltb_spec a b); lia. Qed.
Lemma if_gt_min a b : (if b <? a then b else a) = Z.min a b.
Proof. destruct (Z.ltb_spec b a); lia. Qed.

(** * Slices

    Go slices are lists; lengths and indices are [Z], as Go's [int]. *)

Definition len {A} (l : list A) : Z := Z.of_nat (length l).

Definition slice {A} (i j : Z) (l : list A) : list A :=
  take (Z.to_nat (j - i)) (drop (Z.to_nat i) l).

Definition from {A} (i : Z) (l : list A) : list A := drop (Z.to_nat i) l.
Definition upto {A} (j : Z) (l : list A) : list A := take (Z.to_nat j) l.

Definition at_z (i : Z) (l : list Z) : Z := nth (Z.to_nat i) l 0.

(** [make([]byte, n)]: n zero bytes. *)
Definition zeros (n : Z) : list Z := replicate (Z.to_nat n) 0.

Lemma len_nonneg {A} (l : list A) : 0 ≤ len l.
Proof. unfold len. lia. Qed.
Lemma len_app {A} (a b : list A) : len (a ++ b) = len a + len b.
Proof. unfold len. rewrite length_app. lia. Qed.
Lemma len_nil {A} : len (@nil A) = 0.
Proof. done. Qed.
Lemma len_cons {A} (x : A) l : len (x :: l) = len l + 1.
Proof. unfold len. simpl. lia. Qed.
Lemma len_zeros n : 0 ≤ n → len (zeros n) = n.
Proof. intros. unfold len, zeros. rewrite length_replicate. lia. Qed.
Lemma len_nil_inv {A} (l : list A) : len l = 0 → l = [].
Proof. unfold len. destruct l; simpl; [done|lia]. Qed.
Lemma len_from {A} i (l : list A) : 0 ≤ i ≤ len l → len (from i l) = len l - i.
Proof. unfold len, from. rewrite length_drop. lia. Qed.
Lemma len_upto {A} j (l : list A) : 0 ≤ j ≤ len l → len (upto j l) = j.
Proof. unfold len, upto. rewrite length_take. lia. Qed.
Lemma len_slice {A} i j (l : list A) : 0 ≤ i ≤ j → j ≤ len l → len (slice i j l) = j - i.
Proof. unfold len, slice. rewrite length_take, length_drop. lia. Qed.
Lemma upto_from {A} i (l : list A) : upto i l ++ from i l = l.
Proof. apply take_drop. Qed.

Create Rewrite HintDb len.
#[export] Hint Rewrite @len_app @len_nil @len_cons : len.

Lemma from_app {A} i (a b : list A) : len a = i → from i (a ++ b) = b.
Proof. intros <-. unfold from, len. rewrite drop_app_length'; [done|lia]. Qed.
Lemma upto_app {A} i (a b : list A) : len a = i → upto i (a ++ b) = a.
Proof. intros <-. unfold upto, len. rewrite take_app_length'; [done|lia]. Qed.
Lemma slice_app {A} i j (a b c : list A) :
  len a = i → len b = j - i → slice i j (a ++ b ++ c) = b.
Proof.
  intros <- Hb. unfold slice, len in *. rewrite drop_app_length' by lia.
  rewrite take_app_length'; [done|lia].
Qed.
Lemma slice_0 {A} j (l : list A) : slice 0 j l = upto j l.
Proof. unfold slice, upto. rewrite Z.sub_0_r. done. Qed.
Lemma upto_all {A} j (l : list A) : len l ≤ j → upto j l = l.
Proof. unfold upto, len. intros. apply take_ge. lia. Qed.
Lemma from_0 {A} (l : list A) : from 0 l = l.
Proof. done. Qed.

Lemma from_len {A} (l : list A) : from (len l) l = [].
Proof. unfold from, len. apply drop_ge. lia. Qed.

(** * Bytes and big-endian integers ([encoding/binary]) *)

Definition is_byte (b : Z) : Prop := 0 ≤ b < 256.
Abbreviation bytes := (list Z).

#[export] Instance is_byte_dec b : Decision (is_byte b).
Proof. unfold is_byte. apply _. Defined.

Fixpoint be_bytes (n : nat) (z : Z) : bytes :=
  match n with
  | O => []
  | S n => be_bytes n (z / 256) ++ [z mod 256]
  end.

Definition be_val (l : bytes) : Z := foldl (λ acc b, acc * 256 + b) 0 l.

(** [binary.LittleEndian.PutUint64]. *)
Definition le_bytes (n : nat) (z : Z) : bytes := reverse (be_bytes n z).

Lemma length_be_bytes n z : length (be_bytes n z) = n.
Proof. revert z. induction n; intros; simpl; [done|]. rewrite length_app, IHn. simpl. lia. Qed.

Lemma len_be_bytes n z : len (be_bytes n z) = Z.of_nat n.
Proof. unfold len. by rewrite length_be_bytes. Qed.
#[export] Hint Rewrite len_be_bytes : len.

Lemma be_bytes_byte n z : Forall is_byte (be_bytes n z).
Proof.
  revert z. induction n; intros; simpl; [constructor|].
  apply Forall_app; split; [done|]. constructor; [|constructor].
  unfold is_byte. apply Z.mod_pos_bound. lia.
Qed.

Lemma be_val_snoc l b : be_val (l ++ [b]) = be_val l * 256 + b.
Proof. unfold be_val. by rewrite foldl_app. Qed.

Lemma be_val_be_bytes n z : be_val (be_bytes n z) = z mod 256 ^ Z.of_nat n.
Proof.
  revert z. induction n as [|n IH]; intros z.
  { by rewrite Z.mod_1_r. }
  simpl be_bytes. rewrite be_val_snoc, IH.
  rewrite Nat2Z.inj_succ, Z.pow_succ_r by lia.
  rewrite Z.rem_mul_r by lia. lia.
Qed.

Lemma be_val_range l : Forall is_byte l → 0 ≤ be_val l < 256 ^ len l.
Proof.
  induction l as [|b l IH] using rev_ind; [done|]. intros [Hl Hb]%Forall_app.
  specialize (IH Hl). rewrite be_val_snoc, len_app.
  rewrite Forall_singleton in Hb. unfold is_byte in Hb.
  pose proof (len_nonneg l). change (len [b]) with 1.
  rewrite Z.pow_add_r, Z.pow_1_r by lia.
  lia.
Qed.

Lemma be_bytes_be_val n l : length l = n → Forall is_byte l → be_bytes n (be_val l) = l.
Proof.
  intros <-. induction l as [|b l IH] using rev_ind; [done|]. intros [Hl Hb]%Forall_app.
  rewrite Forall_singleton in Hb. unfold is_byte in Hb.
  rewrite length_app, Nat.add_1_r, be_val_snoc. simpl.
  rewrite Z.div_add_l, Z.div_small, Z.add_0_r, IH by (done || lia).
  rewrite Z.add_comm, Z_mod_plus_full, Z.mod_small by lia. done.
Qed.

Lemma be_val_inj l1 l2 :
  length l1 = length l2 → Forall is_byte l1 → Forall is_byte l2 →
  be_val l1 = be_val l2 → l1 = l2.
Proof.
  intros Hlen H1 H2 Heq.
  rewrite <- (be_bytes_be_val _ l1 eq_refl H1), <- (be_bytes_be_val _ l2 eq_refl H2).
  by rewrite Hlen, Heq.
Qed.

#[global] Arguments be_bytes : simpl never.
#[global] Arguments be_val : simpl never.
#[global] Arguments len : simpl never.
#[global] Arguments from : simpl never.
#[global] Arguments upto : simpl never.
#[global] Arguments slice : simpl never.

(** * Go string literals as bytes *)

Definition str (s : string) : bytes :=
  map (λ c, Z.of_nat (Ascii.nat_of_ascii c)) (String.list_ascii_of_string s).

(** * Slicing of concatenations *)

Lemma slice_app_skip {A} i j (a b : list A) :
  len a ≤ i → slice i j (a ++ b) = slice (i - len a) (j - len a) b.
Proof.
  intros Hi. unfold slice, len in *.
  rewrite drop_app_ge by lia. f_equal; [lia|]. f_equal. lia.
Qed.

Lemma slice_app_head {A} j (a b : list A) : len a = j → slice 0 j (a ++ b) = a.
Proof. intros. rewrite slice_0. by apply upto_app. Qed.

Lemma from_app_skip {A} i (a b : list A) : len a ≤ i → from i (a ++ b) = from (i - len a) b.
Proof. intros Hi. unfold from, len in *. rewrite drop_app_ge by lia. f_equal. lia. Qed.

Lemma at_z_app_skip i (a b : bytes) : len a ≤ i → at_z i (a ++ b) = at_z (i - len a) b.
Proof. intros Hi. unfold at_z, len in *. rewrite app_nth2 by lia. f_equal. lia. Qed.

Lemma slice_join {A} i j k (l : list A) :
  0 ≤ i ≤ j → j ≤ k → slice i j l ++ slice j k l = slice i k l.
Proof.
  intros. unfold slice.
  replace (Z.to_nat j) with (Z.to_nat i + Z.to_nat (j - i))%nat by lia.
  rewrite <- drop_drop.
  replace (Z.to_nat (k - i)) with (Z.to_nat (j - i) + Z.to_nat (k - j))%nat by lia.
  by rewrite take_take_drop.
Qed.

Lemma slice_from {A} i j (l : list A) : 0 ≤ i ≤ j → slice i j l ++ from j l = from i l.
Proof.
  intros. unfold slice, from.
  replace (Z.to_nat j) with (Z.to_nat i + Z.to_nat (j - i))%nat by lia.
  rewrite <- drop_drop. apply take_drop.
Qed.

Lemma at_z_slice i (l : bytes) : 0 ≤ i < len l → [at_z i l] = slice i (i + 1) l.
Proof.
  intros [Hi Hl]. unfold at_z, slice, len in *.
  destruct (lookup_lt_is_Some_2 l (Z.to_nat i)) as [x Hx]; [lia|].
  rewrite (nth_lookup_Some _ _ 0 _ Hx), (drop_S _ _ _ Hx).
  replace (Z.to_nat (i + 1 - i)) with 1%nat by lia. done.
Qed.

Lemma Forall_slice {A} (P : A → Prop) i j l : Forall P l → Forall P (slice i j l).
Proof. intros. by apply Forall_take, Forall_drop. Qed.

Lemma Forall_from {A} (P : A → Prop) i l : Forall P l → Forall P (from i l).
Proof. intros. by apply Forall_drop. Qed.

Lemma Forall_upto {A} (P : A → Prop) i l : Forall P l → Forall P (upto i l).
Proof. intros. by apply Forall_take. Qed.

Lemma be_bytes_slice n i j (l : bytes) :
  Forall is_byte l → 0 ≤ i ≤ j → j ≤ len l → j - i = Z.of_nat n →
  be_bytes n (be_val (slice i j l)) = slice i j l.
Proof.
  intros Hb ???. apply be_bytes_be_val; [|by apply Forall_slice].
  pose proof (len_slice i j l). unfold len in *. lia.
Qed.

Lemma be_val_be_bytes_small n z : 0 ≤ z < 256 ^ Z.of_nat n → be_val (be_bytes n z) = z.
Proof. intros. rewrite be_val_be_bytes. by apply Z.mod_small. Qed.

(** Walks a slice or an index through a concatenation of fields of known size. *)
Ltac field_step :=
  first
    [ rewrite slice_app_head by (autorewrite with len; lia)
    | rewrite slice_app_skip by (autorewrite with len; lia)
    | rewrite at_z_app_skip by (autorewrite with len; lia) ];
  autorewrite with len.
