(* ===== verification/Sha256.v ===== *)
(** SHA-256 (FIPS 180-4) and HMAC (RFC 2104) as the Go packages crypto/sha256
    and crypto/hmac compute them.  They are the two standard-library primitives
    the handshake MAC of src/tunnel/protocol.go is built from ([frameMACInto]),
    so they are defined here and not assumed; the test vectors below evaluate. *)
From S2P Require Import Prelude.
Local Open Scope Z_scope.

Module Sha256.

Definition rotr (n x : Z) : Z := u32 (Z.lor (Z.shiftr x n) (Z.shiftl x (32 - n))).
Definition ch (x y z : Z) : Z := Z.lxor (Z.land x y) (Z.land (Z.lxor x (2 ^ 32 - 1)) z).
Definition maj (x y z : Z) : Z := Z.lxor (Z.lxor (Z.land x y) (Z.land x z)) (Z.land y z).
Definition bsig0 (x : Z) : Z := Z.lxor (Z.lxor (rotr 2 x) (rotr 13 x)) (rotr 22 x).
Definition bsig1 (x : Z) : Z := Z.lxor (Z.lxor (rotr 6 x) (rotr 11 x)) (rotr 25 x).
Definition ssig0 (x : Z) : Z := Z.lxor (Z.lxor (rotr 7 x) (rotr 18 x)) (Z.shiftr x 3).
Definition ssig1 (x : Z) : Z := Z.lxor (Z.lxor (rotr 17 x) (rotr 19 x)) (Z.shiftr x 10).

(** The constants are the first 32 bits of the fractional parts of the cube and
    square roots of the first primes; they are computed here once. *)
Definition primes (n : nat) : list Z :=
  take n (filter (λ p, forallb (λ d, negb (p mod d =? 0)) (seqZ 2 (p - 2)) = true) (seqZ 2 400)).

(** The largest x below 2^bits with x^k <= z, bit by bit. *)
Fixpoint root (k z : Z) (bits : nat) (x : Z) : Z :=
  match bits with
  | O => x
  | S b =>
      let y := x + 2 ^ Z.of_nat b in
      root k z b (if y ^ k <=? z then y else x)
  end.

Definition frac_root (k p : Z) : Z := u32 (root k (Z.shiftl p (32 * k)) 40 0).

Definition K : list Z := Eval vm_compute in map (frac_root 3) (primes 64).
Definition H0 : list Z := Eval vm_compute in map (frac_root 2) (primes 8).

(** Message padding: 0x80, zeros, and the bit length as a 64-bit integer. *)
Definition pad (m : bytes) : bytes :=
  let k := (55 - len m) mod 64 in
  m ++ [128] ++ zeros k ++ be_bytes 8 (8 * len m).

(** Splits into chunks of n elements (fuel bounds the recursion). *)
Fixpoint chunks_of {A} (fuel n : nat) (l : list A) : list (list A) :=
  match fuel with
  | O => []
  | S fuel => match l with [] => [] | _ => take n l :: chunks_of fuel n (drop n l) end
  end.

(** The message schedule, kept as the last 16 words in order. *)
Fixpoint schedule (n : nat) (w : list Z) : list Z :=
  match n with
  | O => w
  | S n =>
      let i := length w in
      let x k := nth (i - k)%nat w 0 in
      schedule n (w ++ [u32 (ssig1 (x 2%nat) + x 7%nat + ssig0 (x 15%nat) + x 16%nat)])
  end.

Definition round (s : list Z) (kw : Z * Z) : list Z :=
  match s with
  | [a; b; c; d; e; f; g; h] =>
      let t1 := u32 (h + bsig1 e + ch e f g + kw.1 + kw.2) in
      let t2 := u32 (bsig0 a + maj a b c) in
      [u32 (t1 + t2); a; b; c; u32 (d + t1); e; f; g]
  | _ => s
  end.

Definition compress (s : list Z) (block : bytes) : list Z :=
  let w := schedule 48 (map be_val (chunks_of 16 4 block)) in
  zip_with (λ x y, u32 (x + y)) s (foldl round s (zip K w)).

(** crypto/sha256.Sum256 *)
Definition sum256 (m : bytes) : bytes :=
  let p := pad m in
  concat (map (be_bytes 4) (foldl compress H0 (chunks_of (length p) 64 p))).

(** crypto/hmac with SHA-256: block size 64, longer keys are hashed first. *)
Definition hmac_sha256 (key msg : bytes) : bytes :=
  let k0 := if 64 <? len key then sum256 key else key in
  let k := k0 ++ zeros (64 - len k0) in
  sum256 (map (Z.lxor 0x5c) k ++ sum256 (map (Z.lxor 0x36) k ++ msg)).

(** FIPS 180-4 test vector "abc". *)
Example sum256_abc :
  be_val (sum256 [97; 98; 99]) =
  0xba7816bf8f01cfea414140de5dae2223b00361a396177a9cb410ff61f20015ad.
Proof. vm_compute. reflexivity. Qed.

(** RFC 4231 test case 1 (key of 20 bytes 0x0b, data "Hi There"). *)
Example hmac_rfc4231_1 :
  be_val (hmac_sha256 (replicate 20 11) [72; 105; 32; 84; 104; 101; 114; 101]) =
  0xb0344c61d8db38535ca8afceaf0bf12b881dc200c9833da726e9376c2e32cff7.
Proof. vm_compute. reflexivity. Qed.

(** ** Shape of the digest *)

Lemma round_length s kw : length s = 8%nat → length (round s kw) = 8%nat.
Proof. do 9 (destruct s as [|? s]; try done). Qed.

Lemma rounds_length l s : length s = 8%nat → length (foldl round s l) = 8%nat.
Proof. revert s. induction l; intros s Hs; simpl; [done|]. apply IHl. by apply round_length. Qed.

Lemma compress_length s b : length s = 8%nat → length (compress s b) = 8%nat.
Proof. intros Hs. unfold compress. rewrite length_zip_with, Hs, rounds_length; done. Qed.

Lemma blocks_length l s : length s = 8%nat → length (foldl compress s l) = 8%nat.
Proof. revert s. induction l; intros s Hs; simpl; [done|]. apply IHl. by apply compress_length. Qed.

Lemma words_length l : length (concat (map (be_bytes 4) l)) = (4 * length l)%nat.
Proof. induction l as [|a l IH]; [done|]. cbn [map concat length]. rewrite length_app, length_be_bytes, IH. lia. Qed.

Lemma words_bytes l : Forall is_byte (concat (map (be_bytes 4) l)).
Proof. induction l as [|a l IH]; cbn [map concat]; [constructor|]. apply Forall_app. split; [apply be_bytes_byte|done]. Qed.

Lemma len_sum256 m : len (sum256 m) = 32.
Proof. unfold sum256, len. rewrite words_length, blocks_length; done. Qed.

Lemma len_hmac k m : len (hmac_sha256 k m) = 32.
Proof. apply len_sum256. Qed.

Lemma hmac_bytes k m : Forall is_byte (hmac_sha256 k m).
Proof. apply words_bytes. Qed.

End Sha256.
