(* ===== verification/Protocol.v ===== *)
(** The v2 wire format: src/tunnel/protocol.go and the record layer of
    src/tunnel/noise.go.

    A frame is a [UDPCFrame]; its wire form is a list of bytes.  Third-party
    cryptography (golang.org/x/crypto: HKDF and ChaCha20-Poly1305) is the
    interface [Crypto]; the standard library's HMAC-SHA256 is [Sha256]. *)
From S2P Require Import Prelude Sha256.
Local Open Scope Z_scope.

(** * Constants *)

Definition UDPC_MAGIC_DEFAULT : Z := 0x55445043.
Definition UDPC_VERSION : Z := 2.
Definition pathChallengeSize : Z := 16.

Definition CMD_HANDSHAKE_SYN : Z := 1.
Definition CMD_HANDSHAKE_ACK : Z := 2.
Definition CMD_DATA : Z := 3.
Definition CMD_ACK : Z := 4.
Definition CMD_PING : Z := 5.
Definition CMD_PONG : Z := 6.
Definition CMD_FIN : Z := 7.
Definition CMD_PATH_CHALLENGE : Z := 8.
Definition CMD_PATH_RESPONSE : Z := 9.
Definition CMD_MTU_PROBE : Z := 10.
Definition CMD_MTU_PROBE_REPLY : Z := 11.
Definition CMD_MTU_COMMIT : Z := 12.
Definition CMD_FEC : Z := 13.
Definition CMD_SACK : Z := 14.

Definition FLAG_FEC_CAPABLE : Z := 1.
Definition FLAG_FEC_FEEDBACK : Z := 2.
Definition FLAG_RECOVERY_CAPABLE : Z := 4.
Definition FLAG_FEC_EXT_PARITY : Z := 8.
Definition FLAG_WIDE_WINDOW : Z := 16.

Definition UDPC_HDR_SIZE : Z := 40.
Definition UDPC_TRAILER_SIZE : Z := 16.
Definition UDPC_MAC_SIZE : Z := UDPC_TRAILER_SIZE.
Definition UDPC_MAX_PKT : Z := 1450.
Definition UDPC_MAX_DATA : Z := UDPC_MAX_PKT - UDPC_HDR_SIZE - UDPC_TRAILER_SIZE.

Definition clientNonceSize : Z := 16.
Definition serverNonceSize : Z := 16.
Definition synPayloadBase : Z := clientNonceSize + 8.
Definition ackPayloadBase : Z := clientNonceSize + serverNonceSize.
Definition targetRequestTLVLen : Z := 2.
Definition TargetMaxLen : Z := 255.
Definition mtuProbeIDSize : Z := 8.
Definition mtuCommitSize : Z := 2.
Definition fecLengthPrefixSize : Z := 2.
Definition sackWordsWide : Z := 64.
Definition sackWordsWidePayload : Z := 2 + sackWordsWide * 8.
Definition maxPktCeiling : Z := UDPC_MAX_PKT.
Definition mtuProbeMaxPayload : Z := maxPktCeiling - UDPC_HDR_SIZE - UDPC_TRAILER_SIZE.
Definition noiseMsg1Size : Z := 32 + 16.
Definition noiseMsg2Size : Z := 32 + 16.

(** * Frames *)

Record UDPCFrame := mkFrame {
  Magic : Z;
  Version : Z;
  Cmd : Z;
  Flags : Z;
  SessionID : Z;
  PacketNo : Z;
  Seq : Z;
  Ack : Z;
  WindowSize : Z;
  Data : bytes;
  raw : bytes;
}.

(** Errors of the wire layer, one constructor per message of the source. *)
Inductive wire_error :=
| ErrNilFrame
| ErrPayloadExceedsUint16
| ErrFrameExceedsMax
| ErrFrameTooShort
| ErrMagicMismatch
| ErrUnsupportedVersion
| ErrUnknownCommand
| ErrInvalidPayloadLength
| ErrFrameMACMismatch
| ErrNoiseInvalidFrame
| ErrAEADOpen
| ErrBadKeyLength
| ErrSynPayloadTooShort
| ErrSynMissingMsg1
| ErrInvalidTargetField
| ErrAckPayloadTooShort
| ErrAckMissingMsg2
| ErrInvalidGrantedField.

(** The 40 header bytes [encodeHeaderInto] stores, with Go's conversion of the
    data length to uint16. *)
Definition encodeHeaderInto (f : UDPCFrame) (dataLen : Z) : bytes :=
  be_bytes 4 (Magic f) ++ [Version f] ++ [Cmd f] ++ be_bytes 2 (Flags f) ++
  be_bytes 4 (SessionID f) ++ be_bytes 8 (PacketNo f) ++ be_bytes 8 (Seq f) ++
  be_bytes 8 (Ack f) ++ be_bytes 2 (WindowSize f) ++ be_bytes 2 (u16 dataLen).

Definition MarshalBinary (f : UDPCFrame) : result bytes wire_error :=
  if 65535 <? len (Data f) then Err ErrPayloadExceedsUint16 else
  let total := UDPC_HDR_SIZE + len (Data f) + UDPC_TRAILER_SIZE in
  if UDPC_MAX_PKT <? total then Err ErrFrameExceedsMax else
  Ok (encodeHeaderInto f (len (Data f)) ++ Data f ++ zeros UDPC_TRAILER_SIZE).

(** [Encode]: the wire bytes, or nil on a frame that cannot be marshalled. *)
Definition Encode (f : UDPCFrame) : bytes :=
  match MarshalBinary f with Ok w => w | Err _ => [] end.

Definition validUDPCCommand (cmd : Z) : bool :=
  (CMD_HANDSHAKE_SYN <=? cmd) && (cmd <=? CMD_SACK).

Definition parseUDPCFrame (buf : bytes) (expectedMagic : Z) : result UDPCFrame wire_error :=
  if len buf <? UDPC_HDR_SIZE + UDPC_TRAILER_SIZE then Err ErrFrameTooShort else
  if UDPC_MAX_PKT <? len buf then Err ErrFrameExceedsMax else
  let magic := be_val (slice 0 4 buf) in
  if negb (expectedMagic =? 0) && negb (magic =? expectedMagic) then Err ErrMagicMismatch else
  if negb (at_z 4 buf =? UDPC_VERSION) then Err ErrUnsupportedVersion else
  if negb (validUDPCCommand (at_z 5 buf)) then Err ErrUnknownCommand else
  let dataLen := be_val (slice 38 40 buf) in
  let expectedLen := UDPC_HDR_SIZE + dataLen + UDPC_TRAILER_SIZE in
  if negb (len buf =? expectedLen) then Err ErrInvalidPayloadLength else
  Ok {| Magic := magic;
        Version := at_z 4 buf;
        Cmd := at_z 5 buf;
        Flags := be_val (slice 6 8 buf);
        SessionID := be_val (slice 8 12 buf);
        PacketNo := be_val (slice 12 20 buf);
        Seq := be_val (slice 20 28 buf);
        Ack := be_val (slice 28 36 buf);
        WindowSize := be_val (slice 36 38 buf);
        Data := slice UDPC_HDR_SIZE (UDPC_HDR_SIZE + dataLen) buf;
        raw := buf |}.

(** [DecodeUDPCFrame] copies the bytes it keeps; on values the copy is the
    frame [parseUDPCFrame] borrowed. *)
Definition DecodeUDPCFrame (buf : bytes) (expectedMagic : Z) : result UDPCFrame wire_error :=
  match parseUDPCFrame buf expectedMagic with
  | Err e => Err e
  | Ok frame =>
      let dataLen := len (Data frame) in
      Ok {| Magic := Magic frame; Version := Version frame; Cmd := Cmd frame;
            Flags := Flags frame; SessionID := SessionID frame; PacketNo := PacketNo frame;
            Seq := Seq frame; Ack := Ack frame; WindowSize := WindowSize frame;
            Data := if 0 <? dataLen
                    then slice UDPC_HDR_SIZE (UDPC_HDR_SIZE + dataLen) (raw frame)
                    else Data frame;
            raw := raw frame |}
  end.

Definition validSessionFrameShape (frame : UDPCFrame) : bool :=
  if (SessionID frame =? 0) || (PacketNo frame =? 0) then false else
  let n := len (Data frame) in
  let c := Cmd frame in
  if c =? CMD_DATA then negb (Seq frame =? 0)
  else if c =? CMD_SACK then
    (Seq frame =? 0) && (2 <=? n) && (n <=? sackWordsWidePayload) && (Z.rem (n - 2) 8 =? 0)
  else if c =? CMD_FEC then negb (Seq frame =? 0) && (fecLengthPrefixSize <=? n)
  else if (c =? CMD_ACK) || (c =? CMD_PING) || (c =? CMD_PONG) || (c =? CMD_FIN) then
    (Seq frame =? 0) && (n =? 0)
  else if (c =? CMD_PATH_CHALLENGE) || (c =? CMD_PATH_RESPONSE) then
    (Seq frame =? 0) && (n =? pathChallengeSize)
  else if (c =? CMD_MTU_PROBE) || (c =? CMD_MTU_PROBE_REPLY) then
    (Seq frame =? 0) && (mtuProbeIDSize <=? n) && (n <=? mtuProbeMaxPayload)
  else if c =? CMD_MTU_COMMIT then (Seq frame =? 0) && (n =? mtuCommitSize)
  else false.

(** Field peeks on an encoded frame (server.go, session_transport.go). *)
Definition cmdOfEncoded (data : bytes) : Z := if 5 <? len data then at_z 5 data else 0.
Definition wireSequence (wire : bytes) : Z := be_val (slice 20 28 wire).
Definition wireAck (wire : bytes) : Z := be_val (slice 28 36 wire).

(** * Handshake MAC (HMAC-SHA256 truncated to 128 bits) *)

Definition frameMACInto (key msg : bytes) : bytes :=
  upto UDPC_MAC_SIZE (Sha256.hmac_sha256 key msg).

(** [macWire] overwrites the trailer with the MAC of everything before it. *)
Definition macWire (wire key : bytes) : result bytes wire_error :=
  if len wire <? UDPC_HDR_SIZE + UDPC_TRAILER_SIZE then Err ErrFrameTooShort else
  let msg := upto (len wire - UDPC_TRAILER_SIZE) wire in
  Ok (msg ++ frameMACInto key msg).

Definition SealFrameMAC (f : UDPCFrame) (key : bytes) : bytes :=
  match MarshalBinary f with
  | Err _ => []
  | Ok wire => match macWire wire key with Ok w => w | Err _ => [] end
  end.

Definition VerifyFrameAuth (wire key : bytes) : result unit wire_error :=
  if len wire <? UDPC_HDR_SIZE + UDPC_TRAILER_SIZE then Err ErrFrameTooShort else
  let msg := upto (len wire - UDPC_TRAILER_SIZE) wire in
  let tag := from (len msg) wire in
  if bool_decide (tag = frameMACInto key msg) then Ok tt else Err ErrFrameMACMismatch.

(** * Target TLVs and handshake payloads *)

Definition appendTargetTLV (payload target : bytes) : bytes :=
  if bool_decide (target = []) then payload else
  if TargetMaxLen <? len target then payload else
  payload ++ be_bytes 2 (u16 (len target)) ++ target.

Definition parseTargetTLV (field : bytes) : option bytes :=
  if len field =? 0 then None else
  if len field <? targetRequestTLVLen then None else
  let n := be_val (upto targetRequestTLVLen field) in
  if (n =? 0) || (TargetMaxLen <? n) || negb (len field =? targetRequestTLVLen + n) then None
  else Some (from targetRequestTLVLen field).

Definition splitSynPayload (data : bytes) (hasNoise : bool) : result (bytes * bytes) wire_error :=
  if len data <? synPayloadBase then Err ErrSynPayloadTooShort else
  let rest := from synPayloadBase data in
  if hasNoise && (len rest <? noiseMsg1Size) then Err ErrSynMissingMsg1 else
  let msg1 := if hasNoise then from (len rest - noiseMsg1Size) rest else [] in
  let rest := if hasNoise then upto (len rest - noiseMsg1Size) rest else rest in
  if 0 <? len rest then
    match parseTargetTLV rest with
    | None => Err ErrInvalidTargetField
    | Some t => Ok (t, msg1)
    end
  else Ok ([], msg1).

Definition splitAckPayload (data : bytes) (hasNoise : bool) : result (bytes * bytes) wire_error :=
  if len data <? ackPayloadBase then Err ErrAckPayloadTooShort else
  let rest := from ackPayloadBase data in
  if hasNoise && (len rest <? noiseMsg2Size) then Err ErrAckMissingMsg2 else
  let msg2 := if hasNoise then from (len rest - noiseMsg2Size) rest else [] in
  let rest := if hasNoise then upto (len rest - noiseMsg2Size) rest else rest in
  if 0 <? len rest then
    match parseTargetTLV rest with
    | None => Err ErrInvalidGrantedField
    | Some t => Ok (t, msg2)
    end
  else Ok ([], msg2).

(** [requestedTargetTLV] (server.go): the bytes a target encodes to. *)
Definition requestedTargetTLV (target : bytes) : bytes :=
  if bool_decide (target = []) then [] else be_bytes 2 (u16 (len target)) ++ target.

(** * Third-party cryptography

    [hkdf_sha256 secret salt info n] is what reading n bytes from
    golang.org/x/crypto/hkdf gives; [aead_seal] and [aead_open] are the Seal and
    Open of golang.org/x/crypto/chacha20poly1305, ciphertext with the 16-byte
    tag appended. *)
Class Crypto := {
  hkdf_sha256 : bytes → bytes → bytes → Z → bytes;
  aead_seal : bytes → bytes → bytes → bytes → bytes;
  aead_open : bytes → bytes → bytes → bytes → option bytes;
}.

(** RFC 5869 and RFC 8439: output lengths, decryption inverts encryption, and a
    ciphertext that opens is the encryption of what it opens to. *)
Class CryptoLaws (C : Crypto) : Prop := {
  hkdf_len : ∀ secret salt info n, 0 ≤ n ≤ 255 * 32 → len (hkdf_sha256 secret salt info n) = n;
  seal_len : ∀ k n p a, len k = 32 → len n = 12 → len (aead_seal k n p a) = len p + 16;
  open_seal : ∀ k n p a, len k = 32 → len n = 12 → Forall is_byte p →
    aead_open k n (aead_seal k n p a) a = Some p;
  open_sound : ∀ k n c a p, len k = 32 → len n = 12 →
    aead_open k n c a = Some p → c = aead_seal k n p a;
}.

Section RecordLayer.
Context `{C : Crypto}.

Record PSKHandshakeKeys := { SynMAC : bytes; AckMAC : bytes }.
Record PSKSessionKeys := { C2S : bytes; S2C : bytes }.

Definition handshakeKeysInfo : bytes := str "udp_custom/v2/handshake-keys".
Definition sessionKeysInfo : bytes := str "udp_custom/v2/session-keys-aead".

Definition DerivePSKHandshakeKeys (psk clientNonce : bytes) : PSKHandshakeKeys :=
  let material := hkdf_sha256 psk clientNonce handshakeKeysInfo 64 in
  {| SynMAC := upto 32 material; AckMAC := from 32 material |}.

Definition DerivePSKSessionKeys (psk clientNonce serverNonce : bytes) (sessionID : Z)
  : PSKSessionKeys :=
  let saltInput := clientNonce ++ serverNonce ++ be_bytes 4 sessionID in
  let salt := Sha256.sum256 saltInput in
  let material := hkdf_sha256 psk salt sessionKeysInfo 64 in
  {| C2S := upto 32 material; S2C := from 32 material |}.

(** A cipher state is its key; New rejects keys that are not 32 bytes. *)
Record AEADCipherState := { aead_key : bytes }.

Definition newAEADCipherState (key : bytes) : result AEADCipherState wire_error :=
  if len key =? 32 then Ok {| aead_key := key |} else Err ErrBadKeyLength.

Record FrameKeys := mkFrameKeys {
  Send : AEADCipherState;
  Recv : AEADCipherState;
  fec : bool;
  fecExt : bool;
  wideWindow : bool;
  recovery : bool;
}.

Definition newFrameKeys (send recv : AEADCipherState) : FrameKeys :=
  mkFrameKeys send recv false false false false.

Definition ClientFrameCiphers (k : PSKSessionKeys) : result FrameKeys wire_error :=
  result_bind (newAEADCipherState (C2S k)) (λ send,
  result_bind (newAEADCipherState (S2C k)) (λ recv, Ok (newFrameKeys send recv))).

Definition ServerFrameCiphers (k : PSKSessionKeys) : result FrameKeys wire_error :=
  result_bind (newAEADCipherState (S2C k)) (λ send,
  result_bind (newAEADCipherState (C2S k)) (λ recv, Ok (newFrameKeys send recv))).

(** The first configured PSK whose SYN key verifies the frame; [] when none does. *)
Fixpoint matchSynPSK (wire : bytes) (passwords : list bytes) (clientNonce : bytes) : bytes :=
  match passwords with
  | [] => []
  | psk :: rest =>
      let keys := DerivePSKHandshakeKeys psk clientNonce in
      match VerifyFrameAuth wire (SynMAC keys) with
      | Ok _ => psk
      | Err _ => matchSynPSK wire rest clientNonce
      end
  end.

Definition packetNonce (packetNo : Z) : bytes := zeros 4 ++ le_bytes 8 packetNo.

Definition Encrypt (c : AEADCipherState) (packetNo : Z) (plaintext aad : bytes) : bytes :=
  aead_seal (aead_key c) (packetNonce packetNo) plaintext aad.

Definition Decrypt (c : AEADCipherState) (packetNo : Z) (ciphertext aad : bytes) : option bytes :=
  aead_open (aead_key c) (packetNonce packetNo) ciphertext aad.

(** [sealFrameAEADInto]: header, then ciphertext with the tag in the trailer. *)
Definition sealFrameAEADInto (f : UDPCFrame) (c : AEADCipherState) (plaintext : bytes) : bytes :=
  let header := encodeHeaderInto f (len plaintext) in
  header ++ aead_seal (aead_key c) (packetNonce (PacketNo f)) plaintext header.

Definition SealFrameAEAD (f : UDPCFrame) (c : AEADCipherState) (plaintext : bytes) : bytes :=
  if 65535 <? len plaintext then [] else
  if UDPC_MAX_PKT <? UDPC_HDR_SIZE + len plaintext + 16 then [] else
  sealFrameAEADInto f c plaintext.

(** Control frames are sealed into a pooled buffer of UDPC_MAX_PKT bytes. *)
Definition sealControlFrameAEAD (f : UDPCFrame) (c : AEADCipherState) : bytes :=
  sealFrameAEADInto f c (Data f).

Definition OpenFrameAEADInto (f : UDPCFrame) (c : AEADCipherState) : result bytes wire_error :=
  if len (raw f) <? UDPC_HDR_SIZE + UDPC_TRAILER_SIZE then Err ErrNoiseInvalidFrame else
  match aead_open (aead_key c) (packetNonce (PacketNo f))
          (from UDPC_HDR_SIZE (raw f)) (upto UDPC_HDR_SIZE (raw f)) with
  | Some p => Ok p
  | None => Err ErrAEADOpen
  end.

End RecordLayer.

(** * Well-formed frames and the codec theorems *)

Definition frame_wf (f : UDPCFrame) : Prop :=
  0 ≤ Magic f < 2 ^ 32 ∧ is_byte (Version f) ∧ is_byte (Cmd f) ∧ 0 ≤ Flags f < 2 ^ 16 ∧
  0 ≤ SessionID f < 2 ^ 32 ∧ 0 ≤ PacketNo f < 2 ^ 64 ∧ 0 ≤ Seq f < 2 ^ 64 ∧
  0 ≤ Ack f < 2 ^ 64 ∧ 0 ≤ WindowSize f < 2 ^ 16 ∧ Forall is_byte (Data f).

#[export] Instance frame_wf_dec f : Decision (frame_wf f).
Proof. unfold frame_wf. apply _. Defined.

(** The frame fields that a wire image determines. *)
Definition with_raw (f : UDPCFrame) (data wire : bytes) : UDPCFrame :=
  {| Magic := Magic f; Version := Version f; Cmd := Cmd f; Flags := Flags f;
     SessionID := SessionID f; PacketNo := PacketNo f; Seq := Seq f; Ack := Ack f;
     WindowSize := WindowSize f; Data := data; raw := wire |}.

Lemma len_header f n : len (encodeHeaderInto f n) = 40.
Proof. unfold encodeHeaderInto. autorewrite with len. done. Qed.
#[export] Hint Rewrite len_header : len.

(** A header, a body of the announced length and a 16-byte trailer parse back to
    the frame, whatever the body and the trailer are. *)
Lemma parse_encode f body tag m :
  frame_wf f → Version f = UDPC_VERSION → validUDPCCommand (Cmd f) = true →
  len body ≤ UDPC_MAX_DATA → len tag = UDPC_TRAILER_SIZE → (m = 0 ∨ m = Magic f) →
  let wire := encodeHeaderInto f (len body) ++ body ++ tag in
  parseUDPCFrame wire m = Ok (with_raw f body wire).
Proof.
  intros (HM & HV & HC & HF & HS & HP & HQ & HA & HW & HD) Hver Hcmd Hlen Htag Hm wire.
  pose proof (len_nonneg body) as Hb0. unfold UDPC_MAX_DATA, UDPC_MAX_PKT, UDPC_HDR_SIZE,
    UDPC_TRAILER_SIZE in *.
  assert (Hwlen : len wire = 40 + len body + 16).
  { subst wire. autorewrite with len. lia. }
  assert (Hmagic : be_val (slice 0 4 wire) = Magic f).
  { subst wire. unfold encodeHeaderInto. rewrite <- !app_assoc. field_step.
    by apply be_val_be_bytes_small. }
  assert (Hfield : ∀ i j n z, be_val (slice i j wire) = be_val (be_bytes n z) →
            0 ≤ z < 256 ^ Z.of_nat n → be_val (slice i j wire) = z).
  { intros i j n z -> ?. by apply be_val_be_bytes_small. }
  assert (Hvers : at_z 4 wire = Version f).
  { subst wire. unfold encodeHeaderInto. rewrite <- !app_assoc. field_step. done. }
  assert (Hc : at_z 5 wire = Cmd f).
  { subst wire. unfold encodeHeaderInto. rewrite <- !app_assoc. do 2 field_step. done. }
  assert (Hdl : be_val (slice 38 40 wire) = len body).
  { apply (Hfield 38 40 2%nat); [|change (256 ^ Z.of_nat 2) with 65536; lia].
    subst wire. unfold encodeHeaderInto. rewrite <- !app_assoc. do 10 field_step.
    by rewrite u16_small by lia. }
  assert (Hbody : slice 40 (40 + len body) wire = body).
  { subst wire. field_step. field_step. done. }
  unfold parseUDPCFrame, UDPC_HDR_SIZE, UDPC_TRAILER_SIZE, UDPC_MAX_PKT.
  rewrite Hwlen, Hmagic, Hvers, Hc, Hdl, Hcmd, Hver, Hbody.
  destruct (Z.ltb_spec (40 + len body + 16) (40 + 16)) as [?|_]; [lia|].
  destruct (Z.ltb_spec 1450 (40 + len body + 16)) as [?|_]; [lia|].
  replace (negb (m =? 0) && negb (Magic f =? m)) with false
    by (destruct Hm as [-> | ->]; [done|]; by rewrite Z.eqb_refl, andb_false_r).
  rewrite !Z.eqb_refl. simpl. unfold with_raw. f_equal. rewrite <- Hver.
  f_equal.
  all: subst wire; unfold encodeHeaderInto; rewrite <- !app_assoc; repeat field_step;
    by apply be_val_be_bytes_small.
Qed.

(** What a successful parse says about the bytes. *)
Lemma parse_inv buf m f :
  parseUDPCFrame buf m = Ok f →
  56 ≤ len buf ≤ 1450 ∧ (m = 0 ∨ Magic f = m) ∧ Version f = UDPC_VERSION ∧
  validUDPCCommand (Cmd f) = true ∧ len buf = 40 + be_val (slice 38 40 buf) + 16 ∧
  f = {| Magic := be_val (slice 0 4 buf); Version := at_z 4 buf; Cmd := at_z 5 buf;
         Flags := be_val (slice 6 8 buf); SessionID := be_val (slice 8 12 buf);
         PacketNo := be_val (slice 12 20 buf); Seq := be_val (slice 20 28 buf);
         Ack := be_val (slice 28 36 buf); WindowSize := be_val (slice 36 38 buf);
         Data := slice 40 (40 + be_val (slice 38 40 buf)) buf; raw := buf |}.
Proof.
  unfold parseUDPCFrame, UDPC_HDR_SIZE, UDPC_TRAILER_SIZE, UDPC_MAX_PKT. intros H.
  repeat match type of H with
  | (if ?b then _ else _) = _ => destruct b eqn:?; [discriminate|]
  end.
  injection H as <-. simpl.
  repeat match goal with
  | H : negb _ = false |- _ => apply negb_false_iff in H
  | H : (_ =? _) = true |- _ => apply Z.eqb_eq in H
  | H : (_ <? _) = false |- _ => apply Z.ltb_ge in H
  end.
  split_and!; try done; lia.
Qed.

(** Re-encoding a parsed frame gives back the very bytes that were parsed. *)
Lemma encode_parse buf m f :
  Forall is_byte buf → parseUDPCFrame buf m = Ok f →
  buf = encodeHeaderInto f (len (Data f)) ++ Data f ++ from (len buf - 16) buf ∧ frame_wf f.
Proof.
  intros Hbuf Hp. apply parse_inv in Hp as (Hlen & _ & _ & _ & Hdl & ->).
  assert (Hrange : ∀ i j n, 0 ≤ i ≤ j → j ≤ len buf → j - i = n →
            0 ≤ be_val (slice i j buf) < 256 ^ n).
  { intros i j n ?? <-. rewrite <- (len_slice i j buf) by lia.
    by apply be_val_range, Forall_slice. }
  set (n := be_val (slice 38 40 buf)) in *.
  assert (Hn : 0 ≤ n < 65536) by (subst n; apply (Hrange 38 40 2); lia).
  assert (Hat : ∀ i, 0 ≤ i < len buf → is_byte (at_z i buf)).
  { intros i Hi. pose proof (Forall_slice is_byte i (i + 1) buf Hbuf) as Hs.
    rewrite <- at_z_slice in Hs by lia. by rewrite Forall_singleton in Hs. }
  split.
  - unfold encodeHeaderInto.
    cbn [Magic Version Cmd Flags SessionID PacketNo Seq Ack WindowSize Data].
    rewrite len_slice by lia.
    replace (40 + n - 40) with n by lia. rewrite (u16_small n) by lia. subst n.
    rewrite !be_bytes_slice by (done || lia). rewrite !at_z_slice by lia.
    replace (len buf - 16) with (40 + be_val (slice 38 40 buf)) by lia.
    rewrite <- !app_assoc, !slice_from by lia. done.
  - unfold frame_wf; simpl.
    split_and!; first [ by apply Forall_slice | apply Hat; lia | apply (Hrange _ _ 2); lia
                      | apply (Hrange _ _ 4); lia | apply (Hrange _ _ 8); lia | idtac ].
Qed.

Definition sample_frame : UDPCFrame :=
  {| Magic := UDPC_MAGIC_DEFAULT; Version := UDPC_VERSION; Cmd := CMD_DATA; Flags := 2;
     SessionID := 0xdeadbeef; PacketNo := 7; Seq := 2 ^ 40; Ack := 12; WindowSize := 10000;
     Data := [1; 2; 3]; raw := [] |}.

(** Whatever the frame's fields, a marshalled frame is accepted
    by the parser and every field and the payload are recovered; the parser
    demands neither more nor less than the encoder produces. *)
Theorem marshal_parse_roundtrip f m :
  frame_wf f → Version f = UDPC_VERSION → validUDPCCommand (Cmd f) = true →
  len (Data f) ≤ UDPC_MAX_DATA → (m = 0 ∨ m = Magic f) →
  ∃ wire, MarshalBinary f = Ok wire ∧ len wire = 56 + len (Data f) ∧
          parseUDPCFrame wire m = Ok (with_raw f (Data f) wire).
Proof.
  intros Hwf Hv Hc Hlen Hm. unfold MarshalBinary.
  unfold UDPC_MAX_DATA, UDPC_MAX_PKT, UDPC_HDR_SIZE, UDPC_TRAILER_SIZE in *.
  destruct (Z.ltb_spec 65535 (len (Data f))); [lia|].
  destruct (Z.ltb_spec 1450 (40 + len (Data f) + 16)); [lia|].
  eexists. split; [done|]. split.
  - autorewrite with len. rewrite len_zeros; lia.
  - by apply parse_encode.
Qed.

Lemma marshal_parse_roundtrip_witness :
  ∃ wire, MarshalBinary sample_frame = Ok wire ∧ len wire = 56 + len (Data sample_frame) ∧
          parseUDPCFrame wire 0 = Ok (with_raw sample_frame (Data sample_frame) wire).
Proof.
  apply (marshal_parse_roundtrip sample_frame 0); [|done|done|by vm_compute|by left].
  apply (bool_decide_unpack _). vm_compute. exact I.
Defined.

(** The parser is injective and never invents data: a byte
    string it accepts is exactly the header of the frame it returns, then that
    frame's payload, then 16 trailer bytes, and the frame is well formed. *)
Theorem parse_sound buf m f :
  Forall is_byte buf → parseUDPCFrame buf m = Ok f →
  ∃ tag, len tag = UDPC_TRAILER_SIZE ∧
    buf = encodeHeaderInto f (len (Data f)) ++ Data f ++ tag ∧
    frame_wf f ∧ raw f = buf ∧ validUDPCCommand (Cmd f) = true ∧
    len (Data f) ≤ UDPC_MAX_DATA.
Proof.
  intros Hb Hp. destruct (encode_parse _ _ _ Hb Hp) as [Heq Hwf].
  apply parse_inv in Hp as (Hlen & _ & _ & Hc & Hdl & Hf).
  exists (from (len buf - 16) buf). split_and!; try done.
  - rewrite len_from by lia. unfold UDPC_TRAILER_SIZE. lia.
  - by rewrite Hf.
  - rewrite Heq in Hlen at 2. autorewrite with len in Hlen.
    rewrite len_from in Hlen by lia.
    unfold UDPC_MAX_DATA, UDPC_MAX_PKT, UDPC_HDR_SIZE, UDPC_TRAILER_SIZE. lia.
Qed.

Lemma parse_sound_witness :
  ∃ tag, len tag = UDPC_TRAILER_SIZE ∧
    Encode sample_frame =
      encodeHeaderInto sample_frame (len (Data sample_frame)) ++ Data sample_frame ++ tag.
Proof.
  destruct (parse_sound (Encode sample_frame) 0
              (with_raw sample_frame (Data sample_frame) (Encode sample_frame)))
    as (tag & Ht & Heq & _).
  - apply (bool_decide_unpack _). vm_compute. exact I.
  - vm_compute. reflexivity.
  - exists tag. split; [exact Ht|exact Heq].
Defined.

(** * Handshake authentication *)

Lemma len_frameMAC key msg : len (frameMACInto key msg) = 16.
Proof.
  unfold frameMACInto. rewrite len_upto; [done|]. rewrite Sha256.len_hmac.
  unfold UDPC_MAC_SIZE, UDPC_TRAILER_SIZE. lia.
Qed.
#[export] Hint Rewrite len_frameMAC : len.

(** Verification succeeds exactly on a message followed by its own MAC. *)
Lemma verify_iff wire key :
  VerifyFrameAuth wire key = Ok tt ↔
  ∃ msg, 40 ≤ len msg ∧ wire = msg ++ frameMACInto key msg.
Proof.
  unfold VerifyFrameAuth, UDPC_HDR_SIZE, UDPC_TRAILER_SIZE. split.
  - destruct (Z.ltb_spec (len wire) (40 + 16)); [done|].
    case_bool_decide as Htag; [|done]. intros _.
    rewrite len_upto in Htag by lia.
    exists (upto (len wire - 16) wire). rewrite len_upto by lia. split; [lia|].
    by rewrite <- Htag, upto_from.
  - intros (msg & Hlen & ->). autorewrite with len.
    destruct (Z.ltb_spec (len msg + 16) (40 + 16)); [lia|].
    rewrite (upto_app (len msg + 16 - 16)) by lia.
    rewrite from_app by done. by rewrite bool_decide_eq_true_2.
Qed.

(** A frame sealed with a handshake MAC key verifies under the
    same key and still parses to the frame that was sealed. *)
Theorem seal_verify f key m :
  frame_wf f → Version f = UDPC_VERSION → validUDPCCommand (Cmd f) = true →
  len (Data f) ≤ UDPC_MAX_DATA → (m = 0 ∨ m = Magic f) →
  let wire := SealFrameMAC f key in
  VerifyFrameAuth wire key = Ok tt ∧
  DecodeUDPCFrame wire m = Ok (with_raw f (Data f) wire).
Proof.
  intros Hwf Hv Hc Hlen Hm.
  set (msg := encodeHeaderInto f (len (Data f)) ++ Data f).
  assert (Hwire : SealFrameMAC f key = msg ++ frameMACInto key msg).
  { unfold SealFrameMAC, MarshalBinary, macWire.
    unfold UDPC_MAX_DATA, UDPC_MAX_PKT, UDPC_HDR_SIZE, UDPC_TRAILER_SIZE in *.
    destruct (Z.ltb_spec 65535 (len (Data f))); [lia|].
    destruct (Z.ltb_spec 1450 (40 + len (Data f) + 16)); [lia|].
    rewrite app_assoc. fold msg. autorewrite with len. rewrite len_zeros by lia.
    pose proof (len_nonneg (Data f)).
    assert (len msg = 40 + len (Data f)) by (subst msg; by autorewrite with len).
    destruct (Z.ltb_spec (len msg + 16) (40 + 16)); [lia|].
    by rewrite upto_app by lia. }
  cbv zeta. rewrite Hwire. split.
  - apply verify_iff. exists msg. split; [|done]. subst msg. autorewrite with len.
    pose proof (len_nonneg (Data f)). lia.
  - unfold DecodeUDPCFrame. subst msg. rewrite <- !app_assoc.
    rewrite parse_encode by (done || apply len_frameMAC).
    cbn [with_raw Data raw Magic Version Cmd Flags SessionID PacketNo Seq Ack WindowSize].
    unfold with_raw. do 2 f_equal. unfold UDPC_HDR_SIZE.
    destruct (Z.ltb_spec 0 (len (Data f))); [|done].
    apply slice_app; autorewrite with len; lia.
Qed.

Lemma seal_verify_witness :
  VerifyFrameAuth (SealFrameMAC sample_frame (str "k")) (str "k") = Ok tt.
Proof.
  apply (seal_verify sample_frame (str "k") 0); [|done|done|by vm_compute|by left].
  apply (bool_decide_unpack _). vm_compute. exact I.
Defined.

(** A handshake frame is accepted under a key exactly when its last
    16 bytes are the truncated HMAC-SHA256, under that key, of all the bytes
    before them: no bit of a header or payload escapes authentication. *)
Theorem verify_frame_auth_iff wire key :
  VerifyFrameAuth wire key = Ok tt ↔
  ∃ msg, 40 ≤ len msg ∧ wire = msg ++ upto 16 (Sha256.hmac_sha256 key msg).
Proof. apply verify_iff. Qed.

(** * Handshake payloads *)

Lemma parse_append_tlv target :
  target ≠ [] → len target ≤ TargetMaxLen →
  parseTargetTLV (be_bytes 2 (u16 (len target)) ++ target) = Some target.
Proof.
  unfold TargetMaxLen. intros Hne Hlen. unfold parseTargetTLV, targetRequestTLVLen, TargetMaxLen.
  assert (0 < len target).
  { destruct target; [done|]. rewrite len_cons. pose proof (len_nonneg target). lia. }
  rewrite u16_small by lia. autorewrite with len.
  destruct (Z.eqb_spec (Z.of_nat 2 + len target) 0); [lia|].
  destruct (Z.ltb_spec (Z.of_nat 2 + len target) 2); [lia|].
  rewrite upto_app, from_app by (by autorewrite with len).
  rewrite be_val_be_bytes_small by (change (256 ^ Z.of_nat 2) with 65536; lia).
  destruct (Z.eqb_spec (len target) 0); [lia|].
  destruct (Z.ltb_spec 255 (len target)); [lia|].
  destruct (Z.eqb_spec (Z.of_nat 2 + len target) (2 + len target)); [done|lia].
Qed.

Lemma parse_tlv_inv field t :
  Forall is_byte field → parseTargetTLV field = Some t →
  field = be_bytes 2 (u16 (len t)) ++ t ∧ 0 < len t ≤ TargetMaxLen.
Proof.
  unfold parseTargetTLV, targetRequestTLVLen, TargetMaxLen. intros Hb.
  destruct (Z.eqb_spec (len field) 0); [done|].
  destruct (Z.ltb_spec (len field) 2); [done|].
  pose proof (be_val_range (upto 2 field) (Forall_upto _ _ _ Hb)) as Hr.
  rewrite len_upto in Hr by lia.
  destruct (Z.eqb_spec (be_val (upto 2 field)) 0); [done|].
  destruct (Z.ltb_spec 255 (be_val (upto 2 field))); [done|]. cbn [orb].
  destruct (Z.eqb_spec (len field) (2 + be_val (upto 2 field))) as [Heq|]; [|done].
  intros [= <-]. rewrite len_from by lia. split; [|lia].
  replace (len field - 2) with (be_val (upto 2 field)) by lia.
  rewrite u16_small by lia. rewrite be_bytes_be_val; [by rewrite upto_from| |].
  - pose proof (len_upto 2 field). unfold len in *. lia.
  - by apply Forall_upto.
Qed.

(** Both payloads have one shape: a fixed base, an optional target TLV, an
    optional 48-byte Noise message at the end. *)
Definition handshake_payload (base target msg : bytes) : bytes :=
  appendTargetTLV base target ++ msg.

Lemma appendTargetTLV_app base target :
  len target ≤ TargetMaxLen → appendTargetTLV base target = base ++ requestedTargetTLV target.
Proof.
  intros Hlen. unfold appendTargetTLV, requestedTargetTLV, TargetMaxLen in *.
  case_bool_decide; [by rewrite app_nil_r|].
  destruct (Z.ltb_spec 255 (len target)); [lia|done].
Qed.

(** The shared body of the two split functions. *)
Definition split_rest (rest : bytes) (hasNoise : bool) (eShort eTarget : wire_error)
  : result (bytes * bytes) wire_error :=
  if hasNoise && (len rest <? 48) then Err eShort else
  let m := if hasNoise then from (len rest - 48) rest else [] in
  let r := if hasNoise then upto (len rest - 48) rest else rest in
  if 0 <? len r then match parseTargetTLV r with None => Err eTarget | Some t => Ok (t, m) end
  else Ok ([], m).

Lemma split_rest_complete target msg (hasNoise : bool) e1 e2 :
  len target ≤ TargetMaxLen → len msg = (if hasNoise then 48 else 0) →
  split_rest (requestedTargetTLV target ++ msg) hasNoise e1 e2 = Ok (target, msg).
Proof.
  intros Hlen Hmsg. unfold split_rest. pose proof (len_nonneg target).
  pose proof (len_nonneg (requestedTargetTLV target)).
  autorewrite with len.
  assert (Hr : (if hasNoise then upto (len (requestedTargetTLV target) + len msg - 48)
                  (requestedTargetTLV target ++ msg) else requestedTargetTLV target ++ msg)
               = requestedTargetTLV target).
  { destruct hasNoise; [by rewrite upto_app by lia|].
    by rewrite (len_nil_inv msg), app_nil_r by done. }
  assert (Hm : (if hasNoise then from (len (requestedTargetTLV target) + len msg - 48)
                  (requestedTargetTLV target ++ msg) else []) = msg).
  { destruct hasNoise; [by rewrite from_app by lia|]. by rewrite (len_nil_inv msg) by done. }
  cbv zeta. rewrite Hr, Hm.
  replace (hasNoise && (len (requestedTargetTLV target) + len msg <? 48)) with false
    by (destruct hasNoise; simpl; [|done]; symmetry; apply Z.ltb_ge; lia).
  unfold requestedTargetTLV. case_bool_decide as Ht; [by subst|].
  autorewrite with len. destruct (Z.ltb_spec 0 (Z.of_nat 2 + len target)); [|lia].
  by rewrite parse_append_tlv.
Qed.

Lemma split_rest_sound rest (hasNoise : bool) e1 e2 t msg :
  Forall is_byte rest → split_rest rest hasNoise e1 e2 = Ok (t, msg) →
  rest = requestedTargetTLV t ++ msg ∧ len t ≤ TargetMaxLen ∧
  len msg = (if hasNoise then 48 else 0).
Proof.
  intros Hb. unfold split_rest.
  destruct (hasNoise && (len rest <? 48)) eqn:Hshort; [done|]. cbv zeta.
  set (r := if hasNoise then upto _ rest else rest).
  set (m := if hasNoise then from _ rest else []).
  assert (Hrm : rest = r ++ m).
  { subst r m. destruct hasNoise; [by rewrite upto_from|by rewrite app_nil_r]. }
  assert (Hm : len m = (if hasNoise then 48 else 0)).
  { subst m. destruct hasNoise; [|done]. simpl in Hshort. apply Z.ltb_ge in Hshort.
    rewrite len_from; lia. }
  assert (Hbr : Forall is_byte r) by (rewrite Hrm in Hb; by apply Forall_app in Hb as [? _]).
  destruct (Z.ltb_spec 0 (len r)) as [Hr|Hr].
  - destruct (parseTargetTLV r) as [t'|] eqn:Hp; [|done]. intros [= <- <-].
    apply parse_tlv_inv in Hp as [-> [? ?]]; [|done]. split; [|done].
    unfold requestedTargetTLV. rewrite bool_decide_eq_false_2; [done|].
    intros ->. change (len (@nil Z)) with 0 in *. lia.
  - intros [= <- <-]. pose proof (len_nonneg r). rewrite (len_nil_inv r) in Hrm by lia.
    split_and!; [done|unfold TargetMaxLen; rewrite len_nil; lia|done].
Qed.

(** A SYN payload, nonce and timestamp then the target the
    client asks for then Noise message 1, is split back into exactly that target
    and that message, with and without Noise and with and without a target. *)
Theorem syn_payload_roundtrip base target msg1 (hasNoise : bool) :
  len base = synPayloadBase → len target ≤ TargetMaxLen →
  len msg1 = (if hasNoise then noiseMsg1Size else 0) →
  splitSynPayload (handshake_payload base target msg1) hasNoise = Ok (target, msg1).
Proof.
  intros Hb Ht Hm. unfold handshake_payload. rewrite appendTargetTLV_app by done.
  unfold splitSynPayload. autorewrite with len. rewrite Hb.
  pose proof (len_nonneg (requestedTargetTLV target)). pose proof (len_nonneg msg1).
  destruct (Z.ltb_spec (synPayloadBase + len (requestedTargetTLV target) + len msg1)
              synPayloadBase); [lia|].
  rewrite <- app_assoc, from_app by done.
  exact (split_rest_complete target msg1 hasNoise ErrSynMissingMsg1 ErrInvalidTargetField Ht Hm).
Qed.

Lemma syn_payload_roundtrip_witness :
  splitSynPayload (handshake_payload (zeros 24) (str "h:1") (zeros 48)) true
  = Ok (str "h:1", zeros 48).
Proof. apply syn_payload_roundtrip; vm_compute; done. Defined.

(** The server accepts no other SYN payload: one that splits is
    exactly base, TLV of the returned target and message 1, with no byte left
    over, and the returned target fits the field. *)
Theorem syn_payload_sound data (hasNoise : bool) target msg1 :
  Forall is_byte data → splitSynPayload data hasNoise = Ok (target, msg1) →
  data = upto synPayloadBase data ++ requestedTargetTLV target ++ msg1 ∧
  len target ≤ TargetMaxLen ∧ len msg1 = (if hasNoise then noiseMsg1Size else 0).
Proof.
  intros Hb Hs. unfold splitSynPayload in Hs.
  destruct (Z.ltb_spec (len data) synPayloadBase) as [|Hlen]; [done|].
  apply (split_rest_sound (from synPayloadBase data) hasNoise ErrSynMissingMsg1
           ErrInvalidTargetField) in Hs as (Heq & ? & ?); [|by apply Forall_from].
  split; [|done]. by rewrite <- Heq, upto_from.
Qed.

Lemma syn_payload_sound_witness :
  len (str "h:1") ≤ TargetMaxLen.
Proof.
  destruct (syn_payload_sound (handshake_payload (zeros 24) (str "h:1") (zeros 48)) true
              (str "h:1") (zeros 48)) as (_ & H & _).
  - apply (bool_decide_unpack _). vm_compute. exact I.
  - vm_compute. reflexivity.
  - exact H.
Defined.

(** * A concrete cipher, for evaluation

    Authentication by HMAC-SHA256 over nonce, associated data and plaintext; no
    confidentiality.  It satisfies every law of the interface. *)
Definition toy_tag (k n p a : bytes) : bytes := upto 16 (Sha256.hmac_sha256 k (n ++ a ++ p)).

#[local] Instance toy_crypto : Crypto := {|
  hkdf_sha256 secret salt info n :=
    upto n (flat_map (λ i, Sha256.hmac_sha256 secret (salt ++ info ++ [i])) (seqZ 0 (n / 32 + 1)));
  aead_seal k n p a := p ++ toy_tag k n p a;
  aead_open k n c a :=
    let p := upto (len c - 16) c in
    if (16 <=? len c) && bool_decide (from (len p) c = toy_tag k n p a) then Some p else None;
|}.

Lemma len_toy_tag k n p a : len (toy_tag k n p a) = 16.
Proof. unfold toy_tag. rewrite len_upto; [done|]. rewrite Sha256.len_hmac. lia. Qed.

Lemma len_flat_map {A B} (f : A → list B) (c : Z) l :
  (∀ x, len (f x) = c) → len (flat_map f l) = c * len l.
Proof.
  intros Hf. induction l as [|x l IH]; cbn [flat_map]; autorewrite with len; [lia|].
  rewrite IH, Hf. lia.
Qed.

#[local] Instance toy_crypto_laws : CryptoLaws toy_crypto.
Proof.
  split; cbn [hkdf_sha256 aead_seal aead_open toy_crypto].
  - intros. apply len_upto. erewrite len_flat_map by (intros; apply Sha256.len_hmac).
    unfold len. rewrite length_seqZ. pose proof (Z.div_mod n 32). pose proof (Z.mod_pos_bound n 32). lia.
  - intros. autorewrite with len. by rewrite len_toy_tag.
  - intros k n p a _ _ _. autorewrite with len. rewrite len_toy_tag.
    pose proof (len_nonneg p). destruct (Z.leb_spec 16 (len p + 16)); [|lia].
    rewrite (upto_app (len p + 16 - 16)) by lia. rewrite from_app by done.
    by rewrite bool_decide_eq_true_2.
  - intros k n c a p _ _. destruct (Z.leb_spec 16 (len c)); [|done]. simpl.
    case_bool_decide as Ht; [|done]. intros [= <-].
    by rewrite <- Ht, len_upto, upto_from by lia.
Qed.

(** * The record layer end to end *)

Section RecordLayerTheorems.
Context `{C : Crypto} {L : CryptoLaws C}.

Lemma len_packetNonce n : len (packetNonce n) = 12.
Proof.
  unfold packetNonce, le_bytes. rewrite len_app. unfold len.
  by rewrite length_reverse, length_be_bytes.
Qed.

(** The encoded header reads nothing but the header fields of the frame. *)
Lemma header_with_raw f d w n : encodeHeaderInto (with_raw f d w) n = encodeHeaderInto f n.
Proof. done. Qed.

Lemma aead_split k n p a : len k = 32 → len n = 12 →
  ∃ ct tag, aead_seal k n p a = ct ++ tag ∧ len ct = len p ∧ len tag = 16.
Proof.
  intros Hk Hn. pose proof (seal_len k n p a Hk Hn) as Hl. pose proof (len_nonneg p).
  exists (upto (len p) (aead_seal k n p a)), (from (len p) (aead_seal k n p a)).
  rewrite upto_from, len_upto, len_from by lia. split_and!; lia || done.
Qed.

(** Sealing, then parsing, then opening. *)
Lemma sealed_opens f c plaintext m :
  frame_wf f → Version f = UDPC_VERSION → validUDPCCommand (Cmd f) = true →
  len (aead_key c) = 32 → Forall is_byte plaintext → len plaintext ≤ UDPC_MAX_DATA →
  (m = 0 ∨ m = Magic f) →
  let wire := SealFrameAEAD f c plaintext in
  ∃ g, parseUDPCFrame wire m = Ok g ∧ g = with_raw f (Data g) wire ∧
       len (Data g) = len plaintext ∧ OpenFrameAEADInto g c = Ok plaintext.
Proof.
  intros Hwf Hv Hc Hk Hp Hlen Hm. cbv zeta.
  assert (Hseal : SealFrameAEAD f c plaintext = sealFrameAEADInto f c plaintext).
  { unfold SealFrameAEAD. unfold UDPC_MAX_DATA, UDPC_MAX_PKT, UDPC_HDR_SIZE, UDPC_TRAILER_SIZE in *.
    destruct (Z.ltb_spec 65535 (len plaintext)); [lia|].
    destruct (Z.ltb_spec 1450 (40 + len plaintext + 16)); [lia|done]. }
  rewrite Hseal. unfold sealFrameAEADInto.
  destruct (aead_split (aead_key c) (packetNonce (PacketNo f)) plaintext
              (encodeHeaderInto f (len plaintext)) Hk (len_packetNonce _))
    as (ct & tag & Hct & Hcl & Htl).
  rewrite Hct, <- Hcl. eexists. split.
  { apply parse_encode; try done. lia. }
  cbn [with_raw Data]. split_and!; try done.
  unfold OpenFrameAEADInto, UDPC_HDR_SIZE, UDPC_TRAILER_SIZE. cbn [with_raw raw PacketNo].
  autorewrite with len. pose proof (len_nonneg ct).
  destruct (Z.ltb_spec (40 + (len ct + len tag)) (40 + 16)); [lia|].
  rewrite from_app, upto_app by (by autorewrite with len).
  rewrite <- Hct, Hcl, open_seal; [done|done|apply len_packetNonce|done].
Qed.

(** C14: (roundtrip) The record layer: a frame sealed under a cipher state is a
    valid v2 datagram whose header fields the peer's parser recovers, and
    opening what was parsed under the same key gives back the plaintext. *)
Theorem seal_parse_open f c plaintext m :
  frame_wf f → Version f = UDPC_VERSION → validUDPCCommand (Cmd f) = true →
  len (aead_key c) = 32 → Forall is_byte plaintext → len plaintext ≤ UDPC_MAX_DATA →
  (m = 0 ∨ m = Magic f) →
  let wire := SealFrameAEAD f c plaintext in
  ∃ g, parseUDPCFrame wire m = Ok g ∧ g = with_raw f (Data g) wire ∧
       len (Data g) = len plaintext ∧ OpenFrameAEADInto g c = Ok plaintext.
Proof. apply sealed_opens. Qed.

(** C11: (safety) Authenticity of records: a datagram that parses and opens is
    byte for byte what sealing the returned plaintext under the same key with
    the parsed header fields produces, so neither a header field (session,
    packet number, sequence, ACK, window, flags) nor the payload can be altered. *)
Theorem open_authentic buf m f c plaintext :
  Forall is_byte buf → parseUDPCFrame buf m = Ok f → len (aead_key c) = 32 →
  OpenFrameAEADInto f c = Ok plaintext →
  len plaintext = len (Data f) ∧ buf = SealFrameAEAD f c plaintext.
Proof.
  intros Hb Hp Hk Ho. destruct (encode_parse _ _ _ Hb Hp) as [Heq _].
  apply parse_inv in Hp as (Hlen & _ & _ & _ & Hdl & Hf).
  assert (Hraw : raw f = buf) by by rewrite Hf.
  assert (Hdata : len (Data f) = len buf - 56).
  { assert (HD : Data f = slice 40 (40 + be_val (slice 38 40 buf)) buf) by by rewrite Hf.
    rewrite HD, len_slice; lia. }
  assert (Hhead : upto 40 buf = encodeHeaderInto f (len (Data f))).
  { rewrite Heq at 1. by rewrite upto_app by by autorewrite with len. }
  unfold OpenFrameAEADInto, UDPC_HDR_SIZE, UDPC_TRAILER_SIZE in Ho. rewrite Hraw in Ho.
  destruct (Z.ltb_spec (len buf) (40 + 16)); [done|].
  destruct (aead_open _ _ _ _) as [p|] eqn:Hopen; [|done]. injection Ho as ->.
  apply open_sound in Hopen; [|done|apply len_packetNonce].
  assert (Hpl : len plaintext = len (Data f)).
  { pose proof (len_from 40 buf ltac:(lia)) as Hfr. rewrite Hopen in Hfr.
    rewrite seal_len in Hfr by (done || apply len_packetNonce). lia. }
  split; [done|]. unfold SealFrameAEAD, UDPC_MAX_PKT, UDPC_HDR_SIZE.
  destruct (Z.ltb_spec 65535 (len plaintext)); [lia|].
  destruct (Z.ltb_spec 1450 (40 + len plaintext + 16)); [lia|].
  unfold sealFrameAEADInto. rewrite Hpl, <- Hhead, <- Hopen. by rewrite upto_from.
Qed.

(** Client and server install the same two keys the other way round. *)
Lemma ciphers_agree k :
  len (C2S k) = 32 → len (S2C k) = 32 →
  ∃ ck sk, ClientFrameCiphers k = Ok ck ∧ ServerFrameCiphers k = Ok sk ∧
           Send ck = Recv sk ∧ Recv ck = Send sk.
Proof.
  intros H1 H2. unfold ClientFrameCiphers, ServerFrameCiphers, newAEADCipherState.
  rewrite H1, H2. simpl. eauto 10.
Qed.

Lemma session_keys_len psk cn sn sid :
  let k := DerivePSKSessionKeys psk cn sn sid in len (C2S k) = 32 ∧ len (S2C k) = 32.
Proof.
  unfold DerivePSKSessionKeys; simpl.
  set (mat := hkdf_sha256 _ _ _ 64).
  assert (len mat = 64) by (apply hkdf_len; lia).
  rewrite len_upto, len_from by lia. lia.
Qed.

(** Key agreement: from the same PSK, nonces and session id both
    ends build valid ciphers, and each end's receiving key is the other's
    sending key, in both directions. *)
Theorem session_keys_agree psk clientNonce serverNonce sessionID :
  let k := DerivePSKSessionKeys psk clientNonce serverNonce sessionID in
  ∃ ck sk, ClientFrameCiphers k = Ok ck ∧ ServerFrameCiphers k = Ok sk ∧
           Send ck = Recv sk ∧ Recv ck = Send sk.
Proof. intros k. by apply ciphers_agree; apply session_keys_len. Qed.

(** [matchSynPSK] returns the first password whose SYN key verifies the frame. *)
Lemma matchSynPSK_spec wire passwords nonce :
  matchSynPSK wire passwords nonce =
  default [] (head (filter (λ psk, is_Ok (VerifyFrameAuth wire
                      (SynMAC (DerivePSKHandshakeKeys psk nonce))) = true) passwords)).
Proof.
  induction passwords as [|p ps IH]; simpl; [done|]. rewrite filter_cons.
  destruct (VerifyFrameAuth wire _); simpl; [done|]. apply IH.
Qed.

End RecordLayerTheorems.

Definition toy_cipher : AEADCipherState := {| aead_key := zeros 32 |}.

Lemma seal_parse_open_witness :
  ∃ g, parseUDPCFrame (SealFrameAEAD sample_frame toy_cipher (str "hello")) 0 = Ok g ∧
       OpenFrameAEADInto g toy_cipher = Ok (str "hello").
Proof.
  destruct (seal_parse_open sample_frame toy_cipher (str "hello") 0) as (g & Hg & _ & _ & Ho).
  - apply (bool_decide_unpack _). vm_compute. exact I.
  - reflexivity.
  - reflexivity.
  - reflexivity.
  - apply (bool_decide_unpack _). vm_compute. exact I.
  - by vm_compute.
  - by left.
  - exists g. split; [exact Hg|exact Ho].
Defined.

Definition sample_wire : bytes := SealFrameAEAD sample_frame toy_cipher (str "hello").
Definition sample_parsed : UDPCFrame :=
  match parseUDPCFrame sample_wire 0 with Ok g => g | Err _ => sample_frame end.

Lemma open_authentic_witness :
  sample_wire = SealFrameAEAD sample_parsed toy_cipher (str "hello").
Proof.
  destruct (open_authentic sample_wire 0 sample_parsed toy_cipher (str "hello")) as [_ H].
  - apply (bool_decide_unpack _). vm_compute. exact I.
  - vm_compute. reflexivity.
  - reflexivity.
  - vm_compute. reflexivity.
  - exact H.
Defined.

Lemma session_keys_agree_witness :
  ∃ ck sk,
    ClientFrameCiphers (DerivePSKSessionKeys (str "pw") (zeros 16) (zeros 16) 7) = Ok ck ∧
    ServerFrameCiphers (DerivePSKSessionKeys (str "pw") (zeros 16) (zeros 16) 7) = Ok sk ∧
    Send ck = Recv sk ∧ Recv ck = Send sk.
Proof. exact (session_keys_agree (str "pw") (zeros 16) (zeros 16) 7). Defined.
