(* ===== verification/Bitmap.v ===== *)
(** Bitmaps kept as lists of 64-bit words, as the replay window (server.go) and
    the SACK bitmap (recovery.go, delivery.go) keep them. *)
From S2P Require Import Prelude.
Local Open Scope Z_scope.

Definition word (w : list Z) (i : nat) : Z := nth i w 0.

(** [(w[behind/64] & (1 << (behind % 64))) != 0] *)
Definition bitSet (w : list Z) (behind : Z) : bool :=
  negb (Z.land (word w (Z.to_nat (behind / 64))) (Z.shiftl 1 (behind mod 64)) =? 0).

Definition win_bit (w : list Z) (k : Z) : bool :=
  Z.testbit (word w (Z.to_nat (k / 64))) (k mod 64).

Lemma land_bit x n : 0 ≤ n → negb (Z.land x (Z.shiftl 1 n) =? 0) = Z.testbit x n.
Proof.
  intros Hn. rewrite Z.shiftl_1_l. destruct (Z.testbit x n) eqn:Hb.
  - apply negb_true_iff, Z.eqb_neq. intros H.
    apply (f_equal (λ z, Z.testbit z n)) in H.
    by rewrite Z.land_spec, Z.pow2_bits_true, Hb, Z.bits_0 in H.
  - apply negb_false_iff, Z.eqb_eq, Z.bits_inj'. intros m Hm.
    rewrite Z.land_spec, Z.bits_0, Z.pow2_bits_eqb by done.
    destruct (Z.eqb_spec n m) as [->|]; by rewrite ?Hb, ?andb_false_r.
Qed.

Lemma bitSet_win w k : bitSet w k = win_bit w k.
Proof. apply land_bit. apply Z.mod_pos_bound. lia. Qed.

Lemma word_insert w i j x : (i < length w)%nat →
  word (<[i := x]> w) j = if decide (i = j) then x else word w j.
Proof.
  intros Hi. unfold word. rewrite !nth_lookup. case_decide as Hij.
  - subst. by rewrite list_lookup_insert_eq.
  - by rewrite list_lookup_insert_ne.
Qed.

Lemma testbit_u64_shiftl x s n : 0 ≤ n → 0 ≤ s →
  Z.testbit (u64 (Z.shiftl x s)) n = (n <? 64) && Z.testbit x (n - s).
Proof.
  intros Hn Hs. unfold u64, uwrap. destruct (Z.ltb_spec n 64); simpl.
  - rewrite Z.mod_pow2_bits_low by done. by apply Z.shiftl_spec.
  - by apply Z.mod_pow2_bits_high.
Qed.

Lemma bits_range x : 0 ≤ x → (∀ n, 64 ≤ n → Z.testbit x n = false) → 0 ≤ x < 2 ^ 64.
Proof.
  intros Hpos Hbits. split; [done|].
  assert (Heq : x = x mod 2 ^ 64).
  { apply Z.bits_inj'. intros n Hn. destruct (Z.lt_ge_cases n 64).
    - by rewrite Z.mod_pow2_bits_low.
    - by rewrite Z.mod_pow2_bits_high, Hbits. }
  rewrite Heq. apply Z.mod_pos_bound. lia.
Qed.

Lemma range_bits x n : 0 ≤ x < 2 ^ 64 → 64 ≤ n → Z.testbit x n = false.
Proof. intros Hx Hn. rewrite <- (Z.mod_small x (2 ^ 64)) by done. by apply Z.mod_pow2_bits_high. Qed.

Lemma win_bit_zero n k : win_bit (replicate n 0) k = false.
Proof.
  unfold win_bit, word. replace (nth _ _ 0) with 0; [apply Z.bits_0|].
  generalize (Z.to_nat (k / 64)). induction n; intros [|i]; simpl; auto.
Qed.

Lemma win_update_bit w k v j : 0 ≤ k < 64 * Z.of_nat (length w) → 0 ≤ j →
  win_bit (<[Z.to_nat (k / 64) := v]> w) j =
  if decide (j / 64 = k / 64) then Z.testbit v (j mod 64) else win_bit w j.
Proof.
  intros Hk Hj. unfold win_bit.
  pose proof (Z.div_le_mono 0 j 64 ltac:(lia) Hj) as Hj0.
  pose proof (Z.div_lt_upper_bound k 64 (Z.of_nat (length w)) ltac:(lia) ltac:(lia)).
  pose proof (Z.div_pos k 64 ltac:(lia) ltac:(lia)). change (0 / 64) with 0 in Hj0.
  rewrite word_insert by lia. repeat case_decide; done || lia.
Qed.

Lemma div_mod_ext j k : j / 64 = k / 64 → j mod 64 = k mod 64 → j = k.
Proof. intros. pose proof (Z.div_mod j 64). pose proof (Z.div_mod k 64). lia. Qed.

Lemma win_set_bit w k j : 0 ≤ k < 64 * Z.of_nat (length w) → 0 ≤ j →
  win_bit (<[Z.to_nat (k / 64) :=
     Z.lor (word w (Z.to_nat (k / 64))) (Z.shiftl 1 (k mod 64))]> w) j =
  (j =? k) || win_bit w j.
Proof.
  intros Hk Hj. rewrite win_update_bit by done.
  pose proof (Z.mod_pos_bound k 64 ltac:(lia)). pose proof (Z.mod_pos_bound j 64 ltac:(lia)).
  case_decide as Hd.
  - rewrite Z.lor_spec, Z.shiftl_1_l, Z.pow2_bits_eqb by lia. unfold win_bit. rewrite Hd, orb_comm.
    f_equal. destruct (Z.eqb_spec (k mod 64) (j mod 64)), (Z.eqb_spec j k); try done.
    + by destruct (n (div_mod_ext j k Hd ltac:(done))).
    + by subst.
  - by destruct (Z.eqb_spec j k) as [->|].
Qed.

Lemma win_clear_bit w k j : 0 ≤ k < 64 * Z.of_nat (length w) → 0 ≤ j →
  win_bit (<[Z.to_nat (k / 64) :=
     Z.ldiff (word w (Z.to_nat (k / 64))) (Z.shiftl 1 (k mod 64))]> w) j =
  negb (j =? k) && win_bit w j.
Proof.
  intros Hk Hj. rewrite win_update_bit by done.
  pose proof (Z.mod_pos_bound k 64 ltac:(lia)). pose proof (Z.mod_pos_bound j 64 ltac:(lia)).
  case_decide as Hd.
  - rewrite Z.ldiff_spec, Z.shiftl_1_l, Z.pow2_bits_eqb by lia. unfold win_bit.
    rewrite Hd, andb_comm. do 2 f_equal.
    destruct (Z.eqb_spec (k mod 64) (j mod 64)), (Z.eqb_spec j k); try done.
    + by destruct (n (div_mod_ext j k Hd ltac:(done))).
    + by subst.
  - by destruct (Z.eqb_spec j k) as [->|].
Qed.

Lemma lor_bit_range x n : 0 ≤ x < 2 ^ 64 → 0 ≤ n < 64 → 0 ≤ Z.lor x (Z.shiftl 1 n) < 2 ^ 64.
Proof.
  intros Hx Hn. apply bits_range.
  - apply Z.lor_nonneg. split; [lia|]. apply Z.shiftl_nonneg. lia.
  - intros i Hi. rewrite Z.lor_spec, range_bits, Z.shiftl_1_l, Z.pow2_bits_false by (done || lia).
    done.
Qed.

Lemma ldiff_range x y : 0 ≤ x < 2 ^ 64 → 0 ≤ Z.ldiff x y < 2 ^ 64.
Proof.
  intros Hx. apply bits_range; [apply Z.ldiff_nonneg; lia|].
  intros i Hi. by rewrite Z.ldiff_spec, range_bits.
Qed.

Lemma word_in_range words i : Forall (λ w, 0 ≤ w < 2 ^ 64) words → 0 ≤ word words i < 2 ^ 64.
Proof.
  intros Hall. unfold word. rewrite nth_lookup. destruct (words !! i) eqn:Hx; cbn; [|lia].
  by apply (Forall_lookup_1 _ _ _ _ Hall Hx).
Qed.

Lemma win_bit_at words j r : 0 ≤ r < 64 →
  win_bit words (Z.of_nat j * 64 + r) = Z.testbit (word words j) r.
Proof.
  intros Hr. unfold win_bit. rewrite Z.add_comm, Z.div_add, Z_mod_plus_full by lia.
  rewrite Z.div_small, Z.mod_small by lia. by rewrite Z.add_0_l, Nat2Z.id.
Qed.
