(* ===== verification/Replay.v ===== *)
(** The replay filter of src/tunnel/server.go (type [ReplayFilter]): a 4096-bit
    sliding window over packet numbers, kept as 64 words of 64 bits and slid in
    steps of at most one word.  The operations are translated word for word and
    refined to a set of packet numbers. *)
From S2P Require Import Prelude Bitmap.
Local Open Scope Z_scope.

Definition replayWindowPackets : Z := 4096.
Definition replayWindowWords : nat := 64.

Record ReplayFilter := mkReplay {
  maxSeq : Z;
  seenMax : bool;
  window : list Z;
}.

(** Go's zero value. *)
Definition newReplayFilter : ReplayFilter := mkReplay 0 false (replicate replayWindowWords 0).

Definition Seen (rf : ReplayFilter) (seq : Z) : bool :=
  if seq =? 0 then true else
  if negb (seenMax rf) then false else
  if maxSeq rf <? seq then false else
  let behind := maxSeq rf - seq in
  if replayWindowPackets <=? behind then true else bitSet (window rf) behind.

(** One round of the sliding loop: a full word moves by [copy], a smaller step
    shifts in place from the last word down to the first. *)
Definition slideWord (w : list Z) : list Z := 0 :: take (replayWindowWords - 1) w.

Definition slideBits (step : Z) (w : list Z) : list Z :=
  let w' := foldl (λ w i,
      <[i := Z.lor (u64 (Z.shiftl (word w i) step)) (Z.shiftr (word w (i - 1)) (64 - step))]> w)
      w (reverse (seq 1 (replayWindowWords - 1))) in
  <[0%nat := u64 (Z.shiftl (word w' 0) step)]> w'.

(** [for diff > 0 { ... diff -= step }]: each round takes off at least one, so
    [diff] rounds are always enough. *)
Fixpoint slideLoop (fuel : nat) (diff : Z) (w : list Z) : list Z :=
  match fuel with
  | O => w
  | S fuel =>
      if 0 <? diff then
        let step := Z.min diff 64 in
        let w := if step =? 64 then slideWord w else slideBits step w in
        slideLoop fuel (diff - step) w
      else w
  end.

Definition acceptLocked (rf : ReplayFilter) (seq : Z) : bool * ReplayFilter :=
  if seq =? 0 then (false, rf) else
  if negb (seenMax rf) then
    (true, mkReplay seq true (<[0%nat := 1]> (window rf)))
  else if maxSeq rf <? seq then
    let diff := seq - maxSeq rf in
    let w := if replayWindowPackets <=? diff then replicate replayWindowWords 0
             else slideLoop (Z.to_nat diff) diff (window rf) in
    (true, mkReplay seq true (<[0%nat := Z.lor (word w 0) 1]> w))
  else
    let behind := maxSeq rf - seq in
    if replayWindowPackets <=? behind then (false, rf) else
    if bitSet (window rf) behind then (false, rf) else
    let wordIdx := Z.to_nat (behind / 64) in
    (true, mkReplay (maxSeq rf) (seenMax rf)
             (<[wordIdx := Z.lor (word (window rf) wordIdx) (Z.shiftl 1 (behind mod 64))]>
                (window rf))).

Definition Accept (rf : ReplayFilter) (seq : Z) : bool * ReplayFilter := acceptLocked rf seq.

Definition Remove (rf : ReplayFilter) (seq : Z) : ReplayFilter :=
  if seq =? 0 then rf else
  if negb (seenMax rf) || (maxSeq rf <? seq) || (replayWindowPackets <=? maxSeq rf - seq)
  then rf else
  let behind := maxSeq rf - seq in
  let i := Z.to_nat (behind / 64) in
  mkReplay (maxSeq rf) (seenMax rf)
    (<[i := Z.ldiff (word (window rf) i) (Z.shiftl 1 (behind mod 64))]> (window rf)).

Definition CheckAndAdd (rf : ReplayFilter) (seq : Z) : bool * ReplayFilter :=
  let '(ok, rf') := acceptLocked rf seq in (negb ok, rf').

(** * The bits of a window *)

Definition win_wf (w : list Z) : Prop :=
  length w = replayWindowWords ∧ Forall (λ x, 0 ≤ x < 2 ^ 64) w.

Lemma word_range w i : win_wf w → 0 ≤ word w i < 2 ^ 64.
Proof. intros [_ Hall]. by apply word_in_range. Qed.

Lemma word_high_bits w i n : win_wf w → 64 ≤ n → Z.testbit (word w i) n = false.
Proof.
  intros Hw Hn. pose proof (word_range w i Hw).
  rewrite <- (Z.mod_small (word w i) (2 ^ 64)) by done. by apply Z.mod_pow2_bits_high.
Qed.

(** The in-place loop reads only words it has not written yet. *)
Lemma slide_fold (f : Z → Z → Z) n w j : (n < length w)%nat →
  word (foldl (λ w i, <[i := f (word w i) (word w (i - 1))]> w) w (reverse (seq 1 n))) j =
  if decide (1 ≤ j ≤ n)%nat then f (word w j) (word w (j - 1)) else word w j.
Proof.
  revert w. induction n as [|n IH]; intros w Hn; [by rewrite decide_False by lia|].
  rewrite seq_S, reverse_snoc. cbn [foldl]. rewrite IH by (rewrite length_insert; lia).
  rewrite !word_insert by lia.
  repeat case_decide; subst; try done; try lia.
Qed.

Lemma length_slide_fold (f : Z → Z → Z) idx w :
  length (foldl (λ w i, <[i := f (word w i) (word w (i - 1)%nat)]> w) w idx) = length w.
Proof.
  revert w. induction idx as [|i idx IH]; intros w; [done|]. cbn [foldl].
  by rewrite IH, length_insert.
Qed.

Lemma slideBits_word step w i : win_wf w →
  word (slideBits step w) i =
  match i with
  | O => u64 (Z.shiftl (word w 0) step)
  | S i' => if decide (i < 64)%nat
            then Z.lor (u64 (Z.shiftl (word w i) step)) (Z.shiftr (word w i') (64 - step))
            else word w i
  end.
Proof.
  intros [Hlen _]. unfold slideBits, replayWindowWords in *.
  set (f := λ a b, Z.lor (u64 (Z.shiftl a step)) (Z.shiftr b (64 - step))).
  rewrite word_insert by (rewrite (length_slide_fold f); lia).
  rewrite !(slide_fold f) by lia.
  destruct i as [|i]; repeat case_decide; try lia; try done.
  subst f. simpl. by replace (i - 0)%nat with i by lia.
Qed.

Lemma length_slideBits step w : length (slideBits step w) = length w.
Proof.
  unfold slideBits. rewrite length_insert.
  apply (length_slide_fold (λ a b, Z.lor (u64 (Z.shiftl a step)) (Z.shiftr b (64 - step)))).
Qed.

(** A shift by [step] moves every bit of the window by [step] places. *)
Lemma slideBits_bit step w k : win_wf w → 0 < step < 64 → 0 ≤ k < 4096 →
  win_bit (slideBits step w) k = (step <=? k) && win_bit w (k - step).
Proof.
  intros Hw Hs Hk. unfold win_bit. rewrite slideBits_word by done.
  pose proof (Z.div_mod k 64 ltac:(lia)) as Hdm.
  pose proof (Z.mod_pos_bound k 64 ltac:(lia)) as Hr.
  set (q := k / 64) in *. set (r := k mod 64) in *.
  destruct (Z.leb_spec step r) as [Hle|Hgt].
  - assert (Hd : (k - step) / 64 = q) by (symmetry; apply (Z.div_unique _ _ _ (r - step)); lia).
    assert (Hm : (k - step) mod 64 = r - step)
      by (symmetry; apply (Z.mod_unique _ _ q); lia).
    rewrite Hd, Hm. destruct (Z.leb_spec step k); [|lia]. cbn [andb].
    destruct (Z.to_nat q) as [|q'] eqn:Hq.
    + rewrite testbit_u64_shiftl by lia. by destruct (Z.ltb_spec r 64); [|lia].
    + rewrite decide_True by lia.
      rewrite Z.lor_spec, testbit_u64_shiftl, Z.shiftr_spec by lia.
      destruct (Z.ltb_spec r 64); [|lia]. cbn [andb].
      rewrite (word_high_bits _ _ (r + (64 - step))) by (done || lia). by rewrite orb_false_r.
  - destruct (Z.to_nat q) as [|q'] eqn:Hq.
    + destruct (Z.leb_spec step k); [lia|]. rewrite testbit_u64_shiftl by lia.
      rewrite (Z.testbit_neg_r _ (r - step)) by lia. apply andb_false_r.
    + destruct (Z.leb_spec step k); [|lia]. rewrite decide_True by lia.
      rewrite Z.lor_spec, testbit_u64_shiftl, Z.shiftr_spec by lia.
      rewrite (Z.testbit_neg_r _ (r - step)), andb_false_r by lia. cbn [orb andb].
      assert (Hd : (k - step) / 64 = q - 1)
        by (symmetry; apply (Z.div_unique _ _ _ (r + 64 - step)); lia).
      assert (Hm : (k - step) mod 64 = r + 64 - step)
        by (symmetry; apply (Z.mod_unique _ _ (q - 1)); lia).
      rewrite Hd, Hm. f_equal; [f_equal; lia|lia].
Qed.

Lemma win_wf_intro w : length w = replayWindowWords →
  (∀ i n, 64 ≤ n → Z.testbit (word w i) n = false) → (∀ i, 0 ≤ word w i) → win_wf w.
Proof.
  intros Hlen Hbits Hpos. split; [done|]. apply Forall_lookup_2. intros i x Hx.
  assert (word w i = x) as <- by (unfold word; by rewrite nth_lookup, Hx).
  by apply bits_range; [|apply Hbits].
Qed.

Lemma slideBits_wf step w : win_wf w → 0 < step < 64 → win_wf (slideBits step w).
Proof.
  intros Hw Hs. apply win_wf_intro.
  - rewrite length_slideBits. apply Hw.
  - intros i n Hn. rewrite slideBits_word by done. destruct i as [|i].
    + rewrite testbit_u64_shiftl by lia. by destruct (Z.ltb_spec n 64); [lia|].
    + case_decide; [|by apply word_high_bits].
      rewrite Z.lor_spec, testbit_u64_shiftl, Z.shiftr_spec by lia.
      destruct (Z.ltb_spec n 64); [lia|]. apply word_high_bits; [done|lia].
  - intros i. rewrite slideBits_word by done. destruct i as [|i]; [apply u64_range|].
    case_decide; [|by apply word_range]. apply Z.lor_nonneg. split; [apply u64_range|].
    apply Z.shiftr_nonneg. by apply word_range.
Qed.

Lemma slideWord_wf w : win_wf w → win_wf (slideWord w).
Proof.
  intros [Hl Hall]. unfold win_wf, slideWord, replayWindowWords in *. split.
  - cbn [length]. rewrite length_take. lia.
  - constructor; [lia|]. by apply Forall_take.
Qed.

Lemma slideWord_bit w k : 0 ≤ k < 4096 →
  win_bit (slideWord w) k = (64 <=? k) && win_bit w (k - 64).
Proof.
  intros Hk. unfold win_bit.
  replace ((k - 64) / 64) with (k / 64 - 1)
    by (replace (k - 64) with (k + (-1) * 64) by lia; rewrite Z.div_add; lia).
  replace ((k - 64) mod 64) with (k mod 64)
    by (replace (k - 64) with (k + (-1) * 64) by lia; by rewrite Z_mod_plus_full).
  pose proof (Z.div_mod k 64 ltac:(lia)). pose proof (Z.mod_pos_bound k 64 ltac:(lia)).
  destruct (Z.leb_spec 64 k); simpl.
  - replace (Z.to_nat (k / 64)) with (S (Z.to_nat (k / 64 - 1))) by lia.
    unfold word, slideWord, replayWindowWords. cbn [nth]. f_equal.
    rewrite !nth_lookup. by rewrite lookup_take_lt by lia.
  - replace (Z.to_nat (k / 64)) with 0%nat by lia. apply Z.bits_0.
Qed.

Lemma slideLoop_spec fuel diff w : win_wf w → 0 ≤ diff → (Z.to_nat diff <= fuel)%nat →
  win_wf (slideLoop fuel diff w) ∧
  ∀ k, 0 ≤ k < 4096 → win_bit (slideLoop fuel diff w) k = (diff <=? k) && win_bit w (k - diff).
Proof.
  revert diff w. induction fuel as [|fuel IH]; intros diff w Hw Hd Hf.
  { assert (diff = 0) as -> by lia. split; [done|]. intros k Hk. cbn [slideLoop].
    rewrite Z.sub_0_r. by destruct (Z.leb_spec 0 k); [|lia]. }
  cbn [slideLoop]. destruct (Z.ltb_spec 0 diff) as [Hpos|Hpos].
  2:{ assert (diff = 0) as -> by lia. split; [done|]. intros k Hk.
      rewrite Z.sub_0_r. by destruct (Z.leb_spec 0 k); [|lia]. }
  set (step := Z.min diff 64). set (w1 := if step =? 64 then _ else _).
  assert (Hw1 : win_wf w1 ∧
    ∀ k, 0 ≤ k < 4096 → win_bit w1 k = (step <=? k) && win_bit w (k - step)).
  { subst w1. destruct (Z.eqb_spec step 64) as [Hs|Hs].
    - rewrite Hs. split; [by apply slideWord_wf|]. intros. by apply slideWord_bit.
    - split; [apply slideBits_wf; [done|lia]|]. intros. apply slideBits_bit; [done|lia|lia]. }
  destruct Hw1 as [Hwf1 Hb1].
  destruct (IH (diff - step) w1) as [Hwf2 Hb2]; [done|lia|lia|]. split; [done|].
  intros k Hk. rewrite Hb2 by lia. destruct (Z.leb_spec (diff - step) k); simpl.
  - rewrite Hb1 by lia. f_equal; [|f_equal; lia].
    destruct (Z.leb_spec step (k - (diff - step))), (Z.leb_spec diff k); lia || done.
  - by destruct (Z.leb_spec diff k); [lia|].
Qed.

(** * Specification: a set of packet numbers and a high-water mark *)

Record ReplaySpec := mkSpec { top : option Z; accepted : gset Z }.

Definition spec_new : ReplaySpec := mkSpec None ∅.

Definition too_old (s : ReplaySpec) (n : Z) : bool :=
  match top s with Some m => n + replayWindowPackets <=? m | None => false end.

(** Zero, too old, or already in the set. *)
Definition spec_seen (s : ReplaySpec) (n : Z) : bool :=
  (n =? 0) || too_old s n || bool_decide (n ∈ accepted s).

Definition spec_accept (s : ReplaySpec) (n : Z) : bool * ReplaySpec :=
  if spec_seen s n then (false, s)
  else (true, mkSpec (Some (Z.max n (default 0 (top s)))) ({[n]} ∪ accepted s)).

(** Rolling back a number forgets it, unless it is older than the window. *)
Definition spec_remove (s : ReplaySpec) (n : Z) : ReplaySpec :=
  if too_old s n then s else mkSpec (top s) (accepted s ∖ {[n]}).

Definition replay_rep (rf : ReplayFilter) (s : ReplaySpec) : Prop :=
  win_wf (window rf) ∧ seenMax rf = bool_decide (is_Some (top s)) ∧
  match top s with
  | None => accepted s = ∅ ∧ window rf = replicate replayWindowWords 0
  | Some m => maxSeq rf = m ∧ 0 < m ∧ (∀ n, n ∈ accepted s → 0 < n ≤ m) ∧
              ∀ k, 0 ≤ k < 4096 → win_bit (window rf) k = bool_decide (m - k ∈ accepted s)
  end.

Lemma replay_rep_new : replay_rep newReplayFilter spec_new.
Proof. split; [|done]. split; [done|]. apply Forall_replicate. lia. Qed.

Lemma win_wf_insert w i v : win_wf w → 0 ≤ v < 2 ^ 64 → win_wf (<[i := v]> w).
Proof. intros [Hl Hall] Hv. split; [by rewrite length_insert|]. by apply Forall_insert. Qed.

(** * Refinement *)

(** Bit 0 of the slid window stands for the new maximum. *)
Lemma rep_advance rf s m n : replay_rep rf s → top s = Some m → m < n →
  let w := if replayWindowPackets <=? n - m then replicate replayWindowWords 0
           else slideLoop (Z.to_nat (n - m)) (n - m) (window rf) in
  win_wf w ∧ ∀ k, 0 ≤ k < 4096 → win_bit w k = bool_decide (n - k ∈ accepted s).
Proof.
  unfold replay_rep. intros (Hw & _ & Hrep) Htop Hmn. rewrite Htop in Hrep.
  destruct Hrep as (_ & Hm0 & Hin & Hbits). unfold replayWindowPackets.
  destruct (Z.leb_spec 4096 (n - m)) as [Hfar|Hnear].
  - split; [split; [done|apply Forall_replicate; lia]|]. intros k Hk.
    rewrite bool_decide_eq_false_2 by (intros Hc%Hin; lia).
    apply win_bit_zero.
  - destruct (slideLoop_spec (Z.to_nat (n - m)) (n - m) (window rf)) as [Hwf Hb];
      [done|lia|lia|]. split; [done|]. intros k Hk. rewrite Hb by done.
    destruct (Z.leb_spec (n - m) k); simpl.
    + rewrite Hbits by lia. by replace (m - (k - (n - m))) with (n - k) by lia.
    + symmetry. apply bool_decide_eq_false_2. intros Hc%Hin. lia.
Qed.

(** A window whose bits are those of [S], with the bit of [n] set on top. *)
Lemma rep_set w s n m k : win_wf w → 0 < n ≤ m → 0 ≤ k < 4096 → m - k = n → 
  (∀ x, x ∈ accepted s → 0 < x ≤ m) →
  (∀ j, 0 ≤ j < 4096 → win_bit w j = bool_decide (m - j ∈ accepted s)) →
  replay_rep (mkReplay m true (<[Z.to_nat (k / 64) :=
      Z.lor (word w (Z.to_nat (k / 64))) (Z.shiftl 1 (k mod 64))]> w))
    (mkSpec (Some m) ({[n]} ∪ accepted s)).
Proof.
  intros Hw Hn Hk Hmk Hin Hbits. assert (length w = 64%nat) by apply Hw.
  pose proof (Z.mod_pos_bound k 64 ltac:(lia)).
  split; [|split; [done|]]; cbn [window maxSeq top accepted].
  { apply win_wf_insert; [done|]. apply lor_bit_range; [by apply word_range|lia]. }
  split_and!; [done|lia| |].
  - intros x [->%elem_of_singleton|Hx%Hin]%elem_of_union; lia.
  - intros j Hj. rewrite win_set_bit, Hbits by (done || lia).
    destruct (Z.eqb_spec j k) as [->|Hjk]; cbn [orb].
    + rewrite Hmk, bool_decide_eq_true_2; [done|]. apply elem_of_union. left. by apply elem_of_singleton.
    + apply bool_decide_ext. rewrite elem_of_union, elem_of_singleton. intuition lia.
Qed.

Lemma accept_refines rf s n : replay_rep rf s → 0 ≤ n →
  (acceptLocked rf n).1 = (spec_accept s n).1 ∧
  replay_rep (acceptLocked rf n).2 (spec_accept s n).2.
Proof.
  intros Hrep Hn. unfold acceptLocked, spec_accept, spec_seen, too_old.
  destruct (Z.eqb_spec n 0) as [->|Hn0]; [done|]. cbn [orb].
  pose proof Hrep as (Hw & Hsm & Hmore).
  destruct (top s) as [m|] eqn:Htop; rewrite Hsm.
  2:{ destruct Hmore as [Hacc Hwin]. rewrite Hacc, Hwin in *. change (default 0 None) with 0.
      rewrite bool_decide_eq_false_2 by set_solver. split; [done|]. rewrite Z.max_l by lia.
      apply (rep_set (replicate replayWindowWords 0) spec_new n n 0); try done; try lia.
      intros j _. by rewrite win_bit_zero. }
  destruct Hmore as (Hmax & Hm0 & Hin & Hbits). rewrite Hmax. change (default 0 (Some m)) with m.
  rewrite bool_decide_eq_true_2 by done. cbn [negb].
  destruct (Z.ltb_spec m n) as [Hlt|Hge].
  - destruct (rep_advance rf s m n Hrep Htop Hlt) as [Hwf Hb].
    unfold replayWindowPackets in *. destruct (Z.leb_spec (n + 4096) m); [lia|].
    rewrite bool_decide_eq_false_2 by (intros Hc%Hin; lia). cbn [orb].
    split; [done|]. rewrite Z.max_l by lia.
    apply (rep_set _ s n n 0); try done; try lia. intros x Hx%Hin. lia.
  - unfold replayWindowPackets. replace (4096 <=? m - n) with (n + 4096 <=? m) by lia.
    destruct (Z.leb_spec (n + 4096) m) as [Hold|Hnew]; cbn [orb]; [done|].
    rewrite bitSet_win, Hbits by lia. replace (m - (m - n)) with n by lia.
    destruct (decide (n ∈ accepted s)).
    { by rewrite !bool_decide_eq_true_2. }
    rewrite !bool_decide_eq_false_2 by done. split; [done|]. rewrite Z.max_r by lia.
    apply (rep_set (window rf) s n m (m - n)); try done; lia.
Qed.

Lemma remove_refines rf s n : replay_rep rf s → 0 ≤ n →
  replay_rep (Remove rf n) (spec_remove s n).
Proof.
  intros Hrep Hn. pose proof Hrep as (Hw & Hsm & Hmore). unfold Remove, spec_remove, too_old.
  destruct (top s) as [m|] eqn:Htop; rewrite Hsm.
  2:{ destruct Hmore as [Hacc Hwin]. replace (mkSpec None (accepted s ∖ {[n]})) with s.
      - by destruct (n =? 0).
      - destruct s as [t a]. simpl in *. subst. f_equal. set_solver. }
  destruct Hmore as (Hmax & Hm0 & Hin & Hbits). rewrite Hmax.
  rewrite bool_decide_eq_true_2 by done. cbn [negb orb]. unfold replayWindowPackets.
  assert (Hout : n ∉ accepted s → replay_rep rf (mkSpec (Some m) (accepted s ∖ {[n]}))).
  { intros Hc. replace (mkSpec _ _) with s; [done|]. destruct s as [t a]; simpl in *; subst.
    f_equal. set_solver. }
  destruct (Z.eqb_spec n 0) as [->|Hn0].
  { destruct (_ <=? m); [done|]. apply Hout. intros Hc%Hin. lia. }
  destruct (Z.ltb_spec m n); cbn [orb].
  { destruct (Z.leb_spec (n + 4096) m); [lia|]. apply Hout. intros Hc%Hin. lia. }
  replace (4096 <=? m - n) with (n + 4096 <=? m) by lia.
  destruct (Z.leb_spec (n + 4096) m); [done|].
  split; [|split; [done|]]; cbn [window maxSeq top accepted].
  { apply win_wf_insert; [done|]. apply ldiff_range. by apply word_range. }
  split_and!; [done|done|intros x [Hx%Hin _]%elem_of_difference; lia|].
  assert (length (window rf) = 64%nat) by apply Hw.
  intros j Hj. rewrite win_clear_bit, Hbits by (done || lia).
  destruct (Z.eqb_spec j (m - n)); cbn [negb andb].
  - symmetry. apply bool_decide_eq_false_2. replace (m - j) with n by lia. set_solver.
  - apply bool_decide_ext. rewrite elem_of_difference, elem_of_singleton. intuition lia.
Qed.

Lemma seen_refines rf s n : replay_rep rf s → 0 ≤ n → Seen rf n = spec_seen s n.
Proof.
  intros (Hw & Hsm & Hmore) Hn. unfold Seen, spec_seen, too_old.
  destruct (n =? 0); [done|]. cbn [orb]. rewrite Hsm.
  destruct (top s) as [m|]; [|destruct Hmore as [-> _]; symmetry; by apply bool_decide_eq_false_2].
  destruct Hmore as (Hmax & Hm0 & Hin & Hbits). rewrite Hmax.
  rewrite bool_decide_eq_true_2 by done. cbn [negb]. unfold replayWindowPackets.
  destruct (Z.ltb_spec m n).
  - destruct (Z.leb_spec (n + 4096) m); [lia|]. symmetry.
    apply bool_decide_eq_false_2. intros Hc%Hin. lia.
  - replace (4096 <=? m - n) with (n + 4096 <=? m) by lia.
    destruct (Z.leb_spec (n + 4096) m); [done|]. cbn [orb].
    rewrite bitSet_win, Hbits by lia. by replace (m - (m - n)) with n by lia.
Qed.

(** * Runs of operations *)

Inductive replay_op :=
| OpAccept (n : Z)
| OpCheckAndAdd (n : Z)
| OpRemove (n : Z)
| OpSeen (n : Z).

Definition op_num (o : replay_op) : Z :=
  match o with OpAccept n | OpCheckAndAdd n | OpRemove n | OpSeen n => n end.

Definition impl_step (rf : ReplayFilter) (o : replay_op) : bool * ReplayFilter :=
  match o with
  | OpAccept n => Accept rf n
  | OpCheckAndAdd n => CheckAndAdd rf n
  | OpRemove n => (true, Remove rf n)
  | OpSeen n => (Seen rf n, rf)
  end.

Definition spec_step (s : ReplaySpec) (o : replay_op) : bool * ReplaySpec :=
  match o with
  | OpAccept n => spec_accept s n
  | OpCheckAndAdd n => let '(ok, s') := spec_accept s n in (negb ok, s')
  | OpRemove n => (true, spec_remove s n)
  | OpSeen n => (spec_seen s n, s)
  end.

Fixpoint run {S} (step : S → replay_op → bool * S) (s : S) (ops : list replay_op) : list bool * S :=
  match ops with
  | [] => ([], s)
  | o :: ops =>
      let '(b, s') := step s o in
      let '(bs, s'') := run step s' ops in (b :: bs, s'')
  end.

Lemma step_refines rf s o : replay_rep rf s → 0 ≤ op_num o →
  (impl_step rf o).1 = (spec_step s o).1 ∧ replay_rep (impl_step rf o).2 (spec_step s o).2.
Proof.
  intros Hrep Hn. destruct o as [n|n|n|n]; simpl in *.
  - by apply accept_refines.
  - unfold CheckAndAdd. pose proof (accept_refines rf s n Hrep Hn) as [H1 H2].
    destruct (acceptLocked rf n), (spec_accept s n). simpl in *. by subst.
  - split; [done|]. by apply remove_refines.
  - split; [|done]. by apply seen_refines.
Qed.

Lemma run_refines_from rf s ops : replay_rep rf s → Forall (λ o, 0 ≤ op_num o) ops →
  (run impl_step rf ops).1 = (run spec_step s ops).1 ∧
  replay_rep (run impl_step rf ops).2 (run spec_step s ops).2.
Proof.
  intros Hrep Hops. revert rf s Hrep. induction Hops as [|o ops Ho _ IH]; intros rf s Hrep; [done|].
  simpl. destruct (step_refines rf s o Hrep Ho) as [H1 H2].
  destruct (impl_step rf o) as [b rf'], (spec_step s o) as [b' s']. simpl in *. subst b'.
  destruct (IH rf' s' H2) as [H3 H4].
  destruct (run impl_step rf' ops), (run spec_step s' ops). simpl in *. by subst.
Qed.

(** C10: (refinement) The 64-word bitmap with its word-wise sliding implements a set of
    packet numbers with a high-water mark: on every sequence of Accept,
    CheckAndAdd, Remove and Seen calls the two give the same answers. *)
Theorem replay_filter_refines ops :
  Forall (λ o, 0 ≤ op_num o < 2 ^ 64) ops →
  (run impl_step newReplayFilter ops).1 = (run spec_step spec_new ops).1.
Proof.
  intros Hops. apply run_refines_from; [apply replay_rep_new|].
  eapply Forall_impl; [done|]. simpl. lia.
Qed.

Lemma replay_filter_refines_witness :
  (run impl_step newReplayFilter
     [OpAccept 5; OpAccept 200; OpAccept 5; OpRemove 5; OpAccept 5; OpAccept 9000; OpSeen 200]).1
  = [true; true; false; true; true; true; true].
Proof.
  rewrite replay_filter_refines; [vm_compute; reflexivity|].
  apply (bool_decide_unpack _). vm_compute. exact I.
Defined.

(** * Histories of Accept *)

Fixpoint accepts (rf : ReplayFilter) (h : list Z) : list bool * ReplayFilter :=
  match h with
  | [] => ([], rf)
  | n :: h =>
      let '(b, rf') := Accept rf n in
      let '(bs, rf'') := accepts rf' h in (b :: bs, rf'')
  end.

Definition max_list (h : list Z) : Z := foldr Z.max 0 h.

(** What the spec state says of the numbers offered so far. *)
Definition history_ok (s : ReplaySpec) (h : list Z) : Prop :=
  default 0 (top s) = max_list h ∧
  (∀ n, n ∈ accepted s → n ∈ h) ∧
  (∀ n, n ∈ h → n = 0 ∨ n ∈ accepted s ∨ too_old s n = true).

Lemma max_list_snoc h n : 0 ≤ n → max_list (h ++ [n]) = Z.max n (max_list h).
Proof.
  intros Hn. unfold max_list. rewrite foldr_app. cbn [foldr].
  induction h as [|x h IH]; cbn [foldr]; [lia|]. rewrite IH. lia.
Qed.

Lemma too_old_mono s s' n :
  default 0 (top s) ≤ default 0 (top s') → 0 ≤ n → too_old s n = true → too_old s' n = true.
Proof.
  unfold too_old, replayWindowPackets. destruct (top s), (top s'); simpl; lia.
Qed.

Lemma max_list_nonneg h : 0 ≤ max_list h.
Proof. unfold max_list. induction h; simpl; lia. Qed.

Lemma max_list_ge h n : n ∈ h → n ≤ max_list h.
Proof. unfold max_list. induction 1; simpl; lia. Qed.

Lemma history_keep s h n : history_ok s h → 0 ≤ n ≤ max_list h →
  (n = 0 ∨ n ∈ accepted s ∨ too_old s n = true) → history_ok s (h ++ [n]).
Proof.
  intros (Htop & Hsub & Hall) Hn Hwhy. split_and!.
  - rewrite max_list_snoc by lia. lia.
  - intros x Hx%Hsub. apply elem_of_app. by left.
  - intros x [Hx| ->%list_elem_of_singleton]%elem_of_app; [by apply Hall|done].
Qed.

Lemma history_add s h n : history_ok s h → Forall (λ x, 0 ≤ x) h → 0 < n →
  history_ok (mkSpec (Some (Z.max n (default 0 (top s)))) ({[n]} ∪ accepted s)) (h ++ [n]).
Proof.
  intros (Htop & Hsub & Hall) Hh Hn. split_and!; cbn [top accepted].
  - rewrite max_list_snoc by lia. change (default 0 (Some ?x)) with x. lia.
  - intros x [->%elem_of_singleton|Hx%Hsub]%elem_of_union; apply elem_of_app;
      [right; by apply list_elem_of_singleton|by left].
  - intros x [Hx| ->%list_elem_of_singleton]%elem_of_app; [|right; left; set_solver].
    apply Hall in Hx as Hx'. destruct Hx' as [?|[?|Hx']]; [by left|right; left; set_solver|].
    right. right. apply (too_old_mono s); [simpl; lia| |done].
    by eapply (proj1 (Forall_forall _ _) Hh).
Qed.

Lemma history_step s h n : history_ok s h → Forall (λ x, 0 ≤ x) h → 0 ≤ n →
  ((spec_accept s n).1 = true ↔ n ≠ 0 ∧ n ∉ h ∧ max_list h < n + replayWindowPackets) ∧
  history_ok (spec_accept s n).2 (h ++ [n]).
Proof.
  intros Hhist Hh Hn. pose proof Hhist as (Htop & Hsub & Hall). unfold spec_accept.
  pose proof (max_list_nonneg h) as Hm.
  assert (Hold : too_old s n = true ↔ n + replayWindowPackets ≤ max_list h).
  { unfold too_old, replayWindowPackets in *. rewrite <- Htop in *. destruct (top s); simpl in *; lia. }
  unfold spec_seen. destruct (Z.eqb_spec n 0) as [->|Hn0]; cbn [orb].
  { split; [split; [done|tauto]|]. apply history_keep; [done|lia|by left]. }
  destruct (too_old s n) eqn:Hto; cbn [orb].
  { apply proj1 in Hold. specialize (Hold eq_refl). unfold replayWindowPackets in *.
    split; [split; [done|lia]|]. apply history_keep; [done|lia|by right; right]. }
  case_bool_decide as Hc.
  { pose proof (Hsub _ Hc) as Hnh. split; [split; [done|tauto]|].
    apply history_keep; [done| |by right; left]. apply max_list_ge in Hnh. lia. }
  split; [|apply history_add; done || lia]. split; [intros _|done]. split_and!; [done| |].
  - intros Hnh. apply Hall in Hnh as [?|[?|Hx]]; [done|done|]. by rewrite Hto in Hx.
  - apply Z.nle_gt. intros Hle. apply Hold in Hle. done.
Qed.

Lemma accepts_app rf h1 h2 :
  accepts rf (h1 ++ h2) =
  let '(b1, r1) := accepts rf h1 in let '(b2, r2) := accepts r1 h2 in (b1 ++ b2, r2).
Proof.
  revert rf. induction h1 as [|n h1 IH]; intros rf; cbn [app accepts].
  { by destruct (accepts rf h2). }
  destruct (Accept rf n) as [b rf']. rewrite IH.
  destruct (accepts rf' h1) as [b1 r1]. by destruct (accepts r1 h2).
Qed.

Lemma accepts_rep h : Forall (λ x, 0 ≤ x) h →
  ∃ s, replay_rep (accepts newReplayFilter h).2 s ∧ history_ok s h.
Proof.
  induction h as [|n h IH] using rev_ind; intros Hh.
  { exists spec_new. split; [apply replay_rep_new|]. split_and!; [done|set_solver|].
    intros n Hn%elem_of_nil. done. }
  apply Forall_app in Hh as [Hh Hn]. rewrite Forall_singleton in Hn.
  destruct (IH Hh) as (s & Hrep & Hhist). exists (spec_accept s n).2.
  rewrite accepts_app. destruct (accepts newReplayFilter h) as [b1 r1]. cbn [snd] in *.
  cbn [accepts]. pose proof (accept_refines r1 s n Hrep Hn) as [_ Hrep'].
  change (acceptLocked r1 n) with (Accept r1 n) in Hrep'.
  destruct (Accept r1 n) as [b r2]. split; [done|]. by apply history_step.
Qed.

(** After any history of packet numbers offered to a fresh filter,
    a number is accepted exactly when it is not zero, was never offered before,
    and is less than 4096 behind the largest number offered: no false replay is
    ever reported inside the window and no number is accepted twice. *)
Theorem replay_accept_iff h n :
  Forall (λ x, 0 ≤ x < 2 ^ 64) h → 0 ≤ n < 2 ^ 64 →
  ((Accept (accepts newReplayFilter h).2 n).1 = true ↔
   n ≠ 0 ∧ n ∉ h ∧ max_list h < n + replayWindowPackets).
Proof.
  intros Hh Hn. assert (Hh' : Forall (λ x, 0 ≤ x) h) by (eapply Forall_impl; [done|simpl; lia]).
  destruct (accepts_rep h Hh') as (s & Hrep & Hhist).
  unfold Accept. rewrite (proj1 (accept_refines _ _ _ Hrep (proj1 Hn))).
  apply history_step; lia || done.
Qed.

Lemma replay_accept_iff_witness :
  (Accept (accepts newReplayFilter [3; 70; 4000]).2 71).1 = true.
Proof.
  apply replay_accept_iff; [apply (bool_decide_unpack _); vm_compute; exact I|lia|].
  split; [lia|]. split; [apply (bool_decide_unpack _); vm_compute; exact I|].
  vm_compute. reflexivity.
Defined.
