(* ===== verification/Framing.v ===== *)
(** Length-prefixed messages: src/tunnel/framing.go.

    [Feed] keeps the bytes it could not yet use in [buf]; its loop is
    [feedLoop], whose fuel (the number of buffered bytes) is always enough since
    every round consumes at least the four header bytes. *)
From S2P Require Import Prelude.
Local Open Scope Z_scope.

Definition FrameHeaderSize : Z := 4.
Definition MaxFramedMessage : Z := Z.shiftl 1 20.
Definition maxInt : Z := 2 ^ 63 - 1.

Inductive framing_error := ErrMessageTooLarge | ErrBatchTooLarge | ErrAssemblerBroken.

Definition EncodeMessage (msg : bytes) : result bytes framing_error :=
  if MaxFramedMessage <? len msg then Err ErrMessageTooLarge
  else Ok (be_bytes 4 (u32 (len msg)) ++ msg).

(** The first loop of [EncodeMessages]: sizes are checked and added up. *)
Fixpoint batchSize (msgs : list bytes) (total : Z) : result Z framing_error :=
  match msgs with
  | [] => Ok total
  | m :: msgs =>
      if MaxFramedMessage <? len m then Err ErrMessageTooLarge else
      if maxInt - total - FrameHeaderSize <? len m then Err ErrBatchTooLarge else
      batchSize msgs (total + (FrameHeaderSize + len m))
  end.

Definition EncodeMessages (msgs : list bytes) : result bytes framing_error :=
  match batchSize msgs 0 with
  | Err e => Err e
  | Ok _ => Ok (foldl (λ out m, out ++ be_bytes 4 (u32 (len m)) ++ m) [] msgs)
  end.

Record MessageAssembler := mkAssembler {
  buf : bytes;
  maxPayload : Z;
  broken : bool;
}.

Definition NewMessageAssembler (maxPayload : Z) : MessageAssembler :=
  mkAssembler [] (if maxPayload <=? 0 then MaxFramedMessage else maxPayload) false.

(** The outcome of the loop: the remaining buffer and the messages cut out of it,
    or the oversized length. *)
Fixpoint feedLoop (fuel : nat) (maxPayload : Z) (buf : bytes) (msgs : list bytes)
  : result (bytes * list bytes) framing_error :=
  match fuel with
  | O => Ok (buf, msgs)
  | S fuel =>
      if len buf <? FrameHeaderSize then Ok (buf, msgs) else
      let n := be_val (upto 4 buf) in
      if maxPayload <? n then Err ErrMessageTooLarge else
      if len buf <? FrameHeaderSize + n then Ok (buf, msgs) else
      let hi := u32 (FrameHeaderSize + n) in
      feedLoop fuel maxPayload (from hi buf) (msgs ++ [slice FrameHeaderSize hi buf])
  end.

(** The reallocation of the backing array after the loop does not change the
    buffered bytes. *)
Definition Feed (a : MessageAssembler) (chunk : bytes)
  : result (list bytes) framing_error * MessageAssembler :=
  if broken a then (Err ErrAssemblerBroken, a) else
  let b := buf a ++ chunk in
  match feedLoop (S (length b)) (maxPayload a) b [] with
  | Err e => (Err e, mkAssembler [] (maxPayload a) true)
  | Ok (b', msgs) => (Ok msgs, mkAssembler b' (maxPayload a) false)
  end.

Definition Pending (a : MessageAssembler) : Z := len (buf a).

Definition Reset (a : MessageAssembler) : MessageAssembler :=
  mkAssembler [] (maxPayload a) false.

(** Feeding chunks one after another, as the client's receive loop does. *)
Fixpoint feedAll (a : MessageAssembler) (chunks : list bytes)
  : result (list bytes) framing_error * MessageAssembler :=
  match chunks with
  | [] => (Ok [], a)
  | c :: chunks =>
      match Feed a c with
      | (Err e, a') => (Err e, a')
      | (Ok msgs, a') =>
          match feedAll a' chunks with
          | (Ok msgs', a'') => (Ok (msgs ++ msgs'), a'')
          | (Err e, a'') => (Err e, a'')
          end
      end
  end.

(** * The framed stream *)

Definition frame_of (m : bytes) : bytes := be_bytes 4 (len m) ++ m.
Definition stream_of (msgs : list bytes) : bytes := concat (map frame_of msgs).

(** An assembler limit for which [FrameHeaderSize + n] does not wrap in uint32. *)
Definition limit_ok (lim : Z) : Prop := 0 < lim < 2 ^ 32 - 4.

(** A proper prefix of one more frame. *)
Definition partial (lim : Z) (rest : bytes) : Prop :=
  len rest < 4 ∨ (be_val (upto 4 rest) ≤ lim ∧ len rest < 4 + be_val (upto 4 rest)).

Lemma len_frame_of m : len (frame_of m) = 4 + len m.
Proof. unfold frame_of. by autorewrite with len. Qed.

Lemma head_frame lim m rest : limit_ok lim → len m ≤ lim →
  be_val (upto 4 (frame_of m ++ rest)) = len m.
Proof.
  intros Hlim Hm. unfold limit_ok in Hlim. unfold frame_of. rewrite <- app_assoc.
  rewrite upto_app by (by autorewrite with len). apply be_val_be_bytes_small.
  pose proof (len_nonneg m). change (256 ^ Z.of_nat 4) with (2 ^ 32). lia.
Qed.

(** One round of the loop cuts one whole frame. *)
Lemma feedLoop_frame fuel lim m rest acc : limit_ok lim → len m ≤ lim →
  feedLoop (S fuel) lim (frame_of m ++ rest) acc = feedLoop fuel lim rest (acc ++ [m]).
Proof.
  intros Hlim Hm. cbn [feedLoop]. unfold FrameHeaderSize.
  rewrite (head_frame lim) by done. rewrite len_app, len_frame_of.
  pose proof (len_nonneg m). pose proof (len_nonneg rest). unfold limit_ok in Hlim.
  destruct (Z.ltb_spec (4 + len m + len rest) 4); [lia|].
  destruct (Z.ltb_spec lim (len m)); [lia|].
  destruct (Z.ltb_spec (4 + len m + len rest) (4 + len m)); [lia|].
  unfold u32. rewrite uwrap_small by lia.
  rewrite from_app by apply len_frame_of. do 3 f_equal.
  unfold frame_of. rewrite <- app_assoc. apply slice_app; autorewrite with len; lia.
Qed.

Lemma feedLoop_partial fuel lim rest acc : partial lim rest →
  feedLoop (S fuel) lim rest acc = Ok (rest, acc).
Proof.
  intros Hp. cbn [feedLoop]. unfold FrameHeaderSize.
  destruct (Z.ltb_spec (len rest) 4); [done|]. destruct Hp as [?|[Hv Hl]]; [lia|].
  destruct (Z.ltb_spec lim (be_val (upto 4 rest))); [lia|].
  by destruct (Z.ltb_spec (len rest) (4 + be_val (upto 4 rest))); [|lia].
Qed.

(** The loop on whole frames followed by a partial one; [fuel] rounds are enough
    when there is one per frame and one to stop. *)
Lemma feedLoop_stream lim msgs rest fuel acc :
  limit_ok lim → Forall (λ m, len m ≤ lim) msgs → partial lim rest → (length msgs < fuel)%nat →
  feedLoop fuel lim (stream_of msgs ++ rest) acc = Ok (rest, acc ++ msgs).
Proof.
  intros Hlim Hms Hp. revert fuel acc.
  induction Hms as [|m msgs Hm _ IH]; intros [|fuel] acc Hf; cbn [length] in Hf; try lia.
  - rewrite app_nil_r. by apply feedLoop_partial.
  - unfold stream_of. cbn [map concat]. rewrite <- app_assoc.
    rewrite feedLoop_frame by done. fold (stream_of msgs).
    rewrite IH by lia. by rewrite <- app_assoc.
Qed.

Lemma length_stream msgs : (length msgs ≤ length (stream_of msgs))%nat.
Proof.
  induction msgs as [|m msgs IH]; [done|]. unfold stream_of in *. cbn [map concat length].
  rewrite length_app. pose proof (len_frame_of m). unfold len in *. lia.
Qed.

(** A header that announces more than the limit. *)
Definition oversized (lim : Z) (rest : bytes) : Prop :=
  4 ≤ len rest ∧ lim < be_val (upto 4 rest).

Lemma feedLoop_oversized lim msgs rest fuel acc :
  limit_ok lim → Forall (λ m, len m ≤ lim) msgs → oversized lim rest → (length msgs < fuel)%nat →
  feedLoop fuel lim (stream_of msgs ++ rest) acc = Err ErrMessageTooLarge.
Proof.
  intros Hlim Hms [Hl Hv]. revert fuel acc.
  induction Hms as [|m msgs Hm _ IH]; intros [|fuel] acc Hf; cbn [length] in Hf; try lia.
  - cbn [stream_of map concat app feedLoop]. unfold FrameHeaderSize.
    destruct (Z.ltb_spec (len rest) 4); [lia|].
    by destruct (Z.ltb_spec lim (be_val (upto 4 rest))); [|lia].
  - unfold stream_of. cbn [map concat]. rewrite <- app_assoc.
    rewrite feedLoop_frame by done. fold (stream_of msgs). apply IH. lia.
Qed.

Lemma upto_prefix {A} i (q t : list A) : i ≤ len q → upto i (q ++ t) = upto i q.
Proof. intros. unfold upto, len in *. apply take_app_le. lia. Qed.

Lemma app_prefix {A} (q t a b : list A) : q ++ t = a ++ b → len a ≤ len q →
  ∃ q', q = a ++ q' ∧ q' ++ t = b.
Proof.
  intros Heq Hlen. apply app_eq_app in Heq as (l & [[-> ->]|[-> ->]]); [by eauto|].
  rewrite len_app in Hlen. pose proof (len_nonneg l).
  rewrite (len_nil_inv l) in * by lia. exists []. by rewrite !app_nil_r.
Qed.

(** A prefix of a stream of frames is some of its frames and part of the next. *)
Lemma prefix_decompose lim msgs rest q t :
  limit_ok lim → Forall (λ m, len m ≤ lim) msgs → q ++ t = stream_of msgs ++ rest →
  partial lim rest ∨ oversized lim rest →
  (∃ ms1 ms2 p, msgs = ms1 ++ ms2 ∧ q = stream_of ms1 ++ p ∧ partial lim p ∧
                p ++ t = stream_of ms2 ++ rest) ∨
  (∃ p, q = stream_of msgs ++ p ∧ oversized lim p).
Proof.
  intros Hlim Hms. revert q. induction Hms as [|m msgs Hm _ IH]; intros q Heq Hrest.
  - cbn [stream_of map concat app] in Heq. subst rest.
    destruct (Z.lt_ge_cases (len q) 4) as [Hq|Hq].
    { left. exists [], [], q. split_and!; try done. by left. }
    unfold partial, oversized in *. rewrite upto_prefix, len_app in Hrest by lia.
    pose proof (len_nonneg t). destruct Hrest as [[?|[Hv Hl]]|[_ Hv]]; [lia| |].
    + left. exists [], [], q. split_and!; try done. right. lia.
    + right. by exists q.
  - unfold stream_of in Heq. cbn [map concat] in Heq. rewrite <- app_assoc in Heq.
    fold (stream_of msgs) in Heq.
    destruct (Z.lt_ge_cases (len q) (len (frame_of m))) as [Hq|Hq].
    + left. exists [], (m :: msgs), q. split_and!; try done.
      2:{ rewrite Heq. unfold stream_of. cbn [map concat]. by rewrite <- app_assoc. }
      unfold partial. destruct (Z.lt_ge_cases (len q) 4); [by left|right].
      assert (Hv : be_val (upto 4 q) = len m).
      { rewrite <- (upto_prefix 4 q t), Heq by lia. by apply (head_frame lim). }
      rewrite Hv. rewrite len_frame_of in Hq. lia.
    + apply app_prefix in Heq as (q' & -> & Heq); [|done].
      destruct (IH q' Heq Hrest) as [(ms1 & ms2 & p & -> & -> & Hp & Ht)|(p & -> & Hp)].
      * left. exists (m :: ms1), ms2, p. split_and!; try done.
        unfold stream_of. cbn [map concat]. by rewrite <- app_assoc.
      * right. exists p. split; [|done]. unfold stream_of. cbn [map concat]. by rewrite <- app_assoc.
Qed.

(** One call on a decomposed prefix. *)
Lemma Feed_partial lim p c ms p' : limit_ok lim → Forall (λ m, len m ≤ lim) ms →
  p ++ c = stream_of ms ++ p' → partial lim p' →
  Feed (mkAssembler p lim false) c = (Ok ms, mkAssembler p' lim false).
Proof.
  intros Hlim Hms Heq Hp. unfold Feed. cbn [broken buf maxPayload]. rewrite Heq.
  rewrite (feedLoop_stream lim) by (done || rewrite length_app; pose proof (length_stream ms); lia).
  done.
Qed.

Lemma Feed_oversized lim p c ms p' : limit_ok lim → Forall (λ m, len m ≤ lim) ms →
  p ++ c = stream_of ms ++ p' → oversized lim p' →
  Feed (mkAssembler p lim false) c = (Err ErrMessageTooLarge, mkAssembler [] lim true).
Proof.
  intros Hlim Hms Heq Hp. unfold Feed. cbn [broken buf maxPayload]. rewrite Heq.
  rewrite (feedLoop_oversized lim)
    by (done || rewrite length_app; pose proof (length_stream ms); lia).
  done.
Qed.

Lemma feedAll_stream lim chunks p msgs rest :
  limit_ok lim → Forall (λ m, len m ≤ lim) msgs → partial lim rest → partial lim p →
  p ++ concat chunks = stream_of msgs ++ rest →
  feedAll (mkAssembler p lim false) chunks = (Ok msgs, mkAssembler rest lim false).
Proof.
  intros Hlim. revert p msgs. induction chunks as [|c chunks IH]; intros p msgs Hms Hrest Hp Heq.
  - cbn [concat] in Heq. rewrite app_nil_r in Heq. cbn [feedAll].
    pose proof (feedLoop_partial (length msgs) lim p [] Hp) as H1.
    rewrite Heq, (feedLoop_stream lim) in H1 by (done || lia).
    injection H1 as _ Hnil. cbn [app] in Hnil. by subst.
  - cbn [concat feedAll] in *. rewrite app_assoc in Heq.
    destruct (prefix_decompose lim msgs rest (p ++ c) (concat chunks) Hlim Hms Heq (or_introl Hrest))
      as [(ms1 & ms2 & p' & -> & Hpc & Hp' & Ht)|(p' & Hpc & [Hl Hv])].
    + apply Forall_app in Hms as [Hms1 Hms2].
      rewrite (Feed_partial lim p c ms1 p') by done. by rewrite (IH p' ms2).
    + rewrite Hpc, <- app_assoc in Heq. apply app_inv_head in Heq.
      exfalso. unfold partial in Hrest. rewrite <- Heq, upto_prefix, len_app in Hrest by done.
      pose proof (len_nonneg (concat chunks)). lia.
Qed.

Lemma feedAll_oversized lim chunks p msgs rest :
  limit_ok lim → Forall (λ m, len m ≤ lim) msgs → oversized lim rest → partial lim p →
  p ++ concat chunks = stream_of msgs ++ rest →
  feedAll (mkAssembler p lim false) chunks = (Err ErrMessageTooLarge, mkAssembler [] lim true).
Proof.
  intros Hlim. revert p msgs. induction chunks as [|c chunks IH]; intros p msgs Hms Hrest Hp Heq.
  - cbn [concat] in Heq. rewrite app_nil_r in Heq.
    pose proof (feedLoop_partial (length msgs) lim p [] Hp) as H1.
    by rewrite Heq, (feedLoop_oversized lim) in H1 by (done || lia).
  - cbn [concat feedAll] in *. rewrite app_assoc in Heq.
    destruct (prefix_decompose lim msgs rest (p ++ c) (concat chunks) Hlim Hms Heq (or_intror Hrest))
      as [(ms1 & ms2 & p' & -> & Hpc & Hp' & Ht)|(p' & Hpc & Hov)].
    + apply Forall_app in Hms as [Hms1 Hms2].
      rewrite (Feed_partial lim p c ms1 p') by done. by rewrite (IH p' ms2).
    + by rewrite (Feed_oversized lim p c msgs p').
Qed.

(** The encoder produces the framed stream. *)
Lemma EncodeMessages_stream msgs out : EncodeMessages msgs = Ok out →
  out = stream_of msgs ∧ Forall (λ m, len m ≤ MaxFramedMessage) msgs.
Proof.
  unfold EncodeMessages. destruct (batchSize msgs 0) as [tot|] eqn:Hb; [|done]. intros [= <-].
  assert (Hall : Forall (λ m, len m ≤ MaxFramedMessage) msgs).
  { revert Hb. generalize 0. induction msgs as [|m msgs IH]; intros z Hz; [constructor|].
    cbn [batchSize] in Hz. destruct (Z.ltb_spec MaxFramedMessage (len m)); [done|].
    destruct (_ <? len m); [done|]. constructor; [done|]. by eapply IH. }
  split; [|done]. clear Hb. change (stream_of msgs) with ([] ++ stream_of msgs).
  generalize (@nil Z). induction Hall as [|m msgs Hm _ IH]; intros acc.
  { by rewrite app_nil_r. }
  cbn [foldl]. rewrite IH. unfold stream_of. cbn [map concat]. unfold frame_of at 2.
  unfold u32, MaxFramedMessage in *. pose proof (len_nonneg m).
  rewrite uwrap_small by (change (Z.shiftl 1 20) with 1048576 in *; lia).
  by rewrite <- !app_assoc.
Qed.

(** C35: (roundtrip) However the network splits or coalesces an encoded batch, the
    assembler hands out exactly the encoded messages, in order, and keeps
    nothing back. *)
Theorem framing_roundtrip msgs out chunks :
  EncodeMessages msgs = Ok out → concat chunks = out →
  feedAll (NewMessageAssembler 0) chunks = (Ok msgs, NewMessageAssembler 0).
Proof.
  intros Hout Hc. apply EncodeMessages_stream in Hout as [-> Hall].
  apply (feedAll_stream MaxFramedMessage chunks [] msgs []); try done; try by left.
  by rewrite app_nil_r.
Qed.

Lemma framing_roundtrip_witness :
  feedAll (NewMessageAssembler 0)
    [[0; 0]; [0; 2; 104]; []; [105; 0; 0; 0; 0; 0; 0; 0]; [1; 33]]
  = (Ok [str "hi"; []; str "!"], NewMessageAssembler 0).
Proof.
  eapply framing_roundtrip; [|reflexivity]. vm_compute. reflexivity.
Defined.

(** A length above the limit is fatal however it arrives: wherever the
    chunk boundaries fall, the assembler reports the oversized message, drops its
    buffer, and refuses every further chunk until Reset. *)
Theorem framing_oversized_breaks lim msgs rest chunks c :
  limit_ok lim → Forall (λ m, len m ≤ lim) msgs → 4 ≤ len rest → lim < be_val (upto 4 rest) →
  concat chunks = stream_of msgs ++ rest →
  let '(r, a) := feedAll (NewMessageAssembler lim) chunks in
  r = Err ErrMessageTooLarge ∧ Feed a c = (Err ErrAssemblerBroken, a) ∧
  Pending a = 0 ∧ Reset a = NewMessageAssembler lim.
Proof.
  intros Hlim Hms Hl Hv Heq. assert (0 < lim) by (unfold limit_ok in Hlim; lia).
  unfold NewMessageAssembler, Reset. destruct (Z.leb_spec lim 0); [lia|].
  by rewrite (feedAll_oversized lim chunks [] msgs rest) by (done || by left).
Qed.

Lemma framing_oversized_breaks_witness :
  (feedAll (NewMessageAssembler 2) [[0; 0; 0; 1]; [7; 0; 0]; [0; 3; 9; 9; 9]]).1
  = Err ErrMessageTooLarge.
Proof.
  pose proof (framing_oversized_breaks 2 [[7]] [0; 0; 0; 3; 9; 9; 9]
    [[0; 0; 0; 1]; [7; 0; 0]; [0; 3; 9; 9; 9]] []) as H.
  destruct (feedAll _ _) as [r a]. destruct H as [H _]; [| | | | |exact H].
  - by vm_compute.
  - apply (bool_decide_unpack _). vm_compute. exact I.
  - by vm_compute.
  - by vm_compute.
  - reflexivity.
Defined.
