(* ===== verification/Delivery.v ===== *)
(** Ordered delivery and delayed acknowledgements: src/tunnel/delivery.go.

    [orderedDelivery] is shared by the socket readers, which call
    [offerObserved], and by its own writer goroutine, [run].  The model keeps the
    two apart: an offer is its critical section [offerLocked] followed, after the
    unlock, by its tail [offerTail]; the writer is a small state machine with one
    step per lock section.  [dstep] interleaves them freely.  The callbacks
    [ack], [write], [fail] and [idle] are outputs of the steps; times are
    arguments in nanoseconds. *)
From S2P Require Import Prelude Bitmap Protocol.
Local Open Scope Z_scope.

Definition deliveryWindow : Z := 512.
Definition deliveryWindowWide : Z := 4096.
Definition stallFeedbackInterval : Z := 10000000.

Definition deliveryLimitFor (wide : bool) : Z :=
  if wide then deliveryWindowWide else deliveryWindow.

(** * Delayed ACK

    [timer] is the identity of the armed timer; [live] holds the callbacks that
    have not run yet, including those of timers that were stopped too late. *)
Record delayedACK := mkDelayed {
  timer : option nat;
  dpending : Z;
  count : Z;
  dclosed : bool;
  live : gset nat;
  next_timer : nat;
}.

Definition newDelayedACK : delayedACK := mkDelayed None 0 0 false ∅ 0.

(** [queue], with the outcome of [timer.Stop()] given by [stopped].  The result
    carries the sequence handed to [send], if any. *)
Definition queue (d : delayedACK) (seq : Z) (stopped : bool) : delayedACK * list Z :=
  if dclosed d then (d, []) else
  let p := if dpending d <? seq then seq else dpending d in
  let c := count d + 1 in
  if 2 <=? c then
    let lv := match timer d with
              | Some t => if stopped then live d ∖ {[t]} else live d
              | None => live d
              end in
    (mkDelayed None p 0 false lv (next_timer d), [p])
  else
    match timer d with
    | None => (mkDelayed (Some (next_timer d)) p c false ({[next_timer d]} ∪ live d)
                 (S (next_timer d)), [])
    | Some t => (mkDelayed (Some t) p c false (live d) (next_timer d), [])
    end.

(** The body of the timer callback of timer [t]. *)
Definition fire (d : delayedACK) (t : nat) : delayedACK * list Z :=
  let lv := live d ∖ {[t]} in
  if dclosed d || (count d =? 0) then
    (mkDelayed (timer d) (dpending d) (count d) (dclosed d) lv (next_timer d), [])
  else (mkDelayed None (dpending d) 0 (dclosed d) lv (next_timer d), [dpending d]).

Definition delayedACK_close (d : delayedACK) (stopped : bool) : delayedACK :=
  let lv := match timer d with
            | Some t => if stopped then live d ∖ {[t]} else live d
            | None => live d
            end in
  mkDelayed (timer d) (dpending d) (count d) true lv (next_timer d).

(** * Ordered delivery *)

Record orderedDelivery := mkDelivery {
  pending : gmap Z bytes;
  limit : Z;
  closed : bool;
  wake : bool;            (* a token is in the wake channel *)
  delivered : Z;
  writeStarted : Z;
  lastStallACK : Z;
  delayed : delayedACK;
}.

Definition newOrderedDelivery (lim : Z) : orderedDelivery :=
  {| pending := ∅;
     limit := if (lim <=? 0) || (deliveryWindowWide <? lim) then deliveryWindowWide else lim;
     closed := false; wake := false; delivered := 0; writeStarted := 0; lastStallACK := 0;
     delayed := newDelayedACK |}.

Definition set_pending (d : orderedDelivery) (p : gmap Z bytes) : orderedDelivery :=
  mkDelivery p (limit d) (closed d) (wake d) (delivered d) (writeStarted d) (lastStallACK d) (delayed d).
Definition set_wake (d : orderedDelivery) (w : bool) : orderedDelivery :=
  mkDelivery (pending d) (limit d) (closed d) w (delivered d) (writeStarted d) (lastStallACK d) (delayed d).
Definition set_writeStarted (d : orderedDelivery) (t : Z) : orderedDelivery :=
  mkDelivery (pending d) (limit d) (closed d) (wake d) (delivered d) t (lastStallACK d) (delayed d).
Definition set_lastStallACK (d : orderedDelivery) (t : Z) : orderedDelivery :=
  mkDelivery (pending d) (limit d) (closed d) (wake d) (delivered d) (writeStarted d) t (delayed d).
Definition set_delayed (d : orderedDelivery) (q : delayedACK) : orderedDelivery :=
  mkDelivery (pending d) (limit d) (closed d) (wake d) (delivered d) (writeStarted d) (lastStallACK d) q.

Definition stalled (d : orderedDelivery) (now : Z) : bool :=
  negb (writeStarted d =? 0) && (stallFeedbackInterval <? now - writeStarted d).

Definition feedbackWhileStalled (d : orderedDelivery) (now : Z) : orderedDelivery * list Z :=
  if now - lastStallACK d <? stallFeedbackInterval then (d, [])
  else (set_lastStallACK d now, [delivered d]).

(** What the critical section of an offer decided. *)
Inductive offer_outcome :=
| OfferRejected
| OfferOld (ack : Z)              (* at or below the delivered prefix: re-ACK *)
| OfferDuplicate                  (* already buffered *)
| OfferFresh (ack : Z) (gap : bool).

Definition offerLocked (d : orderedDelivery) (seq : Z) (payload : bytes)
  : orderedDelivery * offer_outcome :=
  if seq =? 0 then (d, OfferRejected) else
  if closed d then (d, OfferRejected) else
  let ack := delivered d in
  if seq <=? ack then (d, OfferOld ack) else
  match pending d !! seq with
  | Some _ => (d, OfferDuplicate)
  | None =>
      if (limit d <? seq - ack) || (limit d <=? Z.of_nat (size (pending d)))
      then (d, OfferRejected) else
      let p := <[seq := payload]> (pending d) in
      let hasNext := bool_decide (is_Some (p !! u64 (ack + 1))) in
      (set_pending d p, OfferFresh ack ((u64 (ack + 1) <? seq) && negb hasNext))
  end.

(** After the unlock: stall feedback, wake token, gap feedback. *)
Definition offerTail (d : orderedDelivery) (now : Z) (o : offer_outcome)
  : orderedDelivery * list Z :=
  match o with
  | OfferRejected | OfferDuplicate => (d, [])
  | OfferOld ack => (d, [ack])
  | OfferFresh ack gap =>
      let '(d, a1) := if stalled d now then feedbackWhileStalled d now else (d, []) in
      (set_wake d true, a1 ++ if gap then [ack] else [])
  end.

Definition offer_result (o : offer_outcome) : bool * bool :=
  match o with
  | OfferRejected => (false, false)
  | OfferOld _ | OfferDuplicate => (false, true)
  | OfferFresh _ _ => (true, true)
  end.

(** [offerObserved]: (fresh, ok), the cumulative ACKs sent, the new state. *)
Definition offerObserved (d : orderedDelivery) (now seq : Z) (payload : bytes)
  : (bool * bool) * list Z * orderedDelivery :=
  let '(d1, o) := offerLocked d seq payload in
  let '(d2, acks) := offerTail d1 now o in
  (offer_result o, acks, d2).

Definition offer (d : orderedDelivery) (now seq : Z) (payload : bytes)
  : bool * list Z * orderedDelivery :=
  let '(r, acks, d') := offerObserved d now seq payload in (r.2, acks, d').

(** [snapshot]: ranges over the map and sets one bit per buffered frame. *)
Definition snapshot_bit (d : orderedDelivery) (seq : Z) (bm : list Z) : list Z :=
  if (delivered d <? seq) && (seq - delivered d <=? limit d) then
    let bit := seq - delivered d - 1 in
    let i := Z.to_nat (bit / 64) in
    <[i := Z.lor (word bm i) (Z.shiftl 1 (bit mod 64))]> bm
  else bm.

Definition snapshot (d : orderedDelivery) : Z * list Z * Z :=
  (delivered d,
   map_fold (λ seq _ bm, snapshot_bit d seq bm) (replicate (Z.to_nat sackWordsWide) 0) (pending d),
   u16 (limit d - Z.of_nat (size (pending d)))).

(** The writer goroutine. *)
Inductive writer :=
| WSleep                                (* the outer select *)
| WDrain                                (* at the top of the inner loop *)
| WWriting (seq : Z) (payload : bytes)  (* inside write() *)
| WStopped.

(** The lock section at the top of the inner loop; [now] is the start time that
    is recorded when a write begins. *)
Definition drainCheck (d : orderedDelivery) (now : Z) : writer * orderedDelivery :=
  let seq := u64 (delivered d + 1) in
  match pending d !! seq with
  | Some payload =>
      if closed d then (WSleep, d) else (WWriting seq payload, set_writeStarted d now)
  | None => (WSleep, d)
  end.

(** After a successful write: the frame leaves the buffer and is acknowledged. *)
Definition drainCommit (d : orderedDelivery) (seq : Z) (stopped : bool)
  : orderedDelivery * list Z :=
  let d1 := mkDelivery (delete seq (pending d)) (limit d) (closed d) (wake d) seq 0
              (lastStallACK d) (delayed d) in
  let '(q, acks) := queue (delayed d1) seq stopped in
  (set_delayed d1 q, acks).

Definition close (d : orderedDelivery) (stopped : bool) : orderedDelivery :=
  mkDelivery ∅ (limit d) true (wake d) (delivered d) (writeStarted d) (lastStallACK d)
    (delayedACK_close (delayed d) stopped).

(** * The concurrent system *)

Record dsys := mkSys {
  od : orderedDelivery;
  wr : writer;
  written : list bytes;             (* payloads whose write() succeeded, in order *)
  owed : list offer_outcome;        (* offers between their unlock and their tail *)
}.

Definition initSys (lim : Z) : dsys := mkSys (newOrderedDelivery lim) WSleep [] [].

(** [data seq] is the payload of sequence number [seq]: a peer that retransmits
    sends the same bytes again. *)
Inductive dstep (data : Z → bytes) : dsys → list Z → dsys → Prop :=
| D_offer s seq d' o :
    0 ≤ seq < 2 ^ 64 → offerLocked (od s) seq (data seq) = (d', o) →
    dstep data s [] (mkSys d' (wr s) (written s) (o :: owed s))
| D_tail s now o l1 l2 d' acks :
    owed s = l1 ++ o :: l2 → offerTail (od s) now o = (d', acks) →
    dstep data s acks (mkSys d' (wr s) (written s) (l1 ++ l2))
| D_wake s :
    wr s = WSleep → wake (od s) = true →
    dstep data s [] (mkSys (set_wake (od s) false) WDrain (written s) (owed s))
| D_check s now w d' :
    wr s = WDrain → drainCheck (od s) now = (w, d') →
    dstep data s [] (mkSys d' w (written s) (owed s))
| D_commit s seq payload stopped d' acks :
    wr s = WWriting seq payload → drainCommit (od s) seq stopped = (d', acks) →
    dstep data s acks (mkSys d' WDrain (written s ++ [payload]) (owed s))
| D_fail s seq payload :
    wr s = WWriting seq payload →
    dstep data s [] (mkSys (set_writeStarted (od s) 0) WStopped (written s) (owed s))
| D_done s :
    wr s = WSleep ∨ wr s = WDrain →
    dstep data s [] (mkSys (od s) WStopped (written s) (owed s))
| D_timer s t q acks :
    t ∈ live (delayed (od s)) → fire (delayed (od s)) t = (q, acks) →
    dstep data s acks (mkSys (set_delayed (od s) q) (wr s) (written s) (owed s))
| D_close s stopped :
    dstep data s [] (mkSys (close (od s) stopped) (wr s) (written s) (owed s)).

Inductive dreach (data : Z → bytes) (lim : Z) : dsys → Prop :=
| reach_init : dreach data lim (initSys lim)
| reach_step s acks s' : dreach data lim s → dstep data s acks s' → dreach data lim s'.

Definition owes_wake (o : offer_outcome) : Prop :=
  match o with OfferFresh _ _ => True | _ => False end.

(** The invariant of one session's delivery. *)
Record dinv (data : Z → bytes) (s : dsys) : Prop := {
  inv_limit : 1 ≤ limit (od s) ≤ deliveryWindowWide;
  inv_delivered : 0 ≤ delivered (od s) < 2 ^ 64;
  inv_pending : ∀ seq p, pending (od s) !! seq = Some p →
    delivered (od s) < seq ≤ delivered (od s) + limit (od s) ∧ seq < 2 ^ 64 ∧ p = data seq;
  inv_size : Z.of_nat (size (pending (od s))) ≤ limit (od s);
  inv_closed : closed (od s) = true → pending (od s) = ∅;
  inv_written : written s = map data (seqZ 1 (delivered (od s)));
  inv_writing : ∀ seq p, wr s = WWriting seq p →
    seq = delivered (od s) + 1 ∧ seq < 2 ^ 64 ∧ p = data seq ∧
    (closed (od s) = true ∨ pending (od s) !! seq = Some p);
  inv_wake : wr s = WSleep → is_Some (pending (od s) !! (delivered (od s) + 1)) →
    wake (od s) = true ∨ Exists owes_wake (owed s);
}.

Lemma dinv_init data lim : dinv data (initSys lim).
Proof.
  assert (Hl : 1 ≤ limit (newOrderedDelivery lim) ≤ deliveryWindowWide).
  { unfold newOrderedDelivery, deliveryWindowWide. cbn [limit].
    destruct (Z.leb_spec lim 0), (Z.ltb_spec 4096 lim); simpl; lia. }
  split; try done.
  - change (pending (od (initSys lim))) with (∅ : gmap Z bytes). rewrite map_size_empty.
    cbn [od initSys]. lia.
  - intros _ [p Hp]. discriminate Hp.
Qed.

(** The next sequence number never wraps while something is buffered for it. *)
Lemma next_lookup data s p :
  dinv data s → pending (od s) !! u64 (delivered (od s) + 1) = Some p →
  u64 (delivered (od s) + 1) = delivered (od s) + 1.
Proof.
  intros Hinv Hp. apply (inv_pending _ _ Hinv) in Hp as (Hr & _ & _).
  pose proof (inv_delivered _ _ Hinv). pose proof (u64_range (delivered (od s) + 1)).
  destruct (Z.eq_dec (delivered (od s) + 1) (2 ^ 64)) as [Heq|]; [|apply u64_small; lia].
  rewrite Heq in Hr. change (u64 (2 ^ 64)) with 0 in Hr. lia.
Qed.

Lemma offer_inv data s seq d' o : dinv data s → 0 ≤ seq < 2 ^ 64 →
  offerLocked (od s) seq (data seq) = (d', o) →
  dinv data (mkSys d' (wr s) (written s) (o :: owed s)).
Proof.
  intros Hinv Hseq. unfold offerLocked.
  assert (Hsame : ∀ o, dinv data (mkSys (od s) (wr s) (written s) (o :: owed s))).
  { intros o'. destruct Hinv. split; try done. intros Hw Hn.
    destruct (inv_wake0 Hw Hn); [by left|]. right. by apply Exists_cons_tl. }
  repeat (case_match; [by intros [= <- <-]|]); try by intros [= <- <-].
  rename select (_ || _ = false) into Hlim. apply orb_false_iff in Hlim as [Hd%Z.ltb_ge Hs%Z.leb_gt].
  rename select ((seq <=? _) = false) into Hold. apply Z.leb_gt in Hold.
  rename select (closed _ = false) into Hopen. rename select (_ !! seq = None) into Hnone.
  intros [= <- <-]. destruct Hinv. split; cbn; try done.
  - intros s0 p0 [[<- <-]|[Hne Hp]]%lookup_insert_Some; [|by apply inv_pending0]. split_and!; lia || done.
  - rewrite map_size_insert_None by done. lia.
  - by rewrite Hopen.
  - intros s0 p0 Hw. destruct (inv_writing0 _ _ Hw) as (-> & ? & -> & [Hc|Hp]).
    + by rewrite Hopen in Hc.
    + split_and!; try done. right. rewrite lookup_insert_ne; [done|]. intros ->. congruence.
  - intros _ _. right. by apply Exists_cons_hd.
Qed.

Lemma tail_inv data s now o l1 l2 d' acks : dinv data s → owed s = l1 ++ o :: l2 →
  offerTail (od s) now o = (d', acks) → dinv data (mkSys d' (wr s) (written s) (l1 ++ l2)).
Proof.
  intros Hinv Howed Ht.
  assert (Hf : pending d' = pending (od s) ∧ limit d' = limit (od s) ∧ closed d' = closed (od s) ∧
               delivered d' = delivered (od s) ∧
               ((¬ owes_wake o ∧ d' = od s) ∨ wake d' = true)).
  { destruct o; cbn in Ht; try (injection Ht as <- _; split_and!; auto).
    destruct (stalled _ _); [|injection Ht as <- _; cbn; split_and!; auto].
    unfold feedbackWhileStalled in Ht.
    destruct (_ <? _); injection Ht as <- _; cbn; split_and!; auto. }
  destruct Hf as (Hp & Hl & Hc & Hd & Hw), Hinv.
  split; cbn; rewrite ?Hp, ?Hl, ?Hc, ?Hd; try done.
  intros Hsl Hn. destruct Hw as [[Ho ->]|?]; [|by left].
  destruct (inv_wake0 Hsl Hn) as [?|He]; [by left|right].
  rewrite Howed, Exists_app, Exists_cons in He. rewrite Exists_app. tauto.
Qed.

Lemma seqZ_snoc n : 0 ≤ n → seqZ 1 (n + 1) = seqZ 1 n ++ [n + 1].
Proof.
  intros. rewrite seqZ_app by lia. change (seqZ (1 + n) 1) with [0 + (1 + n)].
  by replace (0 + (1 + n)) with (n + 1) by lia.
Qed.

Lemma commit_inv data s seq p stopped d' acks : dinv data s → wr s = WWriting seq p →
  drainCommit (od s) seq stopped = (d', acks) →
  dinv data (mkSys d' WDrain (written s ++ [p]) (owed s)).
Proof.
  intros Hinv Hw. unfold drainCommit. destruct (queue _ _ _) as [q a]. intros [= <- _].
  destruct Hinv. destruct (inv_writing0 _ _ Hw) as (-> & Hlt & -> & Hin).
  split; cbn; try done.
  - lia.
  - intros s0 p0 [Hne Hp]%lookup_delete_Some. apply inv_pending0 in Hp. lia || intuition lia.
  - destruct Hin as [Hc|Hp]; [rewrite (inv_closed0 Hc), delete_empty, map_size_empty; lia|].
    rewrite map_size_delete_Some by eauto. lia.
  - intros Hc. by rewrite (inv_closed0 Hc), delete_empty.
  - rewrite seqZ_snoc by lia. by rewrite map_app, inv_written0.
Qed.

Lemma check_inv data s now w d' : dinv data s → wr s = WDrain →
  drainCheck (od s) now = (w, d') → dinv data (mkSys d' w (written s) (owed s)).
Proof.
  intros Hinv Hw. unfold drainCheck.
  destruct (pending (od s) !! u64 _) as [p|] eqn:Hp.
  - pose proof (next_lookup _ _ _ Hinv Hp) as Hnw. rewrite Hnw in *.
    destruct (closed (od s)) eqn:Hc.
    + apply (inv_closed _ _ Hinv) in Hc. by rewrite Hc, lookup_empty in Hp.
    + intros [= <- <-]. destruct Hinv. pose proof (inv_pending0 _ _ Hp). split; cbn; try done.
      intros s0 p0 [= <- <-]. split_and!; try lia; [tauto|by right].
  - intros [= <- <-]. destruct Hinv. split; cbn; try done.
    intros _ [p Hp']. rewrite u64_small in Hp; [congruence|].
    apply inv_pending0 in Hp'. lia.
Qed.

Lemma step_inv data s acks s' : dinv data s → dstep data s acks s' → dinv data s'.
Proof.
  intros Hinv Hstep. destruct Hstep.
  - by eapply offer_inv.
  - by eapply tail_inv.
  - destruct Hinv. by split.
  - by eapply check_inv.
  - by eapply commit_inv.
  - destruct Hinv. by split.
  - destruct Hinv. by split.
  - destruct Hinv. by split.
  - destruct Hinv. split; cbn; try done.
    + rewrite map_size_empty. lia.
    + intros s0 p0 Hw. destruct (inv_writing0 _ _ Hw) as (-> & ? & -> & _). auto.
    + intros _ [p Hp]. by rewrite lookup_empty in Hp.
Qed.

Lemma reach_inv data lim s : dreach data lim s → dinv data s.
Proof. induction 1; [apply dinv_init|by eapply step_inv]. Qed.

(** * Acknowledgements never run ahead of delivery *)

Definition outcome_ack (o : offer_outcome) : Z :=
  match o with OfferOld a => a | OfferFresh a _ => a | _ => 0 end.

Definition ack_inv (s : dsys) : Prop :=
  0 ≤ delivered (od s) ∧ dpending (delayed (od s)) ≤ delivered (od s) ∧
  Forall (λ o, outcome_ack o ≤ delivered (od s)) (owed s).

Lemma queue_acks q seq stopped q' acks d : queue q seq stopped = (q', acks) →
  dpending q ≤ d → seq ≤ d → dpending q' ≤ d ∧ Forall (λ a, a ≤ d) acks.
Proof.
  unfold queue. intros Hq Hp Hs. destruct (dclosed q); [by injection Hq as <- <-|].
  destruct (Z.leb_spec 2 (count q + 1)); [|destruct (timer q)]; injection Hq as <- <-; cbn;
    destruct (Z.ltb_spec (dpending q) seq); split; try done; repeat constructor; done.
Qed.

Lemma fire_acks q t q' acks d : fire q t = (q', acks) → dpending q ≤ d →
  dpending q' ≤ d ∧ Forall (λ a, a ≤ d) acks.
Proof.
  unfold fire. intros Hq Hp. destruct (_ || _); injection Hq as <- <-; cbn; split; auto.
Qed.

Lemma offerLocked_acks d seq p d' o : offerLocked d seq p = (d', o) → 0 ≤ delivered d →
  delivered d' = delivered d ∧ delayed d' = delayed d ∧ outcome_ack o ≤ delivered d.
Proof.
  unfold offerLocked. intros Ho Hd.
  repeat (case_match; [by injection Ho as <- <-|]); injection Ho as <- <-; by cbn.
Qed.

Lemma offerTail_acks d now o d' acks : offerTail d now o = (d', acks) →
  outcome_ack o ≤ delivered d →
  delivered d' = delivered d ∧ delayed d' = delayed d ∧ Forall (λ a, a ≤ delivered d) acks.
Proof.
  destruct o as [|a| |a gap]; cbn; intros Ht Ha; try by injection Ht as <- <-; auto.
  unfold feedbackWhileStalled in Ht.
  destruct (stalled d now), (now - lastStallACK d <? stallFeedbackInterval), gap;
    injection Ht as <- <-; cbn; repeat constructor; done.
Qed.

Lemma step_acks data s acks s' : dinv data s → ack_inv s → dstep data s acks s' →
  ack_inv s' ∧ Forall (λ a, a ≤ delivered (od s')) acks.
Proof.
  intros Hinv (Hd & Hp & Ho) Hstep. unfold ack_inv.
  destruct Hstep as [s seq d' o _ H|s now o l1 l2 d' acks Hl H|s _ _|s now w d' Hw H
    |s seq p st d' acks Hw H|s seq p _|s _|s t q acks _ H|s st]; cbn [od owed]; try done.
  - apply offerLocked_acks in H as (-> & -> & ?); [|done]. split; [|done].
    split_and!; try done. by constructor.
  - rewrite Hl, Forall_app, Forall_cons in Ho. destruct Ho as (Ho1 & Ho & Ho2).
    apply offerTail_acks in H as (-> & -> & Hacks); [|done]. split; [|done].
    split_and!; try done. by apply Forall_app.
  - unfold drainCheck in H. repeat case_match; by injection H as <- <-.
  - destruct (inv_writing _ _ Hinv _ _ Hw) as (-> & _). unfold drainCommit in H.
    destruct (queue _ _ _) as [q a] eqn:Hq. injection H as <- <-. cbn in *.
    apply (queue_acks _ _ _ _ _ (delivered (od s) + 1)) in Hq as [? ?]; [|lia|lia].
    split; [|done]. split_and!; [lia|done|]. eapply Forall_impl; [done|]. simpl. lia.
  - apply (fire_acks _ _ _ _ (delivered (od s))) in H as [? ?]; done.
Qed.

Lemma reach_ack_inv data lim s : dreach data lim s → ack_inv s.
Proof.
  induction 1 as [|s acks s' Hr IH Hs]; [by repeat constructor|].
  eapply step_acks; [by eapply reach_inv|done|done].
Qed.

(** C6: (safety) Whatever the interleaving of socket readers, timers, close and the
    writer, the application has been handed exactly the payloads of sequence
    numbers 1, 2, ..., delivered, each once and in order, and every cumulative
    ACK sent covers delivered data only. *)
Theorem delivery_in_order data lim s acks s' :
  dreach data lim s → dstep data s acks s' →
  written s' = map data (seqZ 1 (delivered (od s'))) ∧
  Forall (λ a, a ≤ delivered (od s')) acks.
Proof.
  intros Hr Hs. pose proof (reach_inv _ _ _ Hr) as Hinv. split.
  - apply inv_written. by eapply step_inv.
  - eapply step_acks; [done|by eapply reach_ack_inv|done].
Qed.

(** Memory is bounded: a session never buffers more than its limit of
    frames (at most 4096), none further than the limit above the delivered
    prefix, nothing after close, and no buffered frame is ever one that was
    already delivered. *)
Theorem delivery_bounded data lim s seq p :
  dreach data lim s → pending (od s) !! seq = Some p →
  Z.of_nat (size (pending (od s))) ≤ limit (od s) ≤ deliveryWindowWide ∧
  delivered (od s) < seq ≤ delivered (od s) + limit (od s) ∧
  closed (od s) = false ∧ p = data seq.
Proof.
  intros Hr Hp. apply reach_inv in Hr as []. pose proof (inv_pending0 _ _ Hp) as (? & _ & ?).
  split_and!; try done; try lia.
  destruct (closed (od s)) eqn:Hc; [|done]. by rewrite (inv_closed0 eq_refl), lookup_empty in Hp.
Qed.

(** * Progress *)

(** The steps that need no new offer: tails of pending offers and the writer's
    own steps with writes that succeed. *)
Inductive wstep (data : Z → bytes) (s s' : dsys) : Prop :=
| W_tail now o l d' acks :
    owed s = o :: l → offerTail (od s) now o = (d', acks) →
    s' = mkSys d' (wr s) (written s) l → wstep data s s'
| W_wake : wr s = WSleep → wake (od s) = true →
    s' = mkSys (set_wake (od s) false) WDrain (written s) (owed s) → wstep data s s'
| W_check now w d' : wr s = WDrain → drainCheck (od s) now = (w, d') →
    s' = mkSys d' w (written s) (owed s) → wstep data s s'
| W_commit seq payload d' acks : wr s = WWriting seq payload →
    drainCommit (od s) seq true = (d', acks) →
    s' = mkSys d' WDrain (written s ++ [payload]) (owed s) → wstep data s s'.

Lemma wstep_dstep data s s' : wstep data s s' → ∃ acks, dstep data s acks s'.
Proof.
  intros [now o l d' acks Ho Ht ->|Hw Hk ->|now w d' Hw Hc ->|seq p d' acks Hw Hc ->].
  - exists acks. by apply (D_tail data s now o [] l).
  - eexists. by apply D_wake.
  - eexists. by eapply D_check.
  - eexists. by eapply D_commit.
Qed.

(** Open, running, and everything admitted stays admitted or delivered. *)
Record kept (data : Z → bytes) (s s' : dsys) : Prop := {
  kept_inv : dinv data s';
  kept_open : closed (od s') = false;
  kept_seq : ∀ seq, seq ≤ delivered (od s) ∨ is_Some (pending (od s) !! seq) →
             seq ≤ delivered (od s') ∨ is_Some (pending (od s') !! seq);
}.

Lemma kept_trans data s1 s2 s3 : kept data s1 s2 → kept data s2 s3 → kept data s1 s3.
Proof. intros [] []. split; auto. Qed.

Lemma commit_kept data s seq p d' acks : dinv data s → closed (od s) = false →
  wr s = WWriting seq p → drainCommit (od s) seq true = (d', acks) →
  kept data s (mkSys d' WDrain (written s ++ [p]) (owed s)) ∧
  wake d' = wake (od s) ∧ S (size (pending d')) = size (pending (od s)).
Proof.
  intros Hinv Hopen Hw Hc. pose proof (commit_inv _ _ _ _ _ _ _ Hinv Hw Hc) as Hinv'.
  destruct (inv_writing _ _ Hinv _ _ Hw) as (Hseq & _ & _ & [Hcl|Hp]); [congruence|].
  unfold drainCommit in Hc. destruct (queue _ _ _) as [q a]. injection Hc as <- <-.
  split_and!; [split; cbn; try done| done|].
  - intros x [Hx|Hx]; [left; lia|]. destruct (decide (x = seq)) as [->|]; [left; lia|right].
    by rewrite lookup_delete_ne.
  - cbn. rewrite map_size_delete_Some by eauto.
    pose proof (map_size_ne_0_lookup_2 (pending (od s)) seq (ex_intro _ p Hp)). lia.
Qed.

(** The inner loop drains the contiguous prefix: the buffer shrinks with every
    round, so its size bounds the number of rounds. *)
Lemma drain_run data n s : size (pending (od s)) = n → dinv data s → closed (od s) = false →
  wr s = WDrain →
  ∃ s', rtc (wstep data) s s' ∧ kept data s s' ∧ wr s' = WSleep ∧ owed s' = owed s ∧
        wake (od s') = wake (od s) ∧ pending (od s') !! (delivered (od s') + 1) = None.
Proof.
  revert s. induction n as [n IH] using lt_wf_ind. intros s Hn Hinv Hopen Hw.
  destruct (drainCheck (od s) 0) as [w d1] eqn:Hck.
  pose proof (check_inv _ _ _ _ _ Hinv Hw Hck) as Hinv1.
  assert (Hstep1 : wstep data s (mkSys d1 w (written s) (owed s))) by by eapply W_check.
  unfold drainCheck in Hck. rewrite Hopen in Hck.
  destruct (pending (od s) !! u64 _) as [p|] eqn:Hp; injection Hck as <- <-.
  - set (s1 := mkSys _ _ _ _) in *.
    destruct (drainCommit (od s1) (u64 (delivered (od s) + 1)) true) as [d2 acks] eqn:Hcm.
    destruct (commit_kept data s1 _ p d2 acks Hinv1 Hopen eq_refl Hcm) as (Hk & Hwk & Hsz).
    set (s2 := mkSys d2 WDrain _ _) in *.
    assert (Hsz' : (size (pending (od s2)) < n)%nat) by (cbn in *; lia).
    destruct (IH _ Hsz' s2 eq_refl (kept_inv _ _ _ Hk) (kept_open _ _ _ Hk) eq_refl)
      as (s' & Hr & Hk' & ? & ? & ? & ?).
    exists s'. split_and!; try done.
    + apply rtc_l with s1; [done|]. apply rtc_l with s2; [|done]. by eapply W_commit.
    + eapply kept_trans; [|done]. by destruct Hk.
    + etrans; [done|]. exact Hwk.
  - eexists. split; [by apply rtc_once|]. split_and!; try done; try by split.
    cbn. destruct (pending (od s) !! (delivered (od s) + 1)) as [p|] eqn:Hp'; [|done].
    apply (inv_pending _ _ Hinv) in Hp' as Hr. rewrite u64_small in Hp; [congruence|].
    pose proof (inv_delivered _ _ Hinv). lia.
Qed.

(** Running the tails of the offers in flight. *)
Lemma tails_run data l s : owed s = l → dinv data s → closed (od s) = false →
  ∃ s', rtc (wstep data) s s' ∧ kept data s s' ∧ owed s' = [] ∧ wr s' = wr s.
Proof.
  revert s. induction l as [|o l IH]; intros s Hl Hinv Hopen.
  { exists s. split_and!; try done. }
  destruct (offerTail (od s) 0 o) as [d1 acks] eqn:Ht.
  pose proof (tail_inv data s 0 o [] l d1 acks Hinv Hl Ht) as Hinv1.
  assert (Hf : pending d1 = pending (od s) ∧ closed d1 = closed (od s) ∧
               delivered d1 = delivered (od s)).
  { destruct o; cbn in Ht; try by injection Ht as <- _.
    destruct (stalled _ _); [|by injection Ht as <- _]. unfold feedbackWhileStalled in Ht.
    destruct (_ <? stallFeedbackInterval); by injection Ht as <- _. }
  destruct Hf as (Hp & Hc & Hd). set (s1 := mkSys d1 (wr s) (written s) l) in *.
  destruct (IH s1 eq_refl Hinv1) as (s' & Hr & Hk & Ho & Hw); [by rewrite <- Hopen|].
  exists s'. split_and!; try done.
  - apply rtc_l with s1; [|done]. by eapply W_tail.
  - apply kept_trans with s1; [|done]. split; [done|by rewrite <- Hopen|].
    intros x. subst s1. cbn. by rewrite Hp, Hd.
Qed.

Lemma wake_kept data s : dinv data s → closed (od s) = false →
  kept data s (mkSys (set_wake (od s) false) WDrain (written s) (owed s)).
Proof. intros [] Hopen. split; [by split|done|done]. Qed.

(** With no offer in flight the writer comes to rest with nothing deliverable left. *)
Lemma writer_rests data s : dinv data s → closed (od s) = false → owed s = [] → wr s ≠ WStopped →
  ∃ s', rtc (wstep data) s s' ∧ kept data s s' ∧
        pending (od s') !! (delivered (od s') + 1) = None.
Proof.
  intros Hinv Hopen Ho Hns. destruct (wr s) as [| |seq p|] eqn:Hw; [| | |done].
  - destruct (pending (od s) !! (delivered (od s) + 1)) as [p|] eqn:Hp.
    2:{ exists s. split_and!; try done. }
    destruct (inv_wake _ _ Hinv Hw) as [Hk|He]; [by rewrite Hp|..].
    2:{ rewrite Ho in He. by apply Exists_nil in He. }
    pose proof (wake_kept data s Hinv Hopen) as Hkept.
    destruct (drain_run data _ _ eq_refl (kept_inv _ _ _ Hkept) Hopen eq_refl)
      as (s' & Hr & Hk' & _ & _ & _ & Hnone).
    exists s'. split_and!; [|by eapply kept_trans|done].
    eapply rtc_l; [|done]. by apply W_wake.
  - destruct (drain_run data _ s eq_refl Hinv Hopen Hw) as (s' & Hr & Hk' & _ & _ & _ & Hnone).
    by exists s'.
  - destruct (drainCommit (od s) seq true) as [d1 acks] eqn:Hcm.
    destruct (commit_kept _ _ _ _ _ _ Hinv Hopen Hw Hcm) as (Hk & _ & _).
    destruct (drain_run data _ _ eq_refl (kept_inv _ _ _ Hk) (kept_open _ _ _ Hk) eq_refl)
      as (s' & Hr & Hk' & _ & _ & _ & Hnone).
    exists s'. split_and!; [|by eapply kept_trans|done].
    eapply rtc_l; [|done]. by eapply W_commit.
Qed.

(** C16: (liveness) No wakeup is lost and nothing deliverable is stranded: from any
    reachable state of an open session whose writer has not stopped, if every
    number up to [n] is delivered or buffered, then finishing the offers in
    flight and letting the writer run (with writes that succeed) delivers all of
    1..n to the application. *)
Theorem delivery_progress data lim s n :
  dreach data lim s → closed (od s) = false → wr s ≠ WStopped → 0 ≤ n →
  (∀ seq, 1 ≤ seq ≤ n → seq ≤ delivered (od s) ∨ is_Some (pending (od s) !! seq)) →
  ∃ s', rtc (wstep data) s s' ∧ n ≤ delivered (od s') ∧
        map data (seqZ 1 n) `prefix_of` written s'.
Proof.
  intros Hr Hopen Hns Hn Hall. apply reach_inv in Hr as Hinv.
  destruct (tails_run data _ s eq_refl Hinv Hopen) as (s1 & Hr1 & Hk1 & Ho1 & Hw1).
  destruct (writer_rests data s1 (kept_inv _ _ _ Hk1) (kept_open _ _ _ Hk1) Ho1)
    as (s2 & Hr2 & Hk2 & Hnone); [by rewrite Hw1|].
  pose proof (kept_trans _ _ _ _ Hk1 Hk2) as [Hinv2 _ Hseq].
  assert (Hle : n ≤ delivered (od s2)).
  { destruct (Z.le_gt_cases n (delivered (od s2))); [done|exfalso].
    pose proof (inv_delivered _ _ Hinv2).
    destruct (Hseq (delivered (od s2) + 1)) as [?|[p Hp]]; [apply Hall; lia|lia|congruence]. }
  exists s2. split_and!; [by etrans|done|].
  rewrite (inv_written _ _ Hinv2). replace (delivered (od s2)) with (n + (delivered (od s2) - n)) by lia.
  rewrite seqZ_app, map_app by lia. by apply prefix_app_r.
Qed.

(** * The SACK snapshot *)

Definition bitmap_of (d : orderedDelivery) (bm : list Z) (m : gmap Z bytes) : Prop :=
  (∀ seq, is_Some (m !! seq) → delivered d < seq ≤ delivered d + limit d) →
  length bm = 64%nat ∧ Forall (λ w, 0 ≤ w < 2 ^ 64) bm ∧
  ∀ k, 0 ≤ k < 4096 → (win_bit bm k = true ↔ is_Some (m !! (delivered d + 1 + k))).

Lemma snapshot_fold d (m : gmap Z bytes) : limit d ≤ deliveryWindowWide →
  bitmap_of d (map_fold (λ seq _ bm, snapshot_bit d seq bm)
                 (replicate (Z.to_nat sackWordsWide) 0) m) m.
Proof.
  intros Hlim. unfold deliveryWindowWide in Hlim.
  apply (map_fold_weak_ind (bitmap_of d)).
  { intros _. split; [done|]. split; [apply Forall_replicate; lia|].
    intros k _. rewrite win_bit_zero, lookup_empty. split; [done|]. by intros [? ?]. }
  intros seq p m' bm Hnone IH Hkeys. destruct IH as (Hlen & Hrange & Hbits).
  { intros x Hx. apply Hkeys. rewrite lookup_insert_is_Some.
    destruct (decide (seq = x)); [by left|by right]. }
  destruct (Hkeys seq) as [Hlo Hhi]; [by rewrite lookup_insert_eq|].
  unfold snapshot_bit. destruct (Z.ltb_spec (delivered d) seq); [|lia].
  destruct (Z.leb_spec (seq - delivered d) (limit d)); [|lia]. cbn [andb].
  split; [by rewrite length_insert|]. split.
  { apply Forall_insert; [done|]. pose proof (Z.mod_pos_bound (seq - delivered d - 1) 64 ltac:(lia)).
    apply lor_bit_range; [|lia]. by apply word_in_range. }
  intros k Hk. rewrite win_set_bit by lia.
  destruct (Z.eqb_spec k (seq - delivered d - 1)) as [->|Hne]; cbn [orb].
  - replace (delivered d + 1 + (seq - delivered d - 1)) with seq by lia.
    by rewrite lookup_insert_eq.
  - rewrite lookup_insert_ne by lia. by apply Hbits.
Qed.

Lemma snapshot_facts data lim s : dreach data lim s →
  ∃ bm cr, snapshot (od s) = (delivered (od s), bm, cr) ∧ length bm = 64%nat ∧
    Forall (λ w, 0 ≤ w < 2 ^ 64) bm ∧
    (∀ k, 0 ≤ k < 4096 →
       (win_bit bm k = true ↔ is_Some (pending (od s) !! (delivered (od s) + 1 + k)))) ∧
    cr = limit (od s) - Z.of_nat (size (pending (od s))) ∧ 0 ≤ cr ≤ limit (od s).
Proof.
  intros []%reach_inv. unfold snapshot, deliveryWindowWide in *.
  destruct (snapshot_fold (od s) (pending (od s))) as (Hlen & Hrange & Hbits).
  { unfold deliveryWindowWide. lia. }
  { intros x [p Hp]. by apply inv_pending0 in Hp as [? _]. }
  rewrite u16_small by lia. eexists _, _. split_and!; done || lia.
Qed.

(** The feedback snapshot is exact: it reports the delivered prefix,
    a bitmap whose bit k says precisely whether sequence delivered+1+k is
    buffered, over the whole 4096-bit horizon, and the free buffer space without
    wrapping in 16 bits. *)
Theorem snapshot_exact data lim s :
  dreach data lim s →
  let '(ack, bitmap, credit) := snapshot (od s) in
  ack = delivered (od s) ∧ length bitmap = Z.to_nat sackWordsWide ∧
  (∀ k, 0 ≤ k < 64 * sackWordsWide →
     (win_bit bitmap k = true ↔ is_Some (pending (od s) !! (ack + 1 + k)))) ∧
  credit = limit (od s) - Z.of_nat (size (pending (od s))) ∧ 0 ≤ credit ≤ limit (od s).
Proof.
  intros Hr. destruct (snapshot_facts data lim s Hr) as (bm & cr & -> & Hlen & _ & Hbits & Hcr & ?).
  split_and!; done || lia.
Qed.

(** * Delayed ACK: nothing queued is forgotten *)

Inductive dack_op :=
| QQueue (seq : Z) (stopped : bool)
| QFire (t : nat)
| QClose (stopped : bool).

Definition dack_step (d : delayedACK) (o : dack_op) : delayedACK * list Z :=
  match o with
  | QQueue seq stopped => queue d seq stopped
  | QFire t => if decide (t ∈ live d) then fire d t else (d, [])
  | QClose stopped => (delayedACK_close d stopped, [])
  end.

Definition dack_run (ops : list dack_op) : delayedACK :=
  foldl (λ d o, (dack_step d o).1) newDelayedACK ops.

Definition dack_inv (d : delayedACK) : Prop :=
  (∀ t, t ∈ live d → (t < next_timer d)%nat) ∧ 0 ≤ count d ≤ 1 ∧
  (dclosed d = false → match timer d with
                       | Some t => count d = 1 ∧ t ∈ live d
                       | None => count d = 0
                       end).

Lemma dack_step_inv d o : dack_inv d → dack_inv (dack_step d o).1.
Proof.
  intros (Hlt & Hc & Ht). destruct o as [seq stopped|t|stopped]; cbn [dack_step].
  - unfold queue. destruct (dclosed d) eqn:Hcl; [unfold dack_inv; cbn [fst]; by rewrite Hcl|]. specialize (Ht eq_refl).
    destruct (Z.leb_spec 2 (count d + 1)).
    + split; [|by split]. cbn. intros t. destruct (timer d), stopped; set_solver.
    + destruct (timer d); [lia|]. split_and!; cbn; try lia; [|intros _; split; [lia|set_solver]].
      intros t [->%elem_of_singleton|Hin%Hlt]%elem_of_union; lia.
  - destruct (decide _) as [Hin|]; [|done]. unfold fire.
    destruct (dclosed d) eqn:Hcl; cbn [orb].
    { split; [cbn; set_solver|by split]. }
    specialize (Ht eq_refl). destruct (Z.eqb_spec (count d) 0) as [H0|H0].
    + split; [set_solver|]. split; [done|]. cbn. intros _. destruct (timer d); [lia|done].
    + split; [cbn; set_solver|by split].
  - split; [|by split]. cbn. intros t. destruct (timer d), stopped; set_solver.
Qed.

Lemma dack_run_inv ops : dack_inv (dack_run ops).
Proof.
  unfold dack_run. assert (dack_inv newDelayedACK) as H by (split_and!; cbn; set_solver || lia).
  revert H. generalize newDelayedACK. induction ops as [|o ops IH]; intros d Hd; [done|].
  cbn [foldl]. apply IH. by apply dack_step_inv.
Qed.

(** A queued acknowledgement is never stranded, even when timers are
    stopped too late: queueing into an open delayedACK either sends the newest
    value at once or leaves a live timer whose callback will send it. *)
Theorem delayed_ack_not_lost ops seq stopped :
  let d := dack_run ops in
  dclosed d = false →
  let '(d', sent) := queue d seq stopped in
  seq ≤ dpending d' ∧
  (sent = [dpending d'] ∨ (sent = [] ∧ ∃ t, t ∈ live d' ∧ (fire d' t).2 = [dpending d'])).
Proof.
  intros d Hcl. pose proof (dack_run_inv ops) as (Hlt & Hc & Ht). fold d in Hlt, Hc, Ht.
  specialize (Ht Hcl). unfold queue. rewrite Hcl.
  set (p := if dpending d <? seq then seq else dpending d).
  assert (seq ≤ p) by (subst p; destruct (Z.ltb_spec (dpending d) seq); lia).
  destruct (Z.leb_spec 2 (count d + 1)); [by split; [|left]|].
  destruct (timer d) as [t|]; [lia|]. split; [done|right]. split; [done|].
  exists (next_timer d). split; [cbn; set_solver|]. unfold fire. cbn.
  by destruct (Z.eqb_spec (count d + 1) 0); [lia|].
Qed.

Lemma delayed_ack_not_lost_witness :
  (queue (dack_run [QQueue 1 true; QQueue 2 false; QQueue 3 true; QFire 0%nat]) 9 true).2 = [] ∧
  9 ≤ dpending (queue (dack_run [QQueue 1 true; QQueue 2 false; QQueue 3 true; QFire 0%nat]) 9 true).1.
Proof.
  pose proof (delayed_ack_not_lost [QQueue 1 true; QQueue 2 false; QQueue 3 true; QFire 0%nat] 9 true
                ltac:(vm_compute; reflexivity)) as H.
  split; [vm_compute; reflexivity|]. destruct (queue _ _ _). exact (proj1 H).
Defined.

(** * A concrete run: frame 2 arrives, then frame 1, then the writer drains. *)

Definition demo_data (seq : Z) : bytes := [seq mod 256].

Definition demo1 : dsys :=
  let '(d, o) := offerLocked (newOrderedDelivery 4) 2 (demo_data 2) in mkSys d WSleep [] [o].
Definition demo2 : dsys :=
  let '(d, o) := offerLocked (od demo1) 1 (demo_data 1) in mkSys d WSleep [] (o :: owed demo1).
Definition demo3 : dsys :=
  mkSys (offerTail (od demo2) 5 (OfferFresh 0 false)).1 WSleep [] [OfferFresh 0 true].
Definition demo4 : dsys := mkSys (set_wake (od demo3) false) WDrain [] [OfferFresh 0 true].
Definition demo5 : dsys :=
  mkSys (drainCheck (od demo4) 7).2 (WWriting 1 [1]) [] [OfferFresh 0 true].
Definition demo6 : dsys :=
  mkSys (drainCommit (od demo5) 1 true).1 WDrain [[1]] [OfferFresh 0 true].

Lemma demo_reach2 : dreach demo_data 4 demo2.
Proof.
  eapply reach_step; [eapply reach_step; [apply reach_init|]|].
  - apply (D_offer _ (initSys 4) 2 (od demo1) (OfferFresh 0 true)); [lia|reflexivity].
  - apply (D_offer _ demo1 1 (od demo2) (OfferFresh 0 false)); [lia|reflexivity].
Qed.

Lemma demo_reach5 : dreach demo_data 4 demo5.
Proof.
  eapply reach_step; [eapply reach_step; [eapply reach_step; [apply demo_reach2|]|]|].
  - eapply (D_tail _ demo2 5 (OfferFresh 0 false) [] [OfferFresh 0 true]); reflexivity.
  - apply (D_wake _ demo3); reflexivity.
  - apply (D_check _ demo4 7); reflexivity.
Qed.

Lemma delivery_in_order_witness : written demo6 = map demo_data (seqZ 1 1).
Proof.
  refine (proj1 (delivery_in_order demo_data 4 demo5 [] demo6 demo_reach5 _)).
  apply (D_commit _ demo5 1 [1] true (od demo6) []); reflexivity.
Defined.

Lemma delivery_bounded_witness : delivered (od demo2) < 2 ≤ delivered (od demo2) + limit (od demo2).
Proof.
  refine (proj1 (proj2 (delivery_bounded demo_data 4 demo2 2 [2] demo_reach2 _))).
  reflexivity.
Defined.

Lemma delivery_progress_witness :
  ∃ s', rtc (wstep demo_data) demo2 s' ∧ 2 ≤ delivered (od s') ∧
        map demo_data (seqZ 1 2) `prefix_of` written s'.
Proof.
  apply (delivery_progress demo_data 4 demo2 2 demo_reach2); [reflexivity|discriminate|lia|].
  intros seq Hseq. right. assert (seq = 1 ∨ seq = 2) as [-> | ->] by lia; by eexists.
Defined.

Lemma snapshot_exact_witness : snapshot (od demo5) = (0, 3 :: replicate 63 0, 2).
Proof.
  pose proof (snapshot_exact demo_data 4 demo5 demo_reach5) as H.
  destruct (snapshot (od demo5)) as [[a b] c] eqn:E. destruct H as (Ha & _ & _ & Hc & _).
  vm_compute in E. injection E as Ea Eb Ec. subst. reflexivity.
Defined.
