(* ===== verification/Rtt.v ===== *)
(** The RTT estimator of src/tunnel/rtt_estimator.go.  Durations are int64
    nanoseconds: every addition and multiplication wraps as Go's does, division
    truncates towards zero. *)
From S2P Require Import Prelude.
Local Open Scope Z_scope.

Definition millisecond : Z := 1000000.
Definition second : Z := 1000000000.

Definition rttInitialGuess : Z := 200 * millisecond.
Definition rttMinRTO : Z := 1 * millisecond.
Definition rttMaxRTO : Z := 10 * second.

Record rttEstimator := mkRtt {
  srtt : Z;
  rttvar : Z;
  rto : Z;
  hasData : bool;
  minRTT : Z;
  maxRTT : Z;
}.

Definition newRTTEstimator (initial minRTT maxRTT : Z) : rttEstimator :=
  mkRtt initial (Z.quot initial 2) initial false minRTT maxRTT.

Definition newDefaultRTTEstimator : rttEstimator :=
  newRTTEstimator rttInitialGuess rttMinRTO rttMaxRTO.

Definition absDuration (d : Z) : Z := if d <? 0 then i64 (- d) else d.

Definition Sample (e : rttEstimator) (rtt : Z) : rttEstimator :=
  if rtt <=? 0 then e else
  let '(s, v) :=
    if hasData e then
      let errVal := i64 (rtt - srtt e) in
      (i64 (srtt e + Z.quot errVal 8),
       i64 (rttvar e + Z.quot (i64 (absDuration errVal - rttvar e)) 4))
    else (rtt, Z.quot rtt 2) in
  let r := i64 (s + i64 (4 * v)) in
  let r := if r <? i64 (s * 2) then i64 (s * 2) else r in
  let r := if r <? minRTT e then minRTT e else r in
  let r := if maxRTT e <? r then maxRTT e else r in
  mkRtt s v r true (minRTT e) (maxRTT e).

Definition RTO (e : rttEstimator) : Z := rto e.
Definition SRTT (e : rttEstimator) : Z := if hasData e then srtt e else 0.

Definition samples (l : list Z) : rttEstimator := foldl Sample newDefaultRTTEstimator l.

(** * What samples keep true

    [m] bounds the samples; 2^58 ns is nine years. *)
Record rtt_inv (m : Z) (e : rttEstimator) : Prop := {
  rtt_srtt : hasData e = true → 0 < srtt e ≤ m;
  rtt_var : hasData e = true → 0 ≤ rttvar e ≤ m;
  rtt_rto : hasData e = true →
    rto e = Z.min rttMaxRTO (Z.max rttMinRTO (Z.max (2 * srtt e) (srtt e + 4 * rttvar e)));
  rtt_init : hasData e = false → rto e = rttInitialGuess;
  rtt_min : minRTT e = rttMinRTO;
  rtt_max : maxRTT e = rttMaxRTO;
}.

Lemma quot_bounds a k : 0 < k → (0 ≤ a → 0 ≤ Z.quot a k ∧ k * Z.quot a k ≤ a) ∧
                                (a ≤ 0 → Z.quot a k ≤ 0 ∧ a ≤ k * Z.quot a k).
Proof.
  intros Hk. pose proof (Z.quot_rem a k ltac:(lia)) as Hq. split; intros Ha.
  - pose proof (Z.rem_bound_pos a k Ha Hk). pose proof (Z.quot_pos a k Ha Hk). lia.
  - pose proof (Z.rem_bound_pos (- a) k ltac:(lia) Hk) as Hr.
    rewrite Z.rem_opp_l in Hr by lia.
    pose proof (Z.quot_pos (- a) k ltac:(lia) Hk) as Hp. rewrite Z.quot_opp_l in Hp by lia. lia.
Qed.

(** The smoothed values stay between the old value and the sample. *)
Lemma ewma_range old x k m : 0 ≤ old ≤ m → 0 ≤ x ≤ m → 0 < k →
  Z.min old x ≤ old + Z.quot (x - old) k ≤ Z.max old x.
Proof.
  intros Ho Hx Hk. destruct (quot_bounds (x - old) k Hk) as [Hp Hn].
  destruct (Z.le_gt_cases old x); [destruct Hp; nia|destruct Hn; nia].
Qed.

Lemma Sample_inv m e rtt : rttInitialGuess ≤ m < 2 ^ 58 → rtt ≤ m → rtt_inv m e →
  rtt_inv m (Sample e rtt).
Proof.
  intros Hm Hrtt Hinv. unfold Sample. destruct (Z.leb_spec rtt 0); [done|].
  destruct Hinv as [Hs Hv _ _ Hmin Hmax].
  assert (∃ s v, (if hasData e then
      (i64 (srtt e + Z.quot (i64 (rtt - srtt e)) 8),
       i64 (rttvar e + Z.quot (i64 (absDuration (i64 (rtt - srtt e)) - rttvar e)) 4))
    else (rtt, Z.quot rtt 2)) = (s, v) ∧ 0 < s ≤ m ∧ 0 ≤ v ≤ m) as (s & v & Heq & Hsr & Hvr).
  { destruct (hasData e).
    - specialize (Hs eq_refl). specialize (Hv eq_refl).
      rewrite (i64_small (rtt - srtt e)) by lia. unfold absDuration.
      set (a := if rtt - srtt e <? 0 then _ else _).
      assert (Ha : 0 ≤ a ≤ m).
      { subst a. destruct (Z.ltb_spec (rtt - srtt e) 0); rewrite ?i64_small; lia. }
      pose proof (ewma_range (srtt e) rtt 8 m ltac:(lia) ltac:(lia) ltac:(lia)).
      pose proof (ewma_range (rttvar e) a 4 m ltac:(lia) ltac:(lia) ltac:(lia)).
      rewrite (i64_small (a - rttvar e)) by lia. rewrite !i64_small by lia.
      eexists _, _. split; [done|]. lia.
    - destruct (quot_bounds rtt 2 ltac:(lia)) as [Hp _]. eexists _, _. split; [done|]. lia. }
  rewrite Heq. rewrite !i64_small by (rewrite ?i64_small; lia).
  unfold rttMinRTO, rttMaxRTO, millisecond, second in *. rewrite Hmin, Hmax.
  rewrite !if_lt_max, if_gt_min. split; cbn; try done.
  unfold rttMinRTO, rttMaxRTO, millisecond, second. lia.
Qed.

Lemma samples_inv m l : rttInitialGuess ≤ m < 2 ^ 58 → Forall (λ x, x ≤ m) l →
  rtt_inv m (samples l).
Proof.
  intros Hm Hl. unfold samples. assert (H0 : rtt_inv m newDefaultRTTEstimator) by by split.
  revert H0. generalize newDefaultRTTEstimator.
  induction Hl as [|x l Hx _ IH]; intros e He; [done|]. cbn [foldl]. by apply IH, Sample_inv.
Qed.

(** Whatever RTTs are measured (zero and negative clock anomalies
    included, up to nine years), no int64 arithmetic of the estimator overflows,
    the smoothed RTT never leaves the range of the samples, and the RTO is the
    RFC 6298 value raised to twice the smoothed RTT and clamped to [1 ms, 10 s]. *)
Theorem rto_spec l m :
  rttInitialGuess ≤ m < 2 ^ 58 → Forall (λ x, x ≤ m) l →
  let e := samples l in
  rttMinRTO ≤ RTO e ≤ rttMaxRTO ∧ 0 ≤ SRTT e ≤ m ∧
  Z.min rttMaxRTO (2 * SRTT e) ≤ RTO e ∧
  (hasData e = true →
   RTO e = Z.min rttMaxRTO (Z.max rttMinRTO (Z.max (2 * srtt e) (srtt e + 4 * rttvar e)))).
Proof.
  intros Hm Hl e. destruct (samples_inv m l Hm Hl) as [Hs Hv Hr Hi _ _]. fold e in Hs, Hv, Hr, Hi.
  unfold RTO, SRTT, rttMinRTO, rttMaxRTO, rttInitialGuess, millisecond, second in *.
  destruct (hasData e).
  - specialize (Hs eq_refl). specialize (Hv eq_refl). specialize (Hr eq_refl). split_and!; lia.
  - specialize (Hi eq_refl). split_and!; lia || done.
Qed.

Lemma rto_spec_witness : RTO (samples [1000000; 3000000; -5; 2000000]) = 4718750.
Proof.
  destruct (rto_spec [1000000; 3000000; -5; 2000000] (2 ^ 40)) as (_ & _ & _ & H).
  - split; vm_compute; done.
  - apply (bool_decide_unpack _). vm_compute. exact I.
  - rewrite H; [vm_compute|]; reflexivity.
Defined.
