(* ===== verification/AckCoalesce.v ===== *)
(** Coalescing of cumulative acknowledgements: the first part of
    src/tunnel/session_transport.go.  [lastAt] is [None] for Go's zero time,
    which lies further back than any duration can express. *)
From S2P Require Import Prelude Bitmap Protocol Rtt.
Local Open Scope Z_scope.

Definition ackMaxCoalesce : Z := 100 * millisecond.
Definition ackGapUrgent : Z := 3.
Definition maxDuration : Z := 2 ^ 63 - 1.

Definition ackCoalesceInterval (srtt : Z) : Z :=
  let iv := Z.quot srtt 2 in
  let iv := if iv <? millisecond then millisecond else iv in
  if ackMaxCoalesce <? iv then ackMaxCoalesce else iv.

(** [bits.OnesCount64] *)
Definition onesCount64 (w : Z) : Z :=
  len (filter (λ i, Z.testbit w i = true) (seqZ 0 64)).

Definition sackGaps (bitmap : list Z) : Z := foldl (λ n w, n + onesCount64 w) 0 bitmap.

Record ackCoalescer := mkCoalescer {
  lastValue : Z;
  lastAt : option Z;
  cpending : Z;
}.

Definition newAckCoalescer : ackCoalescer := mkCoalescer 0 None 0.

(** [time.Since(c.lastAt)] *)
Definition since (c : ackCoalescer) (now : Z) : Z :=
  match lastAt c with Some t => now - t | None => maxDuration end.

Definition commitSent (c : ackCoalescer) (ackSeq : Z) : ackCoalescer :=
  if ackSeq =? 0 then c else
  mkCoalescer (if lastValue c <? ackSeq then ackSeq else lastValue c) (lastAt c)
    (if cpending c <=? ackSeq then 0 else cpending c).

Definition batchAck (wires : list bytes) : Z :=
  foldl (λ ackSeq wire,
    if len wire <? UDPC_HDR_SIZE then ackSeq
    else if ackSeq <? wireAck wire then wireAck wire else ackSeq) 0 wires.

Definition commitSentBatch (c : ackCoalescer) (wires : list bytes) : ackCoalescer :=
  commitSent c (batchAck wires).

Definition commitLocked (c : ackCoalescer) (now ackSeq : Z) : ackCoalescer :=
  mkCoalescer (if lastValue c <? ackSeq then ackSeq else lastValue c) (Some now) 0.

Definition claim (c : ackCoalescer) (now ackSeq iv : Z) (urgent : bool) : bool * ackCoalescer :=
  if urgent then (true, commitLocked c now ackSeq) else
  if (ackSeq =? 0) || (ackSeq <=? lastValue c) then (false, c) else
  let c := mkCoalescer (lastValue c) (lastAt c)
             (if cpending c <? ackSeq then ackSeq else cpending c) in
  if since c now <? iv then (false, c) else (true, commitLocked c now ackSeq).

(** (ackSeq, wait) and the new state. *)
Definition flushDue (c : ackCoalescer) (now iv : Z) : (Z * Z) * ackCoalescer :=
  let due := negb (cpending c =? 0) && (lastValue c <? cpending c) && (iv <=? since c now) in
  let ackSeq := if due then cpending c else 0 in
  let c := if due then commitLocked c now (cpending c) else c in
  if (cpending c =? 0) || (cpending c <=? lastValue c) then ((ackSeq, 0), c) else
  let wait := iv - since c now in
  ((ackSeq, if wait <? 0 then 0 else wait), c).

(** * Runs

    The delivered prefix only grows, so successive claims carry values that do not
    decrease; [OFlush] is the retransmit loop, [OSent] a record that went out with
    a cumulative Ack. *)
Inductive cop :=
| OClaim (now ack iv : Z) (urgent : bool)
| OFlush (now iv : Z)
| OSent (ack : Z).

Definition cstep (c : ackCoalescer) (o : cop) : list Z * ackCoalescer :=
  match o with
  | OClaim now ack iv urgent =>
      let '(ok, c') := claim c now ack iv urgent in (if ok then [ack] else [], c')
  | OFlush now iv =>
      let '((ack, _), c') := flushDue c now iv in (if ack =? 0 then [] else [ack], c')
  | OSent ack => ([], commitSent c ack)
  end.

Fixpoint crun (c : ackCoalescer) (ops : list cop) : list Z * ackCoalescer :=
  match ops with
  | [] => ([], c)
  | o :: ops =>
      let '(e, c') := cstep c o in
      let '(es, c'') := crun c' ops in (e ++ es, c'')
  end.

(** Claims in a run do not decrease, starting from [h]. *)
Fixpoint claims_grow (h : Z) (ops : list cop) : Prop :=
  match ops with
  | [] => True
  | OClaim _ ack _ _ :: ops => h ≤ ack ∧ claims_grow ack ops
  | OSent ack :: ops => 0 ≤ ack ∧ claims_grow h ops
  | OFlush _ _ :: ops => claims_grow h ops
  end.

Fixpoint last_claim (h : Z) (ops : list cop) : Z :=
  match ops with
  | [] => h
  | OClaim _ ack _ _ :: ops => last_claim ack ops
  | _ :: ops => last_claim h ops
  end.

(** [h] is the highest value claimed: it has been sent or is pending. *)
Definition covers (c : ackCoalescer) (h : Z) : Prop :=
  0 ≤ lastValue c ∧ 0 ≤ cpending c ≤ h ∧ h ≤ Z.max (lastValue c) (cpending c).

Lemma claim_covers c h now ack iv urgent : covers c h → h ≤ ack →
  covers (claim c now ack iv urgent).2 ack.
Proof.
  unfold covers, claim, commitLocked. intros (Hl & Hp & Hh) Hle.
  destruct urgent; cbn [fst snd lastValue cpending lastAt]; [rewrite if_lt_max; lia|].
  destruct (Z.eqb_spec ack 0); cbn [orb fst snd]; [lia|].
  destruct (Z.leb_spec ack (lastValue c)); cbn [orb fst snd]; [lia|].
  destruct (_ <? iv); cbn [fst snd lastValue cpending]; rewrite ?if_lt_max; lia.
Qed.

Lemma sent_covers c h ack : covers c h → 0 ≤ ack → covers (commitSent c ack) h.
Proof.
  unfold covers, commitSent. intros (Hl & Hp & Hh) Ha.
  destruct (Z.eqb_spec ack 0); [done|]. cbn. rewrite if_lt_max.
  destruct (Z.leb_spec (cpending c) ack); lia.
Qed.

Lemma flush_covers c h now iv : covers c h → covers (flushDue c now iv).2 h.
Proof.
  unfold covers, flushDue, commitLocked. intros (Hl & Hp & Hh).
  destruct (_ && _) eqn:Hd; cbn [lastValue cpending].
  - rewrite orb_true_l. cbn. rewrite if_lt_max. lia.
  - destruct (_ || _); cbn; lia.
Qed.

Lemma crun_covers ops c h : covers c h → claims_grow h ops →
  covers (crun c ops).2 (last_claim h ops).
Proof.
  revert c h. induction ops as [|o ops IH]; intros c h Hc Hg; [done|].
  assert (Hr : (crun c (o :: ops)).2 = (crun (cstep c o).2 ops).2).
  { cbn [crun]. destruct (cstep c o) as [e c']. cbn [snd]. by destruct (crun c' ops). }
  rewrite Hr. clear Hr.
  destruct o as [now ack iv urgent|now iv|ack]; cbn [cstep claims_grow last_claim] in *.
  - pose proof (claim_covers c h now ack iv urgent Hc (proj1 Hg)) as H.
    destruct (claim c now ack iv urgent) as [ok c1]. apply IH; [done|tauto].
  - pose proof (flush_covers c h now iv Hc) as H.
    destruct (flushDue c now iv) as [[a w] c1]. by apply IH.
  - apply IH; [|tauto]. apply sent_covers; tauto.
Qed.

Lemma covers_new : covers newAckCoalescer 0.
Proof. unfold covers. cbn. lia. Qed.

(** Coalescing never swallows an acknowledgement: after any run of
    claims, piggybacked sends and flushes, the newest value claimed has either
    been put on the wire already or is emitted by a flush once the suppression
    interval has passed. *)
Theorem coalescer_never_swallows ops now iv :
  claims_grow 0 ops →
  let c := (crun newAckCoalescer ops).2 in
  let h := last_claim 0 ops in
  (∀ t, lastAt c = Some t → iv ≤ now - t) → iv ≤ maxDuration →
  h ≤ lastValue c ∨ (flushDue c now iv).1 = (h, 0).
Proof.
  intros Hg c h Hold Hiv.
  destruct (crun_covers ops newAckCoalescer 0 covers_new Hg) as (Hl & Hp & Hh).
  fold c h in Hl, Hp, Hh. destruct (Z.le_gt_cases h (lastValue c)); [by left|right].
  assert (cpending c = h) as Hpe by lia. unfold flushDue. rewrite Hpe.
  assert (iv ≤ since c now).
  { unfold since. destruct (lastAt c) as [t|]; [by apply Hold|done]. }
  destruct (Z.eqb_spec h 0); [lia|]. destruct (Z.ltb_spec (lastValue c) h); [|lia].
  destruct (Z.leb_spec iv (since c now)); [done|lia].
Qed.

Lemma coalescer_never_swallows_witness :
  (flushDue (crun newAckCoalescer
    [OClaim 0 5 1000000 false; OClaim 10 8 1000000 false; OClaim 20 9 1000000 false]).2
    1000000 1000000).1 = (9, 0).
Proof.
  destruct (coalescer_never_swallows
    [OClaim 0 5 1000000 false; OClaim 10 8 1000000 false; OClaim 20 9 1000000 false]
    1000000 1000000) as [H|H].
  - vm_compute. repeat split; discriminate.
  - intros t Ht. vm_compute in Ht. injection Ht as <-. lia.
  - vm_compute. discriminate.
  - exfalso. revert H. vm_compute. intros H. by apply H.
  - exact H.
Defined.

(** Suppression: an authorised non-urgent claim always advances what
    the peer was last told, and comes at least [iv] after the previous datagram;
    a deferred one is remembered, and the wait reported for it never exceeds
    [iv], so the retransmit loop cannot oversleep it. *)
Theorem claim_suppression c now ack iv :
  0 ≤ ack → 0 ≤ iv ≤ maxDuration → (∀ t, lastAt c = Some t → t ≤ now) →
  let '(ok, c') := claim c now ack iv false in
  (ok = true → lastValue c < ack ∧ (∀ t, lastAt c = Some t → iv ≤ now - t) ∧
               lastValue c' = ack ∧ lastAt c' = Some now) ∧
  (ok = false → lastValue c < ack → ack ≠ 0 →
     ack ≤ cpending c' ∧ (flushDue c' now iv).1.1 = 0 ∧ 0 < (flushDue c' now iv).1.2 ≤ iv).
Proof.
  intros Hack Hiv Hmono. unfold claim.
  destruct (Z.eqb_spec ack 0); cbn [orb]; [done|].
  destruct (Z.leb_spec ack (lastValue c)); [split; [done|lia]|].
  set (c1 := mkCoalescer _ _ _).
  assert (Hs : since c1 now = since c now) by done. rewrite Hs.
  assert (Hp : ack ≤ cpending c1) by (subst c1; cbn; rewrite if_lt_max; lia).
  destruct (Z.ltb_spec (since c now) iv) as [Hlt|Hge].
  - split; [done|]. intros _ Hadv _. split; [done|]. unfold flushDue. rewrite Hs.
    assert (0 ≤ since c now).
    { unfold since in *. destruct (lastAt c) as [t|]; [specialize (Hmono t eq_refl); lia|].
      unfold maxDuration. lia. }
    destruct (Z.leb_spec iv (since c now)); [lia|]. rewrite andb_false_r.
    destruct (Z.eqb_spec (cpending c1) 0) as [Hz|Hz]; cbn [orb].
    { subst c1. cbn in *. rewrite if_lt_max in *. lia. }
    destruct (Z.leb_spec (cpending c1) (lastValue c1)); [subst c1; cbn in *; lia|].
    rewrite Hs. cbn [fst snd]. destruct (Z.ltb_spec (iv - since c now) 0); lia.
  - split; [|done]. intros _. cbn. rewrite if_lt_max. split_and!; [lia| |lia|done].
    intros t Ht. unfold since in Hge. by rewrite Ht in Hge.
Qed.

Lemma claim_suppression_witness :
  (flushDue (claim (mkCoalescer 3 (Some 100) 0) 150 7 80 false).2 150 80).1 = (0, 30) ∧
  7 ≤ cpending (claim (mkCoalescer 3 (Some 100) 0) 150 7 80 false).2.
Proof.
  split; [reflexivity|].
  pose proof (claim_suppression (mkCoalescer 3 (Some 100) 0) 150 7 80) as H.
  destruct (claim _ _ _ _ _) as [ok c'] eqn:E. vm_compute in E. injection E as <- <-.
  refine (proj1 (proj2 (H _ _ _) eq_refl _ _)); vm_compute;
    [discriminate| | |reflexivity|discriminate].
  - split; discriminate.
  - intros t Ht. injection Ht as <-. discriminate.
Defined.

(** The suppression interval never reaches past the sender's timeout:
    for every run of RTT samples it lies between 1 ms and 100 ms and is at most
    the RTO the same estimator computes. *)
Theorem coalesce_interval_le_rto l m :
  rttInitialGuess ≤ m < 2 ^ 58 → Forall (λ x, x ≤ m) l →
  let iv := ackCoalesceInterval (SRTT (samples l)) in
  millisecond ≤ iv ≤ ackMaxCoalesce ∧ iv ≤ RTO (samples l).
Proof.
  intros Hm Hl iv. destruct (samples_inv m l Hm Hl) as [Hs Hv Hr Hi _ _].
  subst iv. unfold ackCoalesceInterval. rewrite if_lt_max, if_gt_min.
  unfold SRTT, RTO, ackMaxCoalesce, millisecond, rttMinRTO, rttMaxRTO, rttInitialGuess, second in *.
  destruct (hasData (samples l)).
  - specialize (Hs eq_refl). specialize (Hr eq_refl). specialize (Hv eq_refl).
    destruct (quot_bounds (srtt (samples l)) 2 ltac:(lia)) as [Hq _].
    unfold millisecond in *. lia.
  - specialize (Hi eq_refl). unfold millisecond in *. rewrite Z.quot_0_l by lia. lia.
Qed.

Lemma coalesce_interval_le_rto_witness :
  ackCoalesceInterval (SRTT (samples [7000000])) ≤ RTO (samples [7000000]).
Proof.
  refine (proj2 (coalesce_interval_le_rto [7000000] (2 ^ 40) _ _)).
  - split; vm_compute; done.
  - apply (bool_decide_unpack _). vm_compute. exact I.
Defined.

(** An authorised claim is committed before its datagram is written:
    once a claim has been granted, claiming the same value again is refused, so a
    write that fails afterwards is not retried by a later delivery of the same
    prefix. *)
Theorem claim_commits_before_write c now ack iv now' iv' :
  0 < ack → (claim c now ack iv false).1 = true →
  (claim (claim c now ack iv false).2 now' ack iv' false).1 = false.
Proof.
  intros Ha. unfold claim at 1 3. destruct (_ || _); [done|].
  destruct (_ <? _); [done|]. intros _. unfold claim, commitLocked. cbn [snd lastValue cpending].
  rewrite if_lt_max. destruct (Z.leb_spec ack (Z.max (lastValue c) ack)); [|lia].
  by rewrite orb_true_r.
Qed.

Lemma claim_commits_before_write_witness :
  (claim (claim newAckCoalescer 5 7 1000000 false).2 9999999 7 1000000 false).1 = false.
Proof. apply claim_commits_before_write; [lia|reflexivity]. Defined.
