(* ===== verification/F64.v ===== *)
(** Go's float64 as IEEE 754 binary64 values of the Standard Library's executable
    specification ([SpecFloat]): the operations the congestion controller and the
    loss estimators use, with Go's conversions to and from integers. *)
From Stdlib Require Import SpecFloat.
From S2P Require Import Prelude.
Local Open Scope Z_scope.

Definition f64 := spec_float.
Definition f64_of_int (z : Z) : f64 := binary_normalize 53 1024 z 0 false.
Definition f64_zero : f64 := S754_zero false.
Definition f64_add : f64 → f64 → f64 := SFadd 53 1024.
Definition f64_sub : f64 → f64 → f64 := SFsub 53 1024.
Definition f64_mul : f64 → f64 → f64 := SFmul 53 1024.
Definition f64_div : f64 → f64 → f64 := SFdiv 53 1024.

(** [int(x)]: truncation; values outside int64 (and NaN) convert to the smallest
    int64, as amd64's conversion instruction does. *)
Definition f64_to_int (x : f64) : Z :=
  match x with
  | S754_zero _ => 0
  | S754_finite s m e =>
      let a := if 0 <=? e then Z.pos m * 2 ^ e else Z.pos m / 2 ^ (- e) in
      let v := if s then - a else a in
      if (v <? - 2 ^ 63) || (2 ^ 63 <=? v) then - 2 ^ 63 else v
  | _ => - 2 ^ 63
  end.

(** The comparisons [<], [<=] of floats; false on NaN, as Go's are. *)
Definition f64_ltb : f64 → f64 → bool := SFltb.
Definition f64_leb : f64 → f64 → bool := SFleb.

(** A decimal literal n/d: the nearest double. *)
Definition f64_lit (n d : Z) : f64 := f64_div (f64_of_int n) (f64_of_int d).
