(* ===== verification/Flow.v ===== *)
(** Congestion control: the [sendFlow] half of src/tunnel/recovery.go.

    Times are nanoseconds; [None] is Go's zero time, further back than any
    duration.  The delivery rate is a float64, kept as an IEEE 754 binary64 value
    of the Standard Library's executable specification ([SpecFloat]). *)
From Stdlib Require Import SpecFloat.
From S2P Require Import Prelude F64 Rtt Delivery AckCoalesce.
Local Open Scope Z_scope.

(** [Duration.Seconds] *)
Definition Seconds (d : Z) : f64 :=
  f64_add (f64_of_int (Z.quot d second)) (f64_div (f64_of_int (Z.rem d second)) (f64_of_int 1000000000)).

(** * The flow *)

Definition rateWindow : Z := 100 * millisecond.
Definition rateIdle : Z := 2 * second.
Definition rateAlpha : f64 := f64_div (f64_of_int 1) (f64_of_int 4). (* 0.25 *)
Definition minRTTDrift : Z := 64.
Definition congestedFactor : Z := 2.
Definition initialCwnd : Z := 256.
Definition bootstrapPaceRTT : Z := 20 * millisecond.

Record sendFlow := mkFlow {
  max : Z;
  cwnd : Z;
  credit : Z;
  ssthresh : Z;
  growth : Z;
  lastLoss : option Z;
  lastLossCut : Z;
  lastLossSSThresh : Z;
  feedbackNo : Z;
  lastProbe : option Z;
  fastRepairs : Z;
  nextSend : option Z;
  rate : f64;
  rateAt : option Z;
  rateAcc : Z;
  flowMinRTT : Z;
  westwood : bool;
  restartTo : Z;
}.

(** [t.Sub(u)], saturating on the zero time. *)
Definition time_sub (t : Z) (u : option Z) : Z :=
  match u with Some u => t - u | None => maxDuration end.

Definition newSendFlow (maximum : Z) (automatic westwood wide : bool) : sendFlow :=
  let ceiling := if wide then deliveryWindowWide else deliveryWindow in
  let maximum := if automatic then ceiling else maximum in
  let maximum := Z.min (Z.max maximum 1) ceiling in
  {| max := maximum; cwnd := Z.min initialCwnd maximum; credit := ceiling; ssthresh := maximum;
     growth := 0; lastLoss := None; lastLossCut := 0; lastLossSSThresh := 0; feedbackNo := 0;
     lastProbe := None; fastRepairs := 0; nextSend := None; rate := f64_zero; rateAt := None;
     rateAcc := 0; flowMinRTT := 0; westwood := westwood; restartTo := 0 |}.

Definition flow_window (f : sendFlow) : Z := Z.min (cwnd f) (credit f).

Definition set_minRTT (f : sendFlow) (m : Z) : sendFlow :=
  mkFlow (max f) (cwnd f) (credit f) (ssthresh f) (growth f) (lastLoss f) (lastLossCut f)
    (lastLossSSThresh f) (feedbackNo f) (lastProbe f) (fastRepairs f) (nextSend f) (rate f)
    (rateAt f) (rateAcc f) m (westwood f) (restartTo f).
Definition set_rate (f : sendFlow) (r : f64) (at_ : option Z) (acc : Z) : sendFlow :=
  mkFlow (max f) (cwnd f) (credit f) (ssthresh f) (growth f) (lastLoss f) (lastLossCut f)
    (lastLossSSThresh f) (feedbackNo f) (lastProbe f) (fastRepairs f) (nextSend f) r
    at_ acc (flowMinRTT f) (westwood f) (restartTo f).
Definition set_window (f : sendFlow) (w ss g restart : Z) : sendFlow :=
  mkFlow (max f) w (credit f) ss g (lastLoss f) (lastLossCut f)
    (lastLossSSThresh f) (feedbackNo f) (lastProbe f) (fastRepairs f) (nextSend f) (rate f)
    (rateAt f) (rateAcc f) (flowMinRTT f) (westwood f) restart.
Definition set_cut (f : sendFlow) (t : option Z) (cut ss : Z) : sendFlow :=
  mkFlow (max f) (cwnd f) (credit f) (ssthresh f) (growth f) t cut
    ss (feedbackNo f) (lastProbe f) (fastRepairs f) (nextSend f) (rate f)
    (rateAt f) (rateAcc f) (flowMinRTT f) (westwood f) (restartTo f).
Definition set_feedback (f : sendFlow) (no cr : Z) : sendFlow :=
  mkFlow (max f) (cwnd f) cr (ssthresh f) (growth f) (lastLoss f) (lastLossCut f)
    (lastLossSSThresh f) no (lastProbe f) (fastRepairs f) (nextSend f) (rate f)
    (rateAt f) (rateAcc f) (flowMinRTT f) (westwood f) (restartTo f).
Definition set_probe (f : sendFlow) (t : Z) : sendFlow :=
  mkFlow (max f) (cwnd f) (credit f) (ssthresh f) (growth f) (lastLoss f) (lastLossCut f)
    (lastLossSSThresh f) (feedbackNo f) (Some t) (fastRepairs f) (nextSend f) (rate f)
    (rateAt f) (rateAcc f) (flowMinRTT f) (westwood f) (restartTo f).
Definition set_repairs (f : sendFlow) (n : Z) : sendFlow :=
  mkFlow (max f) (cwnd f) (credit f) (ssthresh f) (growth f) (lastLoss f) (lastLossCut f)
    (lastLossSSThresh f) (feedbackNo f) (lastProbe f) n (nextSend f) (rate f)
    (rateAt f) (rateAcc f) (flowMinRTT f) (westwood f) (restartTo f).
Definition set_nextSend (f : sendFlow) (t : Z) : sendFlow :=
  mkFlow (max f) (cwnd f) (credit f) (ssthresh f) (growth f) (lastLoss f) (lastLossCut f)
    (lastLossSSThresh f) (feedbackNo f) (lastProbe f) (fastRepairs f) (Some t) (rate f)
    (rateAt f) (rateAcc f) (flowMinRTT f) (westwood f) (restartTo f).

Definition observeRTT (f : sendFlow) (sample : Z) : sendFlow :=
  if sample <=? 0 then f else
  if (flowMinRTT f <=? 0) || (sample <? flowMinRTT f) then set_minRTT f sample else
  set_minRTT f (flowMinRTT f + Z.quot (sample - flowMinRTT f) minRTTDrift).

Definition sampleRate (f : sendFlow) (n now : Z) : sendFlow :=
  if n <=? 0 then f else
  match rateAt f with
  | None => set_rate f (rate f) (Some now) n
  | Some at_ =>
      let elapsed := now - at_ in
      if rateIdle <? elapsed then set_rate f f64_zero (Some now) n else
      let acc := rateAcc f + n in
      if elapsed <? rateWindow then set_rate f (rate f) (rateAt f) acc else
      let inst := f64_div (f64_of_int acc) (Seconds elapsed) in
      let r := if SFleb (rate f) f64_zero then inst
               else f64_add (rate f) (f64_mul (f64_sub inst (rate f)) rateAlpha) in
      set_rate f r (Some now) 0
  end.

Definition acknowledged (f : sendFlow) (n now : Z) : sendFlow :=
  let f := sampleRate f n now in
  let f := if 0 <? restartTo f
           then set_window f (cwnd f) (Z.max (cwnd f) (Z.min (max f) (restartTo f))) (growth f) 0
           else f in
  if cwnd f <? ssthresh f then
    set_window f (Z.min (max f) (cwnd f + n)) (ssthresh f) (growth f) (restartTo f)
  else
    let g := growth f + n in
    if cwnd f <=? g then
      set_window f (Z.min (max f) (cwnd f + 1)) (ssthresh f) (g - cwnd f) (restartTo f)
    else set_window f (cwnd f) (ssthresh f) g (restartTo f).

Definition congested (f : sendFlow) (rtt : Z) : bool :=
  (flowMinRTT f <=? 0) || (i64 (flowMinRTT f * congestedFactor) <=? rtt).

Definition bdp (f : sendFlow) (now rtt : Z) : Z :=
  if SFleb (rate f) f64_zero || bool_decide (rateAt f = None) ||
     (rateIdle <? time_sub now (rateAt f)) then 0 else
  let n := f64_to_int (f64_mul (rate f) (Seconds rtt)) in
  if n <? 0 then 0 else n.

(** The case distinction of [loss]: [None] is the early return that holds the
    window, otherwise the target and where a restart may climb to. *)
Definition lossTarget (f : sendFlow) (now rtt : Z) : option (Z * Z) :=
  let floor := Z.max 2 (cwnd f - Z.quot (cwnd f) 4) in
  let target := Z.max 2 (Z.quot (cwnd f) 2) in
  if flowMinRTT f <=? 0 then Some (target, cwnd f)
  else if westwood f && negb (congested f rtt) then
    let b := bdp f now rtt in
    if floor <=? b then None
    else Some (if 2 <=? b then Z.max b floor else floor, max f)
  else Some (target, 0).

Definition loss (f : sendFlow) (now rtt : Z) (undoable : bool) : sendFlow :=
  let rtt := if rtt <? 10 * millisecond then 10 * millisecond else rtt in
  if negb (bool_decide (lastLoss f = None)) && (time_sub now (lastLoss f) <? rtt) then f else
  let f := if undoable then set_cut f (Some now) (cwnd f) (ssthresh f)
           else set_cut f (Some now) (lastLossCut f) (lastLossSSThresh f) in
  match lossTarget f now rtt with
  | None => f
  | Some (target, restart) =>
      let ss := Z.max 2 (Z.min (cwnd f) target) in
      let f := set_window f (Z.min (max f) ss) ss 0 restart in
      if undoable then f else set_cut f (lastLoss f) 0 0
  end.

Definition undoLoss (f : sendFlow) : bool * sendFlow :=
  let cut := lastLossCut f in
  let f := set_cut f (lastLoss f) 0 (lastLossSSThresh f) in
  if cut <=? cwnd f then (false, f) else
  let ss := if ssthresh f <? lastLossSSThresh f then lastLossSSThresh f else ssthresh f in
  (true, set_window f (Z.min (max f) cut) ss 0 (restartTo f)).

(** [waitBurst]: the delay to wait and the reserved slot; [false] is only
    returned when the session closes during the wait. *)
Definition waitBurst (f : sendFlow) (now n window rtt : Z) : Z * sendFlow :=
  let rtt := if rtt <=? 0 then bootstrapPaceRTT else rtt in
  let w := match nextSend f with
           | Some t => if t <? now then now else t
           | None => now
           end in
  (w - now, set_nextSend f (w + Z.quot (i64 (n * rtt)) (Z.max window 1))).

(** * Invariant *)

Record flow_inv (f : sendFlow) : Prop := {
  flow_max : 1 ≤ max f ≤ deliveryWindowWide;
  flow_cwnd : Z.min 2 (max f) ≤ cwnd f ≤ max f;
  flow_credit : 0 ≤ credit f ≤ deliveryWindowWide;
  flow_growth : 0 ≤ growth f;
  flow_ss : 1 ≤ ssthresh f ≤ Z.max 2 (max f);
  flow_cut : 0 ≤ lastLossCut f ≤ max f;
  flow_cutss : 0 ≤ lastLossSSThresh f ≤ Z.max 2 (max f);
  flow_restart : 0 ≤ restartTo f ≤ max f;
}.

(** The operations the sessions perform on a flow. *)
Inductive flow_op :=
| FAck (n now : Z)
| FLoss (now rtt : Z) (undoable : bool)
| FUndo
| FRtt (sample : Z)
| FFeedback (no cr : Z)
| FBurst (now n window rtt : Z).

Definition flow_step (f : sendFlow) (o : flow_op) : sendFlow :=
  match o with
  | FAck n now => acknowledged f n now
  | FLoss now rtt u => loss f now rtt u
  | FUndo => (undoLoss f).2
  | FRtt s => observeRTT f s
  | FFeedback no cr => set_feedback f no cr
  | FBurst now n w rtt => (waitBurst f now n w rtt).2
  end.

Definition op_ok (o : flow_op) : Prop :=
  match o with
  | FAck n _ => 0 ≤ n
  | FFeedback _ cr => 0 ≤ cr ≤ deliveryWindowWide
  | _ => True
  end.

#[export] Instance op_ok_dec o : Decision (op_ok o).
Proof. destruct o; cbn; apply _. Defined.

Ltac flow_cbn :=
  cbn [max cwnd credit ssthresh growth lastLoss lastLossCut lastLossSSThresh feedbackNo lastProbe
       fastRepairs nextSend rate rateAt rateAcc flowMinRTT westwood restartTo
       set_minRTT set_rate set_window set_cut set_feedback set_probe set_repairs set_nextSend
       fst snd] in *.

Lemma newSendFlow_inv m a w wide : flow_inv (newSendFlow m a w wide).
Proof.
  unfold newSendFlow, deliveryWindowWide, deliveryWindow, initialCwnd.
  destruct wide, a; split; flow_cbn; unfold deliveryWindowWide; lia.
Qed.

(** Window arithmetic does not see the rate estimator. *)
Lemma sampleRate_window f n now :
  ∃ r t a, sampleRate f n now = set_rate f r t a.
Proof.
  unfold sampleRate. destruct (n <=? 0).
  { exists (rate f), (rateAt f), (rateAcc f). by destruct f. }
  destruct (rateAt f) eqn:E; repeat case_match; eauto.
Qed.

Lemma acknowledged_inv f n now : 0 ≤ n → flow_inv f → flow_inv (acknowledged f n now).
Proof.
  intros Hn []. unfold acknowledged. destruct (sampleRate_window f n now) as (r & t & a & ->).
  flow_cbn. destruct (Z.ltb_spec 0 (restartTo f)); flow_cbn;
    match goal with |- context [?x <? ?y] => destruct (Z.ltb_spec x y) end;
    try match goal with |- context [?x <=? ?y] => destruct (Z.leb_spec x y) end;
    split; flow_cbn; lia.
Qed.

(** What one cut may do to the window. *)
Lemma lossTarget_range f now rtt target restart : flow_inv f →
  lossTarget f now rtt = Some (target, restart) →
  Z.max 2 (Z.quot (cwnd f) 2) ≤ target ∧ 0 ≤ restart ≤ max f.
Proof.
  intros []. unfold lossTarget. pose proof (quot_bounds (cwnd f) 2 ltac:(lia)) as [H2 _].
  pose proof (quot_bounds (cwnd f) 4 ltac:(lia)) as [H4 _].
  assert (2 * Z.quot (cwnd f) 4 ≤ Z.quot (cwnd f) 2).
  { change 4 with (2 * 2). rewrite <- Z.quot_quot by lia.
    pose proof (quot_bounds (Z.quot (cwnd f) 2) 2 ltac:(lia)) as [H _]. lia. }
  assert (Z.quot (cwnd f) 2 ≤ cwnd f - Z.quot (cwnd f) 4) by lia.
  destruct (_ <=? 0); [intros [= <- <-]; lia|].
  destruct (_ && _); [|intros [= <- <-]; lia].
  destruct (Z.leb_spec (Z.max 2 (cwnd f - Z.quot (cwnd f) 4)) (bdp f now rtt)); [done|].
  intros [= <- <-]. destruct (2 <=? _); lia.
Qed.

Lemma loss_inv f now rtt u : flow_inv f → flow_inv (loss f now rtt u).
Proof.
  intros Hinv. unfold loss. set (r := if rtt <? _ then _ else _).
  destruct (_ && _); [done|]. set (f1 := if u then set_cut _ _ _ _ else _).
  assert (Hinv1 : flow_inv f1) by (destruct Hinv; subst f1; destruct u; split; flow_cbn; lia).
  destruct (lossTarget f1 now r) as [[target restart]|] eqn:Ht; [|done].
  apply (lossTarget_range f1) in Ht as [Ht Hr]; [|done].
  destruct Hinv1. destruct u; split; flow_cbn; lia.
Qed.

Lemma undo_inv f : flow_inv f → flow_inv (undoLoss f).2.
Proof.
  intros []. unfold undoLoss. flow_cbn. destruct (Z.leb_spec (lastLossCut f) (cwnd f));
    split; flow_cbn; try lia. rewrite if_lt_max. lia.
Qed.

Lemma flow_step_inv f o : op_ok o → flow_inv f → flow_inv (flow_step f o).
Proof.
  intros Hok Hinv. destruct o; cbn [flow_step op_ok] in *.
  - by apply acknowledged_inv.
  - by apply loss_inv.
  - by apply undo_inv.
  - destruct Hinv. unfold observeRTT. repeat case_match; by split.
  - destruct Hinv. by split.
  - destruct Hinv. by split.
Qed.

Lemma flow_run_inv f ops : flow_inv f → Forall op_ok ops → flow_inv (foldl flow_step f ops).
Proof.
  intros Hf Hops. revert f Hf. induction Hops; intros f Hf; [done|].
  cbn [foldl]. auto using flow_step_inv.
Qed.

(** C33: (bounds) Whatever sequence of ACKs, losses, undone losses, RTT samples and
    SACK credits a flow goes through, its congestion window stays between 2 (1 on
    a one-frame session) and the negotiated maximum, at most 4096: it never
    collapses to zero and never exceeds what the peer's window can hold. *)
Theorem flow_window_bounded m automatic westwood wide ops :
  Forall op_ok ops →
  let f := foldl flow_step (newSendFlow m automatic westwood wide) ops in
  Z.min 2 (max f) ≤ cwnd f ≤ max f ∧ 1 ≤ max f ≤ deliveryLimitFor wide ∧
  0 ≤ flow_window f ≤ max f.
Proof.
  intros Hops f. pose proof (flow_run_inv _ ops (newSendFlow_inv m automatic westwood wide) Hops)
    as []. fold f in flow_max0, flow_cwnd0, flow_credit0.
  assert (Hmax : max f = max (newSendFlow m automatic westwood wide)).
  { subst f. clear. generalize (newSendFlow m automatic westwood wide).
    induction ops as [|o ops IH]; intros f; [done|]. cbn [foldl]. rewrite IH.
    destruct o; cbn [flow_step]; try done.
    - unfold acknowledged. destruct (sampleRate_window f n now) as (r & t & a & ->).
      repeat case_match; done.
    - unfold loss. repeat case_match; done.
    - unfold undoLoss. repeat case_match; done.
    - unfold observeRTT. repeat case_match; done. }
  unfold flow_window. split_and!; try lia.
  rewrite Hmax. unfold newSendFlow, deliveryLimitFor, deliveryWindowWide, deliveryWindow. flow_cbn.
  destruct wide, automatic; lia.
Qed.

Lemma flow_window_bounded_witness :
  2 ≤ cwnd (foldl flow_step (newSendFlow 0 true true false)
    [FLoss 10 5 true; FAck 3 20; FLoss 50000000 1 false; FUndo; FAck 200 60000000]) ≤ 512.
Proof.
  pose proof (flow_window_bounded 0 true true false
    [FLoss 10 5 true; FAck 3 20; FLoss 50000000 1 false; FUndo; FAck 200 60000000]) as H.
  destruct H as [H _]; [|exact H]. apply (bool_decide_unpack _). vm_compute. exact I.
Defined.

(** * Cuts *)

(** [loss] either does nothing, or stamps the time and possibly cuts. *)
Lemma loss_cases f now rtt u : flow_inv f →
  let r := Z.max rtt (10 * millisecond) in
  (loss f now rtt u = f ∧ ∃ t, lastLoss f = Some t ∧ now - t < r) ∨
  (lastLoss (loss f now rtt u) = Some now ∧
   (u = true → lastLossCut (loss f now rtt u) = cwnd f ∧
               lastLossSSThresh (loss f now rtt u) = ssthresh f) ∧
   max (loss f now rtt u) = max f ∧
   ((cwnd (loss f now rtt u) = cwnd f ∧ ssthresh (loss f now rtt u) = ssthresh f) ∨
    ∃ target restart, lossTarget (set_cut f (Some now) 0 0) now r = Some (target, restart) ∧
      ssthresh (loss f now rtt u) = Z.max 2 (Z.min (cwnd f) target) ∧
      cwnd (loss f now rtt u) = Z.min (max f) (Z.max 2 (Z.min (cwnd f) target)) ∧
      restartTo (loss f now rtt u) = restart ∧
      (u = false → lastLossCut (loss f now rtt u) = 0))).
Proof.
  intros _. cbn zeta. unfold loss. rewrite if_lt_max.
  destruct (bool_decide_reflect (lastLoss f = None)) as [Hn|Hn]; cbn [negb andb].
  2:{ destruct (lastLoss f) as [t|] eqn:Ht; [|done]. cbn [time_sub].
      destruct (Z.ltb_spec (now - t) (Z.max rtt (10 * millisecond))); [left; eauto|right].
      destruct u; destruct (lossTarget _ _ _) as [[tg rs]|] eqn:Hlt; flow_cbn;
        split_and!; try done; try (by left); right; exists tg, rs; split_and!; done. }
  right. destruct u; destruct (lossTarget _ _ _) as [[tg rs]|] eqn:Hlt; flow_cbn;
    split_and!; try done; try (by left); right; exists tg, rs; split_and!; done.
Qed.

(** A loss event never grows the window, never takes more than half of
    it (and never below 2), takes at most a quarter when the path is known not to
    be congested, and a second event within one RTT (at least 10 ms) of the last
    changes nothing. *)
Theorem loss_cut_bounded f now rtt u :
  flow_inv f →
  let f' := loss f now rtt u in
  Z.min (max f) (Z.max 2 (Z.quot (cwnd f) 2)) ≤ cwnd f' ≤ cwnd f ∧
  (westwood f = true → 0 < flowMinRTT f →
   congested f (Z.max rtt (10 * millisecond)) = false →
   Z.min (max f) (Z.max 2 (cwnd f - Z.quot (cwnd f) 4)) ≤ cwnd f') ∧
  (∀ t, lastLoss f = Some t → now - t < Z.max rtt (10 * millisecond) → f' = f).
Proof.
  intros Hinv f'. pose proof Hinv as [].
  pose proof (quot_bounds (cwnd f) 2 ltac:(lia)) as [H2 _].
  pose proof (quot_bounds (cwnd f) 4 ltac:(lia)) as [H4 _].
  pose proof (loss_cases f now rtt u Hinv) as Hcases. cbn zeta in Hcases. fold f' in Hcases.
  destruct Hcases as [[Heq (t & Ht & Hlt)]|(Hnow & _ & Hm & Hcut)].
  { rewrite Heq. split_and!; try lia. done. }
  assert (Hlate : ∀ t, lastLoss f = Some t → now - t < Z.max rtt (10 * millisecond) → f' = f).
  { intros t Ht Hlt. subst f'. unfold loss. rewrite if_lt_max, Ht. cbn [time_sub].
    rewrite bool_decide_eq_false_2 by done. cbn [negb andb].
    by destruct (Z.ltb_spec (now - t) (Z.max rtt (10 * millisecond))); [|lia]. }
  destruct Hcut as [[-> _]|(tg & rs & Ht & _ & -> & _)]; [split_and!; try lia; done|].
  assert (Hinv1 : flow_inv (set_cut f (Some now) 0 0)) by (split; flow_cbn; lia).
  pose proof (lossTarget_range _ _ _ _ _ Hinv1 Ht) as [Htg _]. flow_cbn.
  split_and!; [lia|lia| |done].
  intros Hw Hmin Hc. unfold lossTarget in Ht. flow_cbn.
  destruct (Z.leb_spec (flowMinRTT f) 0); [lia|]. rewrite Hw in Ht.
  assert (Hc' : congested (set_cut f (Some now) 0 0) (Z.max rtt (10 * millisecond)) = false) by done.
  rewrite Hc' in Ht. cbn [negb andb] in Ht.
  destruct (_ <=? bdp _ _ _); [done|]. injection Ht as Ht _.
  destruct (2 <=? _); lia.
Qed.

Lemma loss_cut_bounded_witness :
  128 ≤ cwnd (loss (newSendFlow 0 true true false) 5 0 true) ≤ 256.
Proof.
  refine (proj1 (loss_cut_bounded (newSendFlow 0 true true false) 5 0 true _)).
  apply newSendFlow_inv.
Defined.

Lemma undo_nothing f : lastLossCut f ≤ cwnd f → (undoLoss f).1 = false.
Proof.
  intros. unfold undoLoss. flow_cbn. by destruct (Z.leb_spec (lastLossCut f) (cwnd f)); [|lia].
Qed.

Lemma undo_clears f : lastLossCut (undoLoss f).2 = 0.
Proof. unfold undoLoss. by destruct (_ <=? _). Qed.

(** Undoing a spurious timeout puts the window back exactly where it
    was before that cut and, if the window was cut, ssthresh no lower than it was; it
    works once, and a
    definitive (non-undoable) cut leaves nothing to undo. *)
Theorem undo_restores f now rtt :
  flow_inv f →
  let f1 := loss f now rtt true in
  let f2 := (undoLoss f1).2 in
  (lastLoss f1 = Some now → lastLoss f ≠ Some now →
   cwnd f2 = cwnd f ∧ (cwnd f1 < cwnd f → ssthresh f ≤ ssthresh f2)) ∧
  (undoLoss f2).1 = false ∧
  (cwnd (loss f now rtt false) < cwnd f → (undoLoss (loss f now rtt false)).1 = false).
Proof.
  intros Hinv f1 f2. pose proof Hinv as []. split_and!.
  - intros Hl Hne. pose proof (loss_cases f now rtt true Hinv) as Hcases. cbn zeta in Hcases.
    fold f1 in Hcases. destruct Hcases as [[Heq _]|(_ & Hu & Hm & Hcut)]; [congruence|].
    destruct (Hu eq_refl) as [Hc Hs]. pose proof (loss_inv f now rtt true Hinv) as Hinv1.
    fold f1 in Hinv1. destruct Hinv1. subst f2. unfold undoLoss. flow_cbn. rewrite Hc, Hm.
    destruct (Z.leb_spec (cwnd f) (cwnd f1)) as [Hle|Hgt]; flow_cbn; [|rewrite if_lt_max; lia].
    destruct Hcut as [[? ?]|(tg & rs & Ht & Hss & Hcw & _)]; lia.
  - pose proof (undo_inv f1 (loss_inv f now rtt true Hinv)) as [_ Hw _ _ _ Hc _ _]. fold f2 in Hw, Hc.
    apply undo_nothing. subst f2. rewrite undo_clears in *. lia.
  - intros Hlt. destruct (loss_cases f now rtt false Hinv) as [[Heq _]|(_ & _ & Hm & Hcut)].
    { rewrite Heq in Hlt. lia. }
    destruct Hcut as [[? ?]|(tg & rs & _ & _ & _ & _ & Hc)]; [lia|]. specialize (Hc eq_refl).
    pose proof (loss_inv f now rtt false Hinv) as []. apply undo_nothing. lia.
Qed.

Lemma undo_restores_witness :
  cwnd (undoLoss (loss (newSendFlow 0 true true false) 5 0 true)).2 = 256 ∧
  cwnd (loss (newSendFlow 0 true true false) 5 0 true) = 128.
Proof.
  split; [|reflexivity].
  destruct (undo_restores (newSendFlow 0 true true false) 5 0) as [H _]; [apply newSendFlow_inv|].
  destruct H as [H _]; [reflexivity|discriminate|exact H].
Defined.

(** A loss before any RTT baseline does not strand a fresh session: the
    first acknowledgement of as many frames as were cut away brings the window
    back to where it was, in one step rather than one frame per RTT. *)
Theorem blind_loss_recovers f now rtt u now' n :
  flow_inv f → flowMinRTT f ≤ 0 → lastLoss f = None →
  cwnd f - cwnd (loss f now rtt u) ≤ n → 0 < n →
  cwnd f ≤ cwnd (acknowledged (loss f now rtt u) n now').
Proof.
  intros Hinv Hmin Hl Hn Hn0. pose proof Hinv as [].
  destruct (loss_cases f now rtt u Hinv) as [[_ (t & Ht & _)]|(_ & _ & Hm & Hcut)]; [congruence|].
  pose proof (loss_inv f now rtt u Hinv) as Hinv1.
  set (f1 := loss f now rtt u) in *. destruct Hinv1.
  unfold acknowledged. destruct (sampleRate_window f1 n now') as (r & t & a & ->). flow_cbn.
  destruct Hcut as [[Hc Hs]|(tg & rs & Ht & Hss & Hcw & Hrs & _)].
  - destruct (0 <? restartTo f1); flow_cbn; repeat case_match; flow_cbn; lia.
  - unfold lossTarget in Ht. flow_cbn. destruct (Z.leb_spec (flowMinRTT f) 0); [|lia].
    injection Ht as <- <-. rewrite Hrs. destruct (Z.ltb_spec 0 (cwnd f)); [|lia]. flow_cbn.
    rewrite Hm in *. destruct (Z.ltb_spec (cwnd f1) (Z.max (cwnd f1) (Z.min (max f) (cwnd f))));
      flow_cbn; [lia|]. case_match; flow_cbn; lia.
Qed.

Lemma blind_loss_recovers_witness :
  256 ≤ cwnd (acknowledged (loss (newSendFlow 0 true true false) 5 0 true) 128 9).
Proof.
  apply (blind_loss_recovers (newSendFlow 0 true true false) 5 0 true 9 128);
    [apply newSendFlow_inv|vm_compute; discriminate|reflexivity|vm_compute; discriminate|lia].
Defined.

(** * Pacing *)

(** Bursts of [ns] frames asked for at times [nows]: the times they leave at. *)
Fixpoint pace (f : sendFlow) (window rtt : Z) (bursts : list (Z * Z)) : list Z :=
  match bursts with
  | [] => []
  | (now, n) :: rest =>
      let '(delay, f') := waitBurst f now n window rtt in
      now + delay :: pace f' window rtt rest
  end.

(** Pacing: of two consecutive bursts the second leaves at least
    n*rtt/window after the first, n being the first burst's size, however the
    callers' clocks interleave, so a whole window takes a whole RTT to leave and
    no flight is sent as one line-rate burst. *)
Theorem pacing_spaces_bursts f window rtt now1 n1 now2 n2 rest x1 x2 xs :
  0 < rtt → 0 < window → 0 ≤ n1 * rtt < 2 ^ 63 →
  pace f window rtt ((now1, n1) :: (now2, n2) :: rest) = x1 :: x2 :: xs →
  now1 ≤ x1 ∧ now2 ≤ x2 ∧ x1 + Z.quot (n1 * rtt) window ≤ x2.
Proof.
  intros Hr Hw Hn Hp. cbn [pace] in Hp.
  destruct (waitBurst f now1 n1 window rtt) as [d1 f1] eqn:E1.
  destruct (waitBurst f1 now2 n2 window rtt) as [d2 f2] eqn:E2. injection Hp as <- <- _.
  unfold waitBurst in E1. destruct (Z.leb_spec rtt 0); [lia|].
  rewrite i64_small, (Z.max_l window) in E1 by lia.
  set (w1 := match nextSend f with Some t => if t <? now1 then now1 else t | None => now1 end) in E1.
  assert (now1 ≤ w1) by (subst w1; destruct (nextSend f) as [t|]; [destruct (Z.ltb_spec t now1)|]; lia).
  injection E1 as <- <-. unfold waitBurst in E2. cbn [nextSend set_nextSend] in E2.
  destruct (Z.ltb_spec (w1 + Z.quot (n1 * rtt) window) now2); injection E2 as <- _; lia.
Qed.

Lemma pacing_spaces_bursts_witness :
  pace (newSendFlow 0 true true false) 256 20000000 [(1000, 64); (1000, 64)] = [1000; 5001000] ∧
  1000 + Z.quot (64 * 20000000) 256 ≤ 5001000.
Proof.
  split; [vm_compute; reflexivity|].
  apply (pacing_spaces_bursts (newSendFlow 0 true true false) 256 20000000 1000 64 1000 64 []
           1000 5001000 []); [lia|lia|lia|vm_compute; reflexivity].
Defined.
