(* ===== verification/Sack.v ===== *)
(** Selective acknowledgement and retransmission: src/tunnel/recovery.go
    (encodeSACKWords, updateSACK, retryDue, undoIfSpurious), creditProbeInterval
    of session_transport.go and markTransmitted of transmit.go.

    The map of outstanding frames is a [gmap]; its entries are mutated in place in
    the source and replaced here. *)
From S2P Require Import Prelude Bitmap Protocol Rtt Delivery AckCoalesce Flow.
Local Open Scope Z_scope.

Definition sackWordsNarrow : Z := 8.
Definition idleRetryDelay : Z := 10 * millisecond.
Definition sackFastRepairMax : Z := 3.
Definition retryBurstMax : Z := 64.
Definition clientMaxRetries : Z := 15.

Record unackedPkt := mkPkt {
  pwire : bytes;
  firstSent : Z;
  sentTime : Z;
  prto : Z;
  sacked : bool;
  queued : bool;
  retries : Z;
}.

Abbreviation outstanding_map := (gmap Z unackedPkt).

(** * The SACK payload *)

(** [for n > 0 && words[n-1] == 0 { n-- }] *)
Fixpoint trimWords (words : list Z) (n : nat) : nat :=
  match n with
  | O => O
  | S m => if word words m =? 0 then trimWords words m else S m
  end.

Definition encodeSACKWords (credit : Z) (words : list Z) (maxWords : Z) : bytes :=
  let n := trimWords words (Z.to_nat maxWords) in
  be_bytes 2 credit ++ concat (map (λ i, be_bytes 8 (word words i)) (seq 0 n)).

Definition encodeSACK (credit bitmap : Z) (extra : list Z) : bytes :=
  encodeSACKWords credit (take 64 (bitmap :: extra ++ replicate 64 0)) sackWordsNarrow.

(** [bits.Len64], [bits.TrailingZeros64] *)
Definition len64 (w : Z) : Z := if w =? 0 then 0 else Z.log2 w + 1.

Fixpoint firstBit (n : nat) (i w : Z) : Z :=
  match n with
  | O => i
  | S n => if Z.testbit w i then i else firstBit n (i + 1) w
  end.
Definition trailingZeros64 (w : Z) : Z := firstBit 64 0 w.

Definition sackWord (data : bytes) (i : nat) : Z :=
  be_val (slice (2 + Z.of_nat i * 8) (2 + Z.of_nat i * 8 + 8) data).

(** The validation loop: the words and the number of admissions, or a rejection. *)
Fixpoint readWords (data : bytes) (dist : Z) (i n : nat) : option (list Z * Z) :=
  match n with
  | O => Some ([], 0)
  | S m =>
      let w := sackWord data i in
      if negb (w =? 0) && (dist <? Z.of_nat i * 64 + len64 w) then None else
      match readWords data dist (S i) m with
      | None => None
      | Some (ws, c) => Some (w :: ws, onesCount64 w + c)
      end
  end.

Definition mark_sacked (p : unackedPkt) : unackedPkt :=
  mkPkt (pwire p) (firstSent p) (sentTime p) (prto p) true (queued p) (retries p).

(** [for bitsLeft != 0 { ...; bitsLeft &= bitsLeft - 1 }]; 64 rounds clear a word. *)
Fixpoint markWord (fuel : nat) (base bitsLeft : Z) (m : outstanding_map) : outstanding_map :=
  match fuel with
  | O => m
  | S fuel =>
      if bitsLeft =? 0 then m else
      let bit := trailingZeros64 bitsLeft in
      markWord fuel base (Z.land bitsLeft (bitsLeft - 1))
        (alter mark_sacked (u64 (base + bit + 1)) m)
  end.

(** [for word, bitsLeft := range words { step }], the base of word i being
    ack + 64 i. *)
Fixpoint rangeWords (step : Z → Z → outstanding_map → outstanding_map) (ack : Z) (i : nat)
    (words : list Z) (m : outstanding_map) : outstanding_map :=
  match words with
  | [] => m
  | w :: words => rangeWords step ack (S i) words (step (ack + Z.of_nat i * 64) w m)
  end.

Definition markWords (ack : Z) (words : list Z) (m : outstanding_map) : outstanding_map :=
  rangeWords (markWord 64) ack 0 words m.

(** The candidate scan over consecutive sequence numbers. *)
Fixpoint dueScan (m : outstanding_map) (now guard : Z) (seqs : list Z) (budget : nat) : list Z :=
  match seqs, budget with
  | [], _ => []
  | _, O => []
  | seq :: seqs, S b =>
      match m !! seq with
      | None => dueScan m now guard seqs budget
      | Some p =>
          if sacked p || queued p then dueScan m now guard seqs budget else
          let guardFor := if 0 <? retries p then Z.max guard (Z.quot (prto p) 4) else guard in
          if (now - sentTime p <? guardFor) || (clientMaxRetries <=? retries p)
          then dueScan m now guard seqs budget
          else seq :: dueScan m now guard seqs b
      end
  end.

(** One retransmission: retries, send time and the backoff ladder. *)
Definition bump (now maximumRTO : Z) (p : unackedPkt) : unackedPkt :=
  mkPkt (pwire p) (firstSent p) now (Z.min (Z.quot (i64 (prto p * 3)) 2) maximumRTO)
    (sacked p) (queued p) (retries p + 1).

Definition bumpAll (now maximumRTO : Z) (seqs : list Z) (m : outstanding_map) : outstanding_map :=
  foldl (λ m seq, alter (bump now maximumRTO) seq m) m seqs.

Definition wiresOf (m : outstanding_map) (seqs : list Z) : list bytes :=
  omap (λ seq, pwire <$> m !! seq) seqs.

Definition updateSACK (flow : option sendFlow) (m : outstanding_map) (f : UDPCFrame)
    (highest rtt now : Z) : (list bytes * bool) * (option sendFlow * outstanding_map) :=
  match flow with
  | None => (([], false), (flow, m))
  | Some fl =>
      let n := len (Data f) in
      if (highest =? 0) || (n <? 2) || (sackWordsWidePayload <? n) || negb (Z.rem (n - 2) 8 =? 0) ||
         (highest <? Ack f) || (PacketNo f <=? feedbackNo fl)
      then (([], false), (flow, m)) else
      let wordCount := Z.quot (n - 2) 8 in
      match readWords (Data f) (highest - Ack f) 0 (Z.to_nat wordCount) with
      | None => (([], false), (flow, m))
      | Some (words, count) =>
          let credit := be_val (upto 2 (Data f)) in
          let credit := if deliveryWindowWide <? credit then deliveryWindowWide else credit in
          let fl := set_feedback fl (PacketNo f) credit in
          let m := markWords (Ack f) words m in
          if count <? 3 then (([], true), (Some fl, m)) else
          let guard := Z.max (5 * millisecond) (Z.quot rtt 4) in
          let lo := u64 (Ack f + 1) in
          let hi := Z.min (u64 (Ack f + wordCount * 64)) highest in
          let due := dueScan m now guard (seqZ lo (hi - lo + 1)) (Z.to_nat sackFastRepairMax) in
          (wiresOf m due, true,
           (Some (set_repairs fl (fastRepairs fl + len due)), bumpAll now rttMaxRTO due m))
      end
  end.

(** * Retransmission *)

Definition creditProbeInterval (flow : option sendFlow) (m : outstanding_map) : Z * bool :=
  match flow with
  | None => (0, false)
  | Some fl =>
      let ps := (map_to_list m).*2 in
      let sk := existsb sacked ps in
      let gap := existsb (λ p, negb (sacked p) && negb (queued p)) ps in
      if sk && gap then (25 * millisecond, true)
      else (100 * millisecond, (credit fl =? 0) || sk)
  end.

Definition remaining (now : Z) (p : unackedPkt) : Z := prto p - (now - sentTime p).

Definition seq_le (x y : Z * unackedPkt) : Prop := x.1 ≤ y.1.
#[global] Instance seq_le_dec : RelDecision seq_le.
Proof. intros x y. unfold seq_le. apply _. Defined.

(** Sequence numbers of the frames whose RTO expired, in increasing order: the
    source collects them in map order and sorts. *)
Definition expired (now : Z) (m : outstanding_map) : list (Z * unackedPkt) :=
  merge_sort seq_le
    (filter (λ kp, (negb (queued kp.2 || sacked kp.2) && (remaining now kp.2 <? 0)) = true)
       (map_to_list m)).

(** [retryDue]: wires, abandoned, delay, probe; new flow and map.  The early return
    of an exhausted frame precedes every mutation, so the order in which Go
    visits the map does not matter. *)
Definition retryDue (m : outstanding_map) (now maximumRTO : Z) (flow : option sendFlow) (rtt : Z)
  : (list bytes * bool * Z * bool) * (option sendFlow * outstanding_map) :=
  let due := expired now m in
  if existsb (λ kp, clientMaxRetries <=? retries kp.2) due
  then (([], true, 0, false), (flow, m)) else
  let waiting := filter (λ kp, (negb (queued kp.2 || sacked kp.2) && (0 <=? remaining now kp.2)) = true)
                   (map_to_list m) in
  let next := foldl (λ nx kp, if remaining now kp.2 <? nx then remaining now kp.2 else nx)
                idleRetryDelay waiting in
  let '(interval, probe) := creditProbeInterval flow m in
  let next := if probe then
                let d := interval - time_sub now (flow ≫= lastProbe) in
                if d <? next then d else next
              else next in
  let flow := if probe then (λ fl, set_probe fl now) <$> flow else flow in
  let due := upto retryBurstMax due.*1 in
  let wires := wiresOf m due in
  let m' := bumpAll now maximumRTO due m in
  let next := foldl (λ nx seq, match m' !! seq with
                               | Some p => if prto p <? nx then prto p else nx
                               | None => nx
                               end) next due in
  let flow := if 0 <? len wires then (λ fl, loss fl now rtt true) <$> flow else flow in
  (wires, false, Z.max millisecond next, probe && (0 <? Z.of_nat (size m)), (flow, m')).

Definition undoIfSpurious (fl : sendFlow) (p : option unackedPkt) (srtt now : Z) : bool * sendFlow :=
  match p with
  | None => (false, fl)
  | Some p =>
      if (retries p =? 0) || (srtt <=? 0) then (false, fl) else
      if srtt <=? now - sentTime p then (false, fl) else undoLoss fl
  end.

Definition mark_sent (now : Z) (p : unackedPkt) : unackedPkt :=
  mkPkt (pwire p) (if queued p then now else firstSent p) now (prto p) (sacked p) false (retries p).

Definition markTransmitted (m : outstanding_map) (wires : list bytes) (now : Z) : outstanding_map :=
  foldl (λ m wire,
    if (len wire <? UDPC_HDR_SIZE) || negb (cmdOfEncoded wire =? CMD_DATA) then m
    else alter (mark_sent now) (wireSequence wire) m) m wires.

(** * Bit scanning *)

Lemma firstBit_spec n i w : let k := firstBit n i w in
  i ≤ k ≤ i + Z.of_nat n ∧ (∀ j, i ≤ j < k → Z.testbit w j = false) ∧
  (k < i + Z.of_nat n → Z.testbit w k = true).
Proof.
  revert i. induction n as [|n IH]; intros i; cbn [firstBit].
  { split_and!; lia || (intros; lia). }
  destruct (Z.testbit w i) eqn:Hb.
  { split; [lia|]. split; [intros; lia|done]. }
  destruct (IH (i + 1)) as (H1 & H2 & H3). split_and!; try lia.
  - intros j Hj. destruct (Z.eq_dec j i) as [->|]; [done|]. apply H2. lia.
  - intros Hk. apply H3. lia.
Qed.

Lemma trailingZeros_spec w : 0 < w < 2 ^ 64 → let k := trailingZeros64 w in
  0 ≤ k < 64 ∧ Z.testbit w k = true ∧ ∀ j, 0 ≤ j < k → Z.testbit w j = false.
Proof.
  intros Hw. destruct (firstBit_spec 64 0 w) as (H1 & H2 & H3). unfold trailingZeros64.
  set (k := firstBit 64 0 w) in *. assert (k < 64); [|split_and!; auto; lia].
  destruct (Z.lt_ge_cases k 64) as [|Hge]; [done|exfalso].
  assert (w = 0); [|lia]. apply Z.bits_inj'. intros n Hn. rewrite Z.bits_0.
  destruct (Z.lt_ge_cases n 64); [apply H2; lia|]. apply range_bits; lia.
Qed.

(** [w &= w - 1] clears exactly the lowest set bit. *)
Lemma land_pred w k i : 0 ≤ k → 0 ≤ i → Z.testbit w k = true →
  (∀ j, 0 ≤ j < k → Z.testbit w j = false) →
  Z.testbit (Z.land w (w - 1)) i = Z.testbit w i && negb (i =? k).
Proof.
  intros Hk Hi Hbit Hlow. rewrite Z.land_spec.
  assert (Hmod : w mod 2 ^ (k + 1) = 2 ^ k).
  { apply Z.bits_inj'. intros n Hn. rewrite Z.pow2_bits_eqb by done.
    destruct (Z.lt_ge_cases n (k + 1)).
    - rewrite Z.mod_pow2_bits_low by done.
      destruct (Z.eqb_spec k n) as [->|]; [done|]. apply Hlow. lia.
    - rewrite Z.mod_pow2_bits_high by lia. symmetry. apply Z.eqb_neq. lia. }
  assert (Hpow : 2 ^ (k + 1) = 2 * 2 ^ k) by (rewrite Z.pow_add_r by lia; lia).
  assert (0 < 2 ^ k) by (apply Z.pow_pos_nonneg; lia).
  pose proof (Z.div_mod w (2 ^ (k + 1)) ltac:(lia)) as Hdm. rewrite Hmod in Hdm.
  set (q := w / 2 ^ (k + 1)) in *.
  assert (Hm1 : (w - 1) mod 2 ^ (k + 1) = 2 ^ k - 1).
  { symmetry. apply (Z.mod_unique _ _ q); lia. }
  assert (Hd1 : (w - 1) / 2 ^ (k + 1) = q).
  { symmetry. apply (Z.div_unique _ _ _ (2 ^ k - 1)); lia. }
  destruct (Z.lt_trichotomy i k) as [Hlt|[->|Hgt]].
  - rewrite Hlow by lia. done.
  - rewrite Z.eqb_refl, andb_false_r.
    rewrite <- (Z.mod_pow2_bits_low (w - 1) (k + 1)), Hm1 by lia.
    rewrite <- (Z.mod_small (2 ^ k - 1) (2 ^ k)) by lia.
    rewrite Z.mod_pow2_bits_high by lia. by rewrite andb_false_r.
  - destruct (Z.eqb_spec i k); [lia|]. rewrite andb_true_r.
    replace i with ((i - (k + 1)) + (k + 1)) by lia.
    rewrite <- !Z.div_pow2_bits by lia. fold q. rewrite Hd1. apply andb_diag.
Qed.

Lemma land_pred_range w : 0 ≤ w < 2 ^ 64 → 0 ≤ Z.land w (w - 1) < 2 ^ 64.
Proof.
  intros Hw. apply bits_range; [apply Z.land_nonneg; lia|]. intros n Hn.
  by rewrite Z.land_spec, range_bits.
Qed.

(** * Marking *)

Definition mark_if (b : bool) (p : option unackedPkt) : option unackedPkt :=
  if b then mark_sacked <$> p else p.

Lemma mark_if_or b1 b2 p : mark_if b1 (mark_if b2 p) = mark_if (b1 || b2) p.
Proof. destruct b1, b2, p; done. Qed.

Lemma alter_mark (m : outstanding_map) i s : alter mark_sacked i m !! s = mark_if (s =? i) (m !! s).
Proof.
  destruct (Z.eqb_spec s i) as [->|]; cbn [mark_if].
  - apply lookup_alter_eq.
  - by apply lookup_alter_ne.
Qed.

(** Bit [s - base - 1] of the word, when it is one of its 64 bits. *)
Definition word_bit (base w s : Z) : bool :=
  (base <? s) && (s <=? base + 64) && Z.testbit w (s - base - 1).

Lemma markWord_lookup fuel base w (m : outstanding_map) s : 0 ≤ w < 2 ^ 64 → 0 ≤ base →
  (∀ i, 0 ≤ i → Z.testbit w i = true → 64 - Z.of_nat fuel ≤ i ∧ base + i + 1 < 2 ^ 64) →
  markWord fuel base w m !! s = mark_if (word_bit base w s) (m !! s).
Proof.
  intros Hw Hbase. revert w m Hw. induction fuel as [|fuel IH]; intros w m Hw Hbits.
  { assert (w = 0) as ->.
    { apply Z.bits_inj'. intros n Hn. rewrite Z.bits_0. destruct (Z.testbit w n) eqn:Hb; [|done].
      destruct (Hbits n Hn Hb). rewrite (range_bits w n) in Hb by lia. done. }
    unfold word_bit. by rewrite Z.bits_0, andb_false_r. }
  cbn [markWord]. destruct (Z.eqb_spec w 0) as [->|Hw0].
  { unfold word_bit. by rewrite Z.bits_0, andb_false_r. }
  destruct (trailingZeros_spec w) as (Hk & Hkb & Hlow); [lia|].
  set (k := trailingZeros64 w) in *.
  destruct (Hbits k ltac:(lia) Hkb) as [Hkf Hkw].
  rewrite IH.
  - rewrite u64_small by lia. rewrite alter_mark, mark_if_or. f_equal. unfold word_bit.
    destruct (Z.ltb_spec base s); cbn [andb]; [|destruct (Z.eqb_spec s (base + k + 1)); lia || done].
    destruct (Z.leb_spec s (base + 64)); cbn [andb];
      [|destruct (Z.eqb_spec s (base + k + 1)); lia || done].
    rewrite (land_pred w k) by (done || lia).
    destruct (Z.eqb_spec (s - base - 1) k) as [Heq|Hne].
    + rewrite Heq, Hkb. destruct (Z.eqb_spec s (base + k + 1)); [done|lia].
    + destruct (Z.eqb_spec s (base + k + 1)); [lia|]. by rewrite andb_true_r, orb_false_r.
  - apply land_pred_range. lia.
  - intros i Hi Hb. rewrite (land_pred w k) in Hb by (done || lia).
    apply andb_true_iff in Hb as [Hb Hne%negb_true_iff%Z.eqb_neq].
    destruct (Hbits i Hi Hb) as [_ Hr]. split; [|done].
    destruct (Z.lt_ge_cases i k); [rewrite Hlow in Hb by lia; done|lia].
Qed.

(** A frame is newly marked exactly when its bit of the bitmap is set. *)
Definition bitmap_hit (ack : Z) (words : list Z) (s : Z) : bool :=
  (ack <? s) && (s - ack - 1 <? 64 * len words) && win_bit words (s - ack - 1).

Lemma win_bit_head w words k : 0 ≤ k < 64 → win_bit (w :: words) k = Z.testbit w k.
Proof. intros Hk. unfold win_bit, word. by rewrite Z.div_small, Z.mod_small by lia. Qed.

Lemma win_bit_tail w words k : 0 ≤ k → win_bit (w :: words) (k + 64) = win_bit words k.
Proof.
  intros Hk. unfold win_bit, word. replace (k + 64) with (k + 1 * 64) by lia.
  rewrite Z.div_add, Z_mod_plus_full by lia. pose proof (Z.div_pos k 64 Hk ltac:(lia)).
  by replace (Z.to_nat (k / 64 + 1)) with (S (Z.to_nat (k / 64))) by lia.
Qed.

Lemma bitmap_hit_cons base w words s :
  bitmap_hit (base + 64) words s || word_bit base w s = bitmap_hit base (w :: words) s.
Proof.
  unfold bitmap_hit, word_bit. rewrite len_cons. pose proof (len_nonneg words).
  destruct (Z.ltb_spec base s); cbn [andb]; [|destruct (Z.ltb_spec (base + 64) s); [lia|done]].
  destruct (Z.leb_spec s (base + 64)); cbn [andb].
  - destruct (Z.ltb_spec (base + 64) s); [lia|]. cbn [andb orb].
    destruct (Z.ltb_spec (s - base - 1) (64 * (len words + 1))); [|lia]. cbn [andb].
    by rewrite win_bit_head by lia.
  - destruct (Z.ltb_spec (base + 64) s); [|lia]. cbn [andb]. rewrite orb_false_r.
    replace (s - (base + 64) - 1 <? 64 * len words) with (s - base - 1 <? 64 * (len words + 1))
      by lia.
    f_equal. rewrite <- (win_bit_tail w) by lia. f_equal. lia.
Qed.

Lemma rangeWords_lookup step ack i words (m : outstanding_map) s :
  (∀ base w (m : outstanding_map) s, 0 ≤ w < 2 ^ 64 → 0 ≤ base →
     (∀ j, 0 ≤ j < 64 → Z.testbit w j = true → base + j + 1 < 2 ^ 64) →
     step base w m !! s = mark_if (word_bit base w s) (m !! s)) →
  Forall (λ w, 0 ≤ w < 2 ^ 64) words → 0 ≤ ack →
  (∀ k, 0 ≤ k → win_bit words k = true → ack + Z.of_nat i * 64 + k + 1 < 2 ^ 64) →
  rangeWords step ack i words m !! s =
  mark_if (bitmap_hit (ack + Z.of_nat i * 64) words s) (m !! s).
Proof.
  intros Hstep Hall Hack. revert i m.
  induction Hall as [|w words Hw Hall IH]; intros i m Hbits; cbn [rangeWords].
  { unfold bitmap_hit. change (len (@nil Z)) with 0. rewrite Z.mul_0_r.
    destruct (Z.ltb_spec (ack + Z.of_nat i * 64) s); cbn [andb]; [|done].
    by destruct (Z.ltb_spec (s - (ack + Z.of_nat i * 64) - 1) 0); [lia|]. }
  rewrite IH.
  2:{ intros k Hk Hb. rewrite <- (win_bit_tail w) in Hb by done. apply Hbits in Hb; lia. }
  rewrite Hstep; [|done|lia|].
  2:{ intros j Hj Hb. rewrite <- (win_bit_head w words) in Hb by lia. apply Hbits in Hb; lia. }
  rewrite mark_if_or, <- bitmap_hit_cons.
  by replace (ack + Z.of_nat (S i) * 64) with (ack + Z.of_nat i * 64 + 64) by lia.
Qed.

Lemma markWords_lookup ack words (m : outstanding_map) s :
  Forall (λ w, 0 ≤ w < 2 ^ 64) words → 0 ≤ ack →
  (∀ k, 0 ≤ k → win_bit words k = true → ack + k + 1 < 2 ^ 64) →
  markWords ack words m !! s = mark_if (bitmap_hit ack words s) (m !! s).
Proof.
  intros Hall Hack Hbits. unfold markWords. rewrite rangeWords_lookup; try done.
  - change (Z.of_nat 0 * 64) with 0. by rewrite Z.add_0_r.
  - clear. intros base w m s Hw Hbase Hb. apply markWord_lookup; [done|done|].
    intros j Hj Hbit. destruct (Z.lt_ge_cases j 64) as [H64|H64].
    + split; [lia|]. by apply Hb.
    + rewrite range_bits in Hbit by lia. done.
  - intros k Hk Hb. specialize (Hbits k Hk Hb). lia.
Qed.

(** * Encoding and decoding the bitmap *)

Lemma trimWords_spec words n : (trimWords words n ≤ n)%nat ∧
  ∀ i, (trimWords words n ≤ i < n)%nat → word words i = 0.
Proof.
  induction n as [|n [IH1 IH2]]; cbn [trimWords]; [split; lia|].
  destruct (Z.eqb_spec (word words n) 0) as [H0|H0]; [|split; intros; lia].
  split; [lia|]. intros i Hi. destruct (decide (i = n)) as [->|]; [done|]. apply IH2. lia.
Qed.

Lemma len_words ws : len (concat (map (be_bytes 8) ws)) = 8 * len ws.
Proof.
  induction ws as [|w ws IH]; [done|]. cbn [map concat]. autorewrite with len. rewrite IH. lia.
Qed.

Lemma slice_words ws i w : ws !! i = Some w →
  slice (Z.of_nat i * 8) (Z.of_nat i * 8 + 8) (concat (map (be_bytes 8) ws)) = be_bytes 8 w.
Proof.
  revert i. induction ws as [|x ws IH]; intros [|i] Hi; [done|done| |].
  - injection Hi as ->. cbn [map concat]. apply slice_app_head. by autorewrite with len.
  - cbn [map concat]. rewrite slice_app_skip by (autorewrite with len; lia).
    autorewrite with len. rewrite <- (IH i) by done. f_equal; lia.
Qed.

(** The words a payload carries. *)
Definition sackWords (data : bytes) (n : nat) : list Z := map (sackWord data) (seq 0 n).

Lemma readWords_spec data dist i n :
  match readWords data dist i n with
  | Some (ws, _) => ws = map (sackWord data) (seq i n) ∧
      ∀ j, (i ≤ j < i + n)%nat → sackWord data j = 0 ∨ Z.of_nat j * 64 + len64 (sackWord data j) ≤ dist
  | None => ∃ j, (i ≤ j < i + n)%nat ∧ sackWord data j ≠ 0 ∧
                 dist < Z.of_nat j * 64 + len64 (sackWord data j)
  end.
Proof.
  revert i. induction n as [|n IH]; intros i; cbn [readWords]; [split; [done|lia]|].
  destruct (negb (sackWord data i =? 0) && _) eqn:Hbad.
  { apply andb_true_iff in Hbad as [H1%negb_true_iff%Z.eqb_neq H2%Z.ltb_lt].
    exists i. split_and!; [lia|lia|done|done]. }
  specialize (IH (S i)). destruct (readWords data dist (S i) n) as [[ws c]|].
  - destruct IH as [-> Hall]. split; [done|]. intros j Hj.
    destruct (decide (j = i)) as [->|]; [|apply Hall; lia].
    apply andb_false_iff in Hbad as [H1%negb_false_iff%Z.eqb_eq|H2%Z.ltb_ge]; auto.
  - destruct IH as (j & Hj & ?). exists j. split; [lia|done].
Qed.

Lemma win_bit_map (g : nat → Z) n k : 0 ≤ k →
  win_bit (map g (seq 0 n)) k = (k <? 64 * Z.of_nat n) && Z.testbit (g (Z.to_nat (k / 64))) (k mod 64).
Proof.
  intros Hk. unfold win_bit, word. pose proof (Z.div_pos k 64 Hk ltac:(lia)).
  destruct (Z.ltb_spec k (64 * Z.of_nat n)) as [Hlt|Hge]; cbn [andb].
  - pose proof (Z.div_lt_upper_bound k 64 (Z.of_nat n) ltac:(lia) Hlt).
    rewrite nth_lookup, list_lookup_fmap, lookup_seq_lt by lia. done.
  - pose proof (Z.div_le_lower_bound k 64 (Z.of_nat n) ltac:(lia) Hge).
    rewrite nth_overflow by (rewrite length_map, length_seq; lia). apply Z.bits_0.
Qed.

(** The encoded payload decodes to the words it was built from. *)
Lemma encode_sackWord credit words maxWords i :
  Forall (λ w, 0 ≤ w < 2 ^ 64) words → (i < trimWords words (Z.to_nat maxWords))%nat →
  sackWord (encodeSACKWords credit words maxWords) i = word words i.
Proof.
  intros Hall Hi. unfold sackWord, encodeSACKWords.
  rewrite slice_app_skip by (autorewrite with len; lia). autorewrite with len.
  change (Z.of_nat 2) with 2.
  replace (2 + Z.of_nat i * 8 - 2) with (Z.of_nat i * 8) by lia.
  replace (2 + Z.of_nat i * 8 + 8 - 2) with (Z.of_nat i * 8 + 8) by lia.
  rewrite <- (map_map (word words) (be_bytes 8)).
  rewrite (slice_words _ _ (word words i)).
  - apply be_val_be_bytes_small. change (256 ^ Z.of_nat 8) with (2 ^ 64).
    unfold word. rewrite nth_lookup. destruct (words !! i) as [x|] eqn:Hx; cbn; [|lia].
    by apply (Forall_lookup_1 _ _ _ _ Hall Hx).
  - rewrite list_lookup_fmap, lookup_seq_lt by lia. done.
Qed.

Lemma len_encodeSACK credit words maxWords :
  len (encodeSACKWords credit words maxWords) = 2 + 8 * Z.of_nat (trimWords words (Z.to_nat maxWords)).
Proof.
  unfold encodeSACKWords. autorewrite with len. rewrite <- (map_map (word words) (be_bytes 8)).
  rewrite len_words. unfold len. rewrite length_map, length_seq. lia.
Qed.

(** The bits of the decoded words: those of the bitmap within [maxWords] words. *)
Lemma encode_bits credit words maxWords k :
  Forall (λ w, 0 ≤ w < 2 ^ 64) words → 0 ≤ k < 64 * maxWords →
  let n := trimWords words (Z.to_nat maxWords) in
  win_bit (sackWords (encodeSACKWords credit words maxWords) n) k = win_bit words k.
Proof.
  intros Hall Hk n. unfold sackWords. rewrite win_bit_map by lia.
  pose proof (Z.div_pos k 64 ltac:(lia) ltac:(lia)).
  pose proof (Z.div_lt_upper_bound k 64 maxWords ltac:(lia) ltac:(lia)).
  unfold win_bit. destruct (Z.ltb_spec k (64 * Z.of_nat n)) as [Hlt|Hge]; cbn [andb].
  - pose proof (Z.div_lt_upper_bound k 64 (Z.of_nat n) ltac:(lia) Hlt).
    rewrite encode_sackWord; [done|done|]. fold n. lia.
  - pose proof (Z.div_le_lower_bound k 64 (Z.of_nat n) ltac:(lia) Hge).
    destruct (trimWords_spec words (Z.to_nat maxWords)) as [_ Hz].
    rewrite Hz by (fold n; lia). by rewrite Z.bits_0.
Qed.

(** * The updated map *)

Lemma bumpAll_lookup now mx seqs (m : outstanding_map) s : NoDup seqs →
  bumpAll now mx seqs m !! s = if decide (s ∈ seqs) then bump now mx <$> m !! s else m !! s.
Proof.
  unfold bumpAll. intros Hnd. revert m. induction Hnd as [|x seqs Hx Hnd IH]; intros m; [done|].
  cbn [foldl]. rewrite IH. destruct (decide (s = x)) as [->|Hne].
  - rewrite decide_False by done. rewrite lookup_alter_eq, decide_True by by left. done.
  - rewrite lookup_alter_ne by done. destruct (decide (s ∈ seqs)).
    + by rewrite decide_True by by right.
    + rewrite decide_False; [done|]. by intros [?|?]%elem_of_cons.
Qed.

(** What makes a hole due for a fast repair. *)
Definition repairable (m : outstanding_map) (now guard seq : Z) : bool :=
  match m !! seq with
  | None => false
  | Some p =>
      negb (sacked p) && negb (queued p) && (retries p <? clientMaxRetries) &&
      ((if 0 <? retries p then Z.max guard (Z.quot (prto p) 4) else guard) <=? now - sentTime p)
  end.

Lemma dueScan_cons m now guard s seqs b :
  dueScan m now guard (s :: seqs) (S b) =
  if repairable m now guard s then s :: dueScan m now guard seqs b
  else dueScan m now guard seqs (S b).
Proof.
  cbn [dueScan]. unfold repairable. destruct (m !! s) as [p|]; [|done].
  destruct (sacked p); cbn [negb andb orb]; [done|].
  destruct (queued p); cbn [negb andb orb]; [done|].
  destruct (Z.leb_spec clientMaxRetries (retries p)), (Z.ltb_spec (retries p) clientMaxRetries);
    try lia; cbn [andb]; rewrite ?orb_true_r, ?orb_false_r; [done|].
  set (g := if 0 <? retries p then _ else _).
  by destruct (Z.ltb_spec (now - sentTime p) g), (Z.leb_spec g (now - sentTime p)); try lia.
Qed.

(** The scan is the oldest [budget] repairable holes. *)
Lemma dueScan_filter m now guard seqs budget :
  dueScan m now guard seqs budget =
  take budget (filter (λ s, repairable m now guard s = true) seqs).
Proof.
  revert budget. induction seqs as [|s seqs IH]; intros budget; [by destruct budget|].
  destruct budget as [|b]; [done|]. rewrite dueScan_cons, filter_cons.
  case_decide as Hr; [rewrite Hr|apply not_true_is_false in Hr; rewrite Hr].
  - cbn [take]. by rewrite IH.
  - by rewrite IH.
Qed.

Lemma dueScan_NoDup m now guard lo n budget : NoDup (dueScan m now guard (seqZ lo n) budget).
Proof.
  rewrite dueScan_filter. eapply sublist_NoDup; [|apply sublist_take].
  apply NoDup_filter, NoDup_seqZ.
Qed.

(** A valid feedback frame for a sender: shape, freshness and range. *)
Record sack_valid (fl : sendFlow) (f : UDPCFrame) (highest : Z) (n : nat) : Prop := {
  sv_highest : 0 < highest < 2 ^ 64 - 1;
  sv_len : len (Data f) = 2 + 8 * Z.of_nat n;
  sv_n : (n ≤ 64)%nat;
  sv_ack : 0 ≤ Ack f ≤ highest;
  sv_fresh : feedbackNo fl < PacketNo f;
  sv_bytes : Forall is_byte (Data f);
  sv_dist : ∀ j, (j < n)%nat → sackWord (Data f) j = 0 ∨
              Z.of_nat j * 64 + len64 (sackWord (Data f) j) ≤ highest - Ack f;
}.

Lemma sackWord_range data i n : len data = 2 + 8 * Z.of_nat n → (i < n)%nat →
  Forall is_byte data → 0 ≤ sackWord data i < 2 ^ 64.
Proof.
  intros Hl Hi Hb. unfold sackWord.
  pose proof (be_val_range (slice (2 + Z.of_nat i * 8) (2 + Z.of_nat i * 8 + 8) data)
                (Forall_slice _ _ _ _ Hb)) as Hr.
  rewrite len_slice in Hr by lia.
  replace (2 + Z.of_nat i * 8 + 8 - (2 + Z.of_nat i * 8)) with 8 in Hr by lia. done.
Qed.

(** Every set bit of accepted words lies within the sent range. *)
Lemma sack_bit_range fl f highest n k : sack_valid fl f highest n → 0 ≤ k →
  win_bit (sackWords (Data f) n) k = true → Ack f + k + 1 ≤ highest.
Proof.
  intros [] Hk Hb. unfold sackWords in Hb. rewrite win_bit_map in Hb by done.
  apply andb_true_iff in Hb as [Hlt%Z.ltb_lt Hb].
  pose proof (Z.div_lt_upper_bound k 64 (Z.of_nat n) ltac:(lia) Hlt).
  pose proof (Z.div_pos k 64 Hk ltac:(lia)).
  set (j := Z.to_nat (k / 64)) in *. assert (j < n)%nat by lia.
  pose proof (sackWord_range (Data f) j n sv_len0 ltac:(lia) sv_bytes0) as Hr.
  pose proof (Z.mod_pos_bound k 64 ltac:(lia)).
  assert (Hw0 : sackWord (Data f) j ≠ 0) by (intros Hz; rewrite Hz, Z.bits_0 in Hb; done).
  destruct (sv_dist0 j ltac:(lia)) as [?|Hd]; [done|]. unfold len64 in Hd.
  destruct (Z.eqb_spec (sackWord (Data f) j) 0); [done|].
  assert (k mod 64 ≤ Z.log2 (sackWord (Data f) j)).
  { destruct (Z.le_gt_cases (k mod 64) (Z.log2 (sackWord (Data f) j))); [done|].
    rewrite Z.bits_above_log2 in Hb by lia. done. }
  pose proof (Z.div_mod k 64 ltac:(lia)). lia.
Qed.

(** The result of processing valid feedback. *)
Lemma updateSACK_valid fl m f highest rtt now n : sack_valid fl f highest n →
  ∃ due fl', updateSACK (Some fl) m f highest rtt now =
    ((wiresOf (markWords (Ack f) (sackWords (Data f) n) m) due, true),
     (Some fl', bumpAll now rttMaxRTO due (markWords (Ack f) (sackWords (Data f) n) m))) ∧
    feedbackNo fl' = PacketNo f ∧
    credit fl' = Z.min deliveryWindowWide (be_val (upto 2 (Data f))) ∧
    cwnd fl' = cwnd fl ∧ NoDup due ∧ (length due ≤ 3)%nat ∧
    Forall (λ s, Ack f < s ≤ highest ∧
      repairable (markWords (Ack f) (sackWords (Data f) n) m) now
        (Z.max (5 * millisecond) (Z.quot rtt 4)) s = true) due.
Proof.
  intros []. unfold updateSACK. rewrite sv_len0.
  unfold sackWordsWidePayload, sackWordsWide.
  destruct (Z.eqb_spec highest 0); [lia|].
  destruct (Z.ltb_spec (2 + 8 * Z.of_nat n) 2); [lia|].
  destruct (Z.ltb_spec (2 + 64 * 8) (2 + 8 * Z.of_nat n)); [lia|].
  replace (2 + 8 * Z.of_nat n - 2) with (Z.of_nat n * 8) by lia.
  rewrite Z.rem_mul, Z.quot_mul by lia. cbn [negb orb Z.eqb].
  destruct (Z.ltb_spec highest (Ack f)); [lia|].
  destruct (Z.leb_spec (PacketNo f) (feedbackNo fl)); [lia|]. cbn [orb]. rewrite Nat2Z.id.
  pose proof (readWords_spec (Data f) (highest - Ack f) 0 n) as Hread.
  destruct (readWords _ _ _ _) as [[ws c]|].
  2:{ destruct Hread as (j & Hj & Hne & Hbad). destruct (sv_dist0 j ltac:(lia)); lia. }
  destruct Hread as [-> _]. fold (sackWords (Data f) n). rewrite if_gt_min.
  set (m1 := markWords _ _ _). set (guard := Z.max (5 * millisecond) (Z.quot rtt 4)).
  destruct (c <? 3).
  { exists [], (set_feedback fl (PacketNo f) (Z.min (be_val (upto 2 (Data f))) deliveryWindowWide)).
    split_and!; try done; [cbn; lia|constructor|cbn; lia]. }
  eexists (dueScan m1 now guard _ _), _. split; [done|]. cbn [set_repairs set_feedback feedbackNo credit cwnd].
  split_and!; try done; [lia|apply dueScan_NoDup| |].
  - rewrite dueScan_filter, length_take. change (Z.to_nat sackFastRepairMax) with 3%nat. lia.
  - rewrite dueScan_filter. apply Forall_take. apply Forall_forall. intros s.
    rewrite list_elem_of_filter, elem_of_seqZ. intros [Hr Hs]. split; [|done].
    rewrite (u64_small (Ack f + 1)) in Hs by lia. lia.
Qed.

Lemma sackWords_range data n : len data = 2 + 8 * Z.of_nat n → Forall is_byte data →
  Forall (λ w, 0 ≤ w < 2 ^ 64) (sackWords data n).
Proof.
  intros Hl Hb. apply Forall_forall. intros w (i & -> & Hi)%list_elem_of_fmap.
  apply elem_of_seq in Hi. apply (sackWord_range _ _ n); [done|lia|done].
Qed.

Lemma encodeSACK_bytes credit words maxWords : Forall is_byte (encodeSACKWords credit words maxWords).
Proof.
  unfold encodeSACKWords. apply Forall_app. split; [apply be_bytes_byte|].
  apply Forall_concat, Forall_fmap, Forall_forall. intros i _. apply be_bytes_byte.
Qed.

Lemma len_wiresOf m seqs : len (wiresOf m seqs) ≤ len seqs.
Proof.
  unfold wiresOf. induction seqs as [|x seqs IH]; [done|]. cbn [omap list_omap].
  rewrite len_cons. destruct (pwire <$> m !! x); rewrite ?len_cons; cbn in *; lia.
Qed.

(** The sender's view of the bitmap is the receiver's buffer. *)
Lemma receiver_hit data s f bm cr maxWords seq :
  dinv data s → 0 ≤ maxWords ≤ 64 → limit (od s) ≤ 64 * maxWords →
  Ack f = delivered (od s) → Data f = encodeSACKWords cr bm maxWords →
  Forall (λ w, 0 ≤ w < 2 ^ 64) bm →
  (∀ k, 0 ≤ k < 4096 →
     (win_bit bm k = true ↔ is_Some (pending (od s) !! (delivered (od s) + 1 + k)))) →
  bitmap_hit (Ack f) (sackWords (Data f) (trimWords bm (Z.to_nat maxWords))) seq =
  bool_decide (is_Some (pending (od s) !! seq)).
Proof.
  intros Hinv Hmw Hlw Hack Hdata Hrange Hbits. rewrite Hack, Hdata. unfold bitmap_hit.
  set (d := delivered (od s)) in *. set (k := seq - d - 1).
  set (n := trimWords bm (Z.to_nat maxWords)).
  assert (Hkey : is_Some (pending (od s) !! seq) → 0 ≤ k < 64 * maxWords).
  { intros [p Hp]. apply (inv_pending _ _ Hinv) in Hp as [Hp _]. subst k d. lia. }
  assert (Hlen : len (sackWords (encodeSACKWords cr bm maxWords) n) = Z.of_nat n).
  { unfold len, sackWords. by rewrite length_map, length_seq. }
  rewrite Hlen. destruct (Z.ltb_spec d seq) as [Hlt|Hge]; cbn [andb].
  2:{ symmetry. apply bool_decide_eq_false_2. intros Hc%Hkey. lia. }
  destruct (Z.lt_ge_cases k (64 * maxWords)) as [Hk|Hk].
  2:{ destruct (trimWords_spec bm (Z.to_nat maxWords)) as [Hn _]. fold n in Hn.
      destruct (Z.ltb_spec k (64 * Z.of_nat n)); [lia|]. symmetry.
      apply bool_decide_eq_false_2. intros Hc%Hkey. lia. }
  pose proof (encode_bits cr bm maxWords k Hrange ltac:(lia)) as Henc. cbv zeta in Henc. fold n in Henc.
  assert (Hw : (k <? 64 * Z.of_nat n) && win_bit (sackWords (encodeSACKWords cr bm maxWords) n) k
               = win_bit bm k).
  { rewrite <- Henc. unfold sackWords. rewrite win_bit_map by lia. by destruct (k <? _). }
  rewrite Hw. specialize (Hbits k ltac:(lia)).
  replace (d + 1 + k) with seq in Hbits by lia.
  destruct (win_bit bm k); symmetry; [apply bool_decide_eq_true_2|apply bool_decide_eq_false_2];
    intuition congruence.
Qed.

(** C7: (refinement) Selective acknowledgement end to end: a SACK built from the
    receiver's snapshot (narrow or wide) is accepted by the sender, and afterwards
    an outstanding frame counts as selectively acknowledged exactly when it did
    before or the receiver is holding it; the sender's credit is the receiver's
    free space, no frame is dropped from the map or has its bytes changed, and at
    most three repairs are sent. *)
Theorem sack_feedback_exact data lim s fl m f maxWords highest rtt now :
  dreach data lim s → 0 ≤ maxWords ≤ 64 → limit (od s) ≤ 64 * maxWords →
  0 < highest < 2 ^ 64 - 1 → delivered (od s) ≤ highest →
  (∀ seq, is_Some (pending (od s) !! seq) → seq ≤ highest) →
  feedbackNo fl < PacketNo f →
  (let '(ack, bitmap, credit) := snapshot (od s) in
   Ack f = ack ∧ Data f = encodeSACKWords credit bitmap maxWords) →
  ∃ wires fl' m', updateSACK (Some fl) m f highest rtt now = ((wires, true), (Some fl', m')) ∧
    credit fl' = limit (od s) - Z.of_nat (size (pending (od s))) ∧
    len wires ≤ 3 ∧
    ∀ seq, match m !! seq, m' !! seq with
           | None, None => True
           | Some p, Some p' => pwire p' = pwire p ∧
               sacked p' = sacked p || bool_decide (is_Some (pending (od s) !! seq))
           | _, _ => False
           end.
Proof.
  intros Hr Hmw Hlw Hh Hdel Hpend Hfresh Hf.
  destruct (snapshot_facts data lim s Hr) as (bm & cr & Hsnap & Hlen & Hrange & Hbits & Hcr & Hcr0).
  rewrite Hsnap in Hf. destruct Hf as [Hack Hdata].
  set (n := trimWords bm (Z.to_nat maxWords)).
  destruct (trimWords_spec bm (Z.to_nat maxWords)) as [Hn _]. fold n in Hn.
  apply reach_inv in Hr as Hinv. pose proof (inv_delivered _ _ Hinv).
  assert (Hv : sack_valid fl f highest n).
  { split; try done; try lia.
    - rewrite Hdata. apply len_encodeSACK.
    - rewrite Hdata. apply encodeSACK_bytes.
    - intros j Hj. rewrite Hdata, encode_sackWord by done.
      destruct (Z.eq_dec (word bm j) 0) as [|Hne]; [by left|right].
      pose proof (word_in_range bm j Hrange). unfold len64.
      destruct (Z.eqb_spec (word bm j) 0); [done|].
      assert (Hb : win_bit bm (Z.of_nat j * 64 + Z.log2 (word bm j)) = true).
      { rewrite win_bit_at; [apply Z.bit_log2; lia|].
        pose proof (Z.log2_nonneg (word bm j)). split; [done|]. apply Z.log2_lt_pow2; lia. }
      assert (Z.log2 (word bm j) < 64) by (apply Z.log2_lt_pow2; lia).
      pose proof (Z.log2_nonneg (word bm j)).
      apply Hbits in Hb; [|lia]. apply Hpend in Hb. lia. }
  destruct (updateSACK_valid fl m f highest rtt now n Hv)
    as (due & fl' & Hup & _ & Hcredit & _ & Hnd & Hdl & _).
  eexists _, fl', _. split; [exact Hup|]. split_and!.
  - rewrite Hcredit, Hdata. unfold encodeSACKWords. rewrite upto_app by by autorewrite with len.
    unfold deliveryWindowWide. pose proof (inv_limit _ _ Hinv). unfold deliveryWindowWide in *.
    rewrite be_val_be_bytes_small by (change (256 ^ Z.of_nat 2) with 65536; lia). lia.
  - etrans; [apply len_wiresOf|]. unfold len. lia.
  - intros seq. rewrite bumpAll_lookup by done.
    rewrite markWords_lookup; [|apply sackWords_range; apply Hv|lia|].
    2:{ intros k Hk Hb. pose proof (sack_bit_range _ _ _ _ _ Hv Hk Hb). lia. }
    pose proof (receiver_hit data s f bm cr maxWords seq Hinv Hmw Hlw Hack Hdata Hrange Hbits) as Hhit.
    fold n in Hhit.
    rewrite Hhit. destruct (m !! seq) as [p|], (decide (seq ∈ due)), (bool_decide _);
      cbn; rewrite ?orb_true_r, ?orb_false_r; done.
Qed.

(** * Retransmission timeouts *)

Definition is_expired (now : Z) (p : unackedPkt) : bool :=
  negb (queued p || sacked p) && (remaining now p <? 0).

Definition is_waiting (now : Z) (p : unackedPkt) : bool :=
  negb (queued p || sacked p) && (0 <=? remaining now p).

Lemma elem_of_expired now m kp :
  kp ∈ expired now m ↔ m !! kp.1 = Some kp.2 ∧ is_expired now kp.2 = true.
Proof.
  unfold expired. rewrite merge_sort_Permutation, list_elem_of_filter.
  destruct kp as [k p]. rewrite elem_of_map_to_list. cbn. tauto.
Qed.

Lemma expired_keys_NoDup now m : NoDup (expired now m).*1.
Proof.
  unfold expired. rewrite merge_sort_Permutation.
  eapply sublist_NoDup; [|apply fmap_sublist, sublist_filter]. apply NoDup_fst_map_to_list.
Qed.

#[local] Instance seq_le_total : Total seq_le.
Proof. intros x y. unfold seq_le. lia. Qed.
#[local] Instance seq_le_trans : Transitive seq_le.
Proof. intros x y z. unfold seq_le. lia. Qed.

Lemma expired_sorted now m : StronglySorted Z.lt (expired now m).*1.
Proof.
  pose proof (expired_keys_NoDup now m) as Hnd. unfold expired in *.
  set (l := filter _ _) in *. pose proof (StronglySorted_merge_sort seq_le l) as Hs.
  induction Hs as [|x xs Hs IH Hall]; [constructor|].
  cbn in Hnd. apply NoDup_cons in Hnd as [Hx Hnd]. constructor; [by apply IH|].
  apply Forall_forall. intros k (y & -> & Hy)%list_elem_of_fmap.
  assert (seq_le x y) as Hle by (by apply (proj1 (Forall_forall _ _) Hall)).
  unfold seq_le in Hle. assert (x.1 ≠ y.1); [|lia].
  intros Heq. apply Hx. apply list_elem_of_fmap. by exists y.
Qed.

(** A prefix of a sorted list holds its smallest elements. *)
Lemma sorted_take_lt (l : list Z) n x y : StronglySorted Z.lt l →
  x ∈ take n l → y ∈ l → y ∉ take n l → x < y.
Proof.
  intros Hs. revert n. induction Hs as [|z l Hs IH Hall]; intros [|n] Hx Hy Hny; cbn in *.
  1-3: by apply elem_of_nil in Hx.
  apply not_elem_of_cons in Hny as [Hyz Hny].
  apply elem_of_cons in Hy as [->|Hy]; [done|].
  apply elem_of_cons in Hx as [->|Hx]; [|by eapply IH].
  by apply (proj1 (Forall_forall _ _) Hall).
Qed.

Lemma StronglySorted_take (l : list Z) n : StronglySorted Z.lt l → StronglySorted Z.lt (take n l).
Proof.
  intros Hs. revert n. induction Hs as [|x xs Hs IH Hall]; intros [|n]; cbn; constructor;
    [done|by apply Forall_take].
Qed.

(** Folds that only ever lower an accumulator. *)
Lemma foldl_dec {A} (step : Z → A → Z) l z :
  (∀ nx x, step nx x ≤ nx) → foldl step z l ≤ z.
Proof.
  intros Hd. revert z. induction l as [|a l IH]; intros z; cbn [foldl]; [lia|].
  specialize (IH (step z a)). specialize (Hd z a). lia.
Qed.

Lemma foldl_dec_at {A} (step : Z → A → Z) l z x v :
  (∀ nx x, step nx x ≤ nx) → x ∈ l → (∀ nx, step nx x ≤ v) → foldl step z l ≤ v.
Proof.
  intros Hd Hx Hv. revert z. induction l as [|y l IH]; intros z; [by apply elem_of_nil in Hx|].
  cbn [foldl]. apply elem_of_cons in Hx as [->|Hx]; [|by apply IH].
  etrans; [by apply foldl_dec|apply Hv].
Qed.

(** One wake of the retransmit loop: the session is given up exactly
    when an expired frame has used its 15 retries, and then nothing is changed;
    otherwise the oldest expired frames (at most 64, in sequence order) are
    resent, each with one more retry and its timeout backed off, every other frame
    is left alone, and the loop sleeps at least 1 ms and no longer than the
    earliest deadline of a frame it did not resend. *)
Theorem retry_due_spec m now maximumRTO flow rtt :
  let '(wires, abandoned, delay, _, (_, m')) := retryDue m now maximumRTO flow rtt in
  (abandoned = true ↔ ∃ seq p, m !! seq = Some p ∧ is_expired now p = true ∧
                               clientMaxRetries ≤ retries p) ∧
  (abandoned = true → wires = [] ∧ m' = m) ∧
  (abandoned = false →
   ∃ l, wires = wiresOf m l ∧ len l ≤ retryBurstMax ∧ StronglySorted Z.lt l ∧
     (∀ seq, seq ∈ l → ∃ p, m !! seq = Some p ∧ is_expired now p = true) ∧
     (∀ seq p, m !! seq = Some p → is_expired now p = true → seq ∉ l →
        len l = retryBurstMax ∧ ∀ x, x ∈ l → x < seq) ∧
     (∀ seq, m' !! seq = if decide (seq ∈ l) then bump now maximumRTO <$> m !! seq else m !! seq) ∧
     millisecond ≤ delay ∧
     (∀ seq p, m !! seq = Some p → is_waiting now p = true →
        delay ≤ Z.max millisecond (remaining now p))).
Proof.
  unfold retryDue. destruct (existsb _ (expired now m)) eqn:Hex.
  { apply existsb_exists in Hex as ([k p] & Hin & Hr%Z.leb_le).
    apply list_elem_of_In, elem_of_expired in Hin as [Hm He]. cbn in *.
    split; [|split; [done|done]]. split; [|done]. intros _. by exists k, p. }
  destruct (creditProbeInterval flow m) as [interval probe].
  set (l := upto retryBurstMax (expired now m).*1). set (waiting := filter _ (map_to_list m)).
  split; [|split; [done|]].
  { split; [done|]. intros (k & p & Hm & He & Hr). exfalso.
    apply not_true_iff_false in Hex. apply Hex, existsb_exists. exists (k, p).
    split; [|cbn; lia]. apply list_elem_of_In, elem_of_expired. by split. }
  intros _. exists l. pose proof (expired_sorted now m) as Hsort.
  pose proof (expired_keys_NoDup now m) as Hnd.
  assert (Hl : l = take 64 (expired now m).*1) by done. clearbody l. subst l.
  split_and!; [done| | | | | |lia|].
  - unfold len. rewrite length_take. unfold retryBurstMax. lia.
  - by apply StronglySorted_take.
  - intros seq Hs. apply elem_of_take in Hs as (i & Hi & _). apply list_elem_of_lookup_2 in Hi.
    apply list_elem_of_fmap in Hi as ([k p] & -> & Hin). apply elem_of_expired in Hin as [? ?].
    by exists p.
  - intros seq p Hm He Hni.
    assert (Hin : seq ∈ (expired now m).*1).
    { apply list_elem_of_fmap. exists (seq, p). split; [done|]. by apply elem_of_expired. }
    split; [|intros x Hx; by eapply sorted_take_lt].
    unfold len. rewrite length_take. unfold retryBurstMax.
    destruct (Nat.le_gt_cases (length (expired now m).*1) 64) as [Hle|]; [|lia].
    rewrite take_ge in Hni by done. done.
  - intros seq. apply bumpAll_lookup. eapply sublist_NoDup; [exact Hnd|apply sublist_take].
  - intros seq p Hm Hw. apply Z.max_le_compat_l.
    etrans; [apply foldl_dec|].
    { intros nx x. destruct (_ !! x) as [q|]; [|lia]. destruct (Z.ltb_spec (prto q) nx); lia. }
    transitivity (foldl (λ nx kp, if remaining now kp.2 <? nx then remaining now kp.2 else nx)
                    idleRetryDelay waiting).
    { destruct probe; [|lia]. rewrite if_gt_min. lia. }
    apply (foldl_dec_at _ _ _ (seq, p)).
    + intros nx [k q]. cbn. rewrite if_gt_min. lia.
    + apply list_elem_of_filter. split; [done|]. by apply elem_of_map_to_list.
    + intros nx. cbn. rewrite if_gt_min. lia.
Qed.

(** Feedback is validated before it is used: a SACK is accepted exactly
    when it is newer than every accepted one, well shaped, and acknowledges only
    sequence numbers that were sent; a rejected one changes neither the credit nor
    any outstanding frame. *)
Theorem sack_validation fl m f highest rtt now :
  0 < highest < 2 ^ 64 - 1 → 0 ≤ Ack f → Forall is_byte (Data f) →
  let '((wires, valid), (fl', m')) := updateSACK (Some fl) m f highest rtt now in
  (valid = true ↔ ∃ n, sack_valid fl f highest n) ∧
  (valid = false → wires = [] ∧ fl' = Some fl ∧ m' = m).
Proof.
  intros Hh Hack Hb. destruct (updateSACK _ _ _ _ _ _) as [[wires valid] [fl' m']] eqn:Hup.
  assert (Hcompl : (∃ n, sack_valid fl f highest n) → valid = true).
  { intros [n Hv]. destruct (updateSACK_valid fl m f highest rtt now n Hv) as (? & ? & Heq & _).
    rewrite Heq in Hup. congruence. }
  unfold updateSACK in Hup. destruct (_ || _) eqn:Hg in Hup.
  { injection Hup as <- <- <- <-. split; [|done]. split; [done|]. by intros Hv%Hcompl. }
  repeat match type of Hg with _ || _ = false => apply orb_false_iff in Hg as [Hg ?] end.
  repeat match goal with
  | H : (_ =? _) = false |- _ => apply Z.eqb_neq in H
  | H : (_ <? _) = false |- _ => apply Z.ltb_ge in H
  | H : (_ <=? _) = false |- _ => apply Z.leb_gt in H
  | H : negb _ = false |- _ => apply negb_false_iff, Z.eqb_eq in H
  end.
  set (n := Z.to_nat (Z.quot (len (Data f) - 2) 8)) in *.
  assert (Hlen : len (Data f) = 2 + 8 * Z.of_nat n).
  { pose proof (Z.quot_rem (len (Data f) - 2) 8 ltac:(lia)).
    pose proof (Z.quot_pos (len (Data f) - 2) 8 ltac:(lia) ltac:(lia)). lia. }
  pose proof (readWords_spec (Data f) (highest - Ack f) 0 n) as Hread.
  destruct (readWords _ _ _ _) as [[ws c]|].
  - assert (valid = true) as -> by (destruct (c <? 3); congruence). split; [|done].
    split; [|done]. intros _. exists n. unfold sackWordsWidePayload, sackWordsWide in *.
    split; try done; try lia. destruct Hread as [_ Hread]. intros j Hj. apply Hread. lia.
  - injection Hup as <- <- <- <-. split; [|done]. split; [done|]. by intros Hv%Hcompl.
Qed.

(** Fast repair never floods and never resends what arrived: one SACK
    triggers at most three retransmissions, all of sent frames above the
    cumulative ACK that are not selectively acknowledged (this feedback included),
    not still queued, out of their holdoff and within their retry budget, oldest
    first; and the congestion window is not cut. *)
Theorem fast_repair_sound fl m f highest rtt now n :
  sack_valid fl f highest n →
  let '((wires, valid), (fl', m')) := updateSACK (Some fl) m f highest rtt now in
  valid = true ∧ (∀ g, fl' = Some g → cwnd g = cwnd fl) ∧
  ∃ due, wires = wiresOf m due ∧ (length due ≤ 3)%nat ∧ NoDup due ∧
    Forall (λ s, Ack f < s ≤ highest ∧ ∃ p, m !! s = Some p ∧ sacked p = false ∧
                 queued p = false ∧ retries p < clientMaxRetries ∧
                 bitmap_hit (Ack f) (sackWords (Data f) n) s = false ∧
                 5 * millisecond ≤ now - sentTime p) due ∧
    (∀ s, m' !! s = (if decide (s ∈ due) then bump now rttMaxRTO else id) <$>
                    mark_if (bitmap_hit (Ack f) (sackWords (Data f) n) s) (m !! s)).
Proof.
  intros Hv. destruct (updateSACK_valid fl m f highest rtt now n Hv)
    as (due & fl' & -> & _ & _ & Hcw & Hnd & Hlen & Hall).
  assert (Hmark : ∀ s, markWords (Ack f) (sackWords (Data f) n) m !! s =
                       mark_if (bitmap_hit (Ack f) (sackWords (Data f) n) s) (m !! s)).
  { intros s. destruct Hv. apply markWords_lookup; [by apply sackWords_range|lia|].
    intros k Hk Hb. pose proof (sack_bit_range fl f highest n k ltac:(done) Hk Hb). lia. }
  split; [done|]. split; [by intros g [= <-]|]. exists due. split_and!; try done.
  - unfold wiresOf. clear -Hmark. induction due as [|s due IH]; [done|]. cbn [omap list_omap].
    rewrite Hmark, IH. by destruct (bitmap_hit _ _ s), (m !! s).
  - eapply Forall_impl; [exact Hall|]. intros s [Hs Hr]. split; [done|].
    unfold repairable in Hr. rewrite Hmark in Hr.
    destruct (bitmap_hit (Ack f) (sackWords (Data f) n) s); [by destruct (m !! s)|].
    cbn [mark_if] in Hr. destruct (m !! s) as [p|]; [|done]. exists p.
    destruct (sacked p); [done|]. destruct (queued p); [done|]. cbn [negb andb] in Hr.
    apply andb_true_iff in Hr as [?%Z.ltb_lt ?%Z.leb_le]. split_and!; try done.
    destruct (0 <? retries p); lia.
  - intros s. rewrite bumpAll_lookup, Hmark by done.
    destruct (decide (s ∈ due)); [done|]. by destruct (mark_if _ _).
Qed.

(** * Witnesses *)

Definition demo_pkt (n t : Z) : unackedPkt := mkPkt [n] t t (200 * millisecond) false false 0.
Definition demo_out : outstanding_map :=
  <[1 := demo_pkt 1 0]> (<[2 := demo_pkt 2 0]> (<[3 := demo_pkt 3 0]> ∅)).
Definition demo_sack (ack cr : Z) (words : list Z) : UDPCFrame :=
  mkFrame 0 UDPC_VERSION CMD_SACK 0 1 9 0 ack 0 (encodeSACKWords cr words 8) [].
Definition demo_flow : sendFlow := newSendFlow 0 true true false.

Lemma sack_feedback_exact_witness :
  ∃ wires fl' m',
    updateSACK (Some demo_flow) demo_out (demo_sack 0 2 (3 :: replicate 63 0)) 3 0 1 =
      ((wires, true), (Some fl', m')) ∧ credit fl' = 2.
Proof.
  destruct (sack_feedback_exact demo_data 4 demo2 demo_flow demo_out
              (demo_sack 0 2 (3 :: replicate 63 0)) 8 3 0 1 demo_reach2)
    as (wires & fl' & m' & Hup & Hcr & _).
  - lia.
  - vm_compute. discriminate.
  - lia.
  - vm_compute. discriminate.
  - intros seq [p Hp]. assert (Hin : (seq, p) ∈ map_to_list (pending (od demo2)))
      by by apply elem_of_map_to_list.
    vm_compute in Hin. set_solver by lia.
  - reflexivity.
  - vm_compute. split; reflexivity.
  - exists wires, fl', m'. split; [exact Hup|]. rewrite Hcr. vm_compute. reflexivity.
Defined.

Lemma sack_validation_witness :
  (updateSACK (Some demo_flow) demo_out (demo_sack 2 2 (3 :: replicate 63 0)) 3 0 1).1 = ([], false).
Proof.
  pose proof (sack_validation demo_flow demo_out (demo_sack 2 2 (3 :: replicate 63 0)) 3 0 1) as H.
  destruct (updateSACK _ _ _ _ _ _) as [[wires valid] [fl' m']] eqn:E.
  assert (valid = false) as Hv by (vm_compute in E; congruence).
  destruct H as [_ H]; [lia|vm_compute; discriminate| |].
  - apply (bool_decide_unpack _). vm_compute. exact I.
  - destruct (H Hv) as (-> & _ & _). rewrite Hv. reflexivity.
Defined.

Lemma demo_sack_valid : sack_valid demo_flow (demo_sack 0 2 (14 :: replicate 63 0)) 4 1.
Proof.
  split; [lia|reflexivity|lia|cbn; lia|reflexivity| |].
  { apply encodeSACK_bytes. }
  intros j Hj. assert (j = 0%nat) as -> by lia. right. vm_compute. discriminate.
Qed.

Lemma fast_repair_sound_witness :
  (updateSACK (Some demo_flow) demo_out (demo_sack 0 2 (14 :: replicate 63 0)) 4 0 6000000).1
    = ([[1]], true).
Proof.
  pose proof (fast_repair_sound demo_flow demo_out (demo_sack 0 2 (14 :: replicate 63 0)) 4 0
                6000000 1 demo_sack_valid) as H.
  destruct (updateSACK _ _ _ _ _ _) as [[wires valid] [fl' m']] eqn:E.
  destruct H as (Hv & _). apply (f_equal fst) in E. cbn [fst] in E. rewrite <- E.
  vm_compute. reflexivity.
Defined.
