(* ===== verification/ChunkPipe.v ===== *)
(** The in-memory connection between the application and a session:
    src/tunnel/chunkpipe.go.

    A pipe has two directions; Read and Write of the two ends work on one direction
    each.  [readTry] and [writeTry] are the lock sections of their loops.  The
    system below runs one direction with its reader and its writer; [P_signal]
    stands for the broadcasts of [signal] that come from the other direction and
    from the deadline setters, which may arrive at any moment. *)
From S2P Require Import Prelude.
Local Open Scope Z_scope.

Definition chunkPipeBuffer : Z := 256 * 1024.
Definition chunkPipeChunk : Z := 64 * 1024.

Record chunkDir := mkDir {
  chunks : list bytes;
  cbytes : Z;
}.

Definition push (q : chunkDir) (b : bytes) : Z * chunkDir :=
  let piece := if len b <? chunkPipeChunk then len b else chunkPipeChunk in
  let chunk := upto piece b in
  (piece, mkDir (chunks q ++ [chunk]) (cbytes q + len chunk)).

(** [take] into a buffer of [n] bytes: what landed in it, and the rest. *)
Fixpoint takeChunks (cs : list bytes) (room total : Z) : bytes * list bytes * Z :=
  match cs with
  | [] => ([], [], total)
  | c :: cs' =>
      if room <=? 0 then ([], cs, total) else
      let copied := Z.min room (len c) in
      if copied <? len c then (upto copied c, from copied c :: cs', total - copied)
      else let '(out, rest, t) := takeChunks cs' (room - copied) (total - copied) in
           (c ++ out, rest, t)
  end.

Definition take (q : chunkDir) (n : Z) : bytes * chunkDir :=
  let '(out, rest, t) := takeChunks (chunks q) n (cbytes q) in (out, mkDir rest t).

(** [expired]: a deadline that is set and not in the future. *)
Definition deadline_expired (dl : option Z) (now : Z) : bool :=
  match dl with Some t => negb (now <? t) | None => false end.

Inductive io_result (A : Type) :=
| IODone (a : A)
| IOEOF
| IOClosed
| IOTimeout
| IOWait.
Arguments IODone {A} a.
Arguments IOEOF {A}.
Arguments IOClosed {A}.
Arguments IOTimeout {A}.
Arguments IOWait {A}.

(** One round of [Read]'s loop under the lock. *)
Definition readTry (q : chunkDir) (closed : bool) (dl : option Z) (now n : Z)
  : io_result bytes * chunkDir :=
  let '(out, q') := take q n in
  if 0 <? len out then (IODone out, q') else
  if closed then (IOEOF, q) else
  if deadline_expired dl now then (IOTimeout, q) else (IOWait, q).

(** One round of [Write]'s loop under the lock: [IODone n] queued n more bytes. *)
Definition writeTry (q : chunkDir) (closed : bool) (dl : option Z) (now : Z) (b : bytes)
  : io_result Z * chunkDir :=
  if closed then (IOClosed, q) else
  if deadline_expired dl now then (IOTimeout, q) else
  if cbytes q <? chunkPipeBuffer then let '(n, q') := push q b in (IODone n, q')
  else (IOWait, q).

(** [sleepUntil]'s test before it blocks. *)
Definition sleepTimesOut (dl : option Z) (now : Z) : bool :=
  match dl with Some t => t - now <=? 0 | None => false end.

(** * One direction *)

Inductive rthread :=
| RIdle
| RTry (n : Z)
| RSignal
| RWait (n : Z).

Inductive wthread :=
| WIdle
| WTry (b : bytes)
| WSignal (b : bytes)
| WWait (b : bytes).

Record psys := mkPipe {
  dir : chunkDir;
  pclosed : bool;
  dataTok : bool;
  spaceTok : bool;
  rt : rthread;
  wt : wthread;
  owed : nat;       (* Close calls between their unlock and their signal *)
  sent : bytes;     (* bytes accepted by Write *)
  got : bytes;      (* bytes returned by Read *)
}.

Definition initPipe : psys := mkPipe (mkDir [] 0) false false false RIdle WIdle 0 [] [].

Inductive pstep : psys → psys → Prop :=
| P_read_call q c d s w o sn g n : 0 < n →
    pstep (mkPipe q c d s RIdle w o sn g) (mkPipe q c d s (RTry n) w o sn g)
| P_read_done q c d s w o sn g n dl now out q' : readTry q c dl now n = (IODone out, q') →
    pstep (mkPipe q c d s (RTry n) w o sn g) (mkPipe q' c d s RSignal w o sn (g ++ out))
| P_read_fail q c d s w o sn g n dl now r q' : readTry q c dl now n = (r, q') →
    r = IOEOF ∨ r = IOTimeout →
    pstep (mkPipe q c d s (RTry n) w o sn g) (mkPipe q' c d s RIdle w o sn g)
| P_read_wait q c d s w o sn g n dl now q' : readTry q c dl now n = (IOWait, q') →
    pstep (mkPipe q c d s (RTry n) w o sn g) (mkPipe q' c d s (RWait n) w o sn g)
| P_read_signal q c d s w o sn g :
    pstep (mkPipe q c d s RSignal w o sn g) (mkPipe q c true true RIdle w o sn g)
| P_read_wake q c s w o sn g n :
    pstep (mkPipe q c true s (RWait n) w o sn g) (mkPipe q c false s (RTry n) w o sn g)
| P_read_timeout q c d s w o sn g n :
    pstep (mkPipe q c d s (RWait n) w o sn g) (mkPipe q c d s RIdle w o sn g)
| P_write_call q c d s r o sn g b :
    pstep (mkPipe q c d s r WIdle o sn g) (mkPipe q c d s r (WTry b) o sn g)
| P_write_finish q c d s r o sn g :
    pstep (mkPipe q c d s r (WTry []) o sn g) (mkPipe q c d s r WIdle o sn g)
| P_write_some q c d s r o sn g b dl now n q' : b ≠ [] → writeTry q c dl now b = (IODone n, q') →
    pstep (mkPipe q c d s r (WTry b) o sn g)
          (mkPipe q' c d s r (WSignal (from n b)) o (sn ++ upto n b) g)
| P_write_fail q c d s r o sn g b dl now x q' : b ≠ [] → writeTry q c dl now b = (x, q') →
    x = IOClosed ∨ x = IOTimeout →
    pstep (mkPipe q c d s r (WTry b) o sn g) (mkPipe q' c d s r WIdle o sn g)
| P_write_wait q c d s r o sn g b dl now q' : b ≠ [] → writeTry q c dl now b = (IOWait, q') →
    pstep (mkPipe q c d s r (WTry b) o sn g) (mkPipe q' c d s r (WWait b) o sn g)
| P_write_signal q c d s r o sn g b :
    pstep (mkPipe q c d s r (WSignal b) o sn g) (mkPipe q c true true r (WTry b) o sn g)
| P_write_wake q c d r o sn g b :
    pstep (mkPipe q c d true r (WWait b) o sn g) (mkPipe q c d false r (WTry b) o sn g)
| P_write_timeout q c d s r o sn g b :
    pstep (mkPipe q c d s r (WWait b) o sn g) (mkPipe q c d s r WIdle o sn g)
| P_close q d s r w o sn g :
    pstep (mkPipe q false d s r w o sn g) (mkPipe q true d s r w (S o) sn g)
| P_close_signal q c d s r w o sn g :
    pstep (mkPipe q c d s r w (S o) sn g) (mkPipe q c true true r w o sn g)
| P_signal q c d s r w o sn g :
    pstep (mkPipe q c d s r w o sn g) (mkPipe q c true true r w o sn g).

Inductive preach : psys → Prop :=
| preach_init : preach initPipe
| preach_step s s' : preach s → pstep s s' → preach s'.

(** * The queue *)

Definition dir_ok (q : chunkDir) : Prop :=
  cbytes q = len (concat (chunks q)) ∧ Forall (λ c, c ≠ []) (chunks q).

Lemma len_pos {A} (l : list A) : l ≠ [] → 0 < len l.
Proof. destruct l; [done|]. rewrite len_cons. pose proof (len_nonneg l). lia. Qed.

Lemma takeChunks_spec cs room total out rest t : 0 ≤ room →
  takeChunks cs room total = (out, rest, t) →
  concat cs = out ++ concat rest ∧ t = total - len out ∧ len out ≤ room ∧
  (len out < room → rest = []) ∧
  (Forall (λ c, c ≠ []) cs → Forall (λ c, c ≠ []) rest ∧ (0 < room → out = [] → cs = [])).
Proof.
  revert room total out rest t. induction cs as [|c cs IH]; intros room total out rest t Hr Ht.
  { injection Ht as <- <- <-. change (len (@nil Z)) with 0. split_and!; done || lia. }
  cbn [takeChunks] in Ht. destruct (Z.leb_spec room 0) as [H0|H0].
  { injection Ht as <- <- <-. rewrite len_nil.
    split; [done|]. split; [lia|]. split; [lia|]. split; [intros; exfalso; lia|].
    intros Hall. split; [done|intros; exfalso; lia]. }
  pose proof (len_nonneg c). destruct (Z.ltb_spec (Z.min room (len c)) (len c)) as [Hlt|Hge].
  - injection Ht as <- <- <-. rewrite len_upto by lia. cbn [concat].
    rewrite app_assoc, upto_from. split_and!; try done; try lia.
    intros Hall. apply Forall_cons in Hall as [_ Hall]. split.
    + constructor; [|done]. intros Hn. apply (f_equal len) in Hn. rewrite len_from in Hn by lia.
      change (len (@nil Z)) with 0 in Hn. lia.
    + intros _ Hn. apply (f_equal len) in Hn. rewrite len_upto in Hn by lia.
      change (len (@nil Z)) with 0 in Hn. lia.
  - destruct (takeChunks cs _ _) as [[out' rest'] t'] eqn:Hrec. injection Ht as <- <- <-.
    apply IH in Hrec as (Hc & -> & Hb & Hf & Hne); [|lia]. cbn [concat]. rewrite Hc, !len_app.
    split_and!; [by rewrite app_assoc|lia|lia|intros; apply Hf; lia|].
    intros Hall. apply Forall_cons in Hall as [Hcn Hall]. destruct (Hne Hall) as [? _].
    split; [done|]. by intros _ [? _]%app_eq_nil.
Qed.

Lemma take_spec q n out q' : 0 < n → dir_ok q → take q n = (out, q') →
  concat (chunks q) = out ++ concat (chunks q') ∧ dir_ok q' ∧ cbytes q' = cbytes q - len out ∧
  len out ≤ n ∧ (out = [] → chunks q = [] ∧ q' = q).
Proof.
  unfold take. intros Hn [Hb Hne] Ht.
  destruct (takeChunks (chunks q) n (cbytes q)) as [[o rest] t] eqn:Hc. injection Ht as <- <-.
  apply takeChunks_spec in Hc as (Hcat & -> & Hle & _ & Hne'); [|lia]. cbn [chunks cbytes].
  destruct (Hne' Hne) as [Hr He]. split_and!; try done.
  - split; [|done]. cbn. rewrite Hb, Hcat, len_app. lia.
  - intros ->. assert (chunks q = []) as Hq by (by apply He). split; [done|].
    rewrite Hq in Hcat. cbn in Hcat. destruct q as [cs b]. cbn in *. subst cs.
    destruct rest as [|r rest]; [by rewrite Z.sub_0_r|].
    apply Forall_cons in Hr as [Hr _]. by destruct r.
Qed.

Lemma push_spec q b n q' : b ≠ [] → dir_ok q → push q b = (n, q') →
  0 < n ≤ chunkPipeChunk ∧ n ≤ len b ∧ dir_ok q' ∧
  concat (chunks q') = concat (chunks q) ++ upto n b ∧ cbytes q' = cbytes q + n.
Proof.
  unfold push. intros Hb [Hc Hne] Hp. apply len_pos in Hb as Hpos. rewrite if_gt_min in Hp.
  injection Hp as <- <-. unfold chunkPipeChunk. cbn [chunks cbytes].
  assert (Hl : len (upto (Z.min (64 * 1024) (len b)) b) = Z.min (64 * 1024) (len b))
    by (apply len_upto; lia).
  split_and!; try lia.
  - split; cbn.
    + rewrite concat_app, len_app, Hl, Hc. cbn [concat]. rewrite app_nil_r, Hl. done.
    + apply Forall_app. split; [done|]. constructor; [|done]. intros Hn. rewrite Hn in Hl.
      change (len (@nil Z)) with 0 in Hl. lia.
  - rewrite concat_app. cbn. by rewrite app_nil_r.
Qed.

(** * Invariant *)

Record pinv (s : psys) : Prop := {
  pinv_dir : dir_ok (dir s);
  pinv_stream : sent s = got s ++ concat (chunks (dir s));
  pinv_bound : cbytes (dir s) < chunkPipeBuffer + chunkPipeChunk;
  pinv_room : ∀ n, rt s = RTry n ∨ rt s = RWait n → 0 < n;
  pinv_data : (∃ n, rt s = RWait n) → (chunks (dir s) ≠ [] ∨ pclosed s = true) →
    dataTok s = true ∨ (∃ b, wt s = WSignal b) ∨ owed s ≠ 0%nat;
  pinv_space : (∃ b, wt s = WWait b) → (cbytes (dir s) < chunkPipeBuffer ∨ pclosed s = true) →
    spaceTok s = true ∨ rt s = RSignal ∨ owed s ≠ 0%nat;
}.

Lemma readTry_inv q c dl now n r q' : 0 < n → dir_ok q → readTry q c dl now n = (r, q') →
  match r with
  | IODone out => concat (chunks q) = out ++ concat (chunks q') ∧ dir_ok q' ∧
                  cbytes q' ≤ cbytes q ∧ 0 < len out ≤ n
  | IOEOF => q' = q ∧ chunks q = [] ∧ c = true
  | IOWait => q' = q ∧ chunks q = [] ∧ c = false
  | _ => q' = q
  end.
Proof.
  unfold readTry. intros Hn Hq Ht. destruct (take q n) as [out q1] eqn:Htk.
  apply take_spec in Htk as (Hc & Hd & Hb & Hle & He); [|done|done].
  pose proof (len_nonneg out). destruct (Z.ltb_spec 0 (len out)).
  { injection Ht as <- <-. split_and!; try done; lia. }
  assert (out = []) as -> by (apply len_nil_inv; lia). destruct (He eq_refl) as [Hnil _].
  destruct c; [by injection Ht as <- <-|].
  destruct (deadline_expired dl now); by injection Ht as <- <-.
Qed.

Lemma writeTry_inv q c dl now b r q' : b ≠ [] → dir_ok q → writeTry q c dl now b = (r, q') →
  match r with
  | IODone n => 0 < n ≤ chunkPipeChunk ∧ n ≤ len b ∧ dir_ok q' ∧ c = false ∧
      concat (chunks q') = concat (chunks q) ++ upto n b ∧ cbytes q' = cbytes q + n ∧
      cbytes q < chunkPipeBuffer
  | IOWait => q' = q ∧ chunkPipeBuffer ≤ cbytes q ∧ c = false
  | _ => q' = q
  end.
Proof.
  unfold writeTry. intros Hb Hq Ht. destruct c; [by injection Ht as <- <-|].
  destruct (deadline_expired dl now); [by injection Ht as <- <-|].
  destruct (Z.ltb_spec (cbytes q) chunkPipeBuffer); [|by injection Ht as <- <-].
  destruct (push q b) as [n q1] eqn:Hp. injection Ht as <- <-.
  apply push_spec in Hp as (? & ? & ? & ? & ?); [|done|done]. split_and!; try done; lia.
Qed.

(** The three conditions on thread states, each from its own hypothesis. *)
Ltac pipe_threads Hroom Hd Hs :=
  match goal with
  | |- (∃ n, _ = RWait n) → _ => clear -Hd; naive_solver
  | |- (∃ b, _ = WWait b) → _ => clear -Hs; naive_solver
  | |- ∀ n, _ ∨ _ → 0 < n => clear -Hroom; naive_solver
  end.

Lemma pstep_inv s s' : pinv s → pstep s s' → pinv s'.
Proof.
  intros [Hq Hst Hb Hroom Hd Hs] Hstep. destruct Hstep as
    [q c d t w o sn g n Hn|q c d t w o sn g n dl now out q' Ht|q c d t w o sn g n dl now r q' Ht Hr
    |q c d t w o sn g n dl now q' Ht| | | | | |q c d t r o sn g b dl now n q' Hne Ht
    |q c d t r o sn g b dl now x q' Hne Ht Hx|q c d t r o sn g b dl now q' Hne Ht| | | | | |];
    cbn in *; try (apply readTry_inv in Ht; [|by apply Hroom; left|done]);
    try (apply writeTry_inv in Ht; [|done|done]).
  - split; cbn; try done; pipe_threads Hn Hd Hs.
  - destruct Ht as (Hc & Hq' & Hle & Hout). split; cbn; [done| |lia|..].
    + by rewrite Hst, Hc, app_assoc.
    + clear; naive_solver.
    + clear; naive_solver.
    + intros _ _. auto.
  - assert (q' = q) as -> by (destruct Hr; subst r; tauto).
    split; cbn; try done; pipe_threads Hroom Hd Hs.
  - destruct Ht as (-> & Hnil & ->). split; cbn; try done.
    + clear -Hroom; naive_solver.
    + clear -Hnil. intros _ [?|?]; done.
    + clear -Hs; naive_solver.
  - split; cbn; try done; auto. clear; naive_solver.
  - split; cbn; try done; pipe_threads Hroom Hd Hs.
  - split; cbn; try done; pipe_threads Hroom Hd Hs.
  - split; cbn; try done; pipe_threads Hroom Hd Hs.
  - split; cbn; try done; pipe_threads Hroom Hd Hs.
  - destruct Ht as (Hn & Hle & Hq' & -> & Hc & Hcb & Hlt). split; cbn; [done| |lia|done|..].
    + by rewrite Hst, Hc, app_assoc.
    + intros _ _. right. left. by eexists.
    + clear; naive_solver.
  - assert (q' = q) as -> by (destruct Hx; subst x; tauto).
    split; cbn; try done; pipe_threads Hroom Hd Hs.
  - destruct Ht as (-> & Hful & ->). split; cbn; try done.
    + clear -Hd; naive_solver.
    + clear -Hful. intros _ [?|?]; [lia|done].
  - split; cbn; try done; auto.
  - split; cbn; try done; pipe_threads Hroom Hd Hs.
  - split; cbn; try done; pipe_threads Hroom Hd Hs.
  - split; cbn; try done; auto.
  - split; cbn; try done; auto.
  - split; cbn; try done; auto.
Qed.

Lemma preach_inv s : preach s → pinv s.
Proof.
  induction 1 as [|s s' _ IH Hs]; [|by eapply pstep_inv].
  split; cbn; try done; naive_solver.
Qed.

(** C31: (safety) The pipe is a faithful byte stream: at every moment what Read has
    returned followed by what is queued is exactly what Write accepted, in order;
    the byte counter equals the queued bytes; and the queue never holds 320 KB. *)
Theorem pipe_stream s :
  preach s →
  sent s = got s ++ concat (chunks (dir s)) ∧
  cbytes (dir s) = len (concat (chunks (dir s))) ∧
  cbytes (dir s) < chunkPipeBuffer + chunkPipeChunk.
Proof. intros [[] ? ?]%preach_inv. done. Qed.

(** No lost wakeup: whenever a blocked reader could make progress (data
    queued or pipe closed), or a blocked writer could (room or closed), its wake
    token is set or another thread is about to set it. *)
Theorem pipe_no_lost_wakeup s :
  preach s →
  ((∃ n, rt s = RWait n) → chunks (dir s) ≠ [] ∨ pclosed s = true →
   dataTok s = true ∨ (∃ b, wt s = WSignal b) ∨ owed s ≠ 0%nat) ∧
  ((∃ b, wt s = WWait b) → cbytes (dir s) < chunkPipeBuffer ∨ pclosed s = true →
   spaceTok s = true ∨ rt s = RSignal ∨ owed s ≠ 0%nat).
Proof. intros []%preach_inv. done. Qed.

(** End of file is only reported when the pipe is closed and drained:
    a reader that sees EOF has received every byte the writer was told had been
    accepted. *)
Theorem eof_after_drain s n dl now q' :
  preach s → rt s = RTry n → readTry (dir s) (pclosed s) dl now n = (IOEOF, q') →
  pclosed s = true ∧ got s = sent s.
Proof.
  intros [Hq Hst _ Hroom _ _]%preach_inv Hr Ht.
  apply readTry_inv in Ht as (-> & Hnil & Hc); [|by apply Hroom; left|done].
  split; [done|]. rewrite Hst, Hnil. cbn. by rewrite app_nil_r.
Qed.

(** * A run: write "hi", close, read it, then see EOF. *)
Definition pipe_demo1 : psys :=
  mkPipe (mkDir [[104; 105]] 2) true false false (RTry 8) (WSignal []) 1 [104; 105] [].
Definition pipe_demo2 : psys :=
  mkPipe (mkDir [] 0) true true true (RTry 8) (WSignal []) 1 [104; 105] [104; 105].

Lemma pipe_demo1_reach : preach pipe_demo1.
Proof.
  eapply preach_step; [eapply preach_step; [eapply preach_step; [eapply preach_step;
    [apply preach_init|]|]|]|].
  - apply (P_read_call _ _ _ _ _ _ _ _ 8). lia.
  - apply (P_write_call _ _ _ _ _ _ _ _ [104; 105]).
  - apply (P_write_some _ _ _ _ _ _ _ _ [104; 105] None 0 2); [done|reflexivity].
  - apply P_close.
Qed.

Lemma pipe_demo2_reach : preach pipe_demo2.
Proof.
  eapply preach_step; [eapply preach_step; [eapply preach_step; [apply pipe_demo1_reach|]|]|].
  - apply (P_read_done _ _ _ _ _ _ _ _ 8 None 0 [104; 105]). reflexivity.
  - apply P_read_signal.
  - apply (P_read_call _ _ _ _ _ _ _ _ 8). lia.
Qed.

Lemma pipe_stream_witness : cbytes (dir pipe_demo1) = 2 ∧ sent pipe_demo1 = [] ++ [104; 105].
Proof.
  destruct (pipe_stream pipe_demo1 pipe_demo1_reach) as (H1 & H2 & _).
  split; [rewrite H2; reflexivity|exact H1].
Defined.

Lemma pipe_no_lost_wakeup_witness :
  preach pipe_demo1 ∧ ((∃ b, wt pipe_demo1 = WWait b) → pclosed pipe_demo1 = true →
   spaceTok pipe_demo1 = true ∨ rt pipe_demo1 = RSignal ∨ owed pipe_demo1 ≠ 0%nat).
Proof.
  split; [exact pipe_demo1_reach|]. intros H1 H2.
  exact (proj2 (pipe_no_lost_wakeup pipe_demo1 pipe_demo1_reach) H1 (or_intror H2)).
Defined.

Lemma eof_after_drain_witness : got pipe_demo2 = sent pipe_demo2.
Proof.
  refine (proj2 (eof_after_drain pipe_demo2 8 None 0 (mkDir [] 0) pipe_demo2_reach _ _));
    reflexivity.
Defined.
