(* ===== verification/Erasure.v ===== *)
(** The erasure code of the FEC layer, github.com/klauspost/reedsolomon, as an
    interface.

    The library's code is not part of the repository: [ReedSolomon] is the part of
    its API src/tunnel/fec.go calls and [rs_laws] its documented behaviour (Encode
    fills in the parity shards of a systematic code, ReconstructData restores the
    data shards from any k surviving shards).  A missing shard is an empty one.
    [xor_code], one parity shard that is the XOR of the data shards, is a concrete
    code that has the laws. *)
From S2P Require Import Prelude.
Local Open Scope Z_scope.

Class ReedSolomon := {
  Encoder : Type;
  (** [reedsolomon.New(k, m, WithAutoGoroutines(size))]; [None] is the error. *)
  rs_New : Z → Z → Z → option Encoder;
  rs_Encode : Encoder → list bytes → option (list bytes);
  rs_ReconstructData : Encoder → list bytes → option (list bytes);
}.

(** k shards of one positive length n. *)
Definition shards_shape (k n : Z) (shards : list bytes) : Prop :=
  len shards = k ∧ 0 < n ∧ Forall (λ s, len s = n) shards.

#[export] Instance shards_shape_dec k n shards : Decision (shards_shape k n shards).
Proof. unfold shards_shape. apply _. Defined.

(** What is left of a code word: each shard as it was, or missing. *)
Definition survives (s c : bytes) : Prop := s = [] ∨ s = c.

Definition present_shards (shards : list bytes) : Z := len (filter (λ s, s ≠ []) shards).

Record rs_laws {RS : ReedSolomon} (parity_of : Z → Z → list bytes → list bytes) : Prop := {
  rs_parity_shape k m size enc n data :
    rs_New k m size = Some enc → shards_shape k n data →
    shards_shape m n (parity_of k m data);
  rs_parity_bytes k m data :
    Forall (Forall is_byte) data → Forall (Forall is_byte) (parity_of k m data);
  rs_encode k m size enc n data :
    rs_New k m size = Some enc → shards_shape k n data →
    rs_Encode enc (data ++ replicate (Z.to_nat m) (zeros n)) = Some (data ++ parity_of k m data);
  rs_reconstruct k m size enc n data shards :
    rs_New k m size = Some enc → shards_shape k n data →
    Forall2 survives shards (data ++ parity_of k m data) →
    k ≤ present_shards shards →
    ∃ out, rs_ReconstructData enc shards = Some out ∧ take (Z.to_nat k) out = data;
}.

(** * A concrete code: one XOR parity shard *)

Definition xor_shard (a b : bytes) : bytes := zip_with Z.lxor a b.
Definition xor_all (n : nat) (l : list bytes) : bytes := foldr xor_shard (replicate n 0) l.
Definition shard_len (l : list bytes) : nat := foldr (λ s acc, Nat.max (length s) acc) 0%nat l.

Definition xor_parity (k m : Z) (data : list bytes) : list bytes := [xor_all (shard_len data) data].

#[local] Instance xor_code : ReedSolomon := {|
  Encoder := Z;
  rs_New k m _ := if (1 <=? k) && (m =? 1) then Some k else None;
  rs_Encode k shards :=
    let data := take (Z.to_nat k) shards in Some (data ++ xor_parity k 1 data);
  rs_ReconstructData k shards :=
    if present_shards shards <? k then None else
    let fill := xor_all (shard_len shards) (filter (λ s, s ≠ []) shards) in
    Some (map (λ s, if bool_decide (s = []) then fill else s) shards);
|}.

Lemma length_xor_shard a b : length a = length b → length (xor_shard a b) = length a.
Proof. intros. unfold xor_shard. rewrite length_zip_with. lia. Qed.

Lemma length_xor_all n l : Forall (λ s, length s = n) l → length (xor_all n l) = n.
Proof.
  induction 1 as [|s l Hs _ IH]; simpl; [by rewrite length_replicate|].
  rewrite length_xor_shard; by rewrite ?IH.
Qed.

Lemma xor_shard_comm a b : xor_shard a b = xor_shard b a.
Proof. revert b. induction a; intros [|? b]; simpl; [done..|]. by rewrite Z.lxor_comm, <- IHa. Qed.

Lemma xor_shard_assoc a b c : xor_shard a (xor_shard b c) = xor_shard (xor_shard a b) c.
Proof.
  revert b c. induction a; intros [|? b] [|? c]; simpl; [done..|].
  by rewrite Z.lxor_assoc, <- IHa.
Qed.

Lemma xor_shard_cancel a b : length a = length b → xor_shard a (xor_shard a b) = b.
Proof.
  revert b. induction a; intros [|? b]; simpl; [done..|]. intros [= H].
  rewrite <- Z.lxor_assoc, Z.lxor_nilpotent, Z.lxor_0_l, IHa; done.
Qed.

Lemma xor_shard_zero n a : length a = n → xor_shard a (replicate n 0) = a.
Proof.
  intros <-. induction a; simpl; [done|]. by rewrite Z.lxor_0_r, IHa.
Qed.

Lemma xor_all_app n a b :
  Forall (λ s, length s = n) a → Forall (λ s, length s = n) b →
  xor_all n (a ++ b) = xor_shard (xor_all n a) (xor_all n b).
Proof.
  intros Ha Hb. induction Ha as [|s a Hs Ha IH]; simpl.
  - rewrite xor_shard_comm, xor_shard_zero; [done|by apply length_xor_all].
  - by rewrite IH, xor_shard_assoc.
Qed.

(** The XOR of a code word but one shard is that shard. *)
Lemma xor_all_missing n a x b :
  Forall (λ s, length s = n) a → Forall (λ s, length s = n) b → length x = n →
  xor_all n (a ++ b ++ [xor_all n (a ++ x :: b)]) = x.
Proof.
  intros Ha Hb Hx.
  assert (length (xor_all n a) = n) by (by apply length_xor_all).
  assert (length (xor_all n b) = n) by (by apply length_xor_all).
  assert (Forall (λ s, length s = n) (x :: b)) by (by constructor).
  assert (Forall (λ s, length s = n) [xor_all n (a ++ x :: b)]).
  { constructor; [|done]. apply length_xor_all, Forall_app. done. }
  rewrite !xor_all_app by (done || by apply Forall_app).
  simpl.
  rewrite xor_shard_zero by (rewrite !length_xor_shard; rewrite ?length_xor_shard; lia).
  rewrite (xor_shard_comm (xor_all n b)), xor_shard_assoc, xor_shard_cancel
    by (rewrite length_xor_shard; lia).
  rewrite xor_shard_comm, (xor_shard_comm x), xor_shard_cancel by lia. done.
Qed.

Lemma present_cons_missing l : present_shards ([] :: l) = present_shards l.
Proof. unfold present_shards. rewrite filter_cons_False; [done|naive_solver]. Qed.
Lemma present_cons s l : s ≠ [] → present_shards (s :: l) = present_shards l + 1.
Proof. intros. unfold present_shards. rewrite filter_cons_True by done. by autorewrite with len. Qed.
Lemma present_app a b : present_shards (a ++ b) = present_shards a + present_shards b.
Proof. unfold present_shards. rewrite filter_app. by autorewrite with len. Qed.
Lemma present_all l : Forall (λ s, s ≠ []) l → present_shards l = len l.
Proof.
  induction 1; [done|]. rewrite present_cons by done. autorewrite with len. lia.
Qed.
Lemma present_bounds l : 0 ≤ present_shards l ≤ len l.
Proof.
  unfold present_shards, len. pose proof (length_filter (λ s : bytes, s ≠ []) l). lia.
Qed.

Lemma survives_present s c : Forall2 survives s c → len c ≤ present_shards s → s = c.
Proof.
  induction 1 as [|x y s c [->| ->] Hs IH]; [done| |]; rewrite len_cons.
  - rewrite present_cons_missing. pose proof (present_bounds s).
    apply Forall2_length in Hs. unfold len in *. lia.
  - intros Hp. f_equal. apply IH. destruct y.
    + rewrite present_cons_missing in Hp. lia.
    + rewrite present_cons in Hp by done. lia.
Qed.

(** A code word that lost at most one shard. *)
Lemma survives_one s c :
  Forall2 survives s c → len c - 1 ≤ present_shards s →
  s = c ∨ ∃ a x b, c = a ++ x :: b ∧ s = a ++ [] :: b.
Proof.
  induction 1 as [|x y s c Hx Hs IH]; [by left|]. rewrite len_cons. intros Hp.
  destruct (decide (x = [])) as [->|Hne].
  - right. exists [], y, c. split; [done|].
    rewrite present_cons_missing in Hp. rewrite (survives_present s c) by (done || lia). done.
  - destruct Hx as [->| ->]; [done|]. rewrite present_cons in Hp by done.
    destruct IH as [->|(a & z & b & -> & ->)]; [lia|by left|].
    right. by exists (y :: a), z, b.
Qed.

Lemma shard_len_all n l : Forall (λ s, length s = n) l → l ≠ [] → shard_len l = n.
Proof.
  induction 1 as [|s l Hs _ IH]; [done|]. intros _. simpl.
  destruct l as [|t l]; simpl in *; [lia|]. rewrite IH by done. lia.
Qed.

Lemma shard_len_missing n a b :
  Forall (λ s, length s = n) (a ++ b) → a ++ b ≠ [] → shard_len (a ++ [] :: b) = n.
Proof.
  intros H Hne. rewrite <- (shard_len_all n (a ++ b)) by done.
  clear. induction a; simpl; [lia|]. by rewrite IHa.
Qed.

Lemma filter_present l : Forall (λ s : bytes, s ≠ []) l → filter (λ s, s ≠ []) l = l.
Proof. induction 1; [done|]. rewrite filter_cons_True by done. by f_equal. Qed.

Lemma map_keep fill l :
  Forall (λ s : bytes, s ≠ []) l → map (λ s, if bool_decide (s = []) then fill else s) l = l.
Proof. induction 1; simpl; [done|]. rewrite bool_decide_false by done. by f_equal. Qed.

Lemma xor_parity_shape k n data :
  1 ≤ k → shards_shape k n data → shards_shape 1 n (xor_parity k 1 data).
Proof.
  intros Hk (Hl & Hn & Hd). split; [done|]. split; [done|]. constructor; [|done].
  assert (Forall (λ s : bytes, length s = Z.to_nat n) data).
  { eapply Forall_impl; [exact Hd|]. unfold len. simpl. lia. }
  unfold len. rewrite (shard_len_all (Z.to_nat n)); [|done|by destruct data; unfold len in *; simpl in *; [lia|]].
  rewrite length_xor_all by done. lia.
Qed.

(** A hole in a code word is filled with the shard that was there. *)
Lemma xor_fill n a x b data :
  data ++ xor_parity (len data) 1 data = a ++ x :: b →
  Forall (λ s : bytes, length s = n) data → (0 < n)%nat → data ≠ [] →
  take (length data) (map (λ s, if bool_decide (s = []) then
      xor_all (shard_len (a ++ [] :: b)) (filter (λ s, s ≠ []) (a ++ [] :: b)) else s)
    (a ++ [] :: b)) = data.
Proof.
  intros Hc Hd Hn Hne.
  assert (Hnil : Forall (λ s : bytes, s ≠ []) data).
  { eapply Forall_impl; [exact Hd|]. intros [|??] ??; simpl in *; [lia|done]. }
  rewrite filter_app, filter_cons_False by (intros H; by apply H). rewrite map_app. simpl.
  destruct b as [|p b _] using rev_ind.
  - apply app_inj_2 in Hc as [-> _]; [|done].
    rewrite map_keep by done. by rewrite take_app_length' by done.
  - rewrite app_comm_cons, app_assoc in Hc. apply app_inj_2 in Hc as [Hda [= Hp]]; [|done].
    rewrite Hda in Hp, Hd, Hnil. rewrite (shard_len_all n) in Hp by (done || by destruct a).
    apply Forall_app in Hd as [Ha [Hx Hb]%Forall_cons].
    apply Forall_app in Hnil as [Na [Nx Nb]%Forall_cons].
    assert (length p = n) as Hpl.
    { rewrite <- Hp. apply length_xor_all, Forall_app. split; [done|by constructor]. }
    assert (Np : p ≠ []) by (intros ->; simpl in Hpl; lia).
    rewrite !filter_app, !(filter_present a), !(filter_present b), (filter_present [p]) by auto.
    rewrite (shard_len_missing n); [|by repeat (apply Forall_app; split; auto)|by destruct a, b].
    rewrite map_app, (map_keep _ a), (map_keep _ b) by done.
    rewrite <- Hp, xor_all_missing by done. rewrite app_comm_cons, app_assoc, <- Hda.
    by apply take_app_length'.
Qed.

Lemma xor_shard_bytes a b : Forall is_byte a → Forall is_byte b → Forall is_byte (xor_shard a b).
Proof.
  intros Ha. revert b. induction Ha as [|x a Hx _ IH]; intros [|y b]; try done.
  intros [Hy Hb]%Forall_cons. constructor; [|by apply IH]. unfold is_byte in *.
  assert (0 ≤ Z.lxor x y) by (apply Z.lxor_nonneg; lia). split; [done|].
  destruct (decide (Z.lxor x y = 0)) as [->|]; [lia|]. change 256 with (2 ^ 8). apply Z.log2_lt_pow2; [lia|].
  pose proof (Z.log2_lxor x y ltac:(lia) ltac:(lia)).
  assert (∀ z, 0 ≤ z < 256 → Z.log2 z < 8) as Hz.
  { intros z ?. destruct (decide (z = 0)) as [->|]; [done|]. apply Z.log2_lt_pow2; lia. }
  pose proof (Hz x Hx). pose proof (Hz y Hy). lia.
Qed.

Lemma xor_parity_bytes k m data :
  Forall (Forall is_byte) data → Forall (Forall is_byte) (xor_parity k m data).
Proof.
  intros Hd. constructor; [|done]. generalize (shard_len data). intros n.
  induction Hd as [|s data Hs _ IH]; simpl; [|by apply xor_shard_bytes].
  by apply Forall_replicate.
Qed.

Lemma xor_code_laws : rs_laws xor_parity.
Proof.
  split.
  - intros k m size enc n data. cbn [rs_New xor_code].
    destruct (Z.leb_spec 1 k), (Z.eqb_spec m 1); simpl; try done. intros [= <-]. subst m.
    by apply xor_parity_shape.
  - intros. by apply xor_parity_bytes.
  - intros k m size enc n data. cbn [rs_New rs_Encode xor_code].
    destruct (Z.leb_spec 1 k), (Z.eqb_spec m 1); simpl; try done. intros [= <-] (Hl & _).
    rewrite take_app_length' by (unfold len in Hl; lia). done.
  - intros k m size enc n data shards. cbn [rs_New rs_ReconstructData xor_code].
    destruct (Z.leb_spec 1 k) as [Hk|], (Z.eqb_spec m 1) as [->|]; simpl; try done.
    intros [= <-] Hd Hs Hp. pose proof (xor_parity_shape _ _ _ Hk Hd) as (_ & _ & Hpar).
    destruct Hd as (Hl & Hn & Hd). rewrite (proj2 (Z.ltb_ge _ _)) by lia.
    eexists; split; [done|].
    assert (Hcw : Forall (λ s : bytes, length s = Z.to_nat n) (data ++ xor_parity k 1 data)).
    { apply Forall_app. split; eapply Forall_impl; try done; unfold len; simpl; lia. }
    assert (Hne : Forall (λ s : bytes, s ≠ []) (data ++ xor_parity k 1 data)).
    { eapply Forall_impl; [exact Hcw|]. intros [|??] ??; simpl in *; [lia|done]. }
    assert (Hsd : shard_len data = Z.to_nat n).
    { apply shard_len_all; [by apply Forall_app in Hcw as []|].
      intros ->. unfold len in Hl. simpl in Hl. lia. }
    apply survives_one in Hs as [->|(a & x & b & Hc & ->)].
    + rewrite map_keep by done. apply take_app_length'. unfold len in Hl. lia.
    + rewrite <- Hl in Hc |- *. unfold len in *. rewrite Nat2Z.id.
      eapply (xor_fill (Z.to_nat n)); [exact Hc|by apply Forall_app in Hcw as []|lia|].
      intros ->. simpl in *. lia.
    + autorewrite with len. change (len (xor_parity k 1 data)) with 1. lia.
Qed.
