(* ===== verification/FecLoss.v ===== *)
(** Loss estimation of the FEC layer: [fecLossEstimator], [fecAdaptiveLoss],
    [fecParityForLossExt] and the session-to-session [fecLossMemo] of
    src/tunnel/fec.go.  An estimator is its float64 value. *)
From S2P Require Import Prelude F64 Protocol Rtt.
Local Open Scope Z_scope.

Definition fecDataShardsMax : Z := 8.
Definition fecParityShardsMax : Z := 4.
Definition fecParityShardsExtMax : Z := 8.
Definition fecLossAlpha : Z := 64.
Definition fecBootstrapLossRate : f64 := f64_lit 5 1000.
Definition fecLossMemoTTL : Z := 300 * second.

(** [*bool] with nil meaning enabled. *)
Definition fecEnabled (v : option bool) : bool := match v with None => true | Some b => b end.

Definition fecDataPayloadCap (recordPayloadCap : Z) : Z :=
  let n := recordPayloadCap - fecLengthPrefixSize in if n <? 1 then 1 else n.

Abbreviation fecLossEstimator := f64.

Definition observeOutcome (e : fecLossEstimator) (lost : bool) : fecLossEstimator :=
  let sample := if lost then f64_of_int 1 else f64_zero in
  f64_add e (f64_div (f64_sub sample e) (f64_of_int fecLossAlpha)).

Definition observeValue (e : fecLossEstimator) (sample alpha : f64) : fecLossEstimator :=
  let sample := if f64_ltb sample f64_zero then f64_zero else sample in
  let sample := if f64_ltb (f64_of_int 1) sample then f64_of_int 1 else sample in
  let alpha := if f64_leb alpha f64_zero || f64_ltb (f64_of_int 1) alpha
               then f64_lit 1 4 else alpha in
  f64_add e (f64_mul (f64_sub sample e) alpha).

Definition basisPoints (e : fecLossEstimator) : Z :=
  if f64_leb e f64_zero then 0 else
  if f64_leb (f64_of_int 1) e then 10000 else
  u16 (f64_to_int (f64_add (f64_mul e (f64_of_int 10000)) (f64_lit 1 2))).

Record fecAdaptiveLoss := mkAdaptive {
  local_loss : fecLossEstimator;
  remote_loss : fecLossEstimator;
}.

Definition adaptive_zero : fecAdaptiveLoss := mkAdaptive f64_zero f64_zero.

Definition observeAck (a : fecAdaptiveLoss) (retransmitted : bool) : fecAdaptiveLoss :=
  mkAdaptive (observeOutcome (local_loss a) retransmitted) (remote_loss a).

Definition observeRemoteBasisPoints (a : fecAdaptiveLoss) (bp : Z) : fecAdaptiveLoss :=
  let bp := if 10000 <? bp then 10000 else bp in
  mkAdaptive (local_loss a)
    (observeValue (remote_loss a) (f64_div (f64_of_int bp) (f64_of_int 10000)) (f64_lit 1 4)).

Definition adaptive_loss (a : fecAdaptiveLoss) : f64 :=
  let local := local_loss a in
  let remote := remote_loss a in
  if f64_leb remote local then local else
  let ceiling := f64_add (f64_mul (f64_of_int 2) local) fecBootstrapLossRate in
  if f64_ltb ceiling remote then ceiling else remote.

Definition fecParityForLossExt (loss : f64) (ext : bool) : Z :=
  if ext then
    if f64_ltb loss (f64_lit 5 1000) then 0 else
    if f64_ltb loss (f64_lit 25 1000) then 1 else
    if f64_ltb loss (f64_lit 6 100) then 2 else
    if f64_ltb loss (f64_lit 12 100) then 3 else
    if f64_ltb loss (f64_lit 20 100) then 4 else
    if f64_ltb loss (f64_lit 30 100) then 6 else 8
  else
    if f64_ltb loss (f64_lit 5 1000) then 0 else
    if f64_ltb loss (f64_lit 25 1000) then 1 else
    if f64_ltb loss (f64_lit 6 100) then 2 else
    if f64_ltb loss (f64_lit 12 100) then 3 else 4.

Definition fecParityForLoss (loss : f64) : Z := fecParityForLossExt loss false.

(** * The memo; [None] is the zero time *)

Record fecLossMemo := mkMemo { memo_value : f64; memo_at : option Z }.

Definition memo_put (m : fecLossMemo) (loss : f64) (now : Z) : fecLossMemo :=
  mkMemo loss (Some now).

Definition memo_get (m : fecLossMemo) (now : Z) : option f64 :=
  match memo_at m with
  | None => None
  | Some at_ => if fecLossMemoTTL <? now - at_ then None else Some (memo_value m)
  end.

(** * Bounds on the parity choice *)

Definition parity_max (ext : bool) : Z := if ext then fecParityShardsExtMax else fecParityShardsMax.

Lemma fecParityForLossExt_range loss ext :
  0 ≤ fecParityForLossExt loss ext ≤ parity_max ext.
Proof.
  unfold fecParityForLossExt, parity_max, fecParityShardsExtMax, fecParityShardsMax.
  repeat case_match; lia.
Qed.

(** The two tables agree on which loss rates need no parity. *)
Lemma fecParityForLossExt_zero loss ext :
  fecParityForLossExt loss ext = 0 ↔ f64_ltb loss (f64_lit 5 1000) = true.
Proof. unfold fecParityForLossExt. repeat case_match; naive_solver. Qed.
