(* ===== verification/FecWire.v ===== *)
(** FEC metadata on the wire: [fecParityShard.applyToFrame] and
    [parseFECParityFrameExt] of src/tunnel/fec.go.

    A parity frame spends no payload on metadata: the block's first sequence is
    the frame's Seq and the geometry is packed into Flags. *)
From S2P Require Import Prelude Protocol F64 FecLoss.
Local Open Scope Z_scope.

Definition fecDataShift : Z := 4.
Definition fecDataMask : Z := Z.shiftl 7 fecDataShift.
Definition fecParityShift : Z := 7.
Definition fecParityMask : Z := Z.shiftl 3 fecParityShift.
Definition fecIndexShift : Z := 9.
Definition fecIndexMask : Z := Z.shiftl 3 fecIndexShift.
Definition fecMetaMask : Z := Z.lor (Z.lor fecDataMask fecParityMask) fecIndexMask.
Definition fecParityExtFlag : Z := Z.shiftl 1 2.
Definition fecIndexExtFlag : Z := Z.shiftl 1 3.

Record fecParityShard := mkParity {
  BaseSeq : Z;
  DataShards : Z;
  ParityShards : Z;
  Index : Z;
  PData : bytes;
  Ext : bool;
}.

#[export] Instance fecParityShard_eq_dec : EqDecision fecParityShard.
Proof. solve_decision. Defined.

Inductive fec_error := ErrInvalidFECFrame | ErrInvalidFECMetadata | ErrFECSeqOverflow.

(** The bits of Flags [applyToFrame] rewrites. *)
Definition fecFlagBits (ext : bool) : Z :=
  if ext then Z.lor fecMetaMask (Z.lor fecParityExtFlag fecIndexExtFlag) else fecMetaMask.

(** [f.Flags |= ...], after the clearing. *)
Definition fecFlags (p : fecParityShard) : Z :=
  let fl := Z.shiftl (Z.land (DataShards p - 1) 7) fecDataShift in
  let fl := Z.lor fl (Z.shiftl (Z.land (ParityShards p - 1) 3) fecParityShift) in
  let fl := Z.lor fl (Z.shiftl (Z.land (Index p) 3) fecIndexShift) in
  if Ext p then
    let fl := if 4 <=? ParityShards p - 1 then Z.lor fl fecParityExtFlag else fl in
    if 4 <=? Index p then Z.lor fl fecIndexExtFlag else fl
  else fl.

(** [applyToFrame]; [None] is the [false] result, which leaves the frame alone. *)
Definition applyToFrame (p : fecParityShard) (f : UDPCFrame) : option UDPCFrame :=
  let maxParity := if Ext p then fecParityShardsExtMax else fecParityShardsMax in
  if (BaseSeq p =? 0) || (DataShards p <? 1) || (fecDataShardsMax <? DataShards p) ||
     (ParityShards p <? 1) || (maxParity <? ParityShards p) ||
     (Index p <? 0) || (ParityShards p <=? Index p) || (len (PData p) <? fecLengthPrefixSize) ||
     (UDPC_MAX_DATA <? len (PData p)) then None else
  let cleared := Z.ldiff (Flags f) fecMetaMask in
  let cleared := if Ext p then Z.ldiff cleared (Z.lor fecParityExtFlag fecIndexExtFlag)
                 else cleared in
  Some (mkFrame (Magic f) (Version f) (Cmd f) (Z.lor cleared (fecFlags p)) (SessionID f)
          (PacketNo f) (BaseSeq p) (Ack f) (WindowSize f) (PData p) (raw f)).

Definition parseFECParityFrameExt (frame : UDPCFrame) (ext : bool) :
    result fecParityShard fec_error :=
  if negb (Cmd frame =? CMD_FEC) || (Seq frame =? 0) || (len (Data frame) <? fecLengthPrefixSize)
  then Err ErrInvalidFECFrame else
  let m1 := Z.shiftr (Z.land (Flags frame) fecParityMask) fecParityShift in
  let idx := Z.shiftr (Z.land (Flags frame) fecIndexMask) fecIndexShift in
  let maxParity := if ext then fecParityShardsExtMax else fecParityShardsMax in
  let m1 := if ext && negb (Z.land (Flags frame) fecParityExtFlag =? 0) then m1 + 4 else m1 in
  let idx := if ext && negb (Z.land (Flags frame) fecIndexExtFlag =? 0) then idx + 4 else idx in
  let p := mkParity (Seq frame)
             (Z.shiftr (Z.land (Flags frame) fecDataMask) fecDataShift + 1)
             (m1 + 1) idx (Data frame) false in
  if (DataShards p <? 1) || (fecDataShardsMax <? DataShards p) ||
     (ParityShards p <? 1) || (maxParity <? ParityShards p) ||
     (Index p <? 0) || (ParityShards p <=? Index p) then Err ErrInvalidFECMetadata else
  if max_u64 - u64 (DataShards p - 1) <? BaseSeq p then Err ErrFECSeqOverflow else Ok p.

Definition parseFECParityFrame (frame : UDPCFrame) : result fecParityShard fec_error :=
  parseFECParityFrameExt frame false.

(** * Well-formed shards *)

Definition shard_wf (ext : bool) (p : fecParityShard) : Prop :=
  0 < BaseSeq p ∧ 1 ≤ DataShards p ≤ fecDataShardsMax ∧
  1 ≤ ParityShards p ≤ parity_max ext ∧ 0 ≤ Index p < ParityShards p ∧
  fecLengthPrefixSize ≤ len (PData p) ∧ BaseSeq p + (DataShards p - 1) ≤ max_u64.

#[export] Instance shard_wf_dec ext p : Decision (shard_wf ext p).
Proof. unfold shard_wf. apply _. Defined.

Definition forget_ext (p : fecParityShard) : fecParityShard :=
  mkParity (BaseSeq p) (DataShards p) (ParityShards p) (Index p) (PData p) false.

Lemma fecParityShardsMax_le ext : parity_max ext ≤ 8.
Proof. by destruct ext. Qed.

(** A mask inside the cleared bits sees only the bits set afterwards. *)
Lemma land_cleared x clear set mask :
  Z.ldiff mask clear = 0 → Z.land (Z.lor (Z.ldiff x clear) set) mask = Z.land set mask.
Proof.
  intros H. apply Z.bits_inj'. intros n Hn.
  apply (f_equal (λ z, Z.testbit z n)) in H.
  rewrite Z.ldiff_spec, Z.bits_0 in H.
  rewrite !Z.land_spec, Z.lor_spec, Z.ldiff_spec.
  destruct (Z.testbit mask n), (Z.testbit clear n); simpl in *; try done;
    by rewrite ?andb_false_r.
Qed.

Lemma ldiff_ldiff x a b : Z.ldiff (Z.ldiff x a) b = Z.ldiff x (Z.lor a b).
Proof.
  apply Z.bits_inj'. intros n Hn. rewrite !Z.ldiff_spec, Z.lor_spec.
  by rewrite negb_orb, andb_assoc.
Qed.

(** The decoding of the packed fields, checked on every geometry. *)
Definition decode_fields (ext : bool) (fl : Z) : Z * Z * Z :=
  let m1 := Z.shiftr (Z.land fl fecParityMask) fecParityShift in
  let idx := Z.shiftr (Z.land fl fecIndexMask) fecIndexShift in
  (Z.shiftr (Z.land fl fecDataMask) fecDataShift + 1,
   (if ext && negb (Z.land fl fecParityExtFlag =? 0) then m1 + 4 else m1) + 1,
   if ext && negb (Z.land fl fecIndexExtFlag =? 0) then idx + 4 else idx).

Definition fields_check (ext : bool) : bool :=
  forallb (λ k, forallb (λ m, forallb (λ i,
    bool_decide (decode_fields ext (fecFlags (mkParity 1 k m i [] ext)) = (k, m, i)) &&
    bool_decide (Z.ldiff (fecFlags (mkParity 1 k m i [] ext)) (fecFlagBits ext) = 0))
    (seqZ 0 (parity_max ext))) (seqZ 1 (parity_max ext))) (seqZ 1 8).

Lemma fields_checked ext : fields_check ext = true.
Proof. by destruct ext; vm_compute. Qed.

Lemma fecFlags_decode ext p :
  shard_wf ext p → Ext p = ext →
  decode_fields ext (fecFlags p) = (DataShards p, ParityShards p, Index p) ∧
  Z.ldiff (fecFlags p) (fecFlagBits ext) = 0.
Proof.
  intros (_ & Hk & Hm & Hi & _) He. pose proof (fields_checked ext) as H.
  unfold fields_check in H. unfold fecDataShardsMax in Hk.
  rewrite forallb_forall in H. specialize (H (DataShards p)).
  rewrite forallb_forall in H. specialize (H ltac:(apply list_elem_of_In, elem_of_seqZ; lia) (ParityShards p)).
  rewrite forallb_forall in H. specialize (H ltac:(apply list_elem_of_In, elem_of_seqZ; lia) (Index p)).
  specialize (H ltac:(apply list_elem_of_In, elem_of_seqZ; lia)).
  apply andb_prop in H as [H1%bool_decide_eq_true H2%bool_decide_eq_true].
  destruct p; simpl in *; subst; done.
Qed.

Lemma applyToFrame_wf p f f' :
  applyToFrame p f = Some f' → 0 ≤ BaseSeq p →
  BaseSeq p + (DataShards p - 1) ≤ max_u64 → shard_wf (Ext p) p.
Proof.
  unfold applyToFrame, shard_wf, parity_max. intros H Hb0 Hb.
  destruct (Ext p); repeat case_match; try done; rewrite !orb_false_iff in *;
    repeat match goal with H : _ ∧ _ |- _ => destruct H end; lia.
Qed.

Lemma parse_wf f ext p :
  parseFECParityFrameExt f ext = Ok p → 0 ≤ Seq f →
  shard_wf ext p ∧ Ext p = false ∧ Cmd f = CMD_FEC ∧ BaseSeq p = Seq f ∧ PData p = Data f.
Proof.
  unfold parseFECParityFrameExt, shard_wf.
  destruct (negb (Cmd f =? CMD_FEC)) eqn:Hc; simpl; [done|].
  destruct (Seq f =? 0) eqn:Hs; simpl; [done|].
  destruct (len (Data f) <? fecLengthPrefixSize) eqn:Hl; simpl; [done|].
  match goal with |- context [mkParity _ ?k ?m ?i _ _] =>
    generalize k, m, i; intros k' m' i' end.
  change (if ext then fecParityShardsExtMax else fecParityShardsMax) with (parity_max ext).
  destruct (_ || _) eqn:Hg; simpl in *; [done|].
  rewrite !orb_false_iff in Hg. destruct Hg as (((((?&?)&?)&?)&?)&?).
  unfold fecDataShardsMax in *. rewrite u64_small by lia.
  case_match eqn:Hm; intros; simplify_eq; simpl. unfold fecDataShardsMax. repeat split; lia.
Qed.

(** What [applyToFrame] changes. *)
Lemma apply_fields p f f' :
  applyToFrame p f = Some f' →
  Flags f' = Z.lor (Z.ldiff (Flags f) (fecFlagBits (Ext p))) (fecFlags p) ∧
  Cmd f' = Cmd f ∧ Seq f' = BaseSeq p ∧ Data f' = PData p ∧
  SessionID f' = SessionID f ∧ Ack f' = Ack f ∧ WindowSize f' = WindowSize f.
Proof.
  unfold applyToFrame. case_match; [done|]. intros. simplify_eq/=. split; [|done].
  unfold fecFlagBits. destruct (Ext p); [by rewrite ldiff_ldiff|done].
Qed.

Lemma apply_decode p f f' :
  applyToFrame p f = Some f' → shard_wf (Ext p) p →
  decode_fields (Ext p) (Flags f') = (DataShards p, ParityShards p, Index p).
Proof.
  intros Ha Hwf. destruct (fecFlags_decode _ _ Hwf eq_refl) as [<- _].
  apply apply_fields in Ha as [Hfl _].
  assert (Hland : ∀ mask, Z.ldiff mask (fecFlagBits (Ext p)) = 0 →
    Z.land (Flags f') mask = Z.land (fecFlags p) mask).
  { intros mask Hm. rewrite Hfl. by apply land_cleared. }
  unfold decode_fields. rewrite !(Hland fecParityMask), !(Hland fecIndexMask),
    !(Hland fecDataMask) by (by destruct (Ext p)).
  destruct (Ext p) eqn:He; simpl; [|done].
  by rewrite !(Hland fecParityExtFlag), !(Hland fecIndexExtFlag).
Qed.

Lemma apply_parse p f f' :
  applyToFrame p f = Some f' → Cmd f = CMD_FEC →
  0 ≤ BaseSeq p → BaseSeq p + (DataShards p - 1) ≤ max_u64 →
  parseFECParityFrameExt f' (Ext p) = Ok (forget_ext p).
Proof.
  intros Ha Hc Hb Hmax. pose proof (applyToFrame_wf _ _ _ Ha Hb Hmax) as Hwf.
  pose proof (apply_decode _ _ _ Ha Hwf) as Hdec.
  apply apply_fields in Ha as (_ & Hcmd & Hseq & Hdata & _).
  unfold decode_fields in Hdec. injection Hdec as H1 H2 H3.
  destruct Hwf as (W1 & W2 & W3 & W4 & W5 & W6).
  unfold parseFECParityFrameExt. rewrite Hcmd, Hc, Hseq, Hdata. cbn [negb].
  rewrite (proj2 (Z.eqb_neq (BaseSeq p) 0)), (proj2 (Z.ltb_ge _ _)) by lia.
  change (negb (CMD_FEC =? CMD_FEC) || false || false) with false. cbv iota.
  rewrite H1, H2, H3. cbn [DataShards ParityShards Index BaseSeq].
  change (if Ext p then fecParityShardsExtMax else fecParityShardsMax) with (parity_max (Ext p)).
  unfold fecDataShardsMax in *.
  by rewrite !(proj2 (Z.ltb_ge _ _)), (proj2 (Z.leb_gt _ _)) by (rewrite ?u64_small; lia).
Qed.

(** * Property *)

(** What a sender packs into a CMD_FEC frame is what a receiver
    with the same negotiated extension unpacks: parsing the frame [applyToFrame]
    produced gives back the shard's first sequence, geometry, index and data, and
    every flag bit outside the metadata fields (the feedback and capability bits
    among them) is the one the frame had before. *)
Theorem fec_metadata_roundtrip p f f' :
  applyToFrame p f = Some f' →
  Cmd f = CMD_FEC →
  0 ≤ BaseSeq p → BaseSeq p + (DataShards p - 1) ≤ max_u64 →
  parseFECParityFrameExt f' (Ext p) = Ok (forget_ext p) ∧
  Z.ldiff (Flags f') (fecFlagBits (Ext p)) = Z.ldiff (Flags f) (fecFlagBits (Ext p)) ∧
  SessionID f' = SessionID f ∧ Ack f' = Ack f ∧ WindowSize f' = WindowSize f.
Proof.
  intros Ha Hc Hb Hmax. split; [by eapply apply_parse|].
  pose proof (applyToFrame_wf _ _ _ Ha Hb Hmax) as Hwf.
  destruct (fecFlags_decode _ _ Hwf eq_refl) as [_ Hbits].
  apply apply_fields in Ha as (-> & _ & _ & _ & Hrest). split; [|done].
  apply Z.bits_inj'. intros n Hn. apply (f_equal (λ z, Z.testbit z n)) in Hbits.
  rewrite Z.ldiff_spec, Z.bits_0 in Hbits. rewrite !Z.ldiff_spec, Z.lor_spec, Z.ldiff_spec.
  by destruct (Z.testbit (fecFlagBits _) n), (Z.testbit (fecFlags p) n), (Z.testbit (Flags f) n).
Qed.

Lemma fec_metadata_roundtrip_witness :
  let f := mkFrame 0 2 CMD_FEC (FLAG_FEC_FEEDBACK + 2048) 7 0 0 41 9 [] [] in
  let p := mkParity 1000 8 7 6 [0; 3; 1; 2; 3] true in
  ∃ f', applyToFrame p f = Some f' ∧
    parseFECParityFrameExt f' true = Ok (forget_ext p) ∧ Flags f' = 2048 + 0x57e.
Proof.
  intros f p.
  destruct (applyToFrame p f) as [f'|] eqn:H; [|by vm_compute in H].
  exists f'. split; [done|].
  destruct (fec_metadata_roundtrip p f f' H) as [Hp _]; [done|done| |].
  - apply (bool_decide_unpack _). vm_compute. exact I.
  - split; [exact Hp|]. vm_compute in H. injection H as <-. reflexivity.
Defined.
