(* ===== verification/FecBlock.v ===== *)
(** What the two halves of the FEC layer share: the shards of a block, the cache of
    Reed-Solomon codecs ([fecCodecFor] of src/tunnel/fec.go), and the
    specification of a parity shard.

    The specification is relative to [truth], the payload of every DATA sequence
    of the stream: a parity shard is [genuine] when it is the shard of that index
    in the code word of the records its metadata names. *)
From S2P Require Import Prelude Protocol FecLoss FecWire Erasure.
Local Open Scope Z_scope.

Record fecSourceShard := mkSource { seq : Z; payload : bytes }.
Abbreviation fec_block := (list fecSourceShard).

(** A data shard: the payload behind its length, padded to the shard size. *)
Definition dataShard (shardSize : Z) (p : bytes) : bytes :=
  be_bytes 2 (u16 (len p)) ++ p ++ zeros (shardSize - fecLengthPrefixSize - len p).

Definition maxPayload (payloads : list bytes) : Z := foldr (λ p n, Z.max (len p) n) 0 payloads.

Section WithCodec.
Context {RS : ReedSolomon}.

(** * The codec cache *)

Abbreviation codec_map := (gmap Z Encoder).

Definition codecKey (dataShards parityShards : Z) : Z :=
  Z.lor (u16 (Z.shiftl (u16 dataShards) 8)) (u16 parityShards).

Definition fecCodecFor (codecs : codec_map) (dataShards parityShards shardSize : Z) :
    option Encoder * codec_map :=
  let key := codecKey dataShards parityShards in
  match codecs !! key with
  | Some enc => (Some enc, codecs)
  | None =>
      match rs_New dataShards parityShards shardSize with
      | None => (None, codecs)
      | Some enc => (Some enc, <[key := enc]> codecs)
      end
  end.

(** Every cached codec was built for the geometry it is filed under. *)
Definition codecs_ok (codecs : codec_map) : Prop :=
  map_Forall (λ key enc, ∃ k m size, 1 ≤ k ≤ 255 ∧ 1 ≤ m ≤ 255 ∧ key = codecKey k m ∧
                rs_New k m size = Some enc) codecs.

Lemma codecKey_val k m : 1 ≤ k ≤ 255 → 1 ≤ m ≤ 255 → codecKey k m = k * 256 + m.
Proof.
  intros. unfold codecKey. rewrite (u16_small k), (u16_small m) by lia.
  rewrite u16_small by (rewrite Z.shiftl_mul_pow2 by lia; lia).
  rewrite Z.shiftl_mul_pow2 by lia. change (2 ^ 8) with 256.
  rewrite <- Z.add_lor_land. 
  assert (Z.land (k * 256) m = 0) as ->; [|lia].
  apply Z.bits_inj'. intros n Hn. rewrite Z.land_spec, Z.bits_0.
  change 256 with (2 ^ 8). destruct (Z.ltb_spec n 8).
  - by rewrite Z.mul_pow2_bits_low.
  - rewrite (Z.bits_above_log2 m n), andb_false_r; [done|lia|].
    assert (Z.log2 m < 8); [|lia]. apply Z.log2_lt_pow2; lia.
Qed.

Lemma codecs_ok_empty : codecs_ok ∅.
Proof. apply map_Forall_empty. Qed.

Lemma fecCodecFor_ok codecs k m size oe codecs' :
  codecs_ok codecs → 1 ≤ k ≤ 255 → 1 ≤ m ≤ 255 →
  fecCodecFor codecs k m size = (oe, codecs') →
  codecs_ok codecs' ∧ (∀ enc, oe = Some enc → ∃ size', rs_New k m size' = Some enc) ∧
  (oe = None → rs_New k m size = None).
Proof.
  intros Hc Hk Hm. unfold fecCodecFor. case_match eqn:Hl; [|case_match eqn:Hn];
    intros; simplify_eq; split_and!; try done.
  - intros enc [= ->]. destruct (Hc _ _ Hl) as (k' & m' & size' & ? & ? & Hkey & Hnew).
    rewrite !codecKey_val in Hkey by lia.
    assert (k' = k) as -> by lia. assert (m' = m) as -> by lia. by exists size'.
  - apply map_Forall_insert_2; [|done]. by exists k, m, size.
  - intros enc [= ->]. by exists size.
Qed.

End WithCodec.

(** * Genuine parity *)

Section Genuine.
Context (parity_of : Z → Z → list bytes → list bytes) (truth : gmap Z bytes).

Definition payload_at (q : Z) : bytes := default [] (truth !! q).

Definition block_payloads (base k : Z) : list bytes :=
  map (λ i, payload_at (base + i)) (seqZ 0 k).

Definition block_size (base k : Z) : Z := fecLengthPrefixSize + maxPayload (block_payloads base k).

Definition block_data (base k : Z) : list bytes :=
  map (dataShard (block_size base k)) (block_payloads base k).

Definition codeword (base k m : Z) : list bytes :=
  block_data base k ++ parity_of k m (block_data base k).

Definition genuine (ext : bool) (p : fecParityShard) : Prop :=
  shard_wf ext p ∧
  (∀ i, 0 ≤ i < DataShards p → is_Some (truth !! (BaseSeq p + i))) ∧
  block_size (BaseSeq p) (DataShards p) ≤ UDPC_MAX_DATA ∧
  len (PData p) = block_size (BaseSeq p) (DataShards p) ∧
  codeword (BaseSeq p) (DataShards p) (ParityShards p)
    !! Z.to_nat (DataShards p + Index p) = Some (PData p).

Lemma maxPayload_ge ps p : p ∈ ps → len p ≤ maxPayload ps.
Proof. induction 1; simpl; lia. Qed.
Lemma maxPayload_nonneg ps : 0 ≤ maxPayload ps.
Proof. induction ps as [|p ps IH]; simpl; [lia|]. lia. Qed.

Lemma len_dataShard size p :
  fecLengthPrefixSize + len p ≤ size → len (dataShard size p) = size.
Proof.
  intros. unfold dataShard, fecLengthPrefixSize in *. autorewrite with len.
  rewrite len_zeros by lia. lia.
Qed.

Lemma len_block_payloads base k : 0 ≤ k → len (block_payloads base k) = k.
Proof. intros. unfold block_payloads, len. rewrite length_map, length_seqZ. lia. Qed.

Lemma block_payloads_elem base k i : 0 ≤ i < k → payload_at (base + i) ∈ block_payloads base k.
Proof.
  intros. unfold block_payloads. apply list_elem_of_fmap. exists i. split; [done|].
  apply elem_of_seqZ. lia.
Qed.

Lemma payload_fits base k i :
  0 ≤ i < k → fecLengthPrefixSize + len (payload_at (base + i)) ≤ block_size base k.
Proof.
  intros. unfold block_size. pose proof (maxPayload_ge _ _ (block_payloads_elem base k i ltac:(done))).
  lia.
Qed.

Lemma block_data_shape base k :
  0 ≤ k → shards_shape k (block_size base k) (block_data base k).
Proof.
  intros Hk. split; [|split].
  - unfold block_data, len. rewrite length_map. by apply len_block_payloads.
  - unfold block_size, fecLengthPrefixSize. pose proof (maxPayload_nonneg (block_payloads base k)). lia.
  - unfold block_data. apply Forall_fmap, Forall_forall. intros p Hp. simpl.
    apply len_dataShard. unfold block_size. pose proof (maxPayload_ge _ _ Hp). lia.
Qed.

Lemma block_data_lookup base k i :
  0 ≤ i < k →
  block_data base k !! Z.to_nat i = Some (dataShard (block_size base k) (payload_at (base + i))).
Proof.
  intros. unfold block_data. apply list_lookup_fmap_Some.
  exists (payload_at (base + i)). split; [done|].
  unfold block_payloads. apply list_lookup_fmap_Some. exists i. split; [done|].
  apply lookup_seqZ. lia.
Qed.

End Genuine.
