(* ===== verification/FecSender.v ===== *)
(** The sending half of the FEC layer: [fecSender] of src/tunnel/fec.go.

    [add] and [flushTimer] are called by the record path and by timer goroutines;
    each is a critical section that may detach blocks, after which [emitBlock]
    runs without the lock, in two parts of its own: the block is counted
    ([emitCount]) and later encoded ([emitParity]).  [fec_step] interleaves the
    parts freely.  Emitted parity shards are outputs; pooled buffers and the
    send callback's effects are not modelled. *)
From S2P Require Import Prelude F64 Protocol Rtt FecLoss FecWire Erasure FecBlock.
Local Open Scope Z_scope.

Definition fecBootstrapBlocks : Z := 4.
Definition fecMemoMinBlocks : Z := 32.
Definition fecFlushDelay : Z := 15 * millisecond.

(** [block[i].seq == block[0].seq+uint64(i)] for every i. *)
Fixpoint contiguous (next : Z) (block : fec_block) : bool :=
  match block with
  | [] => true
  | src :: block => (seq src =? next) && contiguous (u64 (next + 1)) block
  end.

Section WithCodec.
Context {RS : ReedSolomon}.

(** * The sender *)

Record fecSender := mkSender {
  spending : fec_block;
  stimer : option Z;  (* the generation the armed timer carries *)
  flushGen : Z;
  sclosed : bool;
  blocks : Z;
  adaptive : fecAdaptiveLoss;
  extParity : bool;
  scodecs : gmap Z Encoder;
  emits : bool;  (* emit != nil *)
}.

Definition newFECSenderExt (emits extParity : bool) : fecSender :=
  mkSender [] None 0 false 0 adaptive_zero extParity ∅ emits.

Definition set_pending (s : fecSender) (p : fec_block) (t : option Z) (gen : Z) : fecSender :=
  mkSender p t gen (sclosed s) (blocks s) (adaptive s) (extParity s) (scodecs s) (emits s).
Definition set_blocks (s : fecSender) (n : Z) : fecSender :=
  mkSender (spending s) (stimer s) (flushGen s) (sclosed s) n (adaptive s) (extParity s)
    (scodecs s) (emits s).
Definition set_adaptive (s : fecSender) (a : fecAdaptiveLoss) : fecSender :=
  mkSender (spending s) (stimer s) (flushGen s) (sclosed s) (blocks s) a (extParity s)
    (scodecs s) (emits s).
Definition set_codecs (s : fecSender) (c : gmap Z Encoder) : fecSender :=
  mkSender (spending s) (stimer s) (flushGen s) (sclosed s) (blocks s) (adaptive s) (extParity s)
    c (emits s).

Definition memoSnapshot (s : fecSender) : option f64 :=
  if blocks s <? fecMemoMinBlocks then None else Some (local_loss (adaptive s)).

Definition seedLoss (s : fecSender) (loss : f64) : fecSender :=
  set_adaptive s (mkAdaptive (observeValue (local_loss (adaptive s)) loss (f64_of_int 1))
                    (remote_loss (adaptive s))).

Definition detachLocked (s : fecSender) : fec_block * fecSender :=
  if len (spending s) =? 0 then ([], s)
  else (spending s, set_pending s [] None (flushGen s)).

(** The skip on a clean path. *)
Definition cleanPath (s : fecSender) : bool :=
  (len (spending s) =? 0) && (fecBootstrapBlocks <=? blocks s) &&
  (fecParityForLoss (adaptive_loss (adaptive s)) =? 0).

(** The append of [add], arming a timer for a fresh block. *)
Definition appendPending (s : fecSender) (sq : Z) (p : bytes) : fecSender :=
  let s := set_pending s (spending s ++ [mkSource sq p]) (stimer s) (flushGen s) in
  if len (spending s) =? 1 then
    let gen := i64 (flushGen s + 1) in set_pending s (spending s) (Some gen) gen
  else s.

(** The critical section of [add]: the blocks it detaches, in order. *)
Definition addLocked (s : fecSender) (sq : Z) (p : bytes) : list fec_block * fecSender :=
  if (sq =? 0) || (len p =? 0) then ([], s) else
  if sclosed s then ([], s) else
  if cleanPath s then ([], s) else
  let '(b1, s) :=
    match last (spending s) with
    | Some src => if negb (sq =? u64 (seq src + 1))
                  then let '(b, s) := detachLocked s in ([b], s) else ([], s)
    | None => ([], s)
    end in
  let s := appendPending s sq p in
  if fecDataShardsMax <=? len (spending s) then
    let '(b, s) := detachLocked s in (b1 ++ [b], s)
  else (b1, s).

(** The critical section of [flushTimer]. *)
Definition flushLocked (s : fecSender) (gen : Z) : fec_block * fecSender :=
  if sclosed s || negb (gen =? flushGen s) then ([], s) else detachLocked s.

(** The checks before the block is counted: the shard size. *)
Definition emitShardSize (s : fecSender) (block : fec_block) : option Z :=
  match block with
  | [] => None
  | src :: rest =>
      if negb (emits s) then None else
      if negb (contiguous (u64 (seq src + 1)) rest) then None else
      let shardSize := fecLengthPrefixSize + maxPayload (map payload block) in
      if (shardSize <? fecLengthPrefixSize) || (UDPC_MAX_DATA <? shardSize) then None
      else Some shardSize
  end.

(** [s.blocks++], with the block's number; [None] if nothing will be emitted. *)
Definition emitCount (s : fecSender) (block : fec_block) : option Z * fecSender :=
  match emitShardSize s block with
  | None => (None, s)
  | Some _ =>
      if sclosed s then (None, s)
      else let n := u64 (blocks s + 1) in (Some n, set_blocks s n)
  end.

(** How many parity shards a block gets. *)
Definition parityCount (s : fecSender) (blockNo dataShards : Z) : Z :=
  let parityShards := fecParityForLossExt (adaptive_loss (adaptive s)) (extParity s) in
  let parityShards := if (blockNo <=? fecBootstrapBlocks) && (parityShards <? 1)
                      then 1 else parityShards in
  let parityShards := if dataShards - 1 <? parityShards then dataShards - 1 else parityShards in
  if parityShards <=? 0 then parityShards else
  let maxParity := if extParity s then fecParityShardsExtMax else fecParityShardsMax in
  if maxParity <? parityShards then maxParity else parityShards.

Definition parityFrame (s : fecSender) (block : fec_block) (m : Z) (shards : list bytes)
    (i : Z) : fecParityShard :=
  mkParity (match block with src :: _ => seq src | [] => 0 end) (len block) m i
    (nth (Z.to_nat (len block + i)) shards []) (extParity s).

(** The encoding and the shards handed to [emit]. *)
Definition emitParity (s : fecSender) (block : fec_block) (blockNo : Z) :
    list fecParityShard * fecSender :=
  match emitShardSize s block with
  | None => ([], s)
  | Some shardSize =>
      let k := len block in
      let m := parityCount s blockNo k in
      if m <=? 0 then ([], s) else
      let shards := map (dataShard shardSize) (map payload block) ++
                    replicate (Z.to_nat m) (zeros shardSize) in
      let '(enc, cs) := fecCodecFor (scodecs s) k m shardSize in
      let s := set_codecs s cs in
      match enc with
      | None => ([], s)
      | Some enc =>
          match rs_Encode enc shards with
          | None => ([], s)
          | Some shards => (map (parityFrame s block m shards) (seqZ 0 m), s)
          end
      end
  end.

Definition emitBlock (s : fecSender) (block : fec_block) : list fecParityShard * fecSender :=
  match emitCount s block with
  | (None, s) => ([], s)
  | (Some n, s) => emitParity s block n
  end.

Definition emitBlocks (s : fecSender) (bs : list fec_block) : list fecParityShard * fecSender :=
  foldl (λ '(out, s) b, let '(o, s) := emitBlock s b in (out ++ o, s)) ([], s) bs.

(** [add], run to completion by one goroutine. *)
Definition fec_add (s : fecSender) (sq : Z) (p : bytes) : list fecParityShard * fecSender :=
  let '(bs, s) := addLocked s sq p in emitBlocks s bs.

Definition flushTimer (s : fecSender) (gen : Z) : list fecParityShard * fecSender :=
  let '(b, s) := flushLocked s gen in emitBlock s b.

Definition fec_close (s : fecSender) : fecSender :=
  if sclosed s then s else
  mkSender [] None (flushGen s) true (blocks s) (adaptive s) (extParity s) (scodecs s) (emits s).

(** * Interleavings

    [detached] are blocks whose goroutine has not counted them yet, [counted]
    blocks that are counted and not encoded. *)

Record fec_state := mkState {
  snd_ : fecSender;
  detached : list fec_block;
  counted : list (fec_block * Z);
}.

Inductive fec_op :=
| OpAdd (sq : Z) (p : bytes)
| OpTimer (gen : Z)
| OpCount (i : nat)
| OpEncode (i : nat)
| OpAck (retransmitted : bool)
| OpRemote (bp : Z)
| OpSeed (loss : f64)
| OpClose.

Definition drop_at {A} (i : nat) (l : list A) : list A := take i l ++ drop (S i) l.

Definition fec_step (st : fec_state) (o : fec_op) : list fecParityShard * fec_state :=
  let s := snd_ st in
  match o with
  | OpAdd sq p =>
      let '(bs, s) := addLocked s sq p in ([], mkState s (detached st ++ bs) (counted st))
  | OpTimer gen =>
      let '(b, s) := flushLocked s gen in ([], mkState s (detached st ++ [b]) (counted st))
  | OpCount i =>
      match detached st !! i with
      | None => ([], st)
      | Some b =>
          let '(n, s) := emitCount s b in
          ([], mkState s (drop_at i (detached st))
                 (match n with Some n => counted st ++ [(b, n)] | None => counted st end))
      end
  | OpEncode i =>
      match counted st !! i with
      | None => ([], st)
      | Some (b, n) =>
          let '(out, s) := emitParity s b n in
          (out, mkState s (detached st) (drop_at i (counted st)))
      end
  | OpAck r => ([], mkState (set_adaptive s (observeAck (adaptive s) r)) (detached st) (counted st))
  | OpRemote bp =>
      ([], mkState (set_adaptive s (observeRemoteBasisPoints (adaptive s) bp)) (detached st) (counted st))
  | OpSeed loss => ([], mkState (seedLoss s loss) (detached st) (counted st))
  | OpClose => ([], mkState (fec_close s) (detached st) (counted st))
  end.

Fixpoint fec_run (st : fec_state) (ops : list fec_op) : list fecParityShard * fec_state :=
  match ops with
  | [] => ([], st)
  | o :: ops =>
      let '(out, st) := fec_step st o in
      let '(outs, st) := fec_run st ops in (out ++ outs, st)
  end.

End WithCodec.

(** * The stream invariant *)

Section SenderInvariant.
Context {RS : ReedSolomon} {parity_of : Z → Z → list bytes → list bytes}.
Context (Hlaws : rs_laws parity_of) (truth : gmap Z bytes).

Definition source_ok (src : fecSourceShard) : Prop :=
  0 < seq src ≤ max_u64 ∧ truth !! seq src = Some (payload src).

Definition block_ok (b : fec_block) : Prop := len b ≤ fecDataShardsMax ∧ Forall source_ok b.

Definition op_ok (o : fec_op) : Prop :=
  match o with
  | OpAdd sq p => 0 ≤ sq ≤ max_u64 ∧ (sq ≠ 0 → truth !! sq = Some p)
  | _ => True
  end.

Record sender_inv (s : fecSender) : Prop := {
  si_pending : Forall source_ok (spending s);
  si_short : len (spending s) < fecDataShardsMax;
  si_timer : spending s ≠ [] → stimer s = Some (flushGen s);
  si_closed : sclosed s = true → spending s = [];
  si_codecs : codecs_ok (scodecs s);
}.

Record state_inv (st : fec_state) : Prop := {
  st_sender : sender_inv (snd_ st);
  st_detached : Forall block_ok (detached st);
  st_counted : Forall (λ '(b, _), block_ok b) (counted st);
}.

Lemma new_inv e ext : state_inv (mkState (newFECSenderExt e ext) [] []).
Proof. by split. Qed.

Lemma detach_inv s b s' :
  sender_inv s → detachLocked s = (b, s') →
  block_ok b ∧ sender_inv s' ∧ spending s' = [] ∧ extParity s' = extParity s ∧ sclosed s' = sclosed s.
Proof.
  intros [Hp Hl Ht Hcl Hc]. unfold detachLocked. case_match eqn:He; intros; simplify_eq.
  - apply Z.eqb_eq, len_nil_inv in He. split_and!; try done.
  - split_and!; try done. split; [unfold fecDataShardsMax in *; lia|done].
Qed.

Lemma append_inv s sq p :
  sender_inv s → source_ok (mkSource sq p) →
  let s' := appendPending s sq p in
  Forall source_ok (spending s') ∧ spending s' = spending s ++ [mkSource sq p] ∧
  stimer s' = Some (flushGen s') ∧ codecs_ok (scodecs s') ∧ extParity s' = extParity s ∧
  sclosed s' = sclosed s.
Proof.
  intros [Hp Hl Ht Hcl Hc] Hs s'. unfold s', appendPending. cbn [spending set_pending].
  assert (Forall source_ok (spending s ++ [mkSource sq p])) by (apply Forall_app; by rewrite Forall_singleton).
  case_match eqn:He; cbn; split_and!; try done.
  apply Ht. intros Hn. rewrite Hn in He. done.
Qed.

Lemma add_inv s sq p bs s' :
  sender_inv s → op_ok (OpAdd sq p) → addLocked s sq p = (bs, s') →
  Forall block_ok bs ∧ sender_inv s' ∧ extParity s' = extParity s.
Proof.
  intros Hi [Hsq Htr]. unfold addLocked.
  destruct (sq =? 0) eqn:Hz; simpl; [by intros [= <- <-]|].
  destruct (len p =? 0); [by intros [= <- <-]|].
  destruct (sclosed s) eqn:Hcl; [by intros [= <- <-]|].
  destruct (cleanPath s); [by intros [= <- <-]|].
  assert (Hso : source_ok (mkSource sq p)) by (split; simpl; [lia|apply Htr; lia]).
  match goal with |- (let '(_, _) := ?r in _) = _ → _ => destruct r as [b1 s1] eqn:Hd end.
  assert (Forall block_ok b1 ∧ sender_inv s1 ∧ extParity s1 = extParity s ∧ sclosed s1 = false)
    as (Hb1 & Hi1 & He1 & Hcl1).
  { destruct (last (spending s)) as [src|]; [|by simplify_eq].
    destruct (negb _); [|by simplify_eq].
    destruct (detachLocked s) as [b s2] eqn:Hdt. simplify_eq.
    apply detach_inv in Hdt as (? & ? & ? & ? & ?); [|done]. split_and!; auto. congruence. }
  destruct (append_inv s1 sq p Hi1 Hso) as (Hp & Heq & Ht & Hc & He & Hcl2).
  set (s2 := appendPending s1 sq p) in *.
  assert (Hlen : len (spending s2) ≤ fecDataShardsMax).
  { rewrite Heq. autorewrite with len. pose proof (si_short _ Hi1). lia. }
  destruct (fecDataShardsMax <=? len (spending s2)) eqn:Hfull; [|intros [= <- <-]].
  - unfold detachLocked. rewrite (proj2 (Z.eqb_neq _ 0)) by (unfold fecDataShardsMax in *; lia).
    intros [= <- <-]. split_and!; [|split; cbn; try done|cbn; congruence].
    apply Forall_app. split; [done|]. by constructor.
  - split_and!; [done| |congruence]. split; try done; [lia|congruence].
Qed.

Lemma drop_at_Forall {A} (P : A → Prop) i l : Forall P l → Forall P (drop_at i l).
Proof. intros. unfold drop_at. apply Forall_app. split; [by apply Forall_take|by apply Forall_drop]. Qed.

(** A contiguous block is a range of the stream. *)
Lemma contiguous_payloads block next :
  contiguous next block = true → Forall source_ok block → 0 ≤ next ≤ max_u64 →
  map payload block = map (λ i, payload_at truth (next + i)) (seqZ 0 (len block)) ∧
  (block ≠ [] → next + len block - 1 ≤ max_u64) ∧
  (∀ i, 0 ≤ i < len block → is_Some (truth !! (next + i))).
Proof.
  revert next. induction block as [|src block IH]; intros next Hc Hok Hn.
  { split_and!; [done|done|]. unfold len. simpl. lia. }
  apply Forall_cons in Hok as [[Hr Ht] Hok]. simpl in Hc. apply andb_prop in Hc as [Hs Hc].
  apply Z.eqb_eq in Hs. pose proof (len_nonneg block).
  destruct block as [|src2 block].
  - simpl. rewrite Hs in Ht. split_and!.
    + unfold payload_at. simpl. by rewrite Z.add_0_r, Ht.
    + intros _. autorewrite with len. change (len (@nil fecSourceShard)) with 0. lia.
    + intros i. change (len [src]) with 1. intros ?. assert (i = 0) as -> by lia.
      rewrite Z.add_0_r. by eexists.
  - assert (next < max_u64) as Hlt.
    { simpl in Hc. apply andb_prop in Hc as [Hc _]. apply Z.eqb_eq in Hc.
      apply Forall_cons in Hok as [[Hr2 _] _]. destruct (Z.eq_dec next max_u64) as [->|]; [|lia].
      change (u64 (max_u64 + 1)) with 0 in Hc. lia. }
    rewrite u64_small in Hc by (unfold max_u64 in *; lia).
    destruct (IH (next + 1) Hc Hok ltac:(lia)) as (Hm & Hmax & Hsome).
    rewrite len_cons. split_and!.
    + rewrite map_cons, Hm. rewrite (seqZ_cons 0 (len _ + 1)) by lia. rewrite map_cons.
      f_equal; [unfold payload_at; rewrite Z.add_0_r, <- Hs, Ht; done|].
      replace (Z.pred (len (src2 :: block) + 1)) with (len (src2 :: block)) by lia.
      change (Z.succ 0) with (1 + 0).
      rewrite <- (fmap_add_seqZ 1 0). rewrite <- list_fmap_compose. apply map_ext.
      intros i. simpl. f_equal. lia.
    + intros _. specialize (Hmax ltac:(done)). lia.
    + intros i Hi. destruct (Z.eq_dec i 0) as [->|].
      * rewrite Z.add_0_r, <- Hs. by eexists.
      * replace (next + i) with (next + 1 + (i - 1)) by lia. apply Hsome. lia.
Qed.

(** What passes the checks is a block of the stream of that shard size. *)
Lemma emitShardSize_block s block size :
  emitShardSize s block = Some size → block_ok block →
  ∃ base, (match block with src :: _ => seq src | [] => 0 end) = base ∧
    0 < base ∧ base + (len block - 1) ≤ max_u64 ∧ 1 ≤ len block ≤ fecDataShardsMax ∧
    map payload block = block_payloads truth base (len block) ∧
    size = block_size truth base (len block) ∧ size ≤ UDPC_MAX_DATA ∧
    (∀ i, 0 ≤ i < len block → is_Some (truth !! (base + i))).
Proof.
  unfold emitShardSize. destruct block as [|src rest]; [done|]. intros H [Hlen Hok].
  destruct (negb (emits s)); [done|]. destruct (negb (contiguous _ _)) eqn:Hc; [done|].
  apply negb_false_iff in Hc. case_match eqn:Hsz; [done|]. injection H as <-.
  pose proof (proj1 (Forall_cons _ _ _) Hok) as [[Hr _] _].
  assert (Hcc : contiguous (seq src) (src :: rest) = true) by (simpl; by rewrite Z.eqb_refl).
  destruct (contiguous_payloads _ _ Hcc Hok ltac:(lia)) as (Hm & Hmax & Hsome).
  specialize (Hmax ltac:(done)). pose proof (len_nonneg rest). pose proof (len_cons src rest).
  apply orb_false_iff in Hsz as [_ Hsz].
  exists (seq src). unfold block_size, block_payloads. apply Z.ltb_ge in Hsz.
  split_and!; try done; try lia; by rewrite <- Hm.
Qed.

Lemma parityCount_bounds s n k :
  0 < parityCount s n k →
  parityCount s n k ≤ k - 1 ∧ parityCount s n k ≤ parity_max (extParity s).
Proof.
  unfold parityCount. set (m0 := fecParityForLossExt _ _).
  change (if extParity s then fecParityShardsExtMax else fecParityShardsMax)
    with (parity_max (extParity s)).
  assert (1 ≤ parity_max (extParity s)) by (by destruct (extParity s)).
  repeat case_match; lia.
Qed.

(** The shards of an encoded block are genuine. *)
Lemma parityFrame_genuine s block size m :
  emitShardSize s block = Some size → block_ok block →
  (∃ enc size', rs_New (len block) m size' = Some enc) →
  1 ≤ m ≤ parity_max (extParity s) →
  let data := map (dataShard size) (map payload block) in
  Forall (λ p, genuine parity_of truth (extParity s) p ∧ Ext p = extParity s ∧
    DataShards p = len block ∧ ParityShards p = m)
    (map (parityFrame s block m (data ++ parity_of (len block) m data)) (seqZ 0 m)).
Proof.
  intros Hsz Hb (enc & size' & Hnew) Hm data.
  destruct (emitShardSize_block _ _ _ Hsz Hb)
    as (base & Hbase & Hpos & Hmax & Hk & Hpay & -> & Hfit & Hsome).
  assert (Hdata : data = block_data truth base (len block)) by (unfold data; by rewrite Hpay).
  pose proof (block_data_shape truth base (len block) ltac:(lia)) as Hshape.
  pose proof (rs_parity_shape _ Hlaws _ _ _ _ _ _ Hnew Hshape) as (Hpl & Hn & Hpar).
  rewrite Hdata. apply Forall_fmap, Forall_forall. intros i [Hi0 Hi]%elem_of_seqZ. simpl.
  unfold parityFrame. rewrite Hbase. destruct Hshape as (Hdl & _ & _).
  set (par := parity_of _ _ _) in *.
  destruct (lookup_lt_is_Some_2 par (Z.to_nat i)) as [x Hx]; [unfold len in Hpl; lia|].
  assert (Hnth : (block_data truth base (len block) ++ par) !! Z.to_nat (len block + i) = Some x).
  { rewrite lookup_app_r; unfold len in *; [rewrite <- Hx; f_equal; lia|lia]. }
  rewrite (nth_lookup_Some _ _ [] _ Hnth).
  assert (Hxl : len x = block_size truth base (len block)) by (by eapply Forall_lookup_1 in Hpar).
  split_and!; try done; unfold genuine, shard_wf; cbn [BaseSeq DataShards ParityShards Index PData].
  split_and!; try done; try lia.
  unfold block_size in Hxl. pose proof (maxPayload_nonneg (block_payloads truth base (len block))). lia.
Qed.

Lemma emit_genuine s b n out s' :
  codecs_ok (scodecs s) → block_ok b → emitParity s b n = (out, s') →
  Forall (λ p, genuine parity_of truth (extParity s) p ∧ Ext p = extParity s ∧
            DataShards p = len b ∧ ParityShards p < len b) out ∧
  codecs_ok (scodecs s') ∧ spending s' = spending s ∧ stimer s' = stimer s ∧
  flushGen s' = flushGen s ∧ extParity s' = extParity s ∧ sclosed s' = sclosed s.
Proof.
  intros Hc Hb. unfold emitParity.
  destruct (emitShardSize s b) as [size|] eqn:Hsz; [|by intros [= <- <-]].
  destruct (parityCount s n (len b) <=? 0) eqn:Hm0; [by intros [= <- <-]|].
  destruct (parityCount_bounds s n (len b)) as [Hm1 Hm2]; [lia|].
  set (m := parityCount s n (len b)) in *.
  destruct (emitShardSize_block _ _ _ Hsz Hb) as (base & _ & _ & _ & Hk & Hpay & Hsize & _ & _).
  unfold fecDataShardsMax in Hk. pose proof (fecParityShardsMax_le (extParity s)).
  destruct (fecCodecFor _ _ _ _) as [oe cs] eqn:Hcodec.
  destruct (fecCodecFor_ok _ (len b) m size _ _ Hc ltac:(lia) ltac:(lia) Hcodec) as (Hcs & Hnew & _).
  destruct oe as [enc|]; [|by intros [= <- <-]].
  destruct (Hnew enc eq_refl) as [size' Hsome].
  assert (Hshape : shards_shape (len b) size (map (dataShard size) (map payload b))).
  { rewrite Hpay, Hsize. apply block_data_shape. lia. }
  rewrite (rs_encode _ Hlaws _ _ _ _ _ _ Hsome Hshape).
  intros [= <- <-]. split; [|done]. cbn [set_codecs].
  pose proof (parityFrame_genuine s b size m Hsz Hb ltac:(eauto) ltac:(lia)) as Hg.
  eapply Forall_impl; [exact Hg|]. intros p (? & ? & Hd & Hps). cbv beta. split_and!; try done.
  rewrite Hps. lia.
Qed.

(** A whole [emitBlock], and the blocks of one call. *)
Lemma emitBlock_inv s b out s' :
  sender_inv s → block_ok b → emitBlock s b = (out, s') →
  Forall (λ p, genuine parity_of truth (extParity s) p ∧ Ext p = extParity s) out ∧
  sender_inv s' ∧ extParity s' = extParity s.
Proof.
  intros Hs Hb. unfold emitBlock.
  assert (Hcount : sender_inv (emitCount s b).2 ∧ extParity (emitCount s b).2 = extParity s).
  { unfold emitCount. repeat case_match; cbn; try done. split; [destruct Hs; by split|done]. }
  destruct (emitCount s b) as [[n|] s1]; cbn [snd] in Hcount; destruct Hcount as [H1 E1]; [|by intros [= <- <-]].
  intros He. pose proof H1 as [H2 H3 H4 H5 H6].
  destruct (emit_genuine s1 b n _ _ H6 Hb He) as (Hg & Hc & Hp & Htm & Hfg & Hx & Hcl). rewrite E1 in *.
  split_and!; [|split; rewrite ?Hp, ?Htm, ?Hfg, ?Hcl; done|congruence].
  eapply Forall_impl; [exact Hg|]. intros q (? & ? & _). done.
Qed.

Lemma emitBlocks_inv s bs out s' :
  sender_inv s → Forall block_ok bs → emitBlocks s bs = (out, s') →
  Forall (λ p, genuine parity_of truth (extParity s) p ∧ Ext p = extParity s) out ∧
  sender_inv s' ∧ extParity s' = extParity s.
Proof.
  unfold emitBlocks. intros Hs Hbs.
  assert (Hgen : ∀ acc s0, sender_inv s0 → extParity s0 = extParity s →
    Forall (λ p, genuine parity_of truth (extParity s) p ∧ Ext p = extParity s) acc →
    foldl (λ '(out, s) b, let '(o, s) := emitBlock s b in (out ++ o, s)) (acc, s0) bs = (out, s') →
    Forall (λ p, genuine parity_of truth (extParity s) p ∧ Ext p = extParity s) out ∧
    sender_inv s' ∧ extParity s' = extParity s); [|by apply Hgen].
  induction Hbs as [|b bs Hb _ IH]; intros acc s0 H0 E0 Ha; cbn [foldl]; [by intros [= <- <-]|].
  destruct (emitBlock s0 b) as [o s1] eqn:He. destruct (emitBlock_inv _ _ _ _ H0 Hb He) as (Hg & H1 & E1).
  rewrite E0 in *. apply IH; [done|congruence|by apply Forall_app].
Qed.

Lemma fec_add_inv s sq p out s' :
  sender_inv s → 0 ≤ sq ≤ max_u64 → truth !! sq = Some p → fec_add s sq p = (out, s') →
  Forall (λ p, genuine parity_of truth (extParity s) p ∧ Ext p = extParity s) out ∧
  sender_inv s' ∧ extParity s' = extParity s.
Proof.
  intros Hs Hsq Ht. unfold fec_add. destruct (addLocked s sq p) as [bs s1] eqn:Ha. intros He.
  destruct (add_inv _ _ _ _ _ Hs (conj Hsq (λ _, Ht)) Ha) as (Hb & H1 & E1). rewrite <- E1.
  destruct (emitBlocks_inv _ _ _ _ H1 Hb He) as (? & ? & ?). done.
Qed.

Lemma flushTimer_inv s gen out s' :
  sender_inv s → flushTimer s gen = (out, s') →
  Forall (λ p, genuine parity_of truth (extParity s) p ∧ Ext p = extParity s) out ∧
  sender_inv s' ∧ extParity s' = extParity s.
Proof.
  intros Hs. unfold flushTimer, flushLocked. destruct (sclosed s || _).
  { by apply emitBlock_inv. }
  destruct (detachLocked s) as [b s1] eqn:Hd. destruct (detach_inv _ _ _ Hs Hd) as (Hb & H1 & _ & E1 & _).
  rewrite <- E1. by apply emitBlock_inv.
Qed.

Lemma fec_close_inv s : sender_inv s → sender_inv (fec_close s).
Proof. intros Hs. unfold fec_close. case_match; [done|]. destruct Hs. by split. Qed.

Lemma set_adaptive_inv s a : sender_inv s → sender_inv (set_adaptive s a).
Proof. intros []. by split. Qed.

Lemma fec_step_inv st o out st' :
  state_inv st → op_ok o → fec_step st o = (out, st') →
  state_inv st' ∧ extParity (snd_ st') = extParity (snd_ st) ∧
  Forall (λ p, genuine parity_of truth (extParity (snd_ st)) p ∧ Ext p = extParity (snd_ st) ∧
            ParityShards p < DataShards p) out.
Proof.
  intros [Hs Hd Hc] Ho. destruct st as [s dt ct]; cbn [snd_ detached counted] in *.
  destruct o; cbn [fec_step snd_ detached counted].
  - destruct (addLocked s sq p) as [bs s1] eqn:Ha. intros [= <- <-].
    destruct (add_inv _ _ _ _ _ Hs Ho Ha) as (? & ? & ?). split_and!; [split|..]; try done.
    by apply Forall_app.
  - unfold flushLocked. destruct (sclosed s || _); [intros [= <- <-]|].
    + split_and!; [split|..]; try done. apply Forall_app. split; [done|]. constructor; [|done].
      by split.
    + destruct (detachLocked s) as [b s1] eqn:Hdt. intros [= <- <-].
      destruct (detach_inv _ _ _ Hs Hdt) as (? & ? & ? & ? & ?). split_and!; [split|..]; try done.
      apply Forall_app. by rewrite Forall_singleton.
  - destruct (dt !! i) as [b|] eqn:Hi; [|intros [= <- <-]; by split_and!].
    unfold emitCount. pose proof (Forall_lookup_1 _ _ _ _ Hd Hi).
    assert (sender_inv (set_blocks s (u64 (blocks s + 1)))) by (destruct Hs; by split).
    repeat case_match; intros; simplify_eq; split_and!; try split; cbn; try done;
      auto using drop_at_Forall.
    apply Forall_app. by rewrite Forall_singleton.
  - destruct (ct !! i) as [[b n]|] eqn:Hi; [|intros [= <- <-]; by split_and!].
    destruct (emitParity s b n) as [o1 s1] eqn:He. intros [= <- <-].
    pose proof (Forall_lookup_1 _ _ _ _ Hc Hi) as Hbn. simpl in Hbn. destruct Hs as [? ? Ht ? ?].
    destruct (emit_genuine s b n _ _ ltac:(done) Hbn He) as (Hg & ? & Hp & Htm & Hfg & Hx & Hcl).
    split_and!; [split; cbn; auto using drop_at_Forall|done|].
    + split; rewrite ?Hp, ?Htm, ?Hfg, ?Hcl; done.
    + eapply Forall_impl; [exact Hg|]. intros q (? & ? & ? & ?). split_and!; try done. lia.
  - intros [= <- <-]. split_and!; [split|..]; try done. destruct Hs. by split.
  - intros [= <- <-]. split_and!; [split|..]; try done. destruct Hs. by split.
  - intros [= <- <-]. split_and!; [split|..]; try done. destruct Hs. by split.
  - intros [= <- <-]. unfold fec_close. case_match; split_and!; try split; cbn; try done.
    destruct Hs. by split.
Qed.

Lemma fec_run_inv st ops out st' :
  state_inv st → Forall op_ok ops → fec_run st ops = (out, st') →
  state_inv st' ∧ extParity (snd_ st') = extParity (snd_ st) ∧
  Forall (λ p, genuine parity_of truth (extParity (snd_ st)) p ∧ Ext p = extParity (snd_ st) ∧
            ParityShards p < DataShards p) out.
Proof.
  revert st out. induction ops as [|o ops IH]; intros st out Hi Hops; simpl.
  { by intros [= <- <-]. }
  apply Forall_cons in Hops as [Ho Hops].
  destruct (fec_step st o) as [o1 st1] eqn:H1, (fec_run st1 ops) as [o2 st2] eqn:H2.
  intros [= <- <-]. destruct (fec_step_inv _ _ _ _ Hi Ho H1) as (Hi1 & He1 & Hg1).
  destruct (IH _ _ Hi1 Hops H2) as (Hi2 & He2 & Hg2). rewrite He1 in *.
  split_and!; [done|done|]. by apply Forall_app.
Qed.

End SenderInvariant.

(** * Property *)

(** However additions, flush timers and encodings interleave, every
    parity shard the sender emits is genuine: its metadata names a range of
    records of the stream and its data is the shard of that index in their code
    word.  It always fits a CMD_FEC frame, and a block gets fewer parity shards
    than it has records.  Fewer than 8 records wait at any time, and while any
    wait a timer is armed whose callback detaches exactly them. *)
Theorem fec_sender_genuine `{RS : ReedSolomon} parity_of truth emitting ext ops out st :
  rs_laws parity_of →
  Forall (op_ok truth) ops →
  fec_run (mkState (newFECSenderExt emitting ext) [] []) ops = (out, st) →
  Forall (λ p, genuine parity_of truth ext p ∧ Ext p = ext ∧
            ParityShards p < DataShards p ∧ ∀ f, is_Some (applyToFrame p f)) out ∧
  len (spending (snd_ st)) < fecDataShardsMax ∧
  (spending (snd_ st) ≠ [] →
     ∃ gen, stimer (snd_ st) = Some gen ∧ (flushLocked (snd_ st) gen).1 = spending (snd_ st)).
Proof.
  intros Hlaws Hops Hrun.
  destruct (fec_run_inv Hlaws truth _ _ _ _ (new_inv truth emitting ext) Hops Hrun)
    as ([[Hp Hl Ht Hcl Hc] _ _] & _ & Hout).
  split_and!; [|done|].
  - eapply Forall_impl; [exact Hout|]. cbn. intros p (Hg & He & Hk). split_and!; try done.
    intros f. destruct Hg as ((? & ? & ? & ? & ? & ?) & _ & Hs & Hlen & _).
    unfold applyToFrame. rewrite He.
    change (if ext then fecParityShardsExtMax else fecParityShardsMax) with (parity_max ext).
    destruct (_ || _) eqn:Hx; [|by eexists].
    rewrite !orb_true_iff in Hx. unfold fecLengthPrefixSize, fecDataShardsMax in *. lia.
  - intros Hne. specialize (Ht Hne). exists (flushGen (snd_ st)). split; [done|].
    unfold flushLocked. rewrite Z.eqb_refl. destruct (sclosed (snd_ st)); [by rewrite Hcl in Hne|].
    unfold detachLocked. simpl. by destruct (len _ =? 0) eqn:Hz; [apply Z.eqb_eq, len_nil_inv in Hz|].
Qed.

#[local] Existing Instance xor_code.

#[export] Instance fec_op_ok_dec truth o : Decision (op_ok truth o).
Proof. destruct o; apply _. Defined.

Definition fec_truth : gmap Z bytes :=
  list_to_map (map (λ i, (i, [i; 2 * i; 3])) (seqZ 1 9)).

Definition fec_ops : list fec_op :=
  map (λ i, OpAdd i [i; 2 * i; 3]) (seqZ 1 9) ++ [OpCount 0; OpEncode 0; OpAck true].

Lemma fec_sender_genuine_witness :
  let r := fec_run (mkState (newFECSenderExt true false) [] []) fec_ops in
  len r.1 = 1 ∧ Forall (λ p, genuine xor_parity fec_truth false p) r.1 ∧
  (∃ gen, stimer (snd_ r.2) = Some gen).
Proof.
  intros r. split; [vm_compute; reflexivity|].
  destruct (fec_sender_genuine xor_parity fec_truth true false fec_ops r.1 r.2
    xor_code_laws) as (Hout & _ & Ht).
  - apply (bool_decide_unpack _). vm_compute. exact I.
  - by rewrite <- surjective_pairing.
  - split; [eapply Forall_impl; [exact Hout|]; cbn; tauto|].
    destruct Ht as (gen & Hg & _); [vm_compute; discriminate|by exists gen].
Defined.
