(* ===== verification/FecReceiver.v ===== *)
(** The receiving half of the FEC layer: [fecReceiver] of src/tunnel/fec.go.

    Both entry points run under the receiver's lock and return the records they
    rebuilt.  Go's map iteration order is unspecified: an operation takes the
    order as the argument [range], any function that lists a map's keys.  Times
    are nanoseconds. *)
From S2P Require Import Prelude F64 Protocol Rtt FecLoss FecWire Erasure FecBlock.
Local Open Scope Z_scope.

Definition fecRecentDataLimit : Z := 64.
Definition fecRecentDataHardLimit : Z := 2 * fecRecentDataLimit.
Definition fecMaxPendingBlocks : Z := 16.
Definition fecBlockTTL : Z := 2 * second.

Record fecRecvBlock := mkBlock {
  baseSeq : Z;
  dataShards : Z;
  parityShards : Z;
  shardSize : Z;
  parity : list (option bytes);
  updatedAt : Z;
}.

(** [fecRecovered]: sequence and payload. *)
Abbreviation fecRecovered := (Z * bytes)%type.

Abbreviation block_map := (gmap Z fecRecvBlock).

Definition map_len {A} (m : gmap Z A) : Z := Z.of_nat (size m).

(** A legal iteration order. *)
Definition range_ok (range : block_map → list Z) : Prop := ∀ m, range m ≡ₚ (map_to_list m).*1.

Section WithCodec.
Context {RS : ReedSolomon}.

Record fecReceiver := mkReceiver {
  recent : gmap Z bytes;
  highest : Z;
  lastPrune : Z;
  rblocks : block_map;
  rcodecs : gmap Z Encoder;
  rloss : fecLossEstimator;
  rextParity : bool;
}.

Definition newFECReceiverExt (extParity : bool) : fecReceiver :=
  mkReceiver ∅ 0 0 ∅ ∅ f64_zero extParity.

Definition feedbackBasisPoints (r : fecReceiver) : Z := basisPoints (rloss r).

Definition set_recent (r : fecReceiver) (m : gmap Z bytes) : fecReceiver :=
  mkReceiver m (highest r) (lastPrune r) (rblocks r) (rcodecs r) (rloss r) (rextParity r).
Definition set_rblocks (r : fecReceiver) (m : block_map) : fecReceiver :=
  mkReceiver (recent r) (highest r) (lastPrune r) m (rcodecs r) (rloss r) (rextParity r).
Definition set_rcodecs (r : fecReceiver) (m : gmap Z Encoder) : fecReceiver :=
  mkReceiver (recent r) (highest r) (lastPrune r) (rblocks r) m (rloss r) (rextParity r).
Definition set_rloss (r : fecReceiver) (e : fecLossEstimator) : fecReceiver :=
  mkReceiver (recent r) (highest r) (lastPrune r) (rblocks r) (rcodecs r) e (rextParity r).

(** * Reconstruction *)

(** The block's i-th record, if it is at hand. *)
Definition held (m : gmap Z bytes) (b : fecRecvBlock) (i : Z) : option bytes :=
  m !! u64 (baseSeq b + i).

Definition missing (m : gmap Z bytes) (b : fecRecvBlock) : list Z :=
  filter (λ i, held m b i = None) (seqZ 0 (dataShards b)).

Definition have_parity (b : fecRecvBlock) : Z := len (filter is_Some (parity b)).

Definition available (m : gmap Z bytes) (b : fecRecvBlock) : Z :=
  dataShards b - len (missing m b) + have_parity b.

(** A held record longer than the block's shards. *)
Definition oversized (m : gmap Z bytes) (b : fecRecvBlock) : bool :=
  existsb (λ i, match held m b i with
                | Some p => shardSize b - fecLengthPrefixSize <? len p
                | None => false
                end) (seqZ 0 (dataShards b)).

Definition recvShards (m : gmap Z bytes) (b : fecRecvBlock) : list bytes :=
  map (λ i, match held m b i with Some p => dataShard (shardSize b) p | None => [] end)
    (seqZ 0 (dataShards b)) ++
  map (default []) (parity b).

(** The loop over the missing indices: [None] is its early return, which leaves
    the records cached so far in [recent]. *)
Fixpoint recoverLoop (b : fecRecvBlock) (shards : list bytes) (idxs : list Z)
    (m : gmap Z bytes) : option (list fecRecovered) * gmap Z bytes :=
  match idxs with
  | [] => (Some [], m)
  | idx :: idxs =>
      let shard := nth (Z.to_nat idx) shards [] in
      if negb (len shard =? shardSize b) then (None, m) else
      let n := be_val (upto fecLengthPrefixSize shard) in
      if shardSize b - fecLengthPrefixSize <? n then (None, m) else
      let sq := u64 (baseSeq b + idx) in
      let p := slice fecLengthPrefixSize (fecLengthPrefixSize + n) shard in
      let '(out, m) := recoverLoop b shards idxs (<[sq := p]> m) in
      (match out with Some out => Some ((sq, p) :: out) | None => None end, m)
  end.

(** [tryRecoverLocked]; the source counts the shards once before and once while
    it collects them, with the same outcome under the lock. *)
Definition tryRecoverLocked (r : fecReceiver) (b : fecRecvBlock) : list fecRecovered * fecReceiver :=
  let m := recent r in
  if oversized m b then ([], r) else
  if len (missing m b) =? 0 then ([], set_rblocks r (delete (baseSeq b) (rblocks r))) else
  if (available m b <? dataShards b) || (parityShards b <? len (missing m b)) then ([], r) else
  let '(enc, cs) := fecCodecFor (rcodecs r) (dataShards b) (parityShards b) (shardSize b) in
  let r := set_rcodecs r cs in
  match enc with
  | None => ([], r)
  | Some enc =>
      match rs_ReconstructData enc (recvShards m b) with
      | None => ([], r)
      | Some shards =>
          match recoverLoop b shards (missing m b) m with
          | (None, m) => ([], set_recent r m)
          | (Some out, m) =>
              let r := set_rloss (set_recent r m) (observeOutcome (rloss r) true) in
              (out, set_rblocks r (delete (baseSeq b) (rblocks r)))
          end
      end
  end.

(** * Pruning *)

Definition lowest (m : gmap Z bytes) : Z := foldr Z.min max_u64 (map_to_list m).*1.

(** [for len(r.recent) > fecRecentDataHardLimit]; one deletion a round. *)
Fixpoint evictLow (fuel : nat) (m : gmap Z bytes) : gmap Z bytes :=
  match fuel with
  | O => m
  | S fuel => if fecRecentDataHardLimit <? map_len m then evictLow fuel (delete (lowest m) m) else m
  end.

Definition pruneRecentLocked (r : fecReceiver) : fecReceiver :=
  let '(m, lp) :=
    if (fecRecentDataLimit <? highest r) &&
       (fecDataShardsMax <=? u64 (highest r - lastPrune r)) then
      (filter (λ '(sq, _), highest r - fecRecentDataLimit ≤ sq) (recent r), highest r)
    else (recent r, lastPrune r) in
  mkReceiver (evictLow (size m) m) (highest r) lp (rblocks r) (rcodecs r) (rloss r) (rextParity r).

(** The base of the least recently updated block, the first met on ties. *)
Definition oldestBlock (keys : list Z) (bs : block_map) : option (Z * Z) :=
  foldl (λ acc base,
    match bs !! base with
    | None => acc
    | Some b =>
        match acc with
        | None => Some (base, updatedAt b)
        | Some (_, oldest) => if updatedAt b <? oldest then Some (base, updatedAt b) else acc
        end
    end) None keys.

Fixpoint evictBlocks (fuel : nat) (range : block_map → list Z) (bs : block_map) : block_map :=
  match fuel with
  | O => bs
  | S fuel =>
      if fecMaxPendingBlocks <? map_len bs then
        match oldestBlock (range bs) bs with
        | Some (base, _) => evictBlocks fuel range (delete base bs)
        | None => bs
        end
      else bs
  end.

Definition pruneBlocksLocked (r : fecReceiver) (now : Z) (range : block_map → list Z) : fecReceiver :=
  let bs := filter (λ '(_, b), now - updatedAt b ≤ fecBlockTTL) (rblocks r) in
  set_rblocks r (evictBlocks (size bs) range bs).

(** * Entry points *)

Definition by_seq (a b : fecRecovered) : Prop := a.1 ≤ b.1.
#[export] Instance by_seq_dec : RelDecision by_seq.
Proof. unfold by_seq. intros a b. apply _. Defined.

Definition sort_out (out : list fecRecovered) : list fecRecovered :=
  if 1 <? len out then merge_sort by_seq out else out.

(** Retaining a record ([onData]'s first section). *)
Definition retain (r : fecReceiver) (sq : Z) (p : bytes) : fecReceiver :=
  match recent r !! sq with
  | Some _ => r
  | None =>
      mkReceiver (<[sq := p]> (recent r)) (if highest r <? sq then sq else highest r)
        (lastPrune r) (rblocks r) (rcodecs r) (observeOutcome (rloss r) false) (rextParity r)
  end.

(** The loop over the pending blocks. *)
Fixpoint recoverBlocks (sq : Z) (keys : list Z) (r : fecReceiver) : list fecRecovered * fecReceiver :=
  match keys with
  | [] => ([], r)
  | base :: keys =>
      match rblocks r !! base with
      | None => recoverBlocks sq keys r
      | Some b =>
          let end_ := u64 (baseSeq b + dataShards b) in
          if (baseSeq b <=? sq) && (sq <? end_) then
            let '(o, r) := tryRecoverLocked r b in
            let '(os, r) := recoverBlocks sq keys r in (o ++ os, r)
          else recoverBlocks sq keys r
      end
  end.

Definition onData (r : fecReceiver) (sq : Z) (p : bytes) (now : Z)
    (range : block_map → list Z) : list fecRecovered * fecReceiver :=
  if sq =? 0 then ([], r) else
  let r := pruneRecentLocked (retain r sq p) in
  let '(out, r) := recoverBlocks sq (range (rblocks r)) r in
  (sort_out out, pruneBlocksLocked r now range).

(** The block a parity shard belongs to; [None] is the geometry mismatch. *)
Definition blockFor (r : fecReceiver) (p : fecParityShard) (now : Z) : option fecRecvBlock :=
  match rblocks r !! BaseSeq p with
  | None => Some (mkBlock (BaseSeq p) (DataShards p) (ParityShards p) (len (PData p))
                    (replicate (Z.to_nat (ParityShards p)) None) now)
  | Some b =>
      if negb (dataShards b =? DataShards p) || negb (parityShards b =? ParityShards p) ||
         negb (shardSize b =? len (PData p)) then None else Some b
  end.

Definition storeParity (b : fecRecvBlock) (p : fecParityShard) (now : Z) : fecRecvBlock :=
  let i := Z.to_nat (Index p) in
  mkBlock (baseSeq b) (dataShards b) (parityShards b) (shardSize b)
    (match parity b !! i with Some None => <[i := Some (PData p)]> (parity b) | _ => parity b end)
    now.

Definition onParityFrame (r : fecReceiver) (frame : UDPCFrame) (now : Z)
    (range : block_map → list Z) : list fecRecovered * fecReceiver :=
  match parseFECParityFrameExt frame (rextParity r) with
  | Err _ => ([], r)
  | Ok p =>
      match blockFor r p now with
      | None => ([], r)
      | Some b =>
          let b := storeParity b p now in
          let '(out, r) := tryRecoverLocked (set_rblocks r (<[BaseSeq p := b]> (rblocks r))) b in
          (sort_out out, pruneBlocksLocked r now range)
      end
  end.

Inductive recv_event :=
| EvData (sq : Z) (p : bytes) (now : Z) (range : block_map → list Z)
| EvParity (frame : UDPCFrame) (now : Z) (range : block_map → list Z).

Definition recv_step (r : fecReceiver) (e : recv_event) : list fecRecovered * fecReceiver :=
  match e with
  | EvData sq p now range => onData r sq p now range
  | EvParity f now range => onParityFrame r f now range
  end.

Fixpoint recv_run (r : fecReceiver) (es : list recv_event) : list fecRecovered * fecReceiver :=
  match es with
  | [] => ([], r)
  | e :: es =>
      let '(o, r) := recv_step r e in
      let '(os, r) := recv_run r es in (o ++ os, r)
  end.

End WithCodec.

(** * Sizes *)

Section Bounds.
Context {RS : ReedSolomon}.

Record recv_wf (r : fecReceiver) : Prop := {
  rw_keys : map_Forall (λ sq _, 0 ≤ sq ≤ max_u64) (recent r);
  rw_shards : map_Forall (λ _ b, dataShards b ≤ fecDataShardsMax) (rblocks r);
  rw_blocks : map_len (rblocks r) ≤ fecMaxPendingBlocks;
}.

Lemma map_Forall_sub {A} (P : Z → A → Prop) (m1 m2 : gmap Z A) :
  m1 ⊆ m2 → map_Forall P m2 → map_Forall P m1.
Proof. intros Hs H k x Hk. eapply H, lookup_weaken; done. Qed.

Lemma map_len_insert {A} (m : gmap Z A) k x : map_len (<[k := x]> m) ≤ map_len m + 1.
Proof.
  unfold map_len. destruct (m !! k) eqn:Hk.
  - rewrite map_size_insert_Some by (by eexists). lia.
  - rewrite map_size_insert_None by done. lia.
Qed.

Lemma map_len_delete {A} (m : gmap Z A) k :
  is_Some (m !! k) → map_len (delete k m) = map_len m - 1.
Proof.
  intros [x Hx]. unfold map_len. rewrite map_size_delete_Some by (by eexists).
  assert (size m ≠ 0%nat); [|lia]. intros ->%map_size_empty_inv. by rewrite lookup_empty in Hx.
Qed.

Lemma map_len_delete_le {A} (m : gmap Z A) k : map_len (delete k m) ≤ map_len m.
Proof.
  destruct (m !! k) eqn:Hk; [rewrite map_len_delete by (by eexists); lia|].
  by rewrite delete_id.
Qed.

Lemma len_missing_le m b : 0 ≤ dataShards b → len (missing m b) ≤ dataShards b.
Proof.
  intros. unfold missing, len.
  pose proof (length_filter (λ i, held m b i = None) (seqZ 0 (dataShards b))).
  rewrite length_seqZ in *. lia.
Qed.

Lemma missing_negative m b : dataShards b ≤ 0 → missing m b = [].
Proof. intros. unfold missing. by rewrite seqZ_nil. Qed.

Lemma recoverLoop_size b shards idxs m out m' :
  recoverLoop b shards idxs m = (out, m') →
  map_Forall (λ sq _, 0 ≤ sq ≤ max_u64) m →
  map_len m' ≤ map_len m + len idxs ∧ map_Forall (λ sq _, 0 ≤ sq ≤ max_u64) m'.
Proof.
  revert m out. induction idxs as [|i idxs IH]; intros m out; cbn [recoverLoop].
  { intros [= <- <-] ?. change (len (@nil Z)) with 0. split; [lia|done]. }
  rewrite len_cons. pose proof (len_nonneg idxs).
  case_match; [intros [= <- <-] ?; split; [lia|done]|].
  case_match; [intros [= <- <-] ?; split; [lia|done]|].
  set (p := slice _ _ _). destruct (recoverLoop _ _ _ _) as [o m1] eqn:Hl. intros [= _ <-] Hk.
  apply IH in Hl as [Hs Hk']; [split; [|done]|].
  - pose proof (map_len_insert m (u64 (baseSeq b + i)) p). lia.
  - apply map_Forall_insert_2; [|done]. pose proof (u64_range (baseSeq b + i)).
    unfold max_u64. lia.
Qed.

(** Reconstruction caches at most the block's records and only drops blocks. *)
Lemma tryRecover_size r b out r' :
  tryRecoverLocked r b = (out, r') → dataShards b ≤ fecDataShardsMax →
  map_Forall (λ sq _, 0 ≤ sq ≤ max_u64) (recent r) →
  map_len (recent r') ≤ map_len (recent r) + fecDataShardsMax ∧
  map_Forall (λ sq _, 0 ≤ sq ≤ max_u64) (recent r') ∧
  (rblocks r' = rblocks r ∨ rblocks r' = delete (baseSeq b) (rblocks r)).
Proof.
  intros H Hb Hk. revert H. unfold tryRecoverLocked.
  assert (Hm : len (missing (recent r) b) ≤ fecDataShardsMax).
  { destruct (Z.leb_spec 0 (dataShards b)) as [Hp|]; [pose proof (len_missing_le (recent r) b Hp); lia|].
    by rewrite missing_negative by lia. }
  unfold fecDataShardsMax in *.
  repeat (case_match; [intros [= <- <-]; cbn; split_and!; (done || lia || auto)|]).
  destruct (fecCodecFor _ _ _ _) as [[enc|] cs]; [|intros [= <- <-]; cbn; split_and!; (done || lia || auto)].
  case_match; [|intros [= <- <-]; cbn; split_and!; (done || lia || auto)].
  destruct (recoverLoop _ _ _ _) as [o m1] eqn:Hl.
  apply recoverLoop_size in Hl as [Hs Hk1]; [|done].
  destruct o; intros [= <- <-]; cbn; split_and!; (done || lia || auto).
Qed.

Lemma lowest_in m :
  m ≠ ∅ → map_Forall (λ sq _, 0 ≤ sq ≤ max_u64) m → is_Some (m !! lowest m).
Proof.
  intros Hne Hk. unfold lowest.
  assert (Hin : ∀ l : list Z, l ≠ [] → (∀ q, q ∈ l → q ≤ max_u64) → foldr Z.min max_u64 l ∈ l).
  { induction l as [|q l IH]; [done|]. intros _ Hq. simpl.
    destruct l as [|q' l].
    - simpl. rewrite Z.min_l by (apply Hq; constructor). constructor.
    - destruct (Z.min_spec q (foldr Z.min max_u64 (q' :: l))) as [[_ ->]|[_ ->]]; [constructor|].
      constructor. apply IH; [done|]. intros. apply Hq. by constructor. }
  specialize (Hin (map_to_list m).*1).
  assert (Hx : foldr Z.min max_u64 (map_to_list m).*1 ∈ (map_to_list m).*1); [apply Hin|].
  - intros Hn. apply fmap_nil_inv, map_to_list_empty_iff in Hn. done.
  - intros q ([q' x] & -> & Hx)%list_elem_of_fmap. apply elem_of_map_to_list in Hx.
    apply Hk in Hx. simpl. lia.
  - apply list_elem_of_fmap in Hx as ([q x] & Hq & Hx). apply elem_of_map_to_list in Hx.
    rewrite Hq. by eexists.
Qed.

Lemma evictLow_spec fuel m :
  (size m ≤ fuel)%nat → map_Forall (λ sq _, 0 ≤ sq ≤ max_u64) m →
  map_len (evictLow fuel m) ≤ fecRecentDataHardLimit.
Proof.
  unfold fecRecentDataHardLimit, fecRecentDataLimit.
  revert m. induction fuel as [|fuel IH]; intros m Hs Hk; simpl.
  { unfold map_len. lia. }
  unfold fecRecentDataHardLimit, fecRecentDataLimit in *.
  case_match eqn:Hc; [|lia].
  assert (Hin : is_Some (m !! lowest m)).
  { apply lowest_in; [|done]. intros ->. vm_compute in Hc. done. }
  pose proof (map_len_delete _ _ Hin) as Hd. unfold map_len in Hd.
  apply IH; [lia|by apply map_Forall_delete].
Qed.

Lemma evictLow_sub fuel m : evictLow fuel m ⊆ m.
Proof.
  revert m. induction fuel as [|fuel IH]; intros m; simpl; [done|]. case_match; [|done].
  etrans; [apply IH|apply delete_subseteq].
Qed.

Lemma pruneRecent_sub r :
  let r' := pruneRecentLocked r in
  recent r' ⊆ recent r ∧ rblocks r' = rblocks r ∧ rcodecs r' = rcodecs r ∧
  rextParity r' = rextParity r.
Proof.
  unfold pruneRecentLocked. destruct (_ && _); cbn; split_and!; try done; [|apply evictLow_sub].
  etrans; [apply evictLow_sub|apply map_filter_subseteq].
Qed.

Lemma pruneRecent_spec r :
  map_Forall (λ sq _, 0 ≤ sq ≤ max_u64) (recent r) →
  map_len (recent (pruneRecentLocked r)) ≤ fecRecentDataHardLimit.
Proof.
  intros Hk. unfold pruneRecentLocked. destruct (_ && _); cbn; apply evictLow_spec; try done.
  eapply map_Forall_sub; [apply map_filter_subseteq|done].
Qed.

Lemma oldestBlock_in keys bs :
  (∃ k, k ∈ keys ∧ is_Some (bs !! k)) →
  ∃ base t, oldestBlock keys bs = Some (base, t) ∧ is_Some (bs !! base).
Proof.
  unfold oldestBlock. induction keys as [|k keys IH] using rev_ind.
  { intros (k & Hk & _). by apply not_elem_of_nil in Hk. }
  intros Hex. rewrite foldl_app. simpl.
  destruct (bs !! k) as [b|] eqn:Hb.
  - destruct (foldl _ None keys) as [[base t]|] eqn:Hf.
    + destruct (updatedAt b <? t); [by exists k, (updatedAt b); rewrite Hb|].
      exists base, t. split; [done|]. clear -Hf. revert base t Hf.
      induction keys as [|k keys IH] using rev_ind; [done|]. intros base t. rewrite foldl_app. simpl.
      destruct (bs !! k) as [b|] eqn:Hb; [|apply IH].
      destruct (foldl _ None keys) as [[base' t']|]; [|intros [= <- <-]; by rewrite Hb].
      destruct (updatedAt b <? t'); intros [= <- <-]; [by rewrite Hb|by eapply IH].
    + by exists k, (updatedAt b); rewrite Hb.
  - apply IH. destruct Hex as (k' & [Hk|Hk]%elem_of_app & Hs); [by exists k'|].
    apply list_elem_of_singleton in Hk as ->. rewrite Hb in Hs. by destruct Hs.
Qed.

Lemma evictBlocks_spec fuel range bs :
  (size bs ≤ fuel)%nat → range_ok range →
  map_len (evictBlocks fuel range bs) ≤ fecMaxPendingBlocks ∧ evictBlocks fuel range bs ⊆ bs.
Proof.
  unfold fecMaxPendingBlocks. intros Hs Hr. revert bs Hs.
  induction fuel as [|fuel IH]; intros bs Hs; simpl.
  { split; [unfold map_len; lia|done]. }
  unfold fecMaxPendingBlocks in *. case_match eqn:Hc; [|split; [lia|done]].
  destruct (oldestBlock_in (range bs) bs) as (base & t & Ho & Hin).
  { destruct (map_to_list bs) as [|[k b] l] eqn:Hl.
    - apply map_to_list_empty_iff in Hl. subst. vm_compute in Hc. done.
    - exists k. pose proof (Hr bs) as Hp. rewrite Hl in Hp. rewrite Hp. split; [constructor|].
      assert ((k, b) ∈ map_to_list bs) as Hx by (rewrite Hl; constructor).
      apply elem_of_map_to_list in Hx. by eexists. }
  rewrite Ho. pose proof (map_len_delete _ _ Hin) as Hd. unfold map_len in Hd.
  destruct (IH (delete base bs)) as [Hl Hsub]; [lia|].
  split; [done|]. etrans; [exact Hsub|apply delete_subseteq].
Qed.

(** In whatever order the map is walked, eviction only deletes. *)
Lemma evictBlocks_sub fuel range bs : evictBlocks fuel range bs ⊆ bs.
Proof.
  revert bs. induction fuel as [|fuel IH]; intros bs; simpl; [done|]. case_match; [|done].
  destruct (oldestBlock _ _) as [[base t]|]; [|done]. etrans; [apply IH|apply delete_subseteq].
Qed.

Lemma recoverBlocks_size sq keys r out r' :
  recoverBlocks sq keys r = (out, r') → recv_wf r →
  map_len (recent r') ≤ map_len (recent r) + fecDataShardsMax * len keys ∧ recv_wf r' ∧
  rblocks r' ⊆ rblocks r.
Proof.
  revert r out. induction keys as [|base keys IH]; intros r out; cbn [recoverBlocks].
  { intros [= <- <-] ?. change (len (@nil Z)) with 0. split_and!; [lia|done|done]. }
  rewrite len_cons. unfold fecDataShardsMax in *. pose proof (len_nonneg keys).
  destruct (rblocks r !! base) as [b|] eqn:Hb.
  - case_match.
    + destruct (tryRecoverLocked r b) as [o1 r1] eqn:Ht, (recoverBlocks sq keys r1) as [o2 r2] eqn:Hr.
      intros [= <- <-] [Hk Hsh Hn].
      apply tryRecover_size in Ht as (Hsz & Hk1 & Hbl); [|by eapply Hsh|done].
      assert (Hsub : rblocks r1 ⊆ rblocks r) by (destruct Hbl as [->| ->]; [done|apply delete_subseteq]).
      assert (recv_wf r1).
      { split; [done|by eapply map_Forall_sub|]. destruct Hbl as [->| ->]; [done|].
        pose proof (map_len_delete_le (rblocks r) (baseSeq b)). lia. }
      destruct (IH _ _ Hr) as (Hs2 & ? & ?); [done|]. unfold fecDataShardsMax in *.
      split_and!; [lia|done|by etrans].
    + intros Hr Hwf. destruct (IH _ _ Hr Hwf) as (? & ? & ?). split_and!; [lia|done|done].
  - intros Hr Hwf. destruct (IH _ _ Hr Hwf) as (? & ? & ?). split_and!; [lia|done|done].
Qed.

Lemma pruneBlocks_spec r now range :
  range_ok range →
  let r' := pruneBlocksLocked r now range in
  map_len (rblocks r') ≤ fecMaxPendingBlocks ∧ rblocks r' ⊆ rblocks r ∧
  map_Forall (λ _ b, now - updatedAt b ≤ fecBlockTTL) (rblocks r') ∧ recent r' = recent r ∧
  rcodecs r' = rcodecs r ∧ rextParity r' = rextParity r.
Proof.
  intros Hr. unfold pruneBlocksLocked. cbn.
  set (bs := filter (λ '(_, b), now - updatedAt b ≤ fecBlockTTL) (rblocks r)).
  destruct (evictBlocks_spec (size bs) range bs (le_n _) Hr) as [Hl Hsub].
  split_and!; try done.
  - etrans; [exact Hsub|apply map_filter_subseteq].
  - eapply map_Forall_sub; [exact Hsub|]. intros k b Hk.
    by apply map_lookup_filter_Some in Hk as [_ ?].
Qed.

Lemma range_len range (bs : block_map) : range_ok range → len (range bs) = map_len bs.
Proof.
  intros Hr. unfold len, map_len. rewrite (Hr bs), length_map. by rewrite length_map_to_list.
Qed.

Lemma retain_wf r sq p :
  recv_wf r → 0 ≤ sq ≤ max_u64 → recv_wf (retain r sq p) ∧ rblocks (retain r sq p) = rblocks r.
Proof.
  intros [Hk Hs Hb] Hsq. unfold retain. case_match; split; try done. split; try done.
  by apply map_Forall_insert_2.
Qed.

Definition event_wf (e : recv_event) : Prop :=
  match e with
  | EvData sq _ _ range => 0 ≤ sq ≤ max_u64 ∧ range_ok range
  | EvParity f _ range => 0 ≤ Seq f ∧ range_ok range
  end.

Definition event_time (e : recv_event) : Z :=
  match e with EvData _ _ now _ | EvParity _ now _ => now end.

Lemma onData_wf r sq p now range out r' :
  recv_wf r → 0 ≤ sq ≤ max_u64 → range_ok range → onData r sq p now range = (out, r') →
  recv_wf r' ∧
  (sq ≠ 0 → map_len (recent r') ≤ fecRecentDataHardLimit + fecDataShardsMax * fecMaxPendingBlocks ∧
     map_Forall (λ _ b, now - updatedAt b ≤ fecBlockTTL) (rblocks r')).
Proof.
  intros Hwf Hsq Hr. unfold onData. destruct (Z.eqb_spec sq 0); [by intros [= <- <-]|].
  destruct (retain_wf r sq p Hwf Hsq) as [Hw1 Hb1]. set (r1 := retain r sq p) in *.
  pose proof (pruneRecent_spec r1 (rw_keys _ Hw1)) as Hl.
  destruct (pruneRecent_sub r1) as (Hsub & Hb2 & _).
  set (r2 := pruneRecentLocked r1) in *.
  assert (Hw2 : recv_wf r2).
  { destruct Hw1. split; [by eapply map_Forall_sub|by rewrite Hb2|by rewrite Hb2]. }
  destruct (recoverBlocks _ _ r2) as [o r3] eqn:Hrec.
  destruct (recoverBlocks_size _ _ _ _ _ Hrec Hw2) as (Hs3 & [Hk3 Hsh3 _] & _).
  rewrite (range_len _ _ Hr) in Hs3. pose proof (rw_blocks _ Hw2).
  intros [= _ <-]. destruct (pruneBlocks_spec r3 now range Hr) as (Hn4 & Hsub4 & Ht4 & Hrec4 & _).
  split.
  - split; [by rewrite Hrec4|by eapply map_Forall_sub|done].
  - intros _. rewrite Hrec4. split; [|done]. unfold fecDataShardsMax in *. lia.
Qed.

Lemma onParity_wf r f now range out r' :
  recv_wf r → 0 ≤ Seq f → range_ok range → onParityFrame r f now range = (out, r') →
  recv_wf r' ∧
  (r' = r ∨ map_Forall (λ _ b, now - updatedAt b ≤ fecBlockTTL) (rblocks r')).
Proof.
  intros Hwf Hsq Hr. unfold onParityFrame.
  destruct (parseFECParityFrameExt _ _) as [p|] eqn:Hp; [|intros [= <- <-]; by auto].
  apply parse_wf in Hp as ((_ & Hk & _) & _); [|done].
  destruct (blockFor r p now) as [b|] eqn:Hb; [|intros [= <- <-]; by auto].
  assert (Hbk : dataShards (storeParity b p now) = DataShards p).
  { unfold blockFor in Hb. repeat case_match; simplify_eq; try done. simpl.
    rewrite !orb_false_iff, !negb_false_iff in *. lia. }
  set (b1 := storeParity b p now) in *.
  destruct (tryRecoverLocked _ b1) as [o r1] eqn:Ht. destruct Hwf as [Hk0 Hs0 Hb0].
  apply tryRecover_size in Ht as (_ & Hk1 & Hbl); [|lia|done]. cbn [rblocks set_rblocks] in Hbl.
  intros [= _ <-]. destruct (pruneBlocks_spec r1 now range Hr) as (Hn4 & Hsub4 & Ht4 & Hrec4 & _).
  split; [|by right]. split; [by rewrite Hrec4| |done].
  eapply map_Forall_sub; [exact Hsub4|].
  assert (map_Forall (λ (_ : Z) b, dataShards b ≤ fecDataShardsMax) (<[BaseSeq p := b1]> (rblocks r))).
  { apply map_Forall_insert_2; [|done]. cbv beta. lia. }
  destruct Hbl as [->| ->]; [done|]. by apply map_Forall_delete.
Qed.

Lemma recv_step_wf r e out r' :
  recv_wf r → event_wf e → recv_step r e = (out, r') → recv_wf r'.
Proof.
  destruct e; simpl; intros ? []; intros; [eapply onData_wf|eapply onParity_wf]; done.
Qed.

Lemma recv_run_wf r es out r' :
  recv_wf r → Forall event_wf es → recv_run r es = (out, r') → recv_wf r'.
Proof.
  revert r out. induction es as [|e es IH]; intros r out Hwf Hes; simpl; [by intros [= <- <-]|].
  apply Forall_cons in Hes as [He Hes].
  destruct (recv_step r e) as [o1 r1] eqn:H1, (recv_run r1 es) as [o2 r2] eqn:H2.
  intros [= <- <-]. eapply IH; [|done|done]. by eapply recv_step_wf.
Qed.

Lemma new_recv_wf ext : recv_wf (newFECReceiverExt ext).
Proof. split; [apply map_Forall_empty|apply map_Forall_empty|done]. Qed.

End Bounds.
