(* ===== verification/FecRecovery.v ===== *)
(** Recovery end to end: what [FecReceiver] rebuilds from the genuine parity a
    [FecSender] emits, for any Reed-Solomon codec with the laws of [Erasure]. *)
From S2P Require Import Prelude F64 Protocol Rtt FecLoss FecWire Erasure FecBlock FecSender FecReceiver.
Local Open Scope Z_scope.

Section Recovery.
Context {RS : ReedSolomon} {parity_of : Z → Z → list bytes → list bytes}.
Context (Hlaws : rs_laws parity_of) (truth : gmap Z bytes).

(** A pending block holds shards of one code word of the stream. *)
Record block_inv (base : Z) (b : fecRecvBlock) : Prop := {
  bi_base : baseSeq b = base;
  bi_pos : 0 < base;
  bi_k : 1 ≤ dataShards b ≤ fecDataShardsMax;
  bi_m : 1 ≤ parityShards b ≤ 8;
  bi_max : base + (dataShards b - 1) ≤ max_u64;
  bi_truth : ∀ i, 0 ≤ i < dataShards b → is_Some (truth !! (base + i));
  bi_size : shardSize b = block_size truth base (dataShards b);
  bi_fits : shardSize b ≤ UDPC_MAX_DATA;
  bi_len : len (parity b) = parityShards b;
  bi_parity : ∀ j x, parity b !! j = Some (Some x) →
    codeword parity_of truth base (dataShards b) (parityShards b)
      !! (Z.to_nat (dataShards b) + j)%nat = Some x;
}.

Record recv_inv (r : fecReceiver) : Prop := {
  ri_recent : recent r ⊆ truth;
  ri_blocks : map_Forall block_inv (rblocks r);
  ri_codecs : codecs_ok (rcodecs r);
}.

Lemma held_at m base b i :
  block_inv base b → 0 ≤ i < dataShards b → held m b i = m !! (base + i).
Proof.
  intros [? ? ? ? ?] Hi. unfold held. rewrite u64_small by (unfold max_u64 in *; lia). by subst.
Qed.

Lemma held_truth m base b i p :
  m ⊆ truth → block_inv base b → 0 ≤ i < dataShards b → held m b i = Some p →
  payload_at truth (base + i) = p.
Proof.
  intros Hm Hb Hi. rewrite (held_at _ base) by done. intros Hp.
  unfold payload_at. by rewrite (lookup_weaken _ _ _ _ Hp Hm).
Qed.

Lemma not_oversized m base b : m ⊆ truth → block_inv base b → oversized m b = false.
Proof.
  intros Hm Hb. unfold oversized. apply not_true_iff_false. rewrite existsb_exists.
  intros (i & Hi & Ho). apply list_elem_of_In, elem_of_seqZ in Hi as [Hi0 Hi].
  destruct (held m b i) as [p|] eqn:Hh; [|done].
  pose proof (held_truth m base b i p Hm Hb ltac:(lia) Hh) as <-.
  pose proof (payload_fits truth base (dataShards b) i ltac:(lia)). rewrite (bi_size _ _ Hb) in Ho. lia.
Qed.

Lemma length_parity_of base b :
  block_inv base b → (∃ enc size, rs_New (dataShards b) (parityShards b) size = Some enc) →
  shards_shape (parityShards b) (shardSize b)
    (parity_of (dataShards b) (parityShards b) (block_data truth base (dataShards b))).
Proof.
  intros Hb (enc & size & Hnew). rewrite (bi_size _ _ Hb).
  eapply rs_parity_shape; [exact Hlaws|exact Hnew|]. apply block_data_shape.
  pose proof (bi_k _ _ Hb). lia.
Qed.

(** What the receiver holds is left of the code word. *)
Lemma recvShards_survive m base b :
  m ⊆ truth → block_inv base b →
  (∃ enc size, rs_New (dataShards b) (parityShards b) size = Some enc) →
  Forall2 survives (recvShards m b)
    (codeword parity_of truth base (dataShards b) (parityShards b)).
Proof.
  intros Hm Hb Hnew. destruct (length_parity_of _ _ Hb Hnew) as (Hpl & _).
  unfold recvShards, codeword. apply Forall2_app.
  - unfold block_data, block_payloads. rewrite map_map.
    apply Forall2_fmap, Forall_Forall2_diag, Forall_forall. intros i [Hi0 Hi]%elem_of_seqZ.
    destruct (held m b i) as [p|] eqn:Hh; [right|by left].
    by rewrite (held_truth m base b i p Hm Hb ltac:(lia) Hh), (bi_size _ _ Hb).
  - pose proof (bi_len _ _ Hb). apply Forall2_same_length_lookup_2.
    { rewrite length_map. unfold len in *. lia. }
    intros j s c Hs Hc. apply list_lookup_fmap_Some in Hs as ([x|] & -> & Hs); [right|by left].
    pose proof (bi_parity _ _ Hb j x Hs) as Hx. unfold codeword in Hx.
    pose proof (bi_k _ _ Hb). pose proof (block_data_shape truth base (dataShards b) ltac:(lia)) as (Hdl & _).
    rewrite lookup_app_r in Hx by (unfold len in *; lia).
    replace (Z.to_nat (dataShards b) + j - length (block_data truth base (dataShards b)))%nat with j in Hx
      by (unfold len in *; lia).
    simpl. congruence.
Qed.

Lemma present_map_missing {A} (f : A → bytes) (P : A → Prop) `{!∀ x, Decision (P x)} l :
  (∀ x, P x → f x = []) → (∀ x, x ∈ l → ¬ P x → f x ≠ []) →
  present_shards (map f l) = len l - len (filter P l).
Proof.
  intros H1. induction l as [|x l IH]; intros H2; [done|]. simpl map.
  rewrite len_cons, filter_cons. destruct (decide (P x)).
  - rewrite H1, present_cons_missing, IH, len_cons by (done || (intros; apply H2; [by constructor|done])).
    lia.
  - rewrite present_cons, IH by (try apply H2; (done || by constructor || (intros; apply H2; [by constructor|done]))).
    lia.
Qed.

Lemma recvShards_present m base b :
  block_inv base b → (∃ enc size, rs_New (dataShards b) (parityShards b) size = Some enc) →
  present_shards (recvShards m b) = available m b.
Proof.
  intros Hb Hnew. destruct (length_parity_of _ _ Hb Hnew) as (_ & Hpos & Hsz).
  unfold recvShards, available, have_parity. rewrite present_app. pose proof (bi_k _ _ Hb). f_equal.
  - rewrite (present_map_missing _ (λ i, held m b i = None)).
    + unfold len at 1. rewrite length_seqZ. unfold missing. lia.
    + intros i Hi. by rewrite Hi.
    + intros i _ Hi. destruct (held m b i); [|done]. unfold dataShard. intros Hn.
      by apply (f_equal length) in Hn.
  - rewrite (present_map_missing _ (λ o, o = None)).
    + clear. induction (parity b) as [|[x|] l IH]; [done| |]; rewrite len_cons.
      * rewrite (filter_cons_False (λ o, o = None)), (filter_cons_True is_Some), len_cons
          by (done || by eexists). lia.
      * rewrite (filter_cons_True (λ o, o = None)), (filter_cons_False is_Some), len_cons
          by (done || by intros []). lia.
    + by intros ? ->.
    + intros [x|] Hx Hn; [|done]. apply list_elem_of_lookup in Hx as [j Hx]. simpl. intros ->.
      pose proof (bi_parity _ _ Hb j [] Hx) as Hc. unfold codeword in Hc.
      pose proof (block_data_shape truth base (dataShards b) ltac:(lia)) as (Hdl & _ & _).
      rewrite lookup_app_r in Hc by (unfold len in *; lia).
      eapply Forall_lookup_1 in Hc; [|exact Hsz]. cbv beta in Hc. rewrite len_nil in Hc. lia.
Qed.

(** The records [rebuilt] from the truth at the given indices. *)
Definition rebuilt (base : Z) (idxs : list Z) : list fecRecovered :=
  map (λ i, (base + i, payload_at truth (base + i))) idxs.

Definition cache (base : Z) (idxs : list Z) (m : gmap Z bytes) : gmap Z bytes :=
  foldl (λ m i, <[base + i := payload_at truth (base + i)]> m) m idxs.

Lemma dataShard_decode size p :
  fecLengthPrefixSize + len p ≤ size → size ≤ UDPC_MAX_DATA →
  be_val (upto fecLengthPrefixSize (dataShard size p)) = len p ∧
  slice fecLengthPrefixSize (fecLengthPrefixSize + len p) (dataShard size p) = p.
Proof.
  intros Hs Hm. pose proof (len_nonneg p). change UDPC_MAX_DATA with 1394 in Hm.
  unfold fecLengthPrefixSize in *. unfold dataShard. split.
  - rewrite upto_app by (by autorewrite with len).
    rewrite be_val_be_bytes_small; [apply u16_small; lia|].
    rewrite u16_small by lia. change (256 ^ Z.of_nat 2) with 65536. lia.
  - apply slice_app; [by autorewrite with len|lia].
Qed.

Lemma recoverLoop_spec b base shards idxs m :
  block_inv base b → m ⊆ truth →
  Forall (λ i, 0 ≤ i < dataShards b ∧
     nth (Z.to_nat i) shards [] = dataShard (shardSize b) (payload_at truth (base + i))) idxs →
  recoverLoop b shards idxs m = (Some (rebuilt base idxs), cache base idxs m) ∧
  cache base idxs m ⊆ truth.
Proof.
  intros Hb. revert m. induction idxs as [|i idxs IH]; intros m Hm Hi; [done|].
  apply Forall_cons in Hi as [[Hr Hn] Hi]. cbn [recoverLoop]. rewrite Hn.
  pose proof (payload_fits truth base (dataShards b) i Hr) as Hfit.
  rewrite <- (bi_size _ _ Hb) in Hfit.
  destruct (dataShard_decode _ _ Hfit (bi_fits _ _ Hb)) as [Hdec Hsl].
  rewrite Hdec, Hsl, len_dataShard, Z.eqb_refl by done. simpl.
  rewrite (proj2 (Z.ltb_ge _ _)) by lia.
  rewrite (bi_base _ _ Hb), (u64_small (base + i))
    by (pose proof (bi_max _ _ Hb); pose proof (bi_pos _ _ Hb); unfold max_u64 in *; lia).
  assert (<[base + i := payload_at truth (base + i)]> m ⊆ truth) as Hm'.
  { destruct (bi_truth _ _ Hb i Hr) as [p Hp]. apply insert_subseteq_l; [|done].
    unfold payload_at. by rewrite Hp. }
  destruct (IH _ Hm' Hi) as [-> ?]. done.
Qed.

Lemma missing_range m b : Forall (λ i, 0 ≤ i < dataShards b) (missing m b).
Proof.
  apply Forall_forall. intros i. unfold missing. rewrite list_elem_of_filter, elem_of_seqZ. lia.
Qed.

Lemma enough_parity m base b :
  block_inv base b → dataShards b ≤ available m b → len (missing m b) ≤ parityShards b.
Proof.
  intros Hb. unfold available, have_parity. rewrite <- (bi_len _ _ Hb).
  pose proof (length_filter is_Some (parity b)). unfold len in *. lia.
Qed.

Lemma recv_inv_delete r m e cs base :
  recv_inv r → m ⊆ truth → codecs_ok cs →
  recv_inv (set_rblocks (set_rloss (set_recent (set_rcodecs r cs) m) e) (delete base (rblocks r))).
Proof. intros [] ? ?. split; [done|by apply map_Forall_delete|done]. Qed.

(** Reconstruction: never a wrong record, and every missing one when enough
    shards of the block survive. *)
Lemma tryRecover_spec r base b out r' :
  recv_inv r → block_inv base b → tryRecoverLocked r b = (out, r') →
  recv_inv r' ∧ rextParity r' = rextParity r ∧
  (out = [] ∧ recent r' = recent r ∨
   out = rebuilt base (missing (recent r) b) ∧ recent r' = cache base (missing (recent r) b) (recent r)) ∧
  (missing (recent r) b ≠ [] → dataShards b ≤ available (recent r) b →
   is_Some (rs_New (dataShards b) (parityShards b) (shardSize b)) →
   out = rebuilt base (missing (recent r) b) ∧
   recent r' = cache base (missing (recent r) b) (recent r) ∧
   rblocks r' = delete base (rblocks r)).
Proof.
  intros Hr Hb. pose proof Hr as [Hm Hbs Hcs]. pose proof (bi_k _ _ Hb). pose proof (bi_m _ _ Hb).
  unfold fecDataShardsMax in *. unfold tryRecoverLocked. rewrite (not_oversized _ base) by done.
  destruct (Z.eqb_spec (len (missing (recent r) b)) 0) as [Hz|Hz].
  { intros [= <- <-]. apply len_nil_inv in Hz. rewrite Hz.
    split_and!; [|done|by left|done]. split; [done|by apply map_Forall_delete|done]. }
  destruct (_ || _) eqn:Hav.
  { intros [= <- <-]. split_and!; [done|done|by left|]. intros _ Hle _.
    pose proof (enough_parity _ _ _ Hb Hle). rewrite orb_true_iff in Hav. lia. }
  apply orb_false_iff in Hav as [Hav _]. apply Z.ltb_ge in Hav.
  destruct (fecCodecFor _ _ _ _) as [oe cs] eqn:Hc.
  apply fecCodecFor_ok in Hc as (Hok & Hnew & Hnone); [|done|lia|lia].
  destruct oe as [enc|].
  2: { intros [= <- <-]. split_and!; [by split|done|by left|].
       intros _ _ [x Hx]. by rewrite Hnone in Hx. }
  destruct (Hnew enc eq_refl) as [size' Hs'].
  pose proof (block_data_shape truth base (dataShards b) ltac:(lia)) as Hshape.
  destruct (rs_reconstruct _ Hlaws _ _ _ _ _ _ (recvShards (recent r) b) Hs' Hshape) as (shards & -> & Htk).
  { apply recvShards_survive; eauto. }
  { rewrite (recvShards_present _ base) by eauto. done. }
  assert (Hnth : Forall (λ i, 0 ≤ i < dataShards b ∧ nth (Z.to_nat i) shards [] =
      dataShard (shardSize b) (payload_at truth (base + i))) (missing (recent r) b)).
  { eapply Forall_impl; [apply missing_range|]. intros i Hi. cbv beta in Hi. split; [done|].
    pose proof (block_data_lookup truth base (dataShards b) i Hi) as Hl.
    rewrite <- Htk in Hl. rewrite lookup_take_lt in Hl by lia. rewrite (bi_size _ _ Hb).
    by apply nth_lookup_Some. }
  destruct (recoverLoop_spec b base shards _ _ Hb Hm Hnth) as [-> Hsub].
  intros [= <- <-]. split_and!; [by apply recv_inv_delete|done|by right|].
  by rewrite (bi_base _ _ Hb).
Qed.

(** * The receiver's steps *)

Lemma blockFor_inv r p now b :
  recv_inv r → genuine parity_of truth (rextParity r) p →
  blockFor r p now = Some b → block_inv (BaseSeq p) b ∧
  dataShards b = DataShards p ∧ parityShards b = ParityShards p ∧ shardSize b = len (PData p).
Proof.
  intros Hr (Hwf & Htr & Hfit & Hlen & Hcw). destruct Hwf as (Hpos & Hk & Hm & Hi & _ & Hmax).
  pose proof (fecParityShardsMax_le (rextParity r)). unfold blockFor.
  destruct (rblocks r !! BaseSeq p) as [b0|] eqn:Hb; [case_match eqn:Hg; [done|]|]; intros [= <-].
  - rewrite !orb_false_iff, !negb_false_iff, !Z.eqb_eq in Hg. destruct Hg as [[? ?] ?].
    split; [|done]. by apply (ri_blocks _ Hr).
  - split; [|done]. split; cbn; try done; try lia.
    + unfold len. rewrite length_replicate. lia.
    + intros j x Hx. by apply lookup_replicate in Hx as [? _].
Qed.

Lemma storeParity_inv ext p b now :
  genuine parity_of truth ext p → block_inv (BaseSeq p) b →
  dataShards b = DataShards p → parityShards b = ParityShards p →
  block_inv (BaseSeq p) (storeParity b p now).
Proof.
  intros (Hwf & _ & _ & _ & Hcw) Hb Hk Hm. destruct Hwf as (_ & ? & _ & Hi & _).
  destruct Hb as [? ? ? ? ? ? ? ? Hlen Hpar]. unfold storeParity. split; cbn; try done.
  - case_match; [case_match|]; try done. unfold len in *. by rewrite length_insert.
  - intros j x Hx. destruct (parity b !! Z.to_nat (Index p)) as [[y|]|]; [by eauto| |by eauto].
    apply list_lookup_insert_Some in Hx as [(<- & [= <-] & _)|[_ Hx]]; [|by eauto].
    rewrite Hk, Hm. rewrite <- Hcw. f_equal. lia.
Qed.

Definition event_ok (ext : bool) (e : recv_event) : Prop :=
  match e with
  | EvData sq p _ _ => 0 ≤ sq ≤ max_u64 ∧ (sq ≠ 0 → truth !! sq = Some p)
  | EvParity f _ _ =>
      0 ≤ Seq f ∧
      match parseFECParityFrameExt f ext with
      | Ok p => genuine parity_of truth ext p
      | Err _ => True
      end
  end.

Definition original (rec : fecRecovered) : Prop := truth !! rec.1 = Some rec.2.

Lemma rebuilt_original base b idxs :
  block_inv base b → Forall (λ i, 0 ≤ i < dataShards b) idxs → Forall original (rebuilt base idxs).
Proof.
  intros Hb Hi. unfold rebuilt. apply Forall_fmap. eapply Forall_impl; [exact Hi|].
  intros i Hir. unfold original. cbn. destruct (bi_truth _ _ Hb i Hir) as [p Hp].
  unfold payload_at. by rewrite Hp.
Qed.

Lemma tryRecover_inv r base b out r' :
  recv_inv r → block_inv base b → tryRecoverLocked r b = (out, r') →
  recv_inv r' ∧ rextParity r' = rextParity r ∧ Forall original out.
Proof.
  intros Hr Hb Ht. destruct (tryRecover_spec _ _ _ _ _ Hr Hb Ht) as (? & ? & Ho & _).
  split_and!; [done|done|]. destruct Ho as [[-> _]|[-> _]]; [done|].
  eapply rebuilt_original; [done|apply missing_range].
Qed.

Lemma recoverBlocks_inv sq keys r out r' :
  recv_inv r → recoverBlocks sq keys r = (out, r') →
  recv_inv r' ∧ rextParity r' = rextParity r ∧ Forall original out.
Proof.
  revert r out r'. induction keys as [|base keys IH]; intros r out r' Hr; cbn [recoverBlocks].
  { by intros [= <- <-]. }
  destruct (rblocks r !! base) as [b|] eqn:Hb; [|by apply IH].
  case_match; [|by apply IH].
  destruct (tryRecoverLocked r b) as [o1 r1] eqn:Ht, (recoverBlocks sq keys r1) as [o2 r2] eqn:Hrec.
  destruct (tryRecover_inv r base b _ _ Hr (ri_blocks _ Hr _ _ Hb) Ht) as (H1 & E1 & O1).
  destruct (IH _ _ _ H1 Hrec) as (H2 & E2 & O2). intros [= <- <-].
  split_and!; [done|congruence|by apply Forall_app].
Qed.

Lemma sort_out_perm out : sort_out out ≡ₚ out.
Proof. unfold sort_out. case_match; [apply merge_sort_Permutation|done]. Qed.

Lemma sort_out_original out : Forall original out → Forall original (sort_out out).
Proof. by rewrite sort_out_perm. Qed.

Lemma pruneBlocks_inv r now range :
  recv_inv r →
  recv_inv (pruneBlocksLocked r now range) ∧
  rextParity (pruneBlocksLocked r now range) = rextParity r.
Proof.
  intros []. split; [|done]. split; cbn; try done. eapply map_Forall_sub; [|done].
  etrans; [apply evictBlocks_sub|apply map_filter_subseteq].
Qed.

Lemma recv_step_inv r e out r' :
  recv_inv r → event_ok (rextParity r) e → recv_step r e = (out, r') →
  recv_inv r' ∧ rextParity r' = rextParity r ∧ Forall original out.
Proof.
  intros Hr. destruct e as [sq p now range|f now range]; intros [_ Hok]; simpl.
  - unfold onData. destruct (Z.eqb_spec sq 0); [by intros [= <- <-]|].
    assert (Hi1 : recv_inv (retain r sq p) ∧ rextParity (retain r sq p) = rextParity r).
    { unfold retain. case_match; [done|]. destruct Hr. split; [split; cbn; try done|done].
      apply insert_subseteq_l; [by apply Hok|done]. }
    destruct Hi1 as [[Hm1 Hb1 Hc1] He1]. set (r1 := retain r sq p) in *.
    destruct (pruneRecent_sub r1) as (Hsub & Hb2 & Hc2 & He2).
    assert (Hi2 : recv_inv (pruneRecentLocked r1)).
    { split; rewrite ?Hb2, ?Hc2; try done. by etrans. }
    destruct (recoverBlocks _ _ _) as [o r2] eqn:Hrec.
    destruct (recoverBlocks_inv _ _ _ _ _ Hi2 Hrec) as (Hi3 & He3 & Ho).
    destruct (pruneBlocks_inv r2 now range Hi3). intros [= <- <-].
    split_and!; [done|congruence|by apply sort_out_original].
  - unfold onParityFrame. destruct (parseFECParityFrameExt f (rextParity r)) as [p|] eqn:Hp;
      [|by intros [= <- <-]].
    destruct (blockFor r p now) as [b|] eqn:Hb; [|by intros [= <- <-]].
    destruct (blockFor_inv _ _ _ _ Hr Hok Hb) as (Hbi & Hk & Hm & _).
    pose proof (storeParity_inv _ _ _ now Hok Hbi Hk Hm) as Hbs.
    set (b1 := storeParity b p now) in *.
    destruct (tryRecoverLocked _ b1) as [o r1] eqn:Ht.
    assert (Hi1 : recv_inv (set_rblocks r (<[BaseSeq p := b1]> (rblocks r)))).
    { destruct Hr. split; try done. by apply map_Forall_insert_2. }
    destruct (tryRecover_inv _ _ _ _ _ Hi1 Hbs Ht) as (Hi2 & He2 & Ho).
    destruct (pruneBlocks_inv r1 now range Hi2). intros [= <- <-].
    split_and!; [done| |by apply sort_out_original].
    cbn in He2. congruence.
Qed.

Lemma recv_run_inv r es out r' :
  recv_inv r → Forall (event_ok (rextParity r)) es →
  recv_run r es = (out, r') →
  recv_inv r' ∧ rextParity r' = rextParity r ∧ Forall original out.
Proof.
  revert r out r'. induction es as [|e es IH]; intros r out r' Hr Hok; simpl;
    [by intros [= <- <-]|].
  apply Forall_cons in Hok as [Ho Hok].
  destruct (recv_step r e) as [o1 r1] eqn:H1, (recv_run r1 es) as [o2 r2] eqn:H2.
  destruct (recv_step_inv _ _ _ _ Hr Ho H1) as (Hi1 & He1 & Ho1).
  rewrite <- He1 in Hok. destruct (IH _ _ _ Hi1 Hok H2) as (Hi2 & He2 & Ho2).
  intros [= <- <-]. split_and!; [done|congruence|by apply Forall_app].
Qed.

Lemma new_recv_inv ext : recv_inv (newFECReceiverExt ext).
Proof. split; [apply map_empty_subseteq|apply map_Forall_empty|apply codecs_ok_empty]. Qed.

(** A frame that carries a shard the sender emitted. *)
Definition carries (shards : list fecParityShard) (f' : UDPCFrame) : Prop :=
  ∃ p f, p ∈ shards ∧ Cmd f = CMD_FEC ∧ applyToFrame p f = Some f'.

Definition transmitted (shards : list fecParityShard) (e : recv_event) : Prop :=
  match e with
  | EvData sq p _ _ => truth !! sq = Some p
  | EvParity f _ _ => carries shards f
  end.

Lemma genuine_forget ext p :
  genuine parity_of truth ext p → genuine parity_of truth ext (forget_ext p).
Proof. done. Qed.

Lemma transmitted_ok ext shards e :
  Forall (λ p, genuine parity_of truth ext p ∧ Ext p = ext) shards →
  event_wf e → transmitted shards e → event_ok ext e.
Proof.
  intros Hs Hw. destruct e as [sq p now range|f' now range]; simpl in *; [by destruct Hw|].
  intros (p & f & Hp & Hc & Ha). split; [by destruct Hw|].
  rewrite Forall_forall in Hs. destruct (Hs _ Hp) as (Hg & <-).
  pose proof (proj1 Hg) as (? & _ & _ & _ & _ & ?).
  rewrite (apply_parse p f f') by (done || lia).
  by apply genuine_forget.
Qed.

(** * Completeness *)

Lemma cache_lookup base idxs m i :
  cache base idxs m !! (base + i) =
  if decide (i ∈ idxs) then Some (payload_at truth (base + i)) else m !! (base + i).
Proof.
  revert m. induction idxs as [|j idxs IH]; intros m; simpl.
  { by destruct (decide (i ∈ [])) as [Hn%not_elem_of_nil|]. }
  rewrite IH. destruct (decide (i ∈ idxs)) as [Hi|Hi], (decide (i ∈ j :: idxs)) as [Hj|Hj]; try done.
  - destruct Hj. by constructor.
  - apply elem_of_cons in Hj as [->|]; [|done]. by rewrite lookup_insert_eq.
  - rewrite lookup_insert_ne; [done|]. intros Heq. destruct Hj. assert (i = j) as -> by lia.
    constructor.
Qed.

(** One parity frame that completes a block. *)
Lemma onParity_complete r f p b now range :
  recv_inv r → range_ok range →
  parseFECParityFrameExt f (rextParity r) = Ok p →
  genuine parity_of truth (rextParity r) p →
  blockFor r p now = Some b →
  missing (recent r) (storeParity b p now) ≠ [] →
  DataShards p ≤ available (recent r) (storeParity b p now) →
  is_Some (rs_New (DataShards p) (ParityShards p) (len (PData p))) →
  (onParityFrame r f now range).1 ≡ₚ rebuilt (BaseSeq p) (missing (recent r) (storeParity b p now)) ∧
  recent (onParityFrame r f now range).2 =
    cache (BaseSeq p) (missing (recent r) (storeParity b p now)) (recent r) ∧
  rblocks (onParityFrame r f now range).2 ⊆ delete (BaseSeq p) (rblocks r) ∧
  recv_inv (onParityFrame r f now range).2 ∧
  rextParity (onParityFrame r f now range).2 = rextParity r.
Proof.
  intros Hr Hrange Hp Hg Hb Hmiss Hav Hnew.
  destruct (blockFor_inv _ _ _ _ Hr Hg Hb) as (Hbi & Hk & Hm & Hsz).
  pose proof (storeParity_inv _ _ _ now Hg Hbi Hk Hm) as Hbs.
  unfold onParityFrame. rewrite Hp, Hb. cbv zeta.
  assert (dataShards (storeParity b p now) = DataShards p ∧
    parityShards (storeParity b p now) = ParityShards p ∧
    shardSize (storeParity b p now) = len (PData p)) as (Hk' & Hm' & Hs') by done.
  set (b1 := storeParity b p now) in *.
  destruct (tryRecoverLocked _ b1) as [o r1] eqn:Ht.
  assert (Hi1 : recv_inv (set_rblocks r (<[BaseSeq p := b1]> (rblocks r)))).
  { destruct Hr. split; try done. by apply map_Forall_insert_2. }
  destruct (tryRecover_spec _ _ _ _ _ Hi1 Hbs Ht) as (Hi2 & He2 & _ & Hfull).
  destruct Hfull as (-> & Hrec & Hdel); [done|by rewrite Hk'|by rewrite Hk', Hm', Hs'|].
  destruct (pruneBlocks_spec r1 now range Hrange) as (_ & Hsub & _ & Hrec2 & _).
  destruct (pruneBlocks_inv r1 now range Hi2). cbn [fst snd].
  split_and!; [apply sort_out_perm|by rewrite Hrec2| |done|cbn in He2; congruence].
  etrans; [exact Hsub|]. rewrite Hdel. cbn. by rewrite delete_insert_eq.
Qed.

End Recovery.

(** * A flood of parity frames *)

Section Flood.
Context {RS : ReedSolomon} {parity_of : Z → Z → list bytes → list bytes}.
Context (Hlaws : rs_laws parity_of) (Hnew : is_Some (rs_New 1 1 3)).

Definition flood_shard : bytes := hd [] (parity_of 1 1 [dataShard 3 [7]]).
Definition flood_parity (i : Z) : fecParityShard := mkParity i 1 1 0 flood_shard false.
Definition flood_frame (i : Z) : UDPCFrame :=
  mkFrame 0 UDPC_VERSION CMD_FEC 0 1 i i 0 0 flood_shard [].

Lemma flood_shards : parity_of 1 1 [dataShard 3 [7]] = [flood_shard] ∧ len flood_shard = 3.
Proof.
  destruct Hnew as [enc Henc].
  destruct (rs_parity_shape _ Hlaws 1 1 3 enc 3 [dataShard 3 [7]] Henc) as (Hl & _ & Hs).
  { split_and!; [done|done|]. by constructor. }
  unfold flood_shard. destruct (parity_of _ _ _) as [|x [|y l]].
  - change (len (@nil bytes)) with 0 in Hl. lia.
  - split; [done|]. by rewrite Forall_singleton in Hs.
  - exfalso. rewrite !len_cons in Hl. pose proof (len_nonneg l). lia.
Qed.

Context (n : nat) (Hn : Z.of_nat n ≤ max_u64).

Definition flood_truth : gmap Z bytes := gset_to_gmap [7] (list_to_set (seqZ 1 (Z.of_nat n))).
Lemma flood_truth_at i : 1 ≤ i ≤ Z.of_nat n → flood_truth !! i = Some [7].
Proof.
  intros Hi. unfold flood_truth. apply lookup_gset_to_gmap_Some. split; [|done].
  apply elem_of_list_to_set, elem_of_seqZ. lia.
Qed.

Lemma flood_payloads i : 1 ≤ i ≤ Z.of_nat n → block_payloads flood_truth i 1 = [[7]].
Proof. intros Hi. unfold block_payloads, payload_at. simpl. by rewrite Z.add_0_r, flood_truth_at. Qed.

Lemma flood_genuine i : 1 ≤ i ≤ Z.of_nat n → genuine parity_of flood_truth false (flood_parity i).
Proof.
  intros Hi. destruct flood_shards as [Hp Hl]. unfold genuine, shard_wf. cbn.
  unfold codeword, block_data, block_size. rewrite flood_payloads by done. cbn [map maxPayload foldr].
  change (fecLengthPrefixSize + len [7] `max` 0) with 3. rewrite Hp, Hl.
  split_and!; try done; try lia.
  intros j Hj. assert (j = 0) as -> by lia. rewrite Z.add_0_r, flood_truth_at by done. by eexists.
Qed.

Lemma flood_parse i :
  1 ≤ i ≤ max_u64 → parseFECParityFrameExt (flood_frame i) false = Ok (flood_parity i).
Proof.
  intros Hi. destruct flood_shards as [_ Hl]. unfold parseFECParityFrameExt. cbn [Cmd Seq Data flood_frame].
  rewrite Hl, (proj2 (Z.eqb_neq i 0)) by lia. cbn. rewrite !Z.land_0_l.
  change (u64 _) with 0. rewrite (proj2 (Z.ltb_ge (max_u64 - 0) i)) by lia. done.
Qed.

Lemma map_eq_sub_empty (m : block_map) : m ⊆ ∅ → m = ∅.
Proof.
  intros Hs. apply map_empty. intros k. destruct (m !! k) eqn:Hk; [|done].
  apply (lookup_weaken _ _ _ _ Hk) in Hs. by rewrite lookup_empty in Hs.
Qed.

(** The session and packet number the record layer stamps. *)
Definition with_session (f : UDPCFrame) (sid pn : Z) : UDPCFrame :=
  mkFrame (Magic f) (Version f) (Cmd f) (Flags f) sid pn (Seq f) (Ack f) (WindowSize f)
    (Data f) (raw f).

(** The state after the first i frames. *)
Record flooded (i : Z) (r : fecReceiver) : Prop := {
  fl_inv : recv_inv (parity_of := parity_of) flood_truth r;
  fl_size : map_len (recent r) = i;
  fl_keys : map_Forall (λ q _, q ≤ i) (recent r);
  fl_blocks : rblocks r = ∅;
  fl_ext : rextParity r = false;
}.

Lemma flood_step i r now range :
  flooded i r → 0 ≤ i < Z.of_nat n → range_ok range →
  flooded (i + 1) (onParityFrame r (flood_frame (i + 1)) now range).2.
Proof.
  intros [Hr Hs Hk Hb He] Hi Hrange. destruct flood_shards as [_ Hl].
  set (p := flood_parity (i + 1)).
  assert (Hg : genuine parity_of flood_truth (rextParity r) p) by (rewrite He; apply flood_genuine; lia).
  assert (Hfree : recent r !! (i + 1) = None).
  { destruct (recent r !! (i + 1)) eqn:Hx; [|done]. apply Hk in Hx. lia. }
  assert (Hbf : blockFor r p now = Some (mkBlock (i + 1) 1 1 3 [None] now)).
  { unfold blockFor. rewrite Hb. cbn. by rewrite Hl. }
  assert (Hmiss : missing (recent r) (storeParity (mkBlock (i + 1) 1 1 3 [None] now) p now) = [0]).
  { unfold missing, held, storeParity. cbn [dataShards baseSeq].
    change (seqZ 0 1) with [0]. rewrite filter_cons_True; [done|].
    rewrite Z.add_0_r, u64_small by (unfold max_u64 in *; lia). done. }
  destruct (onParity_complete Hlaws flood_truth r (flood_frame (i + 1)) p
      (mkBlock (i + 1) 1 1 3 [None] now) now range Hr Hrange)
    as (_ & Hrec & Hsub & Hinv & Hext); try done.
  - rewrite He. apply flood_parse. lia.
  - by rewrite Hmiss.
  - unfold available, have_parity. rewrite Hmiss. cbn. done.
  - cbn. by rewrite Hl.
  - rewrite Hmiss in Hrec. unfold cache in Hrec. cbn [foldl BaseSeq p flood_parity] in Hrec.
    rewrite Z.add_0_r in Hrec. split; try done.
    + rewrite Hrec. unfold map_len in *. rewrite map_size_insert_None by done. lia.
    + rewrite Hrec. apply map_Forall_insert_2; [lia|]. eapply map_Forall_impl; [exact Hk|].
      cbn. lia.
    + rewrite Hb, delete_empty in Hsub. by apply map_eq_sub_empty.
    + congruence.
Qed.

Lemma flood_run m i r now range :
  flooded i r → 0 ≤ i → i + Z.of_nat m ≤ Z.of_nat n → range_ok range →
  flooded (i + Z.of_nat m)
    (recv_run r (map (λ f, EvParity f now range) (map flood_frame (seqZ (i + 1) (Z.of_nat m))))).2.
Proof.
  revert i r. induction m as [|m IH]; intros i r Hf Hi Hm Hrange.
  { by rewrite Z.add_0_r. }
  rewrite seqZ_cons by lia. rewrite !map_cons. cbn [recv_run recv_step].
  pose proof (flood_step i r now range Hf ltac:(lia) Hrange) as Hf1.
  destruct (onParityFrame r _ now range) as [o r1]. cbn [snd] in Hf1.
  specialize (IH (i + 1) r1 Hf1 ltac:(lia) ltac:(lia) Hrange).
  replace (Z.pred (Z.of_nat (S m))) with (Z.of_nat m) by lia.
  change (Z.succ (i + 1)) with (i + 1 + 1).
  destruct (recv_run r1 _) as [o2 r2]. cbn [snd] in *.
  by replace (i + Z.of_nat (S m)) with (i + 1 + Z.of_nat m) by lia.
Qed.

Lemma flood_start : flooded 0 (newFECReceiverExt false).
Proof.
  split; try done. apply new_recv_inv.
Qed.

End Flood.

(** * Properties *)

(** C8: (safety) End to end, the FEC layer never hands up a record the peer did not
    send.  For any interleaving of the sender's operations, any subset, order,
    duplication and timing of its DATA records and parity frames at the receiver,
    any map iteration order and any codec with the Reed-Solomon laws, every
    record the receiver rebuilds is the payload the stream carried at that
    sequence. *)
Theorem fec_recovery_sound `{RS : ReedSolomon} parity_of truth emitting ext ops shards st es out r :
  rs_laws parity_of →
  Forall (op_ok truth) ops →
  fec_run (mkState (newFECSenderExt emitting ext) [] []) ops = (shards, st) →
  Forall event_wf es →
  Forall (transmitted truth shards) es →
  recv_run (newFECReceiverExt ext) es = (out, r) →
  Forall (original truth) out.
Proof.
  intros Hlaws Hops Hsend Hwf Htx Hrecv.
  destruct (fec_run_inv Hlaws truth _ _ _ _ (new_inv truth emitting ext) Hops Hsend)
    as (_ & _ & Hg).
  eapply (recv_run_inv Hlaws truth _ _ _ _ (new_recv_inv truth ext)) in Hrecv as (_ & _ & Ho); try done.
  rewrite Forall_forall in Htx, Hwf. apply Forall_forall. intros e He.
  eapply transmitted_ok; [|by apply Hwf|by apply Htx].
  eapply Forall_impl; [exact Hg|]. cbn. naive_solver.
Qed.

(** C9: (functional) Any k shards are enough.  When a genuine parity frame arrives
    and, with it, a block of k records has at least k of its data and parity
    shards at hand, the receiver hands up every missing record of the block with
    its original payload, and afterwards holds all k. *)
Theorem fec_recovers_any_k `{RS : ReedSolomon} parity_of truth ext es out0 r f p b now range :
  rs_laws parity_of →
  Forall (event_ok (parity_of := parity_of) truth ext) es →
  recv_run (newFECReceiverExt ext) es = (out0, r) →
  range_ok range →
  parseFECParityFrameExt f ext = Ok p →
  genuine parity_of truth ext p →
  blockFor r p now = Some b →
  missing (recent r) (storeParity b p now) ≠ [] →
  DataShards p ≤ available (recent r) (storeParity b p now) →
  is_Some (rs_New (DataShards p) (ParityShards p) (len (PData p))) →
  ∀ i, 0 ≤ i < DataShards p →
    recent (onParityFrame r f now range).2 !! (BaseSeq p + i) = truth !! (BaseSeq p + i) ∧
    (recent r !! (BaseSeq p + i) = None →
     ∃ pl, truth !! (BaseSeq p + i) = Some pl ∧
       (BaseSeq p + i, pl) ∈ (onParityFrame r f now range).1).
Proof.
  intros Hlaws Hok Hrun Hrange Hp Hg Hb Hmiss Hav Hnew i Hi.
  destruct (recv_run_inv Hlaws truth _ _ _ _ (new_recv_inv truth ext) Hok Hrun) as (Hr & He & _).
  cbn [rextParity newFECReceiverExt] in He. rewrite <- He in Hp, Hg.
  destruct (onParity_complete Hlaws truth _ _ _ _ _ _ Hr Hrange Hp Hg Hb Hmiss Hav Hnew)
    as (Hout & Hrec & _).
  destruct (blockFor_inv truth _ _ _ _ Hr Hg Hb) as (Hbi & Hk & Hm & Hsz).
  pose proof (storeParity_inv truth _ _ _ now Hg Hbi Hk Hm) as Hbs.
  set (b1 := storeParity b p now) in *.
  assert (Hk1 : dataShards b1 = DataShards p) by done.
  destruct (bi_truth _ _ _ Hbs i) as [pl Hpl]; [by rewrite Hk1|].
  assert (Hpay : payload_at truth (BaseSeq p + i) = pl) by (unfold payload_at; by rewrite Hpl).
  assert (Hin : i ∈ missing (recent r) b1 ↔ recent r !! (BaseSeq p + i) = None).
  { unfold missing. rewrite list_elem_of_filter, elem_of_seqZ.
    rewrite (held_at truth _ (BaseSeq p)) by (done || by rewrite Hk1). rewrite Hk1. tauto || lia. }
  split.
  - rewrite Hrec, cache_lookup, Hpay, Hpl. case_decide as Hd; [done|].
    destruct (recent r !! (BaseSeq p + i)) as [x|] eqn:Hx; [|by destruct Hd; apply Hin].
    pose proof (lookup_weaken _ _ _ _ Hx (ri_recent _ _ Hr)). congruence.
  - intros Hx. exists pl. split; [done|]. rewrite Hout. unfold rebuilt. apply list_elem_of_fmap.
    exists i. rewrite Hpay. split; [done|by apply Hin].
Qed.

(** The receiver's state under any input, well-formed or not: at most
    16 blocks are pending after every step, and after a DATA record at most 256
    records are retained and no pending block is older than two seconds. *)
Theorem fec_receiver_bounded `{RS : ReedSolomon} ext es out0 r sq p now range :
  Forall event_wf es →
  recv_run (newFECReceiverExt ext) es = (out0, r) →
  1 ≤ sq ≤ max_u64 → range_ok range →
  let r' := (onData r sq p now range).2 in
  map_len (rblocks r) ≤ 16 ∧ map_len (rblocks r') ≤ 16 ∧ map_len (recent r') ≤ 256 ∧
  map_Forall (λ _ b, now - updatedAt b ≤ fecBlockTTL) (rblocks r').
Proof.
  intros Hwf Hrun Hsq Hrange r'.
  pose proof (recv_run_wf _ _ _ _ (new_recv_wf ext) Hwf Hrun) as Hr.
  destruct (onData r sq p now range) as [out r1] eqn:Hd.
  destruct (onData_wf r sq p now range out r1 Hr ltac:(lia) Hrange Hd) as [Hr1 Hb].
  destruct Hb as [Hn Ht]; [lia|]. unfold r'. cbn [snd].
  split_and!; [exact (rw_blocks _ Hr)|exact (rw_blocks _ Hr1)|exact Hn|done].
Qed.

(** The cap on retained records does not hold on the parity path.
    [pruneRecentLocked] runs only in [onData], while a reconstruction triggered by
    a parity frame also retains what it rebuilds: for every n there are n
    well-formed parity frames, each protecting one record, after which the
    receiver retains n records. *)
Theorem fec_parity_flood `{RS : ReedSolomon} parity_of n now range :
  rs_laws parity_of →
  is_Some (rs_New 1 1 3) →
  Z.of_nat n ≤ max_u64 →
  range_ok range →
  ∃ frames, length frames = n ∧
    Forall (λ f, Cmd f = CMD_FEC ∧ validSessionFrameShape (with_session f 7 1) = true) frames ∧
    map_len (recent (recv_run (newFECReceiverExt false)
      (map (λ f, EvParity f now range) frames)).2) = Z.of_nat n.
Proof.
  intros Hlaws Hnew Hn Hrange.
  exists (map (flood_frame (parity_of := parity_of)) (seqZ (0 + 1) (Z.of_nat n))). split_and!.
  - rewrite length_map, length_seqZ. lia.
  - destruct (flood_shards Hlaws Hnew) as [_ Hl]. apply Forall_fmap, Forall_forall.
    intros i [Hi _]%elem_of_seqZ. split; [done|].
    unfold validSessionFrameShape. cbn [with_session flood_frame SessionID PacketNo Cmd Seq Data].
    rewrite Hl, (proj2 (Z.eqb_neq i 0)) by lia. done.
  - apply (fl_size (parity_of := parity_of) n _ _
      (flood_run Hlaws Hnew n Hn n 0 _ now range (flood_start n) ltac:(lia) ltac:(lia) Hrange)).
Qed.

#[local] Existing Instance xor_code.

Lemma fec_parity_flood_witness :
  ∃ frames, length frames = 1000%nat ∧
    map_len (recent (recv_run (newFECReceiverExt false)
      (map (λ f, EvParity f 0 (λ m, (map_to_list m).*1)) frames)).2) = 1000.
Proof.
  destruct (fec_parity_flood xor_parity 1000 0 (λ m, (map_to_list m).*1) xor_code_laws)
    as (frames & Hl & _ & Hs).
  - by eexists.
  - by vm_compute.
  - intros m. reflexivity.
  - exists frames. split; [exact Hl|exact Hs].
Defined.

Definition any_range : block_map → list Z := λ m, (map_to_list m).*1.
Lemma any_range_ok : range_ok any_range.
Proof. intros m. reflexivity. Qed.

Definition fec_shards : list fecParityShard :=
  (fec_run (mkState (newFECSenderExt true false) [] []) fec_ops).1.

Definition fec_frames : list UDPCFrame :=
  omap (λ p, applyToFrame p (mkFrame 0 2 CMD_FEC 0 7 0 0 0 0 [] [])) fec_shards.

(** Records 1..9 are sent, 3 is lost. *)
Definition fec_arrivals : list recv_event :=
  map (λ i, EvData i [i; 2 * i; 3] 5 any_range) [1; 2; 5; 4; 6; 7; 8; 9].

Lemma fec_arrivals_wf : Forall event_wf fec_arrivals.
Proof.
  unfold fec_arrivals. apply Forall_fmap.
  repeat (constructor; [split; [vm_compute; split; discriminate|apply any_range_ok]|]). constructor.
Qed.

Lemma fec_frames_carry : Forall (carries fec_shards) fec_frames.
Proof.
  apply Forall_forall. intros f (p & Hp & Ha)%list_elem_of_omap.
  by exists p, (mkFrame 0 2 CMD_FEC 0 7 0 0 0 0 [] []).
Qed.

Lemma fec_frames_seq : Forall (λ f, 0 ≤ Seq f) fec_frames.
Proof. apply (bool_decide_unpack _). vm_compute. exact I. Qed.

Lemma fec_recovery_sound_witness :
  let es := fec_arrivals ++ map (λ f, EvParity f 6 any_range) fec_frames in
  (recv_run (newFECReceiverExt false) es).1 = [(3, [3; 6; 3])] ∧
  Forall (original fec_truth) (recv_run (newFECReceiverExt false) es).1.
Proof.
  intros es. split; [vm_compute; reflexivity|].
  apply (fec_recovery_sound xor_parity fec_truth true false fec_ops fec_shards
    (fec_run (mkState (newFECSenderExt true false) [] []) fec_ops).2 es
    (recv_run (newFECReceiverExt false) es).1 (recv_run (newFECReceiverExt false) es).2).
  - apply xor_code_laws.
  - apply (bool_decide_unpack _). vm_compute. exact I.
  - unfold fec_shards. by rewrite <- surjective_pairing.
  - apply Forall_app. split; [apply fec_arrivals_wf|].
    apply Forall_fmap. eapply Forall_impl; [apply fec_frames_seq|]. intros f Hf.
    split; [exact Hf|apply any_range_ok].
  - apply Forall_app. split.
    + unfold fec_arrivals. apply Forall_fmap. repeat (constructor; [vm_compute; reflexivity|]).
      constructor.
    + apply Forall_fmap. exact fec_frames_carry.
  - by rewrite <- surjective_pairing.
Defined.

Definition fec_receiver : fecReceiver := (recv_run (newFECReceiverExt false) fec_arrivals).2.
Definition fec_parity : fecParityShard := hd (mkParity 0 0 0 0 [] false) fec_shards.
Definition fec_frame : UDPCFrame := hd (mkFrame 0 0 0 0 0 0 0 0 0 [] []) fec_frames.

Lemma fec_parity_genuine : genuine xor_parity fec_truth false fec_parity.
Proof.
  destruct (fec_run_inv xor_code_laws fec_truth (mkState (newFECSenderExt true false) [] []) fec_ops
    fec_shards (fec_run (mkState (newFECSenderExt true false) [] []) fec_ops).2) as (_ & _ & Hg).
  - apply new_inv.
  - apply (bool_decide_unpack _). vm_compute. exact I.
  - unfold fec_shards. by rewrite <- surjective_pairing.
  - rewrite Forall_forall in Hg. apply Hg. unfold fec_parity. destruct fec_shards eqn:He; [|constructor].
    vm_compute in He. discriminate.
Qed.

Lemma fec_arrivals_ok : Forall (event_ok (parity_of := xor_parity) fec_truth false) fec_arrivals.
Proof.
  unfold fec_arrivals. apply Forall_fmap.
  repeat (constructor; [split; [vm_compute; split; discriminate|intros _; vm_compute; reflexivity]|]).
  constructor.
Qed.

Lemma fec_recovers_any_k_witness :
  BaseSeq fec_parity + 2 = 3 ∧
  ∃ pl, fec_truth !! (BaseSeq fec_parity + 2) = Some pl ∧
    (BaseSeq fec_parity + 2, pl) ∈ (onParityFrame fec_receiver fec_frame 6 any_range).1.
Proof.
  set (b := mkBlock 1 8 1 5 [None] 6).
  assert (H1 : recv_run (newFECReceiverExt false) fec_arrivals =
    ((recv_run (newFECReceiverExt false) fec_arrivals).1, fec_receiver)).
  { unfold fec_receiver. by rewrite <- surjective_pairing. }
  assert (H2 : parseFECParityFrameExt fec_frame false = Ok fec_parity) by (vm_compute; reflexivity).
  assert (H3 : blockFor fec_receiver fec_parity 6 = Some b) by (vm_compute; reflexivity).
  assert (H4 : missing (recent fec_receiver) (storeParity b fec_parity 6) ≠ [])
    by (vm_compute; discriminate).
  assert (H5 : DataShards fec_parity ≤ available (recent fec_receiver) (storeParity b fec_parity 6))
    by (vm_compute; discriminate).
  assert (H6 : is_Some (rs_New (DataShards fec_parity) (ParityShards fec_parity) (len (PData fec_parity))))
    by (vm_compute; by eexists).
  assert (H7 : 0 ≤ 2 < DataShards fec_parity) by (vm_compute; split; [discriminate|reflexivity]).
  assert (H8 : recent fec_receiver !! (BaseSeq fec_parity + 2) = None) by (vm_compute; reflexivity).
  pose proof (fec_recovers_any_k xor_parity fec_truth false fec_arrivals _ _ _ _ b 6 any_range
    xor_code_laws fec_arrivals_ok H1 any_range_ok H2 fec_parity_genuine H3 H4 H5 H6
    2 H7) as [_ Hrec].
  split; [vm_compute; reflexivity|exact (Hrec H8)].
Defined.

Lemma fec_receiver_bounded_witness :
  map_len (recent (onData fec_receiver 10 [1] 7 any_range).2) ≤ 256.
Proof.
  assert (H1 : recv_run (newFECReceiverExt false) fec_arrivals =
    ((recv_run (newFECReceiverExt false) fec_arrivals).1, fec_receiver)).
  { unfold fec_receiver. by rewrite <- surjective_pairing. }
  assert (H2 : 1 ≤ 10 ≤ max_u64) by (vm_compute; split; discriminate).
  pose proof (fec_receiver_bounded false fec_arrivals _ fec_receiver 10 [1] 7 any_range
    fec_arrivals_wf H1 H2 any_range_ok) as (_ & _ & H & _).
  exact H.
Defined.
