(* ===== verification/GoStrings.v ===== *)
(** The parts of Go's strings and strconv packages the parsers use, on byte
    strings: TrimSpace, Split, Join, Index, Atoi, Itoa. *)
From S2P Require Import Prelude.
Local Open Scope Z_scope.

Definition isSpace (c : Z) : bool := (c =? 32) || ((9 <=? c) && (c <=? 13)).
Definition isDigit (c : Z) : bool := (48 <=? c) && (c <=? 57).

(** The white space beyond ASCII that [unicode.IsSpace] knows, in UTF-8: U+0085,
    U+00A0, U+1680, U+2000 to U+200A, U+2028, U+2029, U+202F, U+205F, U+3000. *)
Definition isSpace2 (a b : Z) : bool := (a =? 194) && ((b =? 133) || (b =? 160)).
Definition isSpace3 (a b c : Z) : bool :=
  ((a =? 225) && (b =? 154) && (c =? 128)) ||
  ((a =? 226) && (b =? 128) && (((128 <=? c) && (c <=? 138)) || (c =? 168) || (c =? 169) || (c =? 175))) ||
  ((a =? 226) && (b =? 129) && (c =? 159)) ||
  ((a =? 227) && (b =? 128) && (c =? 128)).

Section Trim.
Context (two : Z → Z → bool) (three : Z → Z → Z → bool).

Fixpoint trimRunes (s : bytes) : bytes :=
  match s with
  | [] => []
  | a :: s1 =>
      if isSpace a then trimRunes s1 else
      match s1 with
      | [] => s
      | b :: s2 =>
          if two a b then trimRunes s2 else
          match s2 with
          | [] => s
          | c :: s3 => if three a b c then trimRunes s3 else s
          end
      end
  end.
End Trim.

(** From the left a character is read forwards, from the right backwards. *)
Definition trimLeft : bytes → bytes := trimRunes isSpace2 isSpace3.
Definition trimLast : bytes → bytes := trimRunes (λ b a, isSpace2 a b) (λ c b a, isSpace3 a b c).
Definition TrimSpace (s : bytes) : bytes := reverse (trimLast (reverse (trimLeft s))).

(** A visible ASCII character. *)
Definition visible (c : Z) : bool := negb (isSpace c) && (c <? 128).

(** [strings.Split(s, sep)] for a one-byte separator: always at least one part. *)
Fixpoint Split (sep : Z) (s : bytes) : list bytes :=
  match s with
  | [] => [[]]
  | c :: s' =>
      if c =? sep then [] :: Split sep s'
      else match Split sep s' with
           | p :: ps => (c :: p) :: ps
           | [] => [[c]]
           end
  end.

Fixpoint Join (sep : Z) (ps : list bytes) : bytes :=
  match ps with
  | [] => []
  | [p] => p
  | p :: ps' => p ++ sep :: Join sep ps'
  end.

(** [strings.IndexByte]: the first position, or -1. *)
Fixpoint IndexByte (s : bytes) (c : Z) : Z :=
  match s with
  | [] => -1
  | x :: s' => if x =? c then 0 else
               let i := IndexByte s' c in if i <? 0 then -1 else i + 1
  end.

Fixpoint LastIndexByte (s : bytes) (c : Z) : Z :=
  match s with
  | [] => -1
  | x :: s' => let i := LastIndexByte s' c in
               if 0 <=? i then i + 1 else if x =? c then 0 else -1
  end.

(** [strconv.Atoi]: an optional sign and at least one digit, within int64. *)
Fixpoint digits (s : bytes) (acc : Z) : option Z :=
  match s with
  | [] => Some acc
  | c :: s' => if isDigit c then digits s' (acc * 10 + (c - 48)) else None
  end.

Definition Atoi (s : bytes) : option Z :=
  match s with
  | [] => None
  | c :: s' =>
      let neg := c =? 45 in
      let body := if neg || (c =? 43) then s' else s in
      match body with
      | [] => None
      | _ => match digits body 0 with
             | None => None
             | Some v => let v := if neg then - v else v in
                         if (- 2 ^ 63 <=? v) && (v <? 2 ^ 63) then Some v else None
             end
      end
  end.

(** [strconv.Itoa]; twenty digits hold every int64. *)
Fixpoint itoa_digits (fuel : nat) (n : Z) (acc : bytes) : bytes :=
  match fuel with
  | O => acc
  | S fuel =>
      let acc := (48 + n mod 10) :: acc in
      if n / 10 =? 0 then acc else itoa_digits fuel (n / 10) acc
  end.

Definition Itoa (n : Z) : bytes :=
  if n <? 0 then 45 :: itoa_digits 20 (- n) [] else itoa_digits 20 n [].

(** * Splitting and joining *)

Lemma Split_no_sep sep p : sep ∉ p → Split sep p = [p].
Proof.
  induction p as [|c p IH]; intros Hp; [done|]. apply not_elem_of_cons in Hp as [Hc Hp].
  cbn [Split]. destruct (Z.eqb_spec c sep); [congruence|]. by rewrite IH.
Qed.

Lemma Split_app sep p s : sep ∉ p → Split sep (p ++ sep :: s) = p :: Split sep s.
Proof.
  induction p as [|c p IH]; intros Hp; cbn [app Split].
  - by rewrite Z.eqb_refl.
  - apply not_elem_of_cons in Hp as [Hc Hp].
    destruct (Z.eqb_spec c sep); [congruence|]. by rewrite IH.
Qed.

Lemma Split_Join sep ps : ps ≠ [] → Forall (λ p, sep ∉ p) ps → Split sep (Join sep ps) = ps.
Proof.
  induction ps as [|p ps IH]; [done|]. intros _ Hall. apply Forall_cons in Hall as [Hp Hall].
  destruct ps as [|p' ps]; [by apply Split_no_sep|].
  change (Join sep (p :: p' :: ps)) with (p ++ sep :: Join sep (p' :: ps)).
  rewrite Split_app by done. by rewrite IH.
Qed.

Lemma IndexByte_none s c : c ∉ s → IndexByte s c = -1.
Proof.
  induction s as [|x s IH]; intros Hs; [done|]. apply not_elem_of_cons in Hs as [Hx Hs].
  cbn [IndexByte]. destruct (Z.eqb_spec x c); [congruence|]. by rewrite IH.
Qed.

Lemma IndexByte_app s c t : c ∉ s → IndexByte (s ++ c :: t) c = len s.
Proof.
  induction s as [|x s IH]; intros Hs; cbn [app IndexByte].
  - by rewrite Z.eqb_refl.
  - apply not_elem_of_cons in Hs as [Hx Hs]. destruct (Z.eqb_spec x c); [congruence|].
    rewrite IH, len_cons by done. pose proof (len_nonneg s). by destruct (Z.ltb_spec (len s) 0); [lia|].
Qed.

Lemma trimRunes_id two three s :
  (∀ c d, visible c = true → two c d = false) → (∀ c d e, visible c = true → three c d e = false) →
  match s with c :: _ => visible c = true | [] => True end → trimRunes two three s = s.
Proof.
  intros H2 H3. destruct s as [|c [|d [|e s]]]; cbn [trimRunes]; [done|..]; intros Hc;
    assert (isSpace c = false) as -> by (unfold visible in Hc; destruct (isSpace c); done); [done|..];
    rewrite H2 by done; [done|]. by rewrite H3.
Qed.

Lemma trimLeft_id s : match s with c :: _ => visible c = true | [] => True end → trimLeft s = s.
Proof. apply trimRunes_id; intros; unfold visible, isSpace2, isSpace3 in *; lia. Qed.

Lemma trimLast_id s : match s with c :: _ => visible c = true | [] => True end → trimLast s = s.
Proof. apply trimRunes_id; intros; unfold visible, isSpace2, isSpace3 in *; lia. Qed.

(** A string whose bytes are all visible is left alone. *)
Lemma TrimSpace_id s : Forall (λ c, visible c = true) s → TrimSpace s = s.
Proof.
  intros Hs. unfold TrimSpace. rewrite (trimLeft_id s) by (destruct Hs; done).
  rewrite (trimLast_id (reverse s)); [by rewrite reverse_involutive|].
  assert (Hr : Forall (λ c, visible c = true) (reverse s)) by by apply Forall_reverse.
  by destruct Hr.
Qed.

(** * Numbers print and read back *)

Lemma itoa_digits_spec fuel n acc : (0 < fuel)%nat → 0 ≤ n < 10 ^ Z.of_nat fuel →
  ∃ ds, itoa_digits fuel n acc = ds ++ acc ∧ ds ≠ [] ∧ Forall (λ c, isDigit c = true) ds ∧
        ∀ rest, digits (ds ++ rest) 0 = digits rest n.
Proof.
  revert n acc. induction fuel as [|fuel IH]; intros n acc Hf Hn; [lia|].
  cbn [itoa_digits]. pose proof (Z.div_mod n 10 ltac:(lia)) as Hdm.
  pose proof (Z.mod_pos_bound n 10 ltac:(lia)) as Hm.
  assert (Hd : isDigit (48 + n mod 10) = true) by (unfold isDigit; lia).
  destruct (Z.eqb_spec (n / 10) 0) as [H0|H0].
  { exists [48 + n mod 10]. split_and!; [done|done|by constructor|]. intros rest.
    cbn [app digits]. rewrite Hd. f_equal. lia. }
  pose proof (Z.div_pos n 10 ltac:(lia) ltac:(lia)).
  assert (n / 10 < 10 ^ Z.of_nat fuel).
  { apply Z.div_lt_upper_bound; [lia|]. rewrite Nat2Z.inj_succ, Z.pow_succ_r in Hn by lia. lia. }
  destruct (IH (n / 10) ((48 + n mod 10) :: acc)) as (ds & Heq & Hne & Hall & Hdig).
  { destruct fuel; [cbn in *; lia|lia]. }
  { lia. }
  exists (ds ++ [48 + n mod 10]). rewrite Heq. split_and!.
  - by rewrite <- app_assoc.
  - by destruct ds.
  - apply Forall_app. split; [done|by constructor].
  - intros rest. rewrite <- app_assoc. cbn [app]. rewrite Hdig. cbn [digits]. rewrite Hd.
    f_equal. lia.
Qed.

Lemma digit_not c d : isDigit c = true → isDigit d = false → c ≠ d.
Proof. congruence. Qed.

(** Printed non-negative numbers are digits only and read back. *)
Lemma Itoa_spec n : 0 ≤ n < 2 ^ 63 →
  Atoi (Itoa n) = Some n ∧ Itoa n ≠ [] ∧ Forall (λ c, isDigit c = true) (Itoa n).
Proof.
  intros Hn. unfold Itoa. destruct (Z.ltb_spec n 0); [lia|].
  destruct (itoa_digits_spec 20 n []) as (ds & -> & Hne & Hall & Hdig).
  { lia. }
  { change (10 ^ Z.of_nat 20) with 100000000000000000000. lia. }
  rewrite app_nil_r. split_and!; [|done|done]. specialize (Hdig []). rewrite app_nil_r in Hdig.
  destruct ds as [|c ds]; [done|]. apply Forall_cons in Hall as [Hc _].
  unfold Atoi. destruct (Z.eqb_spec c 45); [by subst|]. destruct (Z.eqb_spec c 43); [by subst|].
  cbn [orb]. rewrite Hdig. cbn [digits].
  destruct (Z.leb_spec (- 2 ^ 63) n), (Z.ltb_spec n (2 ^ 63)); done || lia.
Qed.
