(* ===== verification/GoNet.v ===== *)
(** Internet addresses as Go's net and net/netip packages handle them: the byte
    forms of [net.IP] and the parser behind [net.ParseIP]. *)
From S2P Require Import Prelude GoStrings.
Local Open Scope Z_scope.

Definition dot : Z := 46.
Definition colon : Z := 58.
Definition percent : Z := 37.

(** * Forms *)

(** [net.IP.To4] and [To16] on the byte slice; [] is nil. *)
Definition v4InV6Prefix : bytes := zeros 10 ++ [255; 255].
Definition To4 (ip : bytes) : bytes :=
  if len ip =? 4 then ip else
  if (len ip =? 16) && bool_decide (upto 12 ip = v4InV6Prefix) then from 12 ip else [].
Definition To16 (ip : bytes) : bytes :=
  if len ip =? 4 then v4InV6Prefix ++ ip else if len ip =? 16 then ip else [].

(** * Parsing *)

(** [parseIPv4Fields]: [val] and [digLen] describe the octet being read, [fields] are
    the ones before it, latest first; [first] holds at the start of the text. *)
Fixpoint parseIPv4Fields (s : bytes) (first afterDot : bool) (val digLen : Z) (fields : bytes) : option bytes :=
  match s with
  | [] => if len fields <? 3 then None else Some (reverse (val :: fields))
  | c :: s' =>
      if isDigit c then
        if (digLen =? 1) && (val =? 0) then None else
        let val := val * 10 + (c - 48) in
        if 255 <? val then None else parseIPv4Fields s' false false val (digLen + 1) fields
      else if c =? dot then
        if first || bool_decide (s' = []) || afterDot then None else
        if len fields =? 3 then None else parseIPv4Fields s' false true 0 0 (val :: fields)
      else None
  end.
Definition parseIPv4 (s : bytes) : option bytes := parseIPv4Fields s true false 0 0 [].

Definition hexVal (c : Z) : option Z :=
  if (48 <=? c) && (c <=? 57) then Some (c - 48) else
  if (97 <=? c) && (c <=? 102) then Some (c - 87) else
  if (65 <=? c) && (c <=? 70) then Some (c - 55) else None.

(** One group of hexadecimal digits: its value, its length and the rest; [None] when
    it has more than four digits. *)
Fixpoint hexGroup (s : bytes) (off acc : Z) : option (Z * Z * bytes) :=
  match s with
  | [] => Some (acc, off, [])
  | c :: s' =>
      match hexVal c with
      | Some d => if 3 <? off then None else hexGroup s' (off + 1) (acc * 16 + d)
      | None => Some (acc, off, s)
      end
  end.

(** The loop of [parseIPv6]: the groups so far, the position of the ellipsis and the
    text left.  The result is the bytes, the ellipsis and the unread text. *)
Fixpoint ipv6Loop (fuel : nat) (s : bytes) (ip : bytes) (ellipsis : option Z) : option (bytes * option Z * bytes) :=
  match fuel with
  | O => None
  | S fuel =>
      if 16 <=? len ip then Some (ip, ellipsis, s) else
      match hexGroup s 0 0 with
      | None => None
      | Some (acc, off, rest) =>
          if off =? 0 then None else
          match rest with
          | [] => Some (ip ++ [acc / 256; acc mod 256], ellipsis, [])
          | c :: rest' =>
              if c =? dot then
                if bool_decide (ellipsis = None) && negb (len ip =? 12) then None else
                if 16 <? len ip + 4 then None else
                match parseIPv4 s with Some q => Some (ip ++ q, ellipsis, []) | None => None end
              else if negb (c =? colon) then None else
              let ip := ip ++ [acc / 256; acc mod 256] in
              match rest' with
              | [] => None
              | d :: rest'' =>
                  if d =? colon then
                    match ellipsis with
                    | Some _ => None
                    | None =>
                        match rest'' with
                        | [] => Some (ip, Some (len ip), [])
                        | _ => ipv6Loop fuel rest'' ip (Some (len ip))
                        end
                    end
                  else ipv6Loop fuel rest' ip ellipsis
              end
          end
      end
  end.

(** The address without its zone; every turn of the loop adds two bytes, so nine
    turns reach the bound of sixteen. *)
Definition parseIPv6 (s : bytes) : option bytes :=
  let lead := match s with c :: d :: s' => if (c =? colon) && (d =? colon) then Some s' else None | _ => None end in
  match lead with
  | Some [] => Some (zeros 16)
  | _ =>
      let '(s, e) := match lead with Some s' => (s', Some 0) | None => (s, None) end in
      match ipv6Loop 9 s [] e with
      | Some (ip, e, []) =>
          if len ip <? 16 then
            match e with
            | None => None
            | Some k => Some (upto k ip ++ zeros (16 - len ip) ++ from k ip)
            end
          else match e with None => Some ip | Some _ => None end
      | _ => None
      end
  end.

(** [netip.ParseAddr] looks for the first separator; [net.ParseIP] takes the sixteen
    byte form and refuses a zone. *)
Fixpoint ParseAddr (all s : bytes) : option bytes :=
  match s with
  | [] => None
  | c :: s' =>
      if c =? dot then (λ q, v4InV6Prefix ++ q) <$> parseIPv4 all else
      if c =? colon then (if 0 <=? IndexByte all percent then None else parseIPv6 all) else
      if c =? percent then None else ParseAddr all s'
  end.
Definition ParseIP (s : bytes) : option bytes := ParseAddr s s.
