(* ===== verification/Readers.v ===== *)
(** Receiving datagrams on Linux: the batching reader of src/tunnel/packet_reader.go and
    packet_reader_batch_linux.go, the original destination port in the control data
    (origdst_linux.go), and the backoff of the receive loops (server.go, client.go).

    What the kernel hands over is an argument: a datagram with its source and control
    data, or an error.  The packets a reader returns borrow its buffers, so a packet is
    a view, a buffer number and a length. *)
From S2P Require Import Prelude Protocol GoNet.
Local Open Scope Z_scope.

(** * Control messages *)

Definition IPPROTO_IP : Z := 0.
Definition IPPROTO_IPV6 : Z := 41.
Definition ipOrigDstAddr : Z := 20.
Definition ipv6OrigDstAddr : Z := 74.

Definition SizeofCmsghdr : Z := 16.
Definition cmsgAlignOf (n : Z) : Z := (n + 7) / 8 * 8.

Definition le_val (l : bytes) : Z := be_val (reverse l).

Record SocketControlMessage := mkCmsg { Level : Z; Type_ : Z; CData : bytes }.

(** syscall.ParseSocketControlMessage on a 64-bit machine: a header of length (8
    bytes), level and type (4 bytes each), then the data, padded to 8 bytes. *)
Fixpoint parseControl (fuel : nat) (b : bytes) : option (list SocketControlMessage) :=
  match fuel with
  | O => Some []
  | S fuel =>
      if SizeofCmsghdr <=? len b then
        let hlen := le_val (upto 8 b) in
        if (hlen <? SizeofCmsghdr) || (len b <? hlen) then None else
        match parseControl fuel (from (cmsgAlignOf hlen) b) with
        | Some ms => Some (mkCmsg (le_val (slice 8 12 b)) (le_val (slice 12 16 b)) (slice SizeofCmsghdr hlen b) :: ms)
        | None => None
        end
      else Some []
  end.
(** Each turn consumes a header. *)
Definition ParseSocketControlMessage (b : bytes) : option (list SocketControlMessage) := parseControl (length b) b.

(** The sockaddr of the family of the message. *)
Definition minLen (m : SocketControlMessage) : option Z :=
  if (Level m =? IPPROTO_IP) && (Type_ m =? ipOrigDstAddr) then Some 16
  else if (Level m =? IPPROTO_IPV6) && (Type_ m =? ipv6OrigDstAddr) then Some 28
  else None.

Fixpoint origPortOf (ms : list SocketControlMessage) : Z :=
  match ms with
  | [] => 0
  | m :: ms =>
      match minLen m with
      | Some n => if len (CData m) <? n then origPortOf ms else be_val (slice 2 4 (CData m))
      | None => origPortOf ms
      end
  end.

Definition parseOrigDstPort (oob : bytes) : Z :=
  if len oob =? 0 then 0 else
  match ParseSocketControlMessage oob with Some ms => origPortOf ms | None => 0 end.

(** * Datagrams *)

Definition recvBatch : Z := 16.
Definition oobSize : Z := 512.

(** A datagram as the kernel has it. *)
Record dgram := mkDgram { payload : bytes; source : option (bytes * Z); control : bytes }.

(** What fits a receive buffer, and the flags MSG_TRUNC and MSG_CTRUNC. *)
Definition cut (d : dgram) : bool := UDPC_MAX_PKT <? len (payload d).
Definition ccut (d : dgram) : bool := oobSize <? len (control d).

Record udpPacket := mkPkt { pslot : nat; plen : Z; pfrom : bytes * Z; porig : Z }.

Record packetReader := mkReader {
  bufs : list bytes;
  oobs : list bytes;
  pkts : list udpPacket;
  disabled : bool;
}.

Definition newPacketReader : packetReader :=
  mkReader (repeat (zeros UDPC_MAX_PKT) (Z.to_nat recvBatch)) (repeat (zeros oobSize) (Z.to_nat recvBatch))
    (repeat (mkPkt 0 0 ([], 0) 0) (Z.to_nat recvBatch)) false.

(** Bytes read into a buffer overwrite its beginning. *)
Definition overwrite (cap : Z) (data old : bytes) : bytes :=
  let n := Z.min cap (len data) in upto n data ++ from n old.

(** The kernel fills buffer [k]. *)
Definition receive (r : packetReader) (k : nat) (d : dgram) : packetReader :=
  mkReader (alter (overwrite UDPC_MAX_PKT (payload d)) k (bufs r)) (alter (overwrite oobSize (control d)) k (oobs r))
    (pkts r) (disabled r).

Definition setPkt (r : packetReader) (k : nat) (p : udpPacket) : packetReader :=
  mkReader (bufs r) (oobs r) (<[k := p]> (pkts r)) (disabled r).

Definition Unmap (a : bytes) : bytes :=
  if (len a =? 16) && bool_decide (upto 12 a = v4InV6Prefix) then from 12 a else a.
Definition unmapped (a : bytes * Z) : bytes * Z := (Unmap a.1, a.2).

Definition nread (d : dgram) : Z := Z.min UDPC_MAX_PKT (len (payload d)).
Definition noob (d : dgram) : Z := Z.min oobSize (len (control d)).

(** A read of one datagram into slot [k]: [None] when it was cut. *)
Definition readOne (r : packetReader) (k : nat) (d : dgram) : bool * packetReader :=
  let r := receive r k d in
  let origPort := if ccut d then 0 else parseOrigDstPort (upto (noob d) (default [] (oobs r !! k))) in
  if cut d then (false, r)
  else (true, setPkt r k (mkPkt k (nread d) (unmapped (default ([], 0) (source d))) origPort)).

(** What a read of a batch comes to, after the messages it received. *)
Inductive batch_error := BNone | BAgain | BUnsupported | BOther.

Fixpoint receiveAll (r : packetReader) (k : nat) (ds : list dgram) : packetReader :=
  match ds with [] => r | d :: ds => receiveAll (receive r k d) (S k) ds end.

(** The loop over the messages of a batch: message [i] is in buffer [i], the next packet
    goes to slot [k]. *)
Fixpoint drainLoop (r : packetReader) (i k : nat) (ds : list dgram) : nat * packetReader :=
  match ds with
  | [] => (k, r)
  | d :: ds =>
      match source d with
      | None => drainLoop r (S i) k ds
      | Some a =>
          let origPort :=
            if negb (ccut d) && (0 <? noob d) && (noob d <=? oobSize)
            then parseOrigDstPort (upto (noob d) (default [] (oobs r !! i))) else 0 in
          if cut d then drainLoop r (S i) k ds else
          if len (default [] (bufs r !! i)) <? nread d then drainLoop r (S i) k ds
          else drainLoop (setPkt r k (mkPkt i (nread d) (unmapped a) origPort)) (S i) (S k) ds
      end
  end.

(** [drain]: where the packets end, whether the batch was handled, whether it failed. *)
Definition drain (r : packetReader) (start : nat) (ds : list dgram) (err : batch_error) :
    nat * bool * bool * packetReader :=
  if disabled r || negb (start =? 1)%nat then (start, false, false, r) else
  let ds := take (Z.to_nat recvBatch - start) ds in
  let r := receiveAll r 1 ds in
  let '(k, r) := drainLoop r 1 start ds in
  if (0 <? length ds)%nat then (k, true, false, r) else
  match err with
  | BNone | BAgain => (start, true, false, r)
  | BUnsupported => (start, false, false, mkReader (bufs r) (oobs r) (pkts r) true)
  | BOther => (start, true, true, r)
  end.

(** The portable drain: [None] is a timeout or an error.  A datagram that was cut leaves
    its slot to the next one.  The reads left over are returned. *)
Fixpoint drainPortable (r : packetReader) (k : nat) (reads : list (option dgram)) :
    nat * list (option dgram) * packetReader :=
  if (Z.to_nat recvBatch <=? k)%nat then (k, reads, r) else
  match reads with
  | [] => (k, [], r)
  | None :: reads => (k, reads, r)
  | Some d :: reads =>
      match readOne r k d with
      | (false, r) => drainPortable r k reads
      | (true, r) => drainPortable r (S k) reads
      end
  end.

(** [next]: the packets, or [None] for an error of the first read; [ds] and [err] are what
    recvmmsg would give after it, [reads] what single reads would. *)
Definition next (r : packetReader) (first : option dgram) (ds : list dgram) (err : batch_error)
    (reads : list (option dgram)) : option (list udpPacket) * packetReader :=
  match first with
  | None => (None, r)
  | Some d =>
      match readOne r 0 d with
      | (false, r) => (Some [], r)
      | (true, r) =>
          let '(end_, handled, failed, r) := drain r 1 ds err in
          if handled then (Some (take (if failed then 1%nat else end_) (pkts r)), r) else
          let '(k, _, r) := drainPortable r 1 reads in
          (Some (take k (pkts r)), r)
      end
  end.

(** * Keeping a receive loop alive *)

Definition millisecond : Z := 1000000.

Inductive read_error := RTransient | RClosed | RUnknown.

(** [serveConn] after a failed read: the pause before the next read, or [None] to stop;
    [closed] is the server's flag. *)
Definition serveRetry (closed : bool) (backoff : Z) (e : read_error) : option Z :=
  if closed then None else
  match e with
  | RTransient =>
      Some (if backoff =? 0 then millisecond
            else if backoff <? 1000 * millisecond then backoff * 2 else backoff)
  | RClosed => None
  | RUnknown => Some (if backoff =? 0 then 10 * millisecond else Z.min (backoff * 2) (1000 * millisecond))
  end.

(** [recvSocketLoop]: the pause after a failed rebuild of the socket. *)
Definition rebuildBackoff (backoff : Z) : Z := Z.min (backoff * 2) (5000 * millisecond).

(** * The original destination port *)

(** A control message as the kernel lays it out. *)
Definition cmsg (m : SocketControlMessage) : bytes :=
  let n := SizeofCmsghdr + len (CData m) in
  le_bytes 8 n ++ le_bytes 4 (Level m) ++ le_bytes 4 (Type_ m) ++ CData m ++ zeros (cmsgAlignOf n - n).

Definition cmsg_ok (m : SocketControlMessage) : Prop :=
  0 ≤ Level m < 2 ^ 32 ∧ 0 ≤ Type_ m < 2 ^ 32 ∧ Forall is_byte (CData m) ∧ len (CData m) < 2 ^ 32.

Lemma len_le_bytes n z : len (le_bytes n z) = Z.of_nat n.
Proof. unfold le_bytes, len. by rewrite length_reverse, length_be_bytes. Qed.

Lemma le_val_le_bytes n z : 0 ≤ z < 256 ^ Z.of_nat n → le_val (le_bytes n z) = z.
Proof. intros H. unfold le_val, le_bytes. rewrite reverse_involutive, be_val_be_bytes. by apply Z.mod_small. Qed.

Lemma align_bounds n : n ≤ cmsgAlignOf n < n + 8.
Proof. unfold cmsgAlignOf. pose proof (Z.div_mod (n + 7) 8). pose proof (Z.mod_pos_bound (n + 7) 8). lia. Qed.

Lemma len_cmsg m : len (cmsg m) = cmsgAlignOf (SizeofCmsghdr + len (CData m)).
Proof.
  unfold cmsg. pose proof (align_bounds (SizeofCmsghdr + len (CData m))).
  rewrite !len_app, !len_le_bytes, len_zeros by lia. unfold SizeofCmsghdr in *. lia.
Qed.

Lemma parseControl_cmsg fuel m rest :
  cmsg_ok m → parseControl (S fuel) (cmsg m ++ rest) = (λ ms, m :: ms) <$> parseControl fuel rest.
Proof.
  intros (Hl & Ht & Hd & Hn). pose proof (len_nonneg (CData m)). pose proof (len_nonneg rest).
  set (n := SizeofCmsghdr + len (CData m)). pose proof (align_bounds n) as Ha. pose proof (len_cmsg m) as Hc. fold n in Hc.
  cbn [parseControl]. rewrite len_app, Hc. unfold SizeofCmsghdr in *.
  destruct (Z.leb_spec 16 (cmsgAlignOf n + len rest)); [|lia].
  assert (H8 : le_val (upto 8 (cmsg m ++ rest)) = n).
  { unfold cmsg. rewrite <- !app_assoc, upto_app by (by rewrite len_le_bytes). apply le_val_le_bytes.
    unfold n, SizeofCmsghdr. change (256 ^ Z.of_nat 8) with (2 ^ 64). lia. }
  rewrite H8. destruct (Z.ltb_spec n 16); [lia|]. destruct (Z.ltb_spec (cmsgAlignOf n + len rest) n); [lia|]. cbn [orb].
  rewrite from_app by done. destruct (parseControl fuel rest) as [ms|]; [|done]. cbn. do 2 f_equal.
  assert (E : ∃ tl, cmsg m ++ rest = le_bytes 8 n ++ le_bytes 4 (Level m) ++ le_bytes 4 (Type_ m) ++ CData m ++ tl).
  { eexists. unfold cmsg. fold SizeofCmsghdr. fold n. by rewrite <- !app_assoc. }
  destruct E as [tl ->]. destruct m as [l t d]; cbn [Level Type_ CData] in *. f_equal.
  - rewrite slice_app by (by rewrite len_le_bytes). apply le_val_le_bytes. change (256 ^ Z.of_nat 4) with (2 ^ 32). lia.
  - rewrite (app_assoc (le_bytes 8 n)), slice_app by (by rewrite ?len_app, !len_le_bytes).
    apply le_val_le_bytes. change (256 ^ Z.of_nat 4) with (2 ^ 32). lia.
  - rewrite (app_assoc (le_bytes 4 l)), (app_assoc (le_bytes 8 n)), slice_app; [done|by rewrite !len_app, !len_le_bytes|].
    unfold n, SizeofCmsghdr. lia.
Qed.

Lemma parseControl_all fuel ms :
  (length ms <= fuel)%nat → Forall cmsg_ok ms → parseControl fuel (concat (map cmsg ms)) = Some ms.
Proof.
  revert fuel. induction ms as [|m ms IH]; intros fuel Hf Hm; [by destruct fuel|].
  destruct fuel as [|fuel]; cbn in Hf; [lia|]. apply Forall_cons in Hm as [Hm Hms].
  cbn [map concat]. rewrite parseControl_cmsg by done. by rewrite IH by (done || lia).
Qed.

Lemma length_cmsgs ms : (length ms <= length (concat (map cmsg ms)))%nat.
Proof.
  induction ms as [|m ms IH]; [done|]. cbn [map concat length]. rewrite length_app.
  pose proof (len_cmsg m) as H. pose proof (align_bounds (SizeofCmsghdr + len (CData m))).
  pose proof (len_nonneg (CData m)). unfold len, SizeofCmsghdr in *. lia.
Qed.

(** A message that reports an original destination. *)
Definition reports (m : SocketControlMessage) : bool :=
  match minLen m with Some n => n <=? len (CData m) | None => false end.

Lemma origPortOf_find ms :
  origPortOf ms = match List.find reports ms with Some m => be_val (slice 2 4 (CData m)) | None => 0 end.
Proof.
  induction ms as [|m ms IH]; [done|]. cbn [origPortOf List.find]. unfold reports at 1.
  destruct (minLen m) as [n|]; [|done]. destruct (Z.ltb_spec (len (CData m)) n), (Z.leb_spec n (len (CData m))); done || lia.
Qed.

Lemma parse_origdst ms :
  Forall cmsg_ok ms →
  parseOrigDstPort (concat (map cmsg ms)) =
  match List.find reports ms with Some m => be_val (slice 2 4 (CData m)) | None => 0 end.
Proof.
  intros Hm. unfold parseOrigDstPort, ParseSocketControlMessage.
  rewrite parseControl_all by (done || apply length_cmsgs). rewrite <- origPortOf_find.
  destruct (Z.eqb_spec (len (concat (map cmsg ms))) 0) as [E|]; [|done].
  pose proof (length_cmsgs ms). unfold len in E. destruct ms; [done|]. cbn in *. lia.
Qed.

(** * The packets are the datagrams *)

Record reader_wf (r : packetReader) : Prop := {
  rw_bufs : length (bufs r) = 16%nat;
  rw_oobs : length (oobs r) = 16%nat;
  rw_pkts : length (pkts r) = 16%nat;
  rw_size : Forall (λ b, len b = UDPC_MAX_PKT) (bufs r);
  rw_osize : Forall (λ b, len b = oobSize) (oobs r);
}.

(** What a packet's borrowed bytes are, with its source and port. *)
Definition view (r : packetReader) (p : udpPacket) : bytes * (bytes * Z) * Z :=
  (upto (plen p) (default [] (bufs r !! pslot p)), pfrom p, porig p).

Definition datum (d : dgram) : bytes * (bytes * Z) * Z :=
  (payload d, unmapped (default ([], 0) (source d)), if ccut d then 0 else parseOrigDstPort (control d)).
Definition delivered (d : dgram) : list (bytes * (bytes * Z) * Z) := if cut d then [] else [datum d].
(** A message of a batch also needs a source. *)
Definition bdelivered (d : dgram) : list (bytes * (bytes * Z) * Z) :=
  match source d with Some _ => delivered d | None => [] end.

Lemma len_overwrite cap data old : 0 ≤ cap → len old = cap → len (overwrite cap data old) = cap.
Proof.
  intros H0 Ho. unfold overwrite. pose proof (len_nonneg data). rewrite len_app, len_upto, len_from; lia.
Qed.

Lemma upto_overwrite cap data old :
  0 ≤ cap → upto (Z.min cap (len data)) (overwrite cap data old) = upto (Z.min cap (len data)) data.
Proof. intros H0. unfold overwrite. pose proof (len_nonneg data). apply upto_app. rewrite len_upto; lia. Qed.

Lemma receive_wf r k d : reader_wf r → reader_wf (receive r k d).
Proof.
  intros [H1 H2 H3 H4 H5]. split; cbn [receive bufs oobs pkts]; rewrite ?length_alter; try done.
  - apply Forall_alter; [done|]. intros b _ Hb. by apply len_overwrite.
  - apply Forall_alter; [done|]. intros b _ Hb. by apply len_overwrite.
Qed.

Lemma setPkt_wf r k p : reader_wf r → reader_wf (setPkt r k p).
Proof. intros [H1 H2 H3 H4 H5]. split; cbn [setPkt bufs oobs pkts]; by rewrite ?length_insert. Qed.

(** Buffer [k] holds datagram [d]. *)
Definition holds (r : packetReader) (k : nat) (d : dgram) : Prop :=
  ∃ b o, bufs r !! k = Some b ∧ oobs r !! k = Some o ∧ len b = UDPC_MAX_PKT ∧
    upto (nread d) b = upto (nread d) (payload d) ∧ upto (noob d) o = upto (noob d) (control d).

Lemma receive_holds r k d : reader_wf r → (k < 16)%nat → holds (receive r k d) k d.
Proof.
  intros [H1 H2 _ H4 H5] Hk. destruct (lookup_lt_is_Some_2 (bufs r) k) as [b Hb]; [lia|].
  destruct (lookup_lt_is_Some_2 (oobs r) k) as [o Ho]; [lia|].
  exists (overwrite UDPC_MAX_PKT (payload d) b), (overwrite oobSize (control d) o). cbn [receive bufs oobs].
  rewrite !list_lookup_alter_eq, Hb, Ho. split_and!; try done.
  - apply len_overwrite; [done|]. by apply (Forall_lookup_1 _ _ _ _ H4 Hb).
  - by apply upto_overwrite.
  - by apply upto_overwrite.
Qed.

Lemma receive_other r k d j d' : j ≠ k → holds r j d' → holds (receive r k d) j d'.
Proof. intros Hj (b & o & ?). exists b, o. cbn [receive bufs oobs]. by rewrite !list_lookup_alter_ne by done. Qed.

Lemma setPkt_holds r k p j d : holds r j d → holds (setPkt r k p) j d.
Proof. done. Qed.

Lemma receiveAll_spec r k ds :
  reader_wf r → (k + length ds <= 16)%nat →
  reader_wf (receiveAll r k ds) ∧ pkts (receiveAll r k ds) = pkts r ∧ disabled (receiveAll r k ds) = disabled r ∧
  (∀ j d, ds !! j = Some d → holds (receiveAll r k ds) (k + j) d) ∧
  (∀ j, (j < k)%nat → bufs (receiveAll r k ds) !! j = bufs r !! j ∧ ∀ d, holds r j d → holds (receiveAll r k ds) j d).
Proof.
  revert r k. induction ds as [|d ds IH]; intros r k Hr Hk; cbn [receiveAll length] in *; [by split_and!|].
  destruct (IH (receive r k d) (S k)) as (H1 & H2 & H3 & H4 & H5); [by apply receive_wf|lia|].
  split_and!; try done.
  - intros [|j] d' Hj; cbn in Hj.
    + injection Hj as <-. rewrite Nat.add_0_r. apply H5; [lia|]. apply receive_holds; [done|lia].
    + rewrite Nat.add_succ_r. by apply (H4 j).
  - intros j Hj. destruct (H5 j ltac:(lia)) as [E H6]. rewrite E. cbn [receive bufs].
    rewrite list_lookup_alter_ne by lia. split; [done|]. intros d' H. apply H6, receive_other; [lia|done].
Qed.

(** A packet made from a buffer shows the datagram in it. *)
Lemma view_datum r k d :
  holds r k d → cut d = false →
  view r (mkPkt k (nread d) (unmapped (default ([], 0) (source d)))
    (if ccut d then 0 else parseOrigDstPort (upto (noob d) (default [] (oobs r !! k))))) = datum d.
Proof.
  intros (b & o & Hb & Ho & _ & Eb & Eo) Hc. unfold view, datum. cbn [pslot plen pfrom porig]. rewrite Hb, Ho.
  cbn [from_option id]. rewrite Eb, Eo. unfold cut, ccut in *. apply Z.ltb_ge in Hc. unfold nread, noob.
  rewrite (upto_all _ (payload d)) by lia. destruct (Z.ltb_spec oobSize (len (control d))); [done|].
  by rewrite (upto_all _ (control d)) by lia.
Qed.

Lemma take_insert_snoc {A} (l : list A) k x : (k < length l)%nat → take (S k) (<[k := x]> l) = take k l ++ [x].
Proof.
  intros Hk. rewrite (take_S_r _ _ x) by (by apply list_lookup_insert_eq). by rewrite take_insert_ge by lia.
Qed.

Lemma drainLoop_spec r i k ds :
  reader_wf r → (k <= i)%nat → (i + length ds <= 16)%nat → (∀ j d, ds !! j = Some d → holds r (i + j) d) →
  let '(k', r') := drainLoop r i k ds in
  reader_wf r' ∧ bufs r' = bufs r ∧ disabled r' = disabled r ∧ ∃ new,
    take k' (pkts r') = take k (pkts r) ++ new ∧ (k' = k + length new)%nat ∧ (k' <= i + length ds)%nat ∧
    map (view r) new = flat_map bdelivered ds ∧ Forall (λ p, (i <= pslot p)%nat) new ∧ NoDup (map pslot new).
Proof.
  revert r i k. induction ds as [|d ds IH]; intros r i k Hr Hk Hi Hh; cbn [drainLoop length flat_map] in *.
  { split_and!; try done. exists []. rewrite app_nil_r. split_and!; [done|cbn; lia|lia|done|done|apply NoDup_nil_2]. }
  assert (Hd : holds r i d) by (rewrite <- (Nat.add_0_r i); by apply (Hh 0%nat)).
  assert (Hh' : ∀ j d', ds !! j = Some d' → holds r (S i + j) d')
    by (intros j d' Hj; rewrite Nat.add_succ_l, <- Nat.add_succ_r; by apply (Hh (S j))).
  assert (Hskip : bdelivered d = [] → let '(k', r') := drainLoop r (S i) k ds in
    reader_wf r' ∧ bufs r' = bufs r ∧ disabled r' = disabled r ∧ ∃ new,
      take k' (pkts r') = take k (pkts r) ++ new ∧ (k' = k + length new)%nat ∧ (k' <= i + S (length ds))%nat ∧
      map (view r) new = bdelivered d ++ flat_map bdelivered ds ∧ Forall (λ p, (i <= pslot p)%nat) new ∧ NoDup (map pslot new)).
  { intros ->. specialize (IH r (S i) k Hr ltac:(lia) ltac:(lia) Hh'). destruct (drainLoop r (S i) k ds) as [k' r'].
    destruct IH as (H1 & H2 & H3 & new & H4 & H5 & H6 & H7 & H8 & H9). split_and!; try done. exists new.
    split_and!; try done; [lia|]. eapply Forall_impl; [exact H8|]. cbv beta. intros; lia. }
  destruct (source d) as [a|] eqn:Ha; [|apply Hskip; unfold bdelivered; by rewrite Ha].
  destruct (cut d) eqn:Hc; [apply Hskip; unfold bdelivered, delivered; by rewrite Ha, Hc|]. clear Hskip.
  assert (Hbd : bdelivered d = [datum d]) by (unfold bdelivered, delivered; by rewrite Ha, Hc). rewrite Hbd. clear Hbd.
  pose proof Hd as (b & o & Hb & Ho & Hbl & Eb & Eo). rewrite Hb. cbn [from_option id]. rewrite Hbl.
  destruct (Z.ltb_spec UDPC_MAX_PKT (nread d)) as [Hn|_]; [unfold nread in Hn; lia|].
  match goal with |- context [setPkt r k ?p] => set (pk := p) end.
  assert (Hv : view r pk = datum d).
  { rewrite <- (view_datum r i d Hd Hc). unfold pk. rewrite Ha, Ho. cbn [from_option id]. do 2 f_equal.
    pose proof (len_nonneg (control d)). destruct (ccut d) eqn:Hcc; [done|]. unfold ccut in Hcc. apply Z.ltb_ge in Hcc.
    unfold noob. destruct (Z.leb_spec (Z.min oobSize (len (control d))) oobSize); [|lia].
    destruct (Z.ltb_spec 0 (Z.min oobSize (len (control d)))); [done|]. cbn [negb andb].
    rewrite (Z.min_r oobSize) in * by lia. replace (len (control d)) with 0 by lia. done. }
  specialize (IH (setPkt r k pk) (S i) (S k) (setPkt_wf _ _ _ Hr) ltac:(lia) ltac:(lia) Hh').
  destruct (drainLoop (setPkt r k pk) (S i) (S k) ds) as [k' r'].
  destruct IH as (H1 & H2 & H3 & new & H4 & H5 & H6 & H7 & H8 & H9). split_and!; try done. exists (pk :: new).
  split_and!.
  - rewrite H4. cbn [setPkt pkts]. rewrite take_insert_snoc by (rewrite (rw_pkts _ Hr); lia). by rewrite <- app_assoc.
  - cbn. lia.
  - lia.
  - cbn [map app]. rewrite Hv. f_equal. exact H7.
  - constructor; [done|]. eapply Forall_impl; [exact H8|]. cbv beta. intros; lia.
  - cbn [map]. apply NoDup_cons_2; [|done]. intros (p & E & Hp)%list_elem_of_fmap. rewrite Forall_forall in H8.
    specialize (H8 p Hp). cbn in E. lia.
Qed.

Lemma readOne_spec r k d :
  reader_wf r → (k < 16)%nat →
  let '(ok, r') := readOne r k d in
  reader_wf r' ∧ disabled r' = disabled r ∧ (∀ j, j ≠ k → bufs r' !! j = bufs r !! j) ∧ take k (pkts r') = take k (pkts r) ∧
  if cut d then ok = false
  else ok = true ∧ ∃ p, take (S k) (pkts r') = take k (pkts r) ++ [p] ∧ view r' p = datum d ∧ pslot p = k.
Proof.
  intros Hr Hk. unfold readOne. pose proof (receive_wf r k d Hr) as Hw. pose proof (receive_holds r k d Hr Hk) as Hh.
  assert (Ho : ∀ j, j ≠ k → bufs (receive r k d) !! j = bufs r !! j)
    by (intros j Hj; cbn [receive bufs]; by rewrite list_lookup_alter_ne by done).
  destruct (cut d) eqn:Hc; [by split_and!|]. split_and!; try done.
  - by apply setPkt_wf.
  - cbn [setPkt pkts]. by rewrite take_insert_ge by lia.
  - eexists. cbn [setPkt pkts]. split_and!; [apply take_insert_snoc; cbn [receive pkts]; by rewrite (rw_pkts _ Hr)|exact (view_datum _ _ _ Hh Hc)|done].
Qed.

Lemma view_same r r' p : bufs r' !! pslot p = bufs r !! pslot p → view r' p = view r p.
Proof. intros E. unfold view. by rewrite E. Qed.

Lemma views_same r r' ps :
  Forall (λ p, bufs r' !! pslot p = bufs r !! pslot p) ps → map (view r') ps = map (view r) ps.
Proof. induction 1 as [|p ps E _ IH]; [done|]. cbn [map]. by rewrite IH, (view_same r r' p E). Qed.

Lemma drainPortable_spec r k reads :
  reader_wf r → (k <= 16)%nat →
  let '(k', rest, r') := drainPortable r k reads in
  reader_wf r' ∧ (∀ j, (j < k)%nat → bufs r' !! j = bufs r !! j) ∧ ∃ new got,
    take k' (pkts r') = take k (pkts r) ++ new ∧ (k' = k + length new)%nat ∧ (k' <= 16)%nat ∧
    map (view r') new = flat_map delivered got ∧ map pslot new = seq k (length new) ∧
    (reads = map Some got ++ rest ∧ (k' = 16%nat ∨ rest = []) ∨ reads = map Some got ++ None :: rest).
Proof.
  assert (Hstop : ∀ r k (rest : list (option dgram)), (k <= 16)%nat → (k = 16%nat ∨ rest = []) → ∃ new got,
    take k (pkts r) = take k (pkts r) ++ new ∧ (k = k + length new)%nat ∧ (k <= 16)%nat ∧
    map (view r) new = flat_map delivered got ∧ map pslot new = seq k (length new) ∧
    (rest = map Some got ++ rest ∧ (k = 16%nat ∨ rest = []) ∨ rest = map Some got ++ None :: rest)).
  { intros r' k' rest Hk' Hend. exists [], []. rewrite app_nil_r. cbn. split_and!; try done; try lia. by left. }
  revert r k. induction reads as [|rd reads IH]; intros r k Hr Hk; cbn [drainPortable];
    change (Z.to_nat recvBatch) with 16%nat in *.
  { destruct (Nat.leb_spec 16 k); split_and!; auto. }
  destruct (Nat.leb_spec 16 k) as [Hk'|Hk']; [split_and!; try done; apply Hstop; [lia|left; lia]|].
  destruct rd as [d|].
  2: { split_and!; try done. exists [], []. rewrite app_nil_r. cbn. split_and!; try done; try lia. by right. }
  pose proof (readOne_spec r k d Hr Hk') as H. destruct (readOne r k d) as [ok r1].
  destruct H as (Hw & _ & Ho & Ht & Hc). destruct (cut d) eqn:Ec.
  - subst ok. specialize (IH r1 k Hw Hk). destruct (drainPortable r1 k reads) as [[k' rest] r'].
    destruct IH as (H1 & H2 & new & got & H3 & H4 & H5 & H6 & H7 & H8). split_and!; try done.
    { intros j Hj. rewrite H2 by done. apply Ho. lia. }
    exists new, (d :: got). cbn [flat_map map]. unfold delivered at 1. rewrite Ec, <- Ht. split_and!; try done.
    destruct H8 as [[E ?]|E]; rewrite E; [left|right]; done.
  - destruct Hc as [-> (p & Hp & Hv & Hs)]. specialize (IH r1 (S k) Hw Hk'). destruct (drainPortable r1 (S k) reads) as [[k' rest] r'].
    destruct IH as (H1 & H2 & new & got & H3 & H4 & H5 & H6 & H7 & H8). split_and!; try done.
    { intros j Hj. rewrite H2 by lia. apply Ho. lia. }
    exists (p :: new), (d :: got). cbn [flat_map map length seq]. unfold delivered at 1. rewrite Ec, H3, Hp, <- app_assoc.
    split_and!; try done; [cbn; lia|..].
    + cbn [app]. rewrite <- Hv, H6. f_equal. apply view_same. apply H2. lia.
    + by rewrite H7, Hs.
    + destruct H8 as [[E ?]|E]; rewrite E; [left|right]; done.
Qed.

(** Whether recvmmsg takes over after the first read. *)
Definition batched (r : packetReader) (ds : list dgram) (err : batch_error) : bool :=
  negb (disabled r) && match ds, err with [], BUnsupported => false | _, _ => true end.

Lemma next_batched r r1 d p ds err :
  reader_wf r1 → disabled r1 = disabled r → take 1 (pkts r1) = [p] → view r1 p = datum d → pslot p = 0%nat →
  batched r ds err = true →
  let '(end_, handled, failed, r2) := drain r1 1 ds err in
  handled = true ∧ reader_wf r2 ∧ ∃ new, take (if failed then 1%nat else end_) (pkts r2) = p :: new ∧
    map (view r2) (p :: new) = datum d :: flat_map bdelivered (take 15 ds) ∧ NoDup (map pslot (p :: new)) ∧
    (length (p :: new) <= 16)%nat.
Proof.
  intros Hr Hd Hp Hv Hs Hb. unfold batched in Hb. apply andb_true_iff in Hb as [Hb1 Hb2]. rewrite <- Hd in Hb1.
  unfold drain. apply negb_true_iff in Hb1. rewrite Hb1. cbn [orb negb Nat.eqb].
  change (Z.to_nat recvBatch - 1)%nat with 15%nat. set (l := take 15 ds).
  assert (Hl : (length l <= 15)%nat) by (unfold l; rewrite length_take; lia).
  destruct (receiveAll_spec r1 1 l Hr ltac:(lia)) as (H1 & H2 & H3 & H4 & H5).
  pose proof (drainLoop_spec (receiveAll r1 1 l) 1 1 l H1 ltac:(lia) ltac:(lia) H4) as H.
  destruct (drainLoop (receiveAll r1 1 l) 1 1 l) as [k r2].
  destruct H as (Hw & Hbufs & Hdis & new & Ht & Hk & Hle & Hviews & Hge & Hnd).
  assert (Hres : take k (pkts r2) = p :: new ∧ map (view r2) (p :: new) = datum d :: flat_map bdelivered l ∧
    NoDup (map pslot (p :: new)) ∧ (length (p :: new) <= 16)%nat).
  { rewrite Ht, H2, Hp. split_and!; [done|..].
    - cbn [map]. f_equal.
      + rewrite <- Hv. apply view_same. rewrite Hs, Hbufs. apply H5. lia.
      + rewrite <- Hviews. apply views_same. apply Forall_forall. intros ? _. by rewrite Hbufs.
    - cbn [map]. apply NoDup_cons_2; [|done]. intros (q & E & Hq)%list_elem_of_fmap. rewrite Forall_forall in Hge.
      specialize (Hge q Hq). lia.
    - cbn. lia. }
  assert (Hemp : length l = 0%nat → k = 1%nat ∧ new = []).
  { intros E%nil_length_inv. rewrite E in Hviews. destruct new; [|done]. cbn in Hk. split; [lia|done]. }
  destruct (Nat.ltb_spec 0 (length l)) as [Hn|Hn]; [split_and!; try done; by exists new|].
  destruct Hemp as [-> ->]; [lia|].
  assert (Hds : ds = []) by (unfold l in Hn; rewrite length_take in Hn; destruct ds; cbn in *; [done|lia]).
  rewrite Hds in Hb2. destruct err; try discriminate; split_and!; try done; by exists [].
Qed.

(** C37: (safety) What the receive loops process is what arrived: [next] always returns
    after a first datagram; each packet is a datagram received in this call, whole, with
    its own source and the original destination port of its own control data, in order
    of arrival; datagrams longer than a record are dropped and nothing else is, until
    the batch is full or the socket has no more; no packet shows a buffer's earlier
    content, and no two share a buffer. *)
Theorem reader_exact r d ds err reads :
  reader_wf r →
  ∃ ps r', next r (Some d) ds err reads = (Some ps, r') ∧ reader_wf r' ∧
    NoDup (map pslot ps) ∧ len ps ≤ recvBatch ∧
    if cut d then ps = [] else ∃ more, map (view r') ps = datum d :: more ∧
      if batched r ds err then more = flat_map bdelivered (take 15 ds)
      else ∃ got rest, more = flat_map delivered got ∧
        (reads = map Some got ++ rest ∧ (len ps = recvBatch ∨ rest = []) ∨ reads = map Some got ++ None :: rest).
Proof.
  intros Hr. unfold next. pose proof (readOne_spec r 0 d Hr ltac:(lia)) as H. destruct (readOne r 0 d) as [ok r1].
  destruct H as (Hw & Hd & _ & _ & Hc). destruct (cut d) eqn:Ec.
  { subst ok. exists [], r1. split_and!; try done. apply NoDup_nil_2. }
  destruct Hc as [-> (p & Hp & Hv & Hs)]. cbn [app take] in Hp. destruct (batched r ds err) eqn:Eb.
  - pose proof (next_batched r r1 d p ds err Hw Hd Hp Hv Hs Eb) as H. destruct (drain r1 1 ds err) as [[[e h] f] r2].
    destruct H as (-> & H1 & new & H2 & H3 & H4 & H5). rewrite H2. exists (p :: new), r2. split_and!; try done.
    { unfold len, recvBatch. lia. }
    by eexists.
  - assert (H : ∃ r2, drain r1 1 ds err = (1%nat, false, false, r2) ∧ reader_wf r2 ∧ bufs r2 = bufs r1 ∧ pkts r2 = pkts r1).
    { unfold drain. unfold batched in Eb. rewrite <- Hd in Eb. destruct (disabled r1) eqn:E; [by exists r1|].
      destruct ds; [|done]. destruct err; try discriminate. cbn. eexists. split_and!; [done| |done|done].
      destruct Hw. by split. }
    destruct H as (r2 & -> & H1 & H2 & H3). pose proof (drainPortable_spec r2 1 reads H1 ltac:(lia)) as H.
    destruct (drainPortable r2 1 reads) as [[k rest] r3].
    destruct H as (W & Hb & new & got & H4 & H5 & H6 & H7 & H8 & H9). rewrite H3, Hp in H4. exists (p :: new), r3.
    rewrite H4. split_and!; try done.
    + cbn [map]. rewrite Hs, H8. apply (NoDup_ListNoDup (seq 0 (S (length new)))), seq_NoDup.
    + unfold len, recvBatch. cbn. lia.
    + exists (flat_map delivered got). cbn [map]. rewrite H7. split.
      * f_equal. rewrite <- Hv. apply view_same. rewrite Hs, Hb, H2; [done|lia].
      * exists got, rest. split; [done|]. destruct H9 as [[E [E2|E2]]|E]; [left|left|by right]; (split; [done|]); [left|by right].
        unfold len, recvBatch. cbn. lia.
Qed.

(** The original destination port is read from the control data as the
    kernel lays it out: among any control messages, in any order, the port returned is
    that of the first message that reports an original destination of either family,
    and 0 if none does. *)
Theorem origdst_found ms :
  Forall cmsg_ok ms →
  parseOrigDstPort (concat (map cmsg ms)) =
  match List.find reports ms with Some m => be_val (slice 2 4 (CData m)) | None => 0 end.
Proof. apply parse_origdst. Qed.

Lemma origdst_port_range ms : Forall cmsg_ok ms → 0 ≤ parseOrigDstPort (concat (map cmsg ms)) < 65536.
Proof.
  intros Hm. rewrite parse_origdst by done. destruct (List.find reports ms) as [m|] eqn:E; [|done].
  apply find_some in E as [Hin Hr]. apply list_elem_of_In in Hin. rewrite Forall_forall in Hm.
  destruct (Hm m Hin) as (_ & _ & Hb & _).
  assert (Hl : 16 ≤ len (CData m)).
  { revert Hr. unfold reports, minLen. repeat case_match; try done; rewrite Z.leb_le; simplify_eq; lia. }
  pose proof (be_val_range (slice 2 4 (CData m))) as H. rewrite len_slice in H by lia. apply H.
  unfold slice. by apply Forall_take, Forall_drop.
Qed.

(** A receive loop stops only when its server is closed, and otherwise pauses for less
    than two seconds, whatever errors it has met. *)
Lemma serve_keeps_reading closed backoff e :
  0 ≤ backoff < 2000 * millisecond →
  match serveRetry closed backoff e with
  | Some b => 0 < b < 2000 * millisecond
  | None => closed = true ∨ e = RClosed
  end.
Proof. intros Hb. unfold serveRetry, millisecond in *. destruct closed; [auto|]. destruct e; [|by right|]; repeat case_match; lia. Qed.

Section Witness.

Definition demo_cmsg : SocketControlMessage := mkCmsg IPPROTO_IP ipOrigDstAddr (be_bytes 2 2 ++ be_bytes 2 25000 ++ zeros 12).
Definition demo_dgram (b : Z) : dgram := mkDgram [b; b] (Some ([192; 0; 2; 1], 4000)) (cmsg (mkCmsg 1 29 (zeros 16)) ++ cmsg demo_cmsg).

Lemma origdst_found_witness : parseOrigDstPort (cmsg (mkCmsg 1 29 (zeros 16)) ++ cmsg demo_cmsg) = 25000.
Proof.
  rewrite <- (app_nil_r (cmsg demo_cmsg)).
  refine (eq_trans (origdst_found [mkCmsg 1 29 (zeros 16); demo_cmsg] _) _); [|by vm_compute].
  repeat constructor; vm_compute; done.
Defined.

Lemma newPacketReader_wf : reader_wf newPacketReader.
Proof. split; try done; apply Forall_forall; intros b Hb; cbn [newPacketReader bufs oobs] in Hb;
  apply list_elem_of_In, repeat_spec in Hb as ->; by apply len_zeros. Qed.

Lemma reader_exact_witness :
  match next newPacketReader (Some (demo_dgram 1)) [] BUnsupported
      [Some (demo_dgram 2); Some (mkDgram (zeros 2000) None []); Some (demo_dgram 3); None; Some (demo_dgram 4)] with
  | (Some ps, r') => map (view r') ps = map datum [demo_dgram 1; demo_dgram 2; demo_dgram 3] ∧ NoDup (map pslot ps)
  | _ => False
  end.
Proof.
  set (reads := [Some (demo_dgram 2); Some (mkDgram (zeros 2000) None []); Some (demo_dgram 3); None; Some (demo_dgram 4)]).
  destruct (reader_exact newPacketReader (demo_dgram 1) [] BUnsupported reads newPacketReader_wf)
    as (ps & r' & E & _ & Hn & _). rewrite E. split; [|done].
  assert (V : (λ x, match x with (Some ps, r') => map (view r') ps | _ => [] end)
    (next newPacketReader (Some (demo_dgram 1)) [] BUnsupported reads) = map datum [demo_dgram 1; demo_dgram 2; demo_dgram 3])
    by (vm_compute; reflexivity).
  rewrite E in V. exact V.
Defined.

End Witness.
