(* ===== verification/PathQuality.v ===== *)
(** Scores of remote ports, from receive-side evidence: src/tunnel/pathquality.go.

    [loss] is the fixed-point average the compare-and-swap loop of [Observe] keeps; a
    failed swap reads again, so the swap that succeeds is one function of the value
    it replaces.  Times are nanoseconds. *)
From Stdlib Require Import SpecFloat.
From S2P Require Import Prelude Rtt F64.
Local Open Scope Z_scope.

Definition pathQualityFracBits : Z := 20.
Definition pathQualityAlphaShift : Z := 5.
Definition pathQualityFloor : f64 := f64_lit 2 100.
Definition pathQualityRecovery : Z := 30 * second.

Record portScore := mkScore { loss : Z; at_ : Z }.
Abbreviation pathQuality := (gmap Z portScore).

Definition newPathQuality : pathQuality := ∅.

(** One turn of the averaging loop, [>>] rounding towards minus infinity. *)
Definition smooth (old : Z) (lost : bool) : Z :=
  let sample := if lost then Z.shiftl 1 pathQualityFracBits else 0 in
  old + Z.shiftr (sample - old) pathQualityAlphaShift.

Definition Observe (q : pathQuality) (port : Z) (lost : bool) (now : Z) : pathQuality :=
  if port <=? 0 then q else
  let ps := default (mkScore 0 0) (q !! port) in
  <[port := mkScore (smooth (loss ps) lost) now]> q.

Definition lossRate (ps : portScore) : f64 :=
  f64_div (f64_of_int (loss ps)) (f64_of_int (Z.shiftl 1 pathQualityFracBits)).

(** [math.Pow(0.5, float64(n))] for a whole n: the double 2^-n, a normal number, a
    subnormal one, or zero. *)
Definition halves (n : Z) : f64 :=
  if n <=? 1022 then S754_finite false (2 ^ 52) (- n - 52) else
  if n <=? 1074 then S754_finite false (Z.to_pos (2 ^ (1074 - n))) (- 1074) else f64_zero.

Definition Weight (q : pathQuality) (port now : Z) : f64 :=
  match q !! port with
  | None => f64_of_int 1
  | Some ps =>
      let age := now - at_ ps in
      let l := lossRate ps in
      let l := if pathQualityRecovery <? age then f64_mul l (halves (Z.quot age pathQualityRecovery)) else l in
      if f64_leb l f64_zero then f64_of_int 1 else
      if f64_leb (f64_of_int 1) l then pathQualityFloor else
      f64_add pathQualityFloor (f64_mul (f64_sub (f64_of_int 1) pathQualityFloor) (f64_sub (f64_of_int 1) l))
  end.

Definition scores_snapshot (q : pathQuality) : gmap Z f64 := lossRate <$> q.

(** * The estimate *)

(** The observations made of the ports, oldest first. *)
Definition observeAll (q : pathQuality) (obs : list (Z * bool * Z)) : pathQuality :=
  foldl (λ q o, Observe q o.1.1 o.1.2 o.2) q obs.

(** Rounding downwards, the average cannot climb past 31 steps below one. *)
Definition maxLoss : Z := 2 ^ 20 - 31.

Lemma smooth_eq old lost : smooth old lost = old + ((if lost then 2 ^ 20 else 0) - old) / 32.
Proof. unfold smooth. rewrite Z.shiftr_div_pow2 by done. by destruct lost. Qed.

Lemma smooth_range old lost : 0 ≤ old ≤ maxLoss → 0 ≤ smooth old lost ≤ maxLoss.
Proof.
  rewrite smooth_eq. unfold maxLoss. change (2 ^ 20) with 1048576. destruct lost; Z.to_euclidean_division_equations; lia.
Qed.

Lemma smooth_mono a b lost : a ≤ b → smooth a lost ≤ smooth b lost.
Proof.
  rewrite !smooth_eq. change (2 ^ 20) with 1048576. destruct lost; Z.to_euclidean_division_equations; lia.
Qed.

(** How often a port must be seen healthy before its estimate is zero, from the
    worst one. *)
Definition forgiven : nat := 346.

Definition healthy (n : nat) (old : Z) : Z := Nat.iter n (λ l, smooth l false) old.

Lemma healthy_mono n a b : a ≤ b → healthy n a ≤ healthy n b.
Proof. induction n as [|n IH]; intros H; [done|]. cbn. apply smooth_mono, IH, H. Qed.

Lemma healthy_add m n old : healthy (m + n) old = healthy m (healthy n old).
Proof. apply Nat.iter_add. Qed.

Lemma healthy_zero n : healthy n 0 = 0.
Proof.
  induction n as [|n IH]; [done|]. change (healthy (S n) 0) with (smooth (healthy n 0) false). by rewrite IH.
Qed.

Lemma healthy_done n old : 0 ≤ old ≤ maxLoss → (forgiven ≤ n)%nat → healthy n old = 0.
Proof.
  intros [H0 Hold] Hn. assert (Hz : healthy forgiven maxLoss = 0) by by vm_compute.
  rewrite <- (Nat.sub_add _ _ Hn), healthy_add.
  pose proof (healthy_mono forgiven _ _ Hold) as Hle. pose proof (healthy_mono forgiven _ _ H0) as Hge.
  rewrite Hz in Hle. rewrite healthy_zero in Hge.
  replace (healthy forgiven old) with 0 by (by apply Z.le_antisymm). apply healthy_zero.
Qed.

Definition scores_ok (q : pathQuality) : Prop := map_Forall (λ _ ps, 0 ≤ loss ps ≤ maxLoss) q.

Definition lossOf (q : pathQuality) (p : Z) : Z := default 0 (loss <$> q !! p).

Lemma lossOf_range q p : scores_ok q → 0 ≤ lossOf q p ≤ maxLoss.
Proof.
  intros Hq. unfold lossOf. destruct (q !! p) as [ps|] eqn:E; [exact (Hq _ _ E)|]. unfold maxLoss. cbn. lia.
Qed.

Lemma lossOf_Observe q p port lost t : 0 < p →
  lossOf (Observe q port lost t) p = if decide (port = p) then smooth (lossOf q p) lost else lossOf q p.
Proof.
  intros Hp. unfold Observe, lossOf. destruct (Z.leb_spec port 0); [by rewrite decide_False by lia|].
  case_decide as E; [subst port; rewrite lookup_insert_eq|by rewrite lookup_insert_ne].
  cbn. by destruct (q !! p).
Qed.

Lemma Observe_ok q port lost t : scores_ok q → scores_ok (Observe q port lost t).
Proof.
  intros Hq. unfold Observe. destruct (port <=? 0); [done|]. apply map_Forall_insert_2; [|done].
  cbn [loss]. pose proof (lossOf_range q port Hq) as H. unfold lossOf in H. apply smooth_range. by destruct (q !! port).
Qed.

Lemma observeAll_ok obs q : scores_ok q → scores_ok (observeAll q obs).
Proof. revert q. induction obs as [|o obs IH]; intros q Hq; [done|]. by apply IH, Observe_ok. Qed.

(** Nothing but its own observations moves a port's estimate. *)
Lemma lossOf_healthy obs q p : 0 < p → Forall (λ o, o.1.1 = p → o.1.2 = false) obs →
  lossOf (observeAll q obs) p = healthy (length (filter (λ o, o.1.1 = p) obs)) (lossOf q p).
Proof.
  intros Hp. revert q. induction obs as [|[[port lost] t] obs IH]; intros q Hall; [done|].
  apply Forall_cons in Hall as [Hhd Hall]. cbn [fst snd] in Hhd.
  change (observeAll q (_ :: obs)) with (observeAll (Observe q port lost t) obs). rewrite (IH _ Hall).
  rewrite lossOf_Observe, filter_cons by done. cbn [fst]. case_decide as E; [|done].
  rewrite (Hhd E). cbn [length]. symmetry. unfold healthy. apply Nat.iter_succ_r.
Qed.

Lemma Weight_zero_loss q p now : lossOf q p = 0 → Weight q p now = f64_of_int 1.
Proof.
  unfold lossOf, Weight, lossRate. destruct (q !! p) as [ps|]; [|done]. intros Hl. change (loss ps = 0) in Hl. rewrite Hl.
  destruct (_ <? _); [|done]. unfold halves. by repeat destruct (_ <=? _).
Qed.

(** No port stays condemned.  Whatever was observed, every estimate
    lies between zero and 31 fixed-point steps below one, and 346 healthy
    observations of a port, with any observations of other ports in between, give
    it the weight of a port never observed. *)
Theorem path_score_recovers before after p now :
  0 < p →
  let q := observeAll newPathQuality before in
  (∀ port ps, q !! port = Some ps → 0 ≤ loss ps ≤ maxLoss) ∧
  (Forall (λ o, o.1.1 = p → o.1.2 = false) after → (forgiven ≤ length (filter (λ o, o.1.1 = p) after))%nat →
   Weight (observeAll q after) p now = f64_of_int 1).
Proof.
  intros Hp q. assert (Hq : scores_ok q) by by apply observeAll_ok. split; [exact Hq|].
  intros Hall Hn. apply Weight_zero_loss. rewrite lossOf_healthy by done.
  apply healthy_done; [by apply lossOf_range|done].
Qed.

Lemma path_score_recovers_witness :
  Weight (observeAll newPathQuality (replicate 40 (7, true, 0))) 7 1 ≠ f64_of_int 1 ∧
  Weight (observeAll (observeAll newPathQuality (replicate 40 (7, true, 0))) (replicate 346 (7, false, 1))) 7 1 = f64_of_int 1.
Proof.
  split; [by vm_compute|].
  destruct (path_score_recovers (replicate 40 (7, true, 0)) (replicate 346 (7, false, 1)) 7 1) as [_ H]; [lia|].
  apply H; [by apply Forall_replicate|]. apply Nat.leb_le. by vm_compute.
Defined.
