(* ===== verification/PortRange.v ===== *)
(** Port ranges and the port selector: src/tunnel/portrange.go.

    Addresses and specs are byte strings.  The random generator is an oracle: the
    draws it makes are arguments ([draws]), so every theorem holds for all of
    them. *)
From S2P Require Import Prelude GoStrings F64.
Local Open Scope Z_scope.

Definition shuffleBagMaxPorts : Z := 4096.

Inductive port_error :=
| ErrEmptySpec
| ErrEmptySegment
| ErrInvalidRange
| ErrPortOutOfRange
| ErrRangeReversed
| ErrInvalidPort
| ErrNoPorts.

Definition comma : Z := 44.
Definition dash : Z := 45.

(** The [seen] map and the list of ports found so far. *)
Definition addPort (st : gset Z * list Z) (p : Z) : gset Z * list Z :=
  if decide (p ∈ st.1) then st else ({[p]} ∪ st.1, st.2 ++ [p]).

(** One segment of the spec. *)
Definition parseSegment (seg : bytes) : result (list Z) port_error :=
  let seg := TrimSpace seg in
  if bool_decide (seg = []) then Err ErrEmptySegment else
  let i := IndexByte seg dash in
  if 0 <=? i then
    match Atoi (TrimSpace (upto i seg)), Atoi (TrimSpace (from (i + 1) seg)) with
    | Some lo, Some hi =>
        if (lo <? 1) || (65535 <? hi) then Err ErrPortOutOfRange else
        if hi <? lo then Err ErrRangeReversed else Ok (seqZ lo (hi - lo + 1))
    | _, _ => Err ErrInvalidRange
    end
  else
    match Atoi seg with
    | None => Err ErrInvalidPort
    | Some p => if (p <? 1) || (65535 <? p) then Err ErrPortOutOfRange else Ok [p]
    end.

Fixpoint parseSegments (segs : list bytes) (st : gset Z * list Z)
  : result (gset Z * list Z) port_error :=
  match segs with
  | [] => Ok st
  | seg :: segs =>
      match parseSegment seg with
      | Err e => Err e
      | Ok ps => parseSegments segs (foldl addPort st ps)
      end
  end.

Definition sortInts (l : list Z) : list Z := merge_sort Z.le l.

Definition ParsePortRangeSpec (spec : bytes) : result (list Z) port_error :=
  let spec := TrimSpace spec in
  if bool_decide (spec = []) then Err ErrEmptySpec else
  match parseSegments (Split comma spec) (∅, []) with
  | Err e => Err e
  | Ok (_, ports) => if bool_decide (ports = []) then Err ErrNoPorts else Ok (sortInts ports)
  end.

Record portInterval := mkIv { lo : Z; hi : Z }.

Record PortRange := mkPR { intervals : list portInterval; total : Z }.

(** The merging loop over the sorted ports after the first. *)
Fixpoint mergeLoop (l h : Z) (ports : list Z) : list portInterval :=
  match ports with
  | [] => [mkIv l h]
  | p :: ports =>
      if p =? h then mergeLoop l h ports
      else if p =? h + 1 then mergeLoop l p ports
      else mkIv l h :: mergeLoop p p ports
  end.

Definition sumTotal (ivs : list portInterval) : Z :=
  foldl (λ t iv, t + (hi iv - lo iv + 1)) 0 ivs.

Definition NewPortRange (ports : list Z) : result PortRange port_error :=
  match sortInts ports with
  | [] => Err ErrNoPorts
  | p :: rest =>
      if (p <? 1) || (65535 <? List.last (p :: rest) 0) then Err ErrPortOutOfRange else
      let ivs := mergeLoop p p rest in Ok (mkPR ivs (sumTotal ivs))
  end.

Definition Total (pr : PortRange) : Z := total pr.

(** The binary search: [fuel] rounds; every round shrinks [lo..hi]. *)
Fixpoint containsLoop (fuel : nat) (ivs : list portInterval) (port l h : Z) : bool :=
  match fuel with
  | O => false
  | S fuel =>
      if l <=? h then
        let mid := Z.shiftr (l + h) 1 in
        match ivs !! Z.to_nat mid with
        | None => false
        | Some iv =>
            if port <? lo iv then containsLoop fuel ivs port l (mid - 1)
            else if hi iv <? port then containsLoop fuel ivs port (mid + 1) h
            else true
        end
      else false
  end.

Definition Contains (pr : PortRange) (port : Z) : bool :=
  containsLoop (S (length (intervals pr))) (intervals pr) port 0 (len (intervals pr) - 1).

Fixpoint portAtLoop (ivs : list portInterval) (i : Z) (lastHi : Z) : Z :=
  match ivs with
  | [] => lastHi
  | iv :: ivs =>
      let n := hi iv - lo iv + 1 in
      if i <? n then lo iv + i else portAtLoop ivs (i - n) lastHi
  end.

Definition PortAt (pr : PortRange) (i : Z) : Z :=
  if total pr =? 0 then 0 else
  let i := if i <? 0 then 0 else i in
  let i := if total pr <=? i then total pr - 1 else i in
  portAtLoop (intervals pr) i (from_option hi 0 (last (intervals pr))).

Definition ivText (iv : portInterval) : bytes :=
  if lo iv =? hi iv then Itoa (lo iv) else Itoa (lo iv) ++ dash :: Itoa (hi iv).

Definition PortRange_String (pr : PortRange) : bytes :=
  if bool_decide (intervals pr = []) then [] else Join comma (map ivText (intervals pr)).

Definition FormatPortList (ports : list Z) : bytes :=
  match NewPortRange ports with Err _ => [] | Ok pr => PortRange_String pr end.

(** * The selector *)

Inductive SelectorMode := SelectorRandom | SelectorRoundRobin.

Record PortSelector := mkSelector {
  sel_pr : PortRange;
  mode : SelectorMode;
  rr : Z;
  bag : option (list Z);
  bagPos : Z;
}.

(** [rand.Shuffle]: for i from n-1 down to 1, swap i with a draw in [0, i]. *)
Definition swap (l : list Z) (i j : nat) : list Z :=
  match l !! i, l !! j with
  | Some x, Some y => <[i := y]> (<[j := x]> l)
  | _, _ => l
  end.

Fixpoint shuffleLoop (i : nat) (draws : list Z) (l : list Z) : list Z :=
  match i with
  | O => l
  | S i' =>
      let j := Z.to_nat (default 0 (head draws) mod (Z.of_nat i + 1)) in
      shuffleLoop i' (tail draws) (swap l i j)
  end.

Definition Shuffle (draws : list Z) (l : list Z) : list Z := shuffleLoop (length l - 1) draws l.

(** Every port of the range, in order. *)
Definition expand (ivs : list portInterval) : list Z :=
  concat (map (λ iv, seqZ (lo iv) (hi iv - lo iv + 1)) ivs).

Definition fillBag (pr : PortRange) (draws : list Z) : list Z :=
  Shuffle draws (map u16 (expand (intervals pr))).

Definition NewPortSelector (pr : PortRange) (m : SelectorMode) (draws : list Z) : PortSelector :=
  {| sel_pr := pr; mode := m; rr := 0;
     bag := match m with
            | SelectorRandom => if (0 <? total pr) && (total pr <=? shuffleBagMaxPorts)
                                then Some (fillBag pr draws) else None
            | SelectorRoundRobin => None
            end;
     bagPos := 0 |}.

(** [nextUniform] consumes the generator: [draws] feeds a reshuffle, or the single
    uniform draw of an oversized range. *)
Definition nextUniform (s : PortSelector) (draws : list Z) : Z * PortSelector :=
  match bag s with
  | None => (PortAt (sel_pr s) (default 0 (head draws) mod total (sel_pr s)), s)
  | Some b =>
      let '(b, pos) := if len b <=? bagPos s then (Shuffle draws b, 0) else (b, bagPos s) in
      (at_z pos b, mkSelector (sel_pr s) (mode s) (rr s) (Some b) (pos + 1))
  end.

Definition Next (s : PortSelector) (draws : list Z) : Z * PortSelector :=
  if total (sel_pr s) =? 0 then (0, s) else
  match mode s with
  | SelectorRoundRobin =>
      (PortAt (sel_pr s) (rr s mod total (sel_pr s)),
       mkSelector (sel_pr s) (mode s) (u64 (rr s + 1)) (bag s) (bagPos s))
  | SelectorRandom => nextUniform s draws
  end.

(** [NextWeighted]: the scorer is asked once for every port drawn, [weight i port]
    being its i-th answer; [floats i] is what [rng.Float64] yields in round i and
    [draws i] the generator's other draws.  A weight of at least one accepts at once;
    the last of the sixteen draws is taken whatever its weight. *)
Fixpoint weightedLoop (attempts : nat) (weight : nat → Z → f64) (floats : nat → f64) (draws : nat → list Z)
    (i : nat) (port : Z) (w : f64) (s : PortSelector) : Z * PortSelector :=
  match attempts with
  | O => (port, s)
  | S n =>
      if f64_ltb (floats i) w then (port, s) else
      let '(port, s) := nextUniform s (draws i) in
      weightedLoop n weight floats draws (S i) port (weight i port) s
  end.

Definition NextWeighted (s : PortSelector) (scorer : option (nat → Z → f64))
    (floats : nat → f64) (draws : nat → list Z) : Z * PortSelector :=
  if total (sel_pr s) =? 0 then (0, s) else
  match scorer with
  | None => Next s (draws 0%nat)
  | Some weight =>
      let '(port, s) := nextUniform s (draws 0%nat) in
      let w := weight 0%nat port in
      if f64_leb (f64_of_int 1) w then (port, s) else weightedLoop 15 weight floats draws 1 port w s
  end.

(** * Ordered lists of ports *)

Abbreviation increasing := (StronglySorted Z.lt).

Lemma increasing_NoDup l : increasing l → NoDup l.
Proof.
  induction 1 as [|x l _ IH Hall]; constructor; [|done]. intros Hx.
  pose proof (proj1 (Forall_forall _ _) Hall x Hx). lia.
Qed.

Lemma increasing_sorted l : increasing l → StronglySorted Z.le l.
Proof.
  induction 1 as [|x l _ IH Hall]; constructor; [done|].
  eapply Forall_impl; [exact Hall|]. cbn. lia.
Qed.

(** Two increasing lists with the same elements are equal. *)
Lemma increasing_unique l1 l2 : increasing l1 → increasing l2 →
  (∀ x, x ∈ l1 ↔ x ∈ l2) → l1 = l2.
Proof.
  intros H1 H2 Heq. apply (StronglySorted_unique Z.le); auto using increasing_sorted.
  apply NoDup_Permutation; auto using increasing_NoDup.
Qed.

Lemma sortInts_perm l : sortInts l ≡ₚ l.
Proof. apply merge_sort_Permutation. Qed.

Lemma sortInts_sorted l : StronglySorted Z.le (sortInts l).
Proof. apply StronglySorted_merge_sort; apply _. Qed.

Lemma sorted_NoDup_increasing l : StronglySorted Z.le l → NoDup l → increasing l.
Proof.
  induction 1 as [|x l Hs IH Hall]; intros Hnd; [constructor|].
  apply NoDup_cons in Hnd as [Hx Hnd]. constructor; [auto|].
  apply Forall_forall. intros y Hy. pose proof (proj1 (Forall_forall _ _) Hall y Hy).
  assert (x ≠ y) by (by intros ->). lia.
Qed.

Lemma sortInts_id l : increasing l → sortInts l = l.
Proof.
  intros Hl. apply increasing_unique; [|done|intros x; by rewrite sortInts_perm].
  apply sorted_NoDup_increasing; [apply sortInts_sorted|].
  rewrite sortInts_perm. by apply increasing_NoDup.
Qed.

(** * Intervals *)

Definition iv_ok (iv : portInterval) : Prop := lo iv ≤ hi iv.
Definition iv_before (a b : portInterval) : Prop := hi a + 1 < lo b.

Record ivs_ok (ivs : list portInterval) : Prop := {
  ivs_each : Forall iv_ok ivs;
  ivs_order : StronglySorted iv_before ivs;
}.

Lemma elem_of_expand ivs x : x ∈ expand ivs ↔ ∃ iv, iv ∈ ivs ∧ lo iv ≤ x ≤ hi iv.
Proof.
  unfold expand. rewrite list_elem_of_In, in_concat. split.
  - intros (l & Hl & Hx). apply list_elem_of_In, list_elem_of_fmap in Hl as (iv & -> & Hiv).
    apply list_elem_of_In, elem_of_seqZ in Hx. exists iv. split; [done|lia].
  - intros (iv & Hiv & Hx). exists (seqZ (lo iv) (hi iv - lo iv + 1)).
    split; [|apply list_elem_of_In, elem_of_seqZ; lia].
    apply list_elem_of_In, list_elem_of_fmap. by exists iv.
Qed.

Lemma seqZ_increasing a n : increasing (seqZ a n).
Proof.
  destruct (Z.le_gt_cases n 0); [rewrite seqZ_nil by lia; constructor|].
  revert a. apply (Zlt_0_ind (λ n, ∀ a, increasing (seqZ a n))); [|lia].
  clear. intros n IH Hn a. destruct (Z.eq_dec n 0) as [->|]; [constructor|].
  rewrite seqZ_cons by lia. constructor; [apply IH; lia|].
  apply Forall_forall. intros x Hx%elem_of_seqZ. lia.
Qed.

Lemma increasing_app l1 l2 : increasing l1 → increasing l2 →
  (∀ x y, x ∈ l1 → y ∈ l2 → x < y) → increasing (l1 ++ l2).
Proof.
  intros H1 H2 Hlt. induction H1 as [|x l1 Hs IH Hall]; [done|]. cbn. constructor.
  - apply IH. intros. apply Hlt; [by right|done].
  - apply Forall_app. split; [done|]. apply Forall_forall. intros y Hy. apply Hlt; [by left|done].
Qed.

Lemma expand_increasing ivs : ivs_ok ivs → increasing (expand ivs).
Proof.
  intros [Heach Hord]. induction Hord as [|iv ivs Hs IH Hall]; [constructor|].
  apply Forall_cons in Heach as [Hiv Heach]. unfold expand. cbn [map concat].
  apply increasing_app; [apply seqZ_increasing|by apply IH|].
  intros x y Hx%elem_of_seqZ Hy%elem_of_expand. destruct Hy as (iv' & Hin & Hy).
  pose proof (proj1 (Forall_forall _ _) Hall iv' Hin) as Hb. unfold iv_before in Hb. lia.
Qed.

Lemma mergeLoop_ok l h ports : l ≤ h → StronglySorted Z.le (h :: ports) →
  ivs_ok (mergeLoop l h ports) ∧ Forall (λ iv, l ≤ lo iv) (mergeLoop l h ports) ∧
  ∀ x, x ∈ expand (mergeLoop l h ports) ↔ l ≤ x ≤ h ∨ x ∈ ports.
Proof.
  revert l h. induction ports as [|p ports IH]; intros l h Hle Hs; cbn [mergeLoop].
  { split_and!; [split; repeat constructor; done|by repeat constructor|].
    intros x. rewrite elem_of_expand, elem_of_nil. split.
    - intros (iv & ->%list_elem_of_singleton & Hx). by left.
    - intros [Hx|[]]. exists (mkIv l h). split; [by apply list_elem_of_singleton|done]. }
  apply StronglySorted_inv in Hs as [Hs Hall]. apply Forall_cons in Hall as [Hhp Hall].
  destruct (Z.eqb_spec p h) as [->|Hne].
  { destruct (IH l h Hle) as (? & ? & Hmem); [done|]. split_and!; try done.
    intros x. rewrite Hmem, elem_of_cons. intuition lia. }
  destruct (Z.eqb_spec p (h + 1)) as [->|Hne'].
  { destruct (IH l (h + 1)) as (? & ? & Hmem); [lia|done|]. split_and!; try done.
    intros x. rewrite Hmem, elem_of_cons. intuition lia. }
  destruct (IH p p) as ([Heach Hord] & Hge & Hmem); [lia|done|]. split_and!.
  - split; constructor; try done.
    eapply Forall_impl; [exact Hge|]. intros iv Hiv. unfold iv_before. cbn in *. lia.
  - constructor; [cbn; lia|]. eapply Forall_impl; [exact Hge|]. cbn. lia.
  - intros x. unfold expand. cbn [map concat lo hi]. rewrite elem_of_app, elem_of_seqZ.
    fold (expand (mergeLoop p p ports)). rewrite Hmem, elem_of_cons. intuition lia.
Qed.

Lemma sumTotal_expand ivs : Forall iv_ok ivs → sumTotal ivs = len (expand ivs).
Proof.
  intros Hok. unfold sumTotal, expand.
  assert (H : ∀ z, foldl (λ t iv, t + (hi iv - lo iv + 1)) z ivs =
            z + len (concat (map (λ iv, seqZ (lo iv) (hi iv - lo iv + 1)) ivs))).
  { induction Hok as [|iv ivs Hiv _ IH]; intros z; cbn [foldl map concat]; [rewrite len_nil; lia|].
    rewrite IH, len_app. unfold len at 2. rewrite length_seqZ. unfold iv_ok in Hiv. lia. }
  rewrite H. lia.
Qed.

(** What [NewPortRange] builds. *)
Record pr_of (ports : list Z) (pr : PortRange) : Prop := {
  pro_ivs : ivs_ok (intervals pr);
  pro_total : total pr = len (expand (intervals pr));
  pro_mem : ∀ x, x ∈ expand (intervals pr) ↔ x ∈ ports;
  pro_range : ∀ x, x ∈ ports → 1 ≤ x ≤ 65535;
  pro_ne : intervals pr ≠ [];
}.

Lemma sorted_last l : StronglySorted Z.le l → ∀ x, x ∈ l → x ≤ List.last l 0.
Proof.
  induction 1 as [|y l Hs IH Hall]; intros x Hx; [by apply elem_of_nil in Hx|].
  destruct l as [|z l]; [apply list_elem_of_singleton in Hx as ->; cbn; lia|].
  change (List.last (y :: z :: l) 0) with (List.last (z :: l) 0).
  apply elem_of_cons in Hx as [->|Hx]; [|by apply IH].
  apply Forall_cons in Hall as [Hyz _]. specialize (IH z ltac:(by left)). lia.
Qed.

Lemma mergeLoop_ne l h ports : mergeLoop l h ports ≠ [].
Proof.
  revert l h. induction ports as [|q ports IH]; intros l h; [done|].
  cbn [mergeLoop]. repeat case_match; done || apply IH.
Qed.

Lemma NewPortRange_spec ports pr : NewPortRange ports = Ok pr → pr_of ports pr.
Proof.
  unfold NewPortRange. pose proof (sortInts_perm ports) as Hp. pose proof (sortInts_sorted ports) as Hs.
  destruct (sortInts ports) as [|p rest]; [done|].
  destruct (Z.ltb_spec p 1); [done|]. destruct (Z.ltb_spec 65535 (List.last (p :: rest) 0)); [done|].
  intros [= <-]. destruct (mergeLoop_ok p p rest ltac:(lia) Hs) as (Hok & Hge & Hmem).
  assert (Hin : ∀ x, x ∈ ports ↔ x ∈ p :: rest) by (intros; by rewrite Hp).
  split; cbn; try done.
  - apply sumTotal_expand. apply Hok.
  - intros x. rewrite Hmem, Hin, elem_of_cons. intuition lia.
  - intros x Hx%Hin. pose proof (sorted_last _ Hs x Hx). apply StronglySorted_inv in Hs as [_ Hall].
    apply elem_of_cons in Hx as [->|Hx]; [lia|].
    pose proof (proj1 (Forall_forall _ _) Hall x Hx). lia.
  - apply mergeLoop_ne.
Qed.

Lemma NewPortRange_ok ports : ports ≠ [] → (∀ p, p ∈ ports → 1 ≤ p ≤ 65535) → ∃ pr, NewPortRange ports = Ok pr.
Proof.
  intros Hne Hr. unfold NewPortRange. pose proof (sortInts_perm ports) as Hp.
  destruct (sortInts ports) as [|p rest] eqn:E; [by apply Permutation_nil in Hp|].
  assert (Hin : ∀ x, x ∈ p :: rest → 1 ≤ x ≤ 65535) by (intros x; rewrite Hp; apply Hr).
  destruct (Z.ltb_spec p 1); [specialize (Hin p ltac:(by left)); lia|].
  destruct (Z.ltb_spec 65535 (List.last (p :: rest) 0)) as [Hl|]; [|by eexists].
  assert (Hlast : List.last (p :: rest) 0 ∈ p :: rest).
  { rewrite (app_removelast_last 0 (l := p :: rest)) at 2 by done. set_solver. }
  specialize (Hin _ Hlast). lia.
Qed.

(** * Membership and indexing *)

Lemma sorted_lookup_lt {A} (R : relation A) l i j x y : StronglySorted R l →
  l !! i = Some x → l !! j = Some y → (i < j)%nat → R x y.
Proof.
  intros Hs. revert i j. induction Hs as [|z l Hs IH Hall]; intros [|i] [|j] Hi Hj Hlt;
    try done; try lia; cbn in *.
  - injection Hi as ->. by eapply (Forall_lookup_1 _ _ _ _ Hall).
  - apply (IH i j); done || lia.
Qed.

(** The search keeps the answer between its two bounds. *)
Lemma containsLoop_spec fuel ivs port l h : ivs_ok ivs →
  0 ≤ l → h < len ivs → h - l + 1 < Z.of_nat fuel →
  (∀ i iv, ivs !! i = Some iv → lo iv ≤ port ≤ hi iv → l ≤ Z.of_nat i ≤ h) →
  containsLoop fuel ivs port l h = true ↔ ∃ iv, iv ∈ ivs ∧ lo iv ≤ port ≤ hi iv.
Proof.
  intros Hok. revert l h. induction fuel as [|fuel IH]; intros l h Hl Hh Hf Hin.
  { split; [done|]. intros (iv & (i & Hi)%list_elem_of_lookup & Hr).
    specialize (Hin i iv Hi Hr). lia. }
  cbn [containsLoop]. destruct (Z.leb_spec l h) as [Hlh|Hlh].
  2:{ split; [done|]. intros (iv & (i & Hi)%list_elem_of_lookup & Hr).
      specialize (Hin i iv Hi Hr). lia. }
  rewrite Z.shiftr_div_pow2 by lia. change (2 ^ 1) with 2.
  pose proof (Z.div_mod (l + h) 2 ltac:(lia)) as Hdm.
  pose proof (Z.mod_pos_bound (l + h) 2 ltac:(lia)). set (mid := (l + h) / 2) in *.
  assert (Hmid : l ≤ mid ≤ h) by lia.
  destruct (ivs !! Z.to_nat mid) as [iv|] eqn:Hiv.
  2:{ apply lookup_ge_None in Hiv. unfold len in Hh. lia. }
  assert (Hord : ∀ i iv', ivs !! i = Some iv' →
            (Z.of_nat i < mid → hi iv' < lo iv) ∧ (mid < Z.of_nat i → hi iv < lo iv')).
  { intros i iv' Hi. destruct Hok as [Heach Hord]. split; intros Hlt.
    - pose proof (sorted_lookup_lt _ _ _ _ _ _ Hord Hi Hiv ltac:(lia)) as Hb.
      unfold iv_before in Hb. lia.
    - pose proof (sorted_lookup_lt _ _ _ _ _ _ Hord Hiv Hi ltac:(lia)) as Hb.
      unfold iv_before in Hb. lia. }
  assert (Hok1 : iv_ok iv) by (apply (Forall_lookup_1 _ _ _ _ (ivs_each _ Hok) Hiv)).
  unfold iv_ok in Hok1. destruct (Z.ltb_spec port (lo iv)).
  - apply IH; try lia. intros i iv' Hi Hr. specialize (Hin i iv' Hi Hr).
    destruct (Hord i iv' Hi) as [_ Hgt]. destruct (Z.lt_trichotomy (Z.of_nat i) mid) as [|[He|]]; [lia| |lia].
    assert (iv' = iv) as -> by (replace (Z.to_nat mid) with i in Hiv by lia; congruence). lia.
  - destruct (Z.ltb_spec (hi iv) port).
    + apply IH; try lia. intros i iv' Hi Hr. specialize (Hin i iv' Hi Hr).
      destruct (Hord i iv' Hi) as [Hlt _].
      destruct (Z.lt_trichotomy (Z.of_nat i) mid) as [|[He|]]; [lia| |lia].
      assert (iv' = iv) as -> by (replace (Z.to_nat mid) with i in Hiv by lia; congruence). lia.
    + split; [|done]. intros _. exists iv. split; [|lia]. by eapply list_elem_of_lookup_2.
Qed.

Lemma portAtLoop_spec ivs i d : Forall iv_ok ivs → 0 ≤ i < len (expand ivs) →
  portAtLoop ivs i d = at_z i (expand ivs).
Proof.
  intros Hok. revert i. induction Hok as [|iv ivs Hiv _ IH]; intros i Hi.
  { change (len (expand [])) with 0 in Hi. lia. }
  unfold expand in *. cbn [map concat portAtLoop] in *. rewrite len_app in Hi.
  unfold iv_ok in Hiv. set (n := hi iv - lo iv + 1) in *.
  assert (Hl : len (seqZ (lo iv) n) = n) by (unfold len; rewrite length_seqZ; lia).
  rewrite Hl in Hi. destruct (Z.ltb_spec i n).
  - unfold at_z. rewrite nth_lookup, lookup_app_l by (rewrite length_seqZ; lia).
    rewrite lookup_seqZ_lt by lia. cbn. lia.
  - rewrite at_z_app_skip by lia. rewrite Hl. apply IH. lia.
Qed.

Lemma PortAt_expand ports pr i : pr_of ports pr → 0 ≤ i < total pr → PortAt pr i = at_z i (expand (intervals pr)).
Proof.
  intros Hpr Hi. unfold PortAt. destruct (Z.eqb_spec (total pr) 0); [lia|]. destruct (Z.ltb_spec i 0); [lia|].
  destruct (Z.leb_spec (total pr) i); [lia|]. rewrite (pro_total _ _ Hpr) in Hi.
  apply portAtLoop_spec; [apply (pro_ivs _ _ Hpr)|done].
Qed.

Lemma PortAt_in ports pr i : pr_of ports pr → 0 ≤ i < total pr → PortAt pr i ∈ expand (intervals pr).
Proof.
  intros Hpr Hi. rewrite (PortAt_expand _ _ _ Hpr Hi). rewrite (pro_total _ _ Hpr) in Hi. unfold at_z, len in *.
  apply list_elem_of_In, nth_In. lia.
Qed.

Lemma expand_PortAt ports pr : pr_of ports pr → map (PortAt pr) (seqZ 0 (total pr)) = expand (intervals pr).
Proof.
  intros Hpr. pose proof (pro_total _ _ Hpr) as Ht. apply list_eq. intros i. rewrite list_lookup_fmap.
  destruct (decide (Z.of_nat i < total pr)).
  - rewrite lookup_seqZ_lt by lia. cbn. rewrite (PortAt_expand _ _ _ Hpr) by lia. unfold at_z.
    rewrite nth_lookup. replace (Z.to_nat (0 + Z.of_nat i)) with i by lia.
    destruct (expand (intervals pr) !! i) eqn:E; [done|]. apply lookup_ge_None in E. unfold len in Ht. lia.
  - rewrite lookup_seqZ_ge by lia. cbn. symmetry. apply lookup_ge_None. unfold len in Ht. lia.
Qed.

Lemma Contains_expand ports pr p : pr_of ports pr → Contains pr p = true ↔ p ∈ expand (intervals pr).
Proof.
  intros Hpr. unfold Contains. rewrite containsLoop_spec; [by rewrite <- elem_of_expand|apply Hpr|lia|unfold len; lia|unfold len; lia|].
  intros i iv Hi _. apply lookup_lt_Some in Hi. unfold len. lia.
Qed.

(** A port range means the set it was built from: the binary search
    answers membership exactly, Total counts the distinct ports, and PortAt
    enumerates them in increasing order, each once. *)
Theorem port_range_denotes ports pr :
  NewPortRange ports = Ok pr →
  (∀ p, Contains pr p = true ↔ p ∈ ports) ∧
  Total pr = Z.of_nat (size (list_to_set ports : gset Z)) ∧
  increasing (map (PortAt pr) (seqZ 0 (Total pr))) ∧
  (∀ p, p ∈ map (PortAt pr) (seqZ 0 (Total pr)) ↔ p ∈ ports).
Proof.
  intros Hpr%NewPortRange_spec. pose proof Hpr as [Hok Htot Hmem Hrange Hne].
  unfold Total. rewrite (expand_PortAt _ _ Hpr). split_and!; try done.
  - intros p. by rewrite (Contains_expand _ _ _ Hpr).
  - rewrite Htot. unfold len. f_equal.
    rewrite <- (size_list_to_set (C := gset Z) (expand (intervals pr)))
      by by apply increasing_NoDup, expand_increasing.
    f_equal. apply set_eq. intros x. by rewrite !elem_of_list_to_set.
  - by apply expand_increasing.
Qed.

Lemma port_range_denotes_witness :
  match NewPortRange [25001; 80; 25000; 80] with
  | Ok pr => Contains pr 25001 = true ∧ map (PortAt pr) (seqZ 0 (Total pr)) = [80; 25000; 25001]
  | Err _ => False
  end.
Proof.
  destruct (NewPortRange [25001; 80; 25000; 80]) as [pr|] eqn:E; [|vm_compute in E; discriminate].
  destruct (port_range_denotes _ _ E) as [H _]. split.
  - apply H. set_solver.
  - vm_compute in E. injection E as <-. vm_compute. reflexivity.
Defined.

(** * Parsing *)

Definition found_ok (st : gset Z * list Z) : Prop := st.1 = list_to_set st.2 ∧ NoDup st.2.

Lemma addPort_ok st p : found_ok st → found_ok (addPort st p) ∧
  (∀ x, x ∈ (addPort st p).2 ↔ x ∈ st.2 ∨ x = p) ∧
  (p ∉ st.2 → (addPort st p).2 = st.2 ++ [p]).
Proof.
  intros [Hs Hnd]. unfold addPort. destruct (decide (p ∈ st.1)) as [Hin|Hin];
    rewrite Hs, elem_of_list_to_set in Hin.
  - split_and!; [done| |done]. intros x. split; [by left|]. by intros [?| ->].
  - split_and!; [split; cbn| |done].
    + rewrite Hs, list_to_set_app_L. set_solver.
    + apply NoDup_app. split_and!; [done| |apply NoDup_singleton].
      intros x Hx ->%list_elem_of_singleton. done.
    + intros x. cbn. by rewrite elem_of_app, list_elem_of_singleton.
Qed.

Lemma addPorts_ok ps st : found_ok st → found_ok (foldl addPort st ps) ∧
  (∀ x, x ∈ (foldl addPort st ps).2 ↔ x ∈ st.2 ∨ x ∈ ps).
Proof.
  revert st. induction ps as [|p ps IH]; intros st Hst; cbn [foldl].
  { split; [done|]. intros x. rewrite elem_of_nil. tauto. }
  destruct (addPort_ok st p Hst) as (H1 & H2 & _). destruct (IH _ H1) as [H3 H4].
  split; [done|]. intros x. rewrite H4, H2, elem_of_cons. tauto.
Qed.

Lemma addPorts_fresh ps st : found_ok st → NoDup (st.2 ++ ps) →
  (foldl addPort st ps).2 = st.2 ++ ps.
Proof.
  revert st. induction ps as [|p ps IH]; intros st Hst Hnd; cbn [foldl]; [by rewrite app_nil_r|].
  destruct (addPort_ok st p Hst) as (H1 & _ & H3).
  assert (Heq : (addPort st p).2 = st.2 ++ [p]).
  { apply H3. intros Hp. apply NoDup_app in Hnd as (_ & Hd & _). apply (Hd p Hp). by left. }
  rewrite IH; [|done|]; rewrite Heq, <- app_assoc; done.
Qed.

Lemma parseSegment_range seg ps : parseSegment seg = Ok ps → Forall (λ p, 1 ≤ p ≤ 65535) ps.
Proof.
  unfold parseSegment. case_bool_decide; [done|]. destruct (0 <=? _).
  - destruct (Atoi _) as [l|]; [|done]. destruct (Atoi _) as [h|]; [|done].
    destruct (Z.ltb_spec l 1); [done|]. destruct (Z.ltb_spec 65535 h); [done|]. cbn [orb].
    destruct (h <? l); [done|]. intros [= <-]. apply Forall_forall. intros x Hx%elem_of_seqZ. lia.
  - destruct (Atoi _) as [p|]; [|done]. destruct (Z.ltb_spec p 1); [done|].
    destruct (Z.ltb_spec 65535 p); [done|]. intros [= <-]. repeat constructor; lia.
Qed.

Lemma parseSegments_ok segs st st' : found_ok st → Forall (λ p, 1 ≤ p ≤ 65535) st.2 →
  parseSegments segs st = Ok st' → found_ok st' ∧ Forall (λ p, 1 ≤ p ≤ 65535) st'.2.
Proof.
  revert st. induction segs as [|seg segs IH]; intros st Hst Hr Hp; cbn [parseSegments] in Hp.
  { by injection Hp as <-. }
  destruct (parseSegment seg) as [ps|] eqn:Hseg; [|done]. apply parseSegment_range in Hseg.
  destruct (addPorts_ok ps st Hst) as [H1 H2]. apply (IH (foldl addPort st ps)); [done| |done].
  apply Forall_forall. intros x [Hx|Hx]%H2;
    [by apply (proj1 (Forall_forall _ _) Hr)|by apply (proj1 (Forall_forall _ _) Hseg)].
Qed.

(** Whatever the text, an accepted port spec yields a non-empty, strictly
    increasing list of ports between 1 and 65535, which NewPortRange then always
    accepts. *)
Theorem parse_spec_sound spec ports :
  ParsePortRangeSpec spec = Ok ports →
  ports ≠ [] ∧ increasing ports ∧ Forall (λ p, 1 ≤ p ≤ 65535) ports ∧
  is_Ok (NewPortRange ports) = true.
Proof.
  unfold ParsePortRangeSpec. case_bool_decide; [done|].
  destruct (parseSegments _ _) as [[seen ps]|] eqn:Hp; [|done].
  case_bool_decide as Hne; [done|]. intros [= <-].
  apply parseSegments_ok in Hp as [[_ Hnd] Hr]; [|split; [done|constructor]|constructor].
  cbn in Hnd, Hr.
  assert (Hinc : increasing (sortInts ps)).
  { apply sorted_NoDup_increasing; [apply sortInts_sorted|]. by rewrite sortInts_perm. }
  assert (Hr' : Forall (λ p, 1 ≤ p ≤ 65535) (sortInts ps)) by by rewrite sortInts_perm.
  assert (Hne' : sortInts ps ≠ []).
  { intros He. pose proof (sortInts_perm ps) as Hperm. rewrite He in Hperm.
    by apply Permutation_nil_l in Hperm. }
  split_and!; try done. unfold NewPortRange. rewrite (sortInts_id (sortInts ps)) by done.
  destruct (sortInts ps) as [|p rest]; [done|].
  assert (Hlast : List.last (p :: rest) 0 ∈ p :: rest).
  { clear. revert p. induction rest as [|q rest IH]; intros p; [by left|].
    change (List.last (p :: q :: rest) 0) with (List.last (q :: rest) 0). right. apply IH. }
  apply (proj1 (Forall_forall _ _) Hr') in Hlast. apply Forall_cons in Hr' as [Hp' _].
  destruct (Z.ltb_spec p 1); [lia|]. by destruct (Z.ltb_spec 65535 (List.last (p :: rest) 0)); [lia|].
Qed.

Lemma parse_spec_sound_witness : is_Ok (NewPortRange [80; 8080; 8081]) = true.
Proof.
  assert (E : ParsePortRangeSpec (str " 8080-8081, 80 ") = Ok [80; 8080; 8081])
    by (vm_compute; reflexivity).
  exact (proj2 (proj2 (proj2 (parse_spec_sound _ _ E)))).
Defined.

(** * Round trip *)

Lemma digit_visible c : isDigit c = true → visible c = true.
Proof. unfold isDigit, visible, isSpace. lia. Qed.

Lemma digits_free s c : Forall (λ c, isDigit c = true) s → isDigit c = false → c ∉ s.
Proof. intros Hs Hc Hin. apply (proj1 (Forall_forall _ _) Hs) in Hin. congruence. Qed.

Lemma digits_visible s : Forall (λ c, isDigit c = true) s → Forall (λ c, visible c = true) s.
Proof. intros Hs. eapply Forall_impl; [exact Hs|]. apply digit_visible. Qed.

Definition port_ok (p : Z) : Prop := 1 ≤ p ≤ 65535.

Lemma ivText_spec iv : iv_ok iv → port_ok (lo iv) → port_ok (hi iv) →
  ivText iv ≠ [] ∧ comma ∉ ivText iv ∧ Forall (λ c, visible c = true) (ivText iv) ∧
  parseSegment (ivText iv) = Ok (seqZ (lo iv) (hi iv - lo iv + 1)).
Proof.
  unfold iv_ok, port_ok. intros Hiv Hlo Hhi.
  destruct (Itoa_spec (lo iv) ltac:(lia)) as (Ha & Hn & Hd).
  destruct (Itoa_spec (hi iv) ltac:(lia)) as (Ha' & Hn' & Hd').
  unfold ivText. generalize dependent (Itoa (lo iv)). intros a Ha Hn Hd.
  generalize dependent (Itoa (hi iv)). intros b Ha' Hn' Hd'.
  destruct (Z.eqb_spec (lo iv) (hi iv)) as [He|He].
  - split_and!; [done|by apply digits_free|by apply digits_visible|].
    unfold parseSegment. rewrite TrimSpace_id by by apply digits_visible.
    rewrite bool_decide_eq_false_2 by done. rewrite IndexByte_none by by apply digits_free.
    cbn [Z.leb Z.compare]. rewrite Ha.
    destruct (Z.ltb_spec (lo iv) 1); [lia|]. destruct (Z.ltb_spec 65535 (lo iv)); [lia|].
    rewrite He. by replace (hi iv - hi iv + 1) with 1 by lia; rewrite seqZ_cons by lia.
  - assert (Hv : Forall (λ c, visible c = true) (a ++ dash :: b)).
    { apply Forall_app. split; [by apply digits_visible|]. constructor; [done|].
      by apply digits_visible. }
    split_and!; [by destruct a| |done|].
    { rewrite not_elem_of_app, not_elem_of_cons. split_and!; [by apply digits_free|done|].
      by apply digits_free. }
    unfold parseSegment. rewrite TrimSpace_id by done.
    rewrite bool_decide_eq_false_2 by by destruct a.
    rewrite IndexByte_app by by apply digits_free.
    pose proof (len_nonneg a). destruct (Z.leb_spec 0 (len a)); [|lia].
    rewrite upto_app by done. rewrite from_app_skip by lia.
    replace (len a + 1 - len a) with 1 by lia.
    change (from 1 (dash :: b)) with b.
    rewrite !TrimSpace_id by by apply digits_visible. rewrite Ha, Ha'.
    destruct (Z.ltb_spec (lo iv) 1); [lia|]. destruct (Z.ltb_spec 65535 (hi iv)); [lia|]. cbn [orb].
    destruct (Z.ltb_spec (hi iv) (lo iv)); [lia|done].
Qed.

Lemma Join_visible ps : Forall (Forall (λ c, visible c = true)) ps →
  Forall (λ c, visible c = true) (Join comma ps).
Proof.
  induction ps as [|p ps IH]; intros Hall; [constructor|]. apply Forall_cons in Hall as [Hp Hall].
  destruct ps as [|q ps]; [done|].
  change (Join comma (p :: q :: ps)) with (p ++ comma :: Join comma (q :: ps)).
  apply Forall_app. split; [done|]. constructor; [done|by apply IH].
Qed.

Lemma parseSegments_text ivs st : found_ok st → Forall iv_ok ivs →
  Forall (λ iv, port_ok (lo iv) ∧ port_ok (hi iv)) ivs → NoDup (st.2 ++ expand ivs) →
  ∃ seen, parseSegments (map ivText ivs) st = Ok (seen, st.2 ++ expand ivs).
Proof.
  intros Hst Hok Hr. revert st Hst. induction Hok as [|iv ivs Hiv _ IH]; intros st Hst Hnd.
  { exists st.1. cbn. rewrite app_nil_r. by destruct st. }
  apply Forall_cons in Hr as [[Hl Hh] Hr]. cbn [map parseSegments].
  destruct (ivText_spec iv Hiv Hl Hh) as (_ & _ & _ & ->).
  unfold expand in *. cbn [map concat] in *. rewrite app_assoc in Hnd |- *.
  assert (Hf : (foldl addPort st (seqZ (lo iv) (hi iv - lo iv + 1))).2 =
               st.2 ++ seqZ (lo iv) (hi iv - lo iv + 1)).
  { apply addPorts_fresh; [done|]. by apply NoDup_app in Hnd as [? _]. }
  destruct (IH Hr (foldl addPort st (seqZ (lo iv) (hi iv - lo iv + 1)))) as [seen Hs].
  - by apply addPorts_ok.
  - by rewrite Hf.
  - exists seen. rewrite Hs. by rewrite Hf.
Qed.

(** The text of a range is a comma-separated list of visible segments. *)
Lemma range_texts ports pr : pr_of ports pr →
  Forall (λ iv, port_ok (lo iv) ∧ port_ok (hi iv)) (intervals pr) ∧
  Forall (λ iv, ivText iv ≠ [] ∧ comma ∉ ivText iv ∧
                Forall (λ c, visible c = true) (ivText iv)) (intervals pr).
Proof.
  intros [Hok _ Hmem Hrange _]. rewrite <- Forall_and. apply Forall_forall. intros iv Hiv.
  pose proof (proj1 (Forall_forall _ _) (ivs_each _ Hok) iv Hiv) as Hle.
  assert (Hlo : port_ok (lo iv)).
  { apply Hrange, Hmem, elem_of_expand. exists iv. unfold iv_ok in Hle. split; [done|lia]. }
  assert (Hhi : port_ok (hi iv)).
  { apply Hrange, Hmem, elem_of_expand. exists iv. unfold iv_ok in Hle. split; [done|lia]. }
  destruct (ivText_spec iv Hle Hlo Hhi) as (? & ? & ? & _). done.
Qed.

Lemma expand_ne ivs : ivs ≠ [] → Forall iv_ok ivs → expand ivs ≠ [].
Proof.
  destruct ivs as [|iv ivs]; [done|]. intros _ [Hle _]%Forall_cons He. unfold iv_ok in Hle.
  assert (lo iv ∈ expand (iv :: ivs)) as Hx; [|rewrite He in Hx; by apply elem_of_nil in Hx].
  apply elem_of_expand. exists iv. split; [by left|lia].
Qed.

(** Merging the expansion of an interval extends the current one. *)
Lemma mergeLoop_seq n l h rest :
  mergeLoop l h (seqZ (h + 1) (Z.of_nat n) ++ rest) = mergeLoop l (h + Z.of_nat n) rest.
Proof.
  revert h. induction n as [|n IH]; intros h; [by rewrite Z.add_0_r|].
  rewrite seqZ_cons by lia. cbn [app mergeLoop].
  destruct (Z.eqb_spec (h + 1) h); [lia|]. rewrite Z.eqb_refl.
  replace (Z.succ (h + 1)) with ((h + 1) + 1) by lia.
  replace (Z.pred (Z.of_nat (S n))) with (Z.of_nat n) by lia. rewrite IH. f_equal. lia.
Qed.

Lemma mergeLoop_expand ivs l h : Forall iv_ok ivs → StronglySorted iv_before (mkIv l h :: ivs) →
  mergeLoop l h (expand ivs) = mkIv l h :: ivs.
Proof.
  intros Hok. revert l h. induction Hok as [|[a b] ivs Hiv _ IH]; intros l h Hs; [done|].
  apply StronglySorted_inv in Hs as [Hs Hall]. apply Forall_cons in Hall as [Hb _].
  unfold iv_before, iv_ok in *. cbn [lo hi] in *. unfold expand. cbn [map concat lo hi].
  rewrite seqZ_cons by lia. cbn [app mergeLoop].
  destruct (Z.eqb_spec a h); [lia|]. destruct (Z.eqb_spec a (h + 1)); [lia|]. f_equal.
  replace (Z.succ a) with (a + 1) by lia.
  replace (Z.pred (b - a + 1)) with (Z.of_nat (Z.to_nat (b - a))) by lia.
  rewrite mergeLoop_seq. replace (a + Z.of_nat (Z.to_nat (b - a))) with b by lia.
  by apply IH.
Qed.

Lemma NewPortRange_expand ports pr : pr_of ports pr → NewPortRange (expand (intervals pr)) = Ok pr.
Proof.
  intros [Hok Htot Hmem Hrange Hne]. pose proof (expand_increasing _ Hok) as Hinc.
  unfold NewPortRange. rewrite sortInts_id by done.
  destruct pr as [ivs tot]; cbn [intervals total] in *. destruct ivs as [|[a b] ivs]; [done|].
  destruct Hok as [Heach Hord]. pose proof Heach as Heach'. apply Forall_cons in Heach' as [Hab Heach'].
  unfold iv_ok in Hab. cbn [lo hi] in Hab.
  assert (Hexp : expand (mkIv a b :: ivs) = a :: seqZ (a + 1) (Z.of_nat (Z.to_nat (b - a))) ++ expand ivs).
  { unfold expand. cbn [map concat lo hi]. rewrite seqZ_cons by lia. cbn [app].
    replace (Z.succ a) with (a + 1) by lia.
    by replace (Z.pred (b - a + 1)) with (Z.of_nat (Z.to_nat (b - a))) by lia. }
  assert (Hr : ∀ x, x ∈ expand (mkIv a b :: ivs) → 1 ≤ x ≤ 65535) by (intros x Hx; by apply Hrange, Hmem).
  assert (Hin : List.last (expand (mkIv a b :: ivs)) 0 ∈ expand (mkIv a b :: ivs)).
  { rewrite Hexp. generalize (seqZ (a + 1) (Z.of_nat (Z.to_nat (b - a))) ++ expand ivs).
    clear. intros l. revert a. induction l as [|q l IH]; intros a; [by left|].
    change (List.last (a :: q :: l) 0) with (List.last (q :: l) 0). right. apply IH. }
  apply Hr in Hin. specialize (Hr a ltac:(rewrite Hexp; by left)). rewrite Hexp in Hin |- *.
  destruct (Z.ltb_spec a 1); [lia|]. set (z := List.last _ 0) in *.
  destruct (Z.ltb_spec 65535 z); [lia|]. cbn [orb]. rewrite mergeLoop_seq.
  replace (a + Z.of_nat (Z.to_nat (b - a))) with b by lia.
  rewrite mergeLoop_expand by done. rewrite sumTotal_expand by done. by rewrite Htot.
Qed.

(** Printing a port range and parsing the text gives back exactly its
    ports, and building a range from those gives back the same intervals: the
    canonical form survives a configuration file. *)
Theorem port_range_roundtrip ports pr :
  NewPortRange ports = Ok pr →
  ParsePortRangeSpec (PortRange_String pr) = Ok (expand (intervals pr)) ∧
  (∀ p, p ∈ expand (intervals pr) ↔ p ∈ ports) ∧
  NewPortRange (expand (intervals pr)) = Ok pr.
Proof.
  intros Hnew%NewPortRange_spec. destruct (range_texts _ _ Hnew) as [Hends Htexts].
  split_and!; [|apply Hnew|by eapply NewPortRange_expand].
  destruct Hnew as [Hok Htot Hmem Hrange Hne]. pose proof (expand_increasing _ Hok) as Hinc.
  unfold ParsePortRangeSpec, PortRange_String. rewrite (bool_decide_eq_false_2 (intervals pr = [])) by done.
  rewrite TrimSpace_id.
  2:{ apply Join_visible, Forall_fmap. eapply Forall_impl; [exact Htexts|]. by intros iv (_ & _ & ?). }
  rewrite bool_decide_eq_false_2.
  2:{ destruct (intervals pr) as [|iv ivs]; [done|]. apply Forall_cons in Htexts as [[? _] _].
      cbn. destruct (map ivText ivs); [done|]. by destruct (ivText iv). }
  rewrite Split_Join.
  - destruct (parseSegments_text (intervals pr) (∅, [])) as [seen ->];
      [split; [done|constructor]|apply Hok|done|by apply increasing_NoDup|].
    cbn [app snd]. rewrite bool_decide_eq_false_2; [by rewrite sortInts_id|].
    by apply expand_ne, ivs_each.
  - by destruct (intervals pr).
  - apply Forall_fmap. eapply Forall_impl; [exact Htexts|]. by intros iv (_ & ? & _).
Qed.

Lemma port_range_roundtrip_witness :
  match NewPortRange [25001; 80; 25000] with
  | Ok pr => PortRange_String pr = str "80,25000-25001" ∧
             ParsePortRangeSpec (PortRange_String pr) = Ok [80; 25000; 25001]
  | Err _ => False
  end.
Proof.
  destruct (NewPortRange [25001; 80; 25000]) as [pr|] eqn:E; [|vm_compute in E; discriminate].
  destruct (port_range_roundtrip _ _ E) as [H _]. vm_compute in E. injection E as <-.
  split; [vm_compute; reflexivity|]. rewrite H. vm_compute. reflexivity.
Defined.

(** * The shuffle bag *)

Lemma delete_insert_same (l : list Z) k v : delete k (<[k := v]> l) = delete k l.
Proof. revert k. induction l as [|x l IH]; intros [|k]; cbn; [done..|]. f_equal. apply IH. Qed.

Lemma swap_perm l i j : swap l i j ≡ₚ l.
Proof.
  unfold swap. destruct (l !! i) as [x|] eqn:Hi; [|done]. destruct (l !! j) as [y|] eqn:Hj; [|done].
  destruct (decide (i = j)) as [->|Hne].
  { rewrite list_insert_insert_eq. replace y with x by congruence.
    by rewrite list_insert_id by congruence. }
  set (m := <[j := x]> l).
  assert (Hdel : ∀ (l : list Z) k v, (k < length l)%nat → <[k := v]> l ≡ₚ v :: delete k l).
  { clear. intros l k v Hk. rewrite (delete_Permutation (<[k := v]> l) k v)
      by by apply list_lookup_insert_eq. by rewrite delete_insert_same. }
  apply lookup_lt_Some in Hi as Hil. apply lookup_lt_Some in Hj as Hjl.
  assert (Hmi : m !! i = Some x) by (subst m; by rewrite list_lookup_insert_ne).
  assert (Hm1 : m ≡ₚ x :: delete i m) by by apply delete_Permutation.
  assert (Hm2 : m ≡ₚ x :: delete j l) by by apply Hdel.
  rewrite Hdel by (subst m; rewrite length_insert; lia).
  rewrite (delete_Permutation l j y) by done. f_equiv.
  apply (Permutation_cons_inv (a := x)). by rewrite <- Hm1.
Qed.

Lemma shuffleLoop_perm i draws l : shuffleLoop i draws l ≡ₚ l.
Proof.
  revert draws l. induction i as [|i IH]; intros draws l; cbn [shuffleLoop]; [done|].
  rewrite IH. apply swap_perm.
Qed.

Lemma Shuffle_perm draws l : Shuffle draws l ≡ₚ l.
Proof. apply shuffleLoop_perm. Qed.

(** [n] consecutive calls of [Next]; [draws k] is what call k takes from the
    generator. *)
Fixpoint nextN (n : nat) (k : nat) (s : PortSelector) (draws : nat → list Z)
  : list Z * PortSelector :=
  match n with
  | O => ([], s)
  | S n => let '(p, s) := Next s (draws k) in
           let '(ps, s) := nextN n (S k) s draws in (p :: ps, s)
  end.

(** A random selector whose bag is a permutation of the range. *)
Record sel_ok (ports : list Z) (s : PortSelector) (b : list Z) : Prop := {
  so_mode : mode s = SelectorRandom;
  so_bag : bag s = Some b;
  so_perm : b ≡ₚ ports;
  so_total : total (sel_pr s) = len ports;
  so_pos : 0 ≤ bagPos s ≤ len b;
}.

Lemma Next_random ports s b draws : sel_ok ports s b → 0 < len ports →
  ∃ b', sel_ok ports (Next s draws).2 b' ∧
    (if bagPos s <? len b
     then b' = b ∧ (Next s draws).1 = at_z (bagPos s) b ∧ bagPos (Next s draws).2 = bagPos s + 1
     else (Next s draws).1 = at_z 0 b' ∧ bagPos (Next s draws).2 = 1).
Proof.
  intros [Hm Hb Hp Ht Hpos] Hn. unfold Next, nextUniform. rewrite Hm, Hb, Ht.
  destruct (Z.eqb_spec (len ports) 0); [lia|].
  assert (Hlb : len b = len ports) by (unfold len; by rewrite Hp).
  destruct (Z.leb_spec (len b) (bagPos s)), (Z.ltb_spec (bagPos s) (len b)); try lia.
  - assert (Hls : len (Shuffle draws b) = len b) by (unfold len; by rewrite Shuffle_perm).
    exists (Shuffle draws b). split; [|done]. split; cbn; try done; [by rewrite Shuffle_perm|lia].
  - exists b. split; [|done]. split; cbn; try done. lia.
Qed.

(** From inside a round the calls read the rest of the bag. *)
Lemma nextN_rest ports s b n k draws : sel_ok ports s b → 0 < len ports →
  bagPos s + Z.of_nat n ≤ len b →
  (nextN n k s draws).1 = slice (bagPos s) (bagPos s + Z.of_nat n) b ∧
  sel_ok ports (nextN n k s draws).2 b ∧ bagPos (nextN n k s draws).2 = bagPos s + Z.of_nat n.
Proof.
  intros Hs Hn. revert k s Hs. induction n as [|n IH]; intros k s Hs Hle.
  { cbn. rewrite Z.add_0_r. unfold slice. rewrite Z.sub_diag. done. }
  pose proof (so_pos _ _ _ Hs) as Hpos. cbn [nextN].
  destruct (Next_random ports s b (draws k) Hs Hn) as (b' & Hs' & Hnext).
  destruct (Z.ltb_spec (bagPos s) (len b)); [|lia]. destruct Hnext as (-> & Hp & Hpos').
  destruct (Next s (draws k)) as [p s1]. cbn [fst snd] in *.
  destruct (IH (S k) s1 Hs') as (H1 & H2 & H3); [lia|].
  destruct (nextN n (S k) s1 draws) as [ps s2]. cbn [fst snd] in *. rewrite H1, Hp, Hpos'.
  split_and!; [|done|lia].
  change (at_z (bagPos s) b :: ?l) with ([at_z (bagPos s) b] ++ l).
  rewrite at_z_slice by lia. rewrite slice_join by lia. f_equal. lia.
Qed.

(** A full round dealt from a round boundary. *)
Lemma nextN_round ports s b k draws : sel_ok ports s b → 0 < len ports →
  bagPos s = 0 ∨ bagPos s = len b →
  ∃ b', (nextN (length ports) k s draws).1 ≡ₚ ports ∧
        sel_ok ports (nextN (length ports) k s draws).2 b' ∧
        bagPos (nextN (length ports) k s draws).2 = len b'.
Proof.
  intros Hs Hn Hpos. assert (Hlb : len b = len ports) by (unfold len; by rewrite (so_perm _ _ _ Hs)).
  assert (Hfull : ∀ b' : list Z, len b' = len ports → slice 0 (len ports) b' = b').
  { intros b' Hb'. rewrite slice_0. apply upto_all. lia. }
  destruct Hpos as [H0|Hend].
  - destruct (nextN_rest ports s b (length ports) k draws Hs Hn) as (H1 & H2 & H3);
      [unfold len in *; lia|].
    exists b. rewrite H1, H0, H3, H0, !Z.add_0_l. change (Z.of_nat (length ports)) with (len ports).
    rewrite Hfull by done. split_and!; [apply Hs|done|lia].
  - destruct (length ports) as [|n] eqn:Hlen; [unfold len in Hn; lia|]. cbn [nextN].
    destruct (Next_random ports s b (draws k) Hs Hn) as (b' & Hs' & Hnext).
    destruct (Z.ltb_spec (bagPos s) (len b)); [lia|]. destruct Hnext as (Hp & Hpos').
    destruct (Next s (draws k)) as [p s1]. cbn [fst snd] in *.
    assert (Hlb' : len b' = len ports) by (unfold len; by rewrite (so_perm _ _ _ Hs')).
    destruct (nextN_rest ports s1 b' n (S k) draws Hs' Hn) as (H1 & H2 & H3);
      [unfold len in *; lia|].
    destruct (nextN n (S k) s1 draws) as [ps s2]. cbn [fst snd] in *. exists b'.
    split_and!; [|done|unfold len in *; lia]. rewrite Hp, H1, Hpos'.
    change (at_z 0 b' :: ?l) with ([at_z 0 b'] ++ l).
    rewrite at_z_slice, slice_join by (lia || unfold len in *; lia).
    replace (1 + Z.of_nat n) with (len ports) by (unfold len in *; lia).
    rewrite Hfull by done. apply Hs'.
Qed.

(** The shuffle bag: whatever the random generator yields, the
    destination ports handed out by a random selector over at most 4096 ports
    come in rounds, each round using every port of the range exactly once. *)
Theorem shuffle_bag_rounds ports pr seed draws r :
  NewPortRange ports = Ok pr → total pr ≤ shuffleBagMaxPorts →
  ∃ rounds,
    (nextN (r * length (expand (intervals pr))) 0 (NewPortSelector pr SelectorRandom seed) draws).1
      = concat rounds ∧
    length rounds = r ∧ Forall (λ round, round ≡ₚ expand (intervals pr)) rounds.
Proof.
  intros Hpr%NewPortRange_spec Hmax. destruct Hpr as [Hok Htot Hmem Hrange Hne].
  assert (Hpos : 0 < len (expand (intervals pr))).
  { pose proof (expand_ne _ Hne (ivs_each _ Hok)). destruct (expand (intervals pr)); [done|].
    rewrite len_cons. pose proof (len_nonneg l). lia. }
  assert (Hu16 : map u16 (expand (intervals pr)) = expand (intervals pr)).
  { rewrite <- (map_id (expand (intervals pr))) at 2. apply map_ext_in. intros x Hx.
    apply list_elem_of_In, Hmem, Hrange in Hx. apply u16_small. lia. }
  assert (Hs0 : sel_ok (expand (intervals pr)) (NewPortSelector pr SelectorRandom seed) (fillBag pr seed)).
  { unfold NewPortSelector, fillBag. split; cbn; try done.
    - destruct (Z.ltb_spec 0 (total pr)); [|lia]. by destruct (Z.leb_spec (total pr) shuffleBagMaxPorts); [|lia].
    - by rewrite Hu16, Shuffle_perm.
    - split; [lia|apply len_nonneg]. }
  set (s0 := NewPortSelector pr SelectorRandom seed) in *.
  assert (H0 : bagPos s0 = 0 ∨ bagPos s0 = len (fillBag pr seed)) by by left.
  clearbody s0. revert H0 Hs0. generalize (fillBag pr seed) as b. generalize 0%nat as k.
  revert s0. set (n := length (expand (intervals pr))).
  induction r as [|r IH]; intros s k b H0 Hs.
  { exists []. by split_and!. }
  destruct (nextN_round (expand (intervals pr)) s b k draws Hs Hpos H0) as (b' & Hp & Hs' & Hend).
  fold n in Hp, Hs', Hend. cbn [Nat.mul].
  assert (Happ : ∀ m j t, (nextN (m + r * n) j t draws).1 =
            (nextN m j t draws).1 ++ (nextN (r * n) (j + m) (nextN m j t draws).2 draws).1).
  { clear. induction m as [|m IHm]; intros j t; [by rewrite Nat.add_0_r|].
    cbn [Nat.add nextN]. destruct (Next t (draws j)) as [p t1]. specialize (IHm (S j) t1).
    destruct (nextN (m + r * n) (S j) t1 draws), (nextN m (S j) t1 draws) as [ps t2].
    cbn [fst snd] in *. rewrite IHm. by replace (S j + m)%nat with (j + S m)%nat by lia. }
  rewrite Happ. destruct (IH (nextN n k s draws).2 (k + n)%nat b') as (rounds & Hr & Hl & Hall);
    [by right|done|].
  exists ((nextN n k s draws).1 :: rounds). rewrite Hr. split_and!; [done|cbn; lia|by constructor].
Qed.

Lemma shuffle_bag_rounds_witness :
  match NewPortRange [7; 5; 6] with
  | Ok pr => ∃ rounds,
      (nextN 6 0 (NewPortSelector pr SelectorRandom [1; 0]) (λ k, [Z.of_nat k; 1])).1 = concat rounds ∧
      length rounds = 2%nat ∧ Forall (λ round, round ≡ₚ [5; 6; 7]) rounds
  | Err _ => False
  end.
Proof.
  destruct (NewPortRange [7; 5; 6]) as [pr|] eqn:E; [|vm_compute in E; discriminate].
  assert (Ht : total pr ≤ shuffleBagMaxPorts)
    by (vm_compute in E; injection E as <-; vm_compute; discriminate).
  pose proof (shuffle_bag_rounds _ pr [1; 0] (λ k, [Z.of_nat k; 1]) 2 E Ht) as H.
  vm_compute in E. injection E as <-. exact H.
Defined.
