(* ===== verification/GenConfig.v ===== *)
(** The firewall rules printed by src/gen_config.go: a rule set that sends the client's
    port range to the port the server listens on.

    What a command prints is a list of lines; [atoiPort] and [resolveRangeSpec] give
    [None] where the command exits.  How the firewalls read a rule's ports is written
    out ([inArg], [inSet]) from their documentation. *)
From S2P Require Import Prelude GoStrings GoNet PortRange.
Local Open Scope Z_scope.

Definition maxMultiport : nat := 15.

(** The loop that cuts the tokens into groups of 15. *)
Fixpoint chunks (fuel : nat) (tokens : list bytes) : list (list bytes) :=
  match fuel, tokens with
  | S fuel, _ :: _ => take maxMultiport tokens :: chunks fuel (drop maxMultiport tokens)
  | _, _ => []
  end.
(** Each turn consumes a token. *)
Definition dnatDportsArg (tokens : list bytes) : list bytes := map (Join comma) (chunks (length tokens) tokens).

Definition token (sep : Z) (iv : portInterval) : bytes :=
  if lo iv =? hi iv then Itoa (lo iv) else Itoa (lo iv) ++ sep :: Itoa (hi iv).

Definition intervalTokens (pr : option PortRange) (sep : Z) : list bytes :=
  match pr with None => [] | Some pr => map (token sep) (intervals pr) end.

Definition iptablesRule (internalPort : Z) (dports : bytes) : bytes :=
  str "sudo iptables -t nat -A PREROUTING -p udp -m multiport --dports " ++ dports ++
  str " -j REDIRECT --to-ports " ++ Itoa internalPort.

Definition generateIptables (internalPort : Z) (pr : option PortRange) : list bytes :=
  str "=== Iptables Port Redirection / Hopping Rules ===" ::
  match pr with
  | Some r =>
      if total r =? 0 then
        [str "Redirecting all incoming UDP (ports 1000-65535) to local port " ++ Itoa internalPort ++ str ":"; [];
         str "sudo iptables -t nat -A PREROUTING -p udp --dport 1000:65535 -j REDIRECT --to-ports " ++ Itoa internalPort]
      else
        [str "Redirecting incoming UDP on port range " ++ PortRange_String r ++ str " to local port " ++ Itoa internalPort ++ str ":"; []]
        ++ map (iptablesRule internalPort) (dnatDportsArg (intervalTokens pr colon))
        ++ [[]; str "# Verify:  sudo iptables -t nat -L PREROUTING -n --line-numbers"]
  | None =>
      [str "Redirecting all incoming UDP (ports 1000-65535) to local port " ++ Itoa internalPort ++ str ":"; [];
       str "sudo iptables -t nat -A PREROUTING -p udp --dport 1000:65535 -j REDIRECT --to-ports " ++ Itoa internalPort]
  end.

(** strings.Join with ", ". *)
Fixpoint joinSpaced (ps : list bytes) : bytes :=
  match ps with [] => [] | [p] => p | p :: ps => p ++ comma :: 32 :: joinSpaced ps end.

Definition nftSet (pr : PortRange) : bytes := 123 :: joinSpaced (intervalTokens (Some pr) dash) ++ [125].

(** Up to the rule; the notes that follow do not depend on the arguments. *)
Definition generateNftables (internalAddr : bytes) (pr : option PortRange) : list bytes :=
  str "=== nftables Port Range DNAT Rules ===" ::
  match pr with
  | Some r =>
      if total r =? 0 then [str "No port range provided."] else
      [str "Redirect incoming UDP on port range " ++ PortRange_String r ++ str " to " ++ internalAddr ++ str ":"; [];
       str "sudo nft add table ip udpc";
       str "sudo nft 'add chain ip udpc prerouting { type nat hook prerouting priority dstnat; }'";
       str "sudo nft add rule ip udpc prerouting ip protocol udp th dport " ++ nftSet r ++ str " dnat to " ++ internalAddr]
  | None => [str "No port range provided."]
  end.

Definition atoiPort (s : bytes) : option Z :=
  match Atoi (TrimSpace s) with
  | Some p => if (p <? 1) || (65535 <? p) then None else Some p
  | None => None
  end.

(** [--range] first, then the file's port_range; the outer [None] is an exit. *)
Definition resolveRangeSpec (rangeSpec : bytes) (cfgRange : option (option bytes)) : option (option PortRange) :=
  let rangeSpec := match rangeSpec, cfgRange with
                   | [], Some None => None
                   | [], Some (Some r) => Some r
                   | s, _ => Some s
                   end in
  match rangeSpec with
  | None => None
  | Some [] => Some None
  | Some spec =>
      match ParsePortRangeSpec spec with
      | Err _ => None
      | Ok ports => match NewPortRange ports with Err _ => None | Ok pr => Some (Some pr) end
      end
  end.

(** * How a rule is read *)

(** A port, or two joined by the separator. *)
Definition readToken (sep : Z) (t : bytes) : option (Z * Z) :=
  match Split sep t with
  | [a] => match Atoi a with Some x => Some (x, x) | None => None end
  | [a; b] => match Atoi a, Atoi b with Some x, Some y => Some (x, y) | _, _ => None end
  | _ => None
  end.

Definition inToken (sep : Z) (p : Z) (t : bytes) : bool :=
  match readToken sep t with Some (a, b) => (a <=? p) && (p <=? b) | None => false end.

Definition inArg (p : Z) (arg : bytes) : bool := existsb (inToken colon p) (Split comma arg).

(** An nftables set: between braces, with spaces after commas. *)
Definition inSet (p : Z) (set : bytes) : bool :=
  existsb (λ t, inToken dash p (TrimSpace t)) (Split comma (slice 1 (len set - 1) set)).

(** The ports iptables counts in a multiport match: a range counts as two. *)
Definition multiportPorts (arg : bytes) : Z :=
  foldr Z.add 0 (map (λ t, len (Split colon t)) (Split comma arg)).

(** * The rules cover the range *)

Lemma digits_no_sep s sep : Forall (λ c, isDigit c = true) s → isDigit sep = false → sep ∉ s.
Proof. intros Hs Hc Hin. apply (proj1 (Forall_forall _ _) Hs) in Hin. congruence. Qed.

Lemma token_spec sep iv :
  isDigit sep = false → sep ≠ comma → isSpace sep = false → sep < 128 → port_ok (lo iv) → port_ok (hi iv) →
  readToken sep (token sep iv) = Some (lo iv, hi iv) ∧ comma ∉ token sep iv ∧
  Forall (λ c, visible c = true) (token sep iv) ∧ token sep iv ≠ [].
Proof.
  unfold port_ok. intros Hd Hc Hs Ha Hl Hh. destruct (Itoa_spec (lo iv) ltac:(lia)) as (A1 & A2 & A3).
  destruct (Itoa_spec (hi iv) ltac:(lia)) as (B1 & B2 & B3). unfold token, readToken.
  generalize dependent (Itoa (hi iv)). generalize dependent (Itoa (lo iv)). intros a A1 A2 A3 b B1 B2 B3.
  destruct (Z.eqb_spec (lo iv) (hi iv)) as [He|He].
  - rewrite Split_no_sep by by apply digits_no_sep. rewrite A1. cbn. rewrite <- He. split_and!; try done.
    + by apply digits_no_sep.
    + by apply digits_visible.
  - rewrite Split_app, Split_no_sep by by apply digits_no_sep. rewrite A1, B1. split_and!; try done.
    + rewrite not_elem_of_app, not_elem_of_cons. split_and!; [by apply digits_no_sep|done|by apply digits_no_sep].
    + apply Forall_app. split; [by apply digits_visible|]. constructor; [|by apply digits_visible].
      unfold visible. rewrite Hs. cbn. by apply Z.ltb_lt.
    + by destruct a.
Qed.

Lemma tokens_spec ports pr sep :
  pr_of ports pr → isDigit sep = false → sep ≠ comma → isSpace sep = false → sep < 128 →
  let ts := map (token sep) (intervals pr) in
  Forall (λ t, comma ∉ t ∧ Forall (λ c, visible c = true) t ∧ t ≠ []) ts ∧
  (∀ p, p ∈ ports ↔ Exists (λ t, inToken sep p t = true) ts).
Proof.
  intros Hpr Hd Hc Hs Ha ts. destruct (range_texts _ _ Hpr) as [Hends _]. split.
  - apply Forall_fmap. eapply Forall_impl; [exact Hends|]. intros iv [Hl Hh].
    destruct (token_spec sep iv Hd Hc Hs Ha Hl Hh) as (_ & ? & ? & ?). done.
  - intros p. rewrite <- (pro_mem _ _ Hpr p), elem_of_expand. unfold ts. rewrite Exists_fmap, Exists_exists. cbv beta.
    apply exist_proper. intros iv. rewrite Forall_forall in Hends. split; intros [Hin H]; (split; [done|]);
      destruct (Hends iv Hin) as [Hl Hh]; destruct (token_spec sep iv Hd Hc Hs Ha Hl Hh) as (E & _);
      unfold compose, inToken in *; rewrite E in *; [apply andb_true_iff; rewrite !Z.leb_le; lia|].
    apply andb_true_iff in H as [?%Z.leb_le ?%Z.leb_le]. lia.
Qed.

Lemma chunks_spec fuel ts :
  (length ts <= fuel)%nat →
  concat (chunks fuel ts) = ts ∧ Forall (λ c, c ≠ [] ∧ (length c <= maxMultiport)%nat) (chunks fuel ts).
Proof.
  revert ts. induction fuel as [|fuel IH]; intros ts Hf.
  { destruct ts; [done|cbn in Hf; lia]. }
  destruct ts as [|t ts]; [done|]. cbn [chunks concat]. destruct (IH (drop maxMultiport (t :: ts))) as [H1 H2]; [rewrite length_drop; unfold maxMultiport; cbn [length] in *; lia|].
  rewrite H1, take_drop. split; [done|]. constructor; [|done]. split; [done|]. rewrite length_take. lia.
Qed.

Lemma inArg_Join p ts : ts ≠ [] → Forall (λ t, comma ∉ t) ts → inArg p (Join comma ts) = existsb (inToken colon p) ts.
Proof. intros Hne Hc. unfold inArg. by rewrite Split_Join. Qed.

Lemma existsb_Exists {A} (f : A → bool) l : existsb f l = true ↔ Exists (λ x, f x = true) l.
Proof. rewrite existsb_exists, Exists_exists. split; intros (x & H); exists x; by rewrite list_elem_of_In in *. Qed.

(** Splitting a spaced list at its commas leaves a space before every part but the
    first. *)
Lemma Split_joinSpaced ts : ts ≠ [] → Forall (λ t, comma ∉ t) ts →
  Split comma (joinSpaced ts) = match ts with [] => [] | t :: ts => t :: map (cons 32) ts end.
Proof.
  intros Hne Hc. destruct Hc as [|t ts Ht Hts]; [done|]. clear Hne. revert t Ht. induction Hts as [|u ts Hu _ IH]; intros t Ht.
  { by apply Split_no_sep. }
  change (joinSpaced (t :: u :: ts)) with (t ++ comma :: 32 :: joinSpaced (u :: ts)). rewrite Split_app by done. cbn [map]. f_equal.
  specialize (IH u Hu). cbn [Split]. change (32 =? comma) with false. cbn [negb]. by rewrite IH.
Qed.

Lemma TrimSpace_spaced t : Forall (λ c, visible c = true) t → TrimSpace (32 :: t) = t.
Proof.
  intros Ht. unfold TrimSpace. assert (E : trimLeft (32 :: t) = trimLeft t) by done. rewrite E. by apply TrimSpace_id.
Qed.

(** The generated rules redirect the configured range and nothing else:
    read the way the firewalls read them, the iptables rules together, and the nftables
    set, contain exactly the range's ports, and no iptables rule has more than fifteen
    entries. *)
Theorem firewall_covers_range ports pr :
  NewPortRange ports = Ok pr →
  let args := dnatDportsArg (intervalTokens (Some pr) colon) in
  (∀ p, p ∈ ports ↔ Exists (λ arg, inArg p arg = true) args) ∧
  Forall (λ arg, len (Split comma arg) ≤ 15) args ∧
  (∀ p, p ∈ ports ↔ inSet p (nftSet pr) = true).
Proof.
  intros Hpr%NewPortRange_spec args.
  destruct (tokens_spec ports pr colon Hpr) as [Hc Hcm]; [done..|].
  destruct (tokens_spec ports pr dash Hpr) as [Hd Hdm]; [done..|]. cbn zeta in *.
  unfold args, dnatDportsArg, intervalTokens. set (ts := map (token colon) (intervals pr)) in *.
  destruct (chunks_spec (length ts) ts ltac:(lia)) as [Hcat Hch].
  assert (Hcomma : Forall (Forall (λ t, comma ∉ t)) (chunks (length ts) ts)).
  { apply Forall_concat. rewrite Hcat. eapply Forall_impl; [exact Hc|]. by intros t [? _]. }
  assert (Hx : ∀ P, Exists P ts ↔ Exists (Exists P) (chunks (length ts) ts)) by (intros P; by rewrite <- Exists_concat, Hcat).
  pose proof (conj Hch Hcomma) as Hboth. rewrite <- Forall_and in Hboth. split_and!.
  - intros p. rewrite Hcm, Hx, Exists_fmap, (Exists_exists (Exists _)), (Exists_exists (_ ∘ _)). apply exist_proper. intros c.
    split; intros [Hin H]; (split; [done|]); rewrite Forall_forall in Hboth; destruct (Hboth c Hin) as [[Hne _] Hcc];
      unfold compose in *; revert H; rewrite inArg_Join by done; by rewrite existsb_Exists.
  - apply Forall_fmap. eapply Forall_impl; [exact Hboth|]. intros c [[Hne Hl] Hcc]. unfold compose.
    rewrite Split_Join by done. unfold len, maxMultiport in *. lia.
  - intros p. rewrite Hdm. unfold inSet, nftSet, intervalTokens. set (td := map (token dash) (intervals pr)) in *.
    assert (Hs : slice 1 (len (123 :: joinSpaced td ++ [125]) - 1) (123 :: joinSpaced td ++ [125]) = joinSpaced td).
    { rewrite len_cons, len_app. apply (slice_app 1 _ [123]); [done|]. change (len [125]) with 1. lia. }
    rewrite Hs. assert (Hne : td ≠ []) by (unfold td; destruct (intervals pr) eqn:E; [by destruct (pro_ne _ _ Hpr)|done]).
    rewrite Split_joinSpaced by (done || (eapply Forall_impl; [exact Hd|]; by intros t [? _])).
    rewrite existsb_Exists. clearbody td. destruct Hd as [|t td Ht Htd]; [done|]. rewrite !Exists_cons, Exists_fmap.
    destruct Ht as (_ & Hv & _). rewrite (TrimSpace_id t Hv). apply or_iff_compat_l. rewrite !Exists_exists.
    apply exist_proper. intros u. split; intros [Hin H]; (split; [done|]); rewrite Forall_forall in Htd;
      destruct (Htd u Hin) as (_ & Hu & _); unfold compose in *; by rewrite TrimSpace_spaced in *.
Qed.

(** iptables takes at most fifteen ports in a multiport match and counts a range as two:
    eight ranges in one rule are refused. *)
Lemma multiport_overcounted :
  match NewPortRange (flat_map (λ i, [10 * i + 1; 10 * i + 2]) (seqZ 1 8)) with
  | Ok pr => ∃ arg, dnatDportsArg (intervalTokens (Some pr) colon) = [arg] ∧ multiportPorts arg = 16
  | Err _ => False
  end.
Proof. vm_compute. by eexists. Qed.

Lemma firewall_covers_range_witness :
  match NewPortRange [25001; 80; 25000] with
  | Ok pr => nftSet pr = str "{80, 25000-25001}" ∧ Forall (λ arg, len (Split comma arg) ≤ 15) (dnatDportsArg (intervalTokens (Some pr) colon))
  | Err _ => False
  end.
Proof.
  destruct (NewPortRange [25001; 80; 25000]) as [pr|] eqn:E; [|vm_compute in E; discriminate].
  split; [vm_compute in E; injection E as <-; vm_compute; reflexivity|].
  exact (proj1 (proj2 (firewall_covers_range [25001; 80; 25000] pr E))).
Defined.
