(* ===== verification/Targets.v ===== *)
(** The server's access control on requested targets: [parseTargetNetworkAndAddr],
    [matchTargetPattern], [wildcardMatch] and [targetAllowed] of
    src/tunnel/server.go, with Go's net.SplitHostPort.

    [unicodeToLower] stands for strings.ToLower on strings with non-ASCII bytes. *)
From S2P Require Import Prelude GoStrings.
Local Open Scope Z_scope.

Definition star : Z := 42.
Definition question : Z := 63.
Definition colon : Z := 58.
Definition lbracket : Z := 91.
Definition rbracket : Z := 93.

Definition hasPrefix (s p : bytes) : bool := bool_decide (p `prefix_of` s).

(** [net.SplitHostPort]; [None] is its error. *)
Definition SplitHostPort (hostport : bytes) : option (bytes * bytes) :=
  let i := LastIndexByte hostport colon in
  if i <? 0 then None else
  let split :=
    if hasPrefix hostport [lbracket] then
      let e := IndexByte hostport rbracket in
      if e <? 0 then None else
      if e + 1 =? i then Some (slice 1 e hostport, 1, e + 1) else None
    else
      let host := upto i hostport in
      if 0 <=? IndexByte host colon then None else Some (host, 0, 0) in
  match split with
  | None => None
  | Some (host, j, k) =>
      if 0 <=? IndexByte (from j hostport) lbracket then None else
      if 0 <=? IndexByte (from k hostport) rbracket then None else
      Some (host, from (i + 1) hostport)
  end.

(** * Wildcard matching *)

(** [pattern[pi] == '?' || pattern[pi] == s[si]] *)
Definition one_matches (pattern s : bytes) (si pi : nat) : bool :=
  match pattern !! pi, s !! si with
  | Some a, Some b => (a =? question) || (a =? b)
  | _, _ => false
  end.

(** The loop of [wildcardMatch]; [None] is out of fuel. *)
Fixpoint globLoop (fuel : nat) (pattern s : bytes) (si pi : nat) (st : option nat)
    (starSi : nat) : option bool :=
  match fuel with
  | O => None
  | S fuel =>
      if decide (si < length s)%nat then
        if one_matches pattern s si pi then globLoop fuel pattern s (S si) (S pi) st starSi
        else if bool_decide (pattern !! pi = Some star) then
          globLoop fuel pattern s si (S pi) (Some pi) si
        else match st with
             | Some p => globLoop fuel pattern s (S starSi) (S p) st (S starSi)
             | None => Some false
             end
      else Some (forallb (λ c, c =? star) (drop pi pattern))
  end.

Definition globFuel (pattern s : bytes) : nat :=
  ((S (length pattern) * S (S (length s)) + length s) * S (S (length s)) + length s + 1)%nat.

Definition wildcardMatch (pattern s : bytes) : bool :=
  default false (globLoop (globFuel pattern s) pattern s 0 0 None 0).

(** * Targets *)

Inductive network := TCP | UDP.
#[global] Instance network_eq_dec : EqDecision network.
Proof. solve_decision. Defined.

Section Access.
Context (unicodeToLower : bytes → bytes).

Definition lowerByte (c : Z) : Z := if (65 <=? c) && (c <=? 90) then c + 32 else c.
Definition ToLower (s : bytes) : bytes :=
  if forallb (λ c, c <? 128) s then map lowerByte s else unicodeToLower s.

Definition parseTargetNetworkAndAddr (raw : bytes) : network * bytes :=
  let raw := TrimSpace raw in
  let lower := ToLower raw in
  if hasPrefix lower (str "udp://") then (UDP, from 6 raw) else
  if hasPrefix lower (str "tcp://") then (TCP, from 6 raw) else (TCP, raw).

Definition matchTargetPattern (pattern endpoint : bytes) : bool :=
  let '(pNet, pRest) := parseTargetNetworkAndAddr pattern in
  let '(eNet, eRest) := parseTargetNetworkAndAddr endpoint in
  if negb (bool_decide (pNet = eNet)) then false else
  match SplitHostPort pRest, SplitHostPort eRest with
  | Some (pHost, pPort), Some (eHost, ePort) =>
      wildcardMatch (ToLower pHost) (ToLower eHost) && wildcardMatch pPort ePort
  | _, _ => wildcardMatch (ToLower pRest) (ToLower eRest)
  end.

Definition targetAllowed (endpoint : bytes) (patterns : list bytes) : bool :=
  existsb (λ p, let p := TrimSpace p in
                negb (len p =? 0) && matchTargetPattern p endpoint) patterns.

End Access.

(** * Reference: what a wildcard pattern denotes *)

Inductive glob : bytes → bytes → Prop :=
| glob_nil : glob [] []
| glob_any c p s : glob p s → glob (question :: p) (c :: s)
| glob_lit c p s : c ≠ star → glob p s → glob (c :: p) (c :: s)
| glob_star_nil p s : glob p s → glob (star :: p) s
| glob_star_cons c p s : glob (star :: p) s → glob (star :: p) (c :: s).

Lemma glob_star_app p s t : glob p t → glob (star :: p) (s ++ t).
Proof. intros H. induction s; simpl; [by apply glob_star_nil|by apply glob_star_cons]. Qed.

Lemma glob_star_inv p s : glob (star :: p) s → ∃ n, (n ≤ length s)%nat ∧ glob p (drop n s).
Proof.
  intros H. remember (star :: p) as q eqn:Hq. induction H; simplify_eq.
  - exists 0%nat. split; [lia|done].
  - destruct (IHglob eq_refl) as (n & ? & ?). exists (S n). split; [simpl; lia|done].
Qed.

Lemma glob_app p1 s1 p2 s2 : glob p1 s1 → glob p2 s2 → glob (p1 ++ p2) (s1 ++ s2).
Proof.
  induction 1; intros; simpl;
    [done|apply glob_any|apply glob_lit|apply glob_star_nil|apply glob_star_cons]; auto.
Qed.

Lemma glob_stars p : forallb (λ c, c =? star) p = true → glob p [].
Proof.
  induction p as [|c p IH]; [constructor|]. simpl. intros [->%Z.eqb_eq ?]%andb_prop.
  constructor. auto.
Qed.

Lemma glob_nil_inv p : glob p [] → forallb (λ c, c =? star) p = true.
Proof.
  intros H. remember [] as s eqn:Hs. induction H; simplify_eq; simpl; auto.
Qed.

(** A segment without a star that matches character by character. *)
Definition seg_matches (p s : bytes) : Prop := Forall2 (λ a b, a = question ∨ a = b) p s.

Lemma one_matches_spec p s si pi :
  one_matches p s si pi = true ↔
  ∃ a b, p !! pi = Some a ∧ s !! si = Some b ∧ (a = question ∨ a = b).
Proof.
  unfold one_matches. destruct (p !! pi) as [a|], (s !! si) as [b|]; split; try naive_solver.
  - intros [?%Z.eqb_eq|?%Z.eqb_eq]%orb_prop; naive_solver.
  - intros (? & ? & [= <-] & [= <-] & H). apply orb_true_iff. rewrite !Z.eqb_eq. tauto.
Qed.

(** Without a star in the text, a pattern that starts with a star-free segment
    matches by consuming it. *)
Lemma glob_seg seg p s :
  star ∉ seg → glob (seg ++ p) s →
  seg_matches seg (take (length seg) s) ∧ (length seg ≤ length s)%nat ∧ glob p (drop (length seg) s).
Proof.
  revert s. induction seg as [|c seg IH]; intros s Hns Hg.
  { split_and!; [constructor|simpl; lia|done]. }
  apply not_elem_of_cons in Hns as [Hc Hns]. simpl in Hg.
  inversion Hg; simplify_eq; try by destruct Hc.
  all: destruct (IH _ Hns ltac:(eassumption)) as (? & ? & ?); split_and!; simpl; [constructor; auto|lia|done].
Qed.

(** * The loop invariant *)

Section Loop.
Context (p s : bytes).

(** The text consumed so far matches the pattern consumed so far; after a star,
    every prefix from [starSi] on matches the pattern up to that star. *)
Record sound_inv (si pi : nat) (st : option nat) (starSi : nat) : Prop := {
  so_si : (si ≤ length s)%nat;
  so_match : glob (take pi p) (take si s);
  so_star : ∀ q, st = Some q → (starSi ≤ si)%nat ∧
    ∀ j, (starSi ≤ j ≤ length s)%nat → glob (take (S q) p) (take j s);
}.

Lemma take_S_lookup {A} (l : list A) i x : l !! i = Some x → take (S i) l = take i l ++ [x].
Proof. intros. by apply take_S_r. Qed.

Lemma sound_step_one si pi st starSi :
  sound_inv si pi st starSi → one_matches p s si pi = true →
  (* a star of the pattern that equals a star of the text is consumed as a literal *)
  sound_inv (S si) (S pi) st starSi.
Proof.
  intros [H1 H2 H3] (a & b & Ha & Hb & Hab)%one_matches_spec.
  pose proof (lookup_lt_Some _ _ _ Hb). split; [lia| |].
  - rewrite (take_S_lookup _ _ _ Ha), (take_S_lookup _ _ _ Hb). apply glob_app; [done|].
    destruct (decide (a = star)) as [->|].
    + destruct Hab as [?|<-]; [done|]. apply glob_star_cons, glob_star_nil, glob_nil.
    + destruct Hab as [->| ->]; [apply glob_any, glob_nil|apply glob_lit; [done|apply glob_nil]].
  - intros q Hq. destruct (H3 q Hq). split; [lia|done].
Qed.

Lemma sound_step_star si pi st starSi :
  sound_inv si pi st starSi → p !! pi = Some star → sound_inv si (S pi) (Some pi) si.
Proof.
  intros [H1 H2 H3] Hp.
  assert (Hj : ∀ j, (si ≤ j ≤ length s)%nat → glob (take (S pi) p) (take j s)).
  { intros j Hj. rewrite (take_S_lookup _ _ _ Hp).
    replace (take j s) with (take si s ++ take (j - si) (drop si s)).
    - apply glob_app; [done|]. rewrite <- (app_nil_r (take _ _)). apply glob_star_app, glob_nil.
    - rewrite take_take_drop. f_equal. lia. }
  split; [done|apply Hj; lia|]. intros q [= <-]. split; [lia|done].
Qed.

Lemma sound_step_back si pi q starSi :
  sound_inv si pi (Some q) starSi → (si < length s)%nat →
  sound_inv (S starSi) (S q) (Some q) (S starSi).
Proof.
  intros [H1 H2 H3] Hlt. destruct (H3 q eq_refl) as [Hle Hj].
  split; [lia|apply Hj; lia|]. intros q' [= <-]. split; [lia|]. intros. apply Hj. lia.
Qed.

Lemma globLoop_sound fuel si pi st starSi :
  sound_inv si pi st starSi → globLoop fuel p s si pi st starSi = Some true → glob p s.
Proof.
  revert si pi st starSi. induction fuel as [|fuel IH]; intros si pi st starSi Hi; cbn [globLoop]; [done|].
  destruct (decide _) as [Hlt|Hge].
  - destruct (one_matches _ _ _ _) eqn:Hone; [apply IH; by apply sound_step_one|].
    case_bool_decide as Hst; [apply IH; by eapply sound_step_star|].
    destruct st as [q|]; [apply IH; by eapply sound_step_back|done].
  - intros [= Hs]. destruct Hi as [H1 H2 _].
    rewrite <- (take_drop pi p), <- (app_nil_r s). apply glob_app; [|by apply glob_stars].
    by rewrite (take_ge s) in H2 by lia.
Qed.

(** Completeness needs a text without stars. *)
Context (Hs : star ∉ s).

(** What is left to match: after a star, the segment read since it is star-free,
    fits at [starSi] and the rest may start at or after it. *)
Definition remaining_ok (si pi : nat) (st : option nat) (starSi : nat) : Prop :=
  match st with
  | None => glob (drop pi p) (drop si s)
  | Some q => ∃ j, (starSi ≤ j)%nat ∧ glob (drop (S q) p) (drop j s)
  end.

Record seg_inv (si pi q starSi : nat) : Prop := {
  sg_pi : (S q ≤ pi ≤ length p)%nat;
  sg_si : (si = starSi + (pi - S q))%nat;
  sg_len : (si ≤ length s)%nat;
  sg_free : star ∉ take (pi - S q) (drop (S q) p);
  sg_match : seg_matches (take (pi - S q) (drop (S q) p)) (take (pi - S q) (drop starSi s));
}.

Definition complete_inv (si pi : nat) (st : option nat) (starSi : nat) : Prop :=
  remaining_ok si pi st starSi ∧ ∀ q, st = Some q → seg_inv si pi q starSi.

Lemma mismatch si pi :
  (si < length s)%nat → one_matches p s si pi = false → p !! pi ≠ Some star →
  ¬ glob (drop pi p) (drop si s).
Proof.
  intros Hlt Hone Hst Hg. destruct (lookup_lt_is_Some_2 s si Hlt) as [b Hb].
  rewrite (drop_S s b si Hb) in Hg. destruct (p !! pi) as [a|] eqn:Ha.
  - rewrite (drop_S p a pi Ha) in Hg.
    assert (a = question ∨ a = b); [inversion Hg; simplify_eq; tauto|].
    assert (one_matches p s si pi = true); [|congruence].
    apply one_matches_spec. by exists a, b.
  - rewrite drop_ge in Hg by by apply lookup_ge_None. inversion Hg.
Qed.

Lemma seg_split pi q :
  (S q ≤ pi)%nat → drop (S q) p = take (pi - S q) (drop (S q) p) ++ drop pi p.
Proof.
  intros. replace pi with (S q + (pi - S q))%nat at 2 by lia.
  by rewrite <- drop_drop, take_drop.
Qed.

Lemma seg_length si pi q starSi :
  seg_inv si pi q starSi → length (take (pi - S q) (drop (S q) p)) = (pi - S q)%nat.
Proof. intros []. rewrite length_take, length_drop. lia. Qed.

(** Matching the segment at j leaves the rest of the pattern. *)
Lemma seg_consume si pi q starSi j :
  seg_inv si pi q starSi → glob (drop (S q) p) (drop j s) →
  (pi - S q ≤ length s - j)%nat ∧ glob (drop pi p) (drop (j + (pi - S q)) s).
Proof.
  intros Hi Hg. pose proof (seg_length _ _ _ _ Hi) as Hl. destruct Hi.
  rewrite (seg_split pi q) in Hg by lia.
  apply glob_seg in Hg as (_ & Hlen & Hg); [|done].
  rewrite Hl, length_drop in Hlen. rewrite Hl, drop_drop in Hg. done.
Qed.

Lemma seg_empty q j :
  (S q ≤ length p)%nat → (j ≤ length s)%nat → seg_inv j (S q) q j.
Proof. intros. split; rewrite ?Nat.sub_diag, ?take_0; try lia; [by intros ?%not_elem_of_nil|constructor]. Qed.

Lemma complete_step_one si pi st starSi :
  complete_inv si pi st starSi → one_matches p s si pi = true →
  complete_inv (S si) (S pi) st starSi.
Proof.
  intros [Hr Hseg] (a & b & Ha & Hb & Hab)%one_matches_spec.
  assert (Hne : a ≠ star).
  { intros ->. destruct Hab as [?|<-]; [done|]. apply Hs. by eapply list_elem_of_lookup_2. }
  pose proof (lookup_lt_Some _ _ _ Ha). pose proof (lookup_lt_Some _ _ _ Hb).
  split.
  - destruct st; [done|]. unfold remaining_ok in *.
    rewrite (drop_S _ _ _ Ha), (drop_S _ _ _ Hb) in Hr. by inversion Hr; simplify_eq.
  - intros q ->. destruct (Hseg q eq_refl) as [S1 S2 S3 S4 S5].
    assert (Hd : drop (S q) p !! (pi - S q)%nat = Some a).
    { rewrite lookup_drop. by replace (S q + (pi - S q))%nat with pi by lia. }
    assert (Hd2 : drop starSi s !! (pi - S q)%nat = Some b).
    { rewrite lookup_drop. by replace (starSi + (pi - S q))%nat with si by lia. }
    split; try lia; replace (S pi - S q)%nat with (S (pi - S q)) by lia.
    + rewrite (take_S_lookup _ _ _ Hd). rewrite elem_of_app, list_elem_of_singleton. naive_solver.
    + rewrite (take_S_lookup _ _ _ Hd), (take_S_lookup _ _ _ Hd2). apply Forall2_app; [done|].
      constructor; [done|constructor].
Qed.

Lemma complete_step_star si pi st starSi :
  (si ≤ length s)%nat → complete_inv si pi st starSi → p !! pi = Some star →
  complete_inv si (S pi) (Some pi) si.
Proof.
  intros Hle [Hr Hseg] Hp. pose proof (lookup_lt_Some _ _ _ Hp).
  split; [|intros q [= <-]; apply seg_empty; lia].
  assert (Hex : ∃ j, (si ≤ j)%nat ∧ glob (drop pi p) (drop j s)).
  { destruct st as [q|]; [|by exists si]. destruct Hr as (j & Hj & Hg).
    pose proof (Hseg q eq_refl) as Hi. destruct (seg_consume _ _ _ _ _ Hi Hg) as [_ Hg'].
    exists (j + (pi - S q))%nat. split; [destruct Hi; lia|done]. }
  destruct Hex as (j & Hj & Hg). rewrite (drop_S _ _ _ Hp) in Hg.
  apply glob_star_inv in Hg as (n & _ & Hg). rewrite drop_drop in Hg.
  exists (j + n)%nat. split; [lia|done].
Qed.

Lemma complete_step_back si pi q starSi :
  (si < length s)%nat → complete_inv si pi (Some q) starSi →
  one_matches p s si pi = false → p !! pi ≠ Some star →
  complete_inv (S starSi) (S q) (Some q) (S starSi).
Proof.
  intros Hlt [(j & Hj & Hg) Hseg] Hone Hst. pose proof (Hseg q eq_refl) as Hi.
  split; [|intros q' [= <-]; destruct Hi; apply seg_empty; lia].
  destruct (decide (j = starSi)) as [->|]; [|exists j; split; [lia|done]].
  destruct (seg_consume _ _ _ _ _ Hi Hg) as [_ Hg'].
  replace (starSi + (pi - S q))%nat with si in Hg' by (destruct Hi; lia).
  by destruct (mismatch si pi Hlt Hone Hst).
Qed.

Lemma globLoop_complete fuel si pi st starSi :
  (si ≤ length s)%nat → complete_inv si pi st starSi →
  globLoop fuel p s si pi st starSi ≠ Some false.
Proof.
  revert si pi st starSi. induction fuel as [|fuel IH]; intros si pi st starSi Hle Hi; cbn [globLoop]; [done|].
  destruct (decide _) as [Hlt|Hge].
  - destruct (one_matches _ _ _ _) eqn:Hone; [apply IH; [lia|by apply complete_step_one]|].
    case_bool_decide as Hst; [apply IH; [lia|by eapply complete_step_star]|].
    destruct st as [q|].
    + apply IH; [destruct Hi as [_ Hi]; destruct (Hi q eq_refl); lia|by eapply complete_step_back].
    + destruct Hi as [Hr _]. destruct (mismatch si pi Hlt Hone Hst Hr).
  - assert (Hg : glob (drop pi p) []).
    { destruct Hi as [Hr Hseg]. destruct st as [q|].
      - destruct Hr as (j & Hj & Hg). pose proof (Hseg q eq_refl) as Hi.
        destruct (seg_consume _ _ _ _ _ Hi Hg) as [Hlen Hg'].
        rewrite (drop_ge s) in Hg'; [done|]. destruct Hi. lia.
      - unfold remaining_ok in Hr. by rewrite (drop_ge s) in Hr by lia. }
    apply glob_nil_inv in Hg. by rewrite Hg.
Qed.

End Loop.

(** Termination: every round advances in the order (last star, its anchor, text
    position). *)
Definition globMeasure (p s : bytes) (si : nat) (st : option nat) (starSi : nat) : nat :=
  ((match st with None => S (length p) | Some q => length p - q end * S (S (length s)) +
    (length s - starSi)) * S (S (length s)) + (length s - si))%nat.

Lemma lex_lt (x x' L b b' : nat) : (x' < x)%nat → (b' < L)%nat → (x' * L + b' < x * L + b)%nat.
Proof. nia. Qed.

Lemma globLoop_total fuel p s si pi st starSi :
  (starSi ≤ si ≤ length s)%nat → (pi ≤ length p)%nat →
  match st with Some q => (q < pi)%nat | None => True end →
  (globMeasure p s si st starSi < fuel)%nat →
  is_Some (globLoop fuel p s si pi st starSi).
Proof.
  unfold globMeasure. revert si pi st starSi.
  induction fuel as [|fuel IH]; intros si pi st starSi Hsi Hpi Hq Hf; [by apply Nat.nlt_0_r in Hf|]. cbn [globLoop].
  destruct (decide _) as [Hlt|Hge]; [|by eexists].
  destruct (one_matches _ _ _ _) eqn:Hone.
  - apply one_matches_spec in Hone as (a & b & Ha & _). pose proof (lookup_lt_Some _ _ _ Ha).
    apply IH; [lia|lia|destruct st; [lia|done]|].
    eapply Nat.lt_le_trans; [|apply Nat.lt_succ_r; exact Hf]. apply Nat.add_lt_mono_l. lia.
  - case_bool_decide as Hst.
    + pose proof (lookup_lt_Some _ _ _ Hst). apply IH; [lia|lia|lia|].
      eapply Nat.lt_le_trans; [|apply Nat.lt_succ_r; exact Hf].
      apply lex_lt; [|lia]. apply lex_lt; [destruct st; lia|lia].
    + destruct st as [q|]; [|by eexists]. apply IH; [lia|lia|lia|].
      eapply Nat.lt_le_trans; [|apply Nat.lt_succ_r; exact Hf].
      apply lex_lt; [lia|lia].
Qed.

Lemma wildcard_total p s : is_Some (globLoop (globFuel p s) p s 0 0 None 0).
Proof. apply globLoop_total; [lia|lia|done|]. unfold globMeasure, globFuel. nia. Qed.

Lemma wildcard_sound p s : wildcardMatch p s = true → glob p s.
Proof.
  unfold wildcardMatch. destruct (globLoop _ _ _ _ _ _ _) as [r|] eqn:Hl; [|done]. simpl. intros ->.
  eapply globLoop_sound; [|exact Hl]. split; [lia|rewrite !take_0; constructor|done].
Qed.

Lemma wildcard_complete p s : star ∉ s → glob p s → wildcardMatch p s = true.
Proof.
  intros Hs Hg. unfold wildcardMatch. destruct (wildcard_total p s) as [r Hr].
  pose proof (globLoop_complete p s Hs (globFuel p s) 0 0 None 0 ltac:(lia)) as Hc.
  rewrite Hr in *. destruct r; [done|]. destruct Hc; [|done]. split; [exact Hg|done].
Qed.

(** * Properties *)

(** C39: (equivalence) Wildcard matching decides glob matching: the two-pointer loop
    always ends within its bound, accepts only texts the pattern denotes, and
    accepts every one of them that contains no star of its own. *)
Theorem wildcard_spec pattern s :
  is_Some (globLoop (globFuel pattern s) pattern s 0 0 None 0) ∧
  (wildcardMatch pattern s = true → glob pattern s) ∧
  (star ∉ s → glob pattern s → wildcardMatch pattern s = true).
Proof. split_and!; [apply wildcard_total|apply wildcard_sound|apply wildcard_complete]. Qed.

(** A star in the text breaks completeness: at a star of the
    pattern the loop consumes an equal character as a literal before it considers
    the wildcard, so the pattern of one star, which denotes every text, refuses
    every longer text that begins with a star. *)
Theorem wildcard_star_in_text c rest :
  glob [star] (star :: c :: rest) ∧ wildcardMatch [star] (star :: c :: rest) = false.
Proof.
  split.
  - rewrite <- (app_nil_r (star :: c :: rest)). apply glob_star_app, glob_nil.
  - unfold wildcardMatch. replace (globFuel _ _) with
      (S (S (globFuel [star] (star :: c :: rest) - 2))) by (unfold globFuel; simpl length; lia).
    cbn [globLoop]. by rewrite !decide_True by (simpl; lia).
Qed.

(** What an allowed_targets pattern denotes: same network and, when both sides
    have a port, host and port each in the pattern's language. *)
Definition denotes (lower : bytes → bytes) (pattern endpoint : bytes) : Prop :=
  let '(pNet, pRest) := parseTargetNetworkAndAddr lower pattern in
  let '(eNet, eRest) := parseTargetNetworkAndAddr lower endpoint in
  pNet = eNet ∧
  match SplitHostPort pRest, SplitHostPort eRest with
  | Some (pHost, pPort), Some (eHost, ePort) =>
      glob (ToLower lower pHost) (ToLower lower eHost) ∧ glob pPort ePort
  | _, _ => glob (ToLower lower pRest) (ToLower lower eRest)
  end.

(** The server forwards nothing its patterns do not denote: an allowed
    endpoint is in the language of some non-blank pattern of the list, network,
    host and port; in particular an empty list allows nothing. *)
Theorem target_allowed_sound lower endpoint patterns :
  targetAllowed lower endpoint patterns = true →
  ∃ p, p ∈ patterns ∧ TrimSpace p ≠ [] ∧ denotes lower (TrimSpace p) endpoint.
Proof.
  unfold targetAllowed. rewrite existsb_exists. intros (p & Hp & Hm).
  apply andb_prop in Hm as [Hne Hm]. exists p. split_and!.
  - by apply list_elem_of_In.
  - intros Hn. by rewrite Hn in Hne.
  - unfold matchTargetPattern in Hm. unfold denotes.
    destruct (parseTargetNetworkAndAddr lower (TrimSpace p)) as [pn pr],
      (parseTargetNetworkAndAddr lower endpoint) as [en er].
    case_bool_decide as Hnet; [|done]. split; [done|]. simpl in Hm.
    destruct (SplitHostPort pr) as [[ph pp]|], (SplitHostPort er) as [[eh ep]|];
      try by apply wildcard_sound.
    apply andb_prop in Hm as [H1 H2]. split; by apply wildcard_sound.
Qed.

Lemma target_allowed_sound_witness :
  ∃ p, p ∈ [str " "; str "tcp://*.internal:443"] ∧ TrimSpace p ≠ [] ∧
    denotes (λ s, s) (TrimSpace p) (str "TCP://DB.Internal:443").
Proof.
  apply (target_allowed_sound (λ s, s) (str "TCP://DB.Internal:443")
    [str " "; str "tcp://*.internal:443"]).
  vm_compute. reflexivity.
Defined.

Lemma wildcard_spec_witness : glob (str "10.*.?") (str "10.20.30.4").
Proof.
  destruct (wildcard_spec (str "10.*.?") (str "10.20.30.4")) as (_ & Hs & _).
  apply Hs. vm_compute. reflexivity.
Defined.

Example target_port_mismatch :
  targetAllowed (λ s, s) (str "db.internal:22") [str "*.internal:443"] = false.
Proof. reflexivity. Qed.
