(* ===== verification/Spread.v ===== *)
(** The spread dialer, src/tunnel/spread.go, with the address parsing of
    src/tunnel/portrange.go and the write errors of src/tunnel/writeerr_linux.go.

    A [*net.UDPConn] is its identity.  What the operating system answers - a bound
    socket or an error, the outcome of a write, a name lookup - is an argument.
    A slot's mutex makes [Reopen] two functions: the look at the
    closed flag, before the lock, and the rest, under it; [sstep] interleaves them
    with [Close]. *)
From S2P Require Import Prelude GoStrings GoNet Rtt F64 PathQuality PortRange Targets.
Local Open Scope Z_scope.

Abbreviation Conn := Z (only parsing).
(** A datagram handed to the kernel: socket, address, port. *)
Abbreviation datagram := (Conn * bytes * Z)%type.

Inductive spread_error :=
| ErrEmptyAddr
| ErrAddr
| ErrPorts (e : port_error)
| ErrResolve
| ErrNoIP
| ErrInvalidAddr
| ErrBind (i : Z)
| ErrNoRoute
| ErrIndex
| ErrWrite
| ErrRebuild.

(** * Addresses *)

Definition ParseServerAddrWithRange (raw : bytes) : result (bytes * list Z) spread_error :=
  let raw := TrimSpace raw in
  if bool_decide (raw = []) then Err ErrEmptyAddr else
  match SplitHostPort raw with
  | None => Err ErrAddr
  | Some (h, spec) =>
      match ParsePortRangeSpec spec with
      | Err e => Err (ErrPorts e)
      | Ok ports => Ok (h, ports)
      end
  end.

Definition PortRangeOf (spec : bytes) : option PortRange :=
  let spec := TrimSpace spec in
  if bool_decide (spec = []) then None else
  match (match ParsePortRangeSpec spec with
         | Ok ports => Some ports
         | Err _ => match ParseServerAddrWithRange spec with Ok (_, ports) => Some ports | Err _ => None end
         end) with
  | None => None
  | Some ports => match NewPortRange ports with Ok pr => Some pr | Err _ => None end
  end.

Definition Intervals (pr : option PortRange) : list (Z * Z) :=
  match pr with None => [] | Some pr => map (λ iv, (lo iv, hi iv)) (intervals pr) end.

(** A [netip.Addr] as its bytes, the invalid one as []. *)
Definition ipToAddr (ip : bytes) : bytes :=
  if bool_decide (To4 ip = []) then (if (len ip =? 4) || (len ip =? 16) then ip else []) else To4 ip.

(** The first IPv4 address of the answer, else the first IPv6 one. *)
Fixpoint pickIP (addrs : list bytes) (ipv6 : bytes) : bytes :=
  match addrs with
  | [] => ipv6
  | ip :: addrs =>
      if bool_decide (To4 ip = []) then
        pickIP addrs (if bool_decide (ipv6 = []) && negb (bool_decide (To16 ip = [])) then ip else ipv6)
      else To4 ip
  end.


Definition resolveServerIP (host : bytes) (lookup : option (list bytes)) : result bytes spread_error :=
  match ParseIP host with
  | Some ip => Ok ip
  | None =>
      match lookup with
      | None => Err ErrResolve
      | Some addrs => match pickIP addrs [] with [] => Err ErrNoIP | ip => Ok ip end
      end
  end.

(** * The subset of ports *)

(** The sparse partial Fisher-Yates loop; [swaps] holds the positions that differ. *)
Fixpoint pickLoop (pr : PortRange) (n : nat) (i : Z) (draws : list Z) (swaps : gmap Z Z) : list Z :=
  match n with
  | O => []
  | S n =>
      let j := i + default 0 (head draws) mod (total pr - i) in
      let vi := default i (swaps !! i) in
      let vj := default j (swaps !! j) in
      PortAt pr vj :: pickLoop pr n (i + 1) (tail draws) (<[j := vi]> (<[i := vj]> swaps))
  end.

Definition pickPortsFromRange (pr : PortRange) (n : Z) (draws : list Z) : list Z :=
  if (n <=? 0) || (Total pr =? 0) then [] else
  if Total pr <=? n then map (PortAt pr) (seqZ 0 (Total pr)) else
  pickLoop pr (Z.to_nat n) 0 draws ∅.

(** * The dialer *)

Record spreadSocket := mkSock { conn : Conn; sel : PortSelector }.

Record SpreadDialer := mkDialer {
  serverHost : bytes;
  serverIP : bytes;
  serverAddr : bytes;
  dpr : PortRange;
  socks : list spreadSocket;
  drr : Z;
  fixedPaths : Z;
  pq : option pathQuality;
  dclosed : bool;
  generation : Z;
}.

Definition set_socks (d : SpreadDialer) (ss : list spreadSocket) : SpreadDialer :=
  mkDialer (serverHost d) (serverIP d) (serverAddr d) (dpr d) ss (drr d) (fixedPaths d) (pq d) (dclosed d) (generation d).
Definition set_dest (d : SpreadDialer) (ip addr : bytes) : SpreadDialer :=
  mkDialer (serverHost d) ip addr (dpr d) (socks d) (drr d) (fixedPaths d) (pq d) (dclosed d) (generation d).
Definition set_drr (d : SpreadDialer) (n : Z) : SpreadDialer :=
  mkDialer (serverHost d) (serverIP d) (serverAddr d) (dpr d) (socks d) n (fixedPaths d) (pq d) (dclosed d) (generation d).
Definition set_dclosed (d : SpreadDialer) : SpreadDialer :=
  mkDialer (serverHost d) (serverIP d) (serverAddr d) (dpr d) (socks d) (drr d) (fixedPaths d) (pq d) true (generation d).
Definition bump_generation (d : SpreadDialer) : SpreadDialer :=
  mkDialer (serverHost d) (serverIP d) (serverAddr d) (dpr d) (socks d) (drr d) (fixedPaths d) (pq d) (dclosed d)
    (u64 (generation d + 1)).
Definition SetPathScorer (d : SpreadDialer) (q : option pathQuality) : SpreadDialer :=
  mkDialer (serverHost d) (serverIP d) (serverAddr d) (dpr d) (socks d) (drr d) (fixedPaths d) q (dclosed d) (generation d).

(** The loop that binds the sockets, [binds] being the outcomes: the sockets so far
    and, if one failed, its number. *)
Fixpoint bindLoop (n : nat) (i : Z) (selPR : PortRange) (binds : list (option Conn)) (seeds : nat → list Z)
    : list spreadSocket * option Z :=
  match n with
  | O => ([], None)
  | S n =>
      match default None (head binds) with
      | None => ([], Some i)
      | Some c =>
          let '(ss, failed) := bindLoop n (i + 1) selPR (tail binds) seeds in
          (mkSock c (NewPortSelector selPR SelectorRandom (seeds (Z.to_nat i))) :: ss, failed)
      end
  end.

(** The ports the selectors draw from, and how many were pinned. *)
Definition selectorRange (pr : PortRange) (numPaths : Z) (draws : list Z) : PortRange * Z :=
  if 0 <? numPaths then
    let chosen := pickPortsFromRange pr numPaths draws in
    if 0 <? len chosen then
      match NewPortRange chosen with Ok fpr => (fpr, len chosen) | Err _ => (pr, 0) end
    else (pr, 0)
  else (pr, 0).

(** [newSpreadDialer]: the dialer, and the sockets closed again when a bind failed. *)
Definition newSpreadDialer (addr : bytes) (numSockets numPaths : Z) (lookup : option (list bytes))
    (draws : list Z) (binds : list (option Conn)) (seeds : nat → list Z) :
    result SpreadDialer spread_error * list Conn :=
  match ParseServerAddrWithRange addr with
  | Err e => (Err e, [])
  | Ok (host, ports) =>
      match NewPortRange ports with
      | Err e => (Err (ErrPorts e), [])
      | Ok pr =>
          let numSockets := if numSockets <=? 0 then 1 else numSockets in
          match resolveServerIP host lookup with
          | Err e => (Err e, [])
          | Ok ip =>
              let '(selPR, fixed) := selectorRange pr numPaths draws in
              let '(ss, failed) := bindLoop (Z.to_nat numSockets) 0 selPR binds seeds in
              match failed with
              | Some i => (Err (ErrBind i), map conn ss)
              | None => (Ok (mkDialer host ip (ipToAddr ip) pr ss 0 fixed (Some newPathQuality) false 0), [])
              end
          end
      end
  end.

Definition Len (d : SpreadDialer) : Z := len (map conn (socks d)).

Definition acceptsRemote (d : SpreadDialer) (from : bytes * Z) : bool :=
  bool_decide (from.1 = serverAddr d) && Contains (dpr d) from.2.

(** [pickPort] for the socket at [idx]; [now] is the clock the scorer reads. *)
Definition pickPort (d : SpreadDialer) (idx : nat) (floats : nat → f64) (draws : nat → list Z) (now : Z) :
    Z * SpreadDialer :=
  match socks d !! idx with
  | None => (0, d)
  | Some s =>
      let weight := (λ q (_ : nat) port, Weight q port now) <$> pq d in
      let '(port, sel') := match weight with
                           | Some w => NextWeighted (sel s) (Some w) floats draws
                           | None => PortRange.Next (sel s) (draws 0%nat)
                           end in
      (port, set_socks d (<[idx := mkSock (conn s) sel']> (socks d)))
  end.

Definition Next (d : SpreadDialer) (floats : nat → f64) (draws : nat → list Z) (now : Z) :
    (Z * Z) * SpreadDialer :=
  if (Len d =? 0) || dclosed d then ((-1, 0), d) else
  let idx := drr d mod Len d in
  let '(port, d) := pickPort (set_drr d (u64 (drr d + 1))) (Z.to_nat idx) floats draws now in
  ((idx, port), d).

(** * Replacing sockets *)

(** What the rest of [Reopen] meets: the name lookup and the bind. *)
Record reopen_env := mkReopen { rLookup : option (list bytes); rBind : option Conn }.

Definition refreshDestination (d : SpreadDialer) (lookup : option (list bytes)) : result SpreadDialer spread_error :=
  match ParseIP (serverHost d) with
  | Some _ => Ok d
  | None =>
      match resolveServerIP (serverHost d) lookup with
      | Err e => Err e
      | Ok ip => if bool_decide (ipToAddr ip = []) then Err ErrInvalidAddr else Ok (set_dest d ip (ipToAddr ip))
      end
  end.

(** [Reopen] under the slot's lock: the socket to use, the dialer, and the socket it
    closed, if any. *)
Definition reopenBody (d : SpreadDialer) (idx : nat) (failed : Conn) (e : reopen_env) :
    result Conn spread_error * SpreadDialer * option Conn :=
  match socks d !! idx with
  | None => (Err ErrIndex, d, None)
  | Some s =>
      if negb (conn s =? failed) then (Ok (conn s), d, None) else
      match refreshDestination d (rLookup e) with
      | Err err => (Err err, d, None)
      | Ok d =>
          match rBind e with
          | None => (Err (ErrBind (Z.of_nat idx)), d, None)
          | Some c =>
              (Ok c, bump_generation (set_socks d (<[idx := mkSock c (sel s)]> (socks d))), Some (conn s))
          end
      end
  end.

Definition Reopen (d : SpreadDialer) (idx : Z) (failed : Conn) (e : reopen_env) :
    result Conn spread_error * SpreadDialer * option Conn :=
  if dclosed d then (Err ErrNoRoute, d, None) else
  if (idx <? 0) || (Len d <=? idx) then (Err ErrIndex, d, None) else reopenBody d (Z.to_nat idx) failed e.

(** * Sending *)

Inductive write_error := ENOBUFS | EAGAIN | EINTR | WTimeout | WOther.

Definition shouldReopenUDPWriteError (e : option write_error) : bool :=
  match e with Some WOther => true | _ => false end.

(** [sendAtPort]: [w1] and [w2] are the outcomes of the two writes, [closedSince]
    what the closed flag says after the first. *)
Definition sendAtPort (d : SpreadDialer) (idx port : Z) (w1 w2 : option write_error) (closedSince : bool)
    (e : reopen_env) : list datagram * result unit spread_error * SpreadDialer :=
  if dclosed d then ([], Err ErrNoRoute, d) else
  if (idx <? 0) || (Len d <=? idx) then ([], Err ErrIndex, d) else
  match socks d !! Z.to_nat idx with
  | None => ([], Err ErrIndex, d)
  | Some s =>
      let first := (conn s, serverAddr d, u16 port) in
      match w1 with
      | None => ([first], Ok tt, d)
      | Some _ =>
          if negb (shouldReopenUDPWriteError w1) then ([first], Err ErrWrite, d) else
          if closedSince then ([first], Err ErrNoRoute, set_dclosed d) else
          match Reopen d idx (conn s) e with
          | (Err _, d, _) => ([first], Err ErrRebuild, d)
          | (Ok _, d, _) =>
              match socks d !! Z.to_nat idx with
              | None => ([first], Err ErrNoRoute, d)
              | Some s =>
                  ([first; (conn s, serverAddr d, u16 port)],
                   match w2 with None => Ok tt | Some _ => Err ErrWrite end, d)
              end
          end
      end
  end.

Definition SendAt (d : SpreadDialer) (idx : Z) (floats : nat → f64) (draws : nat → list Z) (now : Z)
    (w1 w2 : option write_error) (closedSince : bool) (e : reopen_env) :
    list datagram * result unit spread_error * SpreadDialer :=
  if dclosed d then ([], Err ErrNoRoute, d) else
  if (idx <? 0) || (Len d <=? idx) then ([], Err ErrIndex, d) else
  let '(port, d) := pickPort d (Z.to_nat idx) floats draws now in sendAtPort d idx port w1 w2 closedSince e.

Definition Send (d : SpreadDialer) (floats : nat → f64) (draws : nat → list Z) (now : Z)
    (w1 w2 : option write_error) (closedSince : bool) (e : reopen_env) :
    list datagram * result unit spread_error * SpreadDialer :=
  let '((idx, port), d) := Next d floats draws now in
  if idx <? 0 then ([], Err ErrNoRoute, d) else sendAtPort d idx port w1 w2 closedSince e.


(** * Choosing ports *)

(** The same shuffle on the whole list: the reference for [pickLoop]. *)
Fixpoint partialShuffle (n i : nat) (draws : list Z) (l : list Z) : list Z :=
  match n with
  | O => l
  | S n =>
      let j := (i + Z.to_nat ((default 0 (head draws) mod (len l - Z.of_nat i))%Z))%nat in
      partialShuffle n (S i) (tail draws) (swap l i j)
  end.

Lemma length_swap l i j : length (swap l i j) = length l.
Proof. by rewrite swap_perm. Qed.

Lemma swap_lookup l i j k : (i < length l)%nat → (j < length l)%nat →
  swap l i j !! k = if decide (k = i) then l !! j else if decide (k = j) then l !! i else l !! k.
Proof.
  intros Hi Hj. unfold swap.
  destruct (l !! i) as [x|] eqn:Hx; [|apply lookup_ge_None in Hx; lia].
  destruct (l !! j) as [y|] eqn:Hy; [|apply lookup_ge_None in Hy; lia].
  case_decide as E; [subst k; by rewrite list_lookup_insert_eq by (rewrite length_insert; lia)|].
  rewrite list_lookup_insert_ne by done. case_decide as E'; [subst k; by rewrite list_lookup_insert_eq|].
  by rewrite list_lookup_insert_ne.
Qed.

Lemma partialShuffle_perm n i draws l : partialShuffle n i draws l ≡ₚ l.
Proof.
  revert i draws l. induction n as [|n IH]; intros i draws l; cbn [partialShuffle]; [done|]. rewrite IH. apply swap_perm.
Qed.

(** Where the loop swaps, for any draw. *)
Lemma draw_range (draws : list Z) (t i : Z) : i < t → 0 ≤ default 0 (head draws) mod (t - i) < t - i.
Proof. intros H. apply Z.mod_pos_bound. lia. Qed.

(** Positions already passed stay put. *)
Lemma partialShuffle_prefix n i draws l k : (i + n ≤ length l)%nat → (k < i)%nat →
  partialShuffle n i draws l !! k = l !! k.
Proof.
  revert i draws l. induction n as [|n IH]; intros i draws l Hn Hk; cbn [partialShuffle]; [done|].
  pose proof (draw_range draws (len l) (Z.of_nat i) ltac:(unfold len; lia)) as Hd.
  rewrite IH by (rewrite ?length_swap; lia). unfold len in *.
  rewrite swap_lookup by lia. by rewrite !decide_False by lia.
Qed.

(** The sparse loop follows the dense one. *)
Lemma pickLoop_dense ports pr n : pr_of ports pr → ∀ i draws swaps l,
  (i + n ≤ length l)%nat → len l = total pr →
  (∀ k, 0 ≤ k < total pr → l !! Z.to_nat k = Some (PortAt pr (default k (swaps !! k)))) →
  pickLoop pr n (Z.of_nat i) draws swaps = take n (drop i (partialShuffle n i draws l)).
Proof.
  intros Hpr. induction n as [|n IH]; intros i draws swaps l Hn Hl Hrep; [done|]. cbn [pickLoop partialShuffle].
  pose proof (draw_range draws (total pr) (Z.of_nat i) ltac:(unfold len in *; lia)) as Hd. rewrite Hl.
  set (dj := default 0 (head draws) mod (total pr - Z.of_nat i)) in *.
  set (j := Z.of_nat i + dj). assert (Ej : (i + Z.to_nat dj)%nat = Z.to_nat j) by lia. rewrite Ej.
  set (l' := swap l i (Z.to_nat j)). assert (Hj : (Z.to_nat j < length l)%nat) by (unfold len in *; lia).
  assert (Hhead : partialShuffle n (S i) (tail draws) l' !! i = Some (PortAt pr (default j (swaps !! j)))).
  { rewrite partialShuffle_prefix by (unfold l'; rewrite ?length_swap; lia).
    unfold l'. rewrite swap_lookup, decide_True by (done || lia). apply Hrep. lia. }
  rewrite (drop_S _ _ _ Hhead). cbn [firstn]. f_equal.
  replace (Z.of_nat i + 1) with (Z.of_nat (S i)) by lia.
  apply IH; [unfold l'; rewrite length_swap; lia|unfold l', len in *; by rewrite length_swap|].
  intros k Hk. unfold l'. rewrite swap_lookup by lia.
  destruct (decide (k = j)) as [->|Hkj].
  - rewrite lookup_insert_eq. destruct (decide (Z.to_nat j = i)) as [E|E].
    + rewrite Hrep by lia. cbn. by replace j with (Z.of_nat i) by lia.
    + rewrite decide_True by done. rewrite <- (Nat2Z.id i) at 1. rewrite Hrep by (unfold len in *; lia). done.
  - rewrite lookup_insert_ne by done. destruct (decide (k = Z.of_nat i)) as [->|Hki].
    + rewrite lookup_insert_eq, Nat2Z.id, decide_True by done. rewrite Hrep by lia. done.
    + rewrite lookup_insert_ne by done. rewrite !decide_False by lia. by apply Hrep.
Qed.

Lemma picked_ports ports pr n draws :
  NewPortRange ports = Ok pr → 0 < n →
  let all := expand (intervals pr) in
  pickPortsFromRange pr n draws =
    (if Total pr <=? n then all else upto n (partialShuffle (Z.to_nat n) 0 draws all)) ∧
  NoDup (pickPortsFromRange pr n draws) ∧ len (pickPortsFromRange pr n draws) = Z.min n (Total pr) ∧
  ∀ p, p ∈ pickPortsFromRange pr n draws → p ∈ ports.
Proof.
  intros Hpr%NewPortRange_spec Hn all. pose proof (pro_total _ _ Hpr) as Ht. fold all in Ht.
  assert (Hne : 0 < total pr).
  { pose proof (expand_ne _ (pro_ne _ _ Hpr) (ivs_each _ (pro_ivs _ _ Hpr))) as Hne. fold all in Hne.
    rewrite Ht. destruct all as [|p l]; [done|]. rewrite len_cons. pose proof (len_nonneg l). lia. }
  assert (Hnd : NoDup all) by by apply increasing_NoDup, expand_increasing, Hpr.
  assert (Hin : ∀ p, p ∈ all → p ∈ ports) by (intros p; apply (pro_mem _ _ Hpr)).
  assert (E : pickPortsFromRange pr n draws =
    if Total pr <=? n then all else upto n (partialShuffle (Z.to_nat n) 0 draws all)).
  { unfold pickPortsFromRange, Total. destruct (Z.leb_spec n 0); [lia|]. destruct (Z.eqb_spec (total pr) 0); [lia|].
    cbn [orb]. destruct (Z.leb_spec (total pr) n); [by apply (expand_PortAt ports)|].
    change 0 with (Z.of_nat 0) at 1. rewrite (pickLoop_dense ports pr _ Hpr _ _ _ all); [done|unfold len in *; lia|done|].
    intros k Hk. rewrite lookup_empty. cbn. rewrite (PortAt_expand _ _ _ Hpr Hk). unfold at_z. rewrite nth_lookup.
    fold all. destruct (all !! Z.to_nat k) eqn:E; [done|]. apply lookup_ge_None in E. unfold len in *. lia. }
  rewrite E. unfold Total. destruct (Z.leb_spec (total pr) n); [split_and!; [done|done|lia|done]|].
  set (sh := partialShuffle (Z.to_nat n) 0 draws all). assert (Hsh : sh ≡ₚ all) by apply partialShuffle_perm.
  assert (Hsplit : sh = upto n sh ++ from n sh) by (symmetry; apply upto_from).
  split_and!; [done| | |].
  - rewrite <- Hsh, Hsplit in Hnd. by apply NoDup_app in Hnd as [? _].
  - assert (len sh = total pr) by (rewrite Ht; unfold len; by rewrite Hsh). rewrite len_upto by lia. lia.
  - intros p Hp. apply Hin. rewrite <- Hsh, Hsplit. set_solver.
Qed.

(** The ports a client pins.  The sparse shuffle, which keeps only the
    positions it has swapped, picks exactly the first n entries of a Fisher-Yates
    shuffle of the whole range with the same draws: n distinct ports of the range,
    or all of them when the range has no more. *)
Theorem pick_ports_fisher_yates ports pr n draws :
  NewPortRange ports = Ok pr → 0 < n →
  let all := expand (intervals pr) in
  pickPortsFromRange pr n draws =
    (if Total pr <=? n then all else upto n (partialShuffle (Z.to_nat n) 0 draws all)) ∧
  NoDup (pickPortsFromRange pr n draws) ∧ len (pickPortsFromRange pr n draws) = Z.min n (Total pr) ∧
  ∀ p, p ∈ pickPortsFromRange pr n draws → p ∈ ports.
Proof. apply picked_ports. Qed.

Lemma pick_ports_fisher_yates_witness :
  match NewPortRange [10; 11; 12; 13; 20] with
  | Ok pr => pickPortsFromRange pr 3 [4; 2; 0] = [20; 13; 12] ∧ NoDup (pickPortsFromRange pr 3 [4; 2; 0])
  | Err _ => False
  end.
Proof.
  destruct (NewPortRange [10; 11; 12; 13; 20]) as [pr|] eqn:E; [|vm_compute in E; discriminate].
  destruct (pick_ports_fisher_yates _ pr 3 [4; 2; 0] E ltac:(lia)) as (_ & H & _). split; [|exact H].
  vm_compute in E. injection E as <-. vm_compute. reflexivity.
Defined.

(** * Sending within the range *)

(** A selector whose bag, if it has one, is the range in some order. *)
Record sel_wf (s : PortSelector) : Prop := {
  sw_pr : ∃ ports, pr_of ports (sel_pr s);
  sw_bag : ∀ b, bag s = Some b → b ≡ₚ expand (intervals (sel_pr s)) ∧ 0 ≤ bagPos s;
}.

Lemma pr_of_pos ports pr : pr_of ports pr → 0 < total pr.
Proof.
  intros Hpr. pose proof (expand_ne _ (pro_ne _ _ Hpr) (ivs_each _ (pro_ivs _ _ Hpr))) as Hne.
  rewrite (pro_total _ _ Hpr). destruct (expand (intervals pr)) as [|p l]; [done|]. rewrite len_cons.
  pose proof (len_nonneg l). lia.
Qed.

Lemma at_z_in (i : Z) (l : list Z) : 0 ≤ i < len l → at_z i l ∈ l.
Proof. intros Hi. unfold at_z, len in *. apply list_elem_of_In, nth_In. lia. Qed.

Lemma nextUniform_wf s draws : sel_wf s →
  (nextUniform s draws).1 ∈ expand (intervals (sel_pr s)) ∧ sel_wf (nextUniform s draws).2 ∧
  sel_pr (nextUniform s draws).2 = sel_pr s.
Proof.
  intros Hwf. destruct (sw_pr _ Hwf) as [ports Hpr]. pose proof (pr_of_pos _ _ Hpr) as Hpos. unfold nextUniform.
  destruct (bag s) as [b|] eqn:Hb.
  - destruct (sw_bag _ Hwf b Hb) as [Hp H0]. destruct (Z.leb_spec (len b) (bagPos s)) as [Hle|Hlt]; cbn [fst snd sel_pr].
    + split_and!; [|split; [by exists ports|]|done].
      * assert (Hs : Shuffle draws b ≡ₚ expand (intervals (sel_pr s))) by by rewrite Shuffle_perm.
        rewrite <- Hs. apply at_z_in. rewrite (pro_total _ _ Hpr) in Hpos. unfold len in *. by rewrite Hs.
      * intros b' [= <-]. cbn. by rewrite Shuffle_perm.
    + split_and!; [rewrite <- Hp; by apply at_z_in|split; [by exists ports|]|done]. intros b' [= <-]. cbn. split; [done|lia].
  - cbn [fst snd]. split_and!; [|done|done]. apply (PortAt_in ports); [done|]. by apply Z.mod_pos_bound.
Qed.

Lemma weightedLoop_wf n weight floats draws i port w s : sel_wf s → port ∈ expand (intervals (sel_pr s)) →
  let r := weightedLoop n weight floats draws i port w s in
  r.1 ∈ expand (intervals (sel_pr s)) ∧ sel_wf r.2 ∧ sel_pr r.2 = sel_pr s.
Proof.
  revert i port w s. induction n as [|n IH]; intros i port w s Hwf Hin; [done|]. cbn [weightedLoop].
  destruct (f64_ltb _ _); [done|]. destruct (nextUniform_wf s (draws i) Hwf) as (H1 & H2 & H3).
  destruct (nextUniform s (draws i)) as [port' s']. cbn [fst snd] in *. rewrite <- H3 in *. by apply IH.
Qed.

Lemma PortRange_Next_wf s draws : sel_wf s →
  (PortRange.Next s draws).1 ∈ expand (intervals (sel_pr s)) ∧ sel_wf (PortRange.Next s draws).2 ∧
  sel_pr (PortRange.Next s draws).2 = sel_pr s.
Proof.
  intros Hwf. destruct (sw_pr _ Hwf) as [ports Hpr]. pose proof (pr_of_pos _ _ Hpr) as Hpos. unfold PortRange.Next.
  destruct (Z.eqb_spec (total (sel_pr s)) 0); [lia|]. destruct (mode s); [by apply nextUniform_wf|].
  cbn [fst snd sel_pr]. split_and!; [|split; [by exists ports|apply (sw_bag _ Hwf)]|done].
  apply (PortAt_in ports); [done|]. by apply Z.mod_pos_bound.
Qed.

Lemma NextWeighted_wf s scorer floats draws : sel_wf s →
  let r := NextWeighted s scorer floats draws in
  r.1 ∈ expand (intervals (sel_pr s)) ∧ sel_wf r.2 ∧ sel_pr r.2 = sel_pr s.
Proof.
  intros Hwf. destruct (sw_pr _ Hwf) as [ports Hpr]. pose proof (pr_of_pos _ _ Hpr) as Hpos. unfold NextWeighted.
  destruct (Z.eqb_spec (total (sel_pr s)) 0); [lia|]. destruct scorer as [weight|]; [|by apply PortRange_Next_wf].
  destruct (nextUniform_wf s (draws 0%nat) Hwf) as (H1 & H2 & H3).
  destruct (nextUniform s (draws 0%nat)) as [port s']. cbn [fst snd] in *.
  destruct (f64_leb _ _); [done|]. rewrite <- H3 in *. by apply weightedLoop_wf.
Qed.

Lemma NewPortSelector_wf ports pr m seed : pr_of ports pr → sel_wf (NewPortSelector pr m seed).
Proof.
  intros Hpr. split; [by exists ports|]. unfold NewPortSelector. cbn [bag bagPos sel_pr].
  destruct m; [|done]. destruct (_ && _); [|done]. intros b [= <-]. split; [|done]. unfold fillBag.
  assert (E : map u16 (expand (intervals pr)) = expand (intervals pr)).
  { rewrite <- (map_id (expand (intervals pr))) at 2. apply map_ext_in. intros x Hx.
    apply list_elem_of_In, (pro_mem _ _ Hpr), (pro_range _ _ Hpr) in Hx. apply u16_small. lia. }
  by rewrite E, Shuffle_perm.
Qed.


(** The calls made on a dialer between its construction and [Close]. *)
Inductive dcall :=
| DSend (floats : nat → f64) (draws : nat → list Z) (now : Z) (w1 w2 : option write_error) (e : reopen_env)
| DSendAt (idx : Z) (floats : nat → f64) (draws : nat → list Z) (now : Z) (w1 w2 : option write_error) (e : reopen_env)
| DReopen (idx : Z) (failed : Conn) (e : reopen_env)
| DObserve (port : Z) (lost : bool) (now : Z).

Definition dexec (d : SpreadDialer) (c : dcall) : list datagram * SpreadDialer :=
  match c with
  | DSend floats draws now w1 w2 e =>
      let '(out, _, d) := Send d floats draws now w1 w2 false e in (out, d)
  | DSendAt idx floats draws now w1 w2 e =>
      let '(out, _, d) := SendAt d idx floats draws now w1 w2 false e in (out, d)
  | DReopen idx failed e => ([], (Reopen d idx failed e).1.2)
  | DObserve port lost now => ([], SetPathScorer d ((λ q, Observe q port lost now) <$> pq d))
  end.

Definition dexecAll (d : SpreadDialer) (cs : list dcall) : SpreadDialer := foldl (λ d c, (dexec d c).2) d cs.

(** Every selector of the dialer deals from [sub], a part of its range. *)
Record dialer_wf (d : SpreadDialer) (sub : PortRange) : Prop := {
  dw_pr : ∃ ports, pr_of ports (dpr d);
  dw_sub : ∀ p, p ∈ expand (intervals sub) → p ∈ expand (intervals (dpr d));
  dw_sel : Forall (λ s, sel_wf (sel s) ∧ sel_pr (sel s) = sub) (socks d);
}.

Lemma pickPort_wf d sub idx floats draws now : dialer_wf d sub → (idx < length (socks d))%nat →
  let r := pickPort d idx floats draws now in
  r.1 ∈ expand (intervals sub) ∧ dialer_wf r.2 sub ∧ dpr r.2 = dpr d ∧ Len r.2 = Len d ∧
  map conn (socks r.2) = map conn (socks d) ∧ serverAddr r.2 = serverAddr d ∧ dclosed r.2 = dclosed d.
Proof.
  intros [Hpr Hsub Hsel] Hidx. unfold pickPort. destruct (socks d !! idx) as [s|] eqn:Hs; [|by apply lookup_ge_None in Hs; lia].
  destruct (Forall_lookup_1 _ _ _ _ Hsel Hs) as [Hwf Hp].
  set (r := match _ with Some w => NextWeighted (sel s) (Some w) floats draws | None => _ end).
  assert (Hr : r.1 ∈ expand (intervals (sel_pr (sel s))) ∧ sel_wf r.2 ∧ sel_pr r.2 = sel_pr (sel s)).
  { unfold r. destruct (_ <$> pq d); [by apply NextWeighted_wf|by apply PortRange_Next_wf]. }
  clearbody r. destruct r as [port sel']. destruct Hr as (H1 & H2 & H3). cbn [fst snd] in *. rewrite Hp in *.
  assert (Hconn : map conn (<[idx:=mkSock (conn s) sel']> (socks d)) = map conn (socks d)).
  { apply list_eq. intros k. rewrite !list_lookup_fmap. destruct (decide (k = idx)) as [->|].
    - by rewrite list_lookup_insert_eq, Hs.
    - by rewrite list_lookup_insert_ne. }
  split_and!; try done; [|unfold Len; cbn; by rewrite Hconn].
  split; try done. by apply Forall_insert.
Qed.

Lemma Reopen_wf d sub idx failed e : dialer_wf d sub →
  let d' := (Reopen d idx failed e).1.2 in dialer_wf d' sub ∧ dpr d' = dpr d ∧ Len d' = Len d ∧ dclosed d' = dclosed d.
Proof.
  intros Hwf. unfold Reopen, reopenBody, refreshDestination. destruct (dclosed d) eqn:Hcl; [done|]. destruct (_ || _); [done|].
  destruct (socks d !! Z.to_nat idx) as [s|] eqn:Hs; [|done]. destruct (negb _); [done|].
  destruct (Forall_lookup_1 _ _ _ _ (dw_sel _ _ Hwf) Hs) as [Hsel Hp].
  assert (Hrep : ∀ c, Forall (λ s, sel_wf (sel s) ∧ sel_pr (sel s) = sub) (<[Z.to_nat idx := mkSock c (sel s)]> (socks d)))
    by (intros; apply Forall_insert; [apply Hwf|done]).
  assert (Hlen : ∀ c, len (map conn (<[Z.to_nat idx := mkSock c (sel s)]> (socks d))) = Len d)
    by (intros; unfold Len, len; by rewrite !length_map, length_insert).
  destruct Hwf as [Hpr Hsub Hsels].
  destruct (ParseIP (serverHost d)).
  { destruct (rBind e) as [c|]; split_and!; try done; [|cbn; by apply Hlen]. split; [done|done|apply Hrep]. }
  destruct (resolveServerIP _ _) as [ip|]; [|done]. case_bool_decide; [done|].
  destruct (rBind e) as [c|]; split_and!; try done; [|cbn; by apply Hlen]. split; [done|done|apply Hrep].
Qed.

(** What one send puts on the wire and, if it succeeds, where the reply is accepted
    from. *)
Definition sent_well (d : SpreadDialer) (sub : PortRange) (r : list datagram * result unit spread_error * SpreadDialer) : Prop :=
  let '(out, res, d') := r in
  dialer_wf d' sub ∧ dpr d' = dpr d ∧ Len d' = Len d ∧ dclosed d' = dclosed d ∧
  Forall (λ g, g.2 ∈ expand (intervals sub)) out ∧
  (res = Ok tt → ∃ g, last out = Some g ∧ acceptsRemote d' (g.1.2, g.2) = true).

Lemma sendAtPort_range d sub idx port w1 w2 e : dialer_wf d sub → port ∈ expand (intervals sub) →
  sent_well d sub (sendAtPort d idx port w1 w2 false e).
Proof.
  intros Hwf Hin. destruct (dw_pr _ _ Hwf) as [ports Hpr].
  assert (Hport : u16 port = port).
  { apply u16_small. pose proof (pro_range _ _ Hpr port (proj1 (pro_mem _ _ Hpr port) (dw_sub _ _ Hwf _ Hin))). lia. }
  assert (Hacc : ∀ d', dpr d' = dpr d → acceptsRemote d' (serverAddr d', port) = true).
  { intros d' Hd'. unfold acceptsRemote. cbn. rewrite bool_decide_true, Hd' by done. cbn.
    apply (Contains_expand ports); [done|]. by apply (dw_sub _ _ Hwf). }
  unfold sendAtPort, sent_well. rewrite Hport. destruct (dclosed d) eqn:Hcl; [done|]. destruct (_ || _); [done|].
  destruct (socks d !! Z.to_nat idx) as [s|]; [|done].
  destruct w1 as [e1|].
  2:{ split_and!; try done; [by repeat constructor|]. intros _. eexists. split; [done|]. by apply Hacc. }
  destruct (negb _); [split_and!; try done; by repeat constructor|].
  pose proof (Reopen_wf d sub idx (conn s) e Hwf) as (R1 & R2 & R3 & R4). rewrite Hcl in R4.
  destruct (Reopen d idx (conn s) e) as [[[c|err] d'] cl]; cbn [fst snd] in *;
    [|split_and!; try done; by repeat constructor].
  destruct (socks d' !! Z.to_nat idx) as [s'|]; [|split_and!; try done; by repeat constructor].
  split_and!; try done; [by repeat constructor|]. intros _. eexists. split; [done|]. by apply Hacc.
Qed.

Lemma dexec_sent d sub floats draws now w1 w2 e : dialer_wf d sub →
  sent_well d sub (Send d floats draws now w1 w2 false e).
Proof.
  intros Hwf. unfold Send, Next. destruct (Z.eqb_spec (Len d) 0); [done|]. destruct (dclosed d) eqn:Hcl; [done|]. cbn [orb].
  pose proof (len_nonneg (map conn (socks d))) as Hnn. fold (Len d) in Hnn.
  pose proof (Z.mod_pos_bound (drr d) (Len d) ltac:(lia)) as Hm.
  assert (Hwf' : dialer_wf (set_drr d (u64 (drr d + 1))) sub) by (destruct Hwf; by split).
  assert (Hidx : (Z.to_nat (drr d mod Len d) < length (socks (set_drr d (u64 (drr d + 1)))))%nat)
    by (cbn; unfold Len, len in *; rewrite length_map in *; lia).
  destruct (pickPort_wf _ sub _ floats draws now Hwf' Hidx) as (P1 & P2 & P3 & P4 & _ & _ & P7).
  destruct (pickPort _ _ floats draws now) as [port d1]. cbn [fst snd] in *.
  destruct (Z.ltb_spec (drr d mod Len d) 0); [lia|].
  pose proof (sendAtPort_range d1 sub (drr d mod Len d) port w1 w2 e P2 P1) as S. unfold sent_well in *.
  destruct (sendAtPort _ _ _ _ _ _ _) as [[out res] d2]. cbn [fst snd]. destruct S as (S1 & S2 & S3 & S4 & S5 & S6).
  rewrite S2, S3, S4, P3, P4, P7. by split_and!.
Qed.

Lemma dexec_wf d sub c : dialer_wf d sub →
  dialer_wf (dexec d c).2 sub ∧ dpr (dexec d c).2 = dpr d ∧ Len (dexec d c).2 = Len d ∧ dclosed (dexec d c).2 = dclosed d ∧
  Forall (λ g, g.2 ∈ expand (intervals sub)) (dexec d c).1.
Proof.
  intros Hwf. assert (Hidx : ∀ i, 0 ≤ i < Len d → (Z.to_nat i < length (socks d))%nat)
    by (intros i; unfold Len, len; rewrite length_map; lia).
  destruct c as [floats draws now w1 w2 e|idx floats draws now w1 w2 e|idx failed e|port lost now]; cbn [dexec].
  - pose proof (dexec_sent d sub floats draws now w1 w2 e Hwf) as S. unfold sent_well in S.
    destruct (Send _ _ _ _ _ _ _ _) as [[out res] d2]. by destruct S as (S1 & S2 & S3 & S4 & S5 & _).
  - unfold SendAt. destruct (dclosed d) eqn:Hcl; [done|]. destruct (Z.ltb_spec idx 0); [done|].
    destruct (Z.leb_spec (Len d) idx); [done|]. cbn [orb].
    destruct (pickPort_wf d sub (Z.to_nat idx) floats draws now Hwf (Hidx idx ltac:(lia))) as (P1 & P2 & P3 & P4 & _ & _ & P7).
    destruct (pickPort _ _ floats draws now) as [port d1]. cbn [fst snd] in *.
    pose proof (sendAtPort_range d1 sub idx port w1 w2 e P2 P1) as S. unfold sent_well in S.
    destruct (sendAtPort _ _ _ _ _ _ _) as [[out res] d2]. cbn [fst snd]. destruct S as (S1 & S2 & S3 & S4 & S5 & _).
    rewrite S2, S3, S4, P3, P4, P7. by split_and!.
  - pose proof (Reopen_wf d sub idx failed e Hwf) as (R1 & R2 & R3 & R4). by split_and!.
  - destruct Hwf. by split_and!.
Qed.
Lemma selectorRange_spec ports pr np draws : NewPortRange ports = Ok pr →
  let '(sub, fixed) := selectorRange pr np draws in
  (∃ ps, pr_of ps sub) ∧ (∀ p, p ∈ expand (intervals sub) → p ∈ expand (intervals pr)) ∧
  (if 0 <? np then total sub = Z.min np (total pr) ∧ fixed = total sub else sub = pr ∧ fixed = 0).
Proof.
  intros Hpr. pose proof (NewPortRange_spec _ _ Hpr) as Hof. pose proof (pr_of_pos _ _ Hof) as Hpos.
  unfold selectorRange. destruct (Z.ltb_spec 0 np) as [Hnp|]; [|by split_and!; [exists ports| | |]].
  destruct (picked_ports ports pr np draws Hpr Hnp) as (_ & Hnd & Hlen & Hin).
  set (chosen := pickPortsFromRange pr np draws) in *. unfold Total in Hlen.
  destruct (Z.ltb_spec 0 (len chosen)); [|lia].
  assert (Hok : ∃ fpr, NewPortRange chosen = Ok fpr).
  { destruct (NewPortRange_ok chosen) as [fpr E]; [intros Hnil; rewrite Hnil in *; change (len []) with 0 in *; lia| |by exists fpr].
    intros p Hp. apply (pro_range _ _ Hof). by apply Hin. }
  destruct Hok as [fpr Hf]. rewrite Hf. pose proof (NewPortRange_spec _ _ Hf) as Hfof.
  assert (Ht : total fpr = len chosen).
  { rewrite (pro_total _ _ Hfof). unfold len. f_equal. apply Permutation_length, NoDup_Permutation;
      [by apply increasing_NoDup, expand_increasing, Hfof|done|]. apply (pro_mem _ _ Hfof). }
  split_and!; [by exists chosen| |lia|done].
  intros p Hp%(pro_mem _ _ Hfof). by apply (pro_mem _ _ Hof), Hin.
Qed.

Lemma bindLoop_sel n i sub binds seeds ss : bindLoop n i sub binds seeds = (ss, None) →
  length ss = n ∧ Forall (λ s, ∃ seed, sel s = NewPortSelector sub SelectorRandom seed) ss.
Proof.
  revert i binds ss. induction n as [|n IH]; intros i binds ss; cbn [bindLoop]; [by intros [= <-]|].
  destruct (default None (head binds)) as [c|]; [|done]. specialize (IH (i + 1) (tail binds)).
  destruct (bindLoop n (i + 1) sub (tail binds) seeds) as [ss' failed]. intros [= <- ->].
  destruct (IH ss' eq_refl) as [<- H]. split; [done|]. constructor; [by eexists|done].
Qed.

(** A dialer that was built for an address, after any calls. *)
Lemma dialer_reached addr ns np lookup draws binds seeds d closed calls :
  newSpreadDialer addr ns np lookup draws binds seeds = (Ok d, closed) →
  ∃ host ports sub, ParseServerAddrWithRange addr = Ok (host, ports) ∧ dialer_wf (dexecAll d calls) sub ∧
  dpr (dexecAll d calls) = dpr d ∧ Len (dexecAll d calls) = Z.max 1 ns ∧ (∃ ps, pr_of ps sub) ∧
  (if 0 <? np then total sub = Z.min np (Total (dpr d)) ∧ fixedPaths d = total sub else sub = dpr d) ∧
  (∀ p, Contains (dpr d) p = true → p ∈ ports) ∧ (∀ p, Contains sub p = true → p ∈ ports).
Proof.
  unfold newSpreadDialer. destruct (ParseServerAddrWithRange addr) as [[host ports]|]; [|done].
  destruct (NewPortRange ports) as [pr|] eqn:Hpr; [|done].
  destruct (resolveServerIP host lookup) as [ip|]; [|done].
  pose proof (NewPortRange_spec _ _ Hpr) as Hof. pose proof (selectorRange_spec ports pr np draws Hpr) as Hsel.
  destruct (selectorRange pr np draws) as [sub fixed]. destruct Hsel as ([ps Hps] & Hsub & Hnp).
  destruct (bindLoop _ _ _ _ _) as [ss [i|]] eqn:Hb; [done|]. intros [= <- <-].
  destruct (bindLoop_sel _ _ _ _ _ _ Hb) as [Hlen Hss].
  set (d := mkDialer host ip (ipToAddr ip) pr ss 0 fixed (Some newPathQuality) false 0).
  assert (Hwf : dialer_wf d sub).
  { split; [by exists ports|done|]. eapply Forall_impl; [exact Hss|]. intros s [seed ->].
    split; [by apply (NewPortSelector_wf ps)|done]. }
  assert (Hall : ∀ cs, dialer_wf (dexecAll d cs) sub ∧ dpr (dexecAll d cs) = dpr d ∧ Len (dexecAll d cs) = Len d).
  { intros cs. revert Hwf. generalize d as d0. unfold dexecAll. induction cs as [|c cs IH]; intros d0 Hwf; [done|].
    cbn [foldl]. destruct (dexec_wf d0 sub c Hwf) as (W1 & W2 & W3 & _). destruct (IH _ W1) as (I1 & I2 & I3).
    by rewrite I2, I3. }
  destruct (Hall calls) as (Hwf1 & Hdpr & Hlen1). exists host, ports, sub. split_and!; try done.
  - rewrite Hlen1. unfold Len, len. cbn. rewrite length_map, Hlen. destruct (Z.leb_spec ns 0); lia.
  - by exists ps.
  - destruct (0 <? np); [done|apply Hnp].
  - intros p Hp%(Contains_expand _ _ _ Hof). by apply (pro_mem _ _ Hof).
  - intros p Hp%(Contains_expand _ _ _ Hps). by apply (pro_mem _ _ Hof), Hsub.
Qed.

(** C28: (safety) Every datagram goes into the configured port range.  A dialer built for
    an address draws its ports from the range there - from min(paths, range) pinned
    ports when paths are pinned - whatever the random draws, the scores, failing
    sockets, rebuilt ones and changing name resolution; it keeps the number of
    sockets it was given; and when a send succeeds, the client accepts a reply from
    the very address and port the datagram went to. *)
Theorem spread_in_range addr ns np lookup draws binds seeds d closed calls :
  newSpreadDialer addr ns np lookup draws binds seeds = (Ok d, closed) →
  let d1 := dexecAll d calls in
  ∃ host ports sub, ParseServerAddrWithRange addr = Ok (host, ports) ∧ Len d1 = Z.max 1 ns ∧
  (if 0 <? np then total sub = Z.min np (Total (dpr d)) ∧ fixedPaths d = total sub else sub = dpr d) ∧
  (∀ p, Contains sub p = true → p ∈ ports) ∧
  (∀ c, Forall (λ g, Contains sub g.2 = true) (dexec d1 c).1) ∧
  (∀ floats dr now w1 w2 e out d2, Send d1 floats dr now w1 w2 false e = (out, Ok tt, d2) →
     ∃ g, last out = Some g ∧ acceptsRemote d2 (g.1.2, g.2) = true).
Proof.
  intros Hd. destruct (dialer_reached _ _ _ _ _ _ _ _ _ calls Hd) as (host & ports & sub & Hp & Hwf & _ & Hl & [ps Hps] & Hnp & _ & Hsub).
  exists host, ports, sub. split_and!; try done.
  - intros c. destruct (dexec_wf _ sub c Hwf) as (_ & _ & _ & _ & H).
    eapply Forall_impl; [exact H|]. intros g Hg. by apply (Contains_expand _ _ _ Hps).
  - intros floats dr now w1 w2 e out d2 HS. pose proof (dexec_sent _ sub floats dr now w1 w2 e Hwf) as H.
    rewrite HS in H. by apply H.
Qed.

(** A literal address, two sockets and two pinned ports. *)
Definition demo_dial : result SpreadDialer spread_error * list Conn :=
  newSpreadDialer (str "1.1.1.1:80-82,443") 2 2 None [3; 1] [Some 11; Some 12] (λ _, [0]).

Lemma spread_in_range_witness :
  match demo_dial with
  | (Ok d, _) => fixedPaths d = 2 ∧ Forall (λ g, g.2 ∈ [80; 81; 82; 443])
      (dexec d (DSend (λ _, f64_zero) (λ _, [0]) 0 (Some WOther) None (mkReopen None (Some 13)))).1
  | _ => False
  end.
Proof.
  destruct demo_dial as [[d|] cl] eqn:E; [|vm_compute in E; discriminate].
  split; [vm_compute in E; by injection E as <- _|].
  destruct (spread_in_range _ _ _ _ _ _ _ d cl [] E) as (host & ports & sub & Hp & _ & _ & Hsub & Hall & _).
  vm_compute in Hp. injection Hp as <- <-. eapply Forall_impl; [apply Hall|]. intros g Hg. by apply Hsub.
Defined.
