(* ===== verification/SpreadSockets.v ===== *)
(** Who owns the sockets of the spread dialer (src/tunnel/spread.go): [Reopen] by
    senders and by the receive supervisor, and [Close], interleaved. *)
From S2P Require Import Prelude GoStrings GoNet Rtt F64 PathQuality PortRange Targets Spread.
Local Open Scope Z_scope.

(** The dialer with the sockets the system has open ([os]), those it ever handed
    out ([used]), the calls of [Reopen] past their look at the closed flag, and how
    many slots [Close] has been through. *)
Record dworld := mkDWorld {
  dial : SpreadDialer;
  os : gset Conn;
  used : gset Conn;
  reopening : list (nat * Conn);
  closing : option nat;
}.

Definition conns (d : SpreadDialer) : list Conn := map conn (socks d).

(** [reopenBody] on the sockets of the system, with what it returns to its caller: the
    new one opens, the old one closes. *)
Definition applyReopen (w : dworld) (l : list (nat * Conn)) (idx : nat) (failed : Conn) (e : reopen_env) :
    result Conn spread_error * dworld :=
  let '(r, d, old) := reopenBody (dial w) idx failed e in
  (r, match old, rBind e with
      | Some o, Some c => mkDWorld d (({[c]} ∪ os w) ∖ {[o]}) ({[c]} ∪ used w) l (closing w)
      | _, _ => mkDWorld d (os w) (used w) l (closing w)
      end).

Inductive sstep (w : dworld) : dworld → Prop :=
| SNext floats draws now r d :
    Next (dial w) floats draws now = (r, d) → sstep w (mkDWorld d (os w) (used w) (reopening w) (closing w))
| SReopenLook idx failed :
    dclosed (dial w) = false → (idx < length (socks (dial w)))%nat →
    sstep w (mkDWorld (dial w) (os w) (used w) ((idx, failed) :: reopening w) (closing w))
| SReopenBody l1 idx failed l2 e r w' :
    reopening w = l1 ++ (idx, failed) :: l2 → (∀ c, rBind e = Some c → c ∉ used w) →
    applyReopen w (l1 ++ l2) idx failed e = (r, w') → sstep w w'
| SCloseFlag :
    closing w = None → sstep w (mkDWorld (set_dclosed (dial w)) (os w) (used w) (reopening w) (Some 0%nat))
| SCloseOne k s :
    closing w = Some k → socks (dial w) !! k = Some s →
    sstep w (mkDWorld (dial w) (os w ∖ {[conn s]}) (used w) (reopening w) (Some (S k))).

Definition newDWorld (d : SpreadDialer) : dworld := mkDWorld d (list_to_set (conns d)) (list_to_set (conns d)) [] None.

Record dwinv (w : dworld) : Prop := {
  wi_nodup : NoDup (conns (dial w));
  wi_used : ∀ c, c ∈ conns (dial w) → c ∈ used w;
  wi_owned : ∀ c, c ∈ os w → c ∈ conns (dial w);
  wi_open : closing w = None → dclosed (dial w) = false ∧ ∀ c, c ∈ conns (dial w) → c ∈ os w;
  wi_closed : closing w ≠ None → dclosed (dial w) = true;
  wi_gen : generation (dial w) = u64 (Z.of_nat (size (used w)) - len (conns (dial w)));
}.

Lemma pickPort_frame d idx floats draws now :
  let d' := (pickPort d idx floats draws now).2 in
  conns d' = conns d ∧ dclosed d' = dclosed d ∧ generation d' = generation d.
Proof.
  unfold pickPort. destruct (socks d !! idx) as [s|] eqn:Hs; [|done]. destruct (match _ with Some _ => _ | None => _ end) as [p sel'].
  split; [|done]. cbn. apply list_eq. intros k. unfold conns. rewrite !list_lookup_fmap.
  destruct (decide (k = idx)) as [->|]; [|by rewrite list_lookup_insert_ne].
  rewrite list_lookup_insert_eq, Hs by (by apply lookup_lt_Some in Hs). done.
Qed.

Lemma Next_frame d floats draws now :
  let d' := (Next d floats draws now).2 in
  conns d' = conns d ∧ dclosed d' = dclosed d ∧ generation d' = generation d.
Proof.
  unfold Next. destruct (_ || _); [done|].
  pose proof (pickPort_frame (set_drr d (u64 (drr d + 1))) (Z.to_nat (drr d mod Len d)) floats draws now) as H.
  by destruct (pickPort _ _ _ _ _).
Qed.

(** A socket is replaced only if the slot still holds the one that failed; a caller gets
    what the slot holds afterwards. *)
Lemma reopenBody_cases d idx failed e :
  let '(r, d', old) := reopenBody d idx failed e in
  dclosed d' = dclosed d ∧ (∀ c, r = Ok c → conns d' !! idx = Some c) ∧
  match old with
  | None => conns d' = conns d ∧ generation d' = generation d ∧ (∀ c, r = Ok c → c ≠ failed ∧ d' = d)
  | Some o => o = failed ∧ conns d !! idx = Some o ∧
      ∃ c, rBind e = Some c ∧ r = Ok c ∧ conns d' = <[idx := c]> (conns d) ∧ generation d' = u64 (generation d + 1)
  end.
Proof.
  unfold reopenBody. destruct (socks d !! idx) as [s|] eqn:Hs; [|done].
  assert (Hc : conns d !! idx = Some (conn s)) by (unfold conns; by rewrite list_lookup_fmap, Hs).
  destruct (Z.eqb_spec (conn s) failed) as [<-|]; cbn [negb]; [|split_and!; [done|by intros c [= <-]|done|done|by intros c [= <-]]].
  assert (Hnew : ∀ d1 c, dclosed d1 = dclosed d → conns d1 = conns d → generation d1 = generation d →
    let d2 := bump_generation (set_socks d1 (<[idx := mkSock c (sel s)]> (socks d1))) in
    dclosed d2 = dclosed d ∧ conns d2 = <[idx := c]> (conns d) ∧ generation d2 = u64 (generation d + 1)).
  { intros d1 c H1 H2 H3. cbn. rewrite H3. split_and!; [done| |done]. rewrite <- H2. unfold conns. cbn. by rewrite list_fmap_insert. }
  assert (Hins : ∀ c, <[idx := c]> (conns d) !! idx = Some c).
  { intros c. apply list_lookup_insert_eq. by apply lookup_lt_Some in Hc. }
  assert (Hdone : ∀ d1, dclosed d1 = dclosed d → conns d1 = conns d → generation d1 = generation d →
    let '(r, d', old) := match rBind e with
      | None => (Err (ErrBind (Z.of_nat idx)), d1, None)
      | Some c => (Ok c, bump_generation (set_socks d1 (<[idx := mkSock c (sel s)]> (socks d1))), Some (conn s))
      end in
    dclosed d' = dclosed d ∧ (∀ c, r = Ok c → conns d' !! idx = Some c) ∧
    match old with
    | None => conns d' = conns d ∧ generation d' = generation d ∧ (∀ c, r = Ok c → c ≠ conn s ∧ d' = d)
    | Some o => o = conn s ∧ conns d !! idx = Some o ∧
        ∃ c, rBind e = Some c ∧ r = Ok c ∧ conns d' = <[idx := c]> (conns d) ∧ generation d' = u64 (generation d + 1)
    end).
  { intros d1 H1 H2 H3. destruct (rBind e) as [c|]; [|done]. destruct (Hnew d1 c H1 H2 H3) as (N1 & N2 & N3).
    split_and!; [done| |done|done|by exists c]. intros c' [= <-]. rewrite N2. apply Hins. }
  unfold refreshDestination. destruct (ParseIP (serverHost d)); [by apply Hdone|].
  destruct (resolveServerIP _ _) as [ip|]; [|done]. case_bool_decide; [done|]. by apply Hdone.
Qed.

Lemma u64_add_l a b : u64 (u64 a + b) = u64 (a + b).
Proof. unfold u64, uwrap. apply Z.add_mod_idemp_l. lia. Qed.

Lemma applyReopen_inv w l idx failed e : dwinv w → (∀ c, rBind e = Some c → c ∉ used w) → dwinv (applyReopen w l idx failed e).2.
Proof.
  intros [Hnd Hu Ho Hop Hcl Hg] Hfresh. unfold applyReopen. pose proof (reopenBody_cases (dial w) idx failed e) as H.
  destruct (reopenBody (dial w) idx failed e) as [[r d] old]. destruct H as (Hdc & _ & H). cbn [snd].
  destruct old as [o|]; [|destruct H as (H1 & H2 & _); split; cbn [dial os used reopening closing]; rewrite ?H1, ?H2, ?Hdc; done].
  destruct H as (-> & Hidx & c & Hb & _ & Hconns & Hgen). rewrite Hb. specialize (Hfresh c Hb).
  assert (Hc : c ∉ conns (dial w)) by (intros Hc; by apply Hfresh, Hu).
  pose proof (lookup_lt_Some _ _ _ Hidx) as Hlt.
  assert (Hmem : ∀ x, x ∈ <[idx := c]> (conns (dial w)) ↔ x = c ∨ (x ∈ conns (dial w) ∧ x ≠ failed)).
  { intros x. rewrite !list_elem_of_lookup. split.
    - intros [k Hk]. destruct (decide (k = idx)) as [->|Hne].
      + rewrite list_lookup_insert_eq in Hk by done. by injection Hk as <-; left.
      + rewrite list_lookup_insert_ne in Hk by done. right. split; [by exists k|].
        intros ->. by apply Hne, (NoDup_lookup _ _ _ _ Hnd Hk).
    - intros [->|[[k Hk] Hne]]; [exists idx; by rewrite list_lookup_insert_eq|].
      exists k. rewrite list_lookup_insert_ne; [done|]. intros ->. congruence. }
  split; cbn [dial os used reopening closing]; rewrite ?Hconns.
  - apply NoDup_alt. intros i j x Hi Hj. destruct (decide (i = idx)) as [->|Hi'], (decide (j = idx)) as [->|Hj']; try done;
      rewrite ?list_lookup_insert_eq in * by done; rewrite ?list_lookup_insert_ne in * by done; simplify_eq;
      [by apply list_elem_of_lookup_2 in Hj|by apply list_elem_of_lookup_2 in Hi|].
    by apply (NoDup_lookup _ _ _ _ Hnd Hi Hj).
  - intros x [->|[Hx _]]%Hmem; set_solver.
  - intros x [[->%elem_of_singleton|Hx]%elem_of_union Hne]%elem_of_difference; apply Hmem; [by left|right; set_solver].
  - intros Hnone. rewrite Hdc. destruct (Hop Hnone) as [H1 H2]. split; [done|].
    intros x [->|[Hx Hne]]%Hmem; apply elem_of_difference; split; [set_solver| |set_solver|set_solver].
    intros ->%elem_of_singleton. by apply Hc, (list_elem_of_lookup_2 _ idx).
  - intros Hs. by rewrite Hdc; apply Hcl.
  - rewrite Hgen, Hg, u64_add_l, size_union, size_singleton by set_solver. f_equal.
    unfold len. rewrite length_insert. lia.
Qed.

Lemma sstep_inv w w' : dwinv w → sstep w w' → dwinv w'.
Proof.
  intros Hw. pose proof Hw as [Hnd Hu Ho Hop Hcl Hg]. destruct 1 as [floats draws now r d HN|idx failed Hc Hi|l1 idx failed l2 e r w' Hl Hf Ha|Hc|k s Hk Hs].
  - pose proof (Next_frame (dial w) floats draws now) as (H1 & H2 & H3). rewrite HN in *. cbn [snd] in *.
    split; cbn [dial os used reopening closing]; rewrite ?H1, ?H2, ?H3; done.
  - by split.
  - pose proof (applyReopen_inv w (l1 ++ l2) idx failed e Hw Hf) as H. by rewrite Ha in H.
  - split; try done.
  - split; cbn [dial os used reopening closing]; try done; [set_solver|]. intros _. apply Hcl. by rewrite Hk.
Qed.

(** [Close] with no [Reopen] under way. *)
Record closing_alone (w : dworld) (k : nat) : Prop := {
  ca_none : reopening w = [];
  ca_k : closing w = Some k;
  ca_closed : dclosed (dial w) = true;
  ca_rest : ∀ c, c ∈ os w → ∃ i, (k ≤ i)%nat ∧ conns (dial w) !! i = Some c;
}.

Lemma closing_alone_step w w' k : closing_alone w k → sstep w w' → ∃ k', closing_alone w' k'.
Proof.
  intros [Hn Hk Hc Hr]. destruct 1 as [floats draws now r d HN|idx failed Hc' Hi|l1 idx failed l2 e r w' Hl Hf Ha|Hc'|k' s Hk' Hs].
  - pose proof (Next_frame (dial w) floats draws now) as (H1 & H2 & H3). rewrite HN in *. cbn [snd] in *.
    exists k. split; cbn [dial os used reopening closing]; rewrite ?H1, ?H2; done.
  - congruence.
  - rewrite Hn in Hl. by destruct l1.
  - congruence.
  - assert (k' = k) as -> by congruence. exists (S k). split; try done. cbn [os dial].
    intros c [Hin Hne]%elem_of_difference. destruct (Hr c Hin) as (i & Hi & Hci). exists i. split; [|done].
    destruct (decide (i = k)) as [->|]; [|lia]. unfold conns in Hci. rewrite list_lookup_fmap, Hs in Hci. set_solver.
Qed.

(** What a caller of [Reopen] gets. *)
Lemma applyReopen_result w l idx failed e c w1 :
  dwinv w → (∀ c', rBind e = Some c' → c' ∉ used w) → applyReopen w l idx failed e = (Ok c, w1) →
  conns (dial w1) !! idx = Some c ∧ c ≠ failed.
Proof.
  intros Hw Hfresh. unfold applyReopen. pose proof (reopenBody_cases (dial w) idx failed e) as H.
  destruct (reopenBody (dial w) idx failed e) as [[r d1] old]. destruct H as (_ & Hr & H). intros [= -> <-].
  split; [destruct old, (rBind e); by apply Hr|]. destruct old as [o|].
  - destruct H as (-> & Hidx & c' & Hb & [= <-] & _). intros ->. apply (Hfresh failed Hb), (wi_used _ Hw).
    by eapply list_elem_of_lookup_2.
  - by apply H.
Qed.

Lemma applyReopen_taken w l idx failed e c :
  conns (dial w) !! idx = Some c → c ≠ failed →
  applyReopen w l idx failed e = (Ok c, mkDWorld (dial w) (os w) (used w) l (closing w)).
Proof.
  unfold conns. rewrite list_lookup_fmap. destruct (socks (dial w) !! idx) as [s|] eqn:Hs; [|done]. intros [= <-] Hne.
  unfold applyReopen, reopenBody. rewrite Hs. by destruct (Z.eqb_spec (conn s) failed).
Qed.

(** C27: (invariant) The dialer owns every socket it opened.  Over every interleaving of
    sends, of [Reopen]s by senders and by the receive supervisor, and of [Close]: the
    slots hold different sockets; a socket that is open is in a slot, so a replaced
    one has been closed; until [Close] every slot's socket is open; the generation
    counts the replacements; a [Reopen] that succeeds returns the socket its slot then
    holds, which is not the one that failed; and while the slot holds it, every other
    [Reopen] for the same failure returns that socket and changes nothing, so of several
    for one failure the first replaces the socket and the others take the replacement;
    and a [Close] that starts with no [Reopen] under way leaves no socket open. *)
Theorem spread_sockets_owned d w :
  NoDup (conns d) → dclosed d = false → generation d = 0 → rtc sstep (newDWorld d) w →
  NoDup (conns (dial w)) ∧ (∀ c, c ∈ os w → c ∈ conns (dial w)) ∧
  (closing w = None → os w = list_to_set (conns (dial w))) ∧
  generation (dial w) = u64 (Z.of_nat (size (used w)) - len (conns (dial w))) ∧
  (∀ l idx failed e c w1, (∀ c', rBind e = Some c' → c' ∉ used w) → applyReopen w l idx failed e = (Ok c, w1) →
     conns (dial w1) !! idx = Some c ∧ c ≠ failed ∧
     ∀ w2 l' e', conns (dial w2) !! idx = Some c →
       applyReopen w2 l' idx failed e' = (Ok c, mkDWorld (dial w2) (os w2) (used w2) l' (closing w2))) ∧
  (closing w = None → reopening w = [] → ∀ w2,
     rtc sstep (mkDWorld (set_dclosed (dial w)) (os w) (used w) [] (Some 0%nat)) w2 →
     closing w2 = Some (length (conns (dial w2))) → os w2 = ∅).
Proof.
  intros Hnd Hc Hg Hrun. assert (Hw : dwinv w).
  { revert w Hrun. refine (rtc_ind_r _ _ _ _).
    - split; cbn [newDWorld dial os used closing]; try done; [set_solver|set_solver|set_solver|].
      rewrite size_list_to_set by done. unfold len. by rewrite Z.sub_diag.
    - intros w w' _ Hstep IH. by eapply sstep_inv. }
  pose proof Hw as [Hnd' Hu Ho Hop Hcl Hgen]. split_and!; [done|done| |done| |].
  - intros Hn. destruct (Hop Hn) as [_ H]. set_solver.
  - intros l idx failed e c w1 Hfresh Ha. destruct (applyReopen_result _ _ _ _ _ _ _ Hw Hfresh Ha) as [H1 H2].
    split_and!; [done|done|]. intros w2 l' e' Hs. by apply applyReopen_taken.
  - intros Hn Hno w2 Hrun2 Hdone. destruct (Hop Hn) as [_ H].
    assert (Hca : ∃ k, closing_alone w2 k).
    { revert w2 Hrun2 Hdone. enough (Hgo : ∀ w2, rtc sstep (mkDWorld (set_dclosed (dial w)) (os w) (used w) [] (Some 0%nat)) w2 →
        ∃ k, closing_alone w2 k) by (intros; by apply Hgo). refine (rtc_ind_r _ _ _ _).
      - exists 0%nat. split; try done. cbn. intros c Hc'%Ho. apply list_elem_of_lookup in Hc' as [i Hi]. exists i. split; [lia|done].
      - intros w1 w' _ Hstep [k IH]. by eapply closing_alone_step. }
    destruct Hca as [k [_ Hk _ Hr]]. rewrite Hk in Hdone. injection Hdone as ->.
    apply set_eq. intros c. split; [|set_solver]. intros (i & Hi & Hci)%Hr. apply lookup_lt_Some in Hci. lia.
Qed.

(** [Close] going through the slots from the k-th. *)
Lemma close_run w k : closing w = Some k → (k ≤ length (socks (dial w)))%nat →
  rtc sstep w (mkDWorld (dial w) (os w ∖ list_to_set (drop k (conns (dial w)))) (used w) (reopening w) (Some (length (socks (dial w))))).
Proof.
  remember (length (socks (dial w)) - k)%nat as n eqn:Hn. revert w k Hn. induction n as [|n IH]; intros w k Hn Hk Hle.
  - assert (k = length (socks (dial w))) as -> by lia.
    rewrite drop_ge by (unfold conns; rewrite length_map; lia). cbn. rewrite difference_empty_L, <- Hk. by destruct w.
  - destruct (socks (dial w) !! k) as [s|] eqn:Hs; [|apply lookup_ge_None in Hs; lia].
    eapply rtc_l; [by apply (SCloseOne w k s)|].
    assert (Hd : drop k (conns (dial w)) = conn s :: drop (S k) (conns (dial w)))
      by (apply drop_S; unfold conns; by rewrite list_lookup_fmap, Hs).
    set (w1 := mkDWorld _ _ _ _ _). specialize (IH w1 (S k) ltac:(cbn; lia) eq_refl ltac:(cbn; lia)).
    cbn [w1 dial os used reopening] in IH.
    rewrite Hd. replace (os w ∖ _) with (os w ∖ {[conn s]} ∖ list_to_set (drop (S k) (conns (dial w)))) by set_solver. exact IH.
Qed.

(** Once [Close] is through and no [Reopen] is left, the open sockets stay as they are. *)
Lemma closed_final w w' : closing w = Some (length (socks (dial w))) → reopening w = [] → dclosed (dial w) = true →
  rtc sstep w w' → os w' = os w.
Proof.
  intros Hk Hn Hc Hrun. enough (H : os w' = os w ∧ closing w' = Some (length (socks (dial w'))) ∧ reopening w' = [] ∧ dclosed (dial w') = true)
    by apply H. revert w' Hrun. refine (rtc_ind_r _ _ _ _); [done|].
  intros w1 w2 _ Hstep (H1 & H2 & H3 & H4).
  destruct Hstep as [floats draws now r d HN|idx failed Hc' Hi|l1 idx failed l2 e r w' Hl Hf Ha|Hc'|k' s Hk' Hs]; try congruence.
  - pose proof (Next_frame (dial w1) floats draws now) as (N1 & N2 & _). rewrite HN in *. cbn [snd] in *.
    split_and!; [done| |done|by cbn; rewrite N2]. cbn. apply (f_equal length) in N1. unfold conns in N1. rewrite !length_map in N1. by rewrite N1.
  - rewrite H3 in Hl. by destruct l1.
  - assert (k' = length (socks (dial w1))) as -> by congruence. apply lookup_lt_Some in Hs. lia.
Qed.

(** A [Reopen] that looked at the closed flag just before [Close] set it
    still replaces its socket afterwards: [Close] has already been through the slot,
    so the new socket is open when both have returned, and the program closes it
    never. *)
Theorem close_race_leaks d idx s c ip :
  NoDup (conns d) → dclosed d = false → socks d !! idx = Some s → ParseIP (serverHost d) = Some ip → c ∉ conns d →
  ∃ w, rtc sstep (newDWorld d) w ∧ closing w = Some (length (socks (dial w))) ∧ reopening w = [] ∧
       ∀ w', rtc sstep w w' → os w' = {[c]}.
Proof.
  intros Hnd Hop Hs Hip Hc. pose proof (lookup_lt_Some _ _ _ Hs) as Hlt.
  set (w1 := mkDWorld (set_dclosed d) (list_to_set (conns d)) (list_to_set (conns d)) [(idx, conn s)] (Some 0%nat)).
  pose proof (close_run w1 0 eq_refl ltac:(lia)) as Hclose.
  set (w2 := mkDWorld (dial w1) _ _ _ _) in Hclose.
  set (w := (applyReopen w2 [] idx (conn s) (mkReopen None (Some c))).2).
  assert (Ew : w = mkDWorld (bump_generation (set_socks (set_dclosed d) (<[idx := mkSock c (sel s)]> (socks d))))
                 (({[c]} ∪ os w2) ∖ {[conn s]}) ({[c]} ∪ used w2) [] (closing w2)).
  { unfold w, applyReopen, reopenBody, refreshDestination. cbn [dial w2 w1 set_dclosed socks serverHost rBind].
    rewrite Hs, Z.eqb_refl. cbn [negb]. by rewrite Hip. }
  assert (Hos : os w = {[c]}).
  { rewrite Ew. cbn [os w2 w1 dial conns set_dclosed socks]. rewrite drop_0.
    assert (conn s ≠ c) by (intros <-; apply Hc; unfold conns; apply list_elem_of_fmap; exists s; split; [done|by eapply list_elem_of_lookup_2]).
    unfold conns. set_solver. }
  exists w. split_and!.
  - eapply rtc_l; [by apply (SReopenLook (newDWorld d) idx (conn s))|].
    eapply rtc_l; [by apply SCloseFlag|]. etransitivity; [exact Hclose|]. apply rtc_once.
    eapply (SReopenBody w2 [] idx (conn s) [] (mkReopen None (Some c))); [done| |apply surjective_pairing].
    intros c' [= <-]. cbn. set_solver.
  - rewrite Ew. cbn. by rewrite length_insert.
  - by rewrite Ew.
  - intros w' Hrun. rewrite <- Hos. apply closed_final; [|by rewrite Ew|by rewrite Ew|done].
    rewrite Ew. cbn. by rewrite length_insert.
Qed.

(** A socket fails and is replaced, and the race of [Close] with a [Reopen]. *)
Definition demo_dialer : SpreadDialer :=
  match demo_dial with (Ok d, _) => d | _ => mkDialer [] [] [] (mkPR [] 0) [] 0 0 None true 0 end.
Definition demo_reopened : dworld :=
  (applyReopen (mkDWorld demo_dialer {[11; 12]} {[11; 12]} [(0%nat, 11)] None) [] 0 11 (mkReopen None (Some 13))).2.

Lemma spread_sockets_owned_witness :
  conns (dial demo_reopened) = [13; 12] ∧ os demo_reopened = {[12; 13]} ∧ generation (dial demo_reopened) = 1 ∧
  (applyReopen demo_reopened [] 0 11 (mkReopen None (Some 14))).1 = Ok 13.
Proof.
  set (w0 := mkDWorld demo_dialer {[11; 12]} {[11; 12]} [(0%nat, 11)] None).
  assert (Hrun0 : rtc sstep (newDWorld demo_dialer) w0).
  { assert (E : w0 = mkDWorld demo_dialer (os (newDWorld demo_dialer)) (used (newDWorld demo_dialer)) [(0%nat, 11)] None)
      by (vm_compute; reflexivity).
    rewrite E. apply rtc_once. apply (SReopenLook (newDWorld demo_dialer) 0 11); [by vm_compute|vm_compute; lia]. }
  assert (Hfresh : ∀ c, rBind (mkReopen None (Some 13)) = Some c → c ∉ used w0) by (intros c [= <-]; by vm_compute).
  assert (Ha : applyReopen w0 [] 0 11 (mkReopen None (Some 13)) = (Ok 13, demo_reopened)).
  { rewrite (surjective_pairing (applyReopen _ _ _ _ _)). f_equal. }
  assert (Hrun : rtc sstep (newDWorld demo_dialer) demo_reopened).
  { etransitivity; [exact Hrun0|]. apply rtc_once. by eapply (SReopenBody w0 [] 0 11 [] (mkReopen None (Some 13))). }
  assert (Hnd : NoDup (conns demo_dialer)) by (apply (bool_decide_unpack _); by vm_compute).
  destruct (spread_sockets_owned demo_dialer demo_reopened Hnd) as (_ & _ & H & _); [by vm_compute|by vm_compute|exact Hrun|].
  destruct (spread_sockets_owned demo_dialer w0 Hnd) as (_ & _ & _ & _ & H2 & _); [by vm_compute|by vm_compute|exact Hrun0|].
  destruct (H2 [] 0%nat 11 (mkReopen None (Some 13)) 13 demo_reopened Hfresh Ha) as (Hs & _ & Hc).
  split; [by vm_compute|]. split; [|split; [by vm_compute|]].
  - rewrite H by by vm_compute. apply (bool_decide_unpack _). by vm_compute.
  - by rewrite (Hc demo_reopened [] _ Hs).
Defined.

Lemma close_race_leaks_witness :
  ∃ w, rtc sstep (newDWorld demo_dialer) w ∧ ∀ w', rtc sstep w w' → os w' = {[13]}.
Proof.
  destruct (close_race_leaks demo_dialer 0 (mkSock 11 (sel (default (mkSock 0 (NewPortSelector (mkPR [] 0) SelectorRoundRobin [])) (socks demo_dialer !! 0%nat))))
    13 (v4InV6Prefix ++ [1; 1; 1; 1])) as (w & H1 & _ & _ & H4);
    [apply (bool_decide_unpack _); by vm_compute|by vm_compute|by vm_compute|by vm_compute|apply (bool_decide_unpack _); by vm_compute|].
  by exists w.
Defined.
