(* ===== verification/SpreadBatch.v ===== *)
(** Sending a batch through the spread dialer: [sendBatch] of
    src/tunnel/session_transport.go on top of [Spread].

    Go's iteration order over the groups, how much of each group the system takes, and
    the outcomes of repairs are arguments.  The scratch slices the code pools are
    values here: they are read only before the batch is written. *)
From S2P Require Import Prelude F64 PathQuality PortRange Spread.
Local Open Scope Z_scope.

(** What one [Next] draws, and what one repairing send meets. *)
Record draw := mkDraw { floats : nat → f64; draws : nat → list Z; clk : Z }.
Record repair := mkRepair { firstWrite : option write_error; secondWrite : option write_error; reopening : reopen_env }.

Record batchItem := mkItem { wire : bytes; port : Z }.

Abbreviation groups := (gmap Z (list batchItem)).

Definition group (g : groups) (idx : Z) : list batchItem := default [] (g !! idx).

(** The first loop: a socket and a port for each record; [None] is ErrNoRoute. *)
Fixpoint assign (d : SpreadDialer) (wires : list bytes) (ds : list draw) (g : groups) : option groups * SpreadDialer :=
  match wires with
  | [] => (Some g, d)
  | w :: wires =>
      match ds with
      | [] => (None, d)
      | r :: ds =>
          let '((idx, p), d) := Spread.Next d (floats r) (draws r) (clk r) in
          if idx <? 0 then (None, d) else assign d wires ds (<[idx := group g idx ++ [mkItem w p]]> g)
      end
  end.

(** A record, the datagrams handed to the system for it, and the outcome. *)
Record attempt := mkAttempt { onSock : Z; item : batchItem; handed : list datagram; result_ : result unit spread_error }.

(** The suffix of a group, one by one. *)
Fixpoint sendRest (d : SpreadDialer) (idx : Z) (l : list batchItem) (rs : list repair) : list attempt * SpreadDialer :=
  match l with
  | [] => ([], d)
  | it :: l =>
      let r := default (mkRepair None None (mkReopen None None)) (head rs) in
      let '(out, res, d) := sendAtPort d idx (port it) (firstWrite r) (secondWrite r) false (reopening r) in
      let '(os, d) := sendRest d idx l (tail rs) in (mkAttempt idx it out res :: os, d)
  end.

(** One group: the system takes [n] records of the batch. *)
Definition sendGroup (d : SpreadDialer) (idx : Z) (l : list batchItem) (n : nat) (rs : list repair) :
    list attempt * SpreadDialer :=
  let taken := match socks d !! Z.to_nat idx with
               | Some s => map (λ it, mkAttempt idx it [(conn s, serverAddr d, u16 (port it))] (Ok tt)) (take n l)
               | None => []
               end in
  let '(os, d) := sendRest d idx (drop (length taken) l) rs in (taken ++ os, d).

Fixpoint sendGroups (d : SpreadDialer) (g : groups) (order : list Z) (n : Z → nat) (rs : Z → list repair) :
    list attempt * SpreadDialer :=
  match order with
  | [] => ([], d)
  | idx :: order =>
      let '(o, d) := sendGroup d idx (group g idx) (n idx) (rs idx) in
      let '(os, d) := sendGroups d g order n rs in (o ++ os, d)
  end.

Definition firstErr (os : list attempt) : result unit spread_error :=
  default (Ok tt) (head (filter (λ r, negb (is_Ok r)) (map result_ os))).

Definition sendBatch (d : SpreadDialer) (wires : list bytes) (ds : list draw) (order : groups → list Z) (n : Z → nat)
    (rs : Z → list repair) : list attempt * result unit spread_error * SpreadDialer :=
  match assign d wires ds ∅ with
  | (None, d) => ([], Err ErrNoRoute, d)
  | (Some g, d) => let '(os, d) := sendGroups d g (order g) n rs in (os, firstErr os, d)
  end.

(** * Single sends choose the same sockets and ports *)

(** The choices [Next] makes for a sequence of records. *)
Fixpoint chosen (d : SpreadDialer) (wires : list bytes) (ds : list draw) : option (list (Z * batchItem)) :=
  match wires, ds with
  | [], _ => Some []
  | w :: wires, r :: ds =>
      let '((idx, p), d) := Spread.Next d (floats r) (draws r) (clk r) in
      if idx <? 0 then None else cons (idx, mkItem w p) <$> chosen d wires ds
  | _, [] => None
  end.

Definition onSocket (idx : Z) (l : list (Z * batchItem)) : list batchItem := (filter (λ x, x.1 = idx) l).*2.

Lemma group_insert g idx l idx' : group (<[idx := l]> g) idx' = if decide (idx = idx') then l else group g idx'.
Proof. unfold group. destruct (decide (idx = idx')) as [->|]; [by rewrite lookup_insert_eq|by rewrite lookup_insert_ne]. Qed.

Lemma assign_spec d wires ds g :
  match assign d wires ds g with
  | (Some g', _) => ∃ items, chosen d wires ds = Some items ∧ ∀ idx, group g' idx = group g idx ++ onSocket idx items
  | (None, _) => chosen d wires ds = None
  end.
Proof.
  revert d ds g. induction wires as [|w wires IH]; intros d ds g; cbn [assign].
  { destruct ds; exists []; (split; [done|]); intros idx; by rewrite app_nil_r. }
  destruct ds as [|r ds]; [done|]. cbn [chosen]. destruct (Spread.Next d _ _ _) as [[idx p] d1].
  destruct (idx <? 0); [done|]. specialize (IH d1 ds (<[idx := group g idx ++ [mkItem w p]]> g)).
  destruct (assign d1 wires ds _) as [[g'|] d2]; [|by rewrite IH].
  destruct IH as (items & -> & Hg). exists ((idx, mkItem w p) :: items). split; [done|]. intros idx'. rewrite Hg, group_insert.
  unfold onSocket. rewrite filter_cons. cbn [fst]. destruct (decide (idx = idx')) as [->|]; [|done].
  by rewrite <- app_assoc.
Qed.

Lemma sendRest_items d idx l rs :
  map item (sendRest d idx l rs).1 = l ∧ Forall (λ a, onSock a = idx) (sendRest d idx l rs).1.
Proof.
  revert d rs. induction l as [|it l IH]; intros d rs; cbn [sendRest]; [done|].
  destruct (sendAtPort _ _ _ _ _ _ _) as [[out res] d1]. specialize (IH d1 (tail rs)).
  destruct (sendRest _ _ _ _) as [os d2]. destruct IH as [H1 H2]. cbn [fst map] in *. by rewrite H1; repeat constructor.
Qed.

Lemma sendGroup_items d idx l n rs :
  map item (sendGroup d idx l n rs).1 = l ∧ Forall (λ a, onSock a = idx) (sendGroup d idx l n rs).1.
Proof.
  unfold sendGroup. set (taken := match socks d !! _ with Some s => _ | None => [] end).
  assert (Ht : ∃ m, map item taken = take m l ∧ length taken = length (take m l) ∧ Forall (λ a, onSock a = idx) taken).
  { unfold taken. destruct (socks d !! _) as [s|]; [|by exists 0%nat]. exists n. rewrite length_map, map_map. cbn.
    rewrite map_id. split_and!; try done. by apply Forall_fmap, Forall_true. }
  destruct Ht as (m & Hi & Hl & Hs). pose proof (sendRest_items d idx (drop (length taken) l) rs) as [H1 H2].
  destruct (sendRest _ _ _ _) as [os d1]. cbn [fst] in *. split; [|by apply Forall_app_2].
  rewrite map_app, Hi, H1, Hl, length_take. destruct (decide (m ≤ length l)%nat).
  - rewrite Nat.min_l by lia. apply take_drop.
  - rewrite Nat.min_r, take_ge, drop_all by lia. apply app_nil_r.
Qed.

Definition placed (os : list attempt) : list (Z * batchItem) := map (λ a, (onSock a, item a)) os.

Lemma onSocket_app idx l1 l2 : onSocket idx (l1 ++ l2) = onSocket idx l1 ++ onSocket idx l2.
Proof. unfold onSocket. by rewrite filter_app, fmap_app. Qed.

Lemma onSocket_all idx idx' os :
  Forall (λ a, onSock a = idx) os → onSocket idx' (placed os) = if decide (idx = idx') then map item os else [].
Proof.
  induction 1 as [|a os Ha _ IH]; [by destruct (decide _)|]. unfold onSocket in *. cbn [placed map]. rewrite filter_cons. cbn [fst].
  rewrite Ha. destruct (decide (idx = idx')); [|done]. cbn. by f_equal.
Qed.

Lemma sendGroups_items d g order n rs idx :
  NoDup order → onSocket idx (placed (sendGroups d g order n rs).1) = if decide (idx ∈ order) then group g idx else [].
Proof.
  intros Hn. revert d. induction Hn as [|i order Hi Hn IH]; intros d; cbn [sendGroups]; [by rewrite decide_False by set_solver|].
  pose proof (sendGroup_items d i (group g i) (n i) (rs i)) as [H1 H2]. destruct (sendGroup _ _ _ _ _) as [o d1].
  specialize (IH d1). destruct (sendGroups _ _ _ _ _) as [os d2]. cbn [fst] in *.
  unfold placed in *. rewrite map_app, onSocket_app, IH. fold (placed o). rewrite (onSocket_all i idx o H2), H1.
  destruct (decide (i = idx)) as [->|Hne].
  - rewrite (decide_False (P := idx ∈ order)) by done. rewrite decide_True by set_solver. apply app_nil_r.
  - cbn [app]. destruct (decide (idx ∈ order)); [by rewrite decide_True by set_solver|by rewrite decide_False by set_solver].
Qed.

(** The iteration visits each group once. *)
Definition order_ok (order : groups → list Z) : Prop := ∀ g, order g ≡ₚ (map_to_list g).*1.

Lemma order_spec order g idx : order_ok order → NoDup (order g) ∧ (idx ∈ order g ↔ is_Some (g !! idx)).
Proof.
  intros Ho. rewrite (Ho g). split; [apply NoDup_fst_map_to_list|]. rewrite list_elem_of_fmap. split.
  - intros ([k l] & -> & H%elem_of_map_to_list). by eexists.
  - intros [l H]. exists (idx, l). by rewrite elem_of_map_to_list.
Qed.

(** Lists with the same entries on every socket are permutations. *)
Lemma onSocket_perm (l1 l2 : list (Z * batchItem)) : (∀ idx, onSocket idx l1 = onSocket idx l2) → l1 ≡ₚ l2.
Proof.
  intros H. assert (Hf : ∀ idx, filter (λ x, x.1 = idx) l1 = filter (λ x, x.1 = idx) l2).
  { intros idx. specialize (H idx). unfold onSocket in H.
    assert (E : ∀ l : list (Z * batchItem), filter (λ x, x.1 = idx) l = map (pair idx) (filter (λ x, x.1 = idx) l).*2).
    { clear. intros l. induction l as [|[i b] l IH]; [done|]. rewrite filter_cons. cbn [fst].
      destruct (decide (i = idx)) as [->|]; [cbn; by f_equal|done]. }
    by rewrite (E l1), (E l2), H. }
  clear H. revert l2 Hf. induction l1 as [|[i b] l1 IH]; intros l2 Hf.
  { destruct l2 as [|[i b] l2]; [done|]. specialize (Hf i). rewrite filter_cons_True in Hf by done. done. }
  assert (Hin : (i, b) ∈ l2).
  { assert (H : (i, b) ∈ filter (λ x, x.1 = i) l2) by (rewrite <- (Hf i), filter_cons_True by done; set_solver).
    by apply list_elem_of_filter in H as [_ H]. }
  pose proof (Hf i) as Hi. rewrite filter_cons_True in Hi by done.
  assert (Hsplit : ∃ la lb, l2 = la ++ (i, b) :: lb ∧ filter (λ x, x.1 = i) la = []).
  { clear -Hi. revert Hi. induction l2 as [|[j c] l2 IH2]; [done|]. rewrite filter_cons. cbn [fst]. destruct (decide (j = i)) as [->|Hj].
    - intros [= <- _]. by exists [], l2.
    - intros H. destruct (IH2 H) as (la & lb & -> & E). exists ((j, c) :: la), lb. split; [done|]. by rewrite filter_cons_False. }
  destruct Hsplit as (la & lb & -> & Hla). rewrite <- Permutation_middle. constructor. apply IH. intros idx.
  specialize (Hf idx). rewrite filter_cons, !filter_app, filter_cons in Hf. rewrite filter_app. cbn [fst] in Hf.
  destruct (decide (i = idx)) as [->|]; [|done]. rewrite Hla in *. by injection Hf.
Qed.

(** * Ports *)

Lemma Next_wf d sub fl dr now :
  dialer_wf d sub →
  let '((idx, p), d') := Spread.Next d fl dr now in
  dialer_wf d' sub ∧ dpr d' = dpr d ∧ (idx < 0 ∨ p ∈ expand (intervals sub)).
Proof.
  intros Hwf. unfold Spread.Next. destruct (Z.eqb_spec (Len d) 0) as [|Hn]; [split_and!; [done|done|left; lia]|].
  destruct (dclosed d); [split_and!; [done|done|left; lia]|]. cbn [orb].
  pose proof (len_nonneg (map conn (socks d))) as Hnn. fold (Len d) in Hnn.
  pose proof (Z.mod_pos_bound (drr d) (Len d) ltac:(lia)) as Hm.
  assert (Hwf' : dialer_wf (set_drr d (u64 (drr d + 1))) sub) by (destruct Hwf; by split).
  assert (Hidx : (Z.to_nat (drr d mod Len d) < length (socks (set_drr d (u64 (drr d + 1)))))%nat)
    by (cbn; unfold Len, len in *; rewrite length_map in *; lia).
  destruct (pickPort_wf _ sub _ fl dr now Hwf' Hidx) as (P1 & P2 & P3 & _).
  destruct (pickPort _ _ fl dr now) as [p d1]. by split_and!; [..|right].
Qed.

Lemma chosen_range d sub wires ds items :
  dialer_wf d sub → chosen d wires ds = Some items → Forall (λ x, port x.2 ∈ expand (intervals sub)) items.
Proof.
  revert d ds items. induction wires as [|w wires IH]; intros d ds items Hwf; cbn [chosen]; [intros [= <-]; constructor|].
  destruct ds as [|r ds]; [done|]. pose proof (Next_wf d sub (floats r) (draws r) (clk r) Hwf) as H.
  destruct (Spread.Next _ _ _ _) as [[idx p] d1]. destruct H as (H1 & _ & H2). destruct (Z.ltb_spec idx 0); [done|].
  destruct (chosen d1 wires ds) as [l|] eqn:E; [|done]. intros [= <-]. constructor; [|by eapply IH].
  destruct H2 as [|H2]; [lia|]. done.
Qed.

Lemma sendAtPort_port d idx p w1 w2 cs e : Forall (λ g, g.2 = u16 p) (sendAtPort d idx p w1 w2 cs e).1.1.
Proof.
  unfold sendAtPort. destruct (dclosed d); [constructor|]. destruct (_ || _); [constructor|].
  destruct (socks d !! _) as [s|]; [|constructor]. destruct w1; [|by repeat constructor]. destruct (negb _); [by repeat constructor|].
  destruct cs; [by repeat constructor|]. destruct (Reopen _ _ _ _) as [[[?|?] d1] ?]; [|by repeat constructor].
  destruct (socks d1 !! _); by repeat constructor.
Qed.

Definition own_port (a : attempt) : Prop := Forall (λ g, g.2 = u16 (port (item a))) (handed a).

Lemma sendRest_ports d idx l rs : Forall own_port (sendRest d idx l rs).1.
Proof.
  revert d rs. induction l as [|it l IH]; intros d rs; cbn [sendRest]; [constructor|].
  match goal with |- context [sendAtPort ?a ?b ?c ?x ?y ?z ?w] => pose proof (sendAtPort_port a b c x y z w) as H end.
  destruct (sendAtPort _ _ _ _ _ _ _) as [[out res] d1]. specialize (IH d1 (tail rs)). destruct (sendRest _ _ _ _) as [os d2].
  by constructor.
Qed.

Lemma sendGroups_ports d g order n rs : Forall own_port (sendGroups d g order n rs).1.
Proof.
  revert d. induction order as [|idx order IH]; intros d; cbn [sendGroups]; [constructor|].
  assert (H : Forall own_port (sendGroup d idx (group g idx) (n idx) (rs idx)).1).
  { unfold sendGroup. set (taken := match socks d !! _ with Some s => _ | None => [] end).
    pose proof (sendRest_ports d idx (drop (length taken) (group g idx)) (rs idx)) as H.
    destruct (sendRest _ _ _ _) as [os d1]. apply Forall_app_2; [|exact H]. unfold taken.
    destruct (socks d !! _); [|constructor]. apply Forall_fmap, Forall_true. intros it. by repeat constructor. }
  destruct (sendGroup _ _ _ _ _) as [o d1]. specialize (IH d1). destruct (sendGroups _ _ _ _ _) as [os d2].
  by apply Forall_app_2.
Qed.

Lemma firstErr_ok os : firstErr os = Ok tt ↔ Forall (λ a, result_ a = Ok tt) os.
Proof.
  unfold firstErr. induction os as [|a os IH]; [split; [constructor|done]|]. cbn [map]. rewrite filter_cons.
  destruct (result_ a) as [[]|err] eqn:E; cbn.
  - rewrite IH. split; [by constructor|by intros [_ ?]%Forall_cons].
  - split; [done|]. intros [H _]%Forall_cons. congruence.
Qed.

Lemma batch_spec d sub wires ds order n rs :
  dialer_wf d sub → order_ok order →
  let '(os, res, _) := sendBatch d wires ds order n rs in
  match chosen d wires ds with
  | None => os = [] ∧ res = Err ErrNoRoute
  | Some items =>
      placed os ≡ₚ items ∧ (∀ idx, onSocket idx (placed os) = onSocket idx items) ∧
      Forall (λ a, Forall (λ g, g.2 = port (item a) ∧ Contains (dpr d) g.2 = true) (handed a)) os ∧
      (res = Ok tt ↔ Forall (λ a, result_ a = Ok tt) os)
  end.
Proof.
  intros Hwf Ho. unfold sendBatch. pose proof (assign_spec d wires ds ∅) as Ha.
  destruct (assign d wires ds ∅) as [[g|] d1]; [|by rewrite Ha]. destruct Ha as (items & Hc & Hg). rewrite Hc.
  pose proof (λ idx, sendGroups_items d1 g (order g) n rs idx (proj1 (order_spec order g idx Ho))) as Hi.
  pose proof (sendGroups_ports d1 g (order g) n rs) as Hp. destruct (sendGroups d1 g (order g) n rs) as [os d2].
  cbn [fst] in *. assert (Hs : ∀ idx, onSocket idx (placed os) = onSocket idx items).
  { intros idx. rewrite Hi. pose proof (proj2 (order_spec order g idx Ho)) as Hk. specialize (Hg idx). cbn [app] in Hg.
    change (group ∅ idx) with (@nil batchItem) in Hg. cbn [app] in Hg. destruct (decide _) as [|Hn]; [done|].
    rewrite <- Hg. unfold group. destruct (g !! idx) eqn:E; [|done]. exfalso. apply Hn, Hk. by eexists. }
  pose proof (onSocket_perm _ _ Hs) as Hperm. split_and!; [done|done| |apply firstErr_ok].
  pose proof (chosen_range d sub wires ds items Hwf Hc) as Hr. rewrite <- Hperm in Hr. unfold placed in Hr.
  apply Forall_fmap in Hr. rewrite Forall_forall in Hp, Hr |- *. intros a Hin. eapply Forall_impl; [exact (Hp a Hin)|].
  cbv beta. intros gr E. specialize (Hr a Hin). cbn in Hr. apply (dw_sub _ _ Hwf) in Hr.
  destruct (dw_pr _ _ Hwf) as [ports Hpr]. pose proof (pro_range _ _ Hpr _ (proj1 (pro_mem _ _ Hpr _) Hr)).
  rewrite E, u16_small by lia. split; [done|]. by apply (Contains_expand ports).
Qed.


