(* ===== verification/SendSock.v ===== *)
(** The server's reply sockets: src/tunnel/sendsock.go.

    A [*pooledConn] is its identity, a key of [objs]; its socket is open while the
    identity is in [opens].  The code takes no lock on a hit and two separate locks
    otherwise, so each method is cut where another goroutine can come in between: one
    function per segment, put together sequentially here and interleaved by
    [pstep] of SendSockPool.  What the system answers to a bind or a write is an
    argument. *)
From S2P Require Import Prelude Spread.
Local Open Scope Z_scope.

Definition DefaultSendSockMax : Z := 512.

Record pooledConn := mkPC { pcPort : Z; refs : Z; lastUse : Z }.

Record sendSockPool := mkPool {
  limit : Z;
  pconns : gmap Z Z;             (* port -> *pooledConn *)
  total : Z;
  clock : Z;
  pclosed : bool;
  objs : gmap Z pooledConn;
  opens : gset Z;
}.

Definition set_pconns (p : sendSockPool) (m : gmap Z Z) (n : Z) : sendSockPool :=
  mkPool (limit p) m n (clock p) (pclosed p) (objs p) (opens p).
Definition set_objs (p : sendSockPool) (o : gmap Z pooledConn) : sendSockPool :=
  mkPool (limit p) (pconns p) (total p) (clock p) (pclosed p) o (opens p).
Definition set_opens (p : sendSockPool) (o : gset Z) : sendSockPool :=
  mkPool (limit p) (pconns p) (total p) (clock p) (pclosed p) (objs p) o.

Definition newSendSockPool (l : Z) : sendSockPool :=
  mkPool (if l <=? 0 then DefaultSendSockMax else l) ∅ 0 0 false ∅ ∅.

Definition refsOf (p : sendSockPool) (id : Z) : Z := default 0 (refs <$> objs p !! id).
Definition useOf (p : sendSockPool) (id : Z) : Z := default 0 (lastUse <$> objs p !! id).
Definition portOf (p : sendSockPool) (id : Z) : Z := default 0 (pcPort <$> objs p !! id).

(** [pc.lastUse.Store(p.nextStamp())] *)
Definition stamp (p : sendSockPool) (id : Z) : sendSockPool :=
  mkPool (limit p) (pconns p) (total p) (clock p + 1) (pclosed p)
    (alter (λ o, mkPC (pcPort o) (refs o) (clock p + 1)) id (objs p)) (opens p).

(** [pc.refs.Add(n)] *)
Definition addRefs (p : sendSockPool) (id n : Z) : sendSockPool :=
  set_objs p (alter (λ o, mkPC (pcPort o) (refs o + n) (lastUse o)) id (objs p)).

Definition addTotal (p : sendSockPool) (n : Z) : sendSockPool := set_pconns p (pconns p) (total p + n).

Definition closeSock (p : sendSockPool) (id : Z) : sendSockPool := set_opens p (opens p ∖ {[id]}).

(** * Segments of [Get] *)

Inductive get_error := GetBadPort | GetClosed | GetBindFailed.

Inductive lookup_result := Refused (e : get_error) | Hit (id : Z) | Miss.

(** Up to the fast path. *)
Definition getFast (p : sendSockPool) (port : Z) : lookup_result * sendSockPool :=
  if (port <=? 0) || (65535 <? port) then (Refused GetBadPort, p) else
  if pclosed p then (Refused GetClosed, p) else
  match pconns p !! port with
  | Some id => (Hit id, stamp p id)
  | None => (Miss, p)
  end.

(** Under [bindMu], up to the bind. *)
Definition getSlow (p : sendSockPool) (port : Z) : lookup_result * sendSockPool :=
  match pconns p !! port with
  | Some id => (Hit id, stamp p id)
  | None => if pclosed p then (Refused GetClosed, p) else (Miss, p)
  end.

(** The bind succeeded with socket [id]: stamp the new object and publish it. *)
Definition publish (p : sendSockPool) (port id : Z) : sendSockPool :=
  let p := set_opens (set_objs p (<[id := mkPC port 0 0]> (objs p))) ({[id]} ∪ opens p) in
  let p := stamp p id in
  set_pconns p (<[port := id]> (pconns p)) (total p).

(** * [reclaimOverflow] *)

Definition unpinned (p : sendSockPool) : list (Z * Z) :=
  filter (λ kv, refsOf p kv.2 = 0) (map_to_list (pconns p)).

Fixpoint oldest (p : sendSockPool) (cands : list (Z * Z)) : option (Z * Z) :=
  match cands with
  | [] => None
  | c :: cs =>
      match oldest p cs with
      | None => Some c
      | Some b => if useOf p b.2 <? useOf p c.2 then Some b else Some c
      end
  end.

(** One scan: the victim, if the pool overflows and something is not pinned. *)
Definition scan (p : sendSockPool) : option (Z * Z) :=
  if total p <=? limit p then None else oldest p (unpinned p).

Inductive evict_outcome := EvictPinned | EvictGone | EvictOther (id : Z) | Evicted.

(** The second look at the victim and the removal of whatever its port holds. *)
Definition evict (p : sendSockPool) (v : Z * Z) : evict_outcome * sendSockPool :=
  if negb (refsOf p v.2 =? 0) then (EvictPinned, stamp p v.2) else
  match pconns p !! v.1 with
  | None => (EvictGone, p)
  | Some id =>
      if id =? v.2 then (Evicted, set_pconns p (delete v.1 (pconns p)) (total p - 1))
      else (EvictOther id, set_pconns p (delete v.1 (pconns p)) (total p))
  end.

Fixpoint reclaimLoop (fuel : nat) (p : sendSockPool) : sendSockPool :=
  match fuel with
  | O => p
  | S fuel =>
      match scan p with
      | None => p
      | Some v => match evict p v with (Evicted, p) => reclaimLoop fuel (closeSock p v.2) | (_, p) => p end
      end
  end.

(** Every turn but the last removes an entry. *)
Definition reclaimOverflow (p : sendSockPool) : sendSockPool := reclaimLoop (S (size (pconns p))) p.

(** After a publication: pin the newcomer while the overflow is reclaimed. *)
Definition reclaimFor (p : sendSockPool) (id : Z) : sendSockPool :=
  if limit p <? total p then addRefs (reclaimOverflow (addRefs p id 1)) id (-1) else p.

(** * The methods, run without interference *)

(** [Get]; [bind] is the socket the system binds to the port, if it does. *)
Definition Get (p : sendSockPool) (port : Z) (bind : option Z) : result Z get_error * sendSockPool :=
  match getFast p port with
  | (Refused e, p) => (Err e, p)
  | (Hit id, p) => (Ok id, p)
  | (Miss, p) =>
      match getSlow p port with
      | (Refused e, p) => (Err e, p)
      | (Hit id, p) => (Ok id, p)
      | (Miss, p) =>
          match bind with
          | None => (Err GetBindFailed, p)
          | Some id => (Ok id, reclaimFor (addTotal (publish p port id) 1) id)
          end
      end
  end.

(** The end of [writeOnce]: drop the pin and reclaim if it was the last. *)
Definition unpinWrite (p : sendSockPool) (id : Z) : sendSockPool :=
  let p := addRefs p id (-1) in
  if (refsOf p id =? 0) && (limit p <? total p) then reclaimOverflow p else p.

Definition writeOnce (p : sendSockPool) (id : Z) (w : option write_error) : option write_error * sendSockPool :=
  (w, unpinWrite (addRefs p id 1) id).

(** [repairAndRetry] under [bindMu], up to the bind: use another's replacement, or
    take the broken socket out. *)
Inductive repair_result := RepairClosed | RepairUse (id : Z) | RepairBind.

Definition repairTake (p : sendSockPool) (broken : Z) : repair_result * sendSockPool :=
  if pclosed p then (RepairClosed, p) else
  match pconns p !! portOf p broken with
  | Some id =>
      if id =? broken
      then (RepairBind, closeSock (set_pconns p (delete (portOf p broken) (pconns p)) (total p - 1)) broken)
      else (RepairUse id, stamp p id)
  | None => (RepairBind, closeSock p broken)
  end.

Inductive write_outcome := Written | WriteFailed | RebindFailed.

Definition outcome (w : option write_error) : write_outcome :=
  match w with None => Written | Some _ => WriteFailed end.

(** [WriteToUDPAddrPort] with [repairAndRetry]: [writes] are the outcomes of the
    successive writes, [fuel] bounds the hand-overs to another's replacement, of
    which there is none without interference. *)
Fixpoint WriteToUDPAddrPort (fuel : nat) (p : sendSockPool) (id : Z) (writes : list (option write_error))
    (rebind : option Z) : write_outcome * sendSockPool :=
  let '(w, p) := writeOnce p id (default None (head writes)) in
  if negb (shouldReopenUDPWriteError w) then (outcome w, p) else
  if portOf p id <=? 0 then (WriteFailed, p) else
  match repairTake p id with
  | (RepairClosed, p) => (WriteFailed, p)
  | (RepairUse id, p) =>
      match fuel with O => (WriteFailed, p) | S fuel => WriteToUDPAddrPort fuel p id (tail writes) rebind end
  | (RepairBind, p) =>
      match rebind with
      | None => (RebindFailed, p)
      | Some r =>
          let p := reclaimFor (addTotal (publish p (portOf p id) r) 1) r in
          let '(w, p) := writeOnce p r (default None (head (tail writes))) in (outcome w, p)
      end
  end.

Definition PoolLen (p : sendSockPool) : Z := total p.

Definition closeFlag (p : sendSockPool) : sendSockPool :=
  mkPool (limit p) (pconns p) (total p) (clock p) true (objs p) (opens p).

(** One entry of [Close]'s walk. *)
Definition closeEntry (p : sendSockPool) (kv : Z * Z) : sendSockPool :=
  let p := if bool_decide (pconns p !! kv.1 = Some kv.2)
           then set_pconns p (delete kv.1 (pconns p)) (total p - 1) else p in
  closeSock p kv.2.

Definition PoolClose (p : sendSockPool) : sendSockPool :=
  let p := closeFlag p in foldl closeEntry p (map_to_list (pconns p)).
