(* ===== verification/SendSockPool.v ===== *)
(** The reply-socket pool of src/tunnel/sendsock.go under concurrency: goroutines that
    get, bind, write, repair and evict, and [Close], interleaved segment by segment. *)
From S2P Require Import Prelude Spread SendSock.
Local Open Scope Z_scope.

(** * Goroutines *)

(** What a goroutine does after [reclaimOverflow]: unpin the socket it published and
    return it to its caller or write through it; nothing; repair. *)
Inductive after := KGot (id : Z) | KFixed (id : Z) | KDone | KBroken (id : Z).

Inductive thread :=
| TGot (id : Z)                      (* [Get] returned *)
| TBinding (port : Z)                (* [Get], holding bindMu, at the bind *)
| TCount (id : Z)                    (* [Get], published, at total.Add *)
| TWriting (id : Z) (again : bool)   (* pinned, in the write *)
| TRepair (id : Z)                   (* the write failed for good *)
| TRebinding (port : Z)              (* [repairAndRetry], holding bindMu, at the bind *)
| TFixed (id : Z)                    (* repaired, at the retry *)
| TReclaim (k : after)               (* at the lock of evictMu *)
| TEvicting (k : after)              (* holding evictMu, at the top of the loop *)
| TVictim (v : Z * Z) (k : after)    (* holding evictMu, victim chosen *)
| TClosing (id : Z) (k : after).     (* holding evictMu, victim removed *)

Definition holdsBind (t : thread) : bool := match t with TBinding _ | TRebinding _ => true | _ => false end.
Definition holdsEvict (t : thread) : bool :=
  match t with TEvicting _ | TVictim _ _ | TClosing _ _ => true | _ => false end.

(** Leaving [reclaimOverflow]. *)
Definition resume (p : sendSockPool) (k : after) : sendSockPool * list thread :=
  match k with
  | KGot id => (addRefs p id (-1), [TGot id])
  | KFixed id => (addRefs p id (-1), [TFixed id])
  | KDone => (p, [])
  | KBroken id => (p, [TRepair id])
  end.

(** After a publication or at the end of a write: reclaim if the pool overflows. *)
Definition published (p : sendSockPool) (id : Z) (t : thread) (k : after) : sendSockPool * list thread :=
  if limit p <? total p then (addRefs p id 1, [TReclaim k]) else (p, [t]).

Definition wrote (p : sendSockPool) (id : Z) (k : after) : sendSockPool * list thread :=
  let p := addRefs p id (-1) in
  if (refsOf p id =? 0) && (limit p <? total p) then (p, [TReclaim k]) else resume p k.

(** One segment of one goroutine, next to [others]; the last component counts
    entries removed by mistake. *)
Inductive tstep (others : list thread) (p : sendSockPool) : thread → sendSockPool * list thread → Z → Prop :=
| TSDrop id : tstep others p (TGot id) (p, []) 0
| TSWrite id : tstep others p (TGot id) (addRefs p id 1, [TWriting id true]) 0
| TSRetry id : tstep others p (TFixed id) (addRefs p id 1, [TWriting id false]) 0
| TSWrote id again w :
    tstep others p (TWriting id again) (wrote p id (if again && shouldReopenUDPWriteError w then KBroken id else KDone)) 0
| TSBindFail port : tstep others p (TBinding port) (p, []) 0
| TSBind port id : objs p !! id = None → (∀ i, i ∈ opens p → portOf p i ≠ port) →
    tstep others p (TBinding port) (publish p port id, [TCount id]) 0
| TSCount id : tstep others p (TCount id) (published (addTotal p 1) id (TGot id) (KGot id)) 0
| TSRepairClosed id p' : existsb holdsBind others = false → repairTake p id = (RepairClosed, p') →
    tstep others p (TRepair id) (p', []) 0
| TSRepairUse id id' p' : existsb holdsBind others = false → repairTake p id = (RepairUse id', p') →
    tstep others p (TRepair id) (p', [TGot id']) 0
| TSRepairBind id p' : existsb holdsBind others = false → repairTake p id = (RepairBind, p') →
    tstep others p (TRepair id) (p', [TRebinding (portOf p id)]) 0
| TSRebindFail port : tstep others p (TRebinding port) (p, []) 0
| TSRebind port id : objs p !! id = None → (∀ i, i ∈ opens p → portOf p i ≠ port) →
    tstep others p (TRebinding port) (published (addTotal (publish p port id) 1) id (TFixed id) (KFixed id)) 0
| TSLock k : existsb holdsEvict others = false → tstep others p (TReclaim k) (p, [TEvicting k]) 0
| TSScan k v : scan p = Some v → tstep others p (TEvicting k) (p, [TVictim v k]) 0
| TSStop k : scan p = None → tstep others p (TEvicting k) (resume p k) 0
| TSEvict v k p' : evict p v = (Evicted, p') → tstep others p (TVictim v k) (p', [TClosing v.2 k]) 0
| TSOther v k id p' : evict p v = (EvictOther id, p') → tstep others p (TVictim v k) (resume p' k) 1
| TSLeave v k o p' : evict p v = (o, p') → o = EvictPinned ∨ o = EvictGone →
    tstep others p (TVictim v k) (resume p' k) 0
| TSClose id k : tstep others p (TClosing id k) (closeSock p id, [TEvicting k]) 0.

Record pworld := mkPWorld {
  pool : sendSockPool;
  threads : list thread;
  lost : Z;                          (* entries removed without being counted *)
  walking : bool;                    (* [Close] is walking the map *)
}.

Inductive pstep (w : pworld) : pworld → Prop :=
| PThread l1 t l2 p ts n :
    threads w = l1 ++ t :: l2 → tstep (l1 ++ l2) (pool w) t (p, ts) n →
    pstep w (mkPWorld p (l1 ++ ts ++ l2) (lost w + n) (walking w))
| PHit port id p :
    getFast (pool w) port = (Hit id, p) → pstep w (mkPWorld p (TGot id :: threads w) (lost w) (walking w))
| PSlow port p :
    1 ≤ port ≤ 65535 → existsb holdsBind (threads w) = false → getSlow (pool w) port = (Miss, p) →
    pstep w (mkPWorld p (TBinding port :: threads w) (lost w) (walking w))
| PCloseFlag :
    pclosed (pool w) = false → pstep w (mkPWorld (closeFlag (pool w)) (threads w) (lost w) true)
| PCloseEntry port id :
    walking w = true → pconns (pool w) !! port = Some id →
    pstep w (mkPWorld (closeEntry (pool w) (port, id)) (threads w) (lost w) true)
| PCloseEnd :
    walking w = true → pstep w (mkPWorld (pool w) (threads w) (lost w) false).

Definition newPWorld (l : Z) : pworld := mkPWorld (newSendSockPool l) [] 0 false.

(** * The invariant *)

Definition pinOfK (id : Z) (k : after) : Z :=
  match k with KGot i | KFixed i => if i =? id then 1 else 0 | _ => 0 end.
Definition pinOf (id : Z) (t : thread) : Z :=
  match t with
  | TWriting i _ => if i =? id then 1 else 0
  | TReclaim k | TEvicting k | TVictim _ k | TClosing _ k => pinOfK id k
  | _ => 0
  end.
Definition sumZ (f : thread → Z) (ts : list thread) : Z := foldr (λ t n, f t + n) 0 ts.
Definition pins (id : Z) : list thread → Z := sumZ (pinOf id).
Definition bindZ (t : thread) : Z := if holdsBind t then 1 else 0.
Definition counting (t : thread) : Z := match t with TCount _ => 1 | _ => 0 end.

(** The objects a goroutine has in hand exist; one it is about to close is out of the
    map. *)
Definition knownK (p : sendSockPool) (k : after) : Prop :=
  match k with KGot i | KFixed i | KBroken i => is_Some (objs p !! i) | KDone => True end.
Definition thread_ok (p : sendSockPool) (t : thread) : Prop :=
  match t with
  | TGot i | TCount i | TWriting i _ | TRepair i | TFixed i => is_Some (objs p !! i)
  | TBinding port | TRebinding port => 1 ≤ port ≤ 65535 ∧ pconns p !! port = None
  | TReclaim k | TEvicting k => knownK p k
  | TVictim v k => knownK p k ∧ is_Some (objs p !! v.2)
  | TClosing i k => knownK p k ∧ is_Some (objs p !! i) ∧ ∀ port, pconns p !! port ≠ Some i
  end.

Record pool_ok (p : sendSockPool) : Prop := {
  po_entry : ∀ port id, pconns p !! port = Some id →
    id ∈ opens p ∧ ∃ o, objs p !! id = Some o ∧ pcPort o = port ∧ 1 ≤ port ≤ 65535;
  po_port : ∀ id o, objs p !! id = Some o → 1 ≤ pcPort o ≤ 65535;
  po_stamp : ∀ id o, objs p !! id = Some o → lastUse o ≤ clock p;
  po_distinct : ∀ i j o o', objs p !! i = Some o → objs p !! j = Some o' → i ≠ j → lastUse o ≠ lastUse o';
}.

Record pinv (w : pworld) : Prop := {
  pi_ok : pool_ok (pool w);
  pi_threads : Forall (thread_ok (pool w)) (threads w);
  pi_bind : sumZ bindZ (threads w) ≤ 1;
  pi_refs : ∀ id o, objs (pool w) !! id = Some o → refs o = pins id (threads w);
  pi_total : total (pool w) + sumZ counting (threads w) = Z.of_nat (size (pconns (pool w))) + lost w;
}.

(** * Sums over goroutines *)

Lemma sumZ_app f l1 l2 : sumZ f (l1 ++ l2) = sumZ f l1 + sumZ f l2.
Proof. induction l1 as [|t l1 IH]; [done|]. unfold sumZ in *. cbn. lia. Qed.

Lemma sumZ_cons f t l : sumZ f (t :: l) = f t + sumZ f l.
Proof. done. Qed.

Lemma sumZ_nonneg f l : (∀ t, 0 ≤ f t) → 0 ≤ sumZ f l.
Proof. intros H. induction l as [|t l IH]; [done|]. rewrite sumZ_cons. specialize (H t). lia. Qed.

Lemma no_binder l : existsb holdsBind l = false → sumZ bindZ l = 0.
Proof.
  induction l as [|t l IH]; [done|]. cbn [existsb]. intros [H1 H2]%orb_false_iff. rewrite sumZ_cons, IH by done.
  unfold bindZ. by rewrite H1.
Qed.

Lemma one_binder l : sumZ bindZ l = 0 → Forall (λ t, holdsBind t = false) l.
Proof.
  induction l as [|t l IH]; intros H; [done|]. rewrite sumZ_cons in H.
  pose proof (sumZ_nonneg bindZ l ltac:(intros t'; unfold bindZ; destruct (holdsBind t'); lia)).
  unfold bindZ at 1 in H. destruct (holdsBind t) eqn:E; [lia|]. constructor; [done|]. apply IH. lia.
Qed.

Lemma pinOf_unknown p t i : thread_ok p t → objs p !! i = None → pinOf i t = 0.
Proof.
  intros Ht Hi. assert (Hk : ∀ k, knownK p k → pinOfK i k = 0).
  { intros [j|j| |j] Hk; try done; cbn in *; destruct (Z.eqb_spec j i) as [->|]; try done; rewrite Hi in Hk; by destruct Hk. }
  destruct t; cbn in *; try done; try (by apply Hk); try (by apply Hk, Ht).
  destruct (Z.eqb_spec id i) as [->|]; [|done]. rewrite Hi in Ht. by destruct Ht.
Qed.

Lemma pins_unknown p l i : Forall (thread_ok p) l → objs p !! i = None → pins i l = 0.
Proof.
  intros H Hi. induction H as [|t l Ht _ IH]; [done|]. unfold pins in *. by rewrite sumZ_cons, IH, (pinOf_unknown p).
Qed.

(** * Operations on the pool *)

Lemma addRefs_lookup p id n i : objs (addRefs p id n) !! i =
  if decide (i = id) then (λ o, mkPC (pcPort o) (refs o + n) (lastUse o)) <$> objs p !! i else objs p !! i.
Proof. cbn. case_decide as E; [subst; by rewrite lookup_alter_eq|by rewrite lookup_alter_ne]. Qed.

Lemma stamp_lookup p id i : objs (stamp p id) !! i =
  if decide (i = id) then (λ o, mkPC (pcPort o) (refs o) (clock p + 1)) <$> objs p !! i else objs p !! i.
Proof. cbn. case_decide as E; [subst; by rewrite lookup_alter_eq|by rewrite lookup_alter_ne]. Qed.

(** Objects change, if at all, in their counts. *)
Lemma addRefs_ok p id n : pool_ok p → pool_ok (addRefs p id n).
Proof.
  intros [He Hp Hs Hd].
  assert (H : ∀ i o', objs (addRefs p id n) !! i = Some o' →
    ∃ o, objs p !! i = Some o ∧ pcPort o' = pcPort o ∧ lastUse o' = lastUse o).
  { intros i o'. rewrite addRefs_lookup. case_decide; [|by exists o'].
    destruct (objs p !! i) as [o|]; [|done]. intros [= <-]. by exists o. }
  split.
  - intros port i Hi. destruct (He port i Hi) as [Ho (o & Hl & Hpo)]. split; [done|].
    pose proof (addRefs_lookup p id n i) as E. rewrite Hl in E. case_decide; eexists; split; try done; by cbn.
  - intros i o (o' & Hl & -> & _)%H. by eapply Hp.
  - intros i o (o' & Hl & _ & ->)%H. by eapply Hs.
  - intros i j o o' (o1 & H1 & _ & ->)%H (o2 & H2 & _ & ->)%H. by eapply Hd.
Qed.

Lemma stamp_ok p id : pool_ok p → pool_ok (stamp p id).
Proof.
  intros [He Hp Hs Hd].
  assert (H : ∀ i o', objs (stamp p id) !! i = Some o' →
    ∃ o, objs p !! i = Some o ∧ pcPort o' = pcPort o ∧ (lastUse o' = lastUse o ∨ i = id ∧ lastUse o' = clock p + 1)).
  { intros i o'. rewrite stamp_lookup. case_decide as E; [|by exists o'; split_and!; [| |left]].
    destruct (objs p !! i) as [o|]; [|done]. intros [= <-]. exists o. split_and!; [done|done|by right]. }
  split.
  - intros port i Hi. destruct (He port i Hi) as [Ho (o & Hl & Hpo)]. split; [done|].
    pose proof (stamp_lookup p id i) as E. rewrite Hl in E. case_decide; eexists; split; try done; by cbn.
  - intros i o (o' & Hl & -> & _)%H. by eapply Hp.
  - intros i o (o' & Hl & _ & Hu)%H. specialize (Hs _ _ Hl). cbn. destruct Hu as [->|[_ ->]]; lia.
  - intros i j o o' (o1 & H1 & _ & U1)%H (o2 & H2 & _ & U2)%H Hij. pose proof (Hs _ _ H1). pose proof (Hs _ _ H2).
    destruct U1 as [->|[-> ->]], U2 as [->|[-> ->]]; [by eapply Hd|lia|lia|done].
Qed.

(** Entries go, sockets out of the map close. *)
Lemma shrink_ok p m n o : pool_ok p → (∀ port id, m !! port = Some id → pconns p !! port = Some id ∧ id ∈ o) →
  pool_ok (set_opens (set_pconns p m n) o).
Proof.
  intros [He Hp Hs Hd] Hm. split; cbn; try done. intros port id Hi. destruct (Hm _ _ Hi) as [H1 H2].
  destruct (He _ _ H1) as [_ H3]. by split.
Qed.

Lemma publish_lookup p port id i : objs (publish p port id) !! i =
  if decide (i = id) then Some (mkPC port 0 (clock p + 1)) else objs p !! i.
Proof.
  unfold publish. cbn [set_pconns objs]. rewrite stamp_lookup. cbn [objs set_opens set_objs clock].
  case_decide as E; [subst; by rewrite lookup_insert_eq|by rewrite lookup_insert_ne].
Qed.

Lemma publish_ok p port id : pool_ok p → objs p !! id = None → 1 ≤ port ≤ 65535 → pool_ok (publish p port id).
Proof.
  intros [He Hp Hs Hd] Hid Hport. split.
  - intros q i. cbn [publish set_pconns pconns opens stamp set_opens]. intros Hq.
    destruct (decide (q = port)) as [->|Hne].
    + rewrite lookup_insert_eq in Hq. injection Hq as <-. split; [set_solver|]. exists (mkPC port 0 (clock p + 1)). split; [|done].
      change (objs _) with (objs (publish p port id)). rewrite publish_lookup. by rewrite decide_True.
    + rewrite lookup_insert_ne in Hq by done. destruct (He _ _ Hq) as [Ho (o & Hl & Hpo)]. split; [set_solver|].
      exists o. split; [|done]. change (objs _) with (objs (publish p port id)). rewrite publish_lookup.
      by rewrite decide_False by congruence.
  - intros i o. rewrite publish_lookup. case_decide; [by intros [= <-]|apply Hp].
  - intros i o. rewrite publish_lookup. change (clock (publish p port id)) with (clock p + 1).
    case_decide; [intros [= <-]; cbn; lia|]. intros Hi%Hs. lia.
  - intros i j o o'. rewrite !publish_lookup. repeat case_decide; intros Hi Hj Hij; simplify_eq.
    + pose proof (Hs _ _ Hj). cbn. lia.
    + pose proof (Hs _ _ Hi). cbn. lia.
    + by eapply Hd.
Qed.

(** * What a segment does *)

Definition sizeZ (p : sendSockPool) : Z := Z.of_nat (size (pconns p)).

(** From pool [p] with goroutine [t] to [p'] with [ts] in its place. *)
Record effect (others : list thread) (p : sendSockPool) (t : thread) (r : sendSockPool * list thread) (n : Z) : Prop := {
  ef_ok : pool_ok r.1;
  ef_dom : ∀ i, is_Some (objs p !! i) → is_Some (objs r.1 !! i);
  ef_conns : ∀ port id, pconns r.1 !! port = Some id →
    pconns p !! port = Some id ∨ (objs p !! id = None ∧ holdsBind t = true);
  ef_refs : ∀ i o', objs r.1 !! i = Some o' → refs o' = refsOf p i + pins i r.2 - pinOf i t;
  ef_total : total r.1 + sumZ counting r.2 - sizeZ r.1 - n = total p + counting t - sizeZ p;
  ef_bind : sumZ bindZ r.2 ≤ bindZ t ∨ (existsb holdsBind others = false ∧ sumZ bindZ r.2 ≤ 1);
  ef_threads : Forall (thread_ok r.1) r.2;
}.

Lemma thread_ok_mono p p' t : thread_ok p t →
  (∀ i, is_Some (objs p !! i) → is_Some (objs p' !! i)) →
  (∀ port id, pconns p' !! port = Some id → pconns p !! port = Some id ∨ (objs p !! id = None ∧ holdsBind t = false)) →
  thread_ok p' t.
Proof.
  intros Ht Hd Hc. assert (Hk : ∀ k, knownK p k → knownK p' k) by (intros [j|j| |j]; cbn; auto).
  assert (Hnone : ∀ port, holdsBind t = true → pconns p !! port = None → pconns p' !! port = None).
  { intros port Hb Hp. destruct (pconns p' !! port) as [id|] eqn:E; [|done].
    destruct (Hc _ _ E) as [?|[_ ?]]; congruence. }
  destruct t; cbn in *; auto; try (destruct Ht as [H1 H2]; auto).
  destruct H2 as [H2 H3]. split_and!; auto. intros port E. destruct (Hc _ _ E) as [?|[Hn _]]; [by eapply H3|].
  rewrite Hn in H2. by destruct H2.
Qed.

Lemma effect_inv w l1 t l2 r n : pinv w → threads w = l1 ++ t :: l2 → effect (l1 ++ l2) (pool w) t r n →
  pinv (mkPWorld r.1 (l1 ++ r.2 ++ l2) (lost w + n) (walking w)).
Proof.
  intros [Hok Ht Hb Hr Htot] Hl [E1 E2 E3 E4 E5 E6 E7]. rewrite Hl in *.
  apply Forall_app in Ht as [Ht1 Ht2]. apply Forall_cons in Ht2 as [Ht Ht2].
  rewrite sumZ_app, sumZ_cons in Hb, Htot.
  pose proof (λ l, sumZ_nonneg bindZ l ltac:(intros t'; unfold bindZ; destruct (holdsBind t'); lia)) as Hnn.
  pose proof (Hnn l1). pose proof (Hnn l2). pose proof (Hnn r.2).
  assert (Hmono : ∀ l, Forall (thread_ok (pool w)) l → (bindZ t = 1 → sumZ bindZ l = 0) → Forall (thread_ok r.1) l).
  { intros l Hok' Hz. apply Forall_forall. intros t' Hin. pose proof (proj1 (Forall_forall _ _) Hok' t' Hin) as Ht'.
    eapply thread_ok_mono; [exact Ht'|done|]. intros port id [Hc|[Hc Hbt]]%E3; [by left|right]. split; [done|].
    assert (Hbz : bindZ t = 1) by (unfold bindZ; by rewrite Hbt). specialize (Hz Hbz).
    exact (proj1 (Forall_forall _ _) (one_binder _ Hz) t' Hin). }
  split; cbn [pool threads lost].
  - done.
  - rewrite !Forall_app. split_and!; [apply Hmono; [done|lia]|done|apply Hmono; [done|lia]].
  - rewrite !sumZ_app.
    destruct E6 as [E6|[E6 E6']]; [lia|]. apply no_binder in E6. rewrite sumZ_app in E6. lia.
  - intros id o Ho. rewrite (E4 _ _ Ho). unfold pins. rewrite !sumZ_app. fold (pins id).
    unfold refsOf. destruct (objs (pool w) !! id) as [o0|] eqn:Hi.
    + cbn. rewrite (Hr _ _ Hi). unfold pins. rewrite sumZ_app, sumZ_cons. lia.
    + cbn. rewrite (pins_unknown _ _ _ Ht1 Hi), (pins_unknown _ _ _ Ht2 Hi), (pinOf_unknown _ _ _ Ht Hi). lia.
  - rewrite !sumZ_app. unfold sizeZ in *. lia.
Qed.

Lemma addRefs_refs p id n i o : objs (addRefs p id n) !! i = Some o → refs o = refsOf p i + (if id =? i then n else 0).
Proof.
  rewrite addRefs_lookup. unfold refsOf. case_decide as E; destruct (objs p !! i) as [o0|]; try done; intros [= <-]; cbn.
  - subst. by rewrite Z.eqb_refl.
  - destruct (Z.eqb_spec id i); [congruence|lia].
Qed.

Lemma addRefs_dom p id n i : is_Some (objs (addRefs p id n) !! i) ↔ is_Some (objs p !! i).
Proof. rewrite addRefs_lookup. case_decide; [|done]. by rewrite fmap_is_Some. Qed.

Lemma refsOf_Some p i o : objs p !! i = Some o → refs o = refsOf p i.
Proof. unfold refsOf. by intros ->. Qed.

(** Entries go and stamps change; nobody is pinned or counted. *)
Record quiet (p p1 : sendSockPool) (n : Z) : Prop := {
  qu_ok : pool_ok p1;
  qu_objs : ∀ i, refsOf p1 i = refsOf p i ∧ (is_Some (objs p1 !! i) ↔ is_Some (objs p !! i));
  qu_conns : ∀ port id, pconns p1 !! port = Some id → pconns p !! port = Some id;
  qu_total : total p1 - sizeZ p1 - n = total p - sizeZ p;
}.

Lemma effect_quiet others p p1 t r n m : quiet p p1 n → effect others p1 t r m → effect others p t r (n + m).
Proof.
  intros [Q1 Q2 Q3 Q4] [E1 E2 E3 E4 E5 E6 E7]. split; try done.
  - intros i Hi. by apply E2, Q2.
  - intros port id [Hc|[Hn Hb]]%E3; [left; by apply Q3|right]. split; [|done].
    destruct (objs p !! id) eqn:Eo; [|done]. destruct (proj2 (proj2 (Q2 id))) as [o Ho]; [by eexists|]. congruence.
  - intros i o' Ho. rewrite (E4 _ _ Ho). by rewrite (proj1 (Q2 i)).
  - lia.
Qed.

Lemma quiet_stamp p id : pool_ok p → quiet p (stamp p id) 0.
Proof.
  intros Hok. split; [by apply stamp_ok| |done|cbn; unfold sizeZ; cbn; lia].
  intros i. unfold refsOf. rewrite stamp_lookup. case_decide; [|done].
  destruct (objs p !! i); [|done]. split; [done|]. split; by eexists.
Qed.

Lemma quiet_shrink p m n o c : pool_ok p →
  (∀ port id, m !! port = Some id → pconns p !! port = Some id ∧ id ∈ o) → n - Z.of_nat (size m) - c = total p - sizeZ p →
  quiet p (set_opens (set_pconns p m n) o) c.
Proof.
  intros Hok Hm Hn. split; [by apply shrink_ok|done|by intros; apply Hm|]. unfold sizeZ at 1. cbn. done.
Qed.

(** Leaving [reclaimOverflow]. *)
Lemma effect_resume others p t k : pool_ok p → knownK p k → (∀ i, pinOf i t = pinOfK i k) → bindZ t = 0 → counting t = 0 →
  effect others p t (resume p k) 0.
Proof.
  intros Hok Hk Hpin Hb Hc.
  assert (Hz : ∀ i, 0 = if i =? i then 0 else 1) by (intros; by rewrite Z.eqb_refl).
  destruct k as [id|id| |id]; cbn [resume pinOfK] in *.
  1,2: split; cbn [fst snd];
    [by apply addRefs_ok|by intros i; rewrite addRefs_dom|by left
    |intros i o' Ho; rewrite (addRefs_refs _ _ _ _ _ Ho), Hpin; cbn; destruct (id =? i); lia
    |unfold sizeZ; cbn; lia|left; cbn; lia|constructor; [by apply addRefs_dom|done]].
  all: split; cbn [fst snd]; try done; try (by left);
    try (intros i o' Ho; rewrite (refsOf_Some _ _ _ Ho), Hpin; cbn; lia);
    try (cbn; lia); try (left; cbn; lia); by constructor.
Qed.

(** A goroutine that goes on under another name. *)
Lemma effect_rename others p t t' : pool_ok p → thread_ok p t' → (∀ i, pinOf i t = pinOf i t') → bindZ t' ≤ bindZ t →
  counting t = counting t' → effect others p t (p, [t']) 0.
Proof.
  intros Hok Ht Hp Hb Hc. split; cbn [fst snd]; try done; try (by left).
  - intros i o' Ho. rewrite (refsOf_Some _ _ _ Ho), Hp. unfold pins. rewrite sumZ_cons. cbn. lia.
  - rewrite sumZ_cons. cbn. lia.
  - left. rewrite sumZ_cons. cbn. lia.
  - by constructor.
Qed.

(** A published socket, with or without the reclaiming pass. *)
Lemma effect_published others p p1 t id t' k : pool_ok p1 →
  (∀ i, is_Some (objs p !! i) → is_Some (objs p1 !! i)) →
  (∀ port i, pconns p1 !! port = Some i → pconns p !! port = Some i ∨ (objs p !! i = None ∧ holdsBind t = true)) →
  (∀ i o, objs p1 !! i = Some o → refs o = refsOf p i) → (∀ i, pinOf i t = 0) →
  total p1 - sizeZ p1 = total p + counting t - sizeZ p → is_Some (objs p1 !! id) →
  (t' = TGot id ∧ k = KGot id) ∨ (t' = TFixed id ∧ k = KFixed id) →
  effect others p t (published p1 id t' k) 0.
Proof.
  intros Hok Hd Hc Hr Hpin Htot Hid Ht.
  assert (Hb0 : 0 ≤ bindZ t) by (unfold bindZ; destruct (holdsBind t); lia). unfold published.
  destruct (limit p1 <? total p1); destruct Ht as [[-> ->]|[-> ->]]; split; cbn [fst snd]; try done;
    try (by apply addRefs_ok); try (by intros i Hi; rewrite ?addRefs_dom; apply Hd);
    try (unfold sizeZ in *; cbn; lia); try (left; cbn; lia); try (by constructor; [try apply addRefs_dom|]).
  1,2: intros i o' Ho; rewrite (addRefs_refs _ _ _ _ _ Ho), Hpin; cbn;
    assert (E : refsOf p1 i = refsOf p i) by
      (unfold refsOf at 1; rewrite addRefs_lookup in Ho; destruct (objs p1 !! i) eqn:E; [by apply Hr|by case_decide]);
    rewrite E; destruct (id =? i); lia.
  all: intros i o' Ho; rewrite (Hr _ _ Ho), Hpin; cbn; lia.
Qed.

(** Only its own port can hold an object. *)
Lemma entry_port p port id : pool_ok p → pconns p !! port = Some id → portOf p id = port.
Proof. intros Hok Hi. destruct (po_entry _ Hok _ _ Hi) as [_ (o & Ho & <- & _)]. unfold portOf. by rewrite Ho. Qed.

(** Taking an entry out, and closing what is not in the map. *)
Lemma quiet_delete p port id n c o : pool_ok p → pconns p !! port = Some id → n - (sizeZ p - 1) - c = total p - sizeZ p →
  (∀ q i, delete port (pconns p) !! q = Some i → i ∈ opens p → i ∈ o) →
  quiet p (set_opens (set_pconns p (delete port (pconns p)) n) o) c.
Proof.
  intros Hok Hi Hn Ho. apply quiet_shrink; [done| |].
  - intros q i Hq. pose proof Hq as Hq'. apply lookup_delete_Some in Hq as [_ Hq]. split; [done|].
    apply (Ho _ _ Hq'). by apply (po_entry _ Hok _ _ Hq).
  - assert (E : Z.of_nat (size (delete port (pconns p))) = sizeZ p - 1).
    { rewrite map_size_delete, Hi. unfold sizeZ.
      assert (size (pconns p) ≠ 0%nat) by (apply map_size_ne_0_lookup; eauto). lia. }
    lia.
Qed.

Lemma set_opens_same p m n : set_opens (set_pconns p m n) (opens p) = set_pconns p m n.
Proof. done. Qed.

Lemma deleted_gone p port id : pool_ok p → pconns p !! port = Some id →
  ∀ q, delete port (pconns p) !! q ≠ Some id.
Proof.
  intros Hok Hi q [Hne Hq]%lookup_delete_Some. apply Hne.
  by rewrite <- (entry_port _ _ _ Hok Hi), (entry_port _ _ _ Hok Hq).
Qed.

(** The outcomes of [evict]. *)
Lemma evict_quiet p v : pool_ok p →
  let '(o, p') := evict p v in
  match o with
  | Evicted => quiet p p' 0 ∧ ∀ q, pconns p' !! q ≠ Some v.2
  | EvictOther _ => quiet p p' 1
  | EvictPinned | EvictGone => quiet p p' 0
  end.
Proof.
  intros Hok. unfold evict. destruct (negb _); [by apply quiet_stamp|].
  destruct (pconns p !! v.1) as [id|] eqn:Hi; [|by split; [|done|done|lia]].
  destruct (Z.eqb_spec id v.2) as [->|Hne].
  - split; [|by apply deleted_gone]. rewrite <- set_opens_same. apply (quiet_delete p v.1 v.2); [done|done|lia|done].
  - rewrite <- set_opens_same. apply (quiet_delete p v.1 id); [done|done|lia|done].
Qed.

(** Closing a socket that no entry names. *)
Lemma closeSock_quiet p id : pool_ok p → (∀ q, pconns p !! q ≠ Some id) → quiet p (closeSock p id) 0.
Proof.
  intros Hok Hgone. change (closeSock p id) with (set_opens (set_pconns p (pconns p) (total p)) (opens p ∖ {[id]})).
  apply quiet_shrink; [done| |unfold sizeZ; lia]. intros q j Hq. split; [done|]. apply elem_of_difference.
  split; [by apply (po_entry _ Hok _ _ Hq)|]. intros ->%elem_of_singleton. by apply (Hgone q).
Qed.

Lemma repair_quiet p id : pool_ok p → is_Some (objs p !! id) →
  let '(r, p') := repairTake p id in quiet p p' 0 ∧
  match r with
  | RepairBind => 1 ≤ portOf p id ≤ 65535 ∧ pconns p' !! portOf p id = None
  | RepairUse id' => is_Some (objs p' !! id')
  | RepairClosed => True
  end.
Proof.
  intros Hok [o Ho]. assert (Hport : 1 ≤ portOf p id ≤ 65535) by (unfold portOf; rewrite Ho; by eapply (po_port _ Hok)).
  unfold repairTake. destruct (pclosed p); [by split; [split; [|done|done|lia]|]|].
  destruct (pconns p !! portOf p id) as [i|] eqn:Hi.
  - destruct (Z.eqb_spec i id) as [->|Hne].
    + split; [|split; [done|by cbn; rewrite lookup_delete_eq]].
      apply (quiet_delete p (portOf p id) id); [done|done|lia|]. intros q j Hq Hj. apply elem_of_difference. split; [done|].
      intros ->%elem_of_singleton. by apply (deleted_gone _ _ _ Hok Hi q).
    + split; [by apply quiet_stamp|]. apply (proj2 (qu_objs _ _ _ (quiet_stamp p i Hok) i)).
      destruct (po_entry _ Hok _ _ Hi) as [_ (o' & -> & _)]. by eexists.
  - split; [|done]. apply closeSock_quiet; [done|]. intros q Hq. pose proof (entry_port _ _ _ Hok Hq). congruence.
Qed.

Lemma oldest_in p l v : oldest p l = Some v → v ∈ l.
Proof.
  revert v. induction l as [|c l IH]; intros v; cbn [oldest]; [done|].
  destruct (oldest p l) as [b|]; [|by intros [= <-]; left].
  destruct (_ <? _); intros [= <-]; [right; by apply IH|by left].
Qed.

Lemma scan_entry p v : scan p = Some v → pconns p !! v.1 = Some v.2 ∧ refsOf p v.2 = 0.
Proof.
  unfold scan. destruct (_ <=? _); [done|]. intros Hv%oldest_in. apply list_elem_of_filter in Hv as [Hr Hv].
  destruct v. apply elem_of_map_to_list in Hv. done.
Qed.

Lemma publish_refs p port id i o : pool_ok p → objs p !! id = None → objs (publish p port id) !! i = Some o → refs o = refsOf p i.
Proof.
  intros Hok Hid. rewrite publish_lookup. unfold refsOf. case_decide as E; [|by intros ->]. subst. rewrite Hid. by intros [= <-].
Qed.

Lemma publish_dom p port id i : is_Some (objs p !! i) → is_Some (objs (publish p port id) !! i).
Proof. rewrite publish_lookup. case_decide; [by eexists|done]. Qed.

Lemma publish_conns p port id q i : pconns (publish p port id) !! q = Some i → (q = port ∧ i = id) ∨ pconns p !! q = Some i.
Proof. cbn. intros [[-> ->]|[_ H]]%lookup_insert_Some; [by left|by right]. Qed.

Lemma publish_size p port id : pconns p !! port = None → sizeZ (publish p port id) = sizeZ p + 1.
Proof. intros H. unfold sizeZ. cbn. rewrite map_size_insert_None by done. lia. Qed.

Lemma effect_end others p t : pool_ok p → (∀ i, pinOf i t = 0) → counting t = 0 → effect others p t (p, []) 0.
Proof.
  intros Hok Hp Hc. split; cbn [fst snd]; try done; try (by left).
  - intros i o' Ho. rewrite (refsOf_Some _ _ _ Ho), Hp. cbn. lia.
  - cbn. lia.
  - left. cbn. unfold bindZ. destruct (holdsBind t); lia.
Qed.

Lemma effect_pin others p t id b : pool_ok p → is_Some (objs p !! id) → (∀ i, pinOf i t = 0) → counting t = 0 → bindZ t = 0 →
  effect others p t (addRefs p id 1, [TWriting id b]) 0.
Proof.
  intros Hok Hid Hp Hc Hb. split; cbn [fst snd].
  - by apply addRefs_ok.
  - intros i. by rewrite addRefs_dom.
  - by left.
  - intros i o' Ho. rewrite (addRefs_refs _ _ _ _ _ Ho), Hp. cbn. destruct (id =? i); lia.
  - unfold sizeZ. cbn. lia.
  - left. cbn. lia.
  - constructor; [by apply addRefs_dom|done].
Qed.

(** The end of a write: the pin goes first. *)
Lemma effect_wrote others p id again k : pool_ok p → is_Some (objs p !! id) → k = KDone ∨ k = KBroken id →
  effect others p (TWriting id again) (wrote p id k) 0.
Proof.
  intros Hok Hid Hk. unfold wrote. set (p1 := addRefs p id (-1)).
  assert (Hok1 : pool_ok p1) by by apply addRefs_ok.
  assert (Hid1 : is_Some (objs p1 !! id)) by by apply addRefs_dom.
  assert (Hgo : ∀ ts, Forall (thread_ok p1) ts → (∀ i, pins i ts = 0) → sumZ counting ts = 0 → sumZ bindZ ts = 0 →
    effect others p (TWriting id again) (p1, ts) 0).
  { intros ts H1 H2 H3 H4. split; cbn [fst snd]; try done.
    - intros i. unfold p1. by rewrite addRefs_dom.
    - by left.
    - intros i o' Ho. rewrite (addRefs_refs _ _ _ _ _ Ho), H2. cbn. destruct (id =? i); lia.
    - unfold sizeZ. cbn. lia.
    - left. cbn. lia. }
  destruct (_ && _); destruct Hk as [->| ->]; cbn [resume]; apply Hgo; try done; by constructor.
Qed.

(** A fresh socket is published and will be counted. *)
Lemma effect_bound others p port id :
  pool_ok p → thread_ok p (TBinding port) → objs p !! id = None → (∀ i, i ∈ opens p → portOf p i ≠ port) →
  effect others p (TBinding port) (publish p port id, [TCount id]) 0.
Proof.
  intros Hok Ht Hid Hos. split; cbn [fst snd].
  - apply publish_ok; [done|done|apply Ht].
  - intros i. apply publish_dom.
  - intros q i [[-> ->]|H]%publish_conns; [by right|by left].
  - intros i o Ho. rewrite (publish_refs _ _ _ _ _ Hok Hid Ho). cbn. lia.
  - rewrite publish_size by apply Ht. cbn. lia.
  - left. cbn. lia.
  - constructor; [|done]. cbn [thread_ok]. rewrite publish_lookup, decide_True by done. by eexists.
Qed.

(** The replacement of a broken socket is published and counted at once. *)
Lemma effect_rebound others p port id :
  pool_ok p → thread_ok p (TRebinding port) → objs p !! id = None → (∀ i, i ∈ opens p → portOf p i ≠ port) →
  effect others p (TRebinding port) (published (addTotal (publish p port id) 1) id (TFixed id) (KFixed id)) 0.
Proof.
  intros Hok Ht Hid Hos. apply effect_published; try done.
  - assert (H : pool_ok (publish p port id)) by (apply publish_ok; [done|done|apply Ht]). by destruct H; split.
  - intros i. apply publish_dom.
  - intros q i [[-> ->]|H]%publish_conns; [by right|by left].
  - intros i o Ho. by apply (publish_refs p port id i o Hok Hid).
  - pose proof (publish_size p port id ltac:(apply Ht)). unfold sizeZ in *. cbn in *. lia.
  - change (is_Some (objs (publish p port id) !! id)). rewrite publish_lookup, decide_True by done. by eexists.
  - by right.
Qed.

(** The reclaiming pass ends without closing its victim. *)
Lemma effect_left others p p' v k n :
  thread_ok p (TVictim v k) → quiet p p' n → effect others p (TVictim v k) (resume p' k) n.
Proof.
  intros [Hk Hv] H. rewrite <- (Z.add_0_r n). eapply effect_quiet; [exact H|]. apply effect_resume; try done; [apply H|].
  destruct k; cbn in *; try done; by apply (qu_objs _ _ _ H).
Qed.

Lemma tstep_effect others p t r n : pool_ok p → thread_ok p t → tstep others p t r n → effect others p t r n.
Proof.
  intros Hok Ht Hs. destruct Hs as [id|id|id|id again w|port|port id Hid Hos|id|id p' Hb He|id id' p' Hb He|id p' Hb He|port
    |port id Hid Hos|k Hb|k v Hv|k Hv|v k p' He|v k id p' He|v k o p' He Ho|id k]; cbn [thread_ok] in Ht.
  - by apply effect_end.
  - by apply effect_pin.
  - by apply effect_pin.
  - apply effect_wrote; [done|done|]. destruct (_ && _); [by right|by left].
  - by apply effect_end.
  - by apply effect_bound.
  - apply effect_published; try done; try (by left); try (by destruct Hok; split); try (unfold sizeZ; cbn; lia).
    intros i o Ho. by apply (refsOf_Some p).
  - pose proof (repair_quiet p id Hok Ht) as H. rewrite He in H. destruct H as [Hq _].
    rewrite <- (Z.add_0_r 0). eapply effect_quiet; [exact Hq|]. apply effect_end; [apply Hq|done|done].
  - pose proof (repair_quiet p id Hok Ht) as H. rewrite He in H. destruct H as [Hq Hid'].
    rewrite <- (Z.add_0_r 0). eapply effect_quiet; [exact Hq|]. by apply effect_rename; [apply Hq| | | |].
  - pose proof (repair_quiet p id Hok Ht) as H. rewrite He in H. destruct H as [Hq Hport].
    rewrite <- (Z.add_0_r 0). eapply effect_quiet; [exact Hq|]. split; cbn [fst snd]; try done; try (by left).
    + apply Hq.
    + intros i o Ho. rewrite (refsOf_Some _ _ _ Ho). cbn. lia.
    + cbn. lia.
    + right. split; [done|cbn; lia].
    + by constructor.
  - by apply effect_end.
  - by apply effect_rebound.
  - by apply effect_rename.
  - apply effect_rename; try done. split; [done|]. destruct (scan_entry _ _ Hv) as [Hv' _].
    destruct (po_entry _ Hok _ _ Hv') as [_ (o & -> & _)]. by eexists.
  - by apply effect_resume.
  - pose proof (evict_quiet p v Hok) as H. rewrite He in H. destruct H as [Hq Hgone], Ht as [Hk Hv].
    rewrite <- (Z.add_0_r 0). eapply effect_quiet; [exact Hq|]. apply effect_rename; try done; [apply Hq|].
    split_and!; [|by apply (qu_objs _ _ _ Hq)|done]. destruct k; cbn in *; try done; by apply (qu_objs _ _ _ Hq).
  - pose proof (evict_quiet p v Hok) as H. rewrite He in H. by eapply effect_left.
  - pose proof (evict_quiet p v Hok) as H. rewrite He in H. eapply effect_left; [done|by destruct Ho as [->| ->]].
  - destruct Ht as (Hk & Hid & Hgone).
    assert (Hq : quiet p (closeSock p id) 0) by by apply closeSock_quiet.
    rewrite <- (Z.add_0_r 0). eapply effect_quiet; [exact Hq|]. apply effect_rename; try done. apply Hq.
Qed.

(** A change of the pool by someone who pins nothing, and goroutines that start. *)
Lemma quiet_inv w p n ts b : pinv w → quiet (pool w) p n → Forall (thread_ok p) ts → (∀ i, pins i ts = 0) →
  sumZ counting ts = 0 → sumZ bindZ ts + sumZ bindZ (threads w) ≤ 1 → pinv (mkPWorld p (ts ++ threads w) (lost w + n) b).
Proof.
  intros [Hok Ht Hb Hr Htot] [Q1 Q2 Q3 Q4] Hts Hp Hc Hbind. split; cbn [pool threads lost].
  - done.
  - apply Forall_app. split; [done|]. eapply Forall_impl; [exact Ht|]. intros t Hk. eapply thread_ok_mono; [exact Hk| |].
    + intros i. apply Q2.
    + intros port id H%Q3. by left.
  - by rewrite sumZ_app.
  - intros id o Ho. unfold pins. rewrite sumZ_app. fold (pins id ts) (pins id (threads w)). rewrite Hp.
    rewrite (refsOf_Some _ _ _ Ho), (proj1 (Q2 id)). destruct (proj1 (proj2 (Q2 id))) as [o0 Ho0]; [by eexists|].
    unfold refsOf. rewrite Ho0. cbn. by apply Hr.
  - rewrite sumZ_app. unfold sizeZ in *. lia.
Qed.

Lemma quiet_refl p : pool_ok p → quiet p p 0.
Proof. intros Hok. split; [done|done|done|lia]. Qed.

Lemma pool_step_inv w w' : pinv w → pstep w w' → pinv w'.
Proof.
  intros Hw. pose proof (pi_ok _ Hw) as Hok. destruct 1 as [l1 t l2 p ts n Hl Hs|port id p Hg|port p Hport Hb Hg|Hc|port id Hwk Hi|Hwk].
  - apply (effect_inv w l1 t l2 (p, ts) n Hw Hl). apply tstep_effect; try done.
    pose proof (pi_threads _ Hw) as Ht. rewrite Hl in Ht. by apply Forall_app in Ht as [_ [? _]%Forall_cons].
  - unfold getFast in Hg. destruct (_ || _); [done|]. destruct (pclosed _); [done|].
    destruct (pconns (pool w) !! port) as [i|] eqn:Hi; [|done]. injection Hg as -> <-.
    rewrite <- (Z.add_0_r (lost w)). apply (quiet_inv w _ _ [TGot id]); try done.
    + by apply quiet_stamp.
    + constructor; [|done]. apply (qu_objs _ _ _ (quiet_stamp _ id Hok) id).
      destruct (po_entry _ Hok _ _ Hi) as [_ (o & -> & _)]. by eexists.
    + cbn. pose proof (pi_bind _ Hw). lia.
  - unfold getSlow in Hg. destruct (pconns (pool w) !! port) eqn:Hi; [done|]. destruct (pclosed _); [done|]. injection Hg as <-.
    rewrite <- (Z.add_0_r (lost w)). apply (quiet_inv w _ _ [TBinding port]); try done; [by apply quiet_refl|by constructor|].
    apply no_binder in Hb. rewrite Hb. cbn. lia.
  - rewrite <- (Z.add_0_r (lost w)). apply (quiet_inv w _ _ []); try done; [|apply Hw].
    split; [by destruct Hok; split|done|done|]. unfold sizeZ. cbn. lia.
  - rewrite <- (Z.add_0_r (lost w)). apply (quiet_inv w _ _ []); try done; [|apply Hw].
    unfold closeEntry. cbn [fst snd]. rewrite bool_decide_true by done.
    apply (quiet_delete _ port id); [done|done|lia|]. intros q j Hq Hj. apply elem_of_difference. split; [done|].
    intros ->%elem_of_singleton. by apply (deleted_gone _ _ _ Hok Hi q).
  - destruct Hw. by split.
Qed.

Lemma pool_run_inv l w : rtc pstep (newPWorld l) w → pinv w.
Proof.
  revert w. refine (rtc_ind_r _ _ _ _); [|by intros w w' _ Hs IH; eapply pool_step_inv].
  by split.
Qed.


(** * Schedules *)

(** A scheduler's choice: which goroutine moves, and what the system answers. *)
Inductive answer := Go | Drop | Wrote (w : option write_error) | Bound (id : Z) | BindFails.

Inductive choice := Move (i : nat) (a : answer) | StartHit (port : Z) | StartSlow (port : Z).

Definition tmove (others : list thread) (p : sendSockPool) (t : thread) (a : answer) :
    option ((sendSockPool * list thread) * Z) :=
  match t, a with
  | TGot id, Drop => Some ((p, []), 0)
  | TGot id, Go => Some ((addRefs p id 1, [TWriting id true]), 0)
  | TFixed id, Go => Some ((addRefs p id 1, [TWriting id false]), 0)
  | TWriting id again, Wrote w =>
      Some (wrote p id (if again && shouldReopenUDPWriteError w then KBroken id else KDone), 0)
  | TBinding port, Bound id =>
      if bool_decide (objs p !! id = None) && bool_decide (set_Forall (λ i, portOf p i ≠ port) (opens p))
      then Some ((publish p port id, [TCount id]), 0) else None
  | TCount id, Go => Some (published (addTotal p 1) id (TGot id) (KGot id), 0)
  | TRepair id, Go =>
      if existsb holdsBind others then None else
      match repairTake p id with
      | (RepairClosed, p') => Some ((p', []), 0)
      | (RepairUse id', p') => Some ((p', [TGot id']), 0)
      | (RepairBind, p') => Some ((p', [TRebinding (portOf p id)]), 0)
      end
  | TRebinding port, Bound id =>
      if bool_decide (objs p !! id = None) && bool_decide (set_Forall (λ i, portOf p i ≠ port) (opens p))
      then Some (published (addTotal (publish p port id) 1) id (TFixed id) (KFixed id), 0) else None
  | TReclaim k, Go => if existsb holdsEvict others then None else Some ((p, [TEvicting k]), 0)
  | TEvicting k, Go => match scan p with Some v => Some ((p, [TVictim v k]), 0) | None => Some (resume p k, 0) end
  | TVictim v k, Go =>
      match evict p v with
      | (Evicted, p') => Some ((p', [TClosing v.2 k]), 0)
      | (EvictOther _, p') => Some (resume p' k, 1)
      | (_, p') => Some (resume p' k, 0)
      end
  | TClosing id k, Go => Some ((closeSock p id, [TEvicting k]), 0)
  | _, _ => None
  end.

Lemma tmove_sound others p t a r n : tmove others p t a = Some (r, n) → tstep others p t r n.
Proof.
  destruct t, a; cbn [tmove]; try done; try (intros [= <- <-]; by constructor).
  - case_bool_decide as E1; [|done]. case_bool_decide as E2; [|done]. intros [= <- <-]. by constructor.
  - destruct (existsb holdsBind others) eqn:E; [done|]. destruct (repairTake p id) as [[] p'] eqn:R; intros [= <- <-]; by econstructor.
  - case_bool_decide as E1; [|done]. case_bool_decide as E2; [|done]. intros [= <- <-]. by constructor.
  - destruct (existsb holdsEvict others) eqn:E; [done|]. intros [= <- <-]. by constructor.
  - destruct (scan p) eqn:E; intros [= <- <-]; by constructor.
  - destruct (evict p v) as [[] p'] eqn:E; intros [= <- <-]; try (by econstructor); eapply TSLeave; [exact E|by left|exact E|by right].
Qed.

Definition pexec (w : pworld) (c : choice) : option pworld :=
  match c with
  | Move i a =>
      match threads w !! i with
      | None => None
      | Some t =>
          match tmove (take i (threads w) ++ drop (S i) (threads w)) (pool w) t a with
          | Some ((p, ts), n) =>
              Some (mkPWorld p (take i (threads w) ++ ts ++ drop (S i) (threads w)) (lost w + n) (walking w))
          | None => None
          end
      end
  | StartHit port =>
      match getFast (pool w) port with
      | (Hit id, p) => Some (mkPWorld p (TGot id :: threads w) (lost w) (walking w))
      | _ => None
      end
  | StartSlow port =>
      if (1 <=? port) && (port <=? 65535) && negb (existsb holdsBind (threads w)) then
        match getSlow (pool w) port with
        | (Miss, p) => Some (mkPWorld p (TBinding port :: threads w) (lost w) (walking w))
        | _ => None
        end
      else None
  end.

Fixpoint pexecAll (w : pworld) (cs : list choice) : option pworld :=
  match cs with [] => Some w | c :: cs => match pexec w c with Some w => pexecAll w cs | None => None end end.

Lemma pexec_sound w c w' : pexec w c = Some w' → pstep w w'.
Proof.
  destruct c as [i a|port|port]; cbn [pexec].
  - destruct (threads w !! i) as [t|] eqn:Hi; [|done]. destruct (tmove _ _ _ _) as [[[p ts] n]|] eqn:Ht; [|done].
    intros [= <-]. eapply PThread; [symmetry; by apply take_drop_middle|by eapply tmove_sound].
  - destruct (getFast (pool w) port) as [[] p] eqn:Hg; try done. intros [= <-]. by eapply PHit.
  - destruct (Z.leb_spec 1 port); [|done]. destruct (Z.leb_spec port 65535); [|done]. cbn [andb].
    destruct (existsb holdsBind (threads w)) eqn:Hb; [done|]. destruct (getSlow (pool w) port) as [[] p] eqn:Hg; try done.
    intros [= <-]. by eapply PSlow.
Qed.

Lemma pexecAll_sound cs w w' : pexecAll w cs = Some w' → rtc pstep w w'.
Proof.
  revert w. induction cs as [|c cs IH]; intros w; cbn [pexecAll]; [by intros [= <-]|].
  destruct (pexec w c) as [w1|] eqn:E; [|done]. intros H. eapply rtc_l; [by eapply pexec_sound|by apply IH].
Qed.

(** Two goroutines hold the socket of port 100 when a third, binding port 200 in a
    pool of one, picks it as the victim; both write, the first fails and repairs the
    port before the third removes what the port holds. *)
Definition demo_schedule : list choice :=
  [StartSlow 100; Move 0 (Bound 1); Move 0 Go; StartHit 100;
   StartSlow 200; Move 0 (Bound 2); Move 0 Go; Move 0 Go; Move 0 Go;
   Move 1 Go; Move 2 Go; Move 1 (Wrote (Some WOther)); Move 1 Go; Move 1 (Bound 3);
   Move 2 (Wrote None); Move 0 Go; Move 0 Drop].


Lemma lost_mono w w' : rtc pstep w w' → lost w ≤ lost w'.
Proof.
  induction 1 as [|w w1 w' Hs _ IH]; [lia|]. etransitivity; [|exact IH].
  destruct Hs as [l1 t l2 p ts n _ Hs| | | | |]; cbn; try lia. destruct Hs; lia.
Qed.

Definition demo_rest : list choice :=
  [Move 0 Go; Move 0 Go; Move 0 Go; Move 0 Go; Move 0 Go; Move 0 Go; Move 0 (Wrote None); Move 0 Go; Move 0 Go].

(** Eviction can drop a socket it never chose.  [reclaimOverflow] removes
    whatever its victim's port holds by then; when a repair has put a new socket
    there in the meantime, that socket leaves the map while the size keeps counting
    it.  In a run of four goroutines over a pool of one socket, all finish and the
    pool is empty and full at once; and from then on its size exceeds the number of
    cached sockets whenever it is at rest, so that much of the limit is gone. *)
Theorem eviction_loses_replacement :
  ∃ w, rtc pstep (newPWorld 1) w ∧ threads w = [] ∧ pconns (pool w) = ∅ ∧ PoolLen (pool w) = limit (pool w) ∧
  ∀ w', rtc pstep w w' → threads w' = [] → Z.of_nat (size (pconns (pool w'))) < PoolLen (pool w').
Proof.
  destruct (pexecAll (newPWorld 1) (demo_schedule ++ demo_rest)) as [w|] eqn:E; [|vm_compute in E; discriminate].
  pose proof (pexecAll_sound _ _ _ E) as Hrun.
  assert (Hw : threads w = [] ∧ pconns (pool w) = ∅ ∧ PoolLen (pool w) = limit (pool w) ∧ lost w = 1).
  { vm_compute in E. injection E as <-. by vm_compute. }
  clear E. destruct Hw as (Ht & Hc & Hl & Hlost). exists w. split_and!; [exact Hrun|done|done|done|]. intros w' Hrun' Ht'.
  pose proof (pi_total _ (pool_run_inv 1 w' (transitivity Hrun Hrun'))) as Htot.
  pose proof (lost_mono _ _ Hrun') as Hm. rewrite Ht' in Htot. cbn in Htot. unfold PoolLen. lia.
Qed.
