(* ===== verification/SendSockLru.v ===== *)
(** The reply-socket pool of src/tunnel/sendsock.go, one caller at a time: [Get]
    implements a least-recently-used cache of sockets. *)
From S2P Require Import Prelude Spread SendSock SendSockPool.
Local Open Scope Z_scope.

(** The pool between calls: the size counts the entries, nothing is pinned, and no
    socket is open but the cached ones. *)
Record pool_rest (p : sendSockPool) : Prop := {
  pr_ok : pool_ok p;
  pr_refs : ∀ id, refsOf p id = 0;
  pr_total : total p = sizeZ p;
  pr_opens : ∀ id, id ∈ opens p → ∃ port, pconns p !! port = Some id;
}.

(** * The specification: ports, the one used last first *)

Definition lru_get (limit : Z) (l : list Z) (port : Z) : list Z := upto limit (port :: filter (λ q, q ≠ port) l).

(** When a port's socket was used last. *)
Definition portUse (p : sendSockPool) (port : Z) : Z := useOf p (default 0 (pconns p !! port)).

Record lru (p : sendSockPool) (l : list Z) : Prop := {
  lr_nodup : NoDup l;
  lr_in : ∀ port, port ∈ l ↔ is_Some (pconns p !! port);
  lr_sorted : StronglySorted (λ a b, portUse p b < portUse p a) l;
}.

Lemma lru_size p l : lru p l → len l = sizeZ p.
Proof.
  intros [Hnd Hin _]. unfold len, sizeZ. f_equal.
  rewrite <- size_dom, <- (size_list_to_set (C := gset Z) l Hnd). f_equal. apply set_eq. intros x.
  by rewrite elem_of_list_to_set, elem_of_dom.
Qed.

(** The order depends on the entries and their stamps only. *)
Lemma sorted_ext (f g : Z → Z) l : StronglySorted (λ a b, f b < f a) l → (∀ q, q ∈ l → g q = f q) →
  StronglySorted (λ a b, g b < g a) l.
Proof.
  induction 1 as [|a l Hs IH Hall]; intros Hu; [constructor|]. constructor; [apply IH; intros; apply Hu; by right|].
  apply Forall_forall. intros b Hb. rewrite (Hu a), (Hu b) by (by left || by right).
  exact (proj1 (Forall_forall _ _) Hall b Hb).
Qed.

Lemma lru_ext p p' l : lru p l → pconns p' = pconns p → (∀ port, port ∈ l → portUse p' port = portUse p port) → lru p' l.
Proof. intros [Hnd Hin Hs] Hc Hu. split; [done|by rewrite Hc|]. by eapply sorted_ext. Qed.

Lemma sorted_filter {A} (R : relation A) (P : A → Prop) `{∀ x, Decision (P x)} l : StronglySorted R l → StronglySorted R (filter P l).
Proof.
  induction 1 as [|x l _ IH Hall]; [constructor|]. rewrite filter_cons. case_decide; [|done]. constructor; [done|].
  apply Forall_forall. intros y [_ Hy]%list_elem_of_filter. exact (proj1 (Forall_forall _ _) Hall y Hy).
Qed.

(** The newest stamp. *)
Lemma stamp_lru p l port id : pool_ok p → lru p l → pconns p !! port = Some id →
  lru (stamp p id) (port :: filter (λ q, q ≠ port) l).
Proof.
  intros Hok [Hnd Hin Hs] Hi.
  assert (Hnew : portUse (stamp p id) port = clock p + 1).
  { unfold portUse, useOf. change (pconns (stamp p id)) with (pconns p). rewrite Hi. change (default 0 (Some id)) with id. rewrite stamp_lookup.
    rewrite decide_True by done. destruct (po_entry _ Hok _ _ Hi) as [_ (o & -> & _)]. done. }
  assert (Hold : ∀ q, q ≠ port → is_Some (pconns p !! q) → portUse (stamp p id) q = portUse p q ∧ portUse p q ≤ clock p).
  { intros q Hq [i Hqi]. unfold portUse, useOf. change (pconns (stamp p id)) with (pconns p). rewrite Hqi. change (default 0 (Some i)) with i.
    rewrite stamp_lookup. destruct (po_entry _ Hok _ _ Hqi) as [_ (o & Ho & _)].
    rewrite decide_False; [rewrite Ho; cbn; split; [done|by eapply (po_stamp _ Hok)]|].
    intros ->. apply Hq. by rewrite <- (entry_port _ _ _ Hok Hqi), (entry_port _ _ _ Hok Hi). }
  split.
  - constructor; [intros [? _]%list_elem_of_filter; done|by apply NoDup_filter].
  - intros q. rewrite elem_of_cons, list_elem_of_filter. change (pconns (stamp p id)) with (pconns p). rewrite Hin.
    split; [intros [->|[_ ?]]; [by eexists|done]|]. intros Hq. destruct (decide (q = port)); [by left|by right].
  - assert (Hfu : ∀ q, q ∈ filter (λ q, q ≠ port) l → portUse (stamp p id) q = portUse p q ∧ portUse p q ≤ clock p).
    { intros q [Hq Hql]%list_elem_of_filter. apply Hold; [done|by apply Hin]. }
    constructor.
    + eapply sorted_ext; [by apply sorted_filter|]. intros q Hq. by apply Hfu.
    + apply Forall_forall. intros q Hq. destruct (Hfu q Hq) as [-> ?]. rewrite Hnew. lia.
Qed.

Lemma publish_use p port id i : useOf (publish p port id) i = if decide (i = id) then clock p + 1 else useOf p i.
Proof. unfold useOf. rewrite publish_lookup. by case_decide. Qed.

Lemma publish_lru p l port id : pool_ok p → lru p l → pconns p !! port = None → objs p !! id = None →
  lru (publish p port id) (port :: l).
Proof.
  intros Hok [Hnd Hin Hs] Hnone Hid.
  assert (Hport : port ∉ l) by (intros [? ?]%Hin; congruence).
  assert (Hnew : portUse (publish p port id) port = clock p + 1).
  { unfold portUse. rewrite publish_use. cbn [publish set_pconns pconns]. rewrite lookup_insert_eq. by rewrite decide_True. }
  assert (Hold : ∀ q, q ∈ l → portUse (publish p port id) q = portUse p q ∧ portUse p q ≤ clock p).
  { intros q Hq. assert (q ≠ port) by (by intros ->). destruct (proj1 (Hin q) Hq) as [i Hi].
    destruct (po_entry _ Hok _ _ Hi) as [_ (o & Ho & _)]. unfold portUse. rewrite publish_use.
    cbn [publish set_pconns pconns stamp set_opens set_objs]. rewrite lookup_insert_ne by done. rewrite Hi.
    change (default 0 (Some i)) with i. rewrite decide_False by congruence. split; [done|]. unfold useOf. rewrite Ho.
    by eapply (po_stamp _ Hok). }
  split.
  - by constructor.
  - intros q. cbn. rewrite elem_of_cons, lookup_insert_is_Some. rewrite Hin. split.
    + intros [->|Hq]; [by left|]. destruct (decide (port = q)); [by left|by right].
    + intros [->|[_ Hq]]; [by left|by right].
  - constructor.
    + eapply sorted_ext; [done|]. intros q Hq. by apply Hold.
    + apply Forall_forall. intros q Hq. destruct (Hold q Hq) as [-> ?]. rewrite Hnew. lia.
Qed.

(** * Eviction *)

Lemma oldest_min p l v : oldest p l = Some v → ∀ c, c ∈ l → useOf p v.2 ≤ useOf p c.2.
Proof.
  revert v. induction l as [|a l IH]; intros v; cbn [oldest]; [done|]. destruct (oldest p l) as [b|] eqn:E.
  - destruct (Z.ltb_spec (useOf p b.2) (useOf p a.2)); intros [= <-] c [->|Hc]%elem_of_cons; try lia; try (by apply IH).
    etransitivity; [|by apply (IH b)]. lia.
  - intros [= <-] c [->|Hc]%elem_of_cons; [lia|]. destruct l as [|x l]; [by apply elem_of_nil in Hc|].
    cbn [oldest] in E. destruct (oldest p l); [by destruct (_ <? _)|done].
Qed.

Lemma oldest_None p l : oldest p l = None → l = [].
Proof. destruct l as [|a l]; [done|]. cbn [oldest]. destruct (oldest p l); [by destruct (_ <? _)|done]. Qed.

(** With the newcomer pinned the scan picks the port at the end of the order. *)
Lemma scan_last p l port id q i : pool_ok p → lru p (port :: l ++ [q]) → pconns p !! port = Some id → pconns p !! q = Some i →
  refsOf p id ≠ 0 → (∀ j, j ≠ id → refsOf p j = 0) → limit p < total p → scan p = Some (q, i).
Proof.
  intros Hok [Hnd Hin Hs] Hport Hq Hpin Hfree Hover. unfold scan. destruct (Z.leb_spec (total p) (limit p)); [lia|].
  assert (Hqp : q ≠ port) by (intros ->; apply NoDup_cons in Hnd as [Hn _]; apply Hn; set_solver).
  assert (Hne : i ≠ id).
  { intros ->. apply Hqp. by rewrite <- (entry_port _ _ _ Hok Hq), (entry_port _ _ _ Hok Hport). }
  assert (Hcand : (q, i) ∈ unpinned p).
  { apply list_elem_of_filter. split; [by apply Hfree|by apply elem_of_map_to_list]. }
  destruct (oldest p (unpinned p)) as [[q' i']|] eqn:Ho; [|by apply oldest_None in Ho; rewrite Ho in Hcand; apply elem_of_nil in Hcand].
  pose proof (oldest_min _ _ _ Ho _ Hcand) as Hmin. apply oldest_in, list_elem_of_filter in Ho as [Hr Hi'].
  apply elem_of_map_to_list in Hi'. cbn [fst snd] in *.
  assert (Hq' : q' ∈ port :: l ++ [q]) by (apply Hin; by eexists).
  apply elem_of_cons in Hq' as [->|Hq']; [congruence|].
  destruct (decide (q' = q)) as [->|Hne']; [congruence|].
  apply elem_of_app in Hq' as [Hq'|Hq'%list_elem_of_singleton]; [|done].
  apply StronglySorted_inv in Hs as [Hs _]. apply StronglySorted_app in Hs as (Hlt & _ & _).
  specialize (Hlt q' q Hq' ltac:(set_solver)). unfold portUse in Hlt. rewrite Hq, Hi' in Hlt. cbn in Hlt. lia.
Qed.

(** Taking the last of the order out. *)
Lemma lru_delete p p' k q : lru p (k ++ [q]) → pconns p' = delete q (pconns p) → (∀ i, useOf p' i = useOf p i) → lru p' k.
Proof.
  intros [Hnd Hin Hs] Hc Hu. apply NoDup_app in Hnd as (Hnd & Hdis & _).
  assert (Hq : q ∉ k) by (intros Hq; by apply (Hdis q Hq), list_elem_of_singleton).
  apply StronglySorted_app in Hs as (_ & Hs & _). split; [done| |].
  - intros port. rewrite Hc, lookup_delete_is_Some, <- Hin, elem_of_app, list_elem_of_singleton. split.
    + intros Hp. split; [by intros ->|by left].
    + by intros [Hne [?| ->]].
  - eapply sorted_ext; [exact Hs|]. intros port Hp. unfold portUse. rewrite Hc, lookup_delete_ne by (by intros ->). apply Hu.
Qed.

Lemma addRefs_use p id n i : useOf (addRefs p id n) i = useOf p i.
Proof. unfold useOf. rewrite addRefs_lookup. case_decide; [|done]. by destruct (objs p !! i). Qed.

Lemma refsOf_addRefs p id n i : is_Some (objs p !! id) → refsOf (addRefs p id n) i = refsOf p i + (if id =? i then n else 0).
Proof.
  intros [o Ho]. unfold refsOf. rewrite addRefs_lookup. case_decide as E.
  - subst. rewrite Ho, Z.eqb_refl. done.
  - destruct (Z.eqb_spec id i); [congruence|]. lia.
Qed.

(** One turn of the loop, when one is needed. *)
Lemma reclaim_once p q i : scan p = Some (q, i) → pool_ok p → total p = limit p + 1 → (1 < size (pconns p))%nat →
  reclaimOverflow p = closeSock (set_pconns p (delete q (pconns p)) (total p - 1)) i.
Proof.
  intros Hs Hok Ht Hsz. destruct (scan_entry _ _ Hs) as [Hq Hr]. cbn [fst snd] in *.
  unfold reclaimOverflow. destruct (size (pconns p)) as [|n]; [lia|]. cbn [reclaimLoop]. rewrite Hs.
  unfold evict. cbn [fst snd]. rewrite Hr, Hq, !Z.eqb_refl. cbn [negb].
  assert (Hstop : scan (closeSock (set_pconns p (delete q (pconns p)) (total p - 1)) i) = None).
  { unfold scan. cbn [total limit closeSock set_opens set_pconns]. by destruct (Z.leb_spec (total p - 1) (limit p)); [|lia]. }
  by rewrite Hstop.
Qed.

(** The reclaiming pass of a single caller: nothing, or the last of the order. *)
Lemma reclaimFor_lru p port id l : pool_ok p → lru p (port :: l) → pconns p !! port = Some id →
  (∀ j, refsOf p j = 0) → total p = sizeZ p → sizeZ p ≤ limit p + 1 → 1 ≤ limit p →
  (∀ j, j ∈ opens p → ∃ q, pconns p !! q = Some j) →
  let p' := reclaimFor p id in
  lru p' (upto (limit p) (port :: l)) ∧ pool_rest p' ∧ limit p' = limit p ∧ pclosed p' = pclosed p ∧
  (∀ j, is_Some (objs p' !! j) → is_Some (objs p !! j)) ∧ (∀ q j, pconns p' !! q = Some j → pconns p !! q = Some j).
Proof.
  intros Hok Hlru Hport Hfree Htot Hsz Hlim Hopens. pose proof (lru_size _ _ Hlru) as Hlen. unfold reclaimFor.
  destruct (Z.ltb_spec (limit p) (total p)) as [Hover|].
  2:{ rewrite upto_all by lia. by split_and!. }
  destruct (exists_last (l := l)) as (l0 & q & ->).
  { intros ->. rewrite len_cons in Hlen. change (len []) with 0 in Hlen. lia. }
  assert (Hid : is_Some (objs p !! id)) by (destruct (po_entry _ Hok _ _ Hport) as [_ (o & -> & _)]; by eexists).
  destruct (proj1 (lr_in _ _ Hlru q) ltac:(set_solver)) as [i Hq].
  set (p1 := addRefs p id 1). assert (Hok1 : pool_ok p1) by by apply addRefs_ok.
  assert (Hlru1 : lru p1 (port :: l0 ++ [q])).
  { eapply lru_ext; [exact Hlru|done|]. intros r _. unfold portUse. apply addRefs_use. }
  assert (Hscan : scan p1 = Some (q, i)).
  { apply (scan_last p1 l0 port id); try done.
    - unfold p1. rewrite refsOf_addRefs, Hfree, Z.eqb_refl by done. lia.
    - intros j Hj. unfold p1. rewrite refsOf_addRefs, Hfree by done. destruct (Z.eqb_spec id j); [congruence|lia]. }
  assert (Hsize : (1 < size (pconns p))%nat) by (unfold sizeZ in *; lia).
  rewrite (reclaim_once p1 q i Hscan Hok1) by (done || unfold p1; cbn; lia).
  set (p2 := closeSock _ i).
  assert (Hq2 : quiet p1 p2 0).
  { unfold p2. apply (quiet_delete p1 q i); [done|done|lia|]. intros r j Hr Hj. apply elem_of_difference. split; [done|].
    intros ->%elem_of_singleton. by apply (deleted_gone _ _ _ Hok1 Hq r). }
  assert (Hid2 : is_Some (objs p2 !! id)) by (apply (qu_objs _ _ _ Hq2), addRefs_dom; done).
  split_and!.
  - assert (Hup : upto (limit p) (port :: l0 ++ [q]) = port :: l0).
    { change (port :: l0 ++ [q]) with ((port :: l0) ++ [q]). apply upto_app. rewrite !len_cons, len_app in *. change (len [q]) with 1 in Hlen. lia. }
    rewrite Hup. apply (lru_delete p _ (port :: l0) q); [done|done|]. intros j. rewrite addRefs_use.
    change (useOf p2 j) with (useOf p1 j). apply addRefs_use.
  - split.
    + apply addRefs_ok, Hq2.
    + intros j. rewrite refsOf_addRefs, (proj1 (qu_objs _ _ _ Hq2 j)) by done. unfold p1. rewrite refsOf_addRefs, Hfree by done.
      destruct (id =? j); lia.
    + pose proof (qu_total _ _ _ Hq2) as Ht. change (total p1) with (total p) in Ht. change (sizeZ p1) with (sizeZ p) in Ht.
      change (total (addRefs p2 id (-1))) with (total p2). change (sizeZ (addRefs p2 id (-1))) with (sizeZ p2). lia.
    + intros j. change (opens (addRefs p2 id (-1))) with (opens p ∖ {[i]}). intros [Hj Hji]%elem_of_difference.
      destruct (Hopens j Hj) as [r Hr]. exists r. change (pconns (addRefs p2 id (-1))) with (delete q (pconns p)).
      rewrite lookup_delete_ne; [done|]. intros ->. set_solver.
  - done.
  - done.
  - intros j Hj%addRefs_dom. apply (qu_objs _ _ _ Hq2), addRefs_dom in Hj. done.
  - intros r j Hr. change (delete q (pconns p) !! r = Some j) in Hr. by apply lookup_delete_Some in Hr as [_ Hr].
Qed.

(** * [Get] *)

Lemma filter_id {A} (P : A → Prop) `{∀ x, Decision (P x)} (l : list A) : (∀ x, x ∈ l → P x) → filter P l = l.
Proof.
  induction l as [|x l IH]; intros Hl; [done|]. rewrite filter_cons, decide_True by (apply Hl; by left).
  f_equal. apply IH. intros; apply Hl; by right.
Qed.

(** [Get] moves a cached port to the front, or binds one and drops the last when the
    limit is passed. *)
Lemma Get_lru p l port id : pool_rest p → lru p l → sizeZ p ≤ limit p → 1 ≤ limit p → pclosed p = false →
  1 ≤ port ≤ 65535 → objs p !! id = None →
  let '(r, p') := Get p port (Some id) in
  lru p' (lru_get (limit p) l port) ∧ pool_rest p' ∧ limit p' = limit p ∧ pclosed p' = false ∧
  (∀ j, is_Some (objs p' !! j) → is_Some (objs p !! j) ∨ j = id) ∧
  ∃ i, r = Ok i ∧ pconns p' !! port = Some i.
Proof.
  intros [Hok Hrefs Htot Hopens] Hlru Hsz Hlim Hcl Hport Hid. unfold Get, getFast, getSlow. rewrite Hcl.
  destruct (Z.leb_spec port 0); [lia|]. destruct (Z.ltb_spec 65535 port); [lia|]. cbn [orb].
  assert (Hup : ∀ i, pconns p !! port = Some i → lru_get (limit p) l port = port :: filter (λ q, q ≠ port) l).
  { intros i Hi. unfold lru_get. apply upto_all. pose proof (stamp_lru _ _ _ _ Hok Hlru Hi) as Hs.
    rewrite (lru_size _ _ Hs). done. }
  destruct (pconns p !! port) as [i|] eqn:Hi.
  - rewrite (Hup i eq_refl). pose proof (quiet_stamp p i Hok) as Hq. split_and!; try done.
    + by apply stamp_lru.
    + split; [by apply stamp_ok|intros j; by rewrite (proj1 (qu_objs _ _ _ Hq j))|done|done].
    + intros j Hj. left. by apply (qu_objs _ _ _ Hq).
    + by exists i.
  - rewrite Hi, Hcl. set (p1 := addTotal (publish p port id) 1).
    assert (Hf : filter (λ q, q ≠ port) l = l).
    { apply filter_id. intros q Hq ->. apply (lr_in _ _ Hlru) in Hq as [? ?]. congruence. }
    assert (Hp1 : pool_ok p1) by (pose proof (publish_ok _ _ _ Hok Hid Hport) as H'; by destruct H'; split).
    assert (Hc1 : pconns p1 !! port = Some id) by by cbn; rewrite lookup_insert_eq.
    assert (Hl1 : lru p1 (port :: l)) by (apply (lru_ext (publish p port id)); [by apply publish_lru|done|done]).
    assert (Hs1 : sizeZ p1 = sizeZ p + 1) by by apply publish_size.
    destruct (reclaimFor_lru p1 port id l) as (R1 & R2 & R3 & R4 & R5 & R6); try done.
    + intros j. destruct (objs p1 !! j) as [o|] eqn:Ho; [|unfold refsOf; by rewrite Ho].
      rewrite <- (refsOf_Some _ _ _ Ho). rewrite (publish_refs p port id j o Hok Hid Ho). apply Hrefs.
    + change (total p1) with (total p + 1). lia.
    + change (limit p1) with (limit p). lia.
    + intros j. cbn. intros [->%elem_of_singleton|Hj]%elem_of_union; [exists port; by rewrite lookup_insert_eq|].
      destruct (Hopens j Hj) as [q Hq]. exists q. rewrite lookup_insert_ne; [done|]. intros ->. congruence.
    + change (limit p1) with (limit p) in *. unfold lru_get. rewrite Hf. split_and!; try done.
      * by rewrite R4.
      * intros j Hj%R5. destruct (decide (j = id)); [by right|left]. change (is_Some (objs (publish p port id) !! j)) in Hj.
        by rewrite publish_lookup, decide_False in Hj.
      * exists id. split; [done|]. assert (Hin : port ∈ upto (limit p) (port :: l)).
        { unfold upto. destruct (Z.to_nat (limit p)) eqn:E; [lia|]. by left. }
        apply (lr_in _ _ R1) in Hin as [j Hj]. pose proof (R6 _ _ Hj). congruence.
Qed.

(** Calls of [Get] from one goroutine, every bind succeeding with a new socket. *)
Fixpoint getAll (p : sendSockPool) (n : Z) (ports : list Z) : sendSockPool :=
  match ports with [] => p | port :: ports => getAll (Get p port (Some n)).2 (n + 1) ports end.

(** C25: (refinement) Used by one goroutine at a time, the reply-socket pool is a
    least-recently-used cache: after any sequence of [Get]s the cached ports are the
    [limit] most recently asked for, the most recent first in the order of the
    stamps; each has an open socket bound to it, and no other socket is open. *)
Theorem reply_pool_lru l ports :
  Forall (λ port, 1 ≤ port ≤ 65535) ports →
  let p := getAll (newSendSockPool l) 0 ports in
  let cached := foldl (lru_get (limit p)) [] ports in
  lru p cached ∧ PoolLen p = len cached ∧ len cached ≤ limit p ∧
  (∀ port, port ∈ cached → ∃ id, pconns p !! port = Some id ∧ id ∈ opens p ∧ portOf p id = port) ∧
  (∀ id, id ∈ opens p → portOf p id ∈ cached ∧ pconns p !! portOf p id = Some id).
Proof.
  intros Hall p cached.
  assert (Hgo : ∀ p0 n l0, Forall (λ port, 1 ≤ port ≤ 65535) ports → pool_rest p0 → lru p0 l0 → sizeZ p0 ≤ limit p0 →
    1 ≤ limit p0 → pclosed p0 = false → (∀ i, is_Some (objs p0 !! i) → i < n) →
    let p := getAll p0 n ports in
    limit p = limit p0 ∧ lru p (foldl (lru_get (limit p0)) l0 ports) ∧ pool_rest p ∧ sizeZ p ≤ limit p).
  { clear. induction ports as [|port ports IH]; intros p0 n l0 Hall Hrest Hlru Hsz Hlim Hcl Hn; [done|].
    apply Forall_cons in Hall as [Hport Hall]. cbn [getAll foldl].
    assert (Hid : objs p0 !! n = None).
    { destruct (objs p0 !! n) eqn:E; [|done]. specialize (Hn n ltac:(by eexists)). lia. }
    pose proof (Get_lru p0 l0 port n Hrest Hlru Hsz Hlim Hcl Hport Hid) as HG.
    destruct (Get p0 port (Some n)) as [r p1]. destruct HG as (G1 & G2 & G3 & G4 & G5 & _). cbn [snd].
    rewrite <- G3 in G1 |- *. apply IH; try done.
    - rewrite <- (lru_size _ _ G1). unfold lru_get, upto, len. rewrite length_take. lia.
    - lia.
    - intros i [Hi| ->]%G5; [|lia]. specialize (Hn i Hi). lia. }
  destruct (Hgo (newSendSockPool l) 0 []) as (E & Hlru & Hrest & Hsz); try done.
  - split; [constructor| |constructor]. intros port. cbn. split; [by intros ?%elem_of_nil|by intros [? ?]].
  - change (0 ≤ (if l <=? 0 then DefaultSendSockMax else l)). destruct (Z.leb_spec l 0); unfold DefaultSendSockMax; lia.
  - change (1 ≤ (if l <=? 0 then DefaultSendSockMax else l)). destruct (Z.leb_spec l 0); unfold DefaultSendSockMax; lia.
  - intros i. cbn. by intros [? ?].
  - fold p in E, Hlru, Hrest, Hsz. rewrite <- E in Hlru. fold cached in Hlru. pose proof (lru_size _ _ Hlru) as Hlen.
    pose proof (pr_ok _ Hrest) as Hok. split_and!; [done|unfold PoolLen; rewrite (pr_total _ Hrest); lia|lia| |].
    + intros port [i Hi]%(lr_in _ _ Hlru). exists i. split; [done|].
      split; [by apply (po_entry _ Hok _ _ Hi)|by apply entry_port].
    + intros i Hi. destruct (pr_opens _ Hrest i Hi) as [q Hq]. rewrite (entry_port _ _ _ Hok Hq).
      split; [|done]. apply (lr_in _ _ Hlru). by eexists.
Qed.

Lemma reply_pool_lru_witness :
  let p := getAll (newSendSockPool 2) 0 [80; 81; 80; 82] in
  lru p [82; 80] ∧ PoolLen p = 2 ∧ pconns p = {[80 := 0; 82 := 3]}.
Proof.
  destruct (reply_pool_lru 2 [80; 81; 80; 82]) as (H1 & H2 & _); [repeat constructor; lia|].
  split; [exact H1|]. split; [exact H2|]. by vm_compute.
Defined.
