(* ===== verification/SynGuard.v ===== *)
(** What the server does for an unauthenticated SYN before any expensive work:
    [synCache], the idempotency cache that reserves a client nonce for one
    handshake and replays its ACK, and [synLimiter], the per-source token bucket
    (src/tunnel/server.go).

    Each method runs under its object's lock.  A [netip.Addr] is its canonical
    text, an [AddrPort] that text with the port; times are nanoseconds.  Go's map
    iteration order is the argument [range]. *)
From Stdlib Require Import SpecFloat.
From S2P Require Import Prelude F64 Protocol Rtt Flow.
Local Open Scope Z_scope.

Definition minute : Z := 60 * second.
Definition synCacheTTL : Z := 10 * minute.
Definition synCacheMax : Z := 4096.

Abbreviation Addr := bytes.
Abbreviation AddrPort := (bytes * Z)%type.

(** [synCacheKey]: (nonce, pskID). *)
Abbreviation synCacheKey := (bytes * bytes)%type.

Definition makeSynCacheKey (nonce synMACKey : bytes) : synCacheKey := (nonce, upto 16 synMACKey).

Record synRecord := mkSyn {
  ackFrame : option bytes;
  createdAt : Z;
  ownerIP : Addr;
}.

(** [synFIFOEntry]: (key, createdAt). *)
Abbreviation synFIFOEntry := (synCacheKey * Z)%type.

Record synCache := mkCache {
  entries : gmap synCacheKey synRecord;
  fifo : list synFIFOEntry;
}.

Definition newSynCache : synCache := mkCache ∅ [].

(** [len] of a Go map. *)
Definition map_size {K A} `{Countable K} (m : gmap K A) : Z := Z.of_nat (size m).

(** Is the entry the fifo item announced still there? *)
Definition live (es : gmap synCacheKey synRecord) (it : synFIFOEntry) : bool :=
  match es !! it.1 with Some rec => createdAt rec =? it.2 | None => false end.

(** [for len(c.entries) >= synCacheMax && len(c.fifo) > 0] *)
Fixpoint evictFIFO (es : gmap synCacheKey synRecord) (q : list synFIFOEntry) : synCache :=
  match q with
  | [] => mkCache es q
  | oldest :: rest =>
      if synCacheMax <=? map_size es then
        evictFIFO (if live es oldest then delete oldest.1 es else es) rest
      else mkCache es q
  end.

Definition makeSpaceLocked (c : synCache) (now : Z) : synCache :=
  let es := filter (λ '(_, rec), now - createdAt rec ≤ synCacheTTL) (entries c) in
  let c := evictFIFO es (fifo c) in
  if synCacheMax * 2 <? len (fifo c)
  then mkCache (entries c) (filter (λ it, live (entries c) it = true) (fifo c))
  else c.

(** (ack, owner) and the new state. *)
Definition Acquire (c : synCache) (key : synCacheKey) (now : Z) (src : AddrPort) :
    (option bytes * bool) * synCache :=
  let reserve c :=
    let c := makeSpaceLocked c now in
    ((None, true), mkCache (<[key := mkSyn None now src.1]> (entries c)) (fifo c ++ [(key, now)])) in
  match entries c !! key with
  | Some rec =>
      if now - createdAt rec <=? synCacheTTL then
        match ackFrame rec with
        | Some a => if bool_decide (ownerIP rec = src.1) then ((Some a, false), c) else ((None, false), c)
        | None => ((None, false), c)
        end
      else reserve (mkCache (delete key (entries c)) (fifo c))
  | None => reserve c
  end.

(** [append([]byte(nil), ackFrame...)] of an empty slice is nil. *)
Definition copyFrame (a : bytes) : option bytes := match a with [] => None | _ => Some a end.

Definition Complete (c : synCache) (key : synCacheKey) (ack : bytes) : synCache :=
  match entries c !! key with
  | Some rec =>
      match ackFrame rec with
      | None => mkCache (<[key := mkSyn (copyFrame ack) (createdAt rec) (ownerIP rec)]> (entries c)) (fifo c)
      | Some _ => c
      end
  | None => c
  end.

Definition Abort_ (c : synCache) (key : synCacheKey) : synCache :=
  match entries c !! key with
  | Some rec =>
      match ackFrame rec with
      | None => mkCache (delete key (entries c)) (fifo c)
      | Some _ => c
      end
  | None => c
  end.

(** * The limiter *)

Definition synRatePerSec : f64 := f64_of_int 5.
Definition synBurst : f64 := f64_of_int 20.
Definition synLimiterMaxBuckets : Z := 1024.

Record synBucket := mkBucket { tokens : f64; last_ : Z }.
Abbreviation bucket_map := (gmap bytes synBucket).

Record synLimiter := mkLimiter {
  buckets : bucket_map;
  rate_ : f64;
  burst_ : f64;
}.

Definition newSynLimiter (ratePerSec burst : f64) : synLimiter :=
  mkLimiter ∅ (if f64_leb ratePerSec f64_zero then f64_of_int 5 else ratePerSec)
    (if f64_ltb burst (f64_of_int 1) then f64_of_int 10 else burst).

(** The least recently used bucket, the first met on ties. *)
Definition oldestBucket (keys : list bytes) (bs : bucket_map) : option (bytes * Z) :=
  foldl (λ acc k,
    match bs !! k with
    | None => acc
    | Some ob =>
        match acc with
        | None => Some (k, last_ ob)
        | Some (_, oldest) => if last_ ob <? oldest then Some (k, last_ ob) else acc
        end
    end) None keys.

(** The map with room for one more bucket. *)
Definition pruneBuckets (bs : bucket_map) (now : Z) (range : bucket_map → list bytes) : bucket_map :=
  if synLimiterMaxBuckets <=? map_size bs then
    let bs := filter (λ '(_, ob), now - last_ ob ≤ minute) bs in
    if synLimiterMaxBuckets <=? map_size bs then
      match oldestBucket (range bs) bs with
      | Some (k, _) => delete k bs
      | None => bs
      end
    else bs
  else bs.

(** A bucket's refill and withdrawal. *)
Definition takeToken (rate burst : f64) (b : synBucket) (now : Z) : bool * synBucket :=
  let t := f64_add (tokens b) (f64_mul (Seconds (now - last_ b)) rate) in
  let t := if f64_ltb burst t then burst else t in
  if f64_ltb t (f64_of_int 1) then (false, mkBucket t now)
  else (true, mkBucket (f64_sub t (f64_of_int 1)) now).

Definition Allow (l : synLimiter) (ip : bytes) (now : Z) (range : bucket_map → list bytes) :
    bool * synLimiter :=
  let '(b, bs) :=
    match buckets l !! ip with
    | Some b => (b, buckets l)
    | None => (mkBucket (burst_ l) now, pruneBuckets (buckets l) now range)
    end in
  let '(ok, b) := takeToken (rate_ l) (burst_ l) b now in
  (ok, mkLimiter (<[ip := b]> bs) (rate_ l) (burst_ l)).

(** * Runs of the cache *)

Inductive syn_op :=
| OpAcquire (key : synCacheKey) (now : Z) (src : AddrPort)
| OpComplete (key : synCacheKey) (ack : bytes)
| OpAbort (key : synCacheKey).

(** An operation with what it returned. *)
Inductive syn_event :=
| Granted (key : synCacheKey) (now : Z) (src : AddrPort)
| Answered (key : synCacheKey) (now : Z) (src : AddrPort) (ack : bytes)
| Ignored (key : synCacheKey) (now : Z) (src : AddrPort)
| Completed (key : synCacheKey) (ack : bytes)
| Aborted (key : synCacheKey).

Definition syn_step (c : synCache) (o : syn_op) : syn_event * synCache :=
  match o with
  | OpAcquire key now src =>
      let '(r, c) := Acquire c key now src in
      (match r with
       | (_, true) => Granted key now src
       | (Some a, false) => Answered key now src a
       | (None, false) => Ignored key now src
       end, c)
  | OpComplete key ack => (Completed key ack, Complete c key ack)
  | OpAbort key => (Aborted key, Abort_ c key)
  end.

Fixpoint syn_run (c : synCache) (os : list syn_op) : list syn_event * synCache :=
  match os with
  | [] => ([], c)
  | o :: os =>
      let '(e, c) := syn_step c o in
      let '(es, c) := syn_run c os in (e :: es, c)
  end.

Lemma syn_run_app c os1 os2 :
  syn_run c (os1 ++ os2) =
  let '(e1, c1) := syn_run c os1 in
  let '(e2, c2) := syn_run c1 os2 in (e1 ++ e2, c2).
Proof.
  revert c. induction os1 as [|o os1 IH]; intros c; simpl.
  - by destruct (syn_run c os2).
  - destruct (syn_step c o) as [e c1]. rewrite IH.
    destruct (syn_run c1 os1) as [e1 c2]. by destruct (syn_run c2 os2).
Qed.

(** Every entry is announced by a fifo item of its own reservation. *)
Definition announced (es : gmap synCacheKey synRecord) (q : list synFIFOEntry) : Prop :=
  ∀ k rec, es !! k = Some rec → (k, createdAt rec) ∈ q.

Record cache_wf (c : synCache) : Prop := {
  cw_announced : announced (entries c) (fifo c);
  cw_size : map_size (entries c) ≤ synCacheMax;
}.

Lemma live_spec es it : live es it = true ↔ ∃ rec, es !! it.1 = Some rec ∧ createdAt rec = it.2.
Proof.
  unfold live. destruct (es !! it.1) as [rec|]; [|naive_solver].
  rewrite Z.eqb_eq. naive_solver.
Qed.

Lemma announced_nil es : announced es [] → es = ∅.
Proof.
  intros Ha. apply map_eq. intros k. rewrite lookup_empty.
  destruct (es !! k) as [rec|] eqn:Hk; [|done]. apply Ha in Hk. by apply not_elem_of_nil in Hk.
Qed.

Lemma announced_sub es es' q : announced es q → es' ⊆ es → announced es' q.
Proof. intros Ha Hs k rec Hk. apply Ha. by eapply lookup_weaken. Qed.

Lemma announced_drop es it q :
  announced es (it :: q) → announced (if live es it then delete it.1 es else es) q.
Proof.
  intros Ha k rec Hk. destruct (live es it) eqn:Hl.
  - apply lookup_delete_Some in Hk as [Hne Hk]. apply Ha in Hk.
    apply elem_of_cons in Hk as [<-|Hk]; [done|done].
  - pose proof (Ha _ _ Hk) as Hin. apply elem_of_cons in Hin as [<-|Hin]; [|done].
    assert (live es (k, createdAt rec) = true); [|congruence]. apply live_spec. by exists rec.
Qed.

Lemma dropped_sub es it : (if live es it then delete it.1 es else es) ⊆ es.
Proof. destruct (live es it); [apply delete_subseteq|done]. Qed.

Lemma map_size_empty : map_size (∅ : gmap synCacheKey synRecord) = 0.
Proof. unfold map_size. by rewrite map_size_empty. Qed.

Lemma map_size_sub (m1 m2 : gmap synCacheKey synRecord) : m1 ⊆ m2 → map_size m1 ≤ map_size m2.
Proof. intros H. apply map_subseteq_size in H. unfold map_size. lia. Qed.

Lemma suffix_is_sublist {A} (a b : list A) : a `suffix_of` b → a `sublist_of` b.
Proof. intros [k ->]. by apply sublist_inserts_l. Qed.

Lemma evictFIFO_spec es q :
  announced es q →
  let c := evictFIFO es q in
  announced (entries c) (fifo c) ∧ map_size (entries c) < synCacheMax ∧
  entries c ⊆ es ∧ fifo c `suffix_of` q.
Proof.
  revert es. induction q as [|it q IH]; intros es Ha; simpl.
  - apply announced_nil in Ha as ->. rewrite map_size_empty. split_and!; [by intros ??|done..].
  - destruct (Z.leb_spec synCacheMax (map_size es)); [|by split_and!].
    specialize (IH _ (announced_drop _ _ _ Ha)) as (H1 & H2 & H3 & H4).
    split_and!; [done|done|etrans; [exact H3|apply dropped_sub]|by apply suffix_cons_r].
Qed.

Lemma filter_live_announced es q : announced es q → announced es (filter (λ it, live es it = true) q).
Proof.
  intros Ha k rec Hk. apply list_elem_of_filter. split; [|by apply Ha]. apply live_spec. by exists rec.
Qed.

Lemma makeSpace_spec c now :
  announced (entries c) (fifo c) →
  let c' := makeSpaceLocked c now in
  announced (entries c') (fifo c') ∧ map_size (entries c') < synCacheMax ∧
  entries c' ⊆ entries c ∧ fifo c' `sublist_of` fifo c.
Proof.
  intros Ha. unfold makeSpaceLocked.
  set (es := filter _ (entries c)).
  assert (Hes : es ⊆ entries c) by apply map_filter_subseteq.
  destruct (evictFIFO_spec es (fifo c)) as (H1 & H2 & H3 & H4); [by eapply announced_sub|].
  case_match; simpl; split_and!; try done; try by etrans.
  - by apply filter_live_announced.
  - etrans; [apply sublist_filter|by apply suffix_is_sublist].
  - by apply suffix_is_sublist.
Qed.

(** What a reservation leaves behind. *)
Lemma reserve_wf c key now src :
  announced (entries c) (fifo c) →
  let c' := makeSpaceLocked c now in
  cache_wf (mkCache (<[key := mkSyn None now src]> (entries c')) (fifo c' ++ [(key, now)])).
Proof.
  intros Ha. destruct (makeSpace_spec c now Ha) as (H1 & H2 & _ & _). split; simpl.
  - intros k rec [[<- <-]|[_ Hk]]%lookup_insert_Some; rewrite elem_of_app.
    + right. by apply list_elem_of_singleton.
    + left. by apply H1.
  - unfold map_size in *. rewrite map_size_insert. destruct (_ !! key); simpl; lia.
Qed.

(** * Counting reservations *)

Definition item_of (kr : synCacheKey * synRecord) : synFIFOEntry := (kr.1, createdAt kr.2).

Lemma items_NoDup (es : gmap synCacheKey synRecord) : NoDup (map item_of (map_to_list es)).
Proof.
  apply NoDup_fmap_2_strong; [|apply NoDup_map_to_list].
  intros [k r] [k' r'] H1%elem_of_map_to_list H2%elem_of_map_to_list [= -> _].
  by simplify_eq.
Qed.

Lemma announced_size es q : announced es q → map_size es ≤ len q.
Proof.
  intros Ha. assert (Hsub : map item_of (map_to_list es) ⊆+ q).
  { apply NoDup_submseteq; [apply items_NoDup|].
    intros it ([k rec] & -> & Hk%elem_of_map_to_list)%list_elem_of_fmap. by apply Ha. }
  apply submseteq_length in Hsub. rewrite length_fmap, length_map_to_list in Hsub.
  unfold map_size, len. lia.
Qed.

Lemma live_size es q : NoDup q → Forall (λ it, live es it = true) q → len q ≤ map_size es.
Proof.
  intros Hnd Hl. assert (Hsub : q ⊆+ map item_of (map_to_list es)).
  { apply NoDup_submseteq; [done|]. intros it Hit.
    rewrite Forall_forall in Hl. apply Hl, live_spec in Hit as (rec & Hk & Ht).
    apply list_elem_of_fmap. exists (it.1, rec). split.
    - unfold item_of. simpl. rewrite Ht. by destruct it.
    - by apply elem_of_map_to_list. }
  apply submseteq_length in Hsub. rewrite length_fmap, length_map_to_list in Hsub.
  unfold map_size, len. lia.
Qed.

Lemma len_sublist {A} (a b : list A) : a `sublist_of` b → len a ≤ len b.
Proof. intros H%sublist_length. unfold len. lia. Qed.

Lemma makeSpace_fifo c now :
  announced (entries c) (fifo c) → NoDup (fifo c) →
  len (fifo (makeSpaceLocked c now)) ≤ synCacheMax * 2.
Proof.
  intros Ha Hnd. unfold makeSpaceLocked. set (es := filter _ (entries c)).
  assert (Hes : es ⊆ entries c) by apply map_filter_subseteq.
  destruct (evictFIFO_spec es (fifo c)) as (_ & H2 & _ & H4); [by eapply announced_sub|].
  destruct (Z.ltb_spec (synCacheMax * 2) (len (fifo (evictFIFO es (fifo c))))); [|done]. simpl.
  eapply Z.le_trans; [apply (live_size (entries (evictFIFO es (fifo c))))|unfold synCacheMax in *; lia].
  - apply NoDup_filter. eapply sublist_NoDup; [done|by apply suffix_is_sublist].
  - apply Forall_forall. intros it Hit. by apply list_elem_of_filter in Hit as [? _].
Qed.

(** The clock readings of a run's Acquires; the clock ticks between two of them. *)
Definition acquire_time (o : syn_op) : option Z :=
  match o with OpAcquire _ now _ => Some now | _ => None end.
Abbreviation ticking os := (StronglySorted Z.lt (omap acquire_time os)).

Record cache_inv (c : synCache) (future : list Z) : Prop := {
  ci_wf : cache_wf c;
  ci_nodup : NoDup (fifo c);
  ci_fifo : len (fifo c) ≤ synCacheMax * 2 + 1;
  ci_past : ∀ it t, it ∈ fifo c → t ∈ future → it.2 < t;
}.

Lemma new_cache_inv ts : cache_inv newSynCache ts.
Proof.
  split; simpl; [|constructor|done|by intros ?? ?%not_elem_of_nil].
  split; [by intros ??|done].
Qed.

Lemma sub_inv c es ts :
  cache_inv c ts → es ⊆ entries c → cache_inv (mkCache es (fifo c)) ts.
Proof.
  intros [[H1 H2] H3 H4 H5] Hs. split; try done. split; simpl; [by eapply announced_sub|].
  apply map_size_sub in Hs. lia.
Qed.

Lemma complete_inv c key ack ts : cache_inv c ts → cache_inv (Complete c key ack) ts.
Proof.
  intros [[H1 H2] H3 H4 H5]. unfold Complete. destruct (entries c !! key) as [rec|] eqn:Hk; [|done].
  destruct (ackFrame rec); [done|]. split; try done. split; simpl.
  - intros k r [[<- <-]|[_ Hr]]%lookup_insert_Some; [by apply (H1 _ rec)|by apply H1].
  - unfold map_size in *. by rewrite map_size_insert, Hk.
Qed.

Lemma abort_inv c key ts : cache_inv c ts → cache_inv (Abort_ c key) ts.
Proof.
  intros Hi. unfold Abort_. destruct (entries c !! key) as [rec|]; [|done].
  destruct (ackFrame rec); [done|]. apply sub_inv; [done|apply delete_subseteq].
Qed.

Lemma reserve_inv c key now src ts :
  cache_inv c (now :: ts) → StronglySorted Z.lt (now :: ts) →
  let c' := makeSpaceLocked c now in
  cache_inv (mkCache (<[key := mkSyn None now src]> (entries c')) (fifo c' ++ [(key, now)])) ts.
Proof.
  intros [Hwf Hnd Hlen Hpast] Hs c'. inversion Hs as [|? ? _ Hts]; subst.
  destruct (makeSpace_spec c now (cw_announced _ Hwf)) as (_ & _ & _ & Hsub).
  pose proof (makeSpace_fifo c now (cw_announced _ Hwf) Hnd).
  assert (Hin : ∀ it, it ∈ fifo c' → it ∈ fifo c).
  { intros it Hit. eapply elem_of_submseteq; [exact Hit|by apply sublist_submseteq]. }
  split; simpl.
  - by apply reserve_wf, cw_announced.
  - apply NoDup_app. split_and!; [by eapply sublist_NoDup| |apply NoDup_singleton].
    intros it Hit ->%list_elem_of_singleton. apply Hin in Hit.
    pose proof (Hpast _ now Hit ltac:(left)). simpl in *. lia.
  - rewrite len_app. change (len [(key, now)]) with 1. fold c' in H. lia.
  - intros it t. rewrite elem_of_app, list_elem_of_singleton. intros [Hit| ->] Ht.
    + apply Hpast; [by apply Hin|by right].
    + rewrite Forall_forall in Hts. by apply Hts.
Qed.

Lemma acquire_inv c key now src ts :
  cache_inv c (now :: ts) → StronglySorted Z.lt (now :: ts) →
  cache_inv (Acquire c key now src).2 ts.
Proof.
  intros Hi Hs. assert (Hkeep : cache_inv c ts).
  { destruct Hi as [? ? ? Hp]. split; try done. intros it t H1 H2. apply Hp; [done|by right]. }
  unfold Acquire. destruct (entries c !! key) as [rec|].
  - destruct (_ <=? _); [destruct (ackFrame rec); [case_bool_decide|]; done|].
    apply (reserve_inv (mkCache _ _)); [|done]. apply sub_inv; [done|apply delete_subseteq].
  - by apply reserve_inv.
Qed.

Lemma syn_step_inv c o os :
  cache_inv c (omap acquire_time (o :: os)) → ticking (o :: os) →
  cache_inv (syn_step c o).2 (omap acquire_time os) ∧ ticking os.
Proof.
  intros Hi Hs. destruct o as [key now src|key ack|key]; simpl in *.
  - pose proof (acquire_inv c key now src _ Hi Hs).
    destruct (Acquire c key now src). split; [done|by inversion Hs].
  - split; [by apply complete_inv|done].
  - split; [by apply abort_inv|done].
Qed.

Lemma syn_run_inv c os1 os2 :
  cache_inv c (omap acquire_time (os1 ++ os2)) → ticking (os1 ++ os2) →
  cache_inv (syn_run c os1).2 (omap acquire_time os2) ∧ ticking os2.
Proof.
  revert c. induction os1 as [|o os1 IH]; intros c Hi Hs; [done|].
  destruct (syn_step_inv c o (os1 ++ os2) Hi Hs) as [Hi' Hs']. simpl.
  destruct (syn_step c o) as [e c1]. specialize (IH c1 Hi' Hs').
  by destruct (syn_run c1 os1).
Qed.

(** * A reservation and its answers *)

(** The entry of [k] is [rec], and its fifo item has at most [n] items behind it. *)
Definition held (c : synCache) (k : synCacheKey) (rec : synRecord) (n : Z) : Prop :=
  entries c !! k = Some rec ∧
  ∃ pre post, fifo c = pre ++ (k, createdAt rec) :: post ∧ len post ≤ n.

Lemma held_weaken c k rec n m : held c k rec n → n ≤ m → held c k rec m.
Proof. intros (H & pre & post & Hf & Hl) ?. split; [done|]. exists pre, post. split; [done|lia]. Qed.

Lemma evictFIFO_held es q k rec n :
  announced es q → NoDup q → held (mkCache es q) k rec n → n + 1 < synCacheMax →
  held (evictFIFO es q) k rec n.
Proof.
  revert es. induction q as [|it q IH]; intros es Ha Hnd Hh Hn; simpl; [done|].
  destruct (Z.leb_spec synCacheMax (map_size es)) as [Hfull|]; [|done].
  destruct Hh as (Hk & pre & post & Hf & Hl). simpl in *.
  destruct pre as [|it' pre]; simplify_eq/=.
  { apply announced_size in Ha. rewrite len_cons in Ha. lia. }
  apply NoDup_cons in Hnd as [Hnin Hnd].
  apply IH; [by apply announced_drop|done| |done]. split; [|by exists pre, post]. simpl.
  destruct (live es it') eqn:Hlive; [|done]. rewrite lookup_delete_ne; [done|]. intros <-.
  apply live_spec in Hlive as (rec' & Hr & Ht). simplify_eq.
  destruct Hnin. rewrite elem_of_app, elem_of_cons. right. left. rewrite Ht. by destruct it'.
Qed.

Lemma makeSpace_held c now k rec n :
  announced (entries c) (fifo c) → NoDup (fifo c) → held c k rec n →
  now - createdAt rec ≤ synCacheTTL → n + 1 < synCacheMax →
  held (makeSpaceLocked c now) k rec n.
Proof.
  intros Ha Hnd (Hk & pre & post & Hf & Hl) Hnow Hn. unfold makeSpaceLocked.
  set (es := filter _ (entries c)).
  assert (Hes : es ⊆ entries c) by apply map_filter_subseteq.
  assert (Hh : held (evictFIFO es (fifo c)) k rec n).
  { apply evictFIFO_held; [by eapply announced_sub|done| |done].
    split; [|by exists pre, post]. by apply map_lookup_filter_Some. }
  case_match; [|done]. destruct Hh as (Hk' & pre' & post' & Hf' & Hl'). split; [done|]. simpl.
  rewrite Hf', filter_app, filter_cons_True by (apply live_spec; by exists rec).
  eexists _, _. split; [done|].
  eapply Z.le_trans; [apply len_sublist, sublist_filter|done].
Qed.

Definition acquires (o : syn_op) : Z := match o with OpAcquire _ _ _ => 1 | _ => 0 end.
Definition same_reservation (r r' : synRecord) : Prop :=
  createdAt r' = createdAt r ∧ ownerIP r' = ownerIP r ∧
  (∀ a, ackFrame r = Some a → ackFrame r' = Some a).

(** The operations a reservation of [k] made at [t] survives. *)
Definition spares (k : synCacheKey) (t : Z) (o : syn_op) : Prop :=
  match o with
  | OpAcquire _ now _ => now - t ≤ synCacheTTL
  | OpComplete _ _ => True
  | OpAbort k' => k' ≠ k
  end.

Definition grants (k : synCacheKey) (e : syn_event) : Prop :=
  match e with Granted k' _ _ => k' = k | _ => False end.
Definition answers (k : synCacheKey) (a : bytes) (e : syn_event) : Prop :=
  match e with Answered k' _ _ a' => k' = k ∧ a' = a | _ => False end.

Lemma acquire_hit c k rec now src :
  entries c !! k = Some rec → now - createdAt rec ≤ synCacheTTL →
  Acquire c k now src =
    ((if bool_decide (ownerIP rec = src.1) then ackFrame rec else None, false), c).
Proof.
  intros Hk Ht. unfold Acquire. rewrite Hk. apply Z.leb_le in Ht as ->.
  destruct (ackFrame rec); by case_bool_decide.
Qed.

(** Another key's reservation does not touch this one. *)
Lemma reserve_held c k rec n key now src :
  announced (entries c) (fifo c) → NoDup (fifo c) → held c k rec n →
  now - createdAt rec ≤ synCacheTTL → n + 1 < synCacheMax → key ≠ k →
  let c' := makeSpaceLocked c now in
  held (mkCache (<[key := mkSyn None now src]> (entries c')) (fifo c' ++ [(key, now)])) k rec (n + 1).
Proof.
  intros Ha Hnd Hh Ht Hn Hne c'.
  destruct (makeSpace_held c now k rec n Ha Hnd Hh Ht Hn) as (Hk & pre & post & Hf & Hl).
  split; simpl; [by rewrite lookup_insert_ne|].
  exists pre, (post ++ [(key, now)]). fold c' in Hf. rewrite Hf, <- app_assoc. split; [done|].
  rewrite len_app. change (len [(key, now)]) with 1. lia.
Qed.

Lemma acquire_other c k rec n key now src :
  announced (entries c) (fifo c) → NoDup (fifo c) → held c k rec n →
  now - createdAt rec ≤ synCacheTTL → n + 1 < synCacheMax → key ≠ k →
  held (Acquire c key now src).2 k rec (n + 1).
Proof.
  intros Ha Hnd Hh Ht Hn Hne. unfold Acquire.
  destruct (entries c !! key) as [r'|]; [|by apply reserve_held].
  destruct (_ <=? _).
  - apply (held_weaken _ _ _ n); [|lia].
    destruct (ackFrame r'); [case_bool_decide|]; done.
  - apply (reserve_held (mkCache _ _)); try done; simpl.
    + eapply announced_sub; [done|apply delete_subseteq].
    + destruct Hh as [Hk Hf]. split; [|done]. simpl. by rewrite lookup_delete_ne.
Qed.

Lemma same_reservation_refl r : same_reservation r r.
Proof. by split_and!. Qed.
Lemma same_reservation_trans r1 r2 r3 :
  same_reservation r1 r2 → same_reservation r2 r3 → same_reservation r1 r3.
Proof. intros (A1 & B1 & C1) (A2 & B2 & C2). split_and!; [congruence..|]. intros a Ha. by apply C2, C1. Qed.

Lemma complete_held c k rec n key ack :
  held c k rec n → ∃ rec', same_reservation rec rec' ∧ held (Complete c key ack) k rec' n.
Proof.
  intros [Hk Hf]. unfold Complete.
  assert (Hsame : ∃ rec', same_reservation rec rec' ∧ held c k rec' n).
  { exists rec. split; [apply same_reservation_refl|by split]. }
  destruct (entries c !! key) as [r|] eqn:Hr; [|done]. destruct (ackFrame r) eqn:Hack; [done|].
  destruct (decide (key = k)) as [->|Hne]; simplify_eq.
  - exists (mkSyn (copyFrame ack) (createdAt rec) (ownerIP rec)). split.
    + split_and!; [done..|]. intros a Ha. congruence.
    + split; [|done]. simpl. by rewrite lookup_insert_eq.
  - exists rec. split; [apply same_reservation_refl|]. split; [|done]. simpl. by rewrite lookup_insert_ne.
Qed.

Lemma abort_held c k rec n key : held c k rec n → key ≠ k → held (Abort_ c key) k rec n.
Proof.
  intros [Hk Hf] Hne. unfold Abort_. destruct (entries c !! key) as [r|]; [|done].
  destruct (ackFrame r); [done|]. split; [|done]. simpl. by rewrite lookup_delete_ne.
Qed.

(** An event that neither hands [k] out again nor answers it with anything but
    the ACK of [rec]. *)
Definition faithful (k : synCacheKey) (ack : option bytes) (e : syn_event) : Prop :=
  ¬ grants k e ∧ ∀ a, answers k a e → ack = Some a.

Lemma faithful_silent k ack e :
  match e with Granted _ _ _ | Answered _ _ _ _ => False | _ => True end → faithful k ack e.
Proof. destruct e; [done|done|..]; intros; split; simpl; naive_solver. Qed.

Lemma faithful_other k ack e :
  match e with Granted k' _ _ | Answered k' _ _ _ => k' ≠ k | _ => True end → faithful k ack e.
Proof. destruct e; intros; split; simpl; naive_solver. Qed.

Lemma held_step c k rec n o :
  cache_wf c → NoDup (fifo c) → held c k rec n → spares k (createdAt rec) o →
  n + acquires o < synCacheMax →
  ∃ rec', same_reservation rec rec' ∧ held (syn_step c o).2 k rec' (n + acquires o) ∧
          faithful k (ackFrame rec') (syn_step c o).1.
Proof.
  intros Hwf Hnd Hh Hsp Hn. destruct o as [key now src|key ack|key]; simpl in *.
  - exists rec. split; [apply same_reservation_refl|]. destruct (decide (key = k)) as [->|Hne].
    + destruct Hh as [Hk Hf]. rewrite (acquire_hit _ _ _ _ _ Hk Hsp). simpl.
      split; [apply (held_weaken _ _ _ n); [by split|lia]|].
      case_bool_decide; [|by apply faithful_silent].
      destruct (ackFrame rec) as [a|] eqn:Ha; [|by apply faithful_silent].
      split; [by intros []|]. intros a' [_ ->]. done.
    + pose proof (acquire_other c k rec n key now src (cw_announced _ Hwf) Hnd Hh Hsp Hn Hne) as Hh'.
      destruct (Acquire c key now src) as [[[a|] [|]] c']; (split; [exact Hh'|]);
        by apply faithful_other.
  - rewrite Z.add_0_r. destruct (complete_held c k rec n key ack Hh) as (rec' & ? & ?).
    exists rec'. split_and!; [done|done|by apply faithful_silent].
  - rewrite Z.add_0_r. exists rec. split; [apply same_reservation_refl|].
    split; [by apply abort_held|by apply faithful_silent].
Qed.

Definition total_acquires (os : list syn_op) : Z := foldr (λ o n, acquires o + n) 0 os.

Lemma acquires_nonneg os : 0 ≤ total_acquires os.
Proof. induction os as [|[] os IH]; simpl; unfold total_acquires in *; lia. Qed.

Lemma faithful_mono k r r' e : same_reservation r r' → faithful k (ackFrame r) e → faithful k (ackFrame r') e.
Proof. intros (_ & _ & H) [H1 H2]. split; [done|]. intros a Ha. by apply H, H2. Qed.

Lemma held_run c k rec n os :
  cache_inv c (omap acquire_time os) → ticking os → held c k rec n →
  Forall (spares k (createdAt rec)) os → n + total_acquires os < synCacheMax →
  ∃ rec', same_reservation rec rec' ∧ Forall (faithful k (ackFrame rec')) (syn_run c os).1.
Proof.
  revert c rec n. induction os as [|o os IH]; intros c rec n Hi Hs Hh Hsp Hn; simpl.
  { exists rec. split; [apply same_reservation_refl|constructor]. }
  apply Forall_cons in Hsp as [Ho Hsp]. pose proof (acquires_nonneg os).
  change (total_acquires (o :: os)) with (acquires o + total_acquires os) in Hn.
  destruct (held_step c k rec n o (ci_wf _ _ Hi) (ci_nodup _ _ Hi) Hh Ho ltac:(lia))
    as (rec1 & Hsame & Hh1 & He).
  destruct (syn_step_inv c o os Hi Hs) as [Hi1 Hs1].
  destruct (syn_step c o) as [e c1]. simpl in *.
  destruct (IH c1 rec1 (n + acquires o)) as (rec2 & Hsame2 & Hevs); [done..| |lia|].
  { by rewrite (proj1 Hsame). }
  destruct (syn_run c1 os) as [es c2]. simpl in *.
  exists rec2. split; [by eapply same_reservation_trans|].
  constructor; [by eapply faithful_mono|done].
Qed.

Lemma granted_reserve c key now src :
  (syn_step c (OpAcquire key now src)).1 = Granted key now src →
  ∃ c0, (syn_step c (OpAcquire key now src)).2 =
    (let c' := makeSpaceLocked c0 now in
     mkCache (<[key := mkSyn None now src.1]> (entries c')) (fifo c' ++ [(key, now)])).
Proof.
  simpl. unfold Acquire. destruct (entries c !! key) as [r|].
  - destruct (_ <=? _); [|by exists (mkCache (delete key (entries c)) (fifo c))].
    destruct (ackFrame r); [case_bool_decide|]; done.
  - by exists c.
Qed.

Lemma granted_held c key now src :
  (syn_step c (OpAcquire key now src)).1 = Granted key now src →
  held (syn_step c (OpAcquire key now src)).2 key (mkSyn None now src.1) 0.
Proof.
  intros (c0 & ->)%granted_reserve. split; simpl; [by rewrite lookup_insert_eq|].
  by eexists _, [].
Qed.

(** * What an answer rests on *)

Definition grant_time (k : synCacheKey) (h : list syn_event) (t : Z) (ip : Addr) (ack : option bytes) : Prop :=
  ∃ h1 src h2, h = h1 ++ Granted k t src :: h2 ∧ src.1 = ip ∧ Forall (λ e, ¬ grants k e) h2 ∧
    ∀ a, ack = Some a → a ≠ [] ∧ Completed k a ∈ h2.

Definition recorded (h : list syn_event) (c : synCache) : Prop :=
  ∀ k rec, entries c !! k = Some rec → grant_time k h (createdAt rec) (ownerIP rec) (ackFrame rec).

Lemma grant_time_snoc k h t ip ack e :
  ¬ grants k e → grant_time k h t ip ack → grant_time k (h ++ [e]) t ip ack.
Proof.
  intros He (h1 & src & h2 & -> & ? & Hg & Ha). exists h1, src, (h2 ++ [e]).
  rewrite <- app_assoc. split_and!; [done|done|apply Forall_app; split; [done|by constructor]|].
  intros a Hack. destruct (Ha a Hack). rewrite elem_of_app. tauto.
Qed.

Lemma recorded_sub h c c' e :
  entries c' ⊆ entries c → (∀ k, ¬ grants k e) → recorded h c → recorded (h ++ [e]) c'.
Proof. intros Hs He Hr k rec Hk. apply grant_time_snoc; [done|]. apply Hr. by eapply lookup_weaken. Qed.

Lemma recorded_reserve h c c' k now src :
  entries c' ⊆ entries c → recorded h c →
  recorded (h ++ [Granted k now src])
    (mkCache (<[k := mkSyn None now src.1]> (entries c')) (fifo c' ++ [(k, now)])).
Proof.
  intros Hs Hr k' rec Hk. simpl in Hk. apply lookup_insert_Some in Hk as [[<- <-]|[Hne Hk]].
  - exists h, src, []. by split_and!.
  - apply grant_time_snoc; [by intros ?|]. apply Hr. by eapply lookup_weaken.
Qed.

Lemma evictFIFO_sub es q : entries (evictFIFO es q) ⊆ es.
Proof.
  revert es. induction q as [|it q IH]; intros es; simpl; [done|].
  destruct (_ <=? _); [|done]. etrans; [apply IH|apply dropped_sub].
Qed.

Lemma makeSpace_sub c now : entries (makeSpaceLocked c now) ⊆ entries c.
Proof.
  unfold makeSpaceLocked. case_match; simpl; (etrans; [apply evictFIFO_sub|apply map_filter_subseteq]).
Qed.

Lemma recorded_quiet h c e :
  match e with Granted _ _ _ => False | _ => True end → recorded h c → recorded (h ++ [e]) c.
Proof. intros He. apply recorded_sub; [done|]. intros k Hg. by destruct e. Qed.

Lemma recorded_step h c o :
  recorded h c → recorded (h ++ [(syn_step c o).1]) (syn_step c o).2.
Proof.
  intros Hr. destruct o as [key now src|key ack|key]; simpl.
  - unfold Acquire. destruct (entries c !! key) as [r|]; [destruct (_ <=? _)|]; simpl.
    + destruct (ackFrame r); [case_bool_decide|]; simpl; by apply recorded_quiet.
    + apply (recorded_reserve h c); [|done]. etrans; [apply makeSpace_sub|apply delete_subseteq].
    + apply (recorded_reserve h c); [apply makeSpace_sub|done].
  - unfold Complete. destruct (entries c !! key) as [r|] eqn:Hk; [|by apply recorded_quiet].
    destruct (ackFrame r) eqn:Hack; [by apply recorded_quiet|].
    intros k rec Hk'. simpl in Hk'. apply lookup_insert_Some in Hk' as [[<- <-]|[Hne Hk']]; simpl.
    + destruct (Hr _ _ Hk) as (h1 & src & h2 & -> & ? & Hg & _).
      exists h1, src, (h2 ++ [Completed key ack]). rewrite <- app_assoc.
      split_and!; [done|done|apply Forall_app; split; [done|by constructor; [intros []|]]|].
      intros a Ha. destruct ack; simplify_eq/=. split; [done|].
      apply elem_of_app. right. by left.
    + apply grant_time_snoc; [by intros []|]. by apply Hr.
  - apply (recorded_sub h c); [|by intros ? []|done].
    unfold Abort_. destruct (entries c !! key) as [r|]; [|done].
    destruct (ackFrame r); [done|apply delete_subseteq].
Qed.

Lemma recorded_run h c os :
  recorded h c → recorded (h ++ (syn_run c os).1) (syn_run c os).2.
Proof.
  revert h c. induction os as [|o os IH]; intros h c Hr; simpl; [by rewrite app_nil_r|].
  apply recorded_step with (o := o) in Hr. destruct (syn_step c o) as [e c1]. simpl in Hr.
  apply IH in Hr. destruct (syn_run c1 os) as [es c2]. simpl in *.
  rewrite <- app_assoc in Hr. exact Hr.
Qed.

Lemma answered_entry c k now src a :
  (syn_step c (OpAcquire k now src)).1 = Answered k now src a →
  ∃ rec, entries c !! k = Some rec ∧ now - createdAt rec ≤ synCacheTTL ∧
         ownerIP rec = src.1 ∧ ackFrame rec = Some a.
Proof.
  simpl. unfold Acquire. destruct (entries c !! k) as [r|]; [|done].
  destruct (Z.leb_spec (now - createdAt r) synCacheTTL); [|done].
  destruct (ackFrame r) as [a'|] eqn:Ha; [|done]. case_bool_decide; [|done].
  intros [= <-]. by exists r.
Qed.

(** * The limiter *)

Definition range_bs_ok (range : bucket_map → list bytes) : Prop :=
  ∀ m, range m ≡ₚ (map_to_list m).*1.

Lemma oldestBucket_in keys bs :
  match oldestBucket keys bs with
  | Some (k, _) => k ∈ keys ∧ is_Some (bs !! k)
  | None => ∀ k, k ∈ keys → bs !! k = None
  end.
Proof.
  induction keys as [|k keys IH] using rev_ind; [by intros ? ?%not_elem_of_nil|].
  unfold oldestBucket in *. rewrite foldl_app. simpl.
  destruct (foldl _ None keys) as [[k0 o]|], (bs !! k) as [ob|] eqn:Hk.
  - destruct IH as [IH1 IH2].
    destruct (_ <? _); rewrite elem_of_app, list_elem_of_singleton; [|tauto].
    split; [by right|by eexists].
  - destruct IH as [IH1 IH2]. split; [|done]. apply elem_of_app. by left.
  - rewrite elem_of_app, list_elem_of_singleton. split; [by right|by eexists].
  - intros k'. rewrite elem_of_app, list_elem_of_singleton. intros [?| ->]; [by apply IH|done].
Qed.

Lemma bucket_size_sub (m1 m2 : bucket_map) : m1 ⊆ m2 → map_size m1 ≤ map_size m2.
Proof. intros H. apply map_subseteq_size in H. unfold map_size. lia. Qed.

Lemma pruneBuckets_room bs now range :
  range_bs_ok range → map_size bs ≤ synLimiterMaxBuckets →
  map_size (pruneBuckets bs now range) < synLimiterMaxBuckets.
Proof.
  intros Hr Hbs. unfold pruneBuckets. destruct (Z.leb_spec synLimiterMaxBuckets (map_size bs)); [|done].
  set (bs' := filter _ bs).
  assert (Hsub : map_size bs' ≤ map_size bs) by apply bucket_size_sub, map_filter_subseteq.
  destruct (Z.leb_spec synLimiterMaxBuckets (map_size bs')); [|done].
  pose proof (oldestBucket_in (range bs') bs') as Ho.
  destruct (oldestBucket (range bs') bs') as [[k t]|].
  - destruct Ho as [_ [b Hb]]. unfold map_size in *. rewrite map_size_delete, Hb. simpl.
    unfold synLimiterMaxBuckets in *. lia.
  - assert (bs' = ∅) as ->; [|unfold map_size, synLimiterMaxBuckets in *; rewrite stdpp.fin_maps.map_size_empty in *; lia].
    apply map_eq. intros k. rewrite lookup_empty. destruct (bs' !! k) as [b|] eqn:Hb; [|done].
    rewrite <- Hb. apply Ho. rewrite (Hr bs'). apply list_elem_of_fmap. exists (k, b). split; [done|].
    by apply elem_of_map_to_list.
Qed.

Lemma Allow_size l ip now range :
  range_bs_ok range → map_size (buckets l) ≤ synLimiterMaxBuckets →
  map_size (buckets (Allow l ip now range).2) ≤ synLimiterMaxBuckets.
Proof.
  intros Hr Hl. unfold Allow. destruct (buckets l !! ip) as [b|] eqn:Hb.
  - destruct (takeToken _ _ b now). simpl. unfold map_size in *. by rewrite map_size_insert, Hb.
  - pose proof (pruneBuckets_room (buckets l) now range Hr Hl).
    destruct (takeToken _ _ _ now). simpl. unfold map_size in *. rewrite map_size_insert.
    case_match; unfold id; lia.
Qed.

(** A run of the limiter: who asked, when, and the map order met. *)
Fixpoint allow_run (l : synLimiter) (qs : list (bytes * Z * (bucket_map → list bytes))) :
    list bool * synLimiter :=
  match qs with
  | [] => ([], l)
  | (ip, now, range) :: qs =>
      let '(ok, l) := Allow l ip now range in
      let '(oks, l) := allow_run l qs in (ok :: oks, l)
  end.

Lemma allow_run_size l qs :
  Forall (λ q, range_bs_ok q.2) qs → map_size (buckets l) ≤ synLimiterMaxBuckets →
  map_size (buckets (allow_run l qs).2) ≤ synLimiterMaxBuckets.
Proof.
  revert l. induction qs as [|[[ip now] range] qs IH]; intros l Hq Hl; simpl; [done|].
  apply Forall_cons in Hq as [Hr Hq]. pose proof (Allow_size l ip now range Hr Hl).
  destruct (Allow l ip now range) as [ok l']. simpl in *.
  specialize (IH l' Hq H). by destruct (allow_run l' qs).
Qed.

(** A source's state after [n] of its SYNs at one instant. *)
Definition spent (l : synLimiter) (ip : bytes) (now : Z) (n : nat) : Prop :=
  rate_ l = synRatePerSec ∧ burst_ l = synBurst ∧
  buckets l !! ip = Some (mkBucket (f64_of_int (20 - Z.of_nat n)) now).

Lemma takeToken_at_once n now :
  (n < 20)%nat →
  takeToken synRatePerSec synBurst (mkBucket (f64_of_int (20 - Z.of_nat n)) now) now =
    (true, mkBucket (f64_of_int (20 - Z.of_nat (S n))) now).
Proof.
  intros Hn. unfold takeToken. simpl tokens. simpl last_. rewrite Z.sub_diag.
  do 20 (destruct n as [|n]; [vm_compute; reflexivity|]). lia.
Qed.

Lemma takeToken_spent now :
  takeToken synRatePerSec synBurst (mkBucket (f64_of_int (20 - Z.of_nat 20)) now) now =
    (false, mkBucket (f64_of_int (20 - Z.of_nat 20)) now).
Proof. unfold takeToken. simpl tokens. simpl last_. rewrite Z.sub_diag. vm_compute. reflexivity. Qed.

Lemma Allow_at_once l ip now range n :
  (n < 20)%nat → spent l ip now n →
  let '(ok, l') := Allow l ip now range in ok = true ∧ spent l' ip now (S n).
Proof.
  intros Hn (Hr & Hb & Hk). unfold Allow, spent. rewrite Hk, Hr, Hb, (takeToken_at_once n now Hn).
  split_and!; [done..|]. apply lookup_insert_eq.
Qed.

Lemma Allow_spent l ip now range :
  spent l ip now 20 →
  let '(ok, l') := Allow l ip now range in ok = false ∧ spent l' ip now 20.
Proof.
  intros (Hr & Hb & Hk). unfold Allow, spent. rewrite Hk, Hr, Hb, (takeToken_spent now).
  split_and!; [done..|]. apply lookup_insert_eq.
Qed.

Lemma Allow_first l ip now range :
  rate_ l = synRatePerSec → burst_ l = synBurst → buckets l !! ip = None →
  let '(ok, l') := Allow l ip now range in ok = true ∧ spent l' ip now 1.
Proof.
  intros Hr Hb Hk. unfold Allow, spent. rewrite Hk, Hr, Hb.
  change synBurst with (f64_of_int (20 - Z.of_nat 0)) at 2.
  rewrite (takeToken_at_once 0 now ltac:(lia)).
  split_and!; [done..|]. apply lookup_insert_eq.
Qed.

Lemma spent_run l ip now n m ranges :
  (n ≤ 20)%nat → length ranges = m → spent l ip now n →
  (allow_run l (map (λ r, (ip, now, r)) ranges)).1 =
    replicate (Nat.min m (20 - n)) true ++ replicate (m - (20 - n)) false.
Proof.
  revert l n m. induction ranges as [|r ranges IH]; intros l n m Hn <- Hs; [done|]. simpl.
  destruct (decide (n = 20%nat)) as [->|Hne].
  - pose proof (Allow_spent l ip now r Hs). destruct (Allow l ip now r) as [ok l'].
    destruct H as [-> Hs']. specialize (IH l' 20%nat _ Hn eq_refl Hs').
    destruct (allow_run l' _) as [oks l'']. simpl in *. rewrite IH. by rewrite Nat.min_0_r, Nat.sub_0_r.
  - pose proof (Allow_at_once l ip now r n ltac:(lia) Hs). destruct (Allow l ip now r) as [ok l'].
    destruct H as [-> Hs']. specialize (IH l' (S n) _ ltac:(lia) eq_refl Hs').
    destruct (allow_run l' _) as [oks l'']. simpl in *. rewrite IH.
    replace (20 - n)%nat with (S (20 - S n)) by lia. done.
Qed.

(** * Properties *)

(** One handshake per nonce: after a key is granted, no later Acquire
    is granted the same key, and all cached answers it gets carry the same ACK,
    for as long as the reservation is not aborted, its lifetime has not run out
    and fewer than 4096 Acquires came after it. *)
Theorem syn_reservation_exclusive os1 key now src os2 :
  ticking (os1 ++ OpAcquire key now src :: os2) →
  let c := (syn_run newSynCache os1).2 in
  let '(e, c') := syn_step c (OpAcquire key now src) in
  e = Granted key now src →
  Forall (spares key now) os2 → total_acquires os2 < synCacheMax →
  ∃ ack, Forall (λ e, ¬ grants key e ∧ ∀ a, answers key a e → ack = Some a) (syn_run c' os2).1.
Proof.
  intros Hs c. destruct (syn_step c _) as [e c'] eqn:Hstep. intros -> Hsp Hn.
  destruct (syn_run_inv newSynCache os1 _ (new_cache_inv _) Hs) as [Hi Hs'].
  pose proof (syn_step_inv c _ os2 Hi Hs') as [Hi' Hs''].
  pose proof (granted_held c key now src) as Hh. rewrite Hstep in *.
  destruct (held_run c' key _ 0 os2 Hi' Hs'' (Hh eq_refl) Hsp ltac:(lia)) as (rec & _ & Hf).
  by exists (ackFrame rec).
Qed.

(** C40: (safety) A cached ACK reaches only the address that asked first: whenever
    Acquire answers with an ACK, the last grant of that key was to the same IP, no
    longer ago than the cache lifetime, and that very ACK was published for the
    key since. *)
Theorem syn_answer_sound os key now src a :
  let '(h, c) := syn_run newSynCache os in
  (syn_step c (OpAcquire key now src)).1 = Answered key now src a →
  ∃ h1 t src0 h2, h = h1 ++ Granted key t src0 :: h2 ∧ src0.1 = src.1 ∧
    now - t ≤ synCacheTTL ∧ Forall (λ e, ¬ grants key e) h2 ∧
    a ≠ [] ∧ Completed key a ∈ h2.
Proof.
  pose proof (recorded_run [] newSynCache os ltac:(by intros ??)) as Hr. simpl in Hr.
  destruct (syn_run newSynCache os) as [h c]. simpl in Hr.
  intros (rec & Hk & Ht & Hip & Hack)%answered_entry.
  destruct (Hr _ _ Hk) as (h1 & src0 & h2 & -> & Hs & Hg & Ha).
  destruct (Ha a Hack). exists h1, (createdAt rec), src0, h2. by rewrite Hs, Hip.
Qed.

(** The cache's memory is bounded whatever a flood of SYNs does: after
    any run from the empty cache it holds at most 4096 entries, each announced by
    a fifo item, and at most 8193 fifo items. *)
Theorem syn_cache_bounded os :
  ticking os →
  let c := (syn_run newSynCache os).2 in
  cache_wf c ∧ map_size (entries c) ≤ 4096 ∧ len (fifo c) ≤ 8193.
Proof.
  intros Hs. rewrite <- (app_nil_r os) in Hs.
  destruct (syn_run_inv newSynCache os [] (new_cache_inv _) Hs) as [[Hwf _ Hl _] _].
  split_and!; [done|apply Hwf|done].
Qed.

(** The limiter tracks at most 1024 sources however many addresses a
    flood forges. *)
Theorem syn_limiter_bounded rate burst qs :
  Forall (λ q, range_bs_ok q.2) qs →
  map_size (buckets (allow_run (newSynLimiter rate burst) qs).2) ≤ 1024.
Proof. intros. by apply allow_run_size. Qed.

(** A new source gets a burst of exactly twenty: of its SYNs at one
    instant the first twenty pass and every other is dropped, whatever the buckets of
    the other sources. *)
Theorem syn_limiter_burst l ip now ranges :
  rate_ l = synRatePerSec → burst_ l = synBurst → buckets l !! ip = None →
  (allow_run l (map (λ r, (ip, now, r)) ranges)).1 =
    replicate (Nat.min (length ranges) 20) true ++ replicate (length ranges - 20) false.
Proof.
  intros Hr Hb Hk. destruct ranges as [|r ranges]; [done|]. simpl.
  pose proof (Allow_first l ip now r Hr Hb Hk) as H. destruct (Allow l ip now r) as [ok l'].
  destruct H as [-> Hs]. pose proof (spent_run l' ip now 1 _ ranges ltac:(lia) eq_refl Hs) as IH.
  destruct (allow_run l' _) as [oks l'']. simpl in *. by rewrite IH.
Qed.

(** * Witnesses *)

Definition wit_key : synCacheKey := makeSynCacheKey [1; 2; 3] (repeat 7 32).
Definition wit_ops : list syn_op :=
  [OpAcquire wit_key 5 (str "192.0.2.1", 4000); OpComplete wit_key [9; 9]].

Definition wit_src : AddrPort := (str "192.0.2.1", 4000).
Definition wit_later : list syn_op :=
  [OpComplete wit_key [9; 9]; OpAcquire wit_key 6 (str "192.0.2.1", 4001);
   OpAcquire wit_key 7 (str "198.51.100.9", 4000)].

Example wit_later_events :
  (syn_run (syn_step newSynCache (OpAcquire wit_key 5 wit_src)).2 wit_later).1 =
    [Completed wit_key [9; 9]; Answered wit_key 6 (str "192.0.2.1", 4001) [9; 9];
     Ignored wit_key 7 (str "198.51.100.9", 4000)].
Proof. vm_compute. reflexivity. Qed.

Lemma syn_reservation_exclusive_witness :
  ∃ ack, Forall (λ e, ¬ grants wit_key e ∧ ∀ a, answers wit_key a e → ack = Some a)
    (syn_run (syn_step newSynCache (OpAcquire wit_key 5 wit_src)).2 wit_later).1.
Proof.
  assert (Ht : ticking ([] ++ OpAcquire wit_key 5 wit_src :: wit_later)).
  { simpl. repeat constructor. }
  pose proof (syn_reservation_exclusive [] wit_key 5 wit_src wit_later Ht) as H.
  assert (Hg : (syn_step newSynCache (OpAcquire wit_key 5 wit_src)).1 = Granted wit_key 5 wit_src).
  { vm_compute. reflexivity. }
  change (syn_run newSynCache []).2 with newSynCache in H. cbv zeta in H.
  destruct (syn_step newSynCache (OpAcquire wit_key 5 wit_src)) as [e c'].
  apply H; [exact Hg| |vm_compute; reflexivity].
  unfold wit_later, spares, synCacheTTL. repeat constructor; vm_compute; discriminate.
Defined.

Lemma syn_answer_sound_witness :
  ∃ h1 t src0 h2, (syn_run newSynCache wit_ops).1 = h1 ++ Granted wit_key t src0 :: h2 ∧
    src0.1 = str "192.0.2.1" ∧ 6 - t ≤ synCacheTTL ∧ Forall (λ e, ¬ grants wit_key e) h2 ∧
    [9; 9] ≠ [] ∧ Completed wit_key [9; 9] ∈ h2.
Proof.
  pose proof (syn_answer_sound wit_ops wit_key 6 (str "192.0.2.1", 4001) [9; 9]) as H.
  destruct (syn_run newSynCache wit_ops) as [h c] eqn:Hr. apply H.
  assert (Hc : c = (syn_run newSynCache wit_ops).2) by (rewrite Hr; reflexivity).
  rewrite Hc. vm_compute. reflexivity.
Defined.

Lemma syn_cache_bounded_witness :
  ticking wit_ops ∧ map_size (entries (syn_run newSynCache wit_ops).2) ≤ 4096.
Proof.
  assert (Ht : ticking wit_ops) by (simpl; repeat constructor).
  split; [exact Ht|]. destruct (syn_cache_bounded wit_ops Ht) as (_ & H & _). exact H.
Defined.

Lemma any_bucket_range_ok : range_bs_ok (λ m, (map_to_list m).*1).
Proof. intros m. reflexivity. Qed.

Lemma syn_limiter_bounded_witness :
  map_size (buckets (allow_run (newSynLimiter synRatePerSec synBurst)
    [(str "192.0.2.1", 0, λ m, (map_to_list m).*1)]).2) ≤ 1024.
Proof.
  apply syn_limiter_bounded. constructor; [exact any_bucket_range_ok|constructor].
Defined.

Lemma syn_limiter_burst_witness :
  (allow_run (mkLimiter ∅ synRatePerSec synBurst)
     (map (λ r, (str "192.0.2.1", 7, r)) (replicate 22 (λ m, (map_to_list m).*1)))).1 =
    replicate 20 true ++ replicate 2 false.
Proof.
  exact (syn_limiter_burst (mkLimiter ∅ synRatePerSec synBurst) (str "192.0.2.1") 7
    (replicate 22 (λ m, (map_to_list m).*1)) eq_refl eq_refl eq_refl).
Defined.

Example new_limiter_values :
  rate_ (newSynLimiter synRatePerSec synBurst) = synRatePerSec ∧
  burst_ (newSynLimiter synRatePerSec synBurst) = synBurst.
Proof. split; vm_compute; reflexivity. Qed.
