(* ===== verification/Arq.v ===== *)
(** The sending half of a session, shared by src/tunnel/client.go and
    src/tunnel/server.go: sequence numbers, the map of unacknowledged records,
    cumulative and selective acknowledgement, and the size of a record.

    The two files implement it twice.  The definitions follow the client; where
    the server's text differs it has a definition of its own ([server_ackOne],
    [ServerSession_maxPayload]) and a theorem relates the two.  Each definition is
    one critical section of [unackedMu] with one clock reading [now]; blocking on
    the condition variable is the test [windowFull]. *)
From S2P Require Import Prelude F64 Protocol Rtt FecLoss Erasure FecBlock FecSender Delivery AckCoalesce Flow Sack.
Local Open Scope Z_scope.

Definition defaultSendWindow : Z := 256.

(** * Record size *)

Definition payloadCap (maxPkt : Z) : Z := maxPkt - UDPC_HDR_SIZE - UDPC_TRAILER_SIZE.

Definition effectivePayloadCap (maxPkt : Z) : Z :=
  if maxPkt <=? 0 then payloadCap maxPktCeiling else payloadCap maxPkt.

(** [clientSession.maxPayload] *)
Definition clientSession_maxPayload (sendCap : Z) (fec : bool) : Z :=
  let cap := effectivePayloadCap sendCap in
  if fec then fecDataPayloadCap cap else cap.

(** [ServerSession.maxPayload] *)
Definition ServerSession_maxPayload (serverMaxPkt sessMaxPkt observed : Z) (fec : bool) : Z :=
  let ceiling := effectivePayloadCap serverMaxPkt in
  let budget := if (0 <? sessMaxPkt) && (payloadCap sessMaxPkt <? ceiling)
                then payloadCap sessMaxPkt else ceiling in
  let budget := if fec then fecDataPayloadCap budget else budget in
  if (budget <? observed) && (observed <=? ceiling) then observed else budget.

(** * State *)

Section WithCodec.
Context {RS : ReedSolomon}.

Record arqSender := mkArq {
  sendSeq : Z;
  unacked : outstanding_map;
  lowestOutstanding : Z;
  rttEst : rttEstimator;
  aflow : option sendFlow;
  fecSend : option fecSender;
  hasTx : bool;      (* s.tx != nil *)
  cfgWindow : Z;     (* the configured send window *)
}.

Definition newArq (flow : option sendFlow) (fec : option fecSender) (tx : bool) (window : Z) : arqSender :=
  mkArq 1 ∅ 0 newDefaultRTTEstimator flow fec tx window.

Definition set_seq (a : arqSender) (n : Z) : arqSender :=
  mkArq n (unacked a) (lowestOutstanding a) (rttEst a) (aflow a) (fecSend a) (hasTx a) (cfgWindow a).
Definition set_unacked (a : arqSender) (m : outstanding_map) (lo : Z) : arqSender :=
  mkArq (sendSeq a) m lo (rttEst a) (aflow a) (fecSend a) (hasTx a) (cfgWindow a).
Definition set_rtt (a : arqSender) (e : rttEstimator) : arqSender :=
  mkArq (sendSeq a) (unacked a) (lowestOutstanding a) e (aflow a) (fecSend a) (hasTx a) (cfgWindow a).
Definition set_flow (a : arqSender) (fl : option sendFlow) : arqSender :=
  mkArq (sendSeq a) (unacked a) (lowestOutstanding a) (rttEst a) fl (fecSend a) (hasTx a) (cfgWindow a).
Definition set_fec (a : arqSender) (f : option fecSender) : arqSender :=
  mkArq (sendSeq a) (unacked a) (lowestOutstanding a) (rttEst a) (aflow a) f (hasTx a) (cfgWindow a).

Definition sendWindow (a : arqSender) : Z :=
  match aflow a with
  | Some fl => flow_window fl
  | None => if 0 <? cfgWindow a then cfgWindow a else defaultSendWindow
  end.

Definition outstanding (a : arqSender) : Z := Z.of_nat (size (unacked a)).

(** The condition [sendRecord] waits on. *)
Definition windowFull (a : arqSender) : bool := sendWindow a <=? outstanding a.

(** * Filing a record *)

(** [s.sendSeq.Add(1) - 1] *)
Definition takeSeq (a : arqSender) : Z * arqSender :=
  let next := u64 (sendSeq a + 1) in (u64 (next - 1), set_seq a next).

(** The second critical section of [sendRecord]. *)
Definition fileRecord (a : arqSender) (sq : Z) (wire : bytes) (now : Z) : arqSender :=
  let lo := if outstanding a =? 0 then sq else lowestOutstanding a in
  set_unacked a (<[sq := mkPkt wire now now (RTO (rttEst a)) false (hasTx a) 0]> (unacked a)) lo.

(** * Cumulative acknowledgement *)

(** The state the deletion loop threads: the map, the count, [spurious], the
    flow and the FEC sender. *)
Record ackLoop := mkLoop {
  al_map : outstanding_map;
  al_count : Z;
  al_spurious : bool;
  al_flow : option sendFlow;
  al_fec : option fecSender;
}.

Definition observeAckOf (f : fecSender) (retransmitted : bool) : fecSender :=
  set_adaptive f (observeAck (adaptive f) retransmitted).

(** One round of the client's loop. *)
Definition client_ackOne (srtt now : Z) (l : ackLoop) (sq : Z) : ackLoop :=
  let pkt := al_map l !! sq in
  let fec := match pkt, al_fec l with
             | Some p, Some f => Some (observeAckOf f (0 <? retries p))
             | _, f => f
             end in
  let '(spurious, flow) :=
    match pkt, al_flow l with
    | Some p, Some fl =>
        if al_spurious l then (true, al_flow l)
        else let '(b, fl) := undoIfSpurious fl (Some p) srtt now in (b, Some fl)
    | _, fl => (al_spurious l, fl)
    end in
  let count := if bool_decide (is_Some pkt) then al_count l + 1 else al_count l in
  mkLoop (delete sq (al_map l)) count spurious flow fec.

(** One round of the server's loop. *)
Definition server_ackOne (srtt now : Z) (l : ackLoop) (sq : Z) : ackLoop :=
  match al_map l !! sq with
  | None => l
  | Some p =>
      let fec := (λ f, observeAckOf f (0 <? retries p)) <$> al_fec l in
      let '(spurious, flow) :=
        match al_flow l with
        | Some fl =>
            if negb (al_spurious l)
            then let '(b, fl) := undoIfSpurious fl (Some p) srtt now in (b, Some fl)
            else (al_spurious l, al_flow l)
        | None => (al_spurious l, None)
        end in
      mkLoop (delete sq (al_map l)) (al_count l + 1) spurious flow fec
  end.

(** [for seq := s.lowestOutstanding; seq <= ackSeq; seq++]; ackSeq is below the
    next sequence number. *)
Definition ackRange (a : arqSender) (ackSeq : Z) : list Z :=
  seqZ (lowestOutstanding a) (ackSeq - lowestOutstanding a + 1).

Definition minSeq (m : outstanding_map) : Z := foldr Z.min max_u64 (map_to_list m).*1.

(** The watermark after the deletions. *)
Definition newLowest (m : outstanding_map) (ackSeq : Z) : Z :=
  if Z.of_nat (size m) =? 0 then u64 (ackSeq + 1)
  else if bool_decide (is_Some (m !! u64 (ackSeq + 1))) then u64 (ackSeq + 1)
  else minSeq m.

(** The RTT sample a first transmission's acknowledgement gives. *)
Definition sampleAck (a : arqSender) (ackSeq now : Z) : arqSender :=
  match unacked a !! ackSeq with
  | Some p =>
      if (retries p =? 0) && negb (queued p) then
        let sample := now - firstSent p in
        set_flow (set_rtt a (Sample (rttEst a) sample)) ((λ fl, observeRTT fl sample) <$> aflow a)
      else a
  | None => a
  end.

Definition handleAck_with (ackOne : Z → Z → ackLoop → Z → ackLoop)
    (a : arqSender) (ackSeq now : Z) : arqSender :=
  if (0 <? sendSeq a) && (sendSeq a <=? ackSeq) then a else
  if (outstanding a =? 0) || (ackSeq <? lowestOutstanding a) then a else
  let a := sampleAck a ackSeq now in
  let l := foldl (ackOne (SRTT (rttEst a)) now)
             (mkLoop (unacked a) 0 false (aflow a) (fecSend a)) (ackRange a ackSeq) in
  let a := set_unacked a (al_map l) (newLowest (al_map l) ackSeq) in
  set_flow (set_fec a (al_fec l)) ((λ fl, acknowledged fl (al_count l) now) <$> al_flow l).

(** [clientSession.handleAck] and [ServerSession.handleAck] *)
Definition handleAck : arqSender → Z → Z → arqSender := handleAck_with client_ackOne.
Definition ServerSession_handleAck : arqSender → Z → Z → arqSender := handleAck_with server_ackOne.

(** * Selective acknowledgement *)

(** [handleSACK]: the records to resend and the new state. *)
Definition handleSACK (a : arqSender) (f : UDPCFrame) (now : Z) : list bytes * arqSender :=
  match aflow a with
  | None => ([], a)
  | Some _ =>
      let '((wires, valid), (fl, m)) :=
        updateSACK (aflow a) (unacked a) f (u64 (sendSeq a - 1)) (SRTT (rttEst a)) now in
      let a := set_flow (set_unacked a m (lowestOutstanding a)) fl in
      (wires, if valid && (0 <? Ack f) then handleAck a (Ack f) now else a)
  end.

(** The retransmission part of one wake of [retransmitLoop]: the wires, whether
    the session is abandoned, the delay and whether to probe. *)
Definition retransmitWake (a : arqSender) (now : Z) : (list bytes * bool * Z * bool) * arqSender :=
  let '(r, (fl, m)) := retryDue (unacked a) now rttMaxRTO (aflow a) (SRTT (rttEst a)) in
  (r, set_flow (set_unacked a m (lowestOutstanding a)) fl).

(** [markBatchTransmitted]'s section under the lock. *)
Definition markBatch (a : arqSender) (wires : list bytes) (now : Z) : arqSender :=
  set_unacked a (markTransmitted (unacked a) wires now) (lowestOutstanding a).

(** * Splitting *)

(** [sendData]: the records a write becomes; [caps] are the values [maxPayload]
    has when each record is cut, the last one standing for all later ones. *)
Fixpoint splitData (fuel : nat) (caps : nat → Z) (i : nat) (p : bytes) : list bytes :=
  match fuel with
  | O => []
  | S fuel =>
      if 0 <? len p then
        let e := Z.min (caps i) (len p) in
        upto e p :: splitData fuel caps (S i) (from e p)
      else []
  end.

End WithCodec.

(** * Operations that do not change which records are outstanding *)

Definition same_records (m m' : outstanding_map) : Prop :=
  ∀ sq, pwire <$> m !! sq = pwire <$> m' !! sq.

#[export] Instance same_records_equiv : Equivalence same_records.
Proof. split; [by intros ??|by intros ??? ?|intros ??? H1 H2 sq; by rewrite H1, H2]. Qed.

Lemma same_alter (g : unackedPkt → unackedPkt) k m :
  (∀ p, pwire (g p) = pwire p) → same_records m (alter g k m).
Proof.
  intros Hg sq. destruct (decide (k = sq)) as [->|Hne].
  - rewrite lookup_alter_eq. destruct (m !! sq); simpl; [by rewrite Hg|done].
  - by rewrite lookup_alter_ne.
Qed.

Lemma same_foldl {A} (step : outstanding_map → A → outstanding_map) l m :
  (∀ m x, same_records m (step m x)) → same_records m (foldl step m l).
Proof.
  intros Hs. revert m. induction l as [|x l IH]; intros m; simpl; [done|].
  etrans; [apply Hs|apply IH].
Qed.

Lemma same_bumpAll now mx seqs m : same_records m (bumpAll now mx seqs m).
Proof. apply same_foldl. intros. by apply same_alter. Qed.

Lemma same_markTransmitted m wires now : same_records m (markTransmitted m wires now).
Proof. apply same_foldl. intros m' w. case_match; [done|by apply same_alter]. Qed.

Lemma same_markWord fuel base w m : same_records m (markWord fuel base w m).
Proof.
  revert w m. induction fuel as [|fuel IH]; intros w m; simpl; [done|].
  case_match; [done|]. etrans; [|apply IH]. by apply same_alter.
Qed.

Lemma same_rangeWords step ack i words m :
  (∀ b w m, same_records m (step b w m)) → same_records m (rangeWords step ack i words m).
Proof.
  intros Hs. revert i m. induction words as [|w ws IH]; intros i m; simpl; [done|].
  etrans; [apply Hs|apply IH].
Qed.

Lemma same_updateSACK fl m f highest rtt now :
  same_records m (updateSACK fl m f highest rtt now).2.2.
Proof.
  unfold updateSACK, markWords. destruct fl as [fl|]; [|done]. case_match; [done|].
  destruct (readWords _ _ _ _) as [[words count]|]; [|done].
  assert (Hm : same_records m (rangeWords (markWord 64) (Ack f) 0 words m)).
  { apply same_rangeWords. intros. apply same_markWord. }
  destruct (count <? 3); cbn [snd]; [exact Hm|]. etrans; [exact Hm|apply same_bumpAll].
Qed.

Lemma same_retryDue m now mx fl rtt : same_records m (retryDue m now mx fl rtt).2.2.
Proof.
  unfold retryDue. destruct (existsb _ _); [done|].
  destruct (creditProbeInterval fl m). cbn [snd]. apply same_bumpAll.
Qed.

Lemma same_dom m m' sq : same_records m m' → is_Some (m !! sq) ↔ is_Some (m' !! sq).
Proof.
  intros H. specialize (H sq). destruct (m !! sq), (m' !! sq); simpl in *; simplify_eq; split; intros []; eauto; done.
Qed.

Lemma same_size m m' : same_records m m' → size m = size m'.
Proof.
  intros H. rewrite <- (size_dom m), <- (size_dom m'). f_equal.
  apply set_eq. intros sq. rewrite !elem_of_dom. by apply same_dom.
Qed.

(** * The watermark *)

Definition in_window (lo hi : Z) (m : outstanding_map) : Prop :=
  ∀ sq, is_Some (m !! sq) → lo ≤ sq < hi.

Lemma minSeq_spec m :
  m ≠ ∅ → in_window 0 (2 ^ 64) m → is_Some (m !! minSeq m) ∧ in_window (minSeq m) (2 ^ 64) m.
Proof.
  intros Hne Hw. unfold minSeq.
  assert (Hk : ∀ k, k ∈ (map_to_list m).*1 ↔ is_Some (m !! k)).
  { intros k. rewrite list_elem_of_fmap. split.
    - intros ([k' p] & -> & Hp%elem_of_map_to_list). by exists p.
    - intros [p Hp]. exists (k, p). by rewrite elem_of_map_to_list. }
  assert (Hmin : ∀ l, l ≠ [] → Forall (λ k, k ≤ max_u64) l →
            foldr Z.min max_u64 l ∈ l ∧ Forall (λ k, foldr Z.min max_u64 l ≤ k) l).
  { induction l as [|x l IH]; [done|]. intros _ [Hx Hl]%Forall_cons. simpl.
    destruct l as [|y l].
    - simpl. rewrite Z.min_l by done. split; [by left|by constructor].
    - destruct IH as [IH1 IH2]; [done|done|]. set (r := foldr Z.min max_u64 (y :: l)) in *. split.
      + destruct (Z.min_spec x r) as [[_ ->]|[_ ->]]; [by left|by right].
      + constructor; [lia|]. eapply Forall_impl; [exact IH2|]. cbv beta. lia. }
  destruct (Hmin (map_to_list m).*1) as [H1 H2].
  - intros Hn. apply Hne. apply map_to_list_empty_iff. by apply fmap_nil_inv in Hn.
  - apply Forall_forall. intros k Hkin%Hk%Hw. unfold max_u64. lia.
  - split; [by apply Hk|]. intros k Hkin. rewrite Forall_forall in H2.
    split; [by apply H2, Hk|]. apply Hw in Hkin; lia.
Qed.

Section Invariant.
Context {RS : ReedSolomon}.

(** Outstanding records lie between the watermark and the next sequence number;
    the sequence space is not exhausted. *)
Record arq_inv (a : arqSender) : Prop := {
  ai_seq : 1 ≤ sendSeq a < 2 ^ 64;
  ai_low : 0 ≤ lowestOutstanding a;
  ai_window : in_window (lowestOutstanding a) (sendSeq a) (unacked a);
  ai_pos : in_window 1 (2 ^ 64) (unacked a);
  ai_least : unacked a ≠ ∅ → is_Some (unacked a !! lowestOutstanding a);
}.

Lemma new_arq_inv fl fe tx w : arq_inv (newArq fl fe tx w).
Proof. split; simpl; try done; intros sq Hs; rewrite lookup_empty in Hs; by destruct Hs. Qed.

Lemma client_ackOne_server srtt now l sq : client_ackOne srtt now l sq = server_ackOne srtt now l sq.
Proof.
  unfold client_ackOne, server_ackOne. destruct l as [m n sp fl fe]; simpl.
  destruct (m !! sq) as [p|] eqn:Hp; simpl.
  - destruct fe, fl as [fl|], sp; simpl; try done.
  - by rewrite delete_id.
Qed.

Lemma ackLoop_map (step : Z → Z → ackLoop → Z → ackLoop) srtt now l seqs :
  (∀ l sq, al_map (step srtt now l sq) = delete sq (al_map l)) →
  ∀ k, al_map (foldl (step srtt now) l seqs) !! k =
    if decide (k ∈ seqs) then None else al_map l !! k.
Proof.
  intros Hs. revert l. induction seqs as [|sq seqs IH]; intros l k; cbn [foldl]; [by rewrite decide_False by apply not_elem_of_nil|].
  rewrite IH, Hs. destruct (decide (k ∈ seqs)) as [Hin|Hnin].
  - rewrite decide_True; [done|]. by right.
  - destruct (decide (k = sq)) as [->|Hne].
    + rewrite decide_True by by left. apply lookup_delete_eq.
    + rewrite lookup_delete_ne by done. rewrite decide_False; [done|].
      by intros [->|?]%elem_of_cons.
Qed.

Lemma client_ackOne_map srtt now l sq : al_map (client_ackOne srtt now l sq) = delete sq (al_map l).
Proof.
  unfold client_ackOne. destruct (al_map l !! sq), (al_flow l), (al_fec l); simpl; try done;
    repeat case_match; done.
Qed.

(** How many records were counted. *)
Lemma client_ackOne_count srtt now l sq :
  al_count (client_ackOne srtt now l sq) + Z.of_nat (size (al_map (client_ackOne srtt now l sq))) =
  al_count l + Z.of_nat (size (al_map l)).
Proof.
  assert (Hc : al_count (client_ackOne srtt now l sq) =
    if bool_decide (is_Some (al_map l !! sq)) then al_count l + 1 else al_count l).
  { unfold client_ackOne. destruct (al_map l !! sq), (al_flow l), (al_fec l); simpl; try done;
      repeat case_match; done. }
  rewrite Hc, client_ackOne_map, map_size_delete.
  destruct (al_map l !! sq) as [p|] eqn:Hp; simpl; [|unfold id; lia].
  assert (size (al_map l) ≠ 0)%nat; [|lia]. apply map_size_non_empty_iff. intros He.
  by rewrite He, lookup_empty in Hp.
Qed.

Lemma ackLoop_count srtt now l seqs :
  al_count (foldl (client_ackOne srtt now) l seqs) +
    Z.of_nat (size (al_map (foldl (client_ackOne srtt now) l seqs))) =
  al_count l + Z.of_nat (size (al_map l)).
Proof.
  revert l. induction seqs as [|sq seqs IH]; intros l; simpl; [done|].
  rewrite IH. apply client_ackOne_count.
Qed.

Lemma sampleAck_same a ackSeq now :
  let a' := sampleAck a ackSeq now in
  sendSeq a' = sendSeq a ∧ unacked a' = unacked a ∧ lowestOutstanding a' = lowestOutstanding a ∧
  hasTx a' = hasTx a ∧ cfgWindow a' = cfgWindow a.
Proof. unfold sampleAck. repeat case_match; done. Qed.

(** What is left above an acknowledged prefix, and its watermark. *)
Lemma newLowest_inv m hi ackSeq :
  1 ≤ hi < 2 ^ 64 → 0 ≤ ackSeq < hi → in_window (ackSeq + 1) hi m →
  0 ≤ newLowest m ackSeq ∧ in_window (newLowest m ackSeq) hi m ∧
  (m ≠ ∅ → is_Some (m !! newLowest m ackSeq)).
Proof.
  intros Hhi Hack Hw. unfold newLowest. rewrite u64_small by lia.
  destruct (Z.eqb_spec (Z.of_nat (size m)) 0) as [Hz|Hz].
  - assert (m = ∅) as -> by (apply map_size_empty_iff; lia).
    split_and!; [lia| |done]. intros k [p Hp]. by rewrite lookup_empty in Hp.
  - case_bool_decide; [split_and!; [lia|done|done]|].
    assert (Hne : m ≠ ∅) by (by apply map_size_non_empty_iff; lia).
    destruct (minSeq_spec m Hne) as [H1 H2].
    { intros k Hk. apply Hw in Hk. lia. }
    split_and!; [apply Hw in H1; lia| |done].
    intros k Hk. pose proof (H2 k Hk). apply Hw in Hk. lia.
Qed.

Lemma handleAck_cases a ackSeq now :
  arq_inv a → 0 ≤ ackSeq →
  let a' := handleAck a ackSeq now in
  (a' = a ∧ ∀ k, k ≤ ackSeq < sendSeq a → unacked a !! k = None) ∨
  (ackSeq < sendSeq a ∧ sendSeq a' = sendSeq a ∧
   lowestOutstanding a' = newLowest (unacked a') ackSeq ∧
   ∀ k, unacked a' !! k = if decide (k ≤ ackSeq) then None else unacked a !! k).
Proof.
  intros [Hs Hlo Hw Hp Hl] Ha. unfold handleAck, handleAck_with.
  destruct ((0 <? sendSeq a) && (sendSeq a <=? ackSeq)) eqn:H1.
  { left. split; [done|]. intros k Hk. apply andb_true_iff in H1 as [_ H1%Z.leb_le]. lia. }
  assert (ackSeq < sendSeq a).
  { apply andb_false_iff in H1 as [H1%Z.ltb_ge|H1%Z.leb_gt]; lia. }
  destruct ((outstanding a =? 0) || (ackSeq <? lowestOutstanding a)) eqn:H2.
  { left. split; [done|]. intros k Hk. apply orb_true_iff in H2 as [H2%Z.eqb_eq|H2%Z.ltb_lt].
    - unfold outstanding in H2. assert (unacked a = ∅) as -> by (apply map_size_empty_iff; lia).
      apply lookup_empty.
    - destruct (unacked a !! k) eqn:Hk'; [|done]. pose proof (Hw k ltac:(by eexists)). lia. }
  destruct (sampleAck_same a ackSeq now) as (E1 & E2 & E3 & _ & _).
  right. split_and!; [done|done|done|]. cbn [set_flow set_fec set_unacked unacked].
  intros k. rewrite (ackLoop_map client_ackOne) by apply client_ackOne_map. cbn [al_map].
  unfold ackRange. rewrite E2, E3.
  destruct (decide (k ≤ ackSeq)) as [Hk|Hk].
  - destruct (decide _) as [|Hn]; [done|]. destruct (unacked a !! k) eqn:Hk'; [|done].
    destruct Hn. apply elem_of_seqZ. pose proof (Hw k ltac:(by eexists)). lia.
  - rewrite decide_False; [done|]. rewrite elem_of_seqZ. lia.
Qed.

Lemma handleAck_spec a ackSeq now :
  arq_inv a → 0 ≤ ackSeq →
  let a' := handleAck a ackSeq now in
  arq_inv a' ∧ sendSeq a' = sendSeq a ∧
  ∀ k, unacked a' !! k = if decide (k ≤ ackSeq < sendSeq a) then None else unacked a !! k.
Proof.
  intros Hi Ha. destruct (handleAck_cases a ackSeq now Hi Ha) as [[-> Hn]|(Hlt & Hs & Hl & Hk)].
  - split_and!; [done|done|]. intros k. destruct (decide _); [by apply Hn|done].
  - set (a' := handleAck a ackSeq now) in *. destruct Hi as [H1 H2 H3 H4 H5].
    assert (Hsub : ∀ k, is_Some (unacked a' !! k) → ackSeq < k ∧ is_Some (unacked a !! k)).
    { intros k. rewrite Hk. destruct (decide _); [by intros []|]. intros. split; [lia|done]. }
    destruct (newLowest_inv (unacked a') (sendSeq a) ackSeq) as (N1 & N2 & N3); [lia|lia| |].
    { intros k Hk'. apply Hsub in Hk' as [? Hk']. apply H3 in Hk'. lia. }
    split_and!; [|done|].
    + split; rewrite ?Hs, ?Hl; try done. intros k Hk'. apply Hsub in Hk' as [_ Hk']. by apply H4.
    + intros k. rewrite Hk. destruct (decide (k ≤ ackSeq)), (decide (k ≤ ackSeq < sendSeq a)); lia || done.
Qed.

(** Operations that keep the records keep the invariant. *)
Lemma arq_inv_same a m :
  arq_inv a → same_records (unacked a) m → arq_inv (set_unacked a m (lowestOutstanding a)).
Proof.
  intros [H1 H2 H3 H4 H5] Hm. split; simpl; try done.
  - intros k Hk. apply H3. by eapply same_dom.
  - intros k Hk. apply H4. by eapply same_dom.
  - intros Hne. eapply same_dom; [symmetry; exact Hm|]. apply H5. intros He.
    apply Hne. apply map_size_empty_iff. rewrite <- (same_size _ _ Hm), He. apply map_size_empty.
Qed.

Lemma arq_inv_flow a fl : arq_inv a → arq_inv (set_flow a fl).
Proof. by intros []. Qed.
Lemma arq_inv_fec a fe : arq_inv a → arq_inv (set_fec a fe).
Proof. by intros []. Qed.

Lemma takeSeq_spec a :
  arq_inv a → sendSeq a + 1 < 2 ^ 64 →
  (takeSeq a).1 = sendSeq a ∧ arq_inv (takeSeq a).2 ∧
  unacked (takeSeq a).2 = unacked a ∧ sendSeq (takeSeq a).2 = sendSeq a + 1.
Proof.
  intros [H1 H2 H3 H4 H5] Hlt. unfold takeSeq. cbn [fst snd].
  rewrite (u64_small (sendSeq a + 1)) by lia. split_and!; [rewrite u64_small; lia| |done|done].
  split; simpl; try done; [lia|]. intros k Hk. apply H3 in Hk. lia.
Qed.

Lemma fileRecord_inv a sq wire now :
  arq_inv a → 1 ≤ sq < sendSeq a → (unacked a ≠ ∅ → lowestOutstanding a ≤ sq) →
  arq_inv (fileRecord a sq wire now).
Proof.
  intros [H1 H2 H3 H4 H5] Hs Hlo. unfold fileRecord, outstanding.
  assert (Hor : unacked a = ∅ ∨ (unacked a ≠ ∅ ∧ (Z.of_nat (size (unacked a)) =? 0) = false)).
  { destruct (decide (unacked a = ∅)); [by left|right]. split; [done|].
    apply Z.eqb_neq. assert (size (unacked a) ≠ 0)%nat by by apply map_size_non_empty_iff. lia. }
  destruct Hor as [He|[Hne ->]].
  - rewrite He, map_size_empty. simpl.
    split; simpl; try done; try lia.
    + intros k [p [[<- _]|[_ Hp]]%lookup_insert_Some]; [lia|by rewrite lookup_empty in Hp].
    + intros k [p [[<- _]|[_ Hp]]%lookup_insert_Some]; [lia|by rewrite lookup_empty in Hp].
    + intros _. rewrite lookup_insert_eq. by eexists.
  - specialize (Hlo Hne). split; simpl; try done.
    + intros k [p [[<- _]|[_ Hp]]%lookup_insert_Some]; [lia|]. apply H3. by eexists.
    + intros k [p [[<- _]|[_ Hp]]%lookup_insert_Some]; [lia|]. apply H4. by eexists.
    + intros _. apply lookup_insert_is_Some'. right. by apply H5.
Qed.

(** Numbering and filing a record with nothing in between. *)
Definition sendOne (a : arqSender) (wire : bytes) (now : Z) : arqSender :=
  let '(sq, a) := takeSeq a in fileRecord a sq wire now.

Lemma sendOne_inv a wire now :
  arq_inv a → sendSeq a + 1 < 2 ^ 64 →
  arq_inv (sendOne a wire now) ∧ sendSeq (sendOne a wire now) = sendSeq a + 1.
Proof.
  intros Hi Hlt. destruct (takeSeq_spec a Hi Hlt) as (E & Hi1 & U & S). unfold sendOne.
  assert (Hlo : unacked a ≠ ∅ → lowestOutstanding (takeSeq a).2 ≤ sendSeq a).
  { intros Hne. apply (ai_least _ Hi), (ai_window _ Hi) in Hne. cbn [takeSeq snd set_seq lowestOutstanding]. lia. }
  destruct (takeSeq a) as [sq a1]. cbn [fst snd] in *. subst sq. split; [|done].
  pose proof (ai_seq _ Hi). apply fileRecord_inv; [done|lia|by rewrite U].
Qed.

Lemma handleSACK_spec a f now :
  arq_inv a → 0 ≤ Ack f →
  let a' := (handleSACK a f now).2 in
  arq_inv a' ∧ sendSeq a' = sendSeq a ∧
  (same_records (unacked a) (unacked a') ∨
   ∀ k, pwire <$> unacked a' !! k =
        if decide (k ≤ Ack f < sendSeq a) then None else pwire <$> unacked a !! k).
Proof.
  intros Hi Hf. unfold handleSACK. destruct (aflow a) as [fl|] eqn:Hfl; [|by split_and!; [| |left]].
  pose proof (same_updateSACK (Some fl) (unacked a) f (u64 (sendSeq a - 1)) (SRTT (rttEst a)) now) as Hm.
  destruct (updateSACK (Some fl) _ _ _ _ _) as [[wires valid] [fl' m]]. cbn [snd] in *.
  set (a1 := set_flow (set_unacked a m (lowestOutstanding a)) fl').
  assert (Hi1 : arq_inv a1) by by apply arq_inv_flow, arq_inv_same.
  destruct (valid && _); [|by split_and!; [| |left]].
  destruct (handleAck_spec a1 (Ack f) now Hi1 Hf) as (H1 & H2 & H3).
  split_and!; [done|done|right]. intros k. rewrite H3. cbn [a1 set_flow set_unacked sendSeq unacked].
  specialize (Hm k). subst a1. cbn [set_flow set_unacked sendSeq unacked] in *.
  by destruct (decide _).
Qed.

Lemma retransmitWake_spec a now :
  arq_inv a → let a' := (retransmitWake a now).2 in
  arq_inv a' ∧ sendSeq a' = sendSeq a ∧ same_records (unacked a) (unacked a').
Proof.
  intros Hi. unfold retransmitWake.
  pose proof (same_retryDue (unacked a) now rttMaxRTO (aflow a) (SRTT (rttEst a))) as Hm.
  destruct (retryDue _ _ _ _ _) as [r [fl m]]. cbn [snd] in *.
  split_and!; [by apply arq_inv_flow, arq_inv_same|done|done].
Qed.

Lemma markBatch_spec a wires now :
  arq_inv a → let a' := markBatch a wires now in
  arq_inv a' ∧ sendSeq a' = sendSeq a ∧ same_records (unacked a) (unacked a').
Proof.
  intros Hi. pose proof (same_markTransmitted (unacked a) wires now).
  split_and!; [by apply arq_inv_same|done|done].
Qed.

End Invariant.

(** * Splitting a write *)

Lemma splitData_spec fuel caps i p :
  (length p <= fuel)%nat → (∀ j, 1 ≤ caps j) →
  concat (splitData fuel caps i p) = p ∧
  Forall (λ r, 1 ≤ len r ∧ ∃ j, len r ≤ caps j) (splitData fuel caps i p).
Proof.
  intros Hf Hc. revert i p Hf. induction fuel as [|fuel IH]; intros i p Hf; simpl.
  { destruct p; simpl in *; [done|lia]. }
  destruct (Z.ltb_spec 0 (len p)) as [Hp|Hp].
  2:{ rewrite (len_nil_inv p) by (pose proof (len_nonneg p); lia). done. }
  specialize (Hc i) as Hci. set (e := Z.min (caps i) (len p)) in *.
  destruct (IH (S i) (from e p)) as [H1 H2].
  { pose proof (len_from e p ltac:(lia)) as Hl. unfold len in *. lia. }
  simpl. rewrite H1, upto_from. split; [done|]. constructor; [|done].
  rewrite len_upto by lia. split; [lia|]. exists i. lia.
Qed.

(** The budgets the configuration and the MTU layer produce: unset, or a record
    size between the floor and the ceiling. *)
Definition budget_ok (n : Z) : Prop := n ≤ 0 ∨ UDPC_HDR_SIZE + UDPC_TRAILER_SIZE < n ≤ UDPC_MAX_PKT.

Lemma effective_range n : budget_ok n → 1 ≤ effectivePayloadCap n ≤ UDPC_MAX_DATA.
Proof.
  unfold budget_ok, effectivePayloadCap, payloadCap, maxPktCeiling, UDPC_MAX_DATA, UDPC_MAX_PKT,
    UDPC_HDR_SIZE, UDPC_TRAILER_SIZE. destruct (Z.leb_spec n 0); lia.
Qed.

Lemma fecDataPayloadCap_range n : 1 ≤ n → 1 ≤ fecDataPayloadCap n ≤ n.
Proof. intros. unfold fecDataPayloadCap, fecLengthPrefixSize. destruct (Z.ltb_spec (n - 2) 1); lia. Qed.

Lemma client_cap_range sendCap fec :
  budget_ok sendCap → 1 ≤ clientSession_maxPayload sendCap fec ≤ UDPC_MAX_DATA.
Proof.
  intros H%effective_range. unfold clientSession_maxPayload. destruct fec; [|done].
  pose proof (fecDataPayloadCap_range (effectivePayloadCap sendCap)). lia.
Qed.

Lemma server_cap_ceiling serverMax sessMax observed fec :
  budget_ok serverMax → budget_ok sessMax →
  1 ≤ ServerSession_maxPayload serverMax sessMax observed fec ≤ effectivePayloadCap serverMax.
Proof.
  intros H1%effective_range H2. unfold ServerSession_maxPayload.
  set (c := effectivePayloadCap serverMax) in *.
  assert (Hb : 1 ≤ (if (0 <? sessMax) && (payloadCap sessMax <? c) then payloadCap sessMax else c) ≤ c).
  { destruct (Z.ltb_spec 0 sessMax); simpl; [|lia].
    unfold budget_ok, payloadCap in *. case_match; lia. }
  set (b := if (0 <? sessMax) && (payloadCap sessMax <? c) then payloadCap sessMax else c) in *.
  assert (Hf : 1 ≤ (if fec then fecDataPayloadCap b else b) ≤ c).
  { destruct fec; [|done]. pose proof (fecDataPayloadCap_range b). lia. }
  destruct (Z.ltb_spec (if fec then fecDataPayloadCap b else b) observed); simpl; [|lia].
  destruct (Z.leb_spec observed c); lia.
Qed.

Lemma server_cap_range serverMax sessMax observed fec :
  budget_ok serverMax → budget_ok sessMax →
  1 ≤ ServerSession_maxPayload serverMax sessMax observed fec ≤ UDPC_MAX_DATA.
Proof. intros H1 H2. pose proof (server_cap_ceiling _ _ observed fec H1 H2). pose proof (effective_range _ H1). lia. Qed.

(** * Properties *)

Lemma handleAck_agree {RS : ReedSolomon} a ackSeq now :
  handleAck a ackSeq now = ServerSession_handleAck a ackSeq now.
Proof.
  unfold handleAck, ServerSession_handleAck, handleAck_with.
  assert (Hf : ∀ s t l seqs, foldl (client_ackOne s t) l seqs = foldl (server_ackOne s t) l seqs).
  { intros s t l seqs. revert l. induction seqs as [|sq seqs IH]; intros l; simpl; [done|].
    by rewrite client_ackOne_server. }
  do 2 (destruct (_ : bool); [done|]). by rewrite Hf.
Qed.

(** Client and server interpret acknowledgements alike: their two
    hand-written deletion loops leave the same outstanding records, RTT estimate,
    congestion state, FEC loss estimate and watermark for every state and every
    ACK. *)
Theorem endpoints_ack_agree {RS : ReedSolomon} a ackSeq now :
  handleAck a ackSeq now = ServerSession_handleAck a ackSeq now.
Proof. apply handleAck_agree. Qed.

(** C32: (functional) Cumulative acknowledgement is exact: an ACK of a number that was
    sent releases every outstanding record up to it and no other, an ACK of a
    number never sent changes nothing, and the watermark is again the lowest
    outstanding record. *)
Theorem ack_exact {RS : ReedSolomon} a ackSeq now :
  arq_inv a → 0 ≤ ackSeq →
  let a' := handleAck a ackSeq now in
  (sendSeq a ≤ ackSeq → a' = a) ∧
  (∀ k, unacked a' !! k = if decide (k ≤ ackSeq < sendSeq a) then None else unacked a !! k) ∧
  (unacked a' ≠ ∅ → is_Some (unacked a' !! lowestOutstanding a') ∧
                    ∀ k, is_Some (unacked a' !! k) → lowestOutstanding a' ≤ k).
Proof.
  intros Hi Ha a'. destruct (handleAck_spec a ackSeq now Hi Ha) as (Hi' & _ & Hk). split_and!.
  - intros Hge. unfold a', handleAck, handleAck_with. pose proof (ai_seq _ Hi).
    destruct (Z.ltb_spec 0 (sendSeq a)); [|lia]. by destruct (Z.leb_spec (sendSeq a) ackSeq); [|lia].
  - exact Hk.
  - intros Hne. split; [by apply ai_least|]. intros k Hk'. by apply (ai_window _ Hi').
Qed.

(** Cutting a write into records loses nothing: whatever the record
    budget is while the write is being cut, on either end, the records
    concatenate to the write, none is empty, and each fits a sealed datagram. *)
Theorem send_splits (client : bool) sendCap serverMax sessMax observed fec p :
  (∀ i, budget_ok (sendCap i) ∧ budget_ok (serverMax i) ∧ budget_ok (sessMax i)) →
  let caps i := if client then clientSession_maxPayload (sendCap i) fec
                else ServerSession_maxPayload (serverMax i) (sessMax i) (observed i) fec in
  let rs := splitData (length p) caps 0 p in
  concat rs = p ∧ Forall (λ r, 1 ≤ len r ≤ UDPC_MAX_DATA) rs.
Proof.
  intros Hb caps.
  assert (Hc : ∀ i, 1 ≤ caps i ≤ UDPC_MAX_DATA).
  { intros i. destruct (Hb i) as (H1 & H2 & H3). unfold caps.
    destruct client; [by apply client_cap_range|by apply server_cap_range]. }
  destruct (splitData_spec (length p) caps 0 p) as [H1 H2]; [lia|apply Hc|].
  split; [done|]. eapply Forall_impl; [exact H2|]. intros r [? (j & ?)]. pose proof (Hc j). lia.
Qed.

(** * Witnesses *)

Lemma send_splits_witness :
  concat (splitData 200 (λ i, clientSession_maxPayload (if (i <? 1)%nat then 150 else 120) true) 0
    (repeat 7 200)) = repeat 7 200.
Proof.
  pose proof (send_splits true (λ i, if (i <? 1)%nat then 150 else 120) (λ _, 0) (λ _, 0) (λ _, 0) true
    (repeat 7 200)) as H.
  destruct H as [H _]; [|exact H]. intros i. unfold budget_ok, UDPC_HDR_SIZE, UDPC_TRAILER_SIZE, UDPC_MAX_PKT.
  destruct (i <? 1)%nat; lia.
Defined.

Section Witness.
#[local] Existing Instance xor_code.

Definition sample_arq : arqSender :=
  sendOne (sendOne (sendOne (newArq (Some (newSendFlow 64 true true false)) None false 0)
    [1] 10) [2] 20) [3] 30.

Lemma sample_arq_inv : arq_inv sample_arq.
Proof.
  set (a0 := newArq (Some (newSendFlow 64 true true false)) None false 0).
  destruct (sendOne_inv a0 [1] 10 (new_arq_inv _ _ _ _)) as [H1 S1]; [reflexivity|].
  destruct (sendOne_inv _ [2] 20 H1) as [H2 S2]; [by rewrite S1|].
  destruct (sendOne_inv _ [3] 30 H2) as [H3 _]; [by rewrite S2, S1|]. exact H3.
Qed.

Lemma ack_exact_witness :
  unacked (handleAck sample_arq 2 40) !! 1 = None ∧
  unacked (handleAck sample_arq 2 40) !! 3 = unacked sample_arq !! 3 ∧
  is_Some (unacked sample_arq !! 3).
Proof.
  destruct (ack_exact sample_arq 2 40 sample_arq_inv ltac:(lia)) as (_ & H & _).
  assert (Hs : sendSeq sample_arq = 4) by (vm_compute; reflexivity).
  rewrite (H 1), (H 3), Hs. split; [reflexivity|]. split; [reflexivity|].
  assert (Hb : bool_decide (is_Some (unacked sample_arq !! 3)) = true) by (vm_compute; reflexivity).
  exact (bool_decide_eq_true_1 _ Hb).
Defined.
End Witness.
