(* ===== verification/Session.v ===== *)
(** An established session: what src/tunnel/client.go ([clientSession]) and
    src/tunnel/server.go ([ServerSession]) share - sealing outgoing records,
    control frames, feedback, sending a record, FEC parity, and closing.

    A function runs on one goroutine; what it hands to the network, the transmit
    queue and the application is its list of outputs, in order; waking the
    retransmit loop is not an output.  What it learns from its surroundings is
    [env].  Sessions are modelled as the production paths
    build them, with frame keys, an ordered delivery and a transmit queue. *)
From S2P Require Import Prelude Protocol F64 Rtt FecLoss FecWire Erasure FecBlock FecSender FecReceiver Replay Delivery AckCoalesce Flow Sack Arq.
Local Open Scope Z_scope.

Definition advertisedWindowFull : Z := 65535.
Definition clientRecvTimeout : Z := 210 * second.

(** The surroundings of a call. *)
Record env := mkEnv {
  now : Z;                              (* its clock reading *)
  wrote : Z → bool;                     (* did writing the datagram with this packet number succeed? *)
  timerStops : bool;                    (* what stopping the delayed-ACK timer returns *)
  mapOrder : block_map → list Z;        (* Go's iteration order over the FEC blocks *)
}.

Inductive output :=
| OutQueue (wire : bytes)            (* s.tx.submit / s.tx.bestEffort *)
| OutWrite (wire : bytes)            (* dialer.Send / sendToSession *)
| OutWriteTo (port : Z) (addr : bytes * Z) (wire : bytes)  (* replyFromOrigPort *)
| OutObserve (port : Z) (lost : bool)  (* the path scorer *)
| OutEcho (data : bytes)             (* the probe reply channel *)
| OutSeal (no : Z)                   (* a record was sealed under this packet number *)
| OutExhausted                       (* the packet-number counter wrapped to zero *)
| OutClosed (reason : string)        (* the session closed, its channel and conn too *)
| OutOnceDeadlock.                   (* closeOnce.Do re-entered from its own function *)

Section WithInterfaces.
Context {C : Crypto} {RS : ReedSolomon}.

Record session := mkSession {
  isClient : bool;
  smagic : Z;
  sid : Z;
  skeys : FrameKeys;
  sessClosed : bool;
  packetNo : Z;
  arq : arqSender;
  coal : ackCoalescer;
  deliv : orderedDelivery;
  fecRecv : option fecReceiver;
  replay : ReplayFilter;
  lastActive : Z;
}.

Definition set_closed (s : session) : session :=
  mkSession (isClient s) (smagic s) (sid s) (skeys s) true (packetNo s) (arq s) (coal s)
    (deliv s) (fecRecv s) (replay s) (lastActive s).
Definition set_packetNo (s : session) (n : Z) : session :=
  mkSession (isClient s) (smagic s) (sid s) (skeys s) (sessClosed s) n (arq s) (coal s)
    (deliv s) (fecRecv s) (replay s) (lastActive s).
Definition set_arq (s : session) (a : arqSender) : session :=
  mkSession (isClient s) (smagic s) (sid s) (skeys s) (sessClosed s) (packetNo s) a (coal s)
    (deliv s) (fecRecv s) (replay s) (lastActive s).
Definition set_coal (s : session) (c : ackCoalescer) : session :=
  mkSession (isClient s) (smagic s) (sid s) (skeys s) (sessClosed s) (packetNo s) (arq s) c
    (deliv s) (fecRecv s) (replay s) (lastActive s).
Definition set_deliv (s : session) (d : orderedDelivery) : session :=
  mkSession (isClient s) (smagic s) (sid s) (skeys s) (sessClosed s) (packetNo s) (arq s) (coal s)
    d (fecRecv s) (replay s) (lastActive s).
Definition set_fecRecv (s : session) (r : option fecReceiver) : session :=
  mkSession (isClient s) (smagic s) (sid s) (skeys s) (sessClosed s) (packetNo s) (arq s) (coal s)
    (deliv s) r (replay s) (lastActive s).
Definition set_replay (s : session) (r : ReplayFilter) : session :=
  mkSession (isClient s) (smagic s) (sid s) (skeys s) (sessClosed s) (packetNo s) (arq s) (coal s)
    (deliv s) (fecRecv s) r (lastActive s).
Definition touch (s : session) (now : Z) : session :=
  mkSession (isClient s) (smagic s) (sid s) (skeys s) (sessClosed s) (packetNo s) (arq s) (coal s)
    (deliv s) (fecRecv s) (replay s) now.

(** The session [establish] and [createSession] build, for negotiated keys. *)
Definition newSession (client : bool) (magic sid_ : Z) (k : FrameKeys) (window : Z)
    (auto westwood : bool) (limit_ now : Z) : session :=
  mkSession client magic sid_ k false 0
    (newArq (if recovery k then Some (newSendFlow window auto westwood (wideWindow k)) else None)
       (if fec k then Some (newFECSenderExt true (fecExt k)) else None) true window)
    newAckCoalescer (newOrderedDelivery limit_)
    (if fec k then Some (newFECReceiverExt (fecExt k)) else None) newReplayFilter now.

Definition clientLimit (k : FrameKeys) : Z := deliveryLimitFor (wideWindow k).
Definition serverLimit (maxRecvQueue : Z) (k : FrameKeys) : Z :=
  Z.min maxRecvQueue (deliveryLimitFor (wideWindow k)).

(** * Sealing *)

Definition currentAck (s : session) : Z := delivered (deliv s).

Definition applyFECFeedback (s : session) (f : UDPCFrame) : UDPCFrame :=
  match fecRecv s with
  | None => f
  | Some r =>
      mkFrame (Magic f) (Version f) (Cmd f) (Z.lor (Flags f) FLAG_FEC_FEEDBACK) (SessionID f)
        (PacketNo f) (Seq f) (Ack f) (feedbackBasisPoints r) (Data f) (raw f)
  end.

Definition with_packetNo (f : UDPCFrame) (n : Z) : UDPCFrame :=
  mkFrame (Magic f) (Version f) (Cmd f) (Flags f) (SessionID f) n (Seq f) (Ack f)
    (WindowSize f) (Data f) (raw f).

(** A frame of this session with everything else zero. *)
Definition frameOf (s : session) (cmd sq ack window : Z) (data : bytes) : UDPCFrame :=
  mkFrame (smagic s) UDPC_VERSION cmd 0 (sid s) 0 sq ack window data [].

(** What sealing a control frame came to. *)
Inductive seal_result :=
| Sealed (f : UDPCFrame) (wire : bytes)
| Exhausted
| Unsealed.

(** The part of [sendControl] before the write; the packet number is spent even
    when sealing fails. *)
Definition sealControl (s : session) (f : UDPCFrame) : seal_result * session :=
  let f := applyFECFeedback s f in
  let no := u64 (packetNo s + 1) in
  let s := set_packetNo s no in
  if no =? 0 then (Exhausted, s) else
  let f := with_packetNo f no in
  let wire := sealControlFrameAEAD f (Send (skeys s)) in
  if len wire =? 0 then (Unsealed, s) else (Sealed f wire, s).

(** The write and the coalescer's commit: the client commits what was written, the
    server, whose sends report no error, always. *)
Definition writeControl (s : session) (f : UDPCFrame) (e : env) : session :=
  if negb (isClient s) || wrote e (PacketNo f) then set_coal s (commitSent (coal s) (Ack f)) else s.

(** [close], the function under [closeOnce].  The client sends a FIN; running out
    of packet numbers there closes the session from inside [closeOnce]. *)
Definition closeSession (s : session) (reason : string) (e : env) :
    list output * session :=
  if sessClosed s then ([], s) else
  let s := set_closed s in
  let s := set_deliv s (close (deliv s) (timerStops e)) in
  let s := set_arq s (set_fec (arq s) (fec_close <$> fecSend (arq s))) in
  if isClient s then
    match sealControl s (frameOf s CMD_FIN 0 0 0 []) with
    | (Sealed f wire, s) =>
        ([OutSeal (PacketNo f); OutWrite wire; OutClosed reason], writeControl s f e)
    | (Exhausted, s) => ([OutExhausted; OutOnceDeadlock], s)
    | (Unsealed, s) => ([OutClosed reason], s)
    end
  else ([OutClosed reason], s).

Definition exhausted_reason : string := "packet-number space exhausted".

(** [sendControl] through [send]: the result, the outputs and the state. *)
Definition sendControlTo (s : session) (f : UDPCFrame) (send : bytes → output)
    (e : env) : bool * list output * session :=
  match sealControl s f with
  | (Exhausted, s) =>
      let '(out, s) := closeSession s exhausted_reason e in (false, OutExhausted :: out, s)
  | (Unsealed, s) => (false, [], s)
  | (Sealed f wire, s) => (true, [OutSeal (PacketNo f); send wire], writeControl s f e)
  end.

Definition sendControl (s : session) (f : UDPCFrame) (e : env) : bool * list output * session :=
  sendControlTo s f OutWrite e.

(** [encodeFrame]: the sealed record, [] if there is none. *)
Definition encodeFrame (s : session) (f : UDPCFrame) (e : env) :
    bytes * list output * session :=
  let f := applyFECFeedback s f in
  let no := u64 (packetNo s + 1) in
  let s := set_packetNo s no in
  if no =? 0 then
    let '(out, s) := closeSession s exhausted_reason e in ([], OutExhausted :: out, s)
  else
    let wire := SealFrameAEAD (with_packetNo f no) (Send (skeys s)) (Data f) in
    (wire, if len wire =? 0 then [] else [OutSeal no], s).

(** * Feedback *)

Definition sackMaxWords (s : session) : Z :=
  if wideWindow (skeys s) then sackWordsWide else sackWordsNarrow.

Definition feedbackFrame (s : session) (ackSeq : Z) : UDPCFrame :=
  match aflow (arq s) with
  | Some _ =>
      let '(ack, bitmap, credit) := snapshot (deliv s) in
      frameOf s CMD_SACK 0 ack 0 (encodeSACKWords credit bitmap (sackMaxWords s))
  | None => frameOf s CMD_ACK 0 ackSeq advertisedWindowFull []
  end.

Definition emitFeedback (s : session) (ackSeq : Z) (e : env) : list output * session :=
  let '(_, out, s) := sendControl s (feedbackFrame s ackSeq) e in (out, s).

Definition ackInterval (s : session) : Z := ackCoalesceInterval (SRTT (rttEst (arq s))).

(** [sendACK] of the client, [sendCumulativeACK] of the server. *)
Definition sendACK (s : session) (ackSeq : Z) (e : env) : list output * session :=
  if sessClosed s then ([], s) else
  let '(ack, urgent) :=
    match aflow (arq s) with
    | Some _ => let '(ack, bitmap, _) := snapshot (deliv s) in (ack, ackGapUrgent <=? sackGaps bitmap)
    | None => (ackSeq, false)
    end in
  let '(ok, c) := claim (coal s) (now e) ack (ackInterval s) urgent in
  let s := set_coal s c in
  if ok then emitFeedback s ack e else ([], s).

(** [flushACK]: how long until the next deferred advance may go out. *)
Definition flushACK (s : session) (e : env) : Z * list output * session :=
  if sessClosed s then (0, [], s) else
  let '((ack, wait), c) := flushDue (coal s) (now e) (ackInterval s) in
  let s := set_coal s c in
  if ack =? 0 then (wait, [], s)
  else let '(out, s) := emitFeedback s ack e in (wait, out, s).

Definition reackDuplicateData (s : session) (e : env) : list output * session :=
  if 0 <? currentAck s then sendACK s (currentAck s) e else ([], s).

(** Runs [step] over a list, collecting the outputs. *)
Fixpoint each {A} (step : session → A → list output * session) (s : session) (l : list A) :
    list output * session :=
  match l with
  | [] => ([], s)
  | x :: l =>
      let '(o, s) := step s x in
      let '(os, s) := each step s l in (o ++ os, s)
  end.

(** The acknowledgements the delivery asks for. *)
Definition sendACKs (s : session) (acks : list Z) (e : env) : list output * session :=
  each (λ s a, sendACK s a e) s acks.

(** * Sending *)

Definition sendFECParity (s : session) (e : env) (p : fecParityShard) : list output * session :=
  if sessClosed s || bool_decide (fecSend (arq s) = None) then ([], s) else
  match applyToFrame p (frameOf s CMD_FEC 0 (currentAck s) 0 []) with
  | None => ([], s)
  | Some f =>
      let '(wire, out, s) := encodeFrame s f e in
      (out ++ (if 0 <? len wire then [OutQueue wire] else []), s)
  end.

(** The FEC flush timer of generation [gen]. *)
Definition fecFlush (s : session) (gen : Z) (e : env) : list output * session :=
  match fecSend (arq s) with
  | None => ([], s)
  | Some fs =>
      let '(shards, fs) := flushTimer fs gen in
      each (λ s p, sendFECParity s e p) (set_arq s (set_fec (arq s) (Some fs))) shards
  end.

Inductive send_status := SendOk | SendBlocked | SendClosed | SendUnsealed.

(** [fecSend.add] and the parity it emits. *)
Definition protect (s : session) (sq : Z) (payload : bytes) (e : env) : list output * session :=
  match fecSend (arq s) with
  | None => ([], s)
  | Some fs =>
      let '(shards, fs) := fec_add fs sq payload in
      each (λ s p, sendFECParity s e p) (set_arq s (set_fec (arq s) (Some fs))) shards
  end.

(** [sendRecord], from a wake of its waiting loop on: [SendBlocked] is another
    wait.  The client leaves WindowSize zero, the server advertises a full
    window. *)
Definition sendRecord (s : session) (payload : bytes) (e : env) :
    send_status * list output * session :=
  if sessClosed s then (SendClosed, [], s) else
  if windowFull (arq s) then (SendBlocked, [], s) else
  let '(sq, a) := takeSeq (arq s) in
  let s := set_arq s a in
  let f := frameOf s CMD_DATA sq (currentAck s) (if isClient s then 0 else advertisedWindowFull) payload in
  let '(wire, out, s) := encodeFrame s f e in
  if len wire =? 0 then (SendUnsealed, out, s) else
  let s := set_arq s (fileRecord (arq s) sq wire (now e)) in
  let '(out2, s) := protect s sq payload e in
  (SendOk, out ++ [OutQueue wire] ++ out2, s).

(** [sendData]: what is left of the write when it stops. *)
Fixpoint sendData (fuel : nat) (s : session) (caps : nat → Z) (i : nat) (p : bytes)
    (e : env) : send_status * bytes * list output * session :=
  match fuel with
  | O => (SendOk, p, [], s)
  | S fuel =>
      if len p =? 0 then (SendOk, p, [], s) else
      let n := Z.min (caps i) (len p) in
      let '(st, out, s) := sendRecord s (upto n p) e in
      match st with
      | SendOk =>
          let '(st, rest, outs, s) := sendData fuel s caps (S i) (from n p) e in
          (st, rest, out ++ outs, s)
      | _ => (st, p, out, s)
      end
  end.

(** * The loops *)

(** One wake of [retransmitLoop]; the result is its new delay, [None] when the
    session died.  Only the client's loop checks for idleness. *)
Definition retransmitStep (s : session) (e : env) :
    option Z * list output * session :=
  let '((due, abandoned, delay, probe), a) := retransmitWake (arq s) (now e) in
  let s := set_arq s a in
  if abandoned then
    let '(out, s) := closeSession s "max retransmits exceeded" e in (None, out, s)
  else
    let '(out1, s) :=
      if probe then let '(_, o, s) := sendControl s (frameOf s CMD_PING 0 (currentAck s) 0 []) e in (o, s)
      else ([], s) in
    let '(w, out2, s) := flushACK s e in
    let delay := if (0 <? w) && (w <? delay) then w else delay in
    let delay := if delay <? millisecond then millisecond else delay in
    let out := map OutQueue due ++ out1 ++ out2 in
    if isClient s && (clientRecvTimeout <? now e - lastActive s) then
      let '(out3, s) := closeSession s "idle timeout" e in (None, out ++ out3, s)
    else (Some delay, out, s).

(** [markBatchTransmitted] *)
Definition markBatchTransmitted (s : session) (wires : list bytes) (now : Z) : session :=
  set_coal (set_arq s (markBatch (arq s) wires now)) (commitSentBatch (coal s) wires).

(** The pair of keepalive PINGs. *)
Definition keepAlive (s : session) (e : env) : list output * session :=
  each (λ s (_ : unit),
    let '(_, o, s) := sendControl s (frameOf s CMD_PING 0 (currentAck s) 0 []) e in (o, s))
    s [tt; tt].

End WithInterfaces.
