(* ===== verification/ClientSession.v ===== *)
(** The receiving half of the client's session: [dispatch], [handleData] and
    [deliverRecoveredFEC] of src/tunnel/client.go.  [clientDispatch] is [dispatch]
    for a frame whose session was found; the handshake ACK it also routes belongs
    to the handshake. *)
From S2P Require Import Prelude Protocol F64 Rtt FecLoss FecWire Erasure FecBlock FecSender FecReceiver Replay Delivery AckCoalesce Flow Sack Arq Session.
Local Open Scope Z_scope.

Section WithInterfaces.
Context {C : Crypto} {RS : ReedSolomon}.

(** [frame.Data, err = OpenFrameAEADInto(...)] *)
Definition with_data (f : UDPCFrame) (data : bytes) : UDPCFrame :=
  mkFrame (Magic f) (Version f) (Cmd f) (Flags f) (SessionID f) (PacketNo f) (Seq f) (Ack f)
    (WindowSize f) data (raw f).

Definition observePath (srcPort : Z) (fresh : bool) : list output :=
  if srcPort =? 0 then [] else [OutObserve srcPort (negb fresh)].

(** [handleData]: was the record admitted (or known already)? *)
Definition handleData (s : session) (f : UDPCFrame) (srcPort : Z) (e : env) :
    bool * list output * session :=
  let s := touch s (now e) in
  let '((fresh, ok), acks, d) := offerObserved (deliv s) (now e) (Seq f) (Data f) in
  let '(out, s) := sendACKs (set_deliv s d) acks e in
  (ok, out ++ (if ok then observePath srcPort fresh else []), s).

Definition deliverRecoveredFEC (s : session) (recovered : list fecRecovered) (e : env) :
    list output * session :=
  each (λ s '(sq, p),
    if sq =? 0 then ([], s) else
    let '(_, out, s) := handleData s (frameOf s CMD_DATA sq 0 0 p) 0 e in (out, s)) s recovered.

(** The peer's loss report. *)
Definition observeRemote (s : session) (f : UDPCFrame) : session :=
  match fecSend (arq s) with
  | Some fs =>
      if Z.land (Flags f) FLAG_FEC_FEEDBACK =? 0 then s else
      set_arq s (set_fec (arq s)
        (Some (set_adaptive fs (observeRemoteBasisPoints (adaptive fs) (WindowSize f)))))
  | None => s
  end.

(** A parity frame, or the record of a DATA frame, goes through the FEC receiver. *)
Definition fecReceive (s : session) (rx : fecReceiver → list fecRecovered * fecReceiver) :
    list fecRecovered * session :=
  match fecRecv s with
  | None => ([], s)
  | Some r => let '(out, r) := rx r in (out, set_fecRecv s (Some r))
  end.

(** The branches of [dispatch] after the cumulative ACK. *)
Definition clientHandle (s : session) (f : UDPCFrame) (srcPort : Z) (e : env) :
    list output * session :=
  let c := Cmd f in
  if c =? CMD_SACK then
    let '(wires, a) := handleSACK (arq s) f (now e) in
    (map OutQueue wires, touch (set_arq s a) (now e))
  else if c =? CMD_DATA then
    let '(rec, s) := fecReceive s (λ r, onData r (Seq f) (Data f) (now e) (mapOrder e)) in
    let '(out1, s) := deliverRecoveredFEC s rec e in
    let '(ok, out2, s) := handleData s f srcPort e in
    (out1 ++ out2, if ok then s else set_replay s (Remove (replay s) (PacketNo f)))
  else if c =? CMD_FEC then
    let '(rec, s) := fecReceive (touch s (now e)) (λ r, onParityFrame r f (now e) (mapOrder e)) in
    deliverRecoveredFEC s rec e
  else if (c =? CMD_ACK) || (c =? CMD_PONG) then ([], touch s (now e))
  else if c =? CMD_PING then
    let s := touch s (now e) in
    let '(_, out, s) := sendControl s (frameOf s CMD_PONG 0 (currentAck s) 0 []) e in (out, s)
  else if c =? CMD_FIN then closeSession s "server sent FIN" e
  else if c =? CMD_PATH_CHALLENGE then
    let '(_, out, s) := sendControl s (frameOf s CMD_PATH_RESPONSE 0 0 0 (Data f)) e in (out, s)
  else if c =? CMD_MTU_PROBE_REPLY then ([OutEcho (Data f)], s)
  else ([], s).

Definition clientDispatch (s : session) (f : UDPCFrame) (srcPort : Z) (e : env) :
    list output * session :=
  if (Cmd f =? CMD_SACK) && bool_decide (aflow (arq s) = None) then ([], s) else
  if negb (validSessionFrameShape f) then ([], s) else
  match OpenFrameAEADInto f (Recv (skeys s)) with
  | Err _ => ([], s)
  | Ok plaintext =>
      let f := with_data f plaintext in
      let '(fresh, rf) := Accept (replay s) (PacketNo f) in
      let s := set_replay s rf in
      if negb fresh then
        if Cmd f =? CMD_DATA then reackDuplicateData s e else ([], s)
      else
        let s := observeRemote s f in
        let s := if (0 <? Ack f) && negb (Cmd f =? CMD_SACK)
                 then set_arq s (handleAck (arq s) (Ack f) (now e)) else s in
        clientHandle s f srcPort e
  end.

(** One datagram from the socket: decoding, routing by session id, dispatch. *)
Definition clientReceive (s : session) (datagram : bytes) (srcPort : Z) (e : env) :
    list output * session :=
  match parseUDPCFrame datagram (smagic s) with
  | Err _ => ([], s)
  | Ok f => if SessionID f =? sid s then clientDispatch s f srcPort e else ([], s)
  end.

End WithInterfaces.
