(* ===== verification/ServerSession.v ===== *)
(** The receiving half of the server's session and its view of the client's
    address: processIncomingFrame, handleIncomingFrame, handleDataFromPath, path
    tracking, migration challenges and the negotiated record budget of
    src/tunnel/server.go.

    A remote address is its IP text and port; the datagram a frame came from
    always has a valid one.  Counters, events and log lines are not modelled. *)
From S2P Require Import Prelude Protocol F64 Rtt FecLoss FecWire Erasure FecBlock FecSender FecReceiver Replay Delivery AckCoalesce Flow Sack Arq Session ClientSession.
Local Open Scope Z_scope.

Definition maxPathChallenges : Z := 8.
Definition pathChallengeTTL : Z := 5 * second.
Definition maxPktFloor : Z := UDPC_HDR_SIZE + UDPC_TRAILER_SIZE + 64.

Abbreviation Addr := bytes.
Abbreviation AddrPort := (bytes * Z)%type.

Record pathEntry := mkPath { addr : AddrPort; usedAt : Z }.
Record pathChallenge := mkChallenge { token : bytes; expires : Z }.

(** What the session reads of the server's configuration. *)
Record serverCfg := mkCfg {
  sockLimit : Z;        (* sockPool.limit *)
  cfgMaxPkt : Z;        (* server.maxPkt *)
  mtuProbe : bool;
}.

(** The surroundings of a call on the server: also the random bytes, if they could
    be read, and the iteration orders over the two address maps. *)
Record senv := mkSenv {
  base : env;
  random : option bytes;
  pathOrder : gmap Z pathEntry → list Z;
  challengeOrder : gmap Addr pathChallenge → list Addr;
}.

Section WithInterfaces.
Context {C : Crypto} {RS : ReedSolomon}.

Record serverSession := mkServer {
  core : session;
  raddr : option AddrPort;
  lastOrigPort : Z;
  pathAddrs : gmap Z pathEntry;
  pathChallenges : gmap Addr pathChallenge;
  sessMaxPkt : Z;
  observedPayload : Z;
  mtuGateOpen : bool;
}.

Definition set_core (s : serverSession) (c : session) : serverSession :=
  mkServer c (raddr s) (lastOrigPort s) (pathAddrs s) (pathChallenges s) (sessMaxPkt s)
    (observedPayload s) (mtuGateOpen s).
Definition set_raddr (s : serverSession) (a : AddrPort) : serverSession :=
  mkServer (core s) (Some a) (lastOrigPort s) (pathAddrs s) (pathChallenges s) (sessMaxPkt s)
    (observedPayload s) (mtuGateOpen s).
Definition set_paths (s : serverSession) (last : Z) (m : gmap Z pathEntry) : serverSession :=
  mkServer (core s) (raddr s) last m (pathChallenges s) (sessMaxPkt s)
    (observedPayload s) (mtuGateOpen s).
Definition set_challenges (s : serverSession) (m : gmap Addr pathChallenge) : serverSession :=
  mkServer (core s) (raddr s) (lastOrigPort s) (pathAddrs s) m (sessMaxPkt s)
    (observedPayload s) (mtuGateOpen s).
Definition set_budget (s : serverSession) (maxPkt observed : Z) : serverSession :=
  mkServer (core s) (raddr s) (lastOrigPort s) (pathAddrs s) (pathChallenges s) maxPkt
    observed (mtuGateOpen s).
Definition openMtuGate (s : serverSession) : serverSession :=
  mkServer (core s) (raddr s) (lastOrigPort s) (pathAddrs s) (pathChallenges s) (sessMaxPkt s)
    (observedPayload s) true.

(** [createSession]'s session for a client at [remote] that addressed [origPort]. *)
Definition newServerSession (c : session) (remote : AddrPort) (origPort : Z) : serverSession :=
  mkServer c (Some remote) origPort ∅ ∅ 0 0 false.

(** * The client's address *)

Definition sameRemoteIP (s : serverSession) (a : AddrPort) : bool :=
  match raddr s with Some r => bool_decide (r.1 = a.1) | None => false end.

Definition updateRemoteAddr (s : serverSession) (newAddr : AddrPort) (allowIPChange : bool) : serverSession :=
  match raddr s with
  | None => set_raddr s newAddr
  | Some cur =>
      if bool_decide (cur = newAddr) then s else
      let sameIP := bool_decide (cur.1 = newAddr.1) in
      if negb sameIP && negb allowIPChange then s else set_raddr s newAddr
  end.

(** The least recently used path, the first met on ties. *)
Definition oldestPath (keys : list Z) (m : gmap Z pathEntry) : option (Z * Z) :=
  foldl (λ acc port,
    match m !! port with
    | None => acc
    | Some pe =>
        match acc with
        | None => Some (port, usedAt pe)
        | Some (_, oldest) => if usedAt pe <? oldest then Some (port, usedAt pe) else acc
        end
    end) None keys.

Definition evictPath (cfg : serverCfg) (m : gmap Z pathEntry) (origPort : Z) (e : senv) : gmap Z pathEntry :=
  if bool_decide (m !! origPort = None) && (sockLimit cfg <=? Z.of_nat (size m)) then
    match oldestPath (pathOrder e m) m with
    | Some (port, _) => delete port m
    | None => delete 0 m
    end
  else m.

Definition setPath (cfg : serverCfg) (s : serverSession) (origPort : Z) (a : AddrPort) (e : senv) : serverSession :=
  if origPort <=? 0 then s else
  if (lastOrigPort s =? origPort) && bool_decide (addr <$> pathAddrs s !! origPort = Some a) then s else
  set_paths s origPort (<[origPort := mkPath a (now (base e))]> (evictPath cfg (pathAddrs s) origPort e)).

(** * Migration *)

(** The token challenged on an address; [None] if no random bytes could be had. *)
Definition challengeFor (s : serverSession) (ip : Addr) (e : senv) : option (bytes * serverSession) :=
  let t := now (base e) in
  let m := filter (λ '(_, p), t ≤ expires p) (pathChallenges s) in
  match m !! ip with
  | Some p => Some (token p, set_challenges s m)
  | None =>
      match random e with
      | None => None
      | Some tok =>
          let m := if maxPathChallenges <=? Z.of_nat (size m)
                   then match challengeOrder e m with ip' :: _ => delete ip' m | [] => m end
                   else m in
          Some (tok, set_challenges s (<[ip := mkChallenge tok (t + pathChallengeTTL)]> m))
      end
  end.

Definition sendPathChallenge (s : serverSession) (a : AddrPort) (origPort : Z) (e : senv) :
    list output * serverSession :=
  match challengeFor s a.1 e with
  | None => ([], set_challenges s (filter (λ '(_, p), now (base e) ≤ expires p) (pathChallenges s)))
  | Some (tok, s) =>
      let '(_, out, c) := sendControlTo (core s) (frameOf (core s) CMD_PATH_CHALLENGE 0 0 0 tok)
                            (OutWriteTo origPort a) (base e) in
      (out, set_core s c)
  end.

Definition acceptPathResponse (s : serverSession) (a : AddrPort) (data : bytes) (e : senv) :
    bool * serverSession :=
  if negb (len data =? pathChallengeSize) then (false, s) else
  match pathChallenges s !! a.1 with
  | None => (false, s)
  | Some p =>
      if (expires p <? now (base e)) || negb (bool_decide (data = token p)) then (false, s)
      else (true, set_challenges s (delete a.1 (pathChallenges s)))
  end.

(** * The record budget *)

Definition applyMtuCommit (cfg : serverCfg) (s : serverSession) (n : Z) : serverSession :=
  let s := openMtuGate s in
  let n := if n <? maxPktFloor then maxPktFloor else n in
  let n := if cfgMaxPkt cfg <? n then cfgMaxPkt cfg else n in
  let cur := sessMaxPkt s in
  if negb (cur =? 0) && (cur =? n) then s else
  set_budget s n (if (0 <? cur) && (n <? cur) then 0 else observedPayload s).

Definition noteObservedPayload (s : serverSession) (n : Z) : serverSession :=
  if n <=? 0 then s else
  if n <=? observedPayload s then s else set_budget s (sessMaxPkt s) n.

Definition server_maxPayload (cfg : serverCfg) (s : serverSession) : Z :=
  ServerSession_maxPayload (cfgMaxPkt cfg) (sessMaxPkt s) (observedPayload s)
    (bool_decide (is_Some (fecSend (arq (core s))))).

(** * Frames *)

Definition handleDataFromPath (cfg : serverCfg) (s : serverSession) (f : UDPCFrame)
    (remote : AddrPort) (origPort : Z) (e : senv) : bool * list output * serverSession :=
  let s := noteObservedPayload s (len (Data f)) in
  let c := core s in
  let c := if 0 <? Ack f then Session.set_arq c (ServerSession_handleAck (arq c) (Ack f) (now (base e))) else c in
  let '(ok, acks, d) := offer (deliv c) (now (base e)) (Seq f) (Data f) in
  let '(out, c) := sendACKs (Session.set_deliv c d) acks (base e) in
  let s := set_core s c in
  if negb ok then (false, out, s) else
  let s := setPath cfg (updateRemoteAddr s remote true) origPort remote e in
  (true, out, set_core s (touch (core s) (now (base e)))).

Fixpoint server_deliverRecoveredFEC (cfg : serverCfg) (s : serverSession)
    (recovered : list fecRecovered) (remote : AddrPort) (origPort : Z) (e : senv) :
    list output * serverSession :=
  match recovered with
  | [] => ([], s)
  | (sq, p) :: recovered =>
      let '(out, s) :=
        if sq =? 0 then ([], s) else
        let '(_, out, s) := handleDataFromPath cfg s (frameOf (core s) CMD_DATA sq 0 0 p) remote origPort e in
        (out, s) in
      let '(outs, s) := server_deliverRecoveredFEC cfg s recovered remote origPort e in
      (out ++ outs, s)
  end.

(** The commands other than DATA, once the frame is known to come from the
    session's own address. *)
Definition serverHandle (cfg : serverCfg) (s : serverSession) (f : UDPCFrame)
    (remote : AddrPort) (origPort : Z) (e : senv) : list output * serverSession :=
  let c := Cmd f in
  let reply cmd data :=
    let '(_, out, c) := sendControl (core s) (frameOf (core s) cmd 0 (currentAck (core s)) 0 data) (base e) in
    (out, set_core s c) in
  if c =? CMD_SACK then
    let '(wires, a) := handleSACK (arq (core s)) f (now (base e)) in
    (map OutQueue wires, set_core s (Session.set_arq (core s) a))
  else if c =? CMD_PING then reply CMD_PONG []
  else if c =? CMD_FEC then
    let '(rec, k) := fecReceive (core s) (λ r, onParityFrame r f (now (base e)) (mapOrder (base e))) in
    server_deliverRecoveredFEC cfg (set_core s k) rec remote origPort e
  else if c =? CMD_FIN then
    let '(out, k) := closeSession (core s) "closed" (base e) in (out, set_core s k)
  else if c =? CMD_MTU_PROBE then
    if mtuProbe cfg then reply CMD_MTU_PROBE_REPLY (Data f) else ([], s)
  else if c =? CMD_MTU_COMMIT then ([], applyMtuCommit cfg s (be_val (upto 2 (Data f))))
  else ([], s).

Definition handleIncomingFrame (cfg : serverCfg) (s : serverSession) (f : UDPCFrame)
    (remote : AddrPort) (origPort : Z) (e : senv) : bool * list output * serverSession :=
  if negb (sameRemoteIP s remote) then
    let '(ok, s1) := if Cmd f =? CMD_PATH_RESPONSE then acceptPathResponse s remote (Data f) e
                     else (false, s) in
    if ok then
      let s := setPath cfg (updateRemoteAddr s1 remote true) origPort remote e in
      (true, [], set_core s (touch (core s) (now (base e))))
    else
      let '(out, s) := sendPathChallenge s1 remote origPort e in (false, out, s)
  else if Cmd f =? CMD_DATA then
    let s := openMtuGate s in
    let '(rec, k) := fecReceive (core s) (λ r, onData r (Seq f) (Data f) (now (base e)) (mapOrder (base e))) in
    let '(out1, s) := server_deliverRecoveredFEC cfg (set_core s k) rec remote origPort e in
    let '(ok, out2, s) := handleDataFromPath cfg s f remote origPort e in
    (ok, out1 ++ out2, s)
  else
    let s := setPath cfg (updateRemoteAddr s remote false) origPort remote e in
    let c := touch (core s) (now (base e)) in
    let c := if (0 <? Ack f) && negb (Cmd f =? CMD_SACK)
             then Session.set_arq c (ServerSession_handleAck (arq c) (Ack f) (now (base e))) else c in
    let '(out, s) := serverHandle cfg (set_core s c) f remote origPort e in
    (true, out, s).

Definition processIncomingFrame (cfg : serverCfg) (s : serverSession) (f : UDPCFrame)
    (remote : AddrPort) (origPort : Z) (e : senv) : bool * list output * serverSession :=
  let c := core s in
  if (Cmd f =? CMD_SACK) && bool_decide (aflow (arq c) = None) then (false, [], s) else
  if negb (validSessionFrameShape f) then (false, [], s) else
  match OpenFrameAEADInto f (Recv (skeys c)) with
  | Err _ => (false, [], s)
  | Ok plaintext =>
      let f := with_data f plaintext in
      let '(fresh, rf) := Accept (replay c) (PacketNo f) in
      let c := Session.set_replay c rf in
      if negb fresh then
        let '(out, c) := if Cmd f =? CMD_DATA then reackDuplicateData c (base e) else ([], c) in
        (false, out, set_core s c)
      else
        let '(ok, out, s) := handleIncomingFrame cfg (set_core s (observeRemote c f)) f remote origPort e in
        if negb ok then
          let c := core s in
          (false, out, if Cmd f =? CMD_DATA
                       then set_core s (Session.set_replay c (Remove (replay c) (PacketNo f))) else s)
        else (true, out, s)
  end.

(** One datagram from the socket, for a session of this id. *)
Definition serverReceive (cfg : serverCfg) (s : serverSession) (datagram : bytes)
    (remote : AddrPort) (origPort : Z) (e : senv) : bool * list output * serverSession :=
  match parseUDPCFrame datagram (smagic (core s)) with
  | Err _ => (false, [], s)
  | Ok f => if SessionID f =? sid (core s) then processIncomingFrame cfg s f remote origPort e
            else (false, [], s)
  end.

(** * The address book does not touch the session *)

Lemma setPath_core cfg s port a e : core (setPath cfg s port a e) = core s.
Proof. unfold setPath. destruct (_ <=? _); [done|]. by destruct (_ && _). Qed.
Lemma updateRemoteAddr_core s a b : core (updateRemoteAddr s a b) = core s.
Proof. unfold updateRemoteAddr. destruct (raddr s); [|done]. case_bool_decide; [done|]. by destruct (_ && _). Qed.
Lemma noteObserved_core s n : core (noteObservedPayload s n) = core s.
Proof. unfold noteObservedPayload. destruct (_ <=? _); [done|]. by destruct (_ <=? _). Qed.
Lemma applyMtuCommit_core cfg s n : core (applyMtuCommit cfg s n) = core s.
Proof. unfold applyMtuCommit. by destruct (_ && _). Qed.
Lemma challengeFor_core s ip e tok s' : challengeFor s ip e = Some (tok, s') → core s' = core s.
Proof.
  unfold challengeFor. destruct (_ !! ip); [by intros [= _ <-]|]. destruct (random e); [|done].
  by intros [= _ <-].
Qed.
Lemma acceptPathResponse_core s a d e : core (acceptPathResponse s a d e).2 = core s.
Proof.
  unfold acceptPathResponse. destruct (negb _); [done|]. destruct (_ !! _); [|done]. by destruct (_ || _).
Qed.

End WithInterfaces.
