(* ===== verification/Endpoint.v ===== *)
(** A whole endpoint: its session, the delivery writer goroutine and what the
    application has been handed, with every entry point of the session as a call.

    The socket readers, the uplink pump, the retransmit loop, the FEC and ACK
    timers, the transmit queue's callback and the writer interleave at the
    granularity of a call; a run is any sequence of calls. *)
From S2P Require Import Prelude Protocol F64 Rtt FecLoss FecWire Erasure FecBlock FecSender FecReceiver Replay Delivery AckCoalesce Flow Sack Arq Session ClientSession ServerSession.
Local Open Scope Z_scope.

(** The writer goroutine's steps: [orderedDelivery.run] and the delayed-ACK timer
    callback. *)
Inductive writer_op :=
| WoWake
| WoCheck
| WoCommit          (* the write succeeded *)
| WoFail            (* the write failed *)
| WoDone            (* the done channel was seen closed *)
| WoTimer (t : nat).

(** The calls both sides have. *)
Inductive call :=
| Write (payload : bytes)           (* sendRecord by the uplink pump *)
| Retransmit
| FecTimer (gen : Z)
| KeepAlive
| Touch                             (* the upstream pump read something *)
| Transmitted (wires : list bytes)  (* the batch sender's callback *)
| Shut (reason : string)
| Writer (o : writer_op).

(** What arrives from outside: a datagram, or one of the calls. *)
Inductive stimulus :=
| Receive (datagram : bytes) (remote : AddrPort) (port : Z)
| Call (c : call).

Section WithInterfaces.
Context {C : Crypto} {RS : ReedSolomon}.

Record half := mkHalf {
  hs : session;
  hw : writer;
  happ : list bytes;    (* payloads whose write succeeded, in order *)
}.

Definition set_hs (h : half) (s : session) : half := mkHalf s (hw h) (happ h).

(** The writer's part of a step on the delivery; [None] when it is not at a point
    where [o] happens.  The list holds the acknowledgements to send. *)
Definition writerMove (d : orderedDelivery) (w : writer) (app : list bytes) (o : writer_op) (e : env) :
    option (list Z * (orderedDelivery * writer * list bytes)) :=
  match o, w with
  | WoWake, WSleep => if wake d then Some ([], (set_wake d false, WDrain, app)) else None
  | WoCheck, WDrain => let '(w, d) := drainCheck d (now e) in Some ([], (d, w, app))
  | WoCommit, WWriting sq p =>
      let '(d, acks) := drainCommit d sq (timerStops e) in Some (acks, (d, WDrain, app ++ [p]))
  | WoFail, WWriting _ _ => Some ([], (set_writeStarted d 0, WStopped, app))
  | WoDone, WSleep | WoDone, WDrain => Some ([], (d, WStopped, app))
  | WoTimer t, _ =>
      if bool_decide (t ∈ live (delayed d)) then
        let '(q, acks) := fire (delayed d) t in Some (acks, (set_delayed d q, w, app))
      else None
  | _, _ => None
  end.

(** A step of the writer goroutine; a failed write closes the session. *)
Definition writerStep (h : half) (o : writer_op) (e : env) : list output * half :=
  match writerMove (deliv (hs h)) (hw h) (happ h) o e with
  | None => ([], h)
  | Some (acks, (d, w, app)) =>
      let s := set_deliv (hs h) d in
      let '(out, s) :=
        match o with
        | WoFail => closeSession s "application write failed" e
        | _ => sendACKs s acks e
        end in
      (out, mkHalf s w app)
  end.

Definition doCall (h : half) (c : call) (e : env) : list output * half :=
  let s := hs h in
  match c with
  | Write p => let '(_, out, s) := sendRecord s p e in (out, set_hs h s)
  | Retransmit => let '(_, out, s) := retransmitStep s e in (out, set_hs h s)
  | FecTimer gen => let '(out, s) := fecFlush s gen e in (out, set_hs h s)
  | KeepAlive => let '(out, s) := keepAlive s e in (out, set_hs h s)
  | Touch => ([], set_hs h (touch s (now e)))
  | Transmitted wires => ([], set_hs h (markBatchTransmitted s wires (now e)))
  | Shut reason => let '(out, s) := closeSession s reason e in (out, set_hs h s)
  | Writer o => writerStep h o e
  end.

Definition newHalf (s : session) : half := mkHalf s WSleep [].

(** The client; the address a datagram came from only matters by its port. *)
Definition clientStep (h : half) (x : stimulus) (e : senv) : list output * half :=
  match x with
  | Receive w remote _ =>
      let '(out, s) := clientReceive (hs h) w remote.2 (base e) in (out, set_hs h s)
  | Call c => doCall h c (base e)
  end.

(** The server: its session wraps the common one. *)
Record serverHalf := mkServerHalf { srv : serverSession; sw : writer; sapp : list bytes }.

Definition half_of (h : serverHalf) : half := mkHalf (core (srv h)) (sw h) (sapp h).
Definition with_half (h : serverHalf) (k : half) : serverHalf :=
  mkServerHalf (set_core (srv h) (hs k)) (hw k) (happ k).

Definition serverStep (cfg : serverCfg) (h : serverHalf) (x : stimulus) (e : senv) :
    list output * serverHalf :=
  match x with
  | Receive w remote port =>
      let '(_, out, s) := serverReceive cfg (srv h) w remote port e in
      (out, mkServerHalf s (sw h) (sapp h))
  | Call c => let '(out, k) := doCall (half_of h) c (base e) in (out, with_half h k)
  end.

(** A datagram that fails authentication under [s]'s receiving key. *)
Definition forged (s : session) (w : bytes) : Prop :=
  ∀ f q, parseUDPCFrame w (smagic s) = Ok f → OpenFrameAEADInto f (Recv (skeys s)) ≠ Ok q.

(** * Runs *)

Fixpoint runs {S} (step : S → stimulus → senv → list output * S) (s : S)
    (xs : list (stimulus * senv)) : list output * S :=
  match xs with
  | [] => ([], s)
  | (x, e) :: xs =>
      let '(o, s) := step s x e in
      let '(os, s) := runs step s xs in (o ++ os, s)
  end.

Lemma runs_inv {S} (I : S → Prop) (R : S → list output → S → Prop) step s xs :
  (∀ s, I s → R s [] s) →
  (∀ s1 o1 s2 o2 s3, R s1 o1 s2 → R s2 o2 s3 → R s1 (o1 ++ o2) s3) →
  (∀ s x e, I s → R s (step s x e).1 (step s x e).2 ∧ I (step s x e).2) →
  I s → R s (runs step s xs).1 (runs step s xs).2 ∧ I (runs step s xs).2.
Proof.
  intros Hr Ht Hs. revert s. induction xs as [|[x e] xs IH]; intros s Hi; simpl; [by auto|].
  destruct (Hs s x e Hi) as [H1 H2]. destruct (step s x e) as [o s1]. simpl in *.
  destruct (IH s1 H2) as [H3 H4]. destruct (runs step s1 xs) as [os s2]. simpl in *. eauto.
Qed.

End WithInterfaces.

(** * A concrete endpoint, for evaluation *)

Section Concrete.
#[local] Existing Instance toy_crypto.
#[local] Existing Instance xor_code.

Definition toy_keys : FrameKeys := mkFrameKeys toy_cipher toy_cipher false false false true.
Definition toy_session (client : bool) : session :=
  newSession client UDPC_MAGIC_DEFAULT 7 toy_keys 64 true true deliveryWindow 0.
Definition toy_env (t : Z) : env := mkEnv t (λ _, true) true (λ m, (map_to_list m).*1).
Definition toy_senv (t : Z) : senv :=
  mkSenv (toy_env t) (Some (repeat 5 16)) (λ m, (map_to_list m).*1) (λ m, (map_to_list m).*1).
Definition toy_cfg : serverCfg := mkCfg 16 1450 true.
Definition toy_remote : AddrPort := (str "192.0.2.1", 4000).
Definition toy_server : serverHalf :=
  mkServerHalf (newServerSession (toy_session false) toy_remote 443) WSleep [].
End Concrete.
