(* ===== verification/Nonces.v ===== *)
(** Packet numbers as nonces: every record an endpoint seals takes a number larger
    than all before it, until the 64-bit counter wraps.  [seals n out n'] is what
    a call that moves the counter from [n] to [n'] with outputs [out] satisfies;
    it composes along the code of Session, ClientSession and ServerSession. *)
From S2P Require Import Prelude Protocol F64 Rtt FecLoss FecWire Erasure FecBlock FecSender FecReceiver Replay Delivery AckCoalesce Flow Sack Arq Session ClientSession ServerSession Endpoint.
Local Open Scope Z_scope.

Definition nonce_of (o : output) : option Z := match o with OutSeal n => Some n | _ => None end.

(** The packet numbers sealed under, in order. *)
Definition nonces (out : list output) : list Z := omap nonce_of out.

Definition seals (n : Z) (out : list output) (n' : Z) : Prop :=
  0 ≤ n < 2 ^ 64 → OutExhausted ∉ out →
  n ≤ n' < 2 ^ 64 ∧ StronglySorted Z.lt (nonces out) ∧ Forall (λ k, n < k ≤ n') (nonces out).

Lemma nonces_app o1 o2 : nonces (o1 ++ o2) = nonces o1 ++ nonces o2.
Proof. apply omap_app. Qed.

Lemma sorted_app (l1 l2 : list Z) m :
  StronglySorted Z.lt l1 → StronglySorted Z.lt l2 →
  Forall (λ k, k ≤ m) l1 → Forall (λ k, m < k) l2 → StronglySorted Z.lt (l1 ++ l2).
Proof.
  induction l1 as [|x l1 IH]; intros H1 H2 Hl Hr; simpl; [done|].
  inversion H1; subst. apply Forall_cons in Hl as [Hx Hl]. constructor; [by apply IH|].
  apply Forall_app. split; [done|]. eapply Forall_impl; [exact Hr|]. cbv beta. lia.
Qed.

Lemma seals_app n o1 n1 o2 n2 : seals n o1 n1 → seals n1 o2 n2 → seals n (o1 ++ o2) n2.
Proof.
  intros H1 H2 Hn Hx. rewrite not_elem_of_app in Hx. destruct Hx as [Hx1 Hx2].
  destruct (H1 Hn Hx1) as (L1 & S1 & F1). destruct (H2 ltac:(lia) Hx2) as (L2 & S2 & F2).
  rewrite nonces_app. split_and!; [lia|lia| |].
  - apply (sorted_app _ _ n1); [done|done| |]; (eapply Forall_impl; [eassumption|]); cbv beta; lia.
  - apply Forall_app. split; (eapply Forall_impl; [eassumption|]); cbv beta; lia.
Qed.

Lemma seals_quiet n out : nonces out = [] → seals n out n.
Proof. intros Hq Hn _. rewrite Hq. split_and!; [lia|lia|constructor|constructor]. Qed.

Lemma seals_nil n : seals n [] n.
Proof. by apply seals_quiet. Qed.

Lemma seals_next n out :
  u64 (n + 1) ≠ 0 → nonces out = [] ∨ nonces out = [u64 (n + 1)] → seals n out (u64 (n + 1)).
Proof.
  intros Hne Ho Hn _. assert (Hlt : n + 1 < 2 ^ 64).
  { destruct (Z.eq_dec (n + 1) (2 ^ 64)) as [He|]; [by rewrite He in Hne|lia]. }
  rewrite (u64_small (n + 1)) in * by lia. split_and!; [lia|lia| |]; destruct Ho as [-> | ->]; repeat constructor; lia.
Qed.

Lemma seals_exhausted n out n' : seals n (OutExhausted :: out) n'.
Proof. intros _ Hx. destruct Hx. by left. Qed.

Lemma seals_queue n wires : seals n (map OutQueue wires) n.
Proof. apply seals_quiet. induction wires; simpl; done. Qed.

Section WithInterfaces.
Context {C : Crypto} {RS : ReedSolomon}.

(** A function of the session that returns outputs. *)
Definition sealing (s : session) (r : list output * session) : Prop :=
  seals (packetNo s) r.1 (packetNo r.2).

Lemma sealControl_number s f :
  match sealControl s f with
  | (Sealed f' _, s') => packetNo s' = u64 (packetNo s + 1) ∧ packetNo s' ≠ 0 ∧ PacketNo f' = packetNo s'
  | (Exhausted, _) => True
  | (Unsealed, s') => packetNo s' = u64 (packetNo s + 1) ∧ packetNo s' ≠ 0
  end.
Proof.
  unfold sealControl. destruct (Z.eqb_spec (u64 (packetNo s + 1)) 0); [done|].
  destruct (_ =? 0); done.
Qed.

Lemma writeControl_number s f e : packetNo (writeControl s f e) = packetNo s.
Proof. unfold writeControl. by destruct (_ || _). Qed.

Lemma closeSession_seals s reason e : sealing s (closeSession s reason e).
Proof.
  unfold closeSession, sealing. destruct (sessClosed s); [apply seals_nil|].
  set (s1 := Session.set_arq _ _). assert (Hn : packetNo s1 = packetNo s) by done.
  destruct (isClient s1); [|rewrite <- Hn; by apply seals_quiet].
  pose proof (sealControl_number s1 (frameOf s1 CMD_FIN 0 0 0 [])) as H.
  destruct (sealControl s1 _) as [[f w| |] s2]; cbn [fst snd].
  - destruct H as (H1 & H2 & H3). rewrite writeControl_number, H1, Hn in *.
    apply seals_next; [done|right]. simpl. by rewrite H3.
  - apply seals_exhausted.
  - destruct H as (H1 & H2). rewrite H1, Hn in *. apply seals_next; [done|by left].
Qed.

Lemma sendControlTo_seals s f send e :
  (∀ w, nonce_of (send w) = None) →
  sealing s ((sendControlTo s f send e).1.2, (sendControlTo s f send e).2).
Proof.
  intros Hsend. unfold sendControlTo, sealing.
  pose proof (sealControl_number s f) as H.
  destruct (sealControl s f) as [[f' w| |] s2]; cbn [fst snd].
  - destruct H as (H1 & H2 & H3). rewrite writeControl_number, H1 in *.
    apply seals_next; [done|right]. unfold nonces. simpl. by rewrite Hsend, H3.
  - destruct (closeSession s2 _ e). apply seals_exhausted.
  - destruct H as (H1 & H2). rewrite H1 in *. apply seals_next; [done|by left].
Qed.

Lemma sendControl_seals s f e :
  sealing s ((sendControl s f e).1.2, (sendControl s f e).2).
Proof. by apply sendControlTo_seals. Qed.

Lemma encodeFrame_seals s f e : sealing s ((encodeFrame s f e).1.2, (encodeFrame s f e).2).
Proof.
  unfold encodeFrame, sealing. destruct (Z.eqb_spec (u64 (packetNo s + 1)) 0).
  - destruct (closeSession _ _ e). apply seals_exhausted.
  - apply seals_next; [done|]. cbn [fst snd]. destruct (_ =? 0); [by left|by right].
Qed.

Lemma each_seals {A} (step : session → A → list output * session) s l :
  (∀ s x, sealing s (step s x)) → sealing s (each step s l).
Proof.
  intros Hs. revert s. induction l as [|x l IH]; intros s; simpl; [apply seals_nil|].
  specialize (Hs s x). destruct (step s x) as [o s1]. specialize (IH s1).
  destruct (each step s1 l) as [os s2]. by eapply seals_app.
Qed.

Lemma emitFeedback_seals s a e : sealing s (emitFeedback s a e).
Proof.
  unfold emitFeedback. pose proof (sendControl_seals s (feedbackFrame s a) e) as H.
  by destruct (sendControl s _ e) as [[b out] s'].
Qed.

Lemma sendACK_seals s a e : sealing s (sendACK s a e).
Proof.
  unfold sendACK. destruct (sessClosed s); [apply seals_nil|].
  destruct (match aflow (arq s) with Some _ => _ | None => _ end) as [ack urgent].
  destruct (claim _ _ _ _ _) as [[|] c]; [|apply seals_nil].
  apply (emitFeedback_seals (set_coal s c)).
Qed.

Lemma flushACK_seals s e : sealing s ((flushACK s e).1.2, (flushACK s e).2).
Proof.
  unfold flushACK. destruct (sessClosed s); [apply seals_nil|].
  destruct (flushDue _ _ _) as [[ack wait] c]. destruct (ack =? 0); [apply seals_nil|].
  pose proof (emitFeedback_seals (set_coal s c) ack e) as H. by destruct (emitFeedback _ _ _).
Qed.

Lemma sendACKs_seals s acks e : sealing s (sendACKs s acks e).
Proof. apply each_seals. intros. apply sendACK_seals. Qed.

Lemma reack_seals s e : sealing s (reackDuplicateData s e).
Proof. unfold reackDuplicateData. destruct (_ <? _); [apply sendACK_seals|apply seals_nil]. Qed.

Lemma sendFECParity_seals s p e : sealing s (sendFECParity s e p).
Proof.
  unfold sendFECParity. destruct (_ || _); [apply seals_nil|].
  destruct (applyToFrame _ _) as [f|]; [|apply seals_nil].
  pose proof (encodeFrame_seals s f e) as H. destruct (encodeFrame s f e) as [[w out] s'].
  unfold sealing in *. cbn [fst snd] in *. eapply seals_app; [exact H|].
  apply seals_quiet. by destruct (_ <? _).
Qed.

Lemma protect_seals s sq p e : sealing s (protect s sq p e).
Proof.
  unfold protect. destruct (fecSend (arq s)) as [fs|]; [|apply seals_nil].
  destruct (fec_add fs sq p) as [shards fs'].
  apply (each_seals _ (Session.set_arq s _)). intros. apply sendFECParity_seals.
Qed.

Lemma fecFlush_seals s gen e : sealing s (fecFlush s gen e).
Proof.
  unfold fecFlush. destruct (fecSend (arq s)) as [fs|]; [|apply seals_nil].
  destruct (flushTimer fs gen) as [shards fs'].
  apply (each_seals _ (Session.set_arq s _)). intros. apply sendFECParity_seals.
Qed.

Lemma sendRecord_seals s p e : sealing s ((sendRecord s p e).1.2, (sendRecord s p e).2).
Proof.
  unfold sendRecord. destruct (sessClosed s); [apply seals_nil|].
  destruct (windowFull (arq s)); [apply seals_nil|]. destruct (takeSeq (arq s)) as [sq a].
  set (s1 := Session.set_arq s a). set (f := frameOf _ _ _ _ _ _).
  pose proof (encodeFrame_seals s1 f e) as H. destruct (encodeFrame s1 f e) as [[w out] s2].
  unfold sealing in *. cbn [fst snd] in *. destruct (len w =? 0); [exact H|].
  set (s3 := Session.set_arq s2 _). pose proof (protect_seals s3 sq p e) as H2.
  destruct (protect s3 sq p e) as [out2 s4]. eapply seals_app; [exact H|].
  apply (seals_app _ [OutQueue w] (packetNo s2)); [by apply seals_quiet|exact H2].
Qed.

Lemma retransmitStep_seals s e : sealing s ((retransmitStep s e).1.2, (retransmitStep s e).2).
Proof.
  unfold retransmitStep. destruct (retransmitWake _ _) as [[[[due abandoned] delay] probe] a].
  set (s1 := Session.set_arq s a). destruct abandoned.
  { pose proof (closeSession_seals s1 "max retransmits exceeded" e) as H.
    by destruct (closeSession s1 _ e). }
  assert (H1 : sealing s1 (if probe then
      let '(_, o, s) := sendControl s1 (frameOf s1 CMD_PING 0 (currentAck s1) 0 []) e in (o, s)
      else ([], s1))).
  { destruct probe; [|apply seals_nil].
    pose proof (sendControl_seals s1 (frameOf s1 CMD_PING 0 (currentAck s1) 0 []) e) as H.
    by destruct (sendControl s1 _ e) as [[? ?] ?]. }
  destruct (if probe then _ else _) as [out1 s2].
  pose proof (flushACK_seals s2 e) as H2. destruct (flushACK s2 e) as [[w out2] s3].
  unfold sealing in *. cbn [fst snd] in *. 
  assert (H3 : seals (packetNo s) (map OutQueue due ++ out1 ++ out2) (packetNo s3)).
  { eapply seals_app; [apply seals_queue|]. eapply seals_app; [exact H1|exact H2]. }
  destruct (isClient s3 && _); [|exact H3].
  pose proof (closeSession_seals s3 "idle timeout" e) as H4.
  destruct (closeSession s3 _ e). eapply seals_app; [exact H3|exact H4].
Qed.

Lemma keepAlive_seals s e : sealing s (keepAlive s e).
Proof.
  apply each_seals. intros s' _.
  pose proof (sendControl_seals s' (frameOf s' CMD_PING 0 (currentAck s') 0 []) e) as H.
  by destruct (sendControl s' _ e) as [[? ?] ?].
Qed.

(** * Receiving *)

Lemma handleData_seals s f port e : sealing s ((handleData s f port e).1.2, (handleData s f port e).2).
Proof.
  unfold handleData. set (s1 := touch s (now e)).
  destruct (offerObserved _ _ _ _) as [[[fresh ok] acks] d].
  pose proof (sendACKs_seals (Session.set_deliv s1 d) acks e) as H.
  destruct (sendACKs _ acks e) as [out s2]. unfold sealing in *. cbn [fst snd] in *.
  eapply seals_app; [exact H|]. apply seals_quiet. destruct ok; [|done]. unfold observePath. by destruct (_ =? _).
Qed.

Lemma deliverRecoveredFEC_seals s rec e : sealing s (deliverRecoveredFEC s rec e).
Proof.
  apply each_seals. intros s' [sq p]. destruct (sq =? 0); [apply seals_nil|].
  pose proof (handleData_seals s' (frameOf s' CMD_DATA sq 0 0 p) 0 e) as H.
  by destruct (handleData _ _ _ _) as [[? ?] ?].
Qed.

Lemma fecReceive_number s rx : packetNo (fecReceive s rx).2 = packetNo s.
Proof. unfold fecReceive. destruct (fecRecv s) as [r|]; [|done]. by destruct (rx r). Qed.

Lemma observeRemote_number s f : packetNo (observeRemote s f) = packetNo s.
Proof. unfold observeRemote. destruct (fecSend _); [|done]. by destruct (_ =? _). Qed.

Lemma sendControl_pair s f e : sealing s (let '(_, out, s) := sendControl s f e in (out, s)).
Proof. pose proof (sendControl_seals s f e) as H. by destruct (sendControl s f e) as [[? ?] ?]. Qed.

Lemma clientHandle_seals s f port e : sealing s (clientHandle s f port e).
Proof.
  unfold clientHandle. repeat (destruct (_ =? _)); try apply seals_nil.
  all: try apply (sendControl_pair (touch s (now e))); try apply sendControl_pair;
       try apply closeSession_seals; try by apply (seals_quiet _ [OutEcho (Data f)]).
  - destruct (handleSACK _ _ _) as [wires a]. apply seals_queue.
  - pose proof (fecReceive_number s (λ r, onData r (Seq f) (Data f) (now e) (mapOrder e))) as Hn.
    destruct (fecReceive s _) as [rec s1]. pose proof (deliverRecoveredFEC_seals s1 rec e) as H1.
    destruct (deliverRecoveredFEC s1 rec e) as [out1 s2].
    pose proof (handleData_seals s2 f port e) as H2. destruct (handleData s2 f port e) as [[ok out2] s3].
    unfold sealing in *. cbn [fst snd] in *. rewrite <- Hn.
    eapply seals_app; [exact H1|]. by destruct ok.
  - pose proof (fecReceive_number (touch s (now e)) (λ r, onParityFrame r f (now e) (mapOrder e))) as Hn.
    destruct (fecReceive _ _) as [rec s1]. pose proof (deliverRecoveredFEC_seals s1 rec e) as H1.
    unfold sealing in *. cbn [fst snd] in *. by rewrite Hn in H1.
Qed.

Lemma clientReceive_seals s w port e : sealing s (clientReceive s w port e).
Proof.
  unfold clientReceive. destruct (parseUDPCFrame _ _) as [f|]; [|apply seals_nil].
  destruct (_ =? _); [|apply seals_nil]. unfold clientDispatch.
  destruct (_ && _); [apply seals_nil|]. destruct (negb _); [apply seals_nil|].
  destruct (OpenFrameAEADInto _ _) as [p|]; [|apply seals_nil].
  destruct (Accept _ _) as [fresh rf]. destruct (negb fresh).
  { destruct (_ =? _); [apply (reack_seals (Session.set_replay s rf))|apply seals_nil]. }
  pose proof (observeRemote_number (Session.set_replay s rf) (with_data f p)) as Hn.
  set (s1 := observeRemote _ _) in *. change (packetNo s1 = packetNo s) in Hn.
  unfold sealing. rewrite <- Hn.
  destruct (_ && _); [apply (clientHandle_seals (Session.set_arq s1 _))|apply clientHandle_seals].
Qed.

(** The same for functions of the server's session. *)
Definition srv_sealing (s : serverSession) (r : list output * serverSession) : Prop :=
  seals (packetNo (core s)) r.1 (packetNo (core r.2)).

Lemma handleDataFromPath_seals cfg s f a port e :
  srv_sealing s ((handleDataFromPath cfg s f a port e).1.2, (handleDataFromPath cfg s f a port e).2).
Proof.
  unfold handleDataFromPath, srv_sealing. set (s1 := noteObservedPayload s _).
  assert (Hc : core s1 = core s) by apply noteObserved_core.
  set (c := if 0 <? Ack f then _ else core s1).
  assert (Hn : packetNo c = packetNo (core s)) by (unfold c; rewrite Hc; by destruct (0 <? Ack f)).
  destruct (offer _ _ _ _) as [[ok acks] d].
  pose proof (sendACKs_seals (Session.set_deliv c d) acks (base e)) as H.
  destruct (sendACKs _ acks (base e)) as [out c2]. unfold sealing in H. cbn [fst snd] in *.
  change (packetNo (Session.set_deliv c d)) with (packetNo c) in H. rewrite Hn in H.
  destruct (negb ok); [exact H|]. cbn [set_core core touch packetNo].
  by rewrite setPath_core, updateRemoteAddr_core.
Qed.

Lemma server_deliver_seals cfg s rec a port e :
  srv_sealing s (server_deliverRecoveredFEC cfg s rec a port e).
Proof.
  revert s. induction rec as [|[sq p] rec IH]; intros s; simpl; [apply seals_nil|].
  assert (H1 : srv_sealing s (if sq =? 0 then ([], s) else
    let '(_, out, s) := handleDataFromPath cfg s (frameOf (core s) CMD_DATA sq 0 0 p) a port e in (out, s))).
  { destruct (sq =? 0); [apply seals_nil|].
    pose proof (handleDataFromPath_seals cfg s (frameOf (core s) CMD_DATA sq 0 0 p) a port e) as H.
    by destruct (handleDataFromPath _ _ _ _ _ _) as [[? ?] ?]. }
  destruct (if sq =? 0 then _ else _) as [out s1]. specialize (IH s1).
  destruct (server_deliverRecoveredFEC _ _ _ _ _ _) as [outs s2]. by eapply seals_app.
Qed.

Lemma sendPathChallenge_seals s a port e : srv_sealing s (sendPathChallenge s a port e).
Proof.
  unfold sendPathChallenge. destruct (challengeFor s a.1 e) as [[tok s1]|] eqn:Hc; [|apply seals_nil].
  apply challengeFor_core in Hc. unfold srv_sealing.
  pose proof (sendControlTo_seals (core s1) (frameOf (core s1) CMD_PATH_CHALLENGE 0 0 0 tok)
    (OutWriteTo port a) (base e) ltac:(done)) as H. rewrite <- Hc.
  by destruct (sendControlTo _ _ _ _) as [[? ?] ?].
Qed.

Lemma serverHandle_seals cfg s f a port e : srv_sealing s (serverHandle cfg s f a port e).
Proof.
  assert (Hreply : ∀ cmd data, srv_sealing s
    (let '(_, out, c) := sendControl (core s) (frameOf (core s) cmd 0 (currentAck (core s)) 0 data) (base e) in
     (out, set_core s c))).
  { intros cmd data. pose proof (sendControl_seals (core s)
      (frameOf (core s) cmd 0 (currentAck (core s)) 0 data) (base e)) as H.
    by destruct (sendControl _ _ _) as [[? ?] ?]. }
  unfold serverHandle. cbv zeta.
  destruct (Cmd f =? CMD_SACK).
  { destruct (handleSACK _ _ _) as [wires a']. apply seals_queue. }
  destruct (Cmd f =? CMD_PING); [apply Hreply|]. destruct (Cmd f =? CMD_FEC).
  { pose proof (fecReceive_number (core s) (λ r, onParityFrame r f (now (base e)) (mapOrder (base e)))) as Hn.
    destruct (fecReceive _ _) as [rec k]. unfold srv_sealing. rewrite <- Hn.
    apply (server_deliver_seals cfg (set_core s k)). }
  destruct (Cmd f =? CMD_FIN).
  { pose proof (closeSession_seals (core s) "closed" (base e)) as H. by destruct (closeSession _ _ _). }
  destruct (Cmd f =? CMD_MTU_PROBE); [destruct (mtuProbe cfg); [apply Hreply|apply seals_nil]|].
  destruct (Cmd f =? CMD_MTU_COMMIT); [|apply seals_nil].
  unfold srv_sealing. cbn [fst snd]. rewrite applyMtuCommit_core. apply seals_nil.
Qed.

Lemma handleIncoming_seals cfg s f a port e :
  srv_sealing s ((handleIncomingFrame cfg s f a port e).1.2, (handleIncomingFrame cfg s f a port e).2).
Proof.
  unfold handleIncomingFrame, srv_sealing. destruct (negb (sameRemoteIP s a)).
  - assert (H1 : core (if Cmd f =? CMD_PATH_RESPONSE then acceptPathResponse s a (Data f) e else (false, s)).2
                 = core s).
    { destruct (_ =? _); [apply acceptPathResponse_core|done]. }
    destruct (if Cmd f =? CMD_PATH_RESPONSE then _ else _) as [ok s1]. cbn [snd] in H1. rewrite <- H1.
    destruct ok; cbn [fst snd].
    + cbn [set_core core touch packetNo]. rewrite setPath_core, updateRemoteAddr_core. apply seals_nil.
    + pose proof (sendPathChallenge_seals s1 a port e) as H. by destruct (sendPathChallenge _ _ _ _).
  - destruct (Cmd f =? CMD_DATA).
    + pose proof (fecReceive_number (core (openMtuGate s))
        (λ r, onData r (Seq f) (Data f) (now (base e)) (mapOrder (base e)))) as Hn.
      destruct (fecReceive _ _) as [rec k]. cbn [snd] in Hn.
      pose proof (server_deliver_seals cfg (set_core (openMtuGate s) k) rec a port e) as H1.
      destruct (server_deliverRecoveredFEC _ _ _ _ _ _) as [out1 s2].
      pose proof (handleDataFromPath_seals cfg s2 f a port e) as H2.
      destruct (handleDataFromPath _ _ _ _ _ _) as [[ok out2] s3].
      unfold srv_sealing in *. cbn [fst snd set_core core openMtuGate] in *. rewrite Hn in H1.
      by eapply seals_app.
    + set (s1 := setPath _ _ _ _ _). set (c := if _ && _ then _ else _).
      assert (Hc : packetNo c = packetNo (core s)).
      { unfold c, s1. rewrite setPath_core, updateRemoteAddr_core. by destruct (_ && _). }
      pose proof (serverHandle_seals cfg (set_core s1 c) f a port e) as H.
      destruct (serverHandle _ _ _ _ _ _) as [out s2]. unfold srv_sealing in H.
      cbn [set_core core fst snd] in *. by rewrite Hc in H.
Qed.

Lemma serverReceive_seals cfg s w a port e :
  srv_sealing s ((serverReceive cfg s w a port e).1.2, (serverReceive cfg s w a port e).2).
Proof.
  unfold serverReceive. destruct (parseUDPCFrame _ _) as [f|]; [|apply seals_nil].
  destruct (_ =? _); [|apply seals_nil]. unfold processIncomingFrame.
  destruct (_ && _); [apply seals_nil|]. destruct (negb _); [apply seals_nil|].
  destruct (OpenFrameAEADInto _ _) as [p|]; [|apply seals_nil].
  destruct (Accept _ _) as [fresh rf]. set (c := Session.set_replay (core s) rf).
  destruct (negb fresh).
  { destruct (_ =? _); [|apply seals_nil]. pose proof (reack_seals c (base e)) as H.
    by destruct (reackDuplicateData c (base e)). }
  pose proof (observeRemote_number c (with_data f p)) as Hn.
  pose proof (handleIncoming_seals cfg (set_core s (observeRemote c (with_data f p))) (with_data f p) a port e) as H.
  destruct (handleIncomingFrame _ _ _ _ _ _) as [[ok out] s1]. unfold srv_sealing in *.
  cbn [set_core core fst snd] in *. rewrite Hn in H.
  destruct (negb ok); [|exact H]. by destruct (_ =? _).
Qed.

(** * Endpoints *)

Lemma writerStep_seals h o e :
  seals (packetNo (hs h)) (writerStep h o e).1 (packetNo (hs (writerStep h o e).2)).
Proof.
  unfold writerStep. destruct (writerMove _ _ _ _ _) as [[acks [[d w] app]]|]; [|apply seals_nil].
  set (s := Session.set_deliv (hs h) d).
  assert (Hs : sealing s (match o with
    | WoFail => closeSession s "application write failed" e | _ => sendACKs s acks e end))
    by (destruct o; first [apply closeSession_seals|apply sendACKs_seals]).
  by destruct (match o with WoFail => _ | _ => _ end).
Qed.

Lemma doCall_seals h c e :
  seals (packetNo (hs h)) (doCall h c e).1 (packetNo (hs (doCall h c e).2)).
Proof.
  destruct c as [p| |gen| | |wires|reason|o]; cbn [doCall]; try apply writerStep_seals.
  - pose proof (sendRecord_seals (hs h) p e) as H. by destruct (sendRecord _ _ _) as [[? ?] ?].
  - pose proof (retransmitStep_seals (hs h) e) as H. by destruct (retransmitStep _ _) as [[? ?] ?].
  - pose proof (fecFlush_seals (hs h) gen e) as H. by destruct (fecFlush _ _ _).
  - pose proof (keepAlive_seals (hs h) e) as H. by destruct (keepAlive _ _).
  - apply seals_nil.
  - apply seals_nil.
  - pose proof (closeSession_seals (hs h) reason e) as H. by destruct (closeSession _ _ _).
Qed.

Lemma clientStep_seals h x e :
  seals (packetNo (hs h)) (clientStep h x e).1 (packetNo (hs (clientStep h x e).2)).
Proof.
  destruct x as [w a port|c]; cbn [clientStep]; [|apply doCall_seals].
  pose proof (clientReceive_seals (hs h) w a.2 (base e)) as H. by destruct (clientReceive _ _ _ _).
Qed.

Lemma serverStep_seals cfg h x e :
  seals (packetNo (core (srv h))) (serverStep cfg h x e).1 (packetNo (core (srv (serverStep cfg h x e).2))).
Proof.
  destruct x as [w a port|c]; cbn [serverStep].
  - pose proof (serverReceive_seals cfg (srv h) w a port e) as H.
    by destruct (serverReceive _ _ _ _ _ _) as [[? ?] ?].
  - pose proof (doCall_seals (half_of h) c (base e)) as H. by destruct (doCall _ _ _).
Qed.

Lemma runs_seals {S} (num : S → Z) step (s : S) xs :
  (∀ s x e, seals (num s) (step s x e).1 (num (step s x e).2)) →
  seals (num s) (runs step s xs).1 (num (runs step s xs).2).
Proof.
  intros Hs.
  apply (runs_inv (λ _, True) (λ s o s', seals (num s) o (num s')) step s xs); try done.
  - intros. apply seals_nil.
  - intros s1 o1 s2 o2 s3. apply seals_app.
Qed.

End WithInterfaces.

(** * Properties *)


(** Exhausting the packet numbers: when the counter wraps, the server
    closes without sealing anything, but the client's close still sends a FIN,
    which takes the number after zero and is sealed under nonce 1, the nonce of
    the session's first record. *)
Theorem exhaustion_reuses_nonce {C : Crypto} {RS : ReedSolomon} s f e :
  sessClosed s = false → packetNo s = 2 ^ 64 - 1 →
  let '(wire, out, s') := encodeFrame s f e in
  wire = [] ∧ sessClosed s' = true ∧
  nonces out = if isClient s then [1] else [].
Proof.
  intros Hc Hn. unfold encodeFrame. rewrite Hn. change (u64 (2 ^ 64 - 1 + 1)) with 0.
  rewrite Z.eqb_refl. set (s0 := set_packetNo s 0). unfold closeSession.
  change (sessClosed s0) with (sessClosed s). rewrite Hc.
  set (s1 := Session.set_arq _ _). change (isClient s1) with (isClient s).
  destruct (isClient s); [|split_and!; done].
  assert (Hs1 : packetNo s1 = 0) by done.
  unfold sealControl. change (packetNo s1) with 0. change (u64 (0 + 1)) with 1.
  change (1 =? 0) with false. cbv iota.
  match goal with |- context [len ?w =? 0] => assert (Hw : (len w =? 0) = false) end.
  { apply Z.eqb_neq. unfold sealControlFrameAEAD, sealFrameAEADInto. autorewrite with len.
    match goal with |- 40 + len ?x ≠ 0 => pose proof (len_nonneg x) end. lia. }
  rewrite Hw. cbv iota.
  match goal with |- context [writeControl ?s2 ?f2 e] =>
    assert (Hcl : sessClosed (writeControl s2 f2 e) = true) by (unfold writeControl; by destruct (_ || _))
  end.
  split_and!; [done|exact Hcl|done].
Qed.

(** * Witnesses *)

Section Witnesses.
#[local] Existing Instance toy_crypto.
#[local] Existing Instance xor_code.

Definition toy_calls : list (stimulus * senv) :=
  [(Call (Write (str "hello")), toy_senv 5); (Call KeepAlive, toy_senv 9)].


Lemma exhaustion_reuses_nonce_witness :
  nonces (encodeFrame (set_packetNo (toy_session true) (2 ^ 64 - 1))
            (frameOf (toy_session true) CMD_DATA 1 0 0 [7]) (toy_env 5)).1.2 = [1].
Proof.
  pose proof (exhaustion_reuses_nonce (set_packetNo (toy_session true) (2 ^ 64 - 1))
    (frameOf (toy_session true) CMD_DATA 1 0 0 [7]) (toy_env 5) eq_refl eq_refl) as H.
  destruct (encodeFrame _ _ _) as [[wire out] s']. destruct H as (_ & _ & H). exact H.
Defined.
End Witnesses.
