(* ===== verification/FecLink.v ===== *)
(** What the FEC layer and the session promise each other, as an interface.

    [FecContract] is what the session relies on: predicates on the two halves of
    the layer, on the records handed to it, on its parity shards and on whole
    datagrams, and the laws that tie them.  [Actions] is proved against it.
    [no_contract] promises nothing; [stream_contract] says that the sender and the
    receiver only ever hold shards of the two streams of records, so that every
    parity datagram is genuine and every rebuilt record is the peer's. *)
From S2P Require Import Prelude Protocol F64 Rtt FecLoss FecWire Erasure FecBlock FecSender FecReceiver FecRecovery Replay Delivery AckCoalesce Flow Sack Arq Session ClientSession.
Local Open Scope Z_scope.

(** * What a sealed header says *)

Section Wires.
Context {C : Crypto} {RS : ReedSolomon}.

Lemma header_fields fr n rest m f :
  0 ≤ Ack fr < 2 ^ 64 →
  parseUDPCFrame (encodeHeaderInto fr n ++ rest) m = Ok f →
  Cmd f = Cmd fr ∧ Ack f = Ack fr.
Proof.
  intros Ha Hp. apply parse_inv in Hp as (_ & _ & _ & _ & _ & ->). cbn [Cmd Ack].
  unfold encodeHeaderInto. rewrite <- !app_assoc. repeat field_step.
  change (256 ^ Z.of_nat 8) with (2 ^ 64) in *.
  split; [done|by rewrite be_val_be_bytes_small].
Qed.

(** The magic only decides whether a datagram parses. *)
Lemma parse_any_magic w m m' f f' :
  parseUDPCFrame w m = Ok f → parseUDPCFrame w m' = Ok f' → f = f'.
Proof.
  intros H1 H2. apply parse_inv in H1 as (_ & _ & _ & _ & _ & ->).
  by apply parse_inv in H2 as (_ & _ & _ & _ & _ & ->).
Qed.

(** What [applyFECFeedback] leaves alone. *)
Lemma feedback_fields s f :
  let f' := applyFECFeedback s f in
  Cmd f' = Cmd f ∧ Seq f' = Seq f ∧ Ack f' = Ack f ∧ Data f' = Data f ∧ Magic f' = Magic f ∧
  Version f' = Version f ∧ SessionID f' = SessionID f.
Proof. unfold applyFECFeedback. by destruct (fecRecv s). Qed.

Lemma basisPoints_range e : 0 ≤ basisPoints e < 2 ^ 16.
Proof. unfold basisPoints. repeat case_match; try lia. apply uwrap_range. lia. Qed.

(** * The interface *)

Class FecContract (k : FrameKeys) := {
  fc_sender : fecSender → Prop;
  fc_receiver : fecReceiver → Prop;
  fc_record : Z → bytes → Prop;     (* a record the sender is given to protect *)
  fc_shard : fecParityShard → Prop;  (* a shard it emits *)
  fc_wire : bytes → Prop;            (* a datagram on its way out *)
  fc_adaptive fs a : fc_sender fs → fc_sender (set_adaptive fs a);
  fc_close fs : fc_sender fs → fc_sender (fec_close fs);
  fc_add fs sq p : fc_sender fs → fc_record sq p →
    Forall fc_shard (fec_add fs sq p).1 ∧ fc_sender (fec_add fs sq p).2;
  fc_flush fs gen : fc_sender fs →
    Forall fc_shard (flushTimer fs gen).1 ∧ fc_sender (flushTimer fs gen).2;
  fc_other f p : Cmd f ≠ CMD_FEC → 0 ≤ Ack f < 2 ^ 64 → fc_wire (sealFrameAEADInto f (Send k) p);
  fc_parity s p f no :
    0 ≤ smagic s < 2 ^ 32 → 0 ≤ sid s < 2 ^ 32 → 0 ≤ currentAck s < 2 ^ 64 → 0 ≤ no < 2 ^ 64 →
    len (aead_key (Send k)) = 32 → fc_shard p →
    applyToFrame p (frameOf s CMD_FEC 0 (currentAck s) 0 []) = Some f →
    let g := with_packetNo (applyFECFeedback s f) no in fc_wire (SealFrameAEAD g (Send k) (Data g));
}.

(** Nothing promised, nothing owed. *)
Definition no_contract k : FecContract k.
Proof.
  by refine {| fc_sender _ := True; fc_receiver _ := True; fc_record _ _ := True; fc_shard _ := True; fc_wire _ := True |};
    intros; try (split; [apply Forall_true|]).
Defined.

End Wires.

(** * Flags of a parity frame *)

Definition flags_check (ext : bool) : bool :=
  forallb (λ k, forallb (λ m, forallb (λ i,
    bool_decide (0 ≤ fecFlags (mkParity 1 k m i [] ext) < 2 ^ 16))
    (seqZ 0 (parity_max ext))) (seqZ 1 (parity_max ext))) (seqZ 1 8).

Lemma fecFlags_range ext p : shard_wf ext p → Ext p = ext → 0 ≤ fecFlags p < 2 ^ 16.
Proof.
  intros (_ & Hk & Hm & Hi & _) He. assert (H : flags_check ext = true) by (by destruct ext; vm_compute).
  unfold flags_check in H. unfold fecDataShardsMax in Hk.
  rewrite forallb_forall in H. specialize (H (DataShards p)).
  rewrite forallb_forall in H. specialize (H ltac:(apply list_elem_of_In, elem_of_seqZ; lia) (ParityShards p)).
  rewrite forallb_forall in H. specialize (H ltac:(apply list_elem_of_In, elem_of_seqZ; lia) (Index p)).
  specialize (H ltac:(apply list_elem_of_In, elem_of_seqZ; lia)). apply bool_decide_eq_true in H.
  destruct p; simpl in *; subst; done.
Qed.

Lemma lor_range a b n : 0 ≤ n → 0 ≤ a < 2 ^ n → 0 ≤ b < 2 ^ n → 0 ≤ Z.lor a b < 2 ^ n.
Proof.
  intros Hn Ha Hb. assert (Hz : 0 ≤ Z.lor a b) by (apply Z.lor_nonneg; lia). split; [done|].
  destruct (decide (Z.lor a b = 0)) as [->|]; [lia|]. apply Z.log2_lt_pow2; [lia|].
  rewrite Z.log2_lor by lia.
  assert (∀ z, 0 ≤ z < 2 ^ n → z ≠ 0 → Z.log2 z < n) as Hl by (intros z ??; apply Z.log2_lt_pow2; lia).
  destruct (decide (a = 0)) as [->|], (decide (b = 0)) as [->|]; rewrite ?Z.lor_0_l, ?Z.lor_0_r in *; try done.
  - change (Z.log2 0) with 0. rewrite Z.max_r by apply Z.log2_nonneg. auto.
  - change (Z.log2 0) with 0. rewrite Z.max_l by apply Z.log2_nonneg. auto.
  - pose proof (Hl a Ha ltac:(done)). pose proof (Hl b Hb ltac:(done)). lia.
Qed.

(** The feedback bit is none of the metadata's. *)
Lemma parse_feedback f f' ext :
  Cmd f' = Cmd f → Seq f' = Seq f → Data f' = Data f →
  (Flags f' = Flags f ∨ Flags f' = Z.lor (Flags f) FLAG_FEC_FEEDBACK) →
  parseFECParityFrameExt f' ext = parseFECParityFrameExt f ext.
Proof.
  intros E1 E2 E3 Hf.
  assert (Hl : ∀ mask, Z.land FLAG_FEC_FEEDBACK mask = 0 → Z.land (Flags f') mask = Z.land (Flags f) mask).
  { intros mask Hm. destruct Hf as [->| ->]; [done|]. rewrite Z.land_lor_distr_l, Hm. apply Z.lor_0_r. }
  unfold parseFECParityFrameExt. by rewrite E1, E2, E3, !(Hl fecParityMask), !(Hl fecIndexMask), !(Hl fecDataMask),
    !(Hl fecParityExtFlag), !(Hl fecIndexExtFlag).
Qed.

(** * The contract of a stream *)

Section Stream.
Context {C : Crypto} {RS : ReedSolomon} {L : CryptoLaws C} {parity_of : Z → Z → list bytes → list bytes}.
Context (Hlaws : rs_laws parity_of).

(** ** As records are added *)

Lemma block_payloads_more t t' base n :
  t ⊆ t' → (∀ i, 0 ≤ i < n → is_Some (t !! (base + i))) →
  block_payloads t' base n = block_payloads t base n.
Proof.
  intros Hs Ht. unfold block_payloads. apply map_ext_in. intros i Hi%list_elem_of_In.
  apply elem_of_seqZ in Hi. destruct (Ht i) as [p Hp]; [lia|]. unfold payload_at.
  by rewrite Hp, (lookup_weaken _ _ _ _ Hp Hs).
Qed.

Lemma codeword_more t t' base n m :
  t ⊆ t' → (∀ i, 0 ≤ i < n → is_Some (t !! (base + i))) →
  codeword parity_of t' base n m = codeword parity_of t base n m ∧ block_size t' base n = block_size t base n.
Proof.
  intros Hs Ht. unfold codeword, block_data, block_size. by rewrite !(block_payloads_more t t').
Qed.

Lemma genuine_more t t' ext p : t ⊆ t' → genuine parity_of t ext p → genuine parity_of t' ext p.
Proof.
  intros Hs (H1 & H2 & H3 & H4 & H5).
  destruct (codeword_more t t' (BaseSeq p) (DataShards p) (ParityShards p) Hs H2) as [E1 E2].
  unfold genuine. rewrite E1, E2. split_and!; try done. intros i Hi. destruct (H2 i Hi) as [x Hx].
  exists x. by eapply lookup_weaken.
Qed.

Lemma sender_inv_more t t' s : t ⊆ t' → sender_inv t s → sender_inv t' s.
Proof.
  intros Hs []. split; try done. eapply Forall_impl; [done|]. intros src [? ?]. split; [done|].
  by eapply lookup_weaken.
Qed.

Lemma recv_inv_more t t' r :
  t ⊆ t' → recv_inv (parity_of := parity_of) t r → recv_inv (parity_of := parity_of) t' r.
Proof.
  intros Hs [H1 H2 H3]. split; [by etrans| |done]. eapply map_Forall_impl; [exact H2|].
  intros base b [B1 B2 B3 B4 B5 B6 B7 B8 B9 B10].
  destruct (codeword_more t t' base (dataShards b) (parityShards b) Hs B6) as [E1 E2].
  split; rewrite ?E1, ?E2; try done. intros i Hi. destruct (B6 i Hi) as [x Hx]. exists x. by eapply lookup_weaken.
Qed.

(** ** Parity datagrams *)

Definition payloads_bytes (t : gmap Z bytes) : Prop := map_Forall (λ _ p, Forall is_byte p) t.

Lemma genuine_bytes t ext p : payloads_bytes t → genuine parity_of t ext p → Forall is_byte (PData p).
Proof.
  intros Ht (_ & Hs & _ & _ & Hcw).
  assert (Hd : Forall (Forall is_byte) (block_data t (BaseSeq p) (DataShards p))).
  { unfold block_data, block_payloads. apply Forall_fmap, Forall_fmap, Forall_forall. intros i Hi%elem_of_seqZ.
    cbn. unfold dataShard, zeros, payload_at. destruct (Hs i) as [x Hx]; [lia|]. rewrite Hx. cbn.
    rewrite !Forall_app. split_and!; [apply be_bytes_byte|by eapply Ht|by apply Forall_replicate]. }
  eapply Forall_lookup_1 in Hcw; [exact Hcw|]. unfold codeword. apply Forall_app. split; [done|].
  by apply (rs_parity_bytes _ Hlaws).
Qed.

(** What opens as a parity frame describes a shard of the stream. *)
Definition parity_wire (k : FrameKeys) (t : gmap Z bytes) (w : bytes) : Prop :=
  ∀ m f q, parseUDPCFrame w m = Ok f → OpenFrameAEADInto f (Send k) = Ok q → Cmd f = CMD_FEC →
    event_ok (parity_of := parity_of) t (fecExt k) (EvParity (with_data f q) 0 (λ _, [])).

Lemma parity_wire_more k t t' w : t ⊆ t' → parity_wire k t w → parity_wire k t' w.
Proof.
  intros Hs Hw m f q Hp Ho Hc. destruct (Hw m f q Hp Ho Hc) as [H1 H2]. split; [done|].
  destruct (parseFECParityFrameExt _ _); [|done]. by eapply genuine_more.
Qed.

(** The frame a shard is sealed in. *)
Lemma parity_frame_wf k t p s f no :
  payloads_bytes t → genuine parity_of t (fecExt k) p → Ext p = fecExt k →
  0 ≤ smagic s < 2 ^ 32 → 0 ≤ sid s < 2 ^ 32 → 0 ≤ currentAck s < 2 ^ 64 → 0 ≤ no < 2 ^ 64 →
  applyToFrame p (frameOf s CMD_FEC 0 (currentAck s) 0 []) = Some f →
  frame_wf (with_packetNo (applyFECFeedback s f) no).
Proof.
  intros Ht Hg He Hm Hi Ha Hn Hf. pose proof (genuine_bytes _ _ _ Ht Hg) as Hb.
  pose proof (fecFlags_range _ _ (proj1 Hg) He) as Hfl.
  assert (E : Magic f = smagic s ∧ Version f = UDPC_VERSION ∧ raw f = []).
  { unfold applyToFrame in Hf. case_match; [done|]. by injection Hf as <-. }
  destruct E as (E1 & E2 & _).
  apply apply_fields in Hf as (F1 & F2 & F3 & F4 & F5 & F6 & F7). rewrite Z.ldiff_0_l, Z.lor_0_l in F1.
  destruct Hg as ((G1 & G0 & _ & _ & _ & G2) & _).
  assert (Hseq : 0 ≤ BaseSeq p < 2 ^ 64) by (unfold max_u64 in G2; lia).
  destruct (feedback_fields s f) as (Q1 & Q2 & Q3 & Q4 & Q5 & Q6 & Q7).
  assert (HF : 0 ≤ Flags (applyFECFeedback s f) < 2 ^ 16 ∧ 0 ≤ WindowSize (applyFECFeedback s f) < 2 ^ 16).
  { unfold applyFECFeedback. destruct (fecRecv s) as [r|]; cbn [Flags WindowSize]; rewrite F1; [|by rewrite F7].
    split; [|apply basisPoints_range]. by apply (lor_range _ _ 16). }
  unfold frame_wf. cbn [with_packetNo Magic Version Cmd Flags SessionID PacketNo Seq Ack WindowSize Data].
  rewrite Q1, Q2, Q3, Q4, Q5, Q6, Q7, E1, E2, F2, F3, F4, F5, F6. split_and!; first [done|lia|apply Hseq|apply HF|apply Hi|apply Ha].
Qed.

(** ** The contract *)

Lemma stream_parity k t s p f no :
  payloads_bytes t → 0 ≤ smagic s < 2 ^ 32 → 0 ≤ sid s < 2 ^ 32 → 0 ≤ currentAck s < 2 ^ 64 → 0 ≤ no < 2 ^ 64 →
  len (aead_key (Send k)) = 32 → genuine parity_of t (fecExt k) p ∧ Ext p = fecExt k →
  applyToFrame p (frameOf s CMD_FEC 0 (currentAck s) 0 []) = Some f →
  let g := with_packetNo (applyFECFeedback s f) no in parity_wire k t (SealFrameAEAD g (Send k) (Data g)).
Proof.
  intros Ht Hm Hi Ha Hn Hk [Hg He] Hf g m f' q Hp Ho Hc.
  pose proof (parity_frame_wf k t p s f no Ht Hg He Hm Hi Ha Hn Hf) as Hwf. fold g in Hwf.
  pose proof (apply_fields _ _ _ Hf) as (_ & F2 & F3 & F4 & _).
  destruct (feedback_fields s f) as (Q1 & Q2 & _ & Q4 & _ & Q6 & _).
  assert (EV : Version g = UDPC_VERSION).
  { change (Version g) with (Version (applyFECFeedback s f)). rewrite Q6. unfold applyToFrame in Hf.
    case_match; [done|]. by injection Hf as <-. }
  assert (EC : Cmd g = CMD_FEC) by (change (Cmd g) with (Cmd (applyFECFeedback s f)); by rewrite Q1, F2).
  assert (ED : Data g = PData p) by (change (Data g) with (Data (applyFECFeedback s f)); by rewrite Q4, F4).
  assert (ES : Seq g = BaseSeq p) by (change (Seq g) with (Seq (applyFECFeedback s f)); by rewrite Q2, F3).
  assert (EF : Flags g = Flags (applyFECFeedback s f)) by done. clearbody g.
  pose proof Hg as ((G1 & G0 & _ & _ & _ & G2) & _ & G3 & G4 & _).
  destruct (sealed_opens g (Send k) (Data g) 0) as (g' & Hg' & Hgr & _ & Ho'); [done|done|by rewrite EC|done|apply Hwf| |by left|].
  { rewrite ED. lia. }
  pose proof (parse_any_magic _ _ _ _ _ Hp Hg') as ->. rewrite Ho' in Ho. injection Ho as <-.
  split; [cbn [with_data Seq]; rewrite Hgr; cbn [with_raw Seq]; lia|].
  rewrite (parse_feedback f).
  - rewrite <- He, (apply_parse p _ f Hf) by (done || lia). rewrite He. by apply genuine_forget.
  - cbn [with_data Cmd]. rewrite Hgr. cbn [with_raw Cmd]. by rewrite EC, F2.
  - cbn [with_data Seq]. rewrite Hgr. cbn [with_raw Seq]. by rewrite ES, F3.
  - cbn [with_data Data]. by rewrite ED, F4.
  - cbn [with_data Flags]. rewrite Hgr. cbn [with_raw Flags]. rewrite EF. unfold applyFECFeedback.
    destruct (fecRecv s); [by right|by left].
Qed.

(** [out] are the records this side sends, [inp] those of its peer. *)
Definition stream_contract k (out inp : gmap Z bytes) : FecContract k.
Proof.
  refine {|
    fc_sender fs := payloads_bytes out ∧ sender_inv out fs ∧ extParity fs = fecExt k;
    fc_receiver r := recv_inv (parity_of := parity_of) inp r ∧ rextParity r = fecExt k;
    fc_record sq p := 0 ≤ sq ≤ max_u64 ∧ out !! sq = Some p;
    fc_shard p := payloads_bytes out ∧ genuine parity_of out (fecExt k) p ∧ Ext p = fecExt k;
    fc_wire := parity_wire k out;
  |}.
  - intros fs a (H0 & H1 & H2). split_and!; [done|by apply set_adaptive_inv|done].
  - intros fs (H0 & H1 & H2). split_and!; [done|by apply fec_close_inv|]. unfold fec_close. by case_match.
  - intros fs sq p (H0 & H1 & H2) [H3 H4]. destruct (fec_add fs sq p) as [o fs'] eqn:E. rewrite <- H2.
    destruct (fec_add_inv Hlaws out _ _ _ _ _ H1 H3 H4 E) as (H5 & ? & ?). split; [|done].
    eapply Forall_impl; [exact H5|]. intros x ?. by split.
  - intros fs gen (H0 & H1 & H2). destruct (flushTimer fs gen) as [o fs'] eqn:E. rewrite <- H2.
    destruct (flushTimer_inv Hlaws out _ _ _ _ H1 E) as (H5 & ? & ?). split; [|done].
    eapply Forall_impl; [exact H5|]. intros x ?. by split.
  - intros f p Hc Ha m g q Hp _ Hg. unfold sealFrameAEADInto in Hp.
    apply header_fields in Hp as [Hp _]; [congruence|done].
  - intros s p f no ????? [Hb Hs] Hf. by apply (stream_parity k out s p f no).
Defined.

(** A receiver's step on what the peer sent. *)
Lemma stream_receive k out inp e :
  event_ok (parity_of := parity_of) inp (fecExt k) e →
  ∀ r, fc_receiver (FecContract := stream_contract k out inp) r →
  Forall (original inp) (recv_step r e).1 ∧ fc_receiver (FecContract := stream_contract k out inp) (recv_step r e).2.
Proof.
  intros He r [Hr Hx]. destruct (recv_step r e) as [o r'] eqn:E. rewrite <- Hx in He.
  destruct (recv_step_inv Hlaws inp _ _ _ _ Hr He E) as (H1 & H2 & H3). split; [done|]. split; [done|]. cbn in *. congruence.
Qed.

End Stream.
