(* ===== verification/Actions.v ===== *)
(** An abstract specification of what an endpoint does to a stream: a handful of
    actions on the part of its state that matters for reliable delivery.  Every
    entry point of the session is shown to be a sequence of actions
    ([..._acts]), whatever the flow control, the coalescing of acknowledgements
    and the FEC layer do in between.

    [okAck n] says that the peer's acknowledgement of [n] was received, [okData sq
    p] that the record [sq] with payload [p] was (or was rebuilt from parity). *)
From S2P Require Import Prelude Protocol F64 Rtt FecLoss FecWire Erasure FecBlock FecSender FecReceiver FecRecovery Replay Delivery AckCoalesce Flow Sack Arq Session ClientSession ServerSession Endpoint FecLink.
Local Open Scope Z_scope.

Definition wire_of (o : output) : option bytes :=
  match o with OutQueue w | OutWrite w | OutWriteTo _ _ w => Some w | _ => None end.
Definition wires (out : list output) : list bytes := omap wire_of out.

Lemma wires_app o1 o2 : wires (o1 ++ o2) = wires o1 ++ wires o2.
Proof. apply omap_app. Qed.
Lemma wires_queue ws : wires (map OutQueue ws) = ws.
Proof. induction ws as [|w ws IH]; [done|]. unfold wires in *. cbn. by f_equal. Qed.

Section WithInterfaces.
Context {C : Crypto} {RS : ReedSolomon}.

(** * Datagrams by content *)

(** Anything but a DATA record; its cumulative ACK does not pass [bound]. *)
Definition control_wire (bound : Z) (w : bytes) : Prop :=
  ∀ m f, parseUDPCFrame w m = Ok f → Cmd f ≠ CMD_DATA ∧ Ack f ≤ bound.

(** A datagram that opens to the record [sq] with payload [p]. *)
Definition carries (key : AEADCipherState) (w : bytes) (sq : Z) (p : bytes) : Prop :=
  ∃ f, parseUDPCFrame w 0 = Ok f ∧ Cmd f = CMD_DATA ∧ Seq f = sq ∧ OpenFrameAEADInto f key = Ok p.

(** One that opens to nothing else, whatever magic it is parsed with. *)
Definition data_wire (key : AEADCipherState) (bound sq : Z) (p w : bytes) : Prop :=
  carries key w sq p ∧
  ∀ m f, parseUDPCFrame w m = Ok f →
    Seq f = sq ∧ Ack f ≤ bound ∧ ∀ q, OpenFrameAEADInto f key = Ok q → q = p.

(** * The abstract state and its actions *)

Record astate := mkA {
  aq : arqSender;
  ad : orderedDelivery;
  aw : writer;
  aapp : list bytes;
  apend : Z;        (* the coalescer's deferred advance *)
  aclosed : bool;
}.

Definition with_aq (a : astate) (q : arqSender) : astate := mkA q (ad a) (aw a) (aapp a) (apend a) (aclosed a).
Definition with_ad (a : astate) (d : orderedDelivery) : astate := mkA (aq a) d (aw a) (aapp a) (apend a) (aclosed a).
Definition with_apend (a : astate) (n : Z) : astate := mkA (aq a) (ad a) (aw a) (aapp a) n (aclosed a).
Definition with_writer (a : astate) (d : orderedDelivery) (w : writer) (l : list bytes) : astate :=
  mkA (aq a) d w l (apend a) (aclosed a).

Context (key : AEADCipherState) (okAck : Z → Prop) (okData : Z → bytes → Prop) (okWire : bytes → Prop).

(** [action a rs ws a']: the records filed and the datagrams sent on the way. *)
Inductive action : astate → list bytes → list bytes → astate → Prop :=
| Act_ack a n t :
    okAck n → 0 ≤ n → action a [] [] (with_aq a (handleAck (aq a) n t))
| Act_records a q ws :
    same_records (unacked (aq a)) (unacked q) → sendSeq q = sendSeq (aq a) →
    lowestOutstanding q = lowestOutstanding (aq a) →
    Forall (λ w, ∃ i p, unacked (aq a) !! i = Some p ∧ pwire p = w) ws →
    action a [] ws (with_aq a q)
| Act_file a sq q p w t :
    aclosed a = false → takeSeq (aq a) = (sq, q) →
    data_wire key (delivered (ad a)) sq p w → okWire w →
    action a [p] [w] (with_aq a (fileRecord q sq w t))
| Act_burn a q :
    aclosed a = false → q = (takeSeq (aq a)).2 →
    action a [] [] (mkA q (ad a) (aw a) (aapp a) (apend a) true)
| Act_control a w :
    control_wire (delivered (ad a)) w → okWire w → action a [] [w] a
| Act_offer a sq p t r acks d :
    okData sq p → offerObserved (ad a) t sq p = (r, acks, d) →
    action a [] [] (with_ad a d)
| Act_close a stopped :
    action a [] [] (mkA (aq a) (close (ad a) stopped) (aw a) (aapp a) (apend a) true)
| Act_pend a n :
    n ≤ Z.max (apend a) (delivered (ad a)) → action a [] [] (with_apend a n)
| Act_write a o e acks d w l :
    writerMove (ad a) (aw a) (aapp a) o e = Some (acks, (d, w, l)) →
    action a [] [] (with_writer a d w l).

Inductive acts : astate → list bytes → list bytes → astate → Prop :=
| acts_nil a : acts a [] [] a
| acts_cons a rs ws b rs' ws' c :
    action a rs ws b → acts b rs' ws' c → acts a (rs ++ rs') (ws ++ ws') c.

Lemma acts_app a rs ws b rs' ws' c :
  acts a rs ws b → acts b rs' ws' c → acts a (rs ++ rs') (ws ++ ws') c.
Proof.
  induction 1 as [|a rs1 ws1 b rs2 ws2 d Ha _ IH]; intros Hc; [done|].
  rewrite <- !app_assoc. eapply acts_cons; [exact Ha|by apply IH].
Qed.

Lemma acts_one a rs ws b : action a rs ws b → acts a rs ws b.
Proof. intros Ha. rewrite <- (app_nil_r rs), <- (app_nil_r ws). eapply acts_cons; [exact Ha|constructor]. Qed.

(** A closed session stays closed and files no record. *)
Lemma acts_closed a rs ws b : acts a rs ws b → aclosed a = true → aclosed b = true ∧ rs = [].
Proof.
  induction 1 as [|a rs ws b rs' ws' c Ha _ IH]; intros Hc; [done|].
  assert (H : aclosed b = true ∧ rs = []) by (destruct Ha; first [congruence|done]).
  destruct H as [Hb ->]. by apply IH.
Qed.

Lemma closeSession_closed s reason e : sessClosed (closeSession s reason e).2 = true.
Proof.
  unfold closeSession. destruct (sessClosed s) eqn:Hc; [done|]. cbv zeta. destruct (isClient _); [|done].
  unfold sealControl. destruct (_ =? 0); [done|]. destruct (_ =? 0); [done|].
  cbn [snd]. unfold writeControl. by destruct (_ || _).
Qed.

End WithInterfaces.

(** * What a sealed header says *)

Section Wires.
Context {C : Crypto} {RS : ReedSolomon}.

Lemma sealed_control c bound fr p :
  Cmd fr ≠ CMD_DATA → 0 ≤ Ack fr < 2 ^ 64 → Ack fr ≤ bound →
  control_wire bound (sealFrameAEADInto fr c p).
Proof.
  intros Hc Ha Hb m f Hp. unfold sealFrameAEADInto in Hp.
  apply header_fields in Hp as (-> & ->); done.
Qed.

Lemma sealed_data {L : CryptoLaws C} c bound fr p :
  frame_wf fr → Version fr = UDPC_VERSION → Cmd fr = CMD_DATA → len (aead_key c) = 32 →
  Forall is_byte p → len p ≤ UDPC_MAX_DATA → Ack fr ≤ bound →
  data_wire c bound (Seq fr) p (SealFrameAEAD fr c p).
Proof.
  intros Hwf Hv Hc Hk Hp Hl Hb. split.
  { destruct (sealed_opens fr c p 0) as (g & Hg & Hgr & _ & Ho); try done; [by rewrite Hc|by left|].
    exists g. split_and!; try done; by rewrite Hgr. }
  intros m f Hf. pose proof Hwf as (HM & _ & _ & _ & _ & _ & HQ & HA & _ & _).
  destruct (sealed_opens fr c p 0) as (g & Hg & Hgr & _ & Ho); [done|done|by rewrite Hc|done|done|done|by left|].
  assert (Hgf : g = f) by by eapply parse_any_magic.
  subst g. assert (Hfr : Seq f = Seq fr ∧ Ack f = Ack fr) by by rewrite Hgr.
  destruct Hfr as [-> ->]. split_and!; [done|done|].
  intros q Hq. rewrite Ho in Hq. congruence.
Qed.

End Wires.

(** * The session's functions as actions *)

Section Acts.
Context {C : Crypto} {RS : ReedSolomon} {L : CryptoLaws C}.
Context (k : FrameKeys) `{F : !FecContract k} (id : Z) (okAck : Z → Prop) (okData : Z → bytes → Prop).

(** What every function keeps true of a session. *)
Record sess_ok (s : session) : Prop := {
  so_magic : 0 ≤ smagic s < 2 ^ 32;
  so_id : sid s = id;
  so_sid : 0 ≤ sid s < 2 ^ 32;
  so_keys : skeys s = k;
  so_key : len (aead_key (Send k)) = 32;
  so_deliv : 0 ≤ delivered (deliv s) < 2 ^ 64;
  so_dpend : 0 ≤ dpending (delayed (deliv s)) ≤ delivered (deliv s);
  so_cpend : 0 ≤ cpending (coal s) ≤ delivered (deliv s);
  so_fsend : from_option fc_sender True (fecSend (arq s));
  so_frecv : from_option fc_receiver True (fecRecv s);
}.

Definition view (s : session) (w : writer) (l : list bytes) : astate :=
  mkA (arq s) (deliv s) w l (cpending (coal s)) (sessClosed s).

(** A function's result as actions that file the records [rs]. *)
Definition steps (s : session) (rs : list bytes) (r : list output * session) : Prop :=
  sess_ok s → ∀ w l,
  acts (Send k) okAck okData fc_wire (view s w l) rs (wires r.1) (view r.2 w l) ∧ sess_ok r.2 ∧
  delivered (deliv s) ≤ delivered (deliv r.2).

(** Nothing the abstract state shows changed. *)
Lemma steps_same s out s' :
  wires out = [] → (∀ w l, view s' w l = view s w l) → (sess_ok s → sess_ok s') → steps s [] (out, s').
Proof.
  intros Ho Hv Hk Hs w l. cbn [fst snd]. rewrite Ho, Hv. split_and!; [constructor|by apply Hk|].
  pose proof (Hv w l) as H. injection H as _ ->. done.
Qed.

Lemma steps_trans s rs1 o1 s1 rs2 o2 s2 :
  steps s rs1 (o1, s1) → steps s1 rs2 (o2, s2) → steps s (rs1 ++ rs2) (o1 ++ o2, s2).
Proof.
  intros H1 H2 Hs w l. destruct (H1 Hs w l) as (A1 & K1 & D1). destruct (H2 K1 w l) as (A2 & K2 & D2).
  cbn [fst snd] in *. rewrite wires_app. split_and!; [by eapply acts_app|done|lia].
Qed.

Lemma steps_trans0 s o1 s1 o2 s2 :
  steps s [] (o1, s1) → steps s1 [] (o2, s2) → steps s [] (o1 ++ o2, s2).
Proof. apply steps_trans. Qed.

#[local] Ltac same_view := apply steps_same; [done|done|by intros []].

(** One action. *)
Lemma steps_one s rs out s' :
  (sess_ok s → ∀ w l, action (Send k) okAck okData fc_wire (view s w l) rs (wires out) (view s' w l)) →
  (sess_ok s → sess_ok s') → (delivered (deliv s) ≤ delivered (deliv s')) → steps s rs (out, s').
Proof. intros Ha Hk Hd Hs w l. split_and!; [by apply acts_one, Ha|by apply Hk|done]. Qed.

(** Keeping what the FEC sender promises. *)
Definition fec_kept (a q : arqSender) : Prop :=
  from_option fc_sender True (fecSend a) → from_option fc_sender True (fecSend q).

Lemma sess_ok_arq s q : fec_kept (arq s) q → sess_ok s → sess_ok (Session.set_arq s q).
Proof. intros Hf []. split; try done. by apply Hf. Qed.

Lemma fec_kept_same a q : fecSend q = fecSend a → fec_kept a q.
Proof. unfold fec_kept. by intros ->. Qed.

Lemma fec_kept_close a : fec_kept a (set_fec a (fec_close <$> fecSend a)).
Proof. unfold fec_kept. cbn. destruct (fecSend a); [apply fc_close|done]. Qed.

(** Acknowledging records only tells the sender's loss estimate. *)
Lemma ackLoop_fec srtt t l seqs :
  from_option fc_sender True (al_fec l) → from_option fc_sender True (al_fec (foldl (client_ackOne srtt t) l seqs)).
Proof.
  revert l. induction seqs as [|sq seqs IH]; intros l Hl; [exact Hl|]. cbn [foldl]. apply IH. unfold client_ackOne.
  destruct (match al_map l !! sq, al_flow l with Some _, Some _ => _ | _, _ => _ end) as [sp fl]. cbn [al_fec].
  destruct (al_map l !! sq) as [p|]; [|done]. destruct (al_fec l) as [fe|]; [|done]. by apply fc_adaptive.
Qed.

Lemma fec_kept_ack a n t : fec_kept a (handleAck a n t).
Proof.
  unfold handleAck, handleAck_with. destruct (_ && _); [by apply fec_kept_same|]. destruct (_ || _); [by apply fec_kept_same|].
  intros H. cbn [fecSend set_flow set_fec set_unacked]. apply ackLoop_fec. cbn [al_fec]. revert H.
  unfold sampleAck. by destruct (unacked a !! n); [destruct (_ && _)|].
Qed.

(** ** Control frames *)

Definition control_frame (s : session) (f : UDPCFrame) : Prop :=
  Cmd f ≠ CMD_DATA ∧ Cmd f ≠ CMD_FEC ∧ 0 ≤ Ack f ≤ delivered (deliv s).

Lemma frameOf_control s cmd ack window data :
  cmd ≠ CMD_DATA → cmd ≠ CMD_FEC → 0 ≤ ack ≤ delivered (deliv s) → control_frame s (frameOf s cmd 0 ack window data).
Proof. done. Qed.

Lemma sealControl_steps s f :
  control_frame s f →
  match sealControl s f with
  | (Sealed f' w, s') =>
      (∀ o, wires [o] = [w] → steps s [] ([o], s')) ∧ Ack f' = Ack f ∧
      deliv s' = deliv s
  | (Exhausted, s') | (Unsealed, s') => steps s [] ([], s') ∧ deliv s' = deliv s
  end.
Proof.
  intros (Hc & Hc' & Ha). unfold sealControl.
  destruct (feedback_fields s f) as (E1 & _ & E3 & _).
  destruct (_ =? 0); [split; [same_view|done]|].
  destruct (_ =? 0); [split; [same_view|done]|].
  split_and!; [|done|done]. intros o Ho. apply steps_one; [|by intros []|done].
  intros Hk w l. rewrite Ho. pose proof (so_deliv _ Hk). apply Act_control.
  - apply sealed_control; cbn [with_packetNo Cmd Ack view ad]; rewrite ?E1, ?E3; try done; try lia. exact (proj2 Ha).
  - change (skeys (set_packetNo s _)) with (skeys s). rewrite (so_keys _ Hk).
    apply fc_other; cbn [with_packetNo Cmd Ack]; rewrite ?E1, ?E3; done || lia.
Qed.

Lemma commitSent_pending c n : cpending (commitSent c n) = cpending c ∨ cpending (commitSent c n) = 0.
Proof. unfold commitSent. destruct (n =? 0); [by left|]. cbn. destruct (_ <=? _); auto. Qed.

Lemma pend_steps s c :
  0 ≤ cpending c ≤ Z.max (cpending (coal s)) (delivered (deliv s)) → steps s [] ([], set_coal s c).
Proof.
  intros Hc. apply steps_one; [|intros []; split; try done; cbn; lia|done].
  intros Hk w l. apply (Act_pend _ _ _ _ (view s w l)), Hc.
Qed.

Lemma writeControl_steps s f e : steps s [] ([], writeControl s f e).
Proof.
  unfold writeControl. destruct (_ || _); [|same_view].
  intros Hk. apply pend_steps; [|done]. pose proof (so_deliv _ Hk). pose proof (so_cpend _ Hk).
  destruct (commitSent_pending (coal s) (Ack f)) as [-> | ->]; lia.
Qed.

(** Closing, from a state already marked closed or not. *)
Lemma closeSession_acts s reason e b :
  sess_ok s → sessClosed s = false → ∀ w l,
  let r := closeSession s reason e in
  acts (Send k) okAck okData fc_wire (mkA (arq s) (deliv s) w l (cpending (coal s)) b) [] (wires r.1) (view r.2 w l) ∧
  sess_ok r.2 ∧ delivered (deliv s) ≤ delivered (deliv r.2).
Proof.
  intros Hk Hopen w l. unfold closeSession. rewrite Hopen.
  set (s1 := Session.set_arq _ _).
  assert (Hk1 : sess_ok s1) by (apply sess_ok_arq; [apply fec_kept_close|by destruct Hk]).
  assert (H1 : acts (Send k) okAck okData fc_wire (mkA (arq s) (deliv s) w l (cpending (coal s)) b) [] [] (view s1 w l)).
  { apply (acts_app _ _ _ _ _ [] [] (view (Session.set_deliv (set_closed s) (close (deliv s) (timerStops e))) w l) [] []);
      apply acts_one; [apply (Act_close _ _ _ _ (mkA _ _ _ _ _ _))|by apply Act_records]. }
  assert (Htail : ∀ out s2, steps s1 [] (out, s2) →
    acts (Send k) okAck okData fc_wire (mkA (arq s) (deliv s) w l (cpending (coal s)) b) [] (wires out) (view s2 w l) ∧
    sess_ok s2 ∧ delivered (deliv s) ≤ delivered (deliv s2)).
  { intros out s2 H2. destruct (H2 Hk1 w l) as (A & K & D). split_and!; [|done|done].
    apply (acts_app _ _ _ _ _ [] [] _ [] _ _ H1 A). }
  destruct (isClient s1); [|apply Htail; same_view].
  pose proof (sealControl_steps s1 (frameOf s1 CMD_FIN 0 0 0 [])) as H.
  assert (Hf : control_frame s1 (frameOf s1 CMD_FIN 0 0 0 [])).
  { apply frameOf_control; [done|done|]. pose proof (so_deliv _ Hk1). lia. }
  specialize (H Hf). destruct (sealControl s1 _) as [[f wire| |] s2]; apply Htail.
  - destruct H as (H & _ & _).
    refine (steps_trans0 s1 [OutSeal (PacketNo f); OutWrite wire] s2 [OutClosed reason] _ _ _).
    + refine (steps_trans0 s1 [OutSeal (PacketNo f)] s1 [OutWrite wire] s2 _ _); [same_view|by apply H].
    + refine (steps_trans0 s2 [OutClosed reason] s2 [] _ _ _); [same_view|apply writeControl_steps].
  - destruct H as [H _]. refine (steps_trans0 s1 [OutExhausted; OutOnceDeadlock] s1 [] _ _ H). same_view.
  - destruct H as [H _]. refine (steps_trans0 s1 [OutClosed reason] s1 [] _ _ H). same_view.
Qed.

Lemma closeSession_steps s reason e : steps s [] (closeSession s reason e).
Proof.
  intros Hk w l. destruct (sessClosed s) eqn:Hc.
  - unfold closeSession. rewrite Hc. by apply steps_same.
  - pose proof (closeSession_acts s reason e false Hk Hc w l) as H. unfold view at 1. by rewrite Hc.
Qed.

Lemma sendControlTo_steps s f send e :
  (∀ w, wires [send w] = [w]) → (sess_ok s → control_frame s f) →
  steps s [] ((sendControlTo s f send e).1.2, (sendControlTo s f send e).2).
Proof.
  intros Hsend Hf Hk. specialize (Hf Hk). unfold sendControlTo.
  pose proof (sealControl_steps s f Hf) as H. destruct (sealControl s f) as [[f' w| |] s2]; cbn [fst snd].
  - destruct H as (H & _ & _).
    refine (steps_trans0 s [OutSeal (PacketNo f')] s [send w] _ _ _ Hk); [same_view|].
    refine (steps_trans0 s [send w] s2 [] _ _ (writeControl_steps _ _ _)). apply H, Hsend.
  - destruct H as [H _]. pose proof (closeSession_steps s2 exhausted_reason e) as Hc.
    destruct (closeSession s2 _ e) as [out s3]. cbn [fst snd].
    refine (steps_trans0 s [OutExhausted] s2 out s3 _ Hc Hk).
    refine (steps_trans0 s [OutExhausted] s [] s2 _ H). same_view.
  - by apply H.
Qed.

Lemma sendControl_steps s f e :
  (sess_ok s → control_frame s f) → steps s [] (let '(_, out, s) := sendControl s f e in (out, s)).
Proof.
  intros Hf. pose proof (sendControlTo_steps s f OutWrite e ltac:(done) Hf) as H. unfold sendControl.
  by destruct (sendControlTo s f OutWrite e) as [[b out] s'].
Qed.

(** ** Feedback *)

Lemma feedbackFrame_control s a :
  sess_ok s → 0 ≤ a ≤ delivered (deliv s) → control_frame s (feedbackFrame s a).
Proof.
  intros Hk Ha. unfold feedbackFrame. pose proof (so_deliv _ Hk).
  destruct (aflow (arq s)); [|by apply frameOf_control]. unfold snapshot.
  apply frameOf_control; [done|done|lia].
Qed.

Lemma emitFeedback_steps s a e :
  (sess_ok s → 0 ≤ a ≤ delivered (deliv s)) → steps s [] (emitFeedback s a e).
Proof. intros Ha. apply sendControl_steps. intros. apply feedbackFrame_control; auto. Qed.

Lemma claim_pending c t a iv u :
  0 ≤ cpending c → 0 ≤ a → 0 ≤ cpending (claim c t a iv u).2 ≤ Z.max (cpending c) a.
Proof.
  intros. unfold claim. destruct u; [cbn; lia|]. destruct (_ || _); [cbn; lia|].
  destruct (_ <? iv); cbn; [|lia]. destruct (Z.ltb_spec (cpending c) a); lia.
Qed.

Lemma sendACK_steps s a e :
  (sess_ok s → 0 ≤ a ≤ delivered (deliv s)) → steps s [] (sendACK s a e).
Proof.
  intros Ha Hk. specialize (Ha Hk). unfold sendACK. destruct (sessClosed s); [by apply steps_same|].
  assert (Hack : ∃ ack urgent, (match aflow (arq s) with
    | Some _ => let '(ack, bitmap, _) := snapshot (deliv s) in (ack, ackGapUrgent <=? sackGaps bitmap)
    | None => (a, false) end) = (ack, urgent) ∧ 0 ≤ ack ≤ delivered (deliv s)).
  { destruct (aflow (arq s)); [unfold snapshot|]; eexists _, _; (split; [done|]); [|done].
    pose proof (so_deliv _ Hk). lia. }
  destruct Hack as (ack & urgent & -> & Hr).
  pose proof (so_cpend _ Hk) as Hcp.
  pose proof (claim_pending (coal s) (now e) ack (ackInterval s) urgent ltac:(lia) ltac:(lia)) as Hc.
  destruct (claim _ _ _ _ _) as [ok c]. cbn [snd] in Hc.
  assert (H1 : steps s [] ([], set_coal s c)).
  { apply pend_steps. lia. }
  destruct ok; [|by apply H1].
  pose proof (emitFeedback_steps (set_coal s c) ack e (λ _, Hr)) as H2.
  destruct (emitFeedback _ _ _) as [out s2]. exact (steps_trans0 s [] _ out s2 H1 H2 Hk).
Qed.

Lemma flushDue_pending c t iv :
  let '((ack, _), c') := flushDue c t iv in
  (cpending c' = cpending c ∨ cpending c' = 0) ∧ (ack = 0 ∨ ack = cpending c).
Proof.
  unfold flushDue. destruct (_ && _ && _); cbn; [by auto|]. destruct (_ || _); cbn; auto.
Qed.

Lemma flushACK_steps s e :
  steps s [] ((flushACK s e).1.2, (flushACK s e).2).
Proof.
  intros Hk. unfold flushACK. destruct (sessClosed s); [by apply steps_same|].
  pose proof (flushDue_pending (coal s) (now e) (ackInterval s)) as Hc.
  destruct (flushDue _ _ _) as [[ack wait] c]. destruct Hc as [Hc Ha].
  pose proof (so_deliv _ Hk). pose proof (so_cpend _ Hk).
  assert (H1 : steps s [] ([], set_coal s c)) by (apply pend_steps; destruct Hc as [-> | ->]; lia).
  destruct (Z.eqb_spec ack 0); [by apply H1|].
  destruct Ha as [?| ->]; [done|].
  pose proof (emitFeedback_steps (set_coal s c) (cpending (coal s)) e ltac:(done)) as H2.
  destruct (emitFeedback _ _ _) as [out s2]. exact (steps_trans0 s [] _ out s2 H1 H2 Hk).
Qed.

(** The delivered prefix does not shrink, so a bound on acknowledgements lasts. *)
Lemma each_steps {A} (step : session → A → list output * session) (P : Z → A → Prop) s l :
  (∀ d d' x, P d x → d ≤ d' → P d' x) →
  (∀ s x, P (delivered (deliv s)) x → steps s [] (step s x)) →
  Forall (P (delivered (deliv s))) l → steps s [] (each step s l).
Proof.
  intros Hmono Hstep. revert s. induction l as [|x l IH]; intros s Hl; simpl; [same_view|].
  apply Forall_cons in Hl as [Hx Hl]. specialize (Hstep s x Hx) as H1.
  destruct (step s x) as [o s1]. intros Hk.
  assert (Hl1 : Forall (P (delivered (deliv s1))) l).
  { destruct (H1 Hk WSleep []) as (_ & _ & Hd). eapply Forall_impl; [exact Hl|].
    intros y Hy. by eapply Hmono. }
  specialize (IH s1 Hl1). destruct (each step s1 l) as [os s2].
  exact (steps_trans0 s o s1 os s2 H1 IH Hk).
Qed.

Lemma sendACKs_steps s acks e :
  Forall (λ a, 0 ≤ a ≤ delivered (deliv s)) acks → steps s [] (sendACKs s acks e).
Proof.
  apply (each_steps _ (λ d a, 0 ≤ a ≤ d)); [intros; lia|]. intros s' a Ha. by apply sendACK_steps.
Qed.

Lemma reack_steps s e : steps s [] (reackDuplicateData s e).
Proof.
  unfold reackDuplicateData. destruct (_ <? _); [|same_view]. apply sendACK_steps.
  intros Hk. pose proof (so_deliv _ Hk). unfold currentAck. lia.
Qed.

(** ** Sending *)

(** A parity frame through [encodeFrame]. *)
Lemma encodeFrame_parity s p f e :
  fc_shard p → applyToFrame p (frameOf s CMD_FEC 0 (currentAck s) 0 []) = Some f →
  let '(wire, out, s') := encodeFrame s f e in
  steps s [] (out ++ (if 0 <? len wire then [OutQueue wire] else []), s').
Proof.
  intros Hp Hf. unfold encodeFrame. destruct (feedback_fields s f) as (E1 & _ & E3 & _).
  set (no := u64 (packetNo s + 1)). set (s0 := set_packetNo s no). assert (H0 : steps s [] ([], s0)) by same_view.
  destruct (_ =? 0).
  - pose proof (closeSession_steps s0 exhausted_reason e) as H. destruct (closeSession s0 _ e) as [out s1].
    cbn [len length Z.of_nat Z.ltb Z.compare]. rewrite app_nil_r.
    refine (steps_trans0 s [OutExhausted] s0 out s1 _ H). same_view.
  - set (fr := with_packetNo _ _). set (w := SealFrameAEAD fr _ _).
    assert (H1 : steps s [] (if 0 <? len w then [OutQueue w] else [], s0)).
    { destruct (Z.ltb_spec 0 (len w)) as [Hw|]; [|exact H0].
      apply steps_one; [|by intros []|done]. intros Hk w' l. pose proof (so_deliv _ Hk) as Hd.
      assert (Hfields : Cmd f = CMD_FEC ∧ Ack f = delivered (deliv s)).
      { apply apply_fields in Hf as (_ & -> & _ & _ & _ & -> & _). done. }
      destruct Hfields as [Ec Ea]. apply (Act_control _ _ _ _ (view s w' l)).
      - unfold w, SealFrameAEAD in Hw |- *. destruct (_ <? _); [done|]. destruct (_ <? _); [done|].
        apply sealed_control; cbn [fr with_packetNo Cmd Ack view ad]; rewrite ?E1, ?E3, ?Ec, ?Ea; try done; lia.
      - unfold w. change (skeys s0) with (skeys s). rewrite (so_keys _ Hk).
        apply (fc_parity s p f no); try done; [apply (so_magic _ Hk)|apply (so_sid _ Hk)|apply u64_range|apply (so_key _ Hk)]. }
    refine (steps_trans0 s _ s _ s0 _ H1). destruct (_ =? 0); same_view.
Qed.

Lemma sendFECParity_steps s p e : fc_shard p → steps s [] (sendFECParity s e p).
Proof.
  intros Hp. unfold sendFECParity. destruct (_ || _); [same_view|].
  destruct (applyToFrame p _) as [f|] eqn:Hf; [|same_view].
  pose proof (encodeFrame_parity s p f e Hp Hf) as H. by destruct (encodeFrame s f e) as [[w out] s'].
Qed.

Lemma fec_change s fe :
  fec_kept (arq s) (set_fec (arq s) fe) → steps s [] ([], Session.set_arq s (set_fec (arq s) fe)).
Proof. intros Hf. apply steps_one; [|by apply sess_ok_arq|done]. intros _ w l. by apply Act_records. Qed.

Lemma parity_steps s fe shards e :
  fec_kept (arq s) (set_fec (arq s) fe) → Forall fc_shard shards →
  steps s [] (each (λ s p, sendFECParity s e p) (Session.set_arq s (set_fec (arq s) fe)) shards).
Proof.
  intros Hf Hp. pose proof (each_steps (λ s p, sendFECParity s e p) (λ _, fc_shard)
    (Session.set_arq s (set_fec (arq s) fe)) shards) as H.
  destruct (each _ _ shards) as [out s'].
  refine (steps_trans0 s [] _ out s' (fec_change s fe Hf) (H _ _ _)); [done| |done].
  intros. by apply sendFECParity_steps.
Qed.

(** A parity-emitting call on a sender that keeps its promise. *)
Lemma emit_steps s fs shards fs' e :
  fecSend (arq s) = Some fs → (fc_sender fs → Forall fc_shard shards ∧ fc_sender fs') →
  steps s [] (each (λ s p, sendFECParity s e p) (Session.set_arq s (set_fec (arq s) (Some fs'))) shards).
Proof.
  intros Hs Hl Hk. pose proof (so_fsend _ Hk) as Hf. rewrite Hs in Hf. destruct (Hl Hf) as [H1 H2].
  by apply parity_steps; [intros _|..].
Qed.

Lemma protect_steps s sq p e : fc_record sq p → steps s [] (protect s sq p e).
Proof.
  intros Hr. unfold protect. destruct (fecSend (arq s)) as [fs|] eqn:Hs; [|same_view].
  pose proof (λ H, fc_add fs sq p H Hr) as H. destruct (fec_add fs sq p) as [shards fs']. by eapply emit_steps.
Qed.

Lemma fecFlush_steps s gen e : steps s [] (fecFlush s gen e).
Proof.
  unfold fecFlush. destruct (fecSend (arq s)) as [fs|] eqn:Hs; [|same_view].
  pose proof (fc_flush fs gen) as H. destruct (flushTimer fs gen) as [shards fs']. by eapply emit_steps.
Qed.

(** A payload [sendData] passes on: it fits a record. *)
Definition payload_ok (p : bytes) : Prop := Forall is_byte p ∧ len p ≤ UDPC_MAX_DATA.

Definition filed (st : send_status) (p : bytes) : list bytes :=
  match st with SendOk => [p] | _ => [] end.

Lemma data_frame_wf s sq window p no :
  sess_ok s → 0 ≤ sq < 2 ^ 64 → 0 ≤ window < 2 ^ 16 → Forall is_byte p → 0 ≤ no < 2 ^ 64 →
  let f := with_packetNo (applyFECFeedback s (frameOf s CMD_DATA sq (currentAck s) window p)) no in
  frame_wf f ∧ Version f = UDPC_VERSION ∧ Cmd f = CMD_DATA ∧ Seq f = sq ∧ Ack f = delivered (deliv s) ∧ Data f = p.
Proof.
  intros Hk Hs Hw Hp Hn. destruct Hk as [K1 _ K2 K3 K4 K5 _ _ _ _].
  unfold applyFECFeedback. destruct (fecRecv s) as [r|]; split_and!; try done.
  split_and!; cbn; try done; try apply K5; try apply basisPoints_range; lia.
Qed.

Lemma sealed_nonempty c f p : payload_ok p → len (SealFrameAEAD f c p) ≠ 0.
Proof.
  intros [_ Hl] Hz. unfold UDPC_MAX_DATA, UDPC_MAX_PKT, UDPC_HDR_SIZE, UDPC_TRAILER_SIZE in *.
  unfold SealFrameAEAD, UDPC_MAX_PKT, UDPC_HDR_SIZE in Hz.
  destruct (Z.ltb_spec 65535 (len p)); [lia|]. destruct (Z.ltb_spec 1450 (40 + len p + 16)); [lia|].
  unfold sealFrameAEADInto in Hz. rewrite len_app, len_header in Hz.
  pose proof (len_nonneg (aead_seal (aead_key c) (packetNonce (PacketNo f)) p (encodeHeaderInto f (len p)))). lia.
Qed.

Lemma sendRecord_steps s p e :
  payload_ok p → Forall (fc_record (takeSeq (arq s)).1) (filed (sendRecord s p e).1.1 p) →
  let '(st, out, s') := sendRecord s p e in
  steps s (filed st p) (out, s').
Proof.
  intros Hp. unfold sendRecord. destruct (sessClosed s) eqn:Hopen; [intros _; same_view|].
  destruct (windowFull (arq s)); [intros _; same_view|].
  destruct (takeSeq (arq s)) as [sq q] eqn:Hq. assert (Hkept : fec_kept (arq s) q).
  { apply fec_kept_same. unfold takeSeq in Hq. by injection Hq as _ <-. } set (s0 := Session.set_arq s q).
  set (win := if isClient s0 then 0 else advertisedWindowFull).
  unfold encodeFrame. set (no := u64 (packetNo s0 + 1)).
  destruct (Z.eqb_spec no 0) as [Hz|Hz].
  - destruct (closeSession (set_packetNo s0 no) exhausted_reason e) as [out s1] eqn:Hc.
    cbn [len length Z.of_nat Z.eqb filed]. intros _ Hk w l.
    pose proof (closeSession_acts (set_packetNo s0 no) exhausted_reason e true) as Hcl.
    destruct (Hcl ltac:(apply (sess_ok_arq s q Hkept) in Hk; by destruct Hk) Hopen w l) as (A & K & D). rewrite Hc in A, K, D. cbn [fst snd] in *.
    split_and!; [|done|done].
    apply (acts_app _ _ _ _ (view s w l) [] [] (mkA q (deliv s) w l (cpending (coal s)) true) [] (wires out) _); [|exact A].
    apply acts_one. apply (Act_burn _ _ _ _ (view s w l) q); [done|]. unfold view. cbn [aq]. by rewrite Hq.
  - set (f := with_packetNo _ no). destruct (Z.eqb_spec (len (SealFrameAEAD f (Send (skeys (set_packetNo s0 no))) (Data (applyFECFeedback s0
      (frameOf s0 CMD_DATA sq (currentAck s0) win p))))) 0) as [Hw|Hw].
    { exfalso. revert Hw. replace (Data (applyFECFeedback _ _)) with p; [by apply sealed_nonempty|].
      unfold applyFECFeedback. by destruct (fecRecv s0). }
    set (wire := SealFrameAEAD f _ _) in *.
    match goal with |- context [protect ?t sq p e] => set (s1 := t) end.
    pose proof (protect_steps s1 sq p e) as Hpr. destruct (protect s1 sq p e) as [out2 s2].
    cbn [filed fst snd]. rewrite Forall_singleton. intros Hrec. specialize (Hpr Hrec).
    assert (H1 : steps s [p] ([OutSeal no; OutQueue wire], s1)).
    { apply steps_one; [|intros Hk; apply (sess_ok_arq s q Hkept) in Hk; by destruct Hk|done]. intros Hk w l.
      assert (Hk0 : sess_ok s0) by by apply sess_ok_arq.
      destruct (data_frame_wf s0 sq win p no) as (F1 & F2 & F3 & F4 & F5 & F6); [done| | |apply Hp|apply u64_range|].
      { unfold takeSeq in Hq. injection Hq as <- _. apply u64_range. }
      { unfold win, advertisedWindowFull. destruct (isClient s0); lia. }
      fold f in F1, F2, F3, F4, F5, F6.
      assert (Hwire : wire = SealFrameAEAD f (Send k) p).
      { unfold wire. change (skeys (set_packetNo s0 no)) with (skeys s). rewrite (so_keys _ Hk). f_equal. exact F6. }
      apply (Act_file _ _ _ _ (view s w l) sq q p wire (now e) Hopen Hq); rewrite Hwire; cbn [view ad].
      - rewrite <- F4. apply sealed_data; try done; [apply (so_key _ Hk)|apply Hp|apply Hp|by rewrite F5].
      - unfold SealFrameAEAD. rewrite Hwire in Hw. unfold SealFrameAEAD in Hw.
        destruct (_ <? _); [done|]. destruct (_ <? _); [done|]. pose proof (so_deliv _ Hk).
        apply fc_other; [by rewrite F3|rewrite F5; apply (so_deliv _ Hk)]. }
    refine (steps_trans s [p] _ s1 [] out2 s2 H1 Hpr).
Qed.

(** ** Retransmission *)

(** Resent datagrams are those of outstanding records. *)
Definition stored (m : outstanding_map) (w : bytes) : Prop := ∃ i p, m !! i = Some p ∧ pwire p = w.

Lemma wiresOf_stored m m' seqs : same_records m m' → Forall (stored m) (wiresOf m' seqs).
Proof.
  intros Hm. unfold wiresOf. induction seqs as [|i seqs IH]; [constructor|].
  cbn [omap list_omap]. destruct (m' !! i) as [p|] eqn:Hp; [|exact IH]. constructor; [|exact IH].
  specialize (Hm i). rewrite Hp in Hm. destruct (m !! i) as [p'|] eqn:Hp'; [|done].
  exists i, p'. split; [done|]. cbn in *. congruence.
Qed.

Lemma retryDue_stored m now mx fl rtt : Forall (stored m) (retryDue m now mx fl rtt).1.1.1.1.
Proof.
  unfold retryDue. destruct (existsb _ _); [constructor|].
  destruct (creditProbeInterval fl m). by apply wiresOf_stored.
Qed.

Lemma updateSACK_stored fl m f hi rtt now : Forall (stored m) (updateSACK fl m f hi rtt now).1.1.
Proof.
  unfold updateSACK, markWords. destruct fl as [fl|]; [|constructor]. case_match; [constructor|].
  destruct (readWords _ _ _ _) as [[words count]|]; [|constructor].
  destruct (count <? 3); cbn [fst snd]; [constructor|]. apply wiresOf_stored.
  apply same_rangeWords. intros. apply same_markWord.
Qed.

Lemma records_steps s q ws out :
  same_records (unacked (arq s)) (unacked q) → sendSeq q = sendSeq (arq s) →
  lowestOutstanding q = lowestOutstanding (arq s) → fecSend q = fecSend (arq s) →
  Forall (stored (unacked (arq s))) ws → wires out = ws → steps s [] (out, Session.set_arq s q).
Proof.
  intros H1 H2 H3 Hf H4 <-. apply steps_one; [|by apply sess_ok_arq, fec_kept_same|done].
  intros _ w l. by apply (Act_records _ _ _ _ (view s w l)).
Qed.

Lemma ack_steps s n t :
  (0 < n → okAck n) → 0 < n → steps s [] ([], Session.set_arq s (handleAck (arq s) n t)).
Proof.
  intros Hn H0. apply steps_one; [|apply sess_ok_arq, fec_kept_ack|done].
  intros _ w l. apply (Act_ack _ _ _ _ (view s w l)); [auto|lia].
Qed.

Lemma handleSACK_steps s f t :
  (0 < Ack f → okAck (Ack f)) →
  steps s [] (map OutQueue (handleSACK (arq s) f t).1, Session.set_arq s (handleSACK (arq s) f t).2).
Proof.
  intros Hf. unfold handleSACK. destruct (aflow (arq s)) as [fl|] eqn:Hfl; [|by same_view; destruct s].
  pose proof (same_updateSACK (Some fl) (unacked (arq s)) f (u64 (sendSeq (arq s) - 1)) (SRTT (rttEst (arq s))) t) as Hm.
  pose proof (updateSACK_stored (Some fl) (unacked (arq s)) f (u64 (sendSeq (arq s) - 1)) (SRTT (rttEst (arq s))) t) as Hw.
  destruct (updateSACK (Some fl) _ _ _ _ _) as [[ws valid] [fl' m]]. cbn [fst snd] in *.
  set (a1 := set_flow (set_unacked (arq s) m (lowestOutstanding (arq s))) fl').
  assert (H1 : steps s [] (map OutQueue ws, Session.set_arq s a1)).
  { by apply (records_steps _ _ ws); rewrite ?wires_queue. }
  destruct (valid && _) eqn:Hv; [|exact H1]. apply andb_true_iff in Hv as [_ Hv%Z.ltb_lt].
  pose proof (ack_steps (Session.set_arq s a1) (Ack f) t Hf Hv) as H2.
  pose proof (steps_trans0 _ _ _ _ _ H1 H2) as H. by rewrite app_nil_r in H.
Qed.

Lemma ping_steps s e :
  steps s [] (let '(_, o, s) := sendControl s (frameOf s CMD_PING 0 (currentAck s) 0 []) e in (o, s)).
Proof.
  apply sendControl_steps. intros Hk. pose proof (so_deliv _ Hk). apply frameOf_control; [done|done|].
  unfold currentAck. lia.
Qed.

Lemma keepAlive_steps s e : steps s [] (keepAlive s e).
Proof. apply (each_steps _ (λ _ _, True)); [done| |by repeat constructor]. intros. apply ping_steps. Qed.

Lemma retransmitStep_steps s e :
  steps s [] (let '(_, out, s) := retransmitStep s e in (out, s)).
Proof.
  unfold retransmitStep, retransmitWake.
  pose proof (same_retryDue (unacked (arq s)) (now e) rttMaxRTO (aflow (arq s)) (SRTT (rttEst (arq s)))) as Hm.
  pose proof (retryDue_stored (unacked (arq s)) (now e) rttMaxRTO (aflow (arq s)) (SRTT (rttEst (arq s)))) as Hw.
  destruct (retryDue _ _ _ _ _) as [[[[due abandoned] delay] probe] [fl m]]. cbn [fst snd] in *.
  set (a1 := set_flow (set_unacked (arq s) m (lowestOutstanding (arq s))) fl).
  assert (H0 : ∀ o, wires o = due → steps s [] (o, Session.set_arq s a1)).
  { intros o Ho. by apply (records_steps _ _ due). }
  assert (H0' : steps s [] ([], Session.set_arq s a1)) by (by apply (records_steps _ _ [])).
  destruct abandoned.
  - pose proof (closeSession_steps (Session.set_arq s a1) "max retransmits exceeded" e) as H.
    destruct (closeSession _ _ e) as [out s2]. apply (steps_trans0 _ [] _ _ _ H0' H).
  - set (s1 := Session.set_arq s a1) in *.
    assert (H1 : steps s1 [] (if probe then let '(_, o, s) := sendControl s1 (frameOf s1 CMD_PING 0 (currentAck s1) 0 []) e in (o, s) else ([], s1))).
    { destruct probe; [apply ping_steps|same_view]. }
    destruct (if probe then _ else _) as [out1 s2].
    pose proof (flushACK_steps s2 e) as H2. destruct (flushACK s2 e) as [[w out2] s3].
    assert (H3 : steps s [] (map OutQueue due ++ out1 ++ out2, s3)).
    { refine (steps_trans0 _ _ _ _ _ (H0 _ (wires_queue due)) _). exact (steps_trans0 _ _ _ _ _ H1 H2). }
    destruct (_ && _); [|exact H3].
    pose proof (closeSession_steps s3 "idle timeout" e) as H4. destruct (closeSession s3 _ e) as [out3 s4].
    exact (steps_trans0 _ _ _ _ _ H3 H4).
Qed.

Lemma commitSentBatch_pending c l : 0 ≤ cpending c → 0 ≤ cpending (commitSentBatch c l) ≤ cpending c.
Proof. unfold commitSentBatch. destruct (commitSent_pending c (batchAck l)) as [-> | ->]; lia. Qed.

Lemma markBatch_steps s ws t : steps s [] ([], markBatchTransmitted s ws t).
Proof.
  intros Hk. pose proof (so_deliv _ Hk). pose proof (so_cpend _ Hk).
  refine (steps_trans0 s [] (Session.set_arq s (markBatch (arq s) ws t)) [] _ _ _ Hk).
  - apply (records_steps _ _ []); try done. apply same_markTransmitted.
  - apply pend_steps. pose proof (commitSentBatch_pending (coal s) ws). cbn. lia.
Qed.

(** ** Receiving *)

Lemma offer_bounds d t sq p r acks d' :
  offerObserved d t sq p = (r, acks, d') → 0 ≤ delivered d →
  delivered d' = delivered d ∧ delayed d' = delayed d ∧ Forall (λ a, 0 ≤ a ≤ delivered d) acks.
Proof.
  unfold offerObserved, offerLocked, offerTail, feedbackWhileStalled. intros Ho Hd.
  repeat case_match; simplify_eq; cbn; split_and!; try done; repeat constructor; done.
Qed.

Lemma offered_steps s t sq p r acks d e :
  offerObserved (deliv s) t sq p = (r, acks, d) → okData sq p →
  steps s [] (sendACKs (Session.set_deliv s d) acks e).
Proof.
  intros Ho Hd Hk. pose proof (so_deliv _ Hk) as H0.
  destruct (offer_bounds _ _ _ _ _ _ _ Ho ltac:(lia)) as (E1 & E2 & Ha).
  assert (H1 : steps s [] ([], Session.set_deliv s d)).
  { apply steps_one; [|intros []; split; cbn; rewrite ?E1, ?E2; done|cbn; lia].
    intros _ w l. eapply (Act_offer _ _ _ _ (view s w l)); [exact Hd|exact Ho]. }
  pose proof (sendACKs_steps (Session.set_deliv s d) acks e) as H2. cbn in H2. rewrite E1 in H2.
  specialize (H2 Ha). destruct (sendACKs _ acks e) as [out s2]. exact (steps_trans0 _ _ _ _ _ H1 H2 Hk).
Qed.

Lemma touch_steps s t : steps s [] ([], touch s t).
Proof. same_view. Qed.

(** Outputs that are no datagrams may be added. *)
Lemma steps_more s o s' o' : steps s [] (o, s') → wires o' = [] → steps s [] (o ++ o', s').
Proof. intros H Ho. refine (steps_trans0 _ _ _ _ _ H _). by apply steps_same. Qed.

Lemma handleData_steps s f port e :
  okData (Seq f) (Data f) → steps s [] (let '(_, out, s) := handleData s f port e in (out, s)).
Proof.
  intros Hd. unfold handleData.
  destruct (offerObserved _ _ _ _) as [[[fresh ok] acks] d] eqn:Ho.
  pose proof (offered_steps (touch s (now e)) (now e) (Seq f) (Data f) _ _ _ e Ho Hd) as H.
  destruct (sendACKs _ acks e) as [out s2]. apply steps_more.
  - exact (steps_trans0 _ _ _ _ _ (touch_steps s (now e)) H).
  - destruct ok; [|done]. unfold observePath. by destruct (port =? 0).
Qed.

Definition recovered_ok (l : list fecRecovered) : Prop := Forall (λ '(sq, p), okData sq p) l.

Lemma deliverRecoveredFEC_steps s l e : recovered_ok l → steps s [] (deliverRecoveredFEC s l e).
Proof.
  intros Hl. apply (each_steps _ (λ _ '(sq, p), okData sq p)); [by intros ?? [? ?]| |exact Hl].
  intros s' [sq p] Hd. destruct (_ =? 0); [same_view|]. by apply handleData_steps.
Qed.

(** A step of the FEC receiver: it keeps its promise and rebuilds only records. *)
Definition rx_ok (rx : fecReceiver → list fecRecovered * fecReceiver) : Prop :=
  ∀ r, fc_receiver r → recovered_ok (rx r).1 ∧ fc_receiver (rx r).2.

Lemma fecReceive_then s rx rec s1 out s2 :
  fecReceive s rx = (rec, s1) → rx_ok rx → (recovered_ok rec → steps s1 [] (out, s2)) → steps s [] (out, s2).
Proof.
  intros Hr Hrx Hs Hk.
  assert (H : recovered_ok rec ∧ steps s [] ([], s1)).
  { pose proof (so_frecv _ Hk) as Hf. unfold fecReceive in Hr. destruct (fecRecv s) as [r|].
    - destruct (Hrx r Hf) as [H1 H2]. destruct (rx r) as [out' r']. injection Hr as <- <-. split; [done|].
      apply steps_same; [done|done|]. intros []. by split.
    - injection Hr as <- <-. split; [by constructor|same_view]. }
  destruct H as [H1 H2]. exact (steps_trans0 s [] s1 out s2 H2 (Hs H1) Hk).
Qed.

Lemma observeRemote_steps s f : steps s [] ([], observeRemote s f).
Proof.
  unfold observeRemote. destruct (fecSend (arq s)) as [fs|] eqn:Hs; [|same_view].
  destruct (_ =? 0); [same_view|]. apply fec_change. unfold fec_kept. rewrite Hs. apply fc_adaptive.
Qed.

(** What an authenticated frame is taken to mean: its acknowledgement, its record
    and the records parity gives back. *)
Definition frame_ok (f : UDPCFrame) (e : env) : Prop :=
  (0 < Ack f → okAck (Ack f)) ∧
  (Cmd f = CMD_DATA → okData (Seq f) (Data f) ∧ rx_ok (λ r, onData r (Seq f) (Data f) (now e) (mapOrder e))) ∧
  (Cmd f = CMD_FEC → rx_ok (λ r, onParityFrame r f (now e) (mapOrder e))).

(** Acknowledgement that comes with any frame but SACK. *)
Lemma cumulative_steps s f t :
  (0 < Ack f → okAck (Ack f)) →
  steps s [] ([], if (0 <? Ack f) && negb (Cmd f =? CMD_SACK)
                  then Session.set_arq s (handleAck (arq s) (Ack f) t) else s).
Proof.
  intros Ha. destruct (Z.ltb_spec 0 (Ack f)) as [H0|]; [|same_view].
  destruct (Cmd f =? CMD_SACK); [same_view|]. by apply ack_steps.
Qed.

Lemma clientHandle_steps s f port e : frame_ok f e → steps s [] (clientHandle s f port e).
Proof.
  intros (Ha & Hd & Hp). unfold clientHandle.
  destruct (_ =? CMD_SACK).
  { pose proof (handleSACK_steps s f (now e) Ha) as H. destruct (handleSACK _ f _) as [ws a]. cbn [fst snd] in H.
    pose proof (steps_trans0 _ _ _ _ _ H (touch_steps _ (now e))) as H1. by rewrite app_nil_r in H1. }
  destruct (Z.eqb_spec (Cmd f) CMD_DATA) as [Hc|_].
  { destruct (Hd Hc) as [Hd1 Hd2]. clear Hd Hp.
    destruct (fecReceive s _) as [rec s1] eqn:Hrx.
    pose proof (deliverRecoveredFEC_steps s1 rec e) as H2.
    destruct (deliverRecoveredFEC s1 rec e) as [out1 s2].
    pose proof (handleData_steps s2 f port e Hd1) as H3. destruct (handleData s2 f port e) as [[ok out2] s3].
    assert (H4 : steps s [] (out1 ++ out2, s3)).
    { refine (fecReceive_then _ _ _ _ _ _ Hrx Hd2 _). intros Hrec. exact (steps_trans0 _ _ _ _ _ (H2 Hrec) H3). }
    destruct ok; [exact H4|].
    rewrite <- (app_nil_r (out1 ++ out2)). refine (steps_trans0 _ _ _ _ _ H4 _). same_view. }
  destruct (Z.eqb_spec (Cmd f) CMD_FEC) as [Hc|_].
  { specialize (Hp Hc). destruct (fecReceive _ _) as [rec s1] eqn:Hrx.
    pose proof (deliverRecoveredFEC_steps s1 rec e) as H2. destruct (deliverRecoveredFEC s1 rec e) as [out1 s2].
    refine (steps_trans0 _ _ _ _ _ (touch_steps s (now e)) _). exact (fecReceive_then _ _ _ _ _ _ Hrx Hp H2). }
  destruct (_ || _); [apply touch_steps|].
  destruct (_ =? CMD_PING).
  { assert (H : steps (touch s (now e)) [] (let '(_, out, s0) := sendControl (touch s (now e)) (frameOf (touch s (now e)) CMD_PONG 0 (currentAck (touch s (now e))) 0 []) e in (out, s0))).
    { apply sendControl_steps. intros Hk. pose proof (so_deliv _ Hk). apply frameOf_control; [done|done|]. unfold currentAck. lia. }
    destruct (sendControl _ _ e) as [[b out] s1]. exact (steps_trans0 _ _ _ _ _ (touch_steps s (now e)) H). }
  destruct (_ =? CMD_FIN); [apply closeSession_steps|].
  destruct (_ =? CMD_PATH_CHALLENGE).
  { apply sendControl_steps. intros Hk. pose proof (so_deliv _ Hk). apply frameOf_control; [done|done|lia]. }
  destruct (_ =? CMD_MTU_PROBE_REPLY); same_view.
Qed.

(** What a datagram is taken to mean, by the receiver with the keys of [s]. *)
Definition datagram_ok (s : session) (w : bytes) (e : env) : Prop :=
  ∀ f q, parseUDPCFrame w (smagic s) = Ok f → OpenFrameAEADInto f (Recv (skeys s)) = Ok q →
    frame_ok (with_data f q) e.

Lemma clientReceive_steps s w port e : datagram_ok s w e → steps s [] (clientReceive s w port e).
Proof.
  intros Hw. unfold clientReceive. destruct (parseUDPCFrame w _) as [f|] eqn:Hf; [|same_view].
  destruct (_ =? sid s); [|same_view]. unfold clientDispatch.
  destruct (_ && _); [same_view|]. destruct (negb _); [same_view|].
  destruct (OpenFrameAEADInto _ _) as [q|] eqn:Hq; [|same_view].
  specialize (Hw f q Hf Hq). set (g := with_data f q) in *.
  destruct (Accept _ _) as [fresh rf]. set (s1 := Session.set_replay s rf).
  assert (H0 : steps s [] ([], s1)) by same_view.
  destruct (negb fresh).
  - destruct (_ =? CMD_DATA); [|exact H0]. pose proof (reack_steps s1 e) as H1.
    destruct (reackDuplicateData s1 e) as [out s2]. exact (steps_trans0 _ _ _ _ _ H0 H1).
  - pose proof (observeRemote_steps s1 g) as H1. set (s2 := observeRemote s1 g) in *.
    pose proof (cumulative_steps s2 g (now e) (proj1 Hw)) as H2.
    match goal with |- context [clientHandle ?t g port e] => set (s3 := t) in * end.
    pose proof (clientHandle_steps s3 g port e Hw) as H3. destruct (clientHandle s3 g port e) as [out s4].
    exact (steps_trans0 _ _ _ _ _ H0 (steps_trans0 _ _ _ _ _ H1 (steps_trans0 _ _ _ _ _ H2 H3))).
Qed.

(** ** The server *)

Definition ssteps (s : serverSession) (r : list output * serverSession) : Prop :=
  steps (core s) [] (r.1, core r.2).

Lemma ssteps_trans s o1 s1 o2 s2 : ssteps s (o1, s1) → ssteps s1 (o2, s2) → ssteps s (o1 ++ o2, s2).
Proof. apply steps_trans0. Qed.

Lemma ssteps_same s s' : core s' = core s → ssteps s ([], s').
Proof. intros E. unfold ssteps. cbn [fst snd]. rewrite E. same_view. Qed.

Lemma ack_if_steps s f t :
  (0 < Ack f → okAck (Ack f)) →
  steps s [] ([], if 0 <? Ack f then Session.set_arq s (ServerSession_handleAck (arq s) (Ack f) t) else s).
Proof.
  intros Ha. destruct (Z.ltb_spec 0 (Ack f)) as [H0|]; [|same_view].
  rewrite <- handleAck_agree. by apply ack_steps.
Qed.

Lemma handleDataFromPath_steps cfg s f a port e :
  (0 < Ack f → okAck (Ack f)) → okData (Seq f) (Data f) →
  ssteps s (let '(_, out, s) := handleDataFromPath cfg s f a port e in (out, s)).
Proof.
  intros Ha Hd. unfold handleDataFromPath. set (s1 := noteObservedPayload s _).
  assert (Hc : core s1 = core s) by apply noteObserved_core.
  pose proof (ack_if_steps (core s1) f (now (base e)) Ha) as H0.
  set (c := if 0 <? Ack f then _ else core s1) in *.
  unfold offer. destruct (offerObserved _ _ _ _) as [[r acks] d] eqn:Ho.
  pose proof (offered_steps c (now (base e)) (Seq f) (Data f) _ _ _ (base e) Ho Hd) as H1.
  destruct (sendACKs _ acks (base e)) as [out c2].
  assert (H2 : ssteps s (out, set_core s1 c2)).
  { unfold ssteps. rewrite <- Hc. exact (steps_trans0 _ _ _ _ _ H0 H1). }
  destruct (negb r.2); [exact H2|].
  rewrite <- (app_nil_r out). refine (ssteps_trans _ _ _ _ _ H2 _). unfold ssteps. cbn [fst snd set_core core].
  rewrite setPath_core, updateRemoteAddr_core. apply touch_steps.
Qed.

Lemma server_deliver_steps cfg s rec a port e :
  recovered_ok rec → ssteps s (server_deliverRecoveredFEC cfg s rec a port e).
Proof.
  intros Hr. revert s. induction Hr as [|[sq p] rec Hd _ IH]; intros s; simpl; [by apply ssteps_same|].
  assert (H1 : ssteps s (if sq =? 0 then ([], s) else
    let '(_, out, s) := handleDataFromPath cfg s (frameOf (core s) CMD_DATA sq 0 0 p) a port e in (out, s))).
  { destruct (sq =? 0); [by apply ssteps_same|]. apply handleDataFromPath_steps; [|exact Hd].
    intros H0. exfalso. revert H0. by apply Z.lt_irrefl. }
  destruct (if sq =? 0 then _ else _) as [out s1]. specialize (IH s1).
  destruct (server_deliverRecoveredFEC _ _ _ _ _ _) as [outs s2]. by eapply ssteps_trans.
Qed.

Lemma sendPathChallenge_steps s a port e : ssteps s (sendPathChallenge s a port e).
Proof.
  unfold sendPathChallenge. destruct (challengeFor s a.1 e) as [[tok s1]|] eqn:Hc; [|by apply ssteps_same].
  apply challengeFor_core in Hc.
  pose proof (sendControlTo_steps (core s1) (frameOf (core s1) CMD_PATH_CHALLENGE 0 0 0 tok)
    (OutWriteTo port a) (base e) ltac:(done)) as H.
  destruct (sendControlTo _ _ _ _) as [[b out] c]. unfold ssteps. cbn [fst snd set_core core] in *. rewrite <- Hc.
  apply H. intros Hk. pose proof (so_deliv _ Hk). apply frameOf_control; [done|done|lia].
Qed.

Lemma serverHandle_steps cfg s f a port e :
  frame_ok f (base e) → Cmd f ≠ CMD_DATA → ssteps s (serverHandle cfg s f a port e).
Proof.
  intros (Ha & _ & Hp) _.
  assert (Hreply : ∀ cmd data, cmd ≠ CMD_DATA → cmd ≠ CMD_FEC → ssteps s
    (let '(_, out, c) := sendControl (core s) (frameOf (core s) cmd 0 (currentAck (core s)) 0 data) (base e) in
     (out, set_core s c))).
  { intros cmd data Hc Hc'. pose proof (sendControl_steps (core s)
      (frameOf (core s) cmd 0 (currentAck (core s)) 0 data) (base e)) as H.
    destruct (sendControl _ _ _) as [[b out] c]. apply H. intros Hk. pose proof (so_deliv _ Hk).
    apply frameOf_control; [done|done|]. unfold currentAck. lia. }
  unfold serverHandle. cbv zeta. destruct (Cmd f =? CMD_SACK).
  { pose proof (handleSACK_steps (core s) f (now (base e)) Ha) as H. by destruct (handleSACK _ _ _) as [ws q]. }
  destruct (Cmd f =? CMD_PING); [by apply Hreply|]. destruct (Z.eqb_spec (Cmd f) CMD_FEC) as [Hc|_].
  { specialize (Hp Hc). destruct (fecReceive _ _) as [rec k1] eqn:Hrx.
    pose proof (server_deliver_steps cfg (set_core s k1) rec a port e) as H2.
    destruct (server_deliverRecoveredFEC _ _ _ _ _ _) as [out s2]. exact (fecReceive_then _ _ _ _ _ _ Hrx Hp H2). }
  destruct (Cmd f =? CMD_FIN).
  { pose proof (closeSession_steps (core s) "closed" (base e)) as H. by destruct (closeSession _ _ _). }
  destruct (Cmd f =? CMD_MTU_PROBE); [destruct (mtuProbe cfg); [by apply Hreply|by apply ssteps_same]|].
  destruct (Cmd f =? CMD_MTU_COMMIT); [|by apply ssteps_same]. apply ssteps_same, applyMtuCommit_core.
Qed.

(** Dropping the verdict. *)
Definition unverdict {A} (r : bool * list output * A) : list output * A := (r.1.2, r.2).

Lemma handleIncomingFrame_steps cfg s f a port e :
  frame_ok f (base e) → ssteps s (unverdict (handleIncomingFrame cfg s f a port e)).
Proof.
  intros Hf. pose proof Hf as (Ha & Hd & _). unfold handleIncomingFrame. destruct (negb _).
  - destruct (if Cmd f =? CMD_PATH_RESPONSE then _ else _) as [ok s1] eqn:Hr.
    assert (Hc : core s1 = core s).
    { destruct (_ =? _); [|by injection Hr as _ <-].
      change s1 with (ok, s1).2. rewrite <- Hr. apply acceptPathResponse_core. }
    destruct ok.
    + unfold ssteps, unverdict. cbn [fst snd set_core core]. rewrite setPath_core, updateRemoteAddr_core, Hc.
      apply touch_steps.
    + pose proof (sendPathChallenge_steps s1 a port e) as H. destruct (sendPathChallenge _ _ _ _) as [out s2].
      exact (ssteps_trans s [] s1 _ _ (ssteps_same _ _ Hc) H).
  - destruct (Z.eqb_spec (Cmd f) CMD_DATA) as [Hc|Hc].
    + destruct (Hd Hc) as [Hd1 Hd2]. cbv zeta. change (core (openMtuGate s)) with (core s).
      destruct (fecReceive _ _) as [rec k1] eqn:Hrx.
      pose proof (server_deliver_steps cfg (set_core (openMtuGate s) k1) rec a port e) as H2.
      destruct (server_deliverRecoveredFEC _ _ _ _ _ _) as [out1 s2].
      pose proof (handleDataFromPath_steps cfg s2 f a port e Ha Hd1) as H3.
      destruct (handleDataFromPath _ _ _ _ _ _) as [[ok out2] s3].
      refine (fecReceive_then _ _ _ _ _ _ Hrx Hd2 _). intros Hrec. exact (ssteps_trans _ _ _ _ _ (H2 Hrec) H3).
    + cbv zeta. set (s1 := setPath _ _ _ _ _).
      assert (Hs1 : core s1 = core s) by (unfold s1; by rewrite setPath_core, updateRemoteAddr_core).
      pose proof (touch_steps (core s1) (now (base e))) as H1.
      set (c1 := touch (core s1) (now (base e))) in *.
      pose proof (cumulative_steps c1 f (now (base e)) Ha) as H2. rewrite handleAck_agree in H2.
      match goal with |- context [serverHandle cfg (set_core s1 ?t)] => set (c2 := t) in * end.
      pose proof (serverHandle_steps cfg (set_core s1 c2) f a port e Hf Hc) as H3.
      destruct (serverHandle _ _ _ _ _ _) as [out s3]. unfold ssteps, unverdict in *. cbn [fst snd] in *.
      rewrite <- Hs1. exact (steps_trans0 _ _ _ _ _ H1 (steps_trans0 _ _ _ _ _ H2 H3)).
Qed.

Lemma serverReceive_steps cfg s w a port e :
  datagram_ok (core s) w (base e) → ssteps s (unverdict (serverReceive cfg s w a port e)).
Proof.
  assert (Hnil : ∀ b, ssteps s (unverdict (b, [], s))) by (intros b; by apply ssteps_same).
  intros Hw. unfold serverReceive. destruct (parseUDPCFrame w _) as [f|] eqn:Hf; [|apply Hnil].
  destruct (_ =? sid _); [|apply Hnil]. unfold processIncomingFrame.
  destruct (_ && _); [apply Hnil|]. destruct (negb _); [apply Hnil|].
  destruct (OpenFrameAEADInto _ _) as [q|] eqn:Hq; [|apply Hnil].
  specialize (Hw f q Hf Hq). set (g := with_data f q) in *.
  destruct (Accept _ _) as [fresh rf]. set (c1 := Session.set_replay (core s) rf).
  assert (H0 : steps (core s) [] ([], c1)) by same_view.
  destruct (negb fresh).
  - destruct (_ =? CMD_DATA); [|exact H0]. pose proof (reack_steps c1 (base e)) as H1.
    destruct (reackDuplicateData c1 (base e)) as [out c2]. exact (steps_trans0 _ _ _ _ _ H0 H1).
  - pose proof (observeRemote_steps c1 g) as H1. set (c2 := observeRemote c1 g) in *.
    pose proof (handleIncomingFrame_steps cfg (set_core s c2) g a port e Hw) as H2.
    destruct (handleIncomingFrame _ _ _ _ _ _) as [[ok out] s3].
    pose proof (steps_trans0 _ _ _ _ _ H0 (steps_trans0 _ _ _ _ _ H1 H2)) as H3.
    destruct (negb ok); [|exact H3]. destruct (_ =? CMD_DATA); [|exact H3].
    unfold ssteps, unverdict. cbn [fst snd set_core core].
    rewrite <- (app_nil_r out). refine (steps_trans0 _ _ _ _ _ H3 _). same_view.
Qed.

(** ** The writer and the calls *)

(** The writer is handing out the next record. *)
Definition writer_ok (d : orderedDelivery) (w : writer) : Prop :=
  ∀ sq p, w = WWriting sq p → sq = delivered d + 1 ∧ sq < 2 ^ 64.

Definition half_view (h : half) : astate := view (hs h) (hw h) (happ h).

Lemma queue_bounds q n stopped q' acks :
  queue q n stopped = (q', acks) → 0 ≤ dpending q ≤ n →
  0 ≤ dpending q' ≤ n ∧ Forall (λ a, 0 ≤ a ≤ n) acks.
Proof.
  unfold queue. intros Hq Hp. destruct (dclosed q); [by injection Hq as <- <-|].
  destruct (Z.ltb_spec (dpending q) n), (2 <=? count q + 1), (timer q); injection Hq as <- <-; cbn;
    split; try lia; repeat constructor; lia.
Qed.

Lemma writerMove_bounds d w l o e acks d' w' l' :
  writerMove d w l o e = Some (acks, (d', w', l')) → writer_ok d w →
  0 ≤ delivered d < 2 ^ 64 → 0 ≤ dpending (delayed d) ≤ delivered d →
  delivered d ≤ delivered d' < 2 ^ 64 ∧ 0 ≤ dpending (delayed d') ≤ delivered d' ∧
  Forall (λ a, 0 ≤ a ≤ delivered d') acks.
Proof.
  intros Hm Hw Hd Hp. unfold writerMove in Hm. destruct o as [| | | | |t].
  6: { case_bool_decide; [|done]. unfold fire in Hm.
       repeat case_match; simplify_eq; cbn; split_and!; try done; repeat constructor; lia. }
  all: destruct w as [| |sq p|]; try done.
  - destruct (wake d); [|done]. simplify_eq. cbn. split_and!; try done; lia.
  - unfold drainCheck in Hm. repeat case_match; simplify_eq; cbn; split_and!; try done; lia.
  - destruct (Hw sq p eq_refl) as [-> Hlt]. unfold drainCommit in Hm.
    destruct (queue _ _ _) as [q a] eqn:Hq. simplify_eq. cbn in *.
    apply queue_bounds in Hq as [? ?]; [|cbn; lia]. split_and!; try done; lia.
  - simplify_eq. cbn. split_and!; try done; lia.
  - simplify_eq. cbn. split_and!; try done; lia.
  - simplify_eq. cbn. split_and!; try done; lia.
Qed.

(** Steps of a half. *)
Definition hsteps (h : half) (rs : list bytes) (r : list output * half) : Prop :=
  sess_ok (hs h) → acts (Send k) okAck okData fc_wire (half_view h) rs (wires r.1) (half_view r.2) ∧
                   sess_ok (hs r.2).

Lemma hsteps_session h rs out s :
  steps (hs h) rs (out, s) → hsteps h rs (out, set_hs h s).
Proof. intros H Hk. by destruct (H Hk (hw h) (happ h)) as (A & K & _). Qed.

Lemma writerStep_steps h o e :
  writer_ok (deliv (hs h)) (hw h) → hsteps h [] (writerStep h o e).
Proof.
  intros Hw Hk. unfold writerStep.
  destruct (writerMove _ _ _ _ _) as [[acks [[d w] l]]|] eqn:Hm; [|split; [constructor|done]].
  destruct (writerMove_bounds _ _ _ _ _ _ _ _ _ Hm Hw (so_deliv _ Hk) (so_dpend _ Hk)) as (Hd & Hp & Ha).
  set (s1 := Session.set_deliv (hs h) d).
  assert (Hk1 : sess_ok s1). { destruct Hk; split; try done; cbn; lia. }
  assert (H1 : acts (Send k) okAck okData fc_wire (half_view h) [] [] (view s1 w l)).
  { apply acts_one. by eapply (Act_write _ _ _ _ (half_view h)). }
  assert (H2 : steps s1 [] (match o with WoFail => closeSession s1 "application write failed" e | _ => sendACKs s1 acks e end)).
  { destruct o; try by apply sendACKs_steps. apply closeSession_steps. }
  destruct (match o with WoFail => _ | _ => _ end) as [out s2].
  destruct (H2 Hk1 w l) as (A & K & _). split; [|done].
  exact (acts_app _ _ _ _ _ [] [] _ [] _ _ H1 A).
Qed.

(** What the caller of a call owes: the uplink pump cuts records that fit. *)
Definition call_ok (c : call) : Prop := match c with Write p => payload_ok p | _ => True end.

Definition call_files (h : half) (c : call) (e : env) : list bytes :=
  match c with Write p => filed (sendRecord (hs h) p e).1.1 p | _ => [] end.

(** The records a call files are handed to the FEC sender too. *)
Definition protects (h : half) (l : list bytes) : Prop := Forall (fc_record (takeSeq (arq (hs h))).1) l.

Lemma doCall_steps h c e :
  call_ok c → protects h (call_files h c e) → writer_ok (deliv (hs h)) (hw h) → hsteps h (call_files h c e) (doCall h c e).
Proof.
  intros Hc Hr Hw. destruct c as [p| |gen| | |ws|reason|o]; cbn [doCall call_files].
  - pose proof (sendRecord_steps (hs h) p e Hc Hr) as H. destruct (sendRecord _ p e) as [[st out] s].
    by apply hsteps_session.
  - pose proof (retransmitStep_steps (hs h) e) as H. destruct (retransmitStep _ e) as [[d out] s].
    by apply hsteps_session.
  - pose proof (fecFlush_steps (hs h) gen e) as H. destruct (fecFlush _ gen e) as [out s]. by apply hsteps_session.
  - pose proof (keepAlive_steps (hs h) e) as H. destruct (keepAlive _ e) as [out s]. by apply hsteps_session.
  - apply hsteps_session, touch_steps.
  - apply hsteps_session, markBatch_steps.
  - pose proof (closeSession_steps (hs h) reason e) as H. destruct (closeSession _ reason e) as [out s].
    by apply hsteps_session.
  - by apply writerStep_steps.
Qed.

(** ** Whole steps *)

(** What the surroundings owe: datagrams mean what [datagram_ok] says. *)
Definition stimulus_means (s : session) (x : stimulus) (e : env) : Prop :=
  match x with Receive w _ _ => datagram_ok s w e | Call c => call_ok c end.

Definition step_files (h : half) (x : stimulus) (e : env) : list bytes :=
  match x with Receive _ _ _ => [] | Call c => call_files h c e end.

Lemma clientStep_steps h x e :
  stimulus_means (hs h) x (base e) → protects h (step_files h x (base e)) → writer_ok (deliv (hs h)) (hw h) →
  hsteps h (step_files h x (base e)) (clientStep h x e).
Proof.
  intros Hx Hr Hw. destruct x as [w a port|c]; [|by apply doCall_steps]. cbn [clientStep step_files].
  pose proof (clientReceive_steps (hs h) w a.2 (base e) Hx) as H. destruct (clientReceive _ _ _ _) as [out s].
  by apply hsteps_session.
Qed.

Lemma serverStep_steps cfg h x e :
  stimulus_means (core (srv h)) x (base e) → protects (half_of h) (step_files (half_of h) x (base e)) →
  writer_ok (deliv (core (srv h))) (sw h) →
  hsteps (half_of h) (step_files (half_of h) x (base e))
    ((serverStep cfg h x e).1, half_of (serverStep cfg h x e).2).
Proof.
  intros Hx Hr Hw. destruct x as [w a port|c]; cbn [serverStep step_files].
  - pose proof (serverReceive_steps cfg (srv h) w a port e Hx) as H.
    destruct (serverReceive _ _ _ _ _ _) as [[ok out] s]. exact (hsteps_session (half_of h) [] out (core s) H).
  - pose proof (doCall_steps (half_of h) c (base e) Hx Hr Hw) as H.
    by destruct (doCall (half_of h) c (base e)) as [out [s w l]].
Qed.

End Acts.

(** * Closing is for good *)

Section Closing.
Context {C : Crypto} {RS : ReedSolomon} {L : CryptoLaws C}.
Context (k : FrameKeys) (id : Z).

#[local] Existing Instance no_contract.

(** What any session keeps, whatever it is sent: nothing is asked of the FEC layer. *)
Definition plain_ok : session → Prop := sess_ok k id.

Lemma plain_ok_intro (F : FecContract k) s : sess_ok (F := F) k id s → plain_ok s.
Proof. intros []. split; try done; match goal with |- from_option _ _ ?o => by destruct o end. Qed.

Lemma datagram_trivial (s : session) w e : datagram_ok k (λ _, True) (λ _ _, True) s w e.
Proof.
  assert (H : ∀ l, recovered_ok (λ _ _, True) l) by (intros l; apply Forall_true; by intros []).
  intros f q _ _. split_and!; [done|intros _; split; [done|]|intros _]; intros r _; (split; [apply H|done]).
Qed.

Lemma means_trivial s x e : (∀ c, x = Call c → call_ok c) → stimulus_means k (λ _, True) (λ _ _, True) s x e.
Proof. intros Hx. destruct x as [w a port|c]; [apply datagram_trivial|by apply Hx]. Qed.

Lemma protects_trivial h l : protects k h l.
Proof. by apply Forall_true. Qed.

Lemma clientStep_plain h x e :
  plain_ok (hs h) → writer_ok (deliv (hs h)) (hw h) → (∀ c, x = Call c → call_ok c) →
  plain_ok (hs (clientStep h x e).2) ∧
  (sessClosed (hs h) = true → sessClosed (hs (clientStep h x e).2) = true).
Proof.
  intros Hk Hw Hx. destruct (clientStep_steps k id (λ _, True) (λ _ _, True) h x e
    (means_trivial _ _ _ Hx) (protects_trivial _ _) Hw Hk) as [Ha Hk'].
  split; [exact Hk'|]. intros Hc. exact (proj1 (acts_closed _ _ _ _ _ _ _ _ Ha Hc)).
Qed.

Lemma serverStep_plain cfg h x e :
  plain_ok (core (srv h)) → writer_ok (deliv (core (srv h))) (sw h) → (∀ c, x = Call c → call_ok c) →
  plain_ok (core (srv (serverStep cfg h x e).2)) ∧
  (sessClosed (core (srv h)) = true → sessClosed (core (srv (serverStep cfg h x e).2)) = true).
Proof.
  intros Hk Hw Hx. destruct (serverStep_steps k id (λ _, True) (λ _ _, True) cfg h x e
    (means_trivial _ _ _ Hx) (protects_trivial _ _) Hw Hk) as [Ha Hk'].
  split; [exact Hk'|]. intros Hc. exact (proj1 (acts_closed _ _ _ _ _ _ _ _ Ha Hc)).
Qed.

Lemma closeSession_plain s reason e : plain_ok s → plain_ok (closeSession s reason e).2.
Proof. intros Hs. by destruct (closeSession_steps k id (λ _, True) (λ _ _, True) s reason e Hs WSleep []) as (_ & H & _). Qed.

(** A new session, whatever its FEC layer. *)
Lemma newSession_plain client magic k' window auto westwood limit_ t :
  k' = k → 0 ≤ magic < 2 ^ 32 → 0 ≤ id < 2 ^ 32 → len (aead_key (Send k)) = 32 →
  plain_ok (newSession client magic id k' window auto westwood limit_ t).
Proof. intros -> ???. split; cbn; try done; by destruct (fec k). Qed.

End Closing.
