(* ===== verification/Tunnel.v ===== *)
(** Two endpoints and a network that loses, repeats, reorders and forges: what one
    application writes is what the other reads.

    [dir] is the invariant of one direction, between the abstract state of its
    sender and of its receiver; the actions of [Actions] keep it, so every step of
    either endpoint does. *)
From S2P Require Import Prelude Protocol F64 Rtt FecLoss FecWire Erasure FecBlock FecSender FecReceiver FecRecovery Replay Delivery AckCoalesce Flow Sack Arq Session ClientSession ServerSession Endpoint FecLink Actions.
Local Open Scope Z_scope.

Section WithInterfaces.
Context {C : Crypto} {RS : ReedSolomon} {L : CryptoLaws C}.

(** The [i]-th record, counted from 1. *)
Definition record (recs : list bytes) (i : Z) (p : bytes) : Prop := 1 ≤ i ∧ recs !! Z.to_nat (i - 1) = Some p.

Lemma record_app recs rs i p : record recs i p → record (recs ++ rs) i p.
Proof. intros [Hi Hp]. split; [done|]. by apply lookup_app_l_Some. Qed.

Lemma record_last recs p : record (recs ++ [p]) (len recs + 1) p.
Proof.
  pose proof (len_nonneg recs). split; [lia|]. replace (Z.to_nat (len recs + 1 - 1)) with (length recs) by (unfold len; lia).
  by apply list_lookup_middle.
Qed.

Lemma record_range recs i p : record recs i p → 1 ≤ i ≤ len recs.
Proof. intros [Hi Hp]. apply lookup_lt_Some in Hp. unfold len. lia. Qed.

(** A delivery of these records: [dinv] whatever comes after them. *)
Definition delivers (recs : list bytes) (d : orderedDelivery) (w : writer) (app : list bytes) : Prop :=
  (∀ data, (∀ i p, record recs i p → data i = p) → dinv data (mkSys d w app [])) ∧
  delivered d ≤ len recs ∧ (∀ i p, pending d !! i = Some p → i ≤ len recs) ∧
  (∀ i p, w = WWriting i p → i ≤ len recs).

Lemma delivers_more recs rs d w app : delivers recs d w app → delivers (recs ++ rs) d w app.
Proof.
  intros (Hd & H1 & H2 & H3). pose proof (len_nonneg rs). split_and!; rewrite ?len_app.
  - intros data Hdata. apply Hd. intros. by apply Hdata, record_app.
  - lia.
  - intros i p Hp. apply H2 in Hp. lia.
  - intros i p Hp. apply H3 in Hp. lia.
Qed.

(** The records as a map. *)
Definition truth (recs : list bytes) : gmap Z bytes := map_seqZ 1 recs.

Lemma truth_record recs i p : truth recs !! i = Some p ↔ record recs i p.
Proof. unfold truth, record. rewrite lookup_map_seqZ. case_guard; cbn; naive_solver. Qed.

Lemma truth_app recs rs : truth recs ⊆ truth (recs ++ rs).
Proof. apply map_subseteq_spec. intros i p. rewrite !truth_record. apply record_app. Qed.

Lemma truth_bytes recs : Forall (Forall is_byte) recs → payloads_bytes (truth recs).
Proof. intros Hr i p [_ Hp]%truth_record. by eapply Forall_lookup_1. Qed.

(** The payload function that the records determine. *)
Definition payload_of (recs : list bytes) (i : Z) : bytes := default [] (recs !! Z.to_nat (i - 1)).

Lemma payload_of_record recs i p : record recs i p → payload_of recs i = p.
Proof. intros [_ Hp]. unfold payload_of. by rewrite Hp. Qed.

Lemma delivers_dinv recs d w app : delivers recs d w app → dinv (payload_of recs) (mkSys d w app []).
Proof. intros [Hd _]. apply Hd. apply payload_of_record. Qed.

Lemma delivers_writer recs d w app : delivers recs d w app → writer_ok d w.
Proof.
  intros Hd i p ->. by destruct (inv_writing _ _ (delivers_dinv _ _ _ _ Hd) i p eq_refl) as (-> & ? & _).
Qed.

Lemma delivers_offer recs d w app t i p r acks d' :
  delivers recs d w app → record recs i p → len recs < 2 ^ 64 →
  offerObserved d t i p = (r, acks, d') → delivers recs d' w app ∧ delivered d' = delivered d.
Proof.
  intros (Hd & H1 & H2 & H3) Hi Hlen Ho. pose proof (record_range _ _ _ Hi) as Hr.
  pose proof Ho as Ho'. apply offer_bounds in Ho' as (E1 & _ & _);
    [|pose proof (inv_delivered _ _ (Hd _ (payload_of_record recs))) as Hz; exact (proj1 Hz)].
  split; [|done]. split_and!; [|lia| |exact H3].
  - intros data Hdata. specialize (Hd data Hdata). rewrite <- (Hdata i p Hi) in Ho.
    unfold offerObserved in Ho. destruct (offerLocked d i (data i)) as [d1 o] eqn:E.
    pose proof (offer_inv data (mkSys d w app []) i d1 o Hd ltac:(lia) E) as Hd1.
    destruct (offerTail d1 t o) as [d2 a2] eqn:E2. simplify_eq.
    exact (tail_inv data (mkSys d1 w app [o]) t o [] [] _ _ Hd1 eq_refl E2).
  - intros j q Hj. unfold offerObserved, offerLocked, offerTail, feedbackWhileStalled in Ho.
    repeat case_match; simplify_eq; cbn in *; try (by eapply H2);
      apply lookup_insert_Some in Hj as [[<- _]|[_ Hj]]; lia || by eapply H2.
Qed.

Lemma delivers_write recs d w app o e acks d' w' app' :
  delivers recs d w app → writerMove d w app o e = Some (acks, (d', w', app')) →
  delivers recs d' w' app' ∧ delivered d ≤ delivered d'.
Proof.
  intros (Hd & H1 & H2 & H3) Hm.
  assert (Hstep : ∀ data, ∃ a, dstep data (mkSys d w app []) a (mkSys d' w' app' [])).
  { intros data. unfold writerMove in Hm. destruct o as [| | | | |t].
    6: { case_bool_decide; [|done]. destruct (fire _ t) as [q a] eqn:Hf. simplify_eq.
         exists acks. by eapply (D_timer data (mkSys d w' app' [])). }
    all: destruct w as [| |i p|]; try done.
    - destruct (wake d) eqn:Hk; [|done]. simplify_eq. eexists. by apply (D_wake data (mkSys d _ app' [])).
    - destruct (drainCheck d (now e)) as [w1 d1] eqn:Hc. simplify_eq. eexists.
      by eapply (D_check data (mkSys d _ app' [])).
    - destruct (drainCommit d i (timerStops e)) as [d1 a] eqn:Hc. simplify_eq. eexists.
      by eapply (D_commit data (mkSys d _ app [])).
    - simplify_eq. eexists. by eapply (D_fail data (mkSys d _ app' [])).
    - simplify_eq. eexists. eapply (D_done data (mkSys _ _ app' [])). by left.
    - simplify_eq. eexists. eapply (D_done data (mkSys _ _ app' [])). by right. }
  assert (Hfacts : delivered d ≤ delivered d' ≤ len recs ∧ (∀ i p, pending d' !! i = Some p → i ≤ len recs) ∧
    (∀ i p, w' = WWriting i p → i ≤ len recs)).
  { pose proof (Hd _ (payload_of_record recs)) as Hi. clear Hstep.
    unfold writerMove in Hm. destruct o as [| | | | |t].
    6: { case_bool_decide; [|done]. destruct (fire _ t). simplify_eq. split_and!; try done. }
    all: destruct w as [| |i p|]; try done.
    - destruct (wake d); [|done]. by simplify_eq.
    - unfold drainCheck in Hm. destruct (pending d !! u64 _) as [p|] eqn:Hp; [destruct (closed d)|];
        simplify_eq; split_and!; try done. intros j q [= <- _]. by eapply H2.
    - destruct (inv_writing _ _ Hi i p eq_refl) as (Hs & _). cbn in Hs. specialize (H3 i p eq_refl).
      unfold drainCommit in Hm. destruct (queue _ _ _) as [q a]. simplify_eq. cbn. split_and!; try lia; try done.
      intros j r' [_ Hj]%lookup_delete_Some. by eapply H2.
    - by simplify_eq.
    - by simplify_eq.
    - by simplify_eq. }
  destruct Hfacts as ((? & ?) & ? & ?). split; [|done]. split_and!; try done.
  intros data Hdata. destruct (Hstep data) as [a Hs]. eapply step_inv; [|exact Hs]. by apply Hd.
Qed.

Lemma delivers_close recs d w app stopped :
  delivers recs d w app → delivers recs (close d stopped) w app.
Proof.
  intros (Hd & H1 & H2 & H3). split_and!; try done.
  intros data Hdata. exact (step_inv data _ _ _ (Hd data Hdata) (D_close data (mkSys d w app []) stopped)).
Qed.

(** * One direction *)

(** [a] sends the records [recs] as the datagrams [sent], under [key]; [b] receives
    them and has sent the datagrams [back]. *)
Record dir (key : AEADCipherState) (a b : astate) (recs sent back : list bytes) : Prop := {
  d_arq : arq_inv (aq a);
  d_seq : len recs + 1 ≤ sendSeq (aq a) ≤ len recs + 2;
  d_open : aclosed a = false → sendSeq (aq a) = len recs + 1;
  d_stored : ∀ i p, unacked (aq a) !! i = Some p → pwire p ∈ sent ∧ ∃ q, carries key (pwire p) i q;
  d_wires : ∀ w m f q, w ∈ sent → parseUDPCFrame w m = Ok f → Cmd f = CMD_DATA →
    OpenFrameAEADInto f key = Ok q → record recs (Seq f) q;
  d_deliv : delivers recs (ad b) (aw b) (aapp b);
  d_acks : ∀ w m f, w ∈ back → parseUDPCFrame w m = Ok f → Ack f ≤ delivered (ad b);
  d_kept : ∀ i, delivered (ad b) < i ≤ len recs → is_Some (unacked (aq a) !! i);
}.

(** Enough sequence numbers are left for [recs]. *)
Definition room (recs : list bytes) : Prop := len recs + 2 < 2 ^ 64.

Lemma room_app recs rs : room (recs ++ rs) → room recs.
Proof. unfold room. rewrite len_app. pose proof (len_nonneg rs). lia. Qed.

Lemma dir_sent key a b recs sent back ws :
  dir key a b recs sent back →
  (∀ w m f, w ∈ ws → parseUDPCFrame w m = Ok f → Cmd f ≠ CMD_DATA) → dir key a b recs (sent ++ ws) back.
Proof.
  intros [] Hw. split; try done.
  - intros i p Hp. destruct (d_stored0 i p Hp). split; [apply elem_of_app; by left|done].
  - intros w m f q [Hin|Hin]%elem_of_app Hp Hc; [by eapply d_wires0|]. by destruct (Hw w m f Hin Hp).
Qed.

(** What the receiver does to the direction. *)
Lemma dir_receive key key' okAck okData okWire a b recs sent back rs ws b' :
  (∀ i p, okData i p → record recs i p) → room recs → (∀ w, stored (unacked (aq b)) w → w ∈ back) →
  dir key a b recs sent back → action key' okAck okData okWire b rs ws b' →
  dir key a b' recs sent (back ++ ws) ∧ delivered (ad b) ≤ delivered (ad b').
Proof.
  intros Hok Hroom Hst Hd Hact. unfold room in Hroom.
  assert (Hgen : ∀ b1 ws1, delivers recs (ad b1) (aw b1) (aapp b1) → delivered (ad b) ≤ delivered (ad b1) →
    (∀ w m f, w ∈ ws1 → parseUDPCFrame w m = Ok f → Ack f ≤ delivered (ad b1)) →
    dir key a b1 recs sent (back ++ ws1) ∧ delivered (ad b) ≤ delivered (ad b1)).
  { intros b1 ws1 H1 H2 H3. split; [|done]. destruct Hd. split; try done.
    - intros w m f [Hin|Hin]%elem_of_app Hp; [|by eapply H3]. pose proof (d_acks0 w m f Hin Hp). lia.
    - intros i Hi. apply d_kept0. lia. }
  pose proof (d_deliv _ _ _ _ _ _ Hd) as Hdel.
  assert (Hnone : ∀ b1 : astate, ∀ w m f, w ∈ ([] : list bytes) → parseUDPCFrame w m = Ok f → Ack f ≤ delivered (ad b1)).
  { intros ???? H%elem_of_nil. done. }
  destruct Hact as [b n t _ _|b q ws _ _ _ Hs|b i q p w t _ _ Hw _|b q _ _|b w Hw _|b i p t r acks d Hp Ho|b stopped|b n _|b o e acks d w l Hm].
  - apply Hgen; [done|done|apply Hnone].
  - apply Hgen; [done|done|]. intros w m f Hin Hp. rewrite Forall_forall in Hs.
    by eapply (d_acks _ _ _ _ _ _ Hd), Hp; apply Hst, Hs.
  - apply Hgen; [done|done|]. intros w' m f ->%list_elem_of_singleton Hp. by apply Hw in Hp as (_ & ? & _).
  - apply Hgen; [done|done|apply Hnone].
  - apply Hgen; [done|done|]. intros w' m f ->%list_elem_of_singleton Hp. by apply Hw in Hp as [_ ?].
  - destruct (delivers_offer _ _ _ _ _ _ _ _ _ _ Hdel (Hok _ _ Hp) ltac:(lia) Ho) as [H1 H2].
    apply Hgen; [done|cbn; lia|apply Hnone].
  - apply Hgen; [by apply delivers_close|done|apply Hnone].
  - apply Hgen; [done|done|apply Hnone].
  - destruct (delivers_write _ _ _ _ _ _ _ _ _ _ Hdel Hm) as [H1 H2]. apply Hgen; [done|done|apply Hnone].
Qed.

Lemma arq_inv_records a q :
  arq_inv a → same_records (unacked a) (unacked q) → sendSeq q = sendSeq a →
  lowestOutstanding q = lowestOutstanding a → arq_inv q.
Proof.
  intros Hi Hm Hs Hl. pose proof (arq_inv_same a (unacked q) Hi Hm) as [H1 H2 H3 H4 H5].
  cbn in *. split; rewrite ?Hs, ?Hl; done.
Qed.

(** An acknowledgement the peer may give leaves what was not delivered. *)
Lemma dir_acked key a b recs sent back n t :
  0 ≤ n ≤ delivered (ad b) → dir key a b recs sent back →
  dir key (with_aq a (handleAck (aq a) n t)) b recs sent back.
Proof.
  intros [H0 Hn] []. destruct (handleAck_spec (aq a) n t d_arq0 H0) as (H1 & H2 & H3).
  split; cbn [with_aq aq aclosed]; rewrite ?H2; try done.
  - intros i p. rewrite H3. destruct (decide _); [done|]. apply d_stored0.
  - intros i Hi. rewrite H3, decide_False; [by apply d_kept0|]. lia.
Qed.

(** What is kept is sent again. *)
Lemma dir_again key a b recs sent back q ws :
  same_records (unacked (aq a)) (unacked q) → sendSeq q = sendSeq (aq a) →
  lowestOutstanding q = lowestOutstanding (aq a) →
  Forall (λ w, ∃ i p, unacked (aq a) !! i = Some p ∧ pwire p = w) ws →
  dir key a b recs sent back → dir key (with_aq a q) b recs (sent ++ ws) back.
Proof.
  intros Hm Hs Hl Hst []. split; cbn [with_aq aq aclosed]; rewrite ?Hs; try done.
  - by eapply arq_inv_records.
  - intros i p Hp. specialize (Hm i). rewrite Hp in Hm.
    destruct (unacked (aq a) !! i) as [p'|] eqn:Hp'; [|done]. cbn in Hm. injection Hm as <-.
    destruct (d_stored0 i p' Hp'). split; [apply elem_of_app; by left|done].
  - intros w m f q' [Hin|Hin]%elem_of_app; [by apply d_wires0|]. rewrite Forall_forall in Hst.
    apply Hst in Hin as (i & p & Hp & <-). apply d_wires0. by eapply d_stored0.
  - intros i Hi. eapply same_dom; [symmetry; exact Hm|]. by apply d_kept0.
Qed.

(** A new record is numbered, sealed and kept. *)
Lemma dir_filed key a b recs sent back ack i q p w t :
  len recs + 3 < 2 ^ 64 → aclosed a = false → takeSeq (aq a) = (i, q) → data_wire key ack i p w →
  dir key a b recs sent back →
  dir key (with_aq a (fileRecord q i w t)) b (recs ++ [p]) (sent ++ [w]) back.
Proof.
  intros Hroom Hopen Ht Hw []. specialize (d_open0 Hopen).
  destruct (sendOne_inv (aq a) w t d_arq0 ltac:(lia)) as [Hi1 Hs1].
  destruct (takeSeq_spec (aq a) d_arq0 ltac:(lia)) as (Hi & _ & Hu & _).
  unfold sendOne in Hi1, Hs1. rewrite Ht in Hi, Hi1, Hs1, Hu. cbn [fst snd] in *. subst i.
  pose proof (delivers_more recs [p] _ _ _ d_deliv0) as Hdel.
  split; cbn [with_aq aq aclosed]; rewrite ?len_app; change (len [p]) with 1; try done; try lia.
  - intros j r Hj. cbn in Hj. rewrite Hu in Hj.
    apply lookup_insert_Some in Hj as [[<- <-]|[_ Hj]]; (split; [apply elem_of_app|]).
    + right. by left.
    + exists p. apply Hw.
    + left. by eapply d_stored0.
    + by eapply d_stored0.
  - intros w' m f r [Hin|Hin%list_elem_of_singleton]%elem_of_app Hp Hc Hr.
    + by eapply record_app, d_wires0.
    + subst w'. destruct (proj2 Hw m f Hp) as (E & _ & E2). rewrite (E2 r Hr), E, d_open0. apply record_last.
  - intros j Hj. cbn. rewrite Hu. destruct (decide (j = sendSeq (aq a))) as [->|Hne].
    + rewrite lookup_insert_eq. by eexists.
    + rewrite lookup_insert_ne by done. apply d_kept0. lia.
Qed.

(** What the sender does to the direction. *)
Lemma dir_send key okAck okData okWire a b recs sent back rs ws a' :
  (∀ n, okAck n → n ≤ delivered (ad b)) → room (recs ++ rs) →
  dir key a b recs sent back → action key okAck okData okWire a rs ws a' →
  dir key a' b (recs ++ rs) (sent ++ ws) back.
Proof.
  intros Hok Hroom Hd Hact. unfold room in Hroom. rewrite len_app in Hroom.
  assert (Hquiet : ∀ a1 ws1, aq a1 = aq a → (aclosed a1 = false → aclosed a = false) →
    (∀ w m f, w ∈ ws1 → parseUDPCFrame w m = Ok f → Cmd f ≠ CMD_DATA) → dir key a1 b (recs ++ []) (sent ++ ws1) back).
  { intros a1 ws1 E1 E2 Hw. rewrite app_nil_r. apply dir_sent; [|done]. destruct Hd.
    split; rewrite ?E1; try done. auto. }
  assert (Hnone : ∀ w m f, w ∈ ([] : list bytes) → parseUDPCFrame w m = Ok f → Cmd f ≠ CMD_DATA).
  { intros ??? H%elem_of_nil. done. }
  destruct Hact as [a n t Hn H0|a q ws Hm Hs Hl Hst|a i q p w t Hopen Ht Hw _|a q Hopen ->|a w Hw _|a i p t r acks d Hp Ho|a stopped|a n Hn|a o e acks d w l Hm].
  - rewrite !app_nil_r. apply dir_acked; [|done]. specialize (Hok n Hn). lia.
  - rewrite app_nil_r. by apply dir_again.
  - change (len [p]) with 1 in Hroom. eapply dir_filed; [lia|done..].
  - rewrite !app_nil_r. destruct Hd. specialize (d_open0 Hopen).
    destruct (takeSeq_spec (aq a) d_arq0) as (_ & Hi & Hu & Hs); [rewrite len_nil in Hroom; lia|].
    split; cbn [aq aclosed]; rewrite ?Hu, ?Hs; try done. lia.
  - apply Hquiet; [done|done|]. intros w' m f ->%list_elem_of_singleton Hp. by apply Hw in Hp as [? _].
  - by apply Hquiet.
  - by apply Hquiet.
  - by apply Hquiet.
  - by apply Hquiet.
Qed.

(** * Both directions *)

(** Endpoint [a] sends under [ka], [b] under [kb]. *)
Definition both (ka kb : AEADCipherState) (a b : astate) (ra rb na nb : list bytes) : Prop :=
  dir ka a b ra na nb ∧ dir kb b a rb nb na.

(** What is sent, old or new, satisfies [okWire]. *)
Lemma both_action ka kb okAck okData okWire a b ra rb na nb rs ws a' :
  (∀ n, okAck n → n ≤ delivered (ad b)) → (∀ i p, okData i p → record rb i p) →
  room (ra ++ rs) → room rb →
  both ka kb a b ra rb na nb → Forall okWire na → action ka okAck okData okWire a rs ws a' →
  both ka kb a' b (ra ++ rs) rb (na ++ ws) nb ∧ Forall okWire (na ++ ws).
Proof.
  intros H1 H2 Ha Hb [Hd1 Hd2] Hw Hact. split; [split; [by eapply dir_send|]|].
  - eapply dir_receive; [exact H2|done| |exact Hd2|exact Hact].
    intros w (i & p & Hp & <-). by eapply d_stored.
  - apply Forall_app. split; [done|].
    destruct Hact as [| a q ws _ _ _ Hst | a i q p w t _ _ _ Hw' | | a w _ Hw' | | | |]; try by constructor.
    eapply Forall_impl; [exact Hst|]. intros w (i & p & Hp & <-). rewrite Forall_forall in Hw. apply Hw.
    by eapply d_stored.
Qed.

Lemma both_acts ka kb okAck okData okWire a b ra rb na nb rs ws a' :
  (∀ n, okAck n → n ≤ delivered (ad b)) → (∀ i p, okData i p → record rb i p) →
  room (ra ++ rs) → room rb →
  both ka kb a b ra rb na nb → Forall okWire na → acts ka okAck okData okWire a rs ws a' →
  both ka kb a' b (ra ++ rs) rb (na ++ ws) nb ∧ Forall okWire (na ++ ws).
Proof.
  intros H1 H2 Ha Hb Hd Hw Hacts. revert ra na Ha Hd Hw.
  induction Hacts as [a|a rs1 ws1 a1 rs2 ws2 a2 Hact _ IH]; intros ra na Ha Hd Hw; [by rewrite !app_nil_r|].
  rewrite !app_assoc in *.
  destruct (both_action _ _ _ _ _ _ _ _ _ _ _ _ _ _ H1 H2 (room_app _ _ Ha) Hb Hd Hw Hact) as [Hd' Hw'].
  by apply IH.
Qed.

(** * The system *)

(** The network never forgets a datagram and may deliver it any number of times. *)
Record tunnel := mkTunnel {
  cl : half;
  sv : serverHalf;
  fromC : list bytes;    (* datagrams the client sent *)
  fromS : list bytes;
  sentC : list bytes;    (* records its uplink pump had accepted *)
  sentS : list bytes;
}.

(** What may happen to an endpoint when its peer has sent [net]. *)
Definition stimulus_ok (net : list bytes) (s : session) (x : stimulus) : Prop :=
  match x with
  | Receive w _ _ => w ∈ net ∨ forged s w
  | Call c => call_ok c
  end.

Definition clientMoves (t : tunnel) (x : stimulus) (e : senv) : tunnel :=
  let '(out, h) := clientStep (cl t) x e in
  mkTunnel h (sv t) (fromC t ++ wires out) (fromS t) (sentC t ++ step_files (cl t) x (base e)) (sentS t).

Definition serverMoves (cfg : serverCfg) (t : tunnel) (x : stimulus) (e : senv) : tunnel :=
  let '(out, h) := serverStep cfg (sv t) x e in
  mkTunnel (cl t) h (fromC t) (fromS t ++ wires out) (sentC t)
    (sentS t ++ step_files (half_of (sv t)) x (base e)).

Inductive tstep (cfg : serverCfg) (t : tunnel) : tunnel → Prop :=
| T_client x e : stimulus_ok (fromS t) (hs (cl t)) x → tstep cfg t (clientMoves t x e)
| T_server x e : stimulus_ok (fromC t) (core (srv (sv t))) x → tstep cfg t (serverMoves cfg t x e).

(** Both sides as the handshake leaves them. *)
Definition startTunnel (c : session) (s : serverSession) : tunnel :=
  mkTunnel (newHalf c) (mkServerHalf s WSleep []) [] [] [] [].

Section System.
Context {parity_of : Z → Z → list bytes → list bytes} (Hlaws : rs_laws parity_of).
Context (kc ks : FrameKeys) (sessID : Z) (cfg : serverCfg).
Context (Hcs : Send kc = Recv ks) (Hsc : Send ks = Recv kc) (Hext : fecExt kc = fecExt ks).

(** The FEC contract of the side that sends [recs] and receives [back]. *)
Definition contract k (recs back : list bytes) : FecContract k := stream_contract Hlaws k (truth recs) (truth back).

Definition side_ok k (recs back : list bytes) (s : session) : Prop := sess_ok (F := contract k recs back) k sessID s.

Record tinv (t : tunnel) : Prop := {
  ti_bytes : Forall (Forall is_byte) (sentC t) ∧ Forall (Forall is_byte) (sentS t);
  ti_client : side_ok kc (sentC t) (sentS t) (hs (cl t));
  ti_server : side_ok ks (sentS t) (sentC t) (core (srv (sv t)));
  ti_both : both (Send kc) (Send ks) (half_view (cl t)) (half_view (half_of (sv t)))
              (sentC t) (sentS t) (fromC t) (fromS t);
  ti_parity : Forall (parity_wire (parity_of := parity_of) kc (truth (sentC t))) (fromC t) ∧
              Forall (parity_wire (parity_of := parity_of) ks (truth (sentS t))) (fromS t);
}.

(** More records on either side. *)
Lemma side_more k recs back rs rb s :
  Forall (Forall is_byte) (recs ++ rs) →
  side_ok k recs back s → side_ok k (recs ++ rs) (back ++ rb) s.
Proof.
  intros Hb [K1 K2 K3 K4 K5 K6 K7 K8 K9 K10]. split; try done.
  - destruct (fecSend (arq s)) as [fs|]; [|done]. destruct K9 as (_ & H2 & H3).
    split_and!; [by apply truth_bytes|eapply sender_inv_more; [apply truth_app|exact H2]|exact H3].
  - destruct (fecRecv s) as [r|]; [|done]. destruct K10 as [H1 H2].
    split; [eapply recv_inv_more; [apply truth_app|exact H1]|exact H2].
Qed.

Lemma parity_more k recs rs ws :
  Forall (parity_wire (parity_of := parity_of) k (truth recs)) ws →
  Forall (parity_wire (parity_of := parity_of) k (truth (recs ++ rs))) ws.
Proof. intros Hw. eapply Forall_impl; [exact Hw|]. intros w. apply parity_wire_more, truth_app. Qed.

Lemma recovered_records recs l : Forall (original (truth recs)) l → recovered_ok (record recs) l.
Proof. intros Hl. eapply Forall_impl; [exact Hl|]. intros [sq p]. apply truth_record. Qed.

(** A datagram among what the peer, with keys [k'], has sent. *)
Lemma means_of_dir k k' okAck a b recs back recs' sent sback x s e :
  Send k' = Recv k → fecExt k' = fecExt k → room recs → side_ok k recs' back s →
  (∀ w m f, w ∈ sent → parseUDPCFrame w m = Ok f → okAck (Ack f)) →
  dir (Send k') a b recs sent sback → Forall (parity_wire (parity_of := parity_of) k' (truth recs)) sent →
  stimulus_ok sent s x → stimulus_means (F := contract k recs' recs) k okAck (record recs) s x e.
Proof.
  intros Hkey Hx Hroom Hk Hack Hd Hpar Hst. destruct x as [w addr port|c]; [|exact Hst].
  intros f q Hp Hq. destruct Hst as [Hin|Hforged]; [|by destruct (Hforged f q Hp)].
  rewrite (so_keys _ _ _ Hk), <- Hkey in Hq.
  split_and!; cbn [with_data Cmd Ack Seq Data]; [intros _; by eapply Hack|intros Hc|intros Hc].
  - pose proof (d_wires _ _ _ _ _ _ Hd w _ _ _ Hin Hp Hc Hq) as Hr. split; [done|]. intros r Hrecv.
    destruct (stream_receive Hlaws k (truth recs') (truth recs) (EvData (Seq f) q (now e) (mapOrder e))) with r as [H1 H2].
    + apply record_range in Hr as Hrange. unfold room in Hroom. split; [unfold max_u64; lia|]. intros _. by apply truth_record.
    + exact Hrecv.
    + split; [by apply recovered_records|exact H2].
  - rewrite Forall_forall in Hpar. pose proof (Hpar w Hin _ f q Hp Hq Hc) as He. rewrite Hx in He. intros r Hrecv.
    destruct (stream_receive Hlaws k (truth recs') (truth recs) (EvParity (with_data f q) (now e) (mapOrder e))) with r as [H1 H2].
    + exact He.
    + exact Hrecv.
    + split; [by apply recovered_records|exact H2].
Qed.

(** A record a call files is the one the map has there. *)
Lemma files_protected k a b recs back sent sback h x e :
  dir k a b recs sent sback → a = half_view h → room (recs ++ step_files h x e) →
  ∀ k', protects (F := contract k' (recs ++ step_files h x e) back) k' h (step_files h x e).
Proof.
  intros Hd -> Hroom k'. destruct x as [|[p| | | | | | |]]; try by constructor. cbn [step_files call_files] in *.
  unfold sendRecord in *. destruct (sessClosed (hs h)) eqn:Hc; [by constructor|].
  destruct (windowFull _); [by constructor|]. destruct (takeSeq (arq (hs h))) as [sq q] eqn:Hq.
  destruct (encodeFrame _ _ _) as [[wire out] s1]. destruct (_ =? 0); [by constructor|].
  destruct (protect _ _ _ _) as [out2 s2]. cbn [fst filed] in *. unfold protects. rewrite Hq. cbn [fst].
  pose proof (d_open _ _ _ _ _ _ Hd Hc) as Ho. cbn in Ho. unfold room in Hroom. rewrite len_app in Hroom.
  change (len [p]) with 1 in Hroom.
  destruct (takeSeq_spec (arq (hs h)) (d_arq _ _ _ _ _ _ Hd)) as (Hi & _); [cbn in Ho; lia|].
  rewrite Hq in Hi. cbn [fst] in Hi. subst sq. constructor; [|done]. pose proof (len_nonneg recs).
  split; [unfold max_u64; lia|]. rewrite Ho. apply truth_record, record_last.
Qed.

Lemma files_bytes h x e :
  (∀ c, x = Call c → call_ok c) → Forall (Forall is_byte) (step_files h x e).
Proof.
  intros Hx. destruct x as [|[p| | | | | | |]]; try by constructor. cbn [step_files call_files]. specialize (Hx _ eq_refl).
  destruct (sendRecord _ _ _).1.1; cbn [filed]; try by constructor. constructor; [|done]. apply Hx.
Qed.

Lemma stimulus_call sent s x : stimulus_ok sent s x → ∀ c, x = Call c → call_ok c.
Proof. by intros Hx c ->. Qed.

(** A move of one side, as actions that only trust what the other has sent. *)
Lemma client_acts t x e :
  tinv t → stimulus_ok (fromS t) (hs (cl t)) x →
  let rs := step_files (cl t) x (base e) in room (sentC t ++ rs) → room (sentS t) →
  let '(out, h) := clientStep (cl t) x e in
  acts (Send kc) (λ n, n ≤ delivered (deliv (core (srv (sv t))))) (record (sentS t))
    (parity_wire (parity_of := parity_of) kc (truth (sentC t ++ rs))) (half_view (cl t)) rs (wires out) (half_view h) ∧
  side_ok kc (sentC t ++ rs) (sentS t) (hs h).
Proof.
  intros [[Hy _] Hc _ [Hb1 Hb2] [_ Hp]] Hx rs Hr1 Hr2.
  set (okAck n := n ≤ delivered (deliv (core (srv (sv t))))).
  assert (Hc' : side_ok kc (sentC t ++ rs) (sentS t) (hs (cl t))).
  { rewrite <- (app_nil_r (sentS t)). apply side_more; [|done]. apply Forall_app. split; [done|].
    by eapply files_bytes, stimulus_call. }
  assert (Hm : stimulus_means (F := contract kc (sentC t ++ rs) (sentS t)) kc okAck (record (sentS t)) (hs (cl t)) x (base e)).
  { eapply means_of_dir; [exact Hsc|done|done|exact Hc'| |exact Hb2|exact Hp|exact Hx].
    intros w m f. apply (d_acks _ _ _ _ _ _ Hb1). }
  pose proof (clientStep_steps kc sessID okAck (record (sentS t)) (cl t) x e Hm) as H.
  destruct (clientStep (cl t) x e) as [out h].
  destruct H as [HA HK]; [by eapply files_protected|by eapply delivers_writer, (d_deliv _ _ _ _ _ _ Hb2)|exact Hc'|by split].
Qed.

Lemma server_acts t x e :
  tinv t → stimulus_ok (fromC t) (core (srv (sv t))) x →
  let rs := step_files (half_of (sv t)) x (base e) in room (sentC t) → room (sentS t ++ rs) →
  let '(out, h) := serverStep cfg (sv t) x e in
  acts (Send ks) (λ n, n ≤ delivered (deliv (hs (cl t)))) (record (sentC t))
    (parity_wire (parity_of := parity_of) ks (truth (sentS t ++ rs))) (half_view (half_of (sv t))) rs (wires out)
    (half_view (half_of h)) ∧
  side_ok ks (sentS t ++ rs) (sentC t) (core (srv h)).
Proof.
  intros [[_ Hy] _ Hs [Hb1 Hb2] [Hp _]] Hx rs Hr1 Hr2.
  set (okAck n := n ≤ delivered (deliv (hs (cl t)))).
  assert (Hs' : side_ok ks (sentS t ++ rs) (sentC t) (core (srv (sv t)))).
  { rewrite <- (app_nil_r (sentC t)). apply side_more; [|done]. apply Forall_app. split; [done|].
    by eapply files_bytes, stimulus_call. }
  assert (Hm : stimulus_means (F := contract ks (sentS t ++ rs) (sentC t)) ks okAck (record (sentC t)) (core (srv (sv t))) x (base e)).
  { eapply means_of_dir; [exact Hcs|done|done|exact Hs'| |exact Hb1|exact Hp|exact Hx].
    intros w m f. apply (d_acks _ _ _ _ _ _ Hb2). }
  pose proof (serverStep_steps ks sessID okAck (record (sentC t)) cfg (sv t) x e Hm) as H.
  destruct (serverStep cfg (sv t) x e) as [out h]. cbn [fst snd] in H.
  destruct H as [HA HK]; [by eapply (files_protected _ _ _ (sentS t))|
    by eapply (delivers_writer (sentC t)), (d_deliv _ _ _ _ _ _ Hb1)|exact Hs'|by split].
Qed.

Lemma tstep_inv t t' : tinv t → tstep cfg t t' → room (sentC t') → room (sentS t') → tinv t'.
Proof.
  intros Ht Hstep. pose proof Ht as [[Hy1 Hy2] Hc Hs Hb [Hp1 Hp2]]. destruct Hstep as [x e Hx|x e Hx].
  - pose proof (client_acts t x e Ht Hx) as H. pose proof (files_bytes (cl t) x (base e) (stimulus_call _ _ _ Hx)) as Hf.
    unfold clientMoves.
    destruct (clientStep (cl t) x e) as [out h]. cbn [cl sv fromC fromS sentC sentS]. intros Hr1 Hr2.
    destruct (H Hr1 Hr2) as [HA HK].
    destruct (both_acts _ _ _ _ _ _ _ _ _ _ _ _ _ _ (λ n (Hn : n ≤ _), Hn) (λ i p (Hr : record _ i p), Hr) Hr1 Hr2 Hb
      (parity_more _ _ _ _ Hp1) HA) as [Hb' Hp1'].
    split; cbn [cl sv fromC fromS sentC sentS]; [|exact HK| |exact Hb'|done].
    + split; [by apply Forall_app|done].
    + rewrite <- (app_nil_r (sentS t)). apply side_more; [by rewrite app_nil_r|done].
  - pose proof (server_acts t x e Ht Hx) as H.
    pose proof (files_bytes (half_of (sv t)) x (base e) (stimulus_call _ _ _ Hx)) as Hf. unfold serverMoves.
    destruct (serverStep cfg (sv t) x e) as [out h]. cbn [cl sv fromC fromS sentC sentS]. intros Hr1 Hr2.
    destruct (H Hr1 Hr2) as [HA HK]. destruct Hb as [Hb1 Hb2].
    destruct (both_acts _ _ _ _ _ _ _ _ _ _ _ _ _ _ (λ n (Hn : n ≤ _), Hn) (λ i p (Hr : record _ i p), Hr) Hr2 Hr1
      (conj Hb2 Hb1) (parity_more _ _ _ _ Hp2) HA) as [[D1 D2] Hp2'].
    split; cbn [cl sv fromC fromS sentC sentS]; [| |exact HK|by split|done].
    + split; [done|by apply Forall_app].
    + rewrite <- (app_nil_r (sentC t)). apply side_more; [by rewrite app_nil_r|done].
Qed.

Lemma tstep_sent t t' : tstep cfg t t' → sentC t `prefix_of` sentC t' ∧ sentS t `prefix_of` sentS t'.
Proof.
  intros [x e _|x e _]; [unfold clientMoves; destruct (clientStep _ _ _)|unfold serverMoves; destruct (serverStep _ _ _ _)];
    cbn [sentC sentS]; split; try done; by apply prefix_app_r.
Qed.

End System.

(** * The theorem *)

Lemma take_payloads recs n :
  0 ≤ n ≤ len recs → map (payload_of recs) (seqZ 1 n) = take (Z.to_nat n) recs.
Proof.
  intros Hn. unfold len in Hn. rewrite <- (Z2Nat.id n) by lia. rewrite Nat2Z.id.
  assert (Hk : (Z.to_nat n ≤ length recs)%nat) by lia. clear Hn. revert Hk.
  induction (Z.to_nat n) as [|k IH]; intros Hk; [done|].
  destruct (lookup_lt_is_Some_2 recs k) as [p Hp]; [lia|].
  rewrite Nat2Z.inj_succ, <- Z.add_1_r, seqZ_snoc, map_app, IH, (take_S_r _ _ p) by done || lia.
  cbn [map]. unfold payload_of. by replace (Z.to_nat (Z.of_nat k + 1 - 1)) with k by lia; rewrite Hp.
Qed.

(** [app] is what one side has read of [recs], the records the other's sender [q]
    accepted and sent as datagrams among [sent]: the first ones, and each of the
    rest is still held as a datagram that opens to it. *)
Definition reliable (key : AEADCipherState) (recs app sent : list bytes) (q : arqSender) : Prop :=
  app `prefix_of` recs ∧
  ∀ i r, record recs i r → len app < i →
    ∃ p, unacked q !! i = Some p ∧ pwire p ∈ sent ∧ carries key (pwire p) i r.

Lemma dir_reliable key a b recs sent back :
  dir key a b recs sent back → reliable key recs (aapp b) sent (aq a).
Proof.
  intros Hd. pose proof (d_deliv _ _ _ _ _ _ Hd) as Hdel. pose proof (delivers_dinv _ _ _ _ Hdel) as Hi.
  destruct Hdel as (_ & Hl & _). pose proof (inv_delivered _ _ Hi) as H0. cbn in H0.
  pose proof (inv_written _ _ Hi) as Hw. cbn in Hw. rewrite take_payloads in Hw by lia.
  split; [rewrite Hw; eexists; symmetry; apply take_drop|].
  intros i r Hr Hlt. pose proof (record_range _ _ _ Hr).
  assert (Hn : len (aapp b) = delivered (ad b)).
  { rewrite Hw. unfold len in *. rewrite length_take. lia. }
  destruct (d_kept _ _ _ _ _ _ Hd i) as [p Hp]; [lia|].
  destruct (d_stored _ _ _ _ _ _ Hd i p Hp) as (Hs & q & f & Hf & Hc & Hq & Ho).
  exists p. split_and!; [done|done|]. exists f. split_and!; try done.
  pose proof (d_wires _ _ _ _ _ _ Hd _ _ _ _ Hs Hf Hc Ho) as [_ Hq2].
  destruct Hr as [_ Hr]. rewrite Hq, Hr in Hq2. congruence.
Qed.

Section Theorem_.
Context (kc ks : FrameKeys) (cfg : serverCfg) (magic sessID : Z).

(** The client seeds its FEC sender with the loss an earlier session saw. *)
Definition seeded (v : option f64) (s : session) : session :=
  match fecSend (arq s), v with
  | Some f, Some v => Session.set_arq s (set_fec (arq s) (Some (seedLoss f v)))
  | _, _ => s
  end.

(** A session as either side builds it from the negotiated keys. *)
Definition fresh_session (client : bool) (k : FrameKeys) (s : session) : Prop :=
  ∃ window auto westwood limit_ t v, s = seeded v (newSession client magic sessID k window auto westwood limit_ t).

Lemma fresh_start {parity_of} (Hlaws : rs_laws parity_of) client k s :
  0 ≤ magic < 2 ^ 32 → 0 ≤ sessID < 2 ^ 32 → len (aead_key (Send k)) = 32 →
  fresh_session client k s →
  side_ok Hlaws sessID k [] [] s ∧ arq_inv (arq s) ∧ sendSeq (arq s) = 1 ∧ unacked (arq s) = ∅ ∧
  delivers [] (deliv s) WSleep [].
Proof.
  intros Hm Hs Hk (w & au & we & li & t & v & ->). set (s0 := newSession _ _ _ _ _ _ _ _ _).
  assert (E : ∃ fe, seeded v s0 = Session.set_arq s0 (set_fec (arq s0) fe) ∧
    (fecSend (arq s0) = None ∧ fe = None ∨ ∃ a, fe = (λ f, set_adaptive f a) <$> fecSend (arq s0))).
  { unfold seeded. destruct (fecSend (arq s0)) as [f|] eqn:Hf; [destruct v as [v|]|].
    - eexists. split; [reflexivity|]. right. by eexists.
    - exists (Some f). split; [by rewrite <- Hf|]. right. exists (adaptive f). by destruct f.
    - exists None. split; [by rewrite <- Hf|by left]. }
  destruct E as (fe & -> & Hfe). pose proof (new_arq_inv (aflow (arq s0)) fe true w) as Hai.
  split_and!; [|exact Hai|done|done|].
  - split; cbn; try done.
    + destruct Hfe as [[_ ->]|[a ->]]; [done|]. cbn. destruct (fec k); cbn; [|done]. split_and!; [|split|]; cbn; try done.
    + destruct (fec k); cbn; [|done]. split; [apply new_recv_inv|done].
  - split_and!; try done. intros data _. apply (dinv_init data li).
Qed.

Lemma fresh_dir key a b :
  arq_inv (arq a) → sendSeq (arq a) = 1 → unacked (arq a) = ∅ → delivers [] (deliv b) WSleep [] →
  dir key (view a WSleep []) (view b WSleep []) [] [] [].
Proof.
  intros H1 H2 H3 H4. split; cbn [view aq ad aw aapp aclosed]; rewrite ?H2, ?H3; try done.
  - intros w m f q Hin%elem_of_nil. done.
  - intros w m f Hin%elem_of_nil. done.
  - intros i Hi. pose proof (inv_delivered _ _ (delivers_dinv _ _ _ _ H4)) as Hd. cbn in Hd, Hi.
    change (len (@nil bytes)) with 0 in Hi. lia.
Qed.

End Theorem_.

(** Matching keys and fresh sessions. *)
Record paired (kc ks : FrameKeys) (magic sessID : Z) (c s : session) : Prop := {
  pr_magic : 0 ≤ magic < 2 ^ 32;
  pr_id : 0 ≤ sessID < 2 ^ 32;
  pr_key1 : len (aead_key (Send kc)) = 32;
  pr_key2 : len (aead_key (Send ks)) = 32;
  pr_cs : Send kc = Recv ks;
  pr_sc : Send ks = Recv kc;
  pr_ext : fecExt kc = fecExt ks;
  pr_client : fresh_session magic sessID true kc c;
  pr_server : fresh_session magic sessID false ks s;
}.

Lemma tinv_start {parity_of} (Hlaws : rs_laws parity_of) kc ks magic sessID c s :
  paired kc ks magic sessID c (core s) → tinv Hlaws kc ks sessID (startTunnel c s).
Proof.
  intros [Hm Hi Hk1 Hk2 _ _ _ Hc Hs].
  destruct (fresh_start _ _ Hlaws _ _ _ Hm Hi Hk1 Hc) as (C1 & C2 & C3 & C4 & C5).
  destruct (fresh_start _ _ Hlaws _ _ _ Hm Hi Hk2 Hs) as (S1 & S2 & S3 & S4 & S5).
  split; [by split; constructor|exact C1|exact S1| |by split; constructor].
  split; [exact (fresh_dir _ c (core s) C2 C3 C4 S5)|exact (fresh_dir _ (core s) c S2 S3 S4 C5)].
Qed.

Lemma tinv_run {parity_of} (Hlaws : rs_laws parity_of) kc ks cfg magic sessID c s t :
  paired kc ks magic sessID c (core s) → rtc (tstep cfg) (startTunnel c s) t →
  room (sentC t) → room (sentS t) → tinv Hlaws kc ks sessID t.
Proof.
  intros Hp. revert t. refine (rtc_ind_r _ _ _ _); [intros _ _; by eapply tinv_start|].
  intros t t' Hrun Hstep IH Hr1 Hr2.
  eapply tstep_inv; [apply Hp|apply Hp|apply Hp| |exact Hstep|done|done].
  destruct (tstep_sent _ _ _ Hstep) as [[? E1] [? E2]]. rewrite E1 in Hr1. rewrite E2 in Hr2.
  apply IH; by eapply room_app.
Qed.

Lemma tinv_reliable {parity_of} (Hlaws : rs_laws parity_of) kc ks sessID t :
  tinv Hlaws kc ks sessID t →
  reliable (Send kc) (sentC t) (sapp (sv t)) (fromC t) (arq (hs (cl t))) ∧
  reliable (Send ks) (sentS t) (happ (cl t)) (fromS t) (arq (core (srv (sv t)))).
Proof.
  intros H. destruct (ti_both _ _ _ _ _ H) as [B1 B2].
  split; [exact (dir_reliable _ _ _ _ _ _ B1)|exact (dir_reliable _ _ _ _ _ _ B2)].
Qed.

(** C1: (refinement) A client and a server with matching keys, on a network that loses, repeats,
    reorders and forges datagrams, are a reliable stream each way, with FEC on or
    off and any codec with the Reed-Solomon laws: what each application reads is a
    prefix of the records the other's sender accepted - rebuilt from parity or not -
    and every accepted record not yet read is still outstanding as a sent datagram
    that opens to exactly that record. *)
Theorem tunnel_reliable parity_of kc ks cfg magic sessID c s t :
  rs_laws parity_of →
  0 ≤ magic < 2 ^ 32 → 0 ≤ sessID < 2 ^ 32 →
  len (aead_key (Send kc)) = 32 → len (aead_key (Send ks)) = 32 →
  Send kc = Recv ks → Send ks = Recv kc → fecExt kc = fecExt ks →
  fresh_session magic sessID true kc c → fresh_session magic sessID false ks (core s) →
  rtc (tstep cfg) (startTunnel c s) t → room (sentC t) → room (sentS t) →
  reliable (Send kc) (sentC t) (sapp (sv t)) (fromC t) (arq (hs (cl t))) ∧
  reliable (Send ks) (sentS t) (happ (cl t)) (fromS t) (arq (core (srv (sv t)))).
Proof.
  intros Hlaws Hm Hi Hk1 Hk2 Hcs Hsc He Hc Hs Hrun Hr1 Hr2.
  eapply (tinv_reliable Hlaws), (tinv_run Hlaws kc ks cfg magic sessID c s); [|exact Hrun|done|done]. by constructor.
Qed.

End WithInterfaces.

(** * A run *)

Section Witness.
#[local] Existing Instance toy_crypto.
#[local] Existing Instance xor_code.

Definition wire_no (ws : list bytes) (i : nat) : bytes := nth i ws [].

(** Sessions with FEC. *)
Definition fec_keys : FrameKeys := mkFrameKeys toy_cipher toy_cipher true false false true.
Definition fec_session (client : bool) : session :=
  newSession client UDPC_MAGIC_DEFAULT 7 fec_keys 64 true true deliveryWindow 0.

Definition fec_server : serverSession := newServerSession (fec_session false) toy_remote 443.

(** Two records and, once the flush timer fires, a parity shard; the network forges a
    datagram, loses the first record and delivers the second and the parity; the
    server rebuilds the first, and its writer hands out both. *)
Definition demo_tunnel : tunnel :=
  let t := startTunnel (fec_session true) fec_server in
  let t := clientMoves t (Call (Write (str "1st"))) (toy_senv 10) in
  let t := clientMoves t (Call (Write (str "2nd"))) (toy_senv 20) in
  let t := clientMoves t (Call (FecTimer 1)) (toy_senv 25) in
  let recv w := Receive w toy_remote 443 in
  let t := serverMoves toy_cfg t (recv (str "no record")) (toy_senv 30) in
  let t := serverMoves toy_cfg t (recv (wire_no (fromC t) 1)) (toy_senv 40) in
  let t := serverMoves toy_cfg t (recv (wire_no (fromC t) 2)) (toy_senv 50) in
  let t := serverMoves toy_cfg t (Call (Writer WoWake)) (toy_senv 70) in
  let t := serverMoves toy_cfg t (Call (Writer WoCheck)) (toy_senv 80) in
  let t := serverMoves toy_cfg t (Call (Writer WoCommit)) (toy_senv 90) in
  let t := serverMoves toy_cfg t (Call (Writer WoCheck)) (toy_senv 100) in
  serverMoves toy_cfg t (Call (Writer WoCommit)) (toy_senv 110).

(** Too short to parse. *)
Lemma short_forged s w : len w < UDPC_HDR_SIZE + UDPC_TRAILER_SIZE → forged s w.
Proof.
  intros Hl f q Hf. exfalso. unfold parseUDPCFrame in Hf.
  by destruct (Z.ltb_spec (len w) (UDPC_HDR_SIZE + UDPC_TRAILER_SIZE)); [|lia].
Qed.

Lemma wire_no_ok net s i a port : stimulus_ok net s (Receive (wire_no net i) a port).
Proof.
  cbn. destruct (decide (i < length net)%nat) as [Hi|Hi].
  - left. apply list_elem_of_In. by apply nth_In.
  - right. apply short_forged. unfold wire_no. by rewrite nth_overflow by lia.
Qed.

Lemma demo_reached : rtc (tstep toy_cfg) (startTunnel (fec_session true) fec_server) demo_tunnel.
Proof.
  unfold demo_tunnel. cbv zeta.
  assert (P1 : payload_ok (str "1st")) by (split; [by apply (bool_decide_unpack _)|by apply Z.leb_le]).
  assert (P2 : payload_ok (str "2nd")) by (split; [by apply (bool_decide_unpack _)|by apply Z.leb_le]).
  repeat match goal with
  | |- rtc _ _ (serverMoves _ _ _ _) => eapply rtc_r; [|apply T_server]
  | |- rtc _ _ (clientMoves _ _ _) => eapply rtc_r; [|apply T_client]
  | |- rtc _ _ (startTunnel _ _) => reflexivity
  | |- stimulus_ok _ _ (Call (Writer _)) => exact I
  | |- stimulus_ok _ _ (Call (FecTimer _)) => exact I
  | |- stimulus_ok _ _ (Call (Write _)) => assumption
  | |- stimulus_ok _ _ (Receive (wire_no _ _) _ _) => apply wire_no_ok
  end.
  right. by apply short_forged.
Qed.

Lemma tunnel_reliable_witness :
  sentC demo_tunnel = [str "1st"; str "2nd"] ∧ sapp (sv demo_tunnel) = [str "1st"; str "2nd"] ∧
  reliable toy_cipher (sentC demo_tunnel) (sapp (sv demo_tunnel)) (fromC demo_tunnel) (arq (hs (cl demo_tunnel))).
Proof.
  assert (Hf : ∀ client, fresh_session UDPC_MAGIC_DEFAULT 7 client fec_keys (fec_session client)).
  { intros client. by exists 64, true, true, deliveryWindow, 0, None. }
  assert (H1 : (sentC demo_tunnel, sentS demo_tunnel, sapp (sv demo_tunnel)) =
    ([str "1st"; str "2nd"], [], [str "1st"; str "2nd"])) by (vm_compute; reflexivity).
  apply pair_equal_spec in H1 as [H1 H3]. apply pair_equal_spec in H1 as [H1 H2].
  assert (R1 : room (sentC demo_tunnel)) by (rewrite H1; vm_compute; reflexivity).
  assert (R2 : room (sentS demo_tunnel)) by (rewrite H2; vm_compute; reflexivity).
  assert (M : 0 ≤ UDPC_MAGIC_DEFAULT < 2 ^ 32) by (vm_compute; split; [discriminate|reflexivity]).
  assert (K : len (aead_key (Send fec_keys)) = 32) by (vm_compute; reflexivity).
  split; [exact H1|split; [exact H3|]].
  pose proof (tunnel_reliable (L := toy_crypto_laws) xor_parity fec_keys fec_keys toy_cfg UDPC_MAGIC_DEFAULT 7
    (fec_session true) fec_server demo_tunnel xor_code_laws M ltac:(lia) K K eq_refl eq_refl
    eq_refl (Hf true) (Hf false) demo_reached R1 R2) as [H _].
  exact H.
Defined.

End Witness.
