(* ===== verification/Pump.v ===== *)
(** The loops that read what is to be sent: localToRemote and flushUplink of
    src/tunnel/client.go, upstreamToUdpLoop, awaitMtuGate and forwardUpstream of
    src/tunnel/server.go, and the client's keepAliveLoop.

    Each loop is a state and a turn; a turn reads once, or sends one record, or closes
    the session, and names the call it makes on its session ([Endpoint.call]).  What
    the connection answers to a read is an argument. *)
From S2P Require Import Prelude Protocol F64 Rtt FecLoss FecWire Erasure FecBlock FecSender FecReceiver Replay Delivery AckCoalesce Flow Sack Arq Session ClientSession ServerSession Endpoint.
Local Open Scope Z_scope.

Definition uplinkCoalesceWindow : Z := 250000.
Definition clientKeepAliveInterval : Z := 15 * second.
Definition upstreamReadBuf : Z := Z.shiftl 64 10.
Definition mtuCommitWait : Z := 2 * second.

(** What a read came to: bytes, nothing without an error, a passed deadline, another
    error. *)
Inductive read_result := ReadData (b : bytes) | ReadNothing | ReadTimeout | ReadFailed.

Section WithInterfaces.
Context {C : Crypto} {RS : ReedSolomon}.

(** * The client *)

Definition uplinkBuf : Z := effectivePayloadCap UDPC_MAX_PKT.

Inductive pump :=
| Reading (acc : bytes)        (* at the top of the loop *)
| Flushing (rest : bytes)      (* in [sendData], under [flushUplink] *)
| Stopping (reason : string)   (* about to close the session *)
| Stopped.

Record uplink := mkUplink { upump : pump; deadline : Z; lastSent : Z }.

Definition newUplink (now : Z) : uplink := mkUplink (Reading []) 0 now.
Definition set_pump (u : uplink) (p : pump) : uplink := mkUplink p (deadline u) (lastSent u).

(** How long the next read may wait, and the idle deadline; [t2] is the second reading
    of the clock. *)
Definition readWait (acc : bytes) (deadline t1 t2 : Z) : Z * Z :=
  if 0 <? len acc then (uplinkCoalesceWindow, deadline) else
  let deadline := if deadline <=? t1 then t1 + second else deadline in (deadline - t2, deadline).

(** The call on the session, and what it decides about the loop. *)
Definition afterSend (s : session) (record rest : bytes) (e : env) : pump :=
  match (sendRecord s record e).1.1 with
  | SendOk => Flushing rest
  | SendBlocked => Flushing (record ++ rest)
  | SendClosed | SendUnsealed => Stopping "tunnel send failed"
  end.

(** One turn; [cap] is what maxPayload returns, [t2] the clock when the wait is
    computed. *)
Definition uplinkTurn (s : session) (u : uplink) (r : read_result) (cap t2 : Z) (e : env) : option call * uplink :=
  match upump u with
  | Reading acc =>
      if sessClosed s then (None, set_pump u Stopped) else
      let '(_, dl) := readWait acc (deadline u) (now e) t2 in
      match r with
      | ReadData b =>
          let acc := acc ++ b in
          (None, mkUplink (if cap <=? len acc then Flushing acc else Reading acc) dl t2)
      | ReadNothing => (None, mkUplink (Reading acc) dl (lastSent u))
      | ReadTimeout => (None, mkUplink (Flushing acc) dl (lastSent u))
      | ReadFailed => (None, mkUplink (Stopping "local conn read failed") dl (lastSent u))
      end
  | Flushing rest =>
      if len rest =? 0 then (None, set_pump u (Reading [])) else
      let n := Z.min cap (len rest) in
      (Some (Write (upto n rest)), set_pump u (afterSend s (upto n rest) (from n rest) e))
  | Stopping reason => (Some (Shut reason), set_pump u Stopped)
  | Stopped => (None, u)
  end.

(** A tick of [keepAliveLoop]. *)
Definition keepAliveTick (s : session) (u : uplink) (e : env) : option call * uplink :=
  if sessClosed s then (None, u) else
  if now e - lastSent u <? clientKeepAliveInterval then (None, u)
  else (Some KeepAlive, mkUplink (upump u) (deadline u) (now e)).

(** * The server *)

Inductive spump :=
| AwaitGate
| SReading
| SForward (rest : bytes)
| SStopping
| SStopped.

(** What ends the wait for the client's record size. *)
Definition gateOpens (cfg : serverCfg) (s : serverSession) (timedOut : bool) : bool :=
  negb (mtuProbe cfg) || mtuGateOpen s || sessClosed (core s) || timedOut.

(** The read buffer: a datagram that fills it was cut. *)
Definition readBuf (cfg : serverCfg) (udp : bool) : Z :=
  if udp then effectivePayloadCap (cfgMaxPkt cfg) + 1 else upstreamReadBuf.

(** [forwardUpstream] before [sendData]. *)
Definition forwards (cfg : serverCfg) (s : serverSession) (udp : bool) (chunk : bytes) : bool :=
  negb (udp && (server_maxPayload cfg s <? len chunk)).

(** One turn.  The timeout answer ends the wait for the gate. *)
Definition upstreamTurn (cfg : serverCfg) (udp : bool) (s : serverSession) (p : spump) (r : read_result) (e : env) :
    option call * spump :=
  match p with
  | AwaitGate =>
      (None, if gateOpens cfg s (match r with ReadTimeout => true | _ => false end) then SReading else AwaitGate)
  | SReading =>
      if sessClosed (core s) then (None, SStopping) else
      match r with
      | ReadData b =>
          if udp && (readBuf cfg udp <=? len b) then (None, SReading) else
          (Some Touch, if forwards cfg s udp b then SForward b else SReading)
      | ReadNothing => (None, SReading)
      | ReadTimeout | ReadFailed => (None, SStopping)
      end
  | SForward rest =>
      if len rest =? 0 then (None, SReading) else
      let n := Z.min (server_maxPayload cfg s) (len rest) in
      (Some (Write (upto n rest)),
       match (sendRecord (core s) (upto n rest) e).1.1 with
       | SendOk => SForward (from n rest)
       | SendBlocked => SForward rest
       | SendClosed | SendUnsealed => SReading
       end)
  | SStopping => (Some (Shut "closed"), SStopped)
  | SStopped => (None, SStopped)
  end.

(** * The server's record budget stays in range *)

Definition cfg_ok (cfg : serverCfg) : Prop := maxPktFloor ≤ cfgMaxPkt cfg ≤ UDPC_MAX_PKT.

Definition sized (s : serverSession) : Prop := budget_ok (sessMaxPkt s).

Lemma setPath_sized cfg s port a e : sessMaxPkt (setPath cfg s port a e) = sessMaxPkt s.
Proof. unfold setPath. destruct (_ <=? _); [done|]. by destruct (_ && _). Qed.
Lemma updateRemoteAddr_sized s a b : sessMaxPkt (updateRemoteAddr s a b) = sessMaxPkt s.
Proof. unfold updateRemoteAddr. destruct (raddr s); [|done]. case_bool_decide; [done|]. by destruct (_ && _). Qed.
Lemma noteObserved_sized s n : sessMaxPkt (noteObservedPayload s n) = sessMaxPkt s.
Proof. unfold noteObservedPayload. destruct (_ <=? _); [done|]. by destruct (_ <=? _). Qed.
Lemma acceptPathResponse_sized s a d e : sessMaxPkt (acceptPathResponse s a d e).2 = sessMaxPkt s.
Proof. unfold acceptPathResponse. destruct (negb _); [done|]. destruct (_ !! _); [|done]. by destruct (_ || _). Qed.

Lemma sendPathChallenge_sized s a port e : sessMaxPkt (sendPathChallenge s a port e).2 = sessMaxPkt s.
Proof.
  unfold sendPathChallenge. destruct (challengeFor s a.1 e) as [[tok s1]|] eqn:H; [|done].
  assert (E : sessMaxPkt s1 = sessMaxPkt s).
  { revert H. unfold challengeFor. destruct (_ !! a.1); [by intros [= _ <-]|]. destruct (random e); [|done]. by intros [= _ <-]. }
  by destruct (sendControlTo _ _ _ _) as [[? ?] ?].
Qed.

Lemma applyMtuCommit_sized cfg s n : cfg_ok cfg → sized s → sized (applyMtuCommit cfg s n).
Proof.
  intros [H1 H2] Hs. unfold applyMtuCommit. destruct (_ && _); [done|].
  unfold sized, budget_ok, maxPktFloor, UDPC_HDR_SIZE, UDPC_TRAILER_SIZE, UDPC_MAX_PKT in *. cbn [set_budget sessMaxPkt].
  right. repeat case_match; lia.
Qed.

Lemma handleDataFromPath_sized cfg s f a port e :
  sessMaxPkt (handleDataFromPath cfg s f a port e).2 = sessMaxPkt s.
Proof.
  unfold handleDataFromPath. destruct (offer _ _ _ _) as [[ok acks] d]. destruct (sendACKs _ _ _) as [out c].
  destruct (negb ok); cbn [snd set_core sessMaxPkt];
    by rewrite ?setPath_sized, ?updateRemoteAddr_sized; cbn [set_core sessMaxPkt]; rewrite ?noteObserved_sized.
Qed.

Lemma server_deliver_sized cfg s rec a port e :
  sessMaxPkt (server_deliverRecoveredFEC cfg s rec a port e).2 = sessMaxPkt s.
Proof.
  revert s. induction rec as [|[sq p] rec IH]; intros s; [done|]. cbn [server_deliverRecoveredFEC].
  destruct (sq =? 0).
  - specialize (IH s). by destruct (server_deliverRecoveredFEC _ _ _ _ _ _).
  - pose proof (handleDataFromPath_sized cfg s (frameOf (core s) CMD_DATA sq 0 0 p) a port e) as H.
    destruct (handleDataFromPath _ _ _ _ _ _) as [[? out] s1]. specialize (IH s1).
    destruct (server_deliverRecoveredFEC _ _ _ _ _ _). cbn [snd] in *. congruence.
Qed.

Lemma sized_core s c : sized s → sized (set_core s c).
Proof. done. Qed.

Lemma serverHandle_sized cfg s f a port e : cfg_ok cfg → sized s → sized (serverHandle cfg s f a port e).2.
Proof.
  intros Hc Hs. unfold serverHandle. destruct (_ =? CMD_SACK).
  { by destruct (handleSACK _ _ _) as [? ?]. }
  destruct (_ =? CMD_PING); [by destruct (sendControl _ _ _) as [[? ?] ?]|].
  destruct (_ =? CMD_FEC).
  { destruct (fecReceive _ _) as [rec k]. unfold sized. by rewrite server_deliver_sized. }
  destruct (_ =? CMD_FIN); [by destruct (closeSession _ _ _)|].
  destruct (_ =? CMD_MTU_PROBE); [destruct (mtuProbe cfg); [|done]; by destruct (sendControl _ _ _) as [[? ?] ?]|].
  destruct (_ =? CMD_MTU_COMMIT); [by apply applyMtuCommit_sized|done].
Qed.

Lemma handleIncomingFrame_sized cfg s f a port e : cfg_ok cfg → sized s → sized (handleIncomingFrame cfg s f a port e).2.
Proof.
  intros Hc Hs. unfold handleIncomingFrame. destruct (negb _).
  - assert (H : ∃ ok s1, (if Cmd f =? CMD_PATH_RESPONSE then acceptPathResponse s a (Data f) e else (false, s)) = (ok, s1) ∧ sized s1).
    { destruct (_ =? _); [|by eexists _, _]. pose proof (acceptPathResponse_sized s a (Data f) e) as E.
      destruct (acceptPathResponse _ _ _ _) as [ok s1]. eexists _, _. split; [done|]. unfold sized. cbn [snd] in E. by rewrite E. }
    destruct H as (ok & s1 & -> & H1). destruct ok; unfold sized; cbn [snd set_core sessMaxPkt].
    + by rewrite setPath_sized, updateRemoteAddr_sized.
    + pose proof (sendPathChallenge_sized s1 a port e) as E. destruct (sendPathChallenge _ _ _ _) as [out s2].
      cbn [snd] in *. by rewrite E.
  - destruct (_ =? CMD_DATA).
    + destruct (fecReceive _ _) as [rec k].
      pose proof (server_deliver_sized cfg (set_core (openMtuGate s) k) rec a port e) as E1.
      destruct (server_deliverRecoveredFEC _ _ _ _ _ _) as [out1 s2].
      pose proof (handleDataFromPath_sized cfg s2 f a port e) as E2.
      destruct (handleDataFromPath _ _ _ _ _ _) as [[ok out2] s3]. unfold sized. cbn [snd] in *. by rewrite E2, E1.
    + match goal with |- context [serverHandle cfg ?s1 f a port e] =>
        pose proof (serverHandle_sized cfg s1 f a port e Hc) as H end.
      destruct (serverHandle _ _ _ _ _ _) as [out s2]. apply H. unfold sized. cbn [set_core sessMaxPkt].
      by rewrite setPath_sized, updateRemoteAddr_sized.
Qed.

Lemma serverReceive_sized cfg s w a port e : cfg_ok cfg → sized s → sized (serverReceive cfg s w a port e).2.
Proof.
  intros Hc Hs. unfold serverReceive. destruct (parseUDPCFrame _ _) as [f|]; [|done]. destruct (_ =? _); [|done].
  unfold processIncomingFrame. destruct (_ && _); [done|]. destruct (negb _); [done|].
  destruct (OpenFrameAEADInto _ _) as [q|]; [|done]. destruct (Accept _ _) as [fresh rf]. destruct (negb fresh).
  - destruct (if _ =? _ then _ else _) as [out c]. done.
  - match goal with |- context [handleIncomingFrame cfg ?s1 ?g a port e] =>
      pose proof (handleIncomingFrame_sized cfg s1 g a port e Hc Hs) as H end.
    destruct (handleIncomingFrame _ _ _ _ _ _) as [[ok out] s2]. destruct (negb ok); [|done]. by destruct (_ =? _).
Qed.

Lemma server_cap_ok cfg s : cfg_ok cfg → sized s → 1 ≤ server_maxPayload cfg s ≤ UDPC_MAX_DATA.
Proof.
  intros [H1 H2] Hs. apply server_cap_range; [|done]. right.
  unfold maxPktFloor, UDPC_HDR_SIZE, UDPC_TRAILER_SIZE in *. lia.
Qed.

Lemma serverStep_sized cfg h x e : cfg_ok cfg → sized (srv h) → sized (srv (serverStep cfg h x e).2).
Proof.
  intros Hc Hs. destruct x as [w a port|c]; cbn [serverStep].
  - pose proof (serverReceive_sized cfg (srv h) w a port e Hc Hs) as H.
    by destruct (serverReceive _ _ _ _ _ _) as [[? ?] ?].
  - by destruct (doCall _ _ _).
Qed.

Lemma cfg_budget cfg : cfg_ok cfg → budget_ok (cfgMaxPkt cfg).
Proof. intros [H1 H2]. right. unfold maxPktFloor, UDPC_HDR_SIZE, UDPC_TRAILER_SIZE in *. lia. Qed.

Lemma runs_sized cfg h xs : cfg_ok cfg → sized (srv h) → sized (srv (runs (serverStep cfg) h xs).2).
Proof.
  intros Hc Hs. refine (proj2 (runs_inv (λ h, sized (srv h)) (λ _ _ _, True) _ h xs _ _ _ Hs)); try done.
  intros. split; [done|]. by apply serverStep_sized.
Qed.

Lemma sealed_len {L : CryptoLaws C} c f p :
  len (aead_key c) = 32 → len p ≤ UDPC_MAX_DATA → len (SealFrameAEAD f c p) = UDPC_HDR_SIZE + len p + UDPC_TRAILER_SIZE.
Proof.
  intros Hk Hl. unfold SealFrameAEAD, sealFrameAEADInto, UDPC_MAX_DATA, UDPC_MAX_PKT, UDPC_HDR_SIZE, UDPC_TRAILER_SIZE in *.
  destruct (Z.ltb_spec 65535 (len p)); [lia|]. destruct (Z.ltb_spec 1450 (40 + len p + 16)); [lia|].
  rewrite len_app, len_header, seal_len by (done || apply len_packetNonce). unfold UDPC_HDR_SIZE. lia.
Qed.

Lemma upstream_cut cfg udp s p r e rec p' :
  cfg_ok cfg → sized s → upstreamTurn cfg udp s p r e = (Some (Write rec), p') → 1 ≤ len rec ≤ effectivePayloadCap (cfgMaxPkt cfg).
Proof.
  intros Hc Hs H.
  pose proof (server_cap_ceiling _ _ (observedPayload s) (bool_decide (is_Some (fecSend (arq (core s))))) (cfg_budget _ Hc) Hs) as Hr.
  fold (server_maxPayload cfg s) in Hr. destruct p as [| |rest| |]; cbn [upstreamTurn] in H; try discriminate.
  - destruct (sessClosed _); [discriminate|]. destruct r; try discriminate. destruct (_ && _); discriminate.
  - destruct (Z.eqb_spec (len rest) 0) as [|Hz]; [discriminate|]. injection H as <- _. pose proof (len_nonneg rest).
    rewrite len_upto; lia.
Qed.

(** C34: (type) Whatever a server session with a valid configuration has received and
    done, commits of a new record size by the client included, every record its
    upstream pump cuts is non-empty and seals to one datagram of at most the configured
    packet size: none is refused by the sealing for its length. *)
Theorem upstream_datagrams_fit {L : CryptoLaws C} cfg udp h xs p r e rec p' f c :
  cfg_ok cfg → sized (srv h) → len (aead_key c) = 32 →
  upstreamTurn cfg udp (srv (runs (serverStep cfg) h xs).2) p r e = (Some (Write rec), p') →
  0 < len rec ∧ len (SealFrameAEAD f c rec) = UDPC_HDR_SIZE + len rec + UDPC_TRAILER_SIZE ∧
  len (SealFrameAEAD f c rec) ≤ cfgMaxPkt cfg.
Proof.
  intros Hc Hs Hk Ht. apply upstream_cut in Ht; [|done|by apply runs_sized].
  pose proof (effective_range _ (cfg_budget _ Hc)). rewrite sealed_len by (done || lia). split_and!; [lia|done|].
  destruct Hc as [H1 H2]. revert Ht. unfold effectivePayloadCap, payloadCap, maxPktFloor in *.
  destruct (Z.leb_spec (cfgMaxPkt cfg) 0); unfold UDPC_HDR_SIZE, UDPC_TRAILER_SIZE in *; lia.
Qed.

End WithInterfaces.

Section Witness.
#[local] Existing Instance toy_crypto.
#[local] Existing Instance xor_code.

(** A client that commits to 150-byte packets; the pump then cuts 94 bytes. *)
Definition commit_wire : bytes :=
  SealFrameAEAD (with_packetNo (frameOf (toy_session true) CMD_MTU_COMMIT 0 0 0 []) 1) toy_cipher (be_bytes 2 150).
Definition committed : list (stimulus * senv) := [(Receive commit_wire toy_remote 443, toy_senv 10)].

Lemma upstream_datagrams_fit_witness :
  let '(c, _) := upstreamTurn toy_cfg false (srv (runs (serverStep toy_cfg) toy_server committed).2)
                   (SForward (repeat 9 1000)) ReadNothing (toy_env 20) in
  c = Some (Write (repeat 9 94)) ∧ len (SealFrameAEAD (frameOf (toy_session false) CMD_DATA 1 0 0 []) toy_cipher (repeat 9 94)) ≤ 1450.
Proof.
  destruct (upstreamTurn _ _ _ _ _ _) as [c p] eqn:E. assert (Hc : c = Some (Write (repeat 9 94))).
  { change c with (c, p).1. rewrite <- E. vm_compute. reflexivity. }
  split; [done|]. subst c.
  refine (proj2 (proj2 (upstream_datagrams_fit (L := toy_crypto_laws) toy_cfg false toy_server committed _ _ _ _ _
    (frameOf (toy_session false) CMD_DATA 1 0 0 []) toy_cipher _ _ _ E))).
  - by split; vm_compute.
  - by left.
  - done.
Defined.

End Witness.
