(* ===== verification/TargetWriter.v ===== *)
(** What the server's delivery writes to its target: the callbacks that handleHandshake
    of src/tunnel/server.go gives to the ordered delivery, [flushTargetWrite],
    [writeToTarget] and [writeAll], with Go's bufio.Writer.

    A target is the bytes it has taken and its answers to the writes to come: [All], or
    [Part n failed] when it takes [n] bytes and reports an error or not; without a
    further answer it takes everything.  Deadlines are left out: a passed one is a
    failed answer. *)
From S2P Require Import Prelude.
Local Open Scope Z_scope.

Definition upstreamWriteBuf : Z := Z.shiftl 256 10.
Definition upstreamWriteFlush : Z := upstreamWriteBuf / 2.

Inductive answer := All | Part (n : Z) (failed : bool).

Record target := mkTarget { taken : bytes; answers : list answer }.

(** [Write]: the bytes taken and whether an error is reported. *)
Definition connWrite (w : target) (p : bytes) : Z * bool * target :=
  match answers w with
  | Part n failed :: l =>
      let n := Z.max 0 (Z.min n (len p)) in (n, failed, mkTarget (taken w ++ upto n p) l)
  | _ => (len p, false, mkTarget (taken w ++ p) (tail (answers w)))
  end.

(** Each write but the last uses up an answer. *)
Definition write_fuel (w : target) : nat := S (S (S (length (answers w)))).

(** * Unbuffered *)

Inductive write_status := WOk | WError | WShort.

Fixpoint writeAllLoop (fuel : nat) (w : target) (data : bytes) : option (write_status * target) :=
  match fuel with
  | O => None
  | S fuel =>
      if len data =? 0 then Some (WOk, w) else
      let '(n, failed, w) := connWrite w data in
      let data := if 0 <? n then from n data else data in
      if failed then Some (WError, w) else
      if n =? 0 then Some (WShort, w) else writeAllLoop fuel w data
  end.
Definition writeAll (w : target) (data : bytes) : option (write_status * target) := writeAllLoop (write_fuel w) w data.

(** A UDP target gets a record as one datagram. *)
Definition writeToTarget (udp : bool) (w : target) (data : bytes) : option (write_status * target) :=
  if len data =? 0 then Some (WOk, w) else
  if udp then
    let '(n, failed, w) := connWrite w data in
    Some (if failed then WError else if n =? len data then WOk else WShort, w)
  else writeAll w data.

(** * bufio.Writer *)

Record bufWriter := mkBuf { held : bytes; broken : bool; dest : target }.

Definition available (b : bufWriter) : Z := upstreamWriteBuf - len (held b).

(** [Flush] *)
Definition flush (b : bufWriter) : bool * bufWriter :=
  if broken b then (true, b) else
  if len (held b) =? 0 then (false, b) else
  let '(n, failed, w) := connWrite (dest b) (held b) in
  if failed || (n <? len (held b)) then (true, mkBuf (from n (held b)) true w) else (false, mkBuf [] false w).

(** The loop of [Write]: it ends when what is left fits, or at an error. *)
Fixpoint fill (fuel : nat) (b : bufWriter) (p : bytes) : option (bytes * bufWriter) :=
  match fuel with
  | O => None
  | S fuel =>
      if (len p <=? available b) || broken b then Some (p, b) else
      if len (held b) =? 0 then
        let '(n, failed, w) := connWrite (dest b) p in
        fill fuel (mkBuf [] failed w) (from n p)
      else
        let n := available b in
        let '(_, b) := flush (mkBuf (held b ++ upto n p) (broken b) (dest b)) in
        fill fuel b (from n p)
  end.

Definition bufWrite (b : bufWriter) (p : bytes) : option (bool * bufWriter) :=
  match fill (write_fuel (dest b)) b p with
  | None => None
  | Some (rest, b) => Some (if broken b then (true, b) else (false, mkBuf (held b ++ rest) false (dest b)))
  end.

(** * The callbacks of a TCP target *)

Definition newTargetWriter (w : target) : bufWriter := mkBuf [] false w.

(** [writeFn]; the flag is an error. *)
Definition writeFn (b : bufWriter) (p : bytes) : option (bool * bufWriter) :=
  match bufWrite b p with
  | Some (false, b) => Some (if upstreamWriteFlush <=? len (held b) then flush b else (false, b))
  | r => r
  end.

(** [idleFn] *)
Definition idleFn (b : bufWriter) : bool * bufWriter :=
  if 0 <? len (held b) then flush b else (false, b).

(** * What reaches the target *)

Lemma connWrite_spec w p :
  let '(n, failed, w') := connWrite w p in
  0 ≤ n ≤ len p ∧ taken w' = taken w ++ upto n p ∧ length (answers w') = pred (length (answers w)) ∧
  (answers w = [] → n = len p ∧ failed = false).
Proof.
  unfold connWrite. pose proof (len_nonneg p).
  destruct (answers w) as [|[|n failed] l] eqn:E; cbn [tail length pred];
    split_and!; cbn [taken answers]; try done; try lia; by rewrite upto_all by lia.
Qed.

Lemma upstreamWriteBuf_val : upstreamWriteBuf = 262144.
Proof. done. Qed.

(** All the bytes, in order, wherever they are. *)
Definition stream (b : bufWriter) : bytes := taken (dest b) ++ held b.

Record buf_wf (b : bufWriter) : Prop := { bw_size : len (held b) <= upstreamWriteBuf }.

Lemma flush_spec b :
  let '(err, b') := flush b in
  stream b' = stream b ∧ err = broken b' ∧ (err = false → held b' = []) ∧
  len (held b') <= len (held b) ∧ (length (answers (dest b')) <= length (answers (dest b)))%nat.
Proof.
  unfold flush. destruct (broken b) eqn:Hb; [by split_and!|].
  destruct (Z.eqb_spec (len (held b)) 0) as [H0|H0]; [split_and!; try done; intros; by apply len_nil_inv|].
  pose proof (connWrite_spec (dest b) (held b)) as H. destruct (connWrite _ _) as [[n failed] w].
  destruct H as (Hn & Ht & Ha & _). unfold stream.
  destruct (failed || _) eqn:E; cbn [held broken dest]; rewrite Ht; split_and!; try done; try lia.
  - by rewrite <- app_assoc, upto_from.
  - rewrite len_from by lia. lia.
  - apply orb_false_iff in E as [_ E]. by rewrite upto_all, app_nil_r by lia.
  - rewrite len_nil. pose proof (len_nonneg (held b)). lia.
Qed.

Lemma fill_spec fuel b p :
  buf_wf b → (1 <= fuel)%nat →
  (available b < len p → broken b = false →
     (length (answers (dest b)) + (if bool_decide (held b = []) then 2 else 3) <= fuel)%nat) →
  ∃ rest b', fill fuel b p = Some (rest, b') ∧ stream b' ++ rest = stream b ++ p ∧ buf_wf b' ∧
             (broken b' = false → len rest <= available b').
Proof.
  revert b p. induction fuel as [|fuel IH]; intros b p Hwf Hf Hneed; [lia|]. cbn [fill].
  destruct ((len p <=? available b) || broken b) eqn:Hstop.
  { exists p, b. split_and!; try done. intros Hb. rewrite Hb, orb_false_r in Hstop. lia. }
  apply orb_false_iff in Hstop as [Hlen Hb]. specialize (Hneed ltac:(lia) Hb).
  pose proof (bw_size _ Hwf). pose proof (len_nonneg (held b)). pose proof (len_nonneg p).
  destruct (Z.eqb_spec (len (held b)) 0) as [Hz|Hz].
  - apply len_nil_inv in Hz. rewrite bool_decide_eq_true_2 in Hneed by done.
    pose proof (connWrite_spec (dest b) p) as H3. destruct (connWrite _ _) as [[n failed] w].
    destruct H3 as (Hn & Ht & Ha & Hall).
    destruct (IH (mkBuf [] failed w) (from n p)) as (rest & b' & -> & Hst & Hwf' & Hr); [split; cbn [held]; rewrite len_nil, upstreamWriteBuf_val; lia|lia| |].
    + cbn [held dest]. rewrite bool_decide_eq_true_2 by done. intros Hbig _. destruct (answers (dest b)) eqn:E.
      * destruct (Hall eq_refl) as [-> _]. rewrite from_len in Hbig. unfold available in Hbig. cbn [held] in Hbig.
        rewrite !len_nil, upstreamWriteBuf_val in Hbig. lia.
      * cbn in *. lia.
    + exists rest, b'. split_and!; try done. rewrite Hst. unfold stream. cbn [dest held]. rewrite Ht, Hz, !app_nil_r.
      by rewrite <- app_assoc, upto_from.
  - assert (Hne : held b ≠ []) by (intros E; rewrite E in Hz; done). rewrite bool_decide_eq_false_2 in Hneed by done.
    assert (Hav : 0 <= available b) by (unfold available; lia).
    pose proof (flush_spec (mkBuf (held b ++ upto (available b) p) (broken b) (dest b))) as H3.
    destruct (flush _) as [err b1]. destruct H3 as (Hs & -> & Hh & Hl & Ha). cbn [held dest] in *.
    rewrite len_app, len_upto in Hl by lia.
    destruct (IH b1 (from (available b) p)) as (rest & b' & -> & Hst & Hwf' & Hr); [split; unfold available in *; lia|lia| |].
    + intros _ Hbr. rewrite (Hh Hbr), bool_decide_eq_true_2 by done. lia.
    + exists rest, b'. split_and!; try done. rewrite Hst, Hs. unfold stream. cbn [dest held].
      by rewrite <- !app_assoc, upto_from.
Qed.

Lemma bufWrite_spec b p :
  buf_wf b → ∃ err b', bufWrite b p = Some (err, b') ∧ err = broken b' ∧ buf_wf b' ∧
    (err = false → stream b' = stream b ++ p) ∧ stream b' `prefix_of` stream b ++ p.
Proof.
  intros Hwf. unfold bufWrite.
  destruct (fill_spec (write_fuel (dest b)) b p Hwf) as (rest & b1 & -> & Hs & Hwf1 & Hr);
    [unfold write_fuel; lia|intros _ _; unfold write_fuel; case_bool_decide; lia|].
  rewrite <- Hs. destruct (broken b1) eqn:Hb.
  - exists true, b1. split_and!; try done. by exists rest.
  - specialize (Hr eq_refl). unfold available in Hr. exists false, (mkBuf (held b1 ++ rest) false (dest b1)).
    split_and!; try done; [split; cbn [held]; rewrite len_app; lia|..]; unfold stream; cbn [dest held];
      by rewrite app_assoc.
Qed.

Lemma writeFn_spec b p :
  buf_wf b → ∃ err b', writeFn b p = Some (err, b') ∧ buf_wf b' ∧ stream b' `prefix_of` stream b ++ p ∧
    (err = false → broken b' = false ∧ stream b' = stream b ++ p ∧ len (held b') < upstreamWriteFlush).
Proof.
  intros Hwf. unfold writeFn. destruct (bufWrite_spec b p Hwf) as (err & b1 & -> & He & Hwf1 & Hs & Hp).
  destruct err; [by exists true, b1|]. specialize (Hs eq_refl).
  destruct (Z.leb_spec upstreamWriteFlush (len (held b1))) as [Hbig|Hsmall]; [|by exists false, b1].
  pose proof (flush_spec b1) as H. destruct (flush b1) as [e b2]. destruct H as (Hs2 & -> & Hh & Hl & _).
  exists (broken b2), b2. rewrite Hs2. split_and!; try done; [split; pose proof (bw_size _ Hwf1); lia|].
  intros Hb. split_and!; try done. rewrite (Hh Hb). by rewrite len_nil.
Qed.

Lemma idleFn_spec b :
  buf_wf b → let '(err, b') := idleFn b in
  buf_wf b' ∧ stream b' = stream b ∧ (err = false → broken b = false → broken b' = false ∧ held b' = []).
Proof.
  intros Hwf. unfold idleFn. destruct (Z.ltb_spec 0 (len (held b))) as [Hn|Hn].
  - pose proof (flush_spec b) as H. destruct (flush b) as [e b2]. destruct H as (Hs & -> & Hh & Hl & _).
    split_and!; try done; [split; pose proof (bw_size _ Hwf); lia|]. intros Hb _. auto.
  - split_and!; try done. intros _ Hb. split; [done|]. apply len_nil_inv. pose proof (len_nonneg (held b)). lia.
Qed.

(** * The delivery's use of the callbacks *)

Inductive target_call := TWrite (p : bytes) | TIdle.

Definition payloads (cs : list target_call) : bytes :=
  concat (map (λ c, match c with TWrite p => p | TIdle => [] end) cs).

(** The delivery stops at the first failure: [None] is a call that does not return. *)
Fixpoint targetRun (b : bufWriter) (cs : list target_call) : option (bool * bufWriter) :=
  match cs with
  | [] => Some (false, b)
  | c :: cs =>
      match (match c with TWrite p => writeFn b p | TIdle => Some (idleFn b) end) with
      | Some (false, b) => targetRun b cs
      | r => r
      end
  end.

Lemma targetRun_spec b cs :
  buf_wf b → broken b = false → len (held b) < upstreamWriteFlush →
  ∃ failed b', targetRun b cs = Some (failed, b') ∧ stream b' `prefix_of` stream b ++ payloads cs ∧
    (failed = false → stream b' = stream b ++ payloads cs ∧ len (held b') < upstreamWriteFlush ∧
                      (last cs = Some TIdle → held b' = [])).
Proof.
  revert b. induction cs as [|c cs IH]; intros b Hwf Hb Hl; cbn [targetRun].
  { exists false, b. unfold payloads. cbn. by rewrite app_nil_r. }
  assert (H : ∃ err b1, (match c with TWrite p => writeFn b p | TIdle => Some (idleFn b) end) = Some (err, b1) ∧
    buf_wf b1 ∧ stream b1 `prefix_of` stream b ++ payloads [c] ∧
    (err = false → broken b1 = false ∧ stream b1 = stream b ++ payloads [c] ∧ len (held b1) < upstreamWriteFlush ∧
       (c = TIdle → held b1 = []))).
  { unfold payloads. destruct c as [p|]; cbn [map concat]; rewrite app_nil_r.
    - destruct (writeFn_spec b p Hwf) as (err & b1 & -> & Hwf1 & Hp & Hok). exists err, b1. split_and!; try done.
      intros E. by destruct (Hok E) as (? & ? & ?).
    - pose proof (idleFn_spec b Hwf) as H. destruct (idleFn b) as [err b1]. destruct H as (Hwf1 & Hs & Hok).
      exists err, b1. rewrite Hs. split_and!; try done. intros E. destruct (Hok E Hb) as [? Hh].
      split_and!; try done. rewrite Hh. by rewrite len_nil. }
  destruct H as (err & b1 & -> & Hwf1 & Hp & Hok).
  assert (Hcons : payloads (c :: cs) = payloads [c] ++ payloads cs).
  { unfold payloads. cbn. by rewrite app_nil_r. }
  rewrite Hcons, app_assoc. destruct err.
  { exists true, b1. split_and!; try done. by apply prefix_app_r. }
  destruct (Hok eq_refl) as (Hb1 & Hs1 & Hl1 & Hi).
  destruct (IH b1 Hwf1 Hb1 Hl1) as (failed & b2 & Hrun & Hp2 & H2). exists failed, b2. rewrite <- Hs1.
  split_and!; try done. intros E. destruct (H2 E) as (? & ? & Hlast). split_and!; try done.
  destruct cs as [|c' cs]; [|by apply Hlast]. injection Hrun as _ <-. intros [= ->]. by apply Hi.
Qed.

(** The writer of a TCP target, whatever the target answers: every call
    returns; as long as none fails, the bytes the target has taken and those in the
    buffer are exactly the payloads delivered, in order, fewer than [upstreamWriteFlush]
    wait, and none after an idle flush; when one fails, what the target took is still a
    prefix of the payloads. *)
Theorem target_stream w cs :
  ∃ failed b, targetRun (newTargetWriter w) cs = Some (failed, b) ∧
    taken (dest b) `prefix_of` taken w ++ payloads cs ∧
    (failed = false → taken (dest b) ++ held b = taken w ++ payloads cs ∧ len (held b) < upstreamWriteFlush ∧
                      (last cs = Some TIdle → taken (dest b) = taken w ++ payloads cs)).
Proof.
  destruct (targetRun_spec (newTargetWriter w) cs) as (failed & b & Hrun & Hp & Hok);
    [by split|done|done|]. unfold stream in Hp, Hok. cbn [newTargetWriter dest held] in Hp, Hok.
  rewrite app_nil_r in Hp, Hok. exists failed, b. split_and!; [done|etransitivity; [by eexists|exact Hp]|].
  intros E. destruct (Hok E) as (Hs & Hl & Hi). split_and!; [done..|].
  intros Hlast. rewrite (Hi Hlast), app_nil_r in Hs. done.
Qed.

(** A payload below the threshold is reported written, and so acknowledged, before the
    target has taken any of it. *)
Lemma ack_precedes_write w p :
  len p < upstreamWriteFlush →
  ∃ b, writeFn (newTargetWriter w) p = Some (false, b) ∧ dest b = w ∧ held b = p.
Proof.
  intros Hp. assert (Hf : fill (write_fuel (dest (newTargetWriter w))) (newTargetWriter w) p = Some (p, newTargetWriter w)).
  { unfold write_fuel, fill, available, newTargetWriter. cbn [held broken dest]. rewrite len_nil, upstreamWriteBuf_val.
    change upstreamWriteFlush with 131072 in Hp. by destruct (Z.leb_spec (len p) (262144 - 0)); [|lia]. }
  unfold writeFn, bufWrite. rewrite Hf. cbn [newTargetWriter broken held dest app].
  destruct (Z.leb_spec upstreamWriteFlush (len p)); [lia|]. by eexists.
Qed.

(** * Unbuffered writes *)

Lemma writeAllLoop_spec fuel w data :
  (length (answers w) + 2 <= fuel)%nat ∨ data = [] ∧ (1 <= fuel)%nat →
  ∃ st w' q, writeAllLoop fuel w data = Some (st, w') ∧ taken w' = taken w ++ q ∧ q `prefix_of` data ∧
             (st = WOk → q = data).
Proof.
  revert w data. induction fuel as [|fuel IH]; intros w data Hf; [lia|]. cbn [writeAllLoop].
  destruct (Z.eqb_spec (len data) 0) as [Hz|Hz].
  { apply len_nil_inv in Hz as ->. exists WOk, w, []. by rewrite app_nil_r. }
  destruct Hf as [Hf|[-> _]]; [|done].
  pose proof (connWrite_spec w data) as H. destruct (connWrite w data) as [[n failed] w1].
  destruct H as (Hn & Ht & Ha & Hall). assert (Hpre : upto n data `prefix_of` data).
  { exists (from n data). by rewrite upto_from. }
  destruct failed; [by exists WError, w1, (upto n data)|].
  destruct (Z.eqb_spec n 0) as [->|Hn0]; [by exists WShort, w1, (upto 0 data)|].
  destruct (Z.ltb_spec 0 n); [|lia].
  destruct (IH w1 (from n data)) as (st & w2 & q & -> & Ht2 & Hq & Hok).
  { destruct (answers w) eqn:E; [|left; cbn in *; lia]. right. destruct (Hall eq_refl) as [-> _].
    rewrite from_len. split; [done|]. cbn in Hf. lia. }
  exists st, w2, (upto n data ++ q). rewrite Ht2, Ht, <- app_assoc. split_and!; try done.
  - rewrite <- (upto_from n data) at 2. by apply prefix_app.
  - intros E. by rewrite (Hok E), upto_from.
Qed.

(** Writing a record without a buffer, to the application or to a UDP
    target, whatever the other end answers: the call returns; it reports success only
    when every byte was taken, in order, and otherwise a prefix was; and a UDP target
    is written to once, so that a record stays one datagram. *)
Theorem unbuffered_write udp w data :
  ∃ st w' q, writeToTarget udp w data = Some (st, w') ∧ taken w' = taken w ++ q ∧ q `prefix_of` data ∧
    (st = WOk → q = data) ∧ (udp = true → data ≠ [] → (length (answers w') = pred (length (answers w)))%nat).
Proof.
  unfold writeToTarget. destruct (Z.eqb_spec (len data) 0) as [Hz|Hz].
  { apply len_nil_inv in Hz as ->. exists WOk, w, []. by rewrite app_nil_r. }
  destruct udp.
  - pose proof (connWrite_spec w data) as H. destruct (connWrite w data) as [[n failed] w1].
    destruct H as (Hn & Ht & Ha & Hall). eexists _, w1, (upto n data). split_and!; [done|done| |..|done].
    + exists (from n data). by rewrite upto_from.
    + destruct failed; [done|]. destruct (Z.eqb_spec n (len data)) as [->|]; [|done]. intros _. by rewrite upto_all.
  - unfold writeAll. destruct (writeAllLoop_spec (write_fuel w) w data) as (st & w' & q & H);
      [left; unfold write_fuel; lia|]. exists st, w', q. by destruct H as (? & ? & ? & ?).
Qed.
