(* ===== verification/Stream.v ===== *)
(** Applications at both ends: the tunnel of [Tunnel] with the client's uplink pump, the
    server's upstream pump ([Pump]) and the buffered writer of a TCP target
    ([TargetWriter]).  Every other goroutine does what it does in [Tunnel]; only the
    pumps send records. *)
From S2P Require Import Prelude Protocol F64 Rtt FecLoss FecWire Erasure FecBlock FecSender FecReceiver FecRecovery Replay Delivery AckCoalesce Flow Sack Arq Session ClientSession ServerSession Endpoint FecLink Actions Tunnel Pump TargetWriter.
Local Open Scope Z_scope.

Section WithInterfaces.
Context {C : Crypto} {L : CryptoLaws C} {RS : ReedSolomon}.

Record link := mkLink {
  tun : tunnel;
  up : uplink;
  upRead : bytes;              (* what the client's pump has read *)
  down : spump;
  downRead : list bytes;       (* what the server's pump has read, less oversized datagrams *)
  tgt : bufWriter;             (* the writer of a TCP target *)
}.

Definition clientDoes (t : tunnel) (c : option call) (e : senv) : tunnel :=
  match c with Some c => clientMoves t (Call c) e | None => t end.
Definition serverDoes (cfg : serverCfg) (t : tunnel) (c : option call) (e : senv) : tunnel :=
  match c with Some c => serverMoves cfg t (Call c) e | None => t end.

(** A read returns bytes, at least one and no more than there is room for. *)
Definition read_ok (room : Z) (r : read_result) : Prop :=
  match r with ReadData b => Forall is_byte b ∧ 0 < len b ≤ room | _ => True end.

(** The bytes a pump has read and not sent. *)
Definition inPump (p : pump) : bytes := match p with Reading b | Flushing b => b | _ => [] end.
Definition inSPump (p : spump) : bytes := match p with SForward b => b | _ => [] end.

(** What a turn of a pump reads. *)
Definition upReads (s : session) (p : pump) (r : read_result) : bytes :=
  match p, r with Reading _, ReadData b => if sessClosed s then [] else b | _, _ => [] end.
Definition downReads (cfg : serverCfg) (udp : bool) (s : serverSession) (p : spump) (r : read_result) : list bytes :=
  match p, r with
  | SReading, ReadData b =>
      if sessClosed (core s) || udp && (readBuf cfg udp <=? len b) || negb (forwards cfg s udp b) then [] else [b]
  | _, _ => []
  end.

(** Everything but sending records. *)
Definition foreign (x : stimulus) : Prop := match x with Call (Write _) => False | _ => True end.

(** A write of the delivery goes through the target's writer. *)
Definition targetMove (h : serverHalf) (x : stimulus) (b b' : bufWriter) : Prop :=
  match x, sw h with
  | Call (Writer WoCommit), WWriting _ p => writeFn b p = Some (false, b')
  | Call (Writer WoFail), WWriting _ p => writeFn b p = Some (true, b')
  | _, _ => b' = b
  end.

Inductive xstep (cfg : serverCfg) (udp : bool) (w : link) : link → Prop :=
| X_uplink r sendCap t2 e c u :
    budget_ok sendCap → read_ok (uplinkBuf - len (inPump (upump (up w)))) r →
    uplinkTurn (hs (cl (tun w))) (up w) r
      (clientSession_maxPayload sendCap (bool_decide (is_Some (fecSend (arq (hs (cl (tun w)))))))) t2 (base e) = (c, u) →
    xstep cfg udp w (mkLink (clientDoes (tun w) c e) u (upRead w ++ upReads (hs (cl (tun w))) (upump (up w)) r)
                       (down w) (downRead w) (tgt w))
| X_keepalive e c u :
    keepAliveTick (hs (cl (tun w))) (up w) (base e) = (c, u) →
    xstep cfg udp w (mkLink (clientDoes (tun w) c e) u (upRead w) (down w) (downRead w) (tgt w))
| X_upstream r e c p :
    read_ok (readBuf cfg udp) r → upstreamTurn cfg udp (srv (sv (tun w))) (down w) r (base e) = (c, p) →
    xstep cfg udp w (mkLink (serverDoes cfg (tun w) c e) (up w) (upRead w) p
                       (downRead w ++ downReads cfg udp (srv (sv (tun w))) (down w) r) (tgt w))
| X_client x e :
    stimulus_ok (fromS (tun w)) (hs (cl (tun w))) x → foreign x →
    xstep cfg udp w (mkLink (clientMoves (tun w) x e) (up w) (upRead w) (down w) (downRead w) (tgt w))
| X_server x e b :
    stimulus_ok (fromC (tun w)) (core (srv (sv (tun w)))) x → foreign x →
    (if udp then b = tgt w else targetMove (sv (tun w)) x (tgt w) b) →
    xstep cfg udp w (mkLink (serverMoves cfg (tun w) x e) (up w) (upRead w) (down w) (downRead w) b)
| X_idle e err b :
    sw (sv (tun w)) = WSleep → idleFn (tgt w) = (err, b) →
    xstep cfg udp w (mkLink (serverDoes cfg (tun w) (if err then Some (Shut "closed") else None) e)
                       (up w) (upRead w) (down w) (downRead w) b).

Definition startLink (c : session) (s : serverSession) (now : Z) (target_ : target) : link :=
  mkLink (startTunnel c s) (newUplink now) [] AwaitGate [] (newTargetWriter target_).

(** * Refused records *)

(** A record that is refused is refused because the session is closed. *)
Lemma sendRecord_dead s p e :
  payload_ok p → match (sendRecord s p e).1.1 with SendClosed | SendUnsealed => sessClosed (sendRecord s p e).2 = true | _ => True end.
Proof.
  intros Hp. unfold sendRecord. destruct (sessClosed s) eqn:Hc; [done|]. destruct (windowFull _); [done|].
  destruct (takeSeq (arq s)) as [sq q]. unfold encodeFrame. destruct (_ =? 0) eqn:Hz.
  - match goal with |- context [closeSession ?t ?r e] => pose proof (closeSession_closed t r e) as H end.
    destruct (closeSession _ _ e) as [out s1]. done.
  - match goal with |- context [len (SealFrameAEAD ?f ?c ?d) =? 0] => pose proof (sealed_nonempty c f d) as H end.
    set (wire := SealFrameAEAD _ _ _) in *. destruct (Z.eqb_spec (len wire) 0) as [Hw|Hw].
    + destruct H; [|done]. unfold applyFECFeedback. by destruct (fecRecv _).
    + by destruct (protect _ _ _ _).
Qed.

(** * What each pump keeps *)

(** The records sent and the bytes held are the bytes read, until the pump or its
    session is dead; then the records are still a prefix. *)
Definition pumped (sent : list bytes) (held read : bytes) (dead : bool) : Prop :=
  concat sent ++ held = read ∨ dead = true ∧ concat sent `prefix_of` read.

Lemma pumped_prefix sent held read dead : pumped sent held read dead → concat sent `prefix_of` read.
Proof. intros [<-|[_ H]]; [by eexists|done]. Qed.

Lemma pumped_dead sent held read held' more : pumped sent held read true → pumped sent held' (read ++ more) true.
Proof. intros H%pumped_prefix. right. split; [done|]. by apply prefix_app_r. Qed.

Lemma pumped_weaken sent held read (dead dead' : bool) :
  (dead = true → dead' = true) → pumped sent held read dead → pumped sent held read dead'.
Proof. intros Hd [?|[? ?]]; [by left|right; auto]. Qed.

Lemma pumped_more sent held read dead dead' more :
  (dead = true → dead' = true) → pumped sent held read dead → pumped sent (held ++ more) (read ++ more) dead'.
Proof.
  intros Hd [<-|[E H]]; [left; by rewrite app_assoc|right]. split; [auto|by apply prefix_app_r].
Qed.

Definition fits (p : bytes) : Prop := 1 ≤ len p ≤ UDPC_MAX_DATA.
Definition ended (p : pump) : bool := match p with Stopping _ | Stopped => true | _ => false end.

(** The uplink: what was sent, whether the session is closed, the pump, what was read. *)
Definition up_inv (sent : list bytes) (closed : bool) (p : pump) (read : bytes) : Prop :=
  pumped sent (inPump p) read (ended p || closed) ∧
  match p with Reading acc => len acc < uplinkBuf | _ => True end ∧ Forall is_byte (inPump p) ∧ Forall fits sent.

Definition down_inv (sent : list bytes) (closed : bool) (p : spump) (read : list bytes) : Prop :=
  pumped sent (inSPump p) (concat read) closed ∧ Forall is_byte (inSPump p) ∧ Forall fits sent.

(** What a call files. *)
Definition files (s : session) (c : option call) (e : env) : list bytes :=
  match c with Some (Write p) => filed (sendRecord s p e).1.1 p | _ => [] end.
Definition well_sized (c : option call) : Prop :=
  match c with Some (Write p) => payload_ok p ∧ fits p | Some (Writer _) => False | _ => True end.

Lemma uplinkBuf_val : uplinkBuf = UDPC_MAX_DATA.
Proof. done. Qed.

Lemma cut_fits cap rest :
  1 ≤ cap ≤ UDPC_MAX_DATA → Forall is_byte rest → len rest ≠ 0 →
  let n := Z.min cap (len rest) in
  payload_ok (upto n rest) ∧ fits (upto n rest) ∧ Forall is_byte (from n rest).
Proof.
  intros Hc Hb Hr n. pose proof (len_nonneg rest). assert (Hn : 1 ≤ n ≤ len rest) by (unfold n; lia).
  unfold payload_ok, fits. rewrite len_upto by lia. split_and!; try lia.
  - by apply Forall_upto.
  - by apply Forall_from.
Qed.

Lemma pumped_write s sent rest read dead n p e :
  pumped sent rest read dead → p = upto n rest → (dead = true → sessClosed s = true) →
  match (sendRecord s p e).1.1 with
  | SendOk => pumped (sent ++ filed SendOk p) (from n rest) read dead
  | SendBlocked => pumped (sent ++ filed SendBlocked p) rest read dead
  | st => filed st p = [] ∧ concat sent `prefix_of` read
  end.
Proof.
  intros Hp -> Hd. pose proof (pumped_prefix _ _ _ _ Hp) as Hpre.
  destruct ((sendRecord s (upto n rest) e).1.1) eqn:Hst; cbn [filed]; rewrite ?app_nil_r; try done.
  destruct Hp as [<-|[E Hp]].
  - left. rewrite concat_app. cbn [concat]. by rewrite app_nil_r, <- app_assoc, upto_from.
  - exfalso. revert Hst. unfold sendRecord. by rewrite (Hd E).
Qed.

Lemma up_inv_turn sent s u read r cap t2 e c u' :
  up_inv sent (sessClosed s) (upump u) read → 1 ≤ cap ≤ UDPC_MAX_DATA →
  read_ok (uplinkBuf - len (inPump (upump u))) r → uplinkTurn s u r cap t2 e = (c, u') →
  well_sized c ∧ ∀ closed, (sessClosed s = true → closed = true) →
    up_inv (sent ++ files s c e) closed (upump u') (read ++ upReads s (upump u) r).
Proof.
  intros (Hp & Ha & Hb & Hf) Hcap Hr. unfold uplinkTurn, upReads. destruct (upump u) as [acc|rest|reason|] eqn:Hu;
    cbn [inPump ended orb] in *.
  - destruct (sessClosed s) eqn:Hc.
    { intros [= <- <-]. split; [done|]. intros closed Hcl. cbn [files upump set_pump].
      assert ((match r with ReadData _ => [] | _ => [] end) = ([] : bytes)) as -> by by destruct r. rewrite (app_nil_r sent).
      split_and!; try done. by eapply pumped_dead. }
    destruct (readWait _ _ _ _) as [wait dl]. destruct r as [b| | |]; intros [= <- <-]; (split; [done|]); intros closed _;
      cbn [files upump]; rewrite ?app_nil_r; cbn [read_ok] in Hr.
    + destruct Hr as [Hb' Hl]. rewrite len_app in *.
      assert (Hpump : pumped sent (acc ++ b) (read ++ b) closed) by (by eapply pumped_more; [|exact Hp]).
      assert (Hall : Forall is_byte (acc ++ b)) by by apply Forall_app.
      destruct (Z.leb_spec cap (len acc + len b)); split_and!; try done. rewrite len_app, uplinkBuf_val. lia.
    + split_and!; try done. by destruct Hp as [|[? ?]]; [left|].
    + split_and!; try done. by destruct Hp as [|[? ?]]; [left|].
    + split_and!; try done. right. split; [done|]. by eapply pumped_prefix.
  - destruct (Z.eqb_spec (len rest) 0) as [Hz|Hz].
    { intros [= <- <-]. split; [done|]. intros closed Hcl. apply len_nil_inv in Hz as ->. cbn [files upump set_pump].
      rewrite !app_nil_r. split_and!; try done. destruct Hp as [|[E ?]]; [by left|right; split; [by apply Hcl|done]]. }
    destruct (cut_fits cap rest Hcap Hb Hz) as (Hok & Hfit & Hrest). set (n := Z.min cap (len rest)) in *.
    intros [= <- <-]. split; [done|]. intros closed Hcl.
    pose proof (pumped_write s sent rest read _ n _ e Hp eq_refl (λ E, E)) as Hw. cbn [files upump set_pump].
    rewrite (app_nil_r read). unfold afterSend. destruct ((sendRecord s (upto n rest) e).1.1); cbn [filed] in *; rewrite ?(app_nil_r sent) in *.
    + split_and!; [by eapply pumped_weaken|done|done|]. apply Forall_app. by split; [|apply Forall_singleton].
    + unfold up_inv. cbn [inPump]. rewrite upto_from. split_and!; try done. by eapply pumped_weaken.
    + split_and!; try done. by destruct Hw; right.
    + split_and!; try done. by destruct Hw; right.
  - intros [= <- <-]. split; [done|]. intros closed _. destruct r; cbn [files upump set_pump]; rewrite !app_nil_r; by split_and!.
  - intros [= <- <-]. split; [done|]. intros closed _. rewrite Hu. destruct r; cbn [files]; rewrite !app_nil_r; by split_and!.
Qed.

Lemma upstreamTurn_sized cfg udp s p r e c p' :
  cfg_ok cfg → sized s → Forall is_byte (inSPump p) → upstreamTurn cfg udp s p r e = (c, p') → well_sized c.
Proof.
  intros Hcfg Hsz Hb. pose proof (server_cap_ok cfg s Hcfg Hsz) as Hcap. unfold upstreamTurn.
  destruct p as [| |rest| |]; try (repeat case_match; by intros [= <- <-]).
  destruct (Z.eqb_spec (len rest) 0) as [Hz|Hz]; [by intros [= <- <-]|].
  destruct (cut_fits _ rest Hcap Hb Hz) as (Hok & Hfit & Hrest). by intros [= <- <-].
Qed.

Lemma down_inv_turn cfg udp sent s p read r e c p' closed :
  cfg_ok cfg → sized s → down_inv sent (sessClosed (core s)) p read → read_ok (readBuf cfg udp) r →
  upstreamTurn cfg udp s p r e = (c, p') →
  (sessClosed (core s) = true → closed = true) →
  match c with
  | Some (Write q) => match (sendRecord (core s) q e).1.1 with SendClosed | SendUnsealed => closed = true | _ => True end
  | _ => True
  end →
  down_inv (sent ++ files (core s) c e) closed p' (read ++ downReads cfg udp s p r).
Proof.
  intros Hcfg Hsz (Hp & Hb & Hf) Hr Hturn Hcl Hdead. pose proof (server_cap_ok cfg s Hcfg Hsz) as Hcap.
  revert Hturn. unfold upstreamTurn, downReads. destruct p as [| |rest| |]; cbn [inSPump] in *.
  - intros [= <- <-]. cbn [files]. rewrite !app_nil_r.
    split_and!; try done; [|by destruct (gateOpens _ _ _)].
    destruct (gateOpens _ _ _); by eapply pumped_weaken.
  - destruct (sessClosed (core s)) eqn:Hc.
    { intros [= <- <-]. cbn [orb].
      assert ((match r with ReadData _ => [] | _ => [] end) = ([] : list bytes)) as -> by by destruct r.
      cbn [files]. rewrite !app_nil_r. split_and!; try done. by eapply pumped_weaken. }
    cbn [orb]. destruct r as [b| | |]; cbn [read_ok] in Hr.
    + destruct (udp && _) eqn:Hbig; cbn [orb].
      { intros [= <- <-]. cbn [files]. rewrite !app_nil_r. split_and!; try done. by eapply pumped_weaken. }
      destruct (forwards cfg s udp b); cbn [negb]; intros [= <- <-]; cbn [files];
        rewrite ?(app_nil_r sent), ?(app_nil_r read); split_and!; try done; try (by apply Hr).
      * rewrite concat_app. cbn [concat]. rewrite app_nil_r. cbn [inSPump].
        rewrite <- (app_nil_l b) at 1. by eapply pumped_more.
      * by eapply pumped_weaken.
    + intros [= <- <-]. cbn [files]. rewrite !app_nil_r. split_and!; try done. by eapply pumped_weaken.
    + intros [= <- <-]. cbn [files]. rewrite !app_nil_r. split_and!; try done. by eapply pumped_weaken.
    + intros [= <- <-]. cbn [files]. rewrite !app_nil_r. split_and!; try done. by eapply pumped_weaken.
  - rewrite (app_nil_r read). destruct (Z.eqb_spec (len rest) 0) as [Hz|Hz].
    { intros [= <- <-]. apply len_nil_inv in Hz as ->. cbn [files]. rewrite !app_nil_r.
      split_and!; try done. by eapply pumped_weaken. }
    destruct (cut_fits _ rest Hcap Hb Hz) as (Hok & Hfit & Hrest). set (n := Z.min _ (len rest)) in *.
    intros [= <- <-].
    pose proof (pumped_write (core s) sent rest _ _ n _ e Hp eq_refl (λ E, E)) as Hw. cbn [files].
    destruct ((sendRecord (core s) (upto n rest) e).1.1) eqn:Hst; cbn [filed] in *; rewrite ?(app_nil_r sent) in *.
    + split_and!; [by eapply pumped_weaken|done|]. apply Forall_app. by split; [|apply Forall_singleton].
    + split_and!; try done. by eapply pumped_weaken.
    + split_and!; try done. right. by destruct Hw.
    + split_and!; try done. right. by destruct Hw.
  - intros [= <- <-]. cbn [files]. rewrite !app_nil_r. split_and!; try done. by eapply pumped_weaken.
  - intros [= <- <-]. cbn [files]. rewrite !app_nil_r. split_and!; try done. by eapply pumped_weaken.
Qed.

(** * The target's writer *)

Definition tgt_inv (sent app : list bytes) (w : writer) (b : bufWriter) : Prop :=
  buf_wf b ∧ (TargetWriter.stream b = concat app ∨ w = WStopped ∧ TargetWriter.stream b `prefix_of` concat sent).

Lemma prefix_concat (l k : list bytes) : l `prefix_of` k → concat l `prefix_of` concat k.
Proof. intros [r ->]. rewrite concat_app. by eexists. Qed.

Lemma tgt_inv_sent sent more app w b : tgt_inv sent app w b → tgt_inv (sent ++ more) app w b.
Proof.
  intros [Hb [H|[Hw H]]]; (split; [done|]); [by left|right]. split; [done|].
  etransitivity; [exact H|]. by apply prefix_concat, prefix_app_r.
Qed.

Lemma tgt_inv_taken sent app w b : app `prefix_of` sent → tgt_inv sent app w b → taken (dest b) `prefix_of` concat sent.
Proof.
  intros Ha [_ H]. assert (Hp : TargetWriter.stream b `prefix_of` concat sent).
  { destruct H as [->|[_ H]]; [by apply prefix_concat|done]. }
  etransitivity; [|exact Hp]. by eexists.
Qed.

(** The writer goroutine and what it has written, across a step of the server. *)
Lemma serverStep_writer cfg h x e :
  let h' := (serverStep cfg h x e).2 in
  match x with
  | Call (Writer o) =>
      match writerMove (deliv (core (srv h))) (sw h) (sapp h) o (base e) with
      | Some (_, (_, w, l)) => sw h' = w ∧ sapp h' = l
      | None => sw h' = sw h ∧ sapp h' = sapp h
      end
  | _ => sw h' = sw h ∧ sapp h' = sapp h
  end.
Proof.
  destruct x as [w a port|c]; cbn [serverStep].
  { by destruct (serverReceive _ _ _ _ _ _) as [[? ?] ?]. }
  destruct c as [p| |gen| | |ws|reason|o]; cbn [doCall]; try done.
  - by destruct (sendRecord _ _ _) as [[? ?] ?].
  - by destruct (retransmitStep _ _) as [[? ?] ?].
  - by destruct (fecFlush _ _ _).
  - by destruct (keepAlive _ _).
  - by destruct (closeSession _ _ _).
  - unfold writerStep. cbn [half_of hs hw happ]. destruct (writerMove _ _ _ _ _) as [[acks [[d w] l]]|]; [|done].
    by destruct (match o with WoFail => _ | _ => _ end).
Qed.

(** Apart from a commit the application gets nothing, and a stopped writer stays. *)
Lemma writerMove_rest d w l o e acks d' w' l' :
  writerMove d w l o e = Some (acks, (d', w', l')) →
  (o = WoCommit ∧ ∃ sq p, w = WWriting sq p ∧ l' = l ++ [p]) ∨ (l' = l ∧ (w = WStopped → w' = WStopped)).
Proof.
  destruct o, w; cbn [writerMove]; try done; repeat case_match; intros; simplify_eq;
    first [by right|left; split; [done|by eexists _, _]].
Qed.

Lemma tgt_inv_step cfg sent h x e b b' :
  tgt_inv sent (sapp h) (sw h) b → targetMove h x b b' →
  (∀ sq p, sw h = WWriting sq p → sapp h ++ [p] `prefix_of` sent) →
  let h' := (serverStep cfg h x e).2 in tgt_inv sent (sapp h') (sw h') b'.
Proof.
  intros [Hwf Hb] Ht Hnext h'. pose proof (serverStep_writer cfg h x e) as H. fold h' in H. cbv zeta in H.
  assert (Hrest : b' = b → sapp h' = sapp h → (sw h = WStopped → sw h' = WStopped) → tgt_inv sent (sapp h') (sw h') b').
  { intros -> -> Hs. split; [done|]. destruct Hb as [|[? ?]]; [by left|right]. auto. }
  destruct x as [w a port|c]; [destruct H as [E1 E2]; apply Hrest; [exact Ht|exact E2|congruence]|].
  destruct c as [p| |gen| | |ws|reason|o]; try (destruct H as [E1 E2]; apply Hrest; [exact Ht|exact E2|congruence]).
  destruct (writerMove _ _ _ o _) as [[acks [[d w] l]]|] eqn:Hm.
  2:{ destruct H as [E1 E2]. cbn [targetMove] in Ht. destruct o, (sw h) eqn:Hsw; try (apply Hrest; [exact Ht|exact E2|congruence]);
      cbn [writerMove] in Hm; [by destruct (drainCommit _ _ _)|done]. }
  destruct H as [E1 E2]. cbn [targetMove] in Ht. destruct o, (sw h) as [| |sq p|] eqn:Hsw;
    try (destruct (writerMove_rest _ _ _ _ _ _ _ _ _ Hm) as [[? _]|[Hl Hst]]; [done|];
         apply Hrest; [exact Ht|congruence|intros E; rewrite E1; by apply Hst]).
  all: try (cbn [writerMove] in Hm; done).
  - destruct (writeFn_spec b p Hwf) as (err & b1 & E & Hwf1 & _ & Hok). rewrite Ht in E. injection E as <- <-.
    destruct (Hok eq_refl) as (_ & Hs & _). split; [done|]. left.
    cbn [writerMove] in Hm. destruct (drainCommit _ _ _) as [d1 acks1]. injection Hm as _ _ _ Hl.
    rewrite E2, <- Hl, concat_app, Hs. cbn [concat]. rewrite app_nil_r. by destruct Hb as [->|[? ?]].
  - destruct (writeFn_spec b p Hwf) as (err & b1 & E & Hwf1 & Hpre & _). rewrite Ht in E. injection E as <- <-.
    split; [done|]. right. cbn [writerMove] in Hm. injection Hm as _ _ Hw _. split; [congruence|].
    etransitivity; [exact Hpre|]. destruct Hb as [->|[? ?]]; [|done].
    pose proof (prefix_concat _ _ (Hnext sq p eq_refl)) as Hc. rewrite concat_app in Hc. cbn [concat] in Hc.
    by rewrite app_nil_r in Hc.
Qed.

(** * All of it together *)

Lemma xstep_sent cfg udp w w' :
  xstep cfg udp w w' → sentC (tun w) `prefix_of` sentC (tun w') ∧ sentS (tun w) `prefix_of` sentS (tun w').
Proof.
  assert (Hc : ∀ t x e, sentC t `prefix_of` sentC (clientMoves t x e) ∧ sentS t `prefix_of` sentS (clientMoves t x e)).
  { intros t x e. unfold clientMoves. destruct (clientStep _ _ _). cbn. split; [by apply prefix_app_r|done]. }
  assert (Hs : ∀ t x e, sentC t `prefix_of` sentC (serverMoves cfg t x e) ∧ sentS t `prefix_of` sentS (serverMoves cfg t x e)).
  { intros t x e. unfold serverMoves. destruct (serverStep _ _ _ _). cbn. split; [done|by apply prefix_app_r]. }
  intros [r sendCap t2 e [c|] u _ _ _|e [c|] u _|r e [c|] p _ _|x e _ _|x e b _ _ _|e [|] b _ _]; cbn [tun clientDoes serverDoes];
    first [apply Hc|apply Hs|done].
Qed.

Section System.
Context {parity_of : Z → Z → list bytes → list bytes} (Hlaws : rs_laws parity_of).
Context (kc ks : FrameKeys) (sessID : Z) (cfg : serverCfg) (udp : bool).
Context (Hcs : Send kc = Recv ks) (Hsc : Send ks = Recv kc) (Hext : fecExt kc = fecExt ks).
Context (Hcfg : cfg_ok cfg).

Record xinv (w : link) : Prop := {
  xi_tun : tinv Hlaws kc ks sessID (tun w);
  xi_sized : sized (srv (sv (tun w)));
  xi_up : up_inv (sentC (tun w)) (sessClosed (hs (cl (tun w)))) (upump (up w)) (upRead w);
  xi_down : down_inv (sentS (tun w)) (sessClosed (core (srv (sv (tun w))))) (down w) (downRead w);
  xi_tgt : udp = false → tgt_inv (sentC (tun w)) (sapp (sv (tun w))) (sw (sv (tun w))) (tgt w);
}.

(** Closing is for good, on either side. *)
Lemma client_stays_closed t x e :
  tinv Hlaws kc ks sessID t → stimulus_ok (fromS t) (hs (cl t)) x →
  sessClosed (hs (cl t)) = true → sessClosed (hs (clientStep (cl t) x e).2) = true.
Proof.
  intros [_ Hc _ [_ Hb] _] Hx. apply (clientStep_plain kc sessID); [by eapply plain_ok_intro| |by eapply stimulus_call].
  by eapply delivers_writer, (d_deliv _ _ _ _ _ _ Hb).
Qed.

Lemma server_stays_closed t x e :
  tinv Hlaws kc ks sessID t → stimulus_ok (fromC t) (core (srv (sv t))) x →
  sessClosed (core (srv (sv t))) = true → sessClosed (core (srv (serverStep cfg (sv t) x e).2)) = true.
Proof.
  intros [_ _ Hs [Hb _] _] Hx. apply (serverStep_plain ks sessID); [by eapply plain_ok_intro| |by eapply stimulus_call].
  by eapply (delivers_writer (sentC t)), (d_deliv _ _ _ _ _ _ Hb).
Qed.

Lemma clientMoves_spec t x e :
  tinv Hlaws kc ks sessID t → stimulus_ok (fromS t) (hs (cl t)) x →
  let t' := clientMoves t x e in
  sv t' = sv t ∧ sentS t' = sentS t ∧ sentC t' = sentC t ++ step_files (cl t) x (base e) ∧
  (sessClosed (hs (cl t)) = true → sessClosed (hs (cl t')) = true).
Proof.
  intros Ht Hx. pose proof (client_stays_closed t x e Ht Hx) as H. unfold clientMoves.
  by destruct (clientStep (cl t) x e) as [out h].
Qed.

Lemma serverMoves_spec t x e :
  tinv Hlaws kc ks sessID t → stimulus_ok (fromC t) (core (srv (sv t))) x →
  let t' := serverMoves cfg t x e in
  cl t' = cl t ∧ sentC t' = sentC t ∧ sentS t' = sentS t ++ step_files (half_of (sv t)) x (base e) ∧
  sv t' = (serverStep cfg (sv t) x e).2 ∧
  (sessClosed (core (srv (sv t))) = true → sessClosed (core (srv (sv t'))) = true).
Proof.
  intros Ht Hx. pose proof (server_stays_closed t x e Ht Hx) as H. unfold serverMoves.
  by destruct (serverStep cfg (sv t) x e) as [out h].
Qed.

Lemma well_sized_ok c : well_sized (Some c) → call_ok c.
Proof. by destruct c; [intros [? _]|..]. Qed.

Lemma files_call s w l c e : files s (Some c) e = call_files (mkHalf s w l) c e.
Proof. by destruct c. Qed.

(** A call of a pump, as a move of the tunnel. *)
Lemma clientDoes_spec t c e :
  tinv Hlaws kc ks sessID t → well_sized c → let t' := clientDoes t c e in
  sv t' = sv t ∧ sentS t' = sentS t ∧ sentC t' = sentC t ++ files (hs (cl t)) c (base e) ∧
  (sessClosed (hs (cl t)) = true → sessClosed (hs (cl t')) = true) ∧
  (room (sentC t') → room (sentS t') → tinv Hlaws kc ks sessID t').
Proof.
  intros Ht Hc. destruct c as [c|]; cbn [clientDoes files]; [|by rewrite app_nil_r].
  apply well_sized_ok in Hc. destruct (clientMoves_spec t (Call c) e Ht Hc) as (E1 & E2 & E3 & E4).
  split_and!; try done. intros Hr1 Hr2. apply (tstep_inv Hlaws kc ks sessID cfg Hcs Hsc Hext t _ Ht); [|done|done]. by apply T_client.
Qed.

Lemma serverDoes_spec t c e :
  tinv Hlaws kc ks sessID t → well_sized c → let t' := serverDoes cfg t c e in
  cl t' = cl t ∧ sentC t' = sentC t ∧ sentS t' = sentS t ++ files (core (srv (sv t))) c (base e) ∧
  (sessClosed (core (srv (sv t))) = true → sessClosed (core (srv (sv t'))) = true) ∧
  (sized (srv (sv t)) → sized (srv (sv t'))) ∧
  (sapp (sv t') = sapp (sv t) ∧ sw (sv t') = sw (sv t)) ∧
  (room (sentC t') → room (sentS t') → tinv Hlaws kc ks sessID t').
Proof.
  intros Ht Hc. destruct c as [c|]; cbn [serverDoes files]; [|by rewrite app_nil_r].
  pose proof Hc as Hn. apply well_sized_ok in Hc. destruct (serverMoves_spec t (Call c) e Ht Hc) as (E1 & E2 & E3 & E4 & E5).
  assert (Hsw : sapp (sv (serverMoves cfg t (Call c) e)) = sapp (sv t) ∧ sw (sv (serverMoves cfg t (Call c) e)) = sw (sv t)).
  { rewrite E4. pose proof (serverStep_writer cfg (sv t) (Call c) e) as H. cbv zeta in H.
    by destruct c; first [destruct H|destruct Hn]. }
  split_and!; try apply Hsw; try done.
  - rewrite E4. intros. by apply serverStep_sized.
  - intros Hr1 Hr2. apply (tstep_inv Hlaws kc ks sessID cfg Hcs Hsc Hext t _ Ht); [|done|done]. by apply T_server.
Qed.

Lemma serverDoes_dead t c e :
  well_sized c →
  match c with
  | Some (Write q) =>
      match (sendRecord (core (srv (sv t))) q (base e)).1.1 with
      | SendClosed | SendUnsealed => sessClosed (core (srv (sv (serverDoes cfg t c e)))) = true
      | _ => True
      end
  | _ => True
  end.
Proof.
  destruct c as [[q| | | | | | |]|]; try done. intros [Hq _]. pose proof (sendRecord_dead (core (srv (sv t))) q (base e) Hq) as H.
  cbn [serverDoes]. unfold serverMoves. cbn [serverStep doCall half_of hs].
  by destruct (sendRecord (core (srv (sv t))) q (base e)) as [[st out] s'].
Qed.

(** What the writer is writing is the next record. *)
Lemma next_record t sq p :
  tinv Hlaws kc ks sessID t → room (sentC t) → room (sentS t) → sw (sv t) = WWriting sq p → sapp (sv t) ++ [p] `prefix_of` sentC t.
Proof.
  intros Ht Hr1 Hr2 Hw. set (e := mkSenv (mkEnv 0 (λ _, true) true (λ _, [])) None (λ _, []) (λ _, [])).
  destruct (serverMoves_spec t (Call (Writer WoCommit)) e Ht I) as (E1 & E2 & E3 & E4 & _).
  assert (Ht' : tinv Hlaws kc ks sessID (serverMoves cfg t (Call (Writer WoCommit)) e)).
  { apply (tstep_inv Hlaws kc ks sessID cfg Hcs Hsc Hext t _ Ht); [by apply T_server|by rewrite E2|]. rewrite E3. cbn. by rewrite app_nil_r. }
  apply tinv_reliable in Ht' as [[H _] _]. rewrite E2, E4 in H.
  pose proof (serverStep_writer cfg (sv t) (Call (Writer WoCommit)) e) as Hs. cbv zeta in Hs. rewrite Hw in Hs.
  cbn [writerMove] in Hs. destruct (drainCommit _ _ _) as [d acks]. destruct Hs as [_ Hs]. by rewrite Hs in H.
Qed.

Lemma keepAliveTick_call s u e c u' : keepAliveTick s u e = (c, u') → well_sized c ∧ files s c e = [] ∧ upump u' = upump u.
Proof. unfold keepAliveTick. destruct (sessClosed s); [|destruct (_ <? _)]; by intros [= <- <-]. Qed.

Lemma foreign_files h x e : foreign x → step_files h x e = [].
Proof. by destruct x as [|[]]. Qed.

Lemma up_inv_weaken sent c c' p read : (c = true → c' = true) → up_inv sent c p read → up_inv sent c' p read.
Proof. intros Hc (H1 & H2). split; [|done]. eapply pumped_weaken; [|exact H1]. destruct (ended p); [done|exact Hc]. Qed.

Lemma down_inv_weaken sent c c' p read : (c = true → c' = true) → down_inv sent c p read → down_inv sent c' p read.
Proof. intros Hc (H1 & H2). split; [|done]. by eapply pumped_weaken. Qed.

Lemma xstep_inv w w' :
  xinv w → xstep cfg udp w w' → room (sentC (tun w')) → room (sentS (tun w')) → xinv w'.
Proof.
  intros [Ht Hsz Hup Hdown Htgt] Hstep. destruct Hstep as
    [r sendCap t2 e c u Hbud Hr Hturn|e c u Htick|r e c p Hr Hturn|x e Hx Hfor|x e b Hx Hfor Hb|e err b Hsl Hid];
    cbn [tun]; intros Hr1 Hr2.
  - destruct (up_inv_turn _ _ _ _ _ _ _ _ _ _ Hup (client_cap_range _ _ Hbud) Hr Hturn) as [Hws Hi].
    destruct (clientDoes_spec (tun w) c e Ht Hws) as (E1 & E2 & E3 & E4 & E5).
    split; cbn [tun up upRead down downRead tgt]; rewrite ?E1, ?E2; try done; [by apply E5|rewrite E3; by apply Hi|].
    intros Hu. rewrite E3. by apply tgt_inv_sent, Htgt.
  - destruct (keepAliveTick_call _ _ _ _ _ Htick) as (Hws & Hfi & Hp).
    destruct (clientDoes_spec (tun w) c e Ht Hws) as (E1 & E2 & E3 & E4 & E5). rewrite Hfi, app_nil_r in E3.
    split; cbn [tun up upRead down downRead tgt]; rewrite ?E1, ?E2, ?E3, ?Hp; try done; [by apply E5|by eapply up_inv_weaken].
  - set (t' := serverDoes cfg (tun w) c e) in *.
    pose proof (upstreamTurn_sized _ _ _ _ _ _ _ _ Hcfg Hsz (proj1 (proj2 Hdown)) Hturn) as Hws.
    destruct (serverDoes_spec (tun w) c e Ht Hws) as (E1 & E2 & E3 & E4 & E5 & E6 & E7).
    assert (Hi := down_inv_turn cfg udp _ _ _ _ _ _ _ _ _ Hcfg Hsz Hdown Hr Hturn E4 (serverDoes_dead _ _ _ Hws)).
    fold t' in E1, E2, E3, E4, E5, E6, E7. destruct E6 as [E6 E8].
    split; cbn [tun up upRead down downRead tgt]; rewrite ?E1, ?E2, ?E3, ?E6, ?E8; try done; [by apply E7|by apply E5].
  - destruct (clientMoves_spec (tun w) x e Ht Hx) as (E1 & E2 & E3 & E4).
    rewrite (foreign_files _ _ _ Hfor), app_nil_r in E3.
    split; cbn [tun up upRead down downRead tgt]; rewrite ?E1, ?E2, ?E3; try done; [|by eapply up_inv_weaken].
    apply (tstep_inv Hlaws kc ks sessID cfg Hcs Hsc Hext (tun w) _ Ht); [by apply T_client|done|done].
  - destruct (serverMoves_spec (tun w) x e Ht Hx) as (E1 & E2 & E3 & E4 & E5).
    rewrite (foreign_files _ _ _ Hfor), app_nil_r in E3.
    split; cbn [tun up upRead down downRead tgt]; rewrite ?E1, ?E2, ?E3; try done; [| |by eapply down_inv_weaken|].
    + apply (tstep_inv Hlaws kc ks sessID cfg Hcs Hsc Hext (tun w) _ Ht); [by apply T_server|done|done].
    + rewrite E4. by apply serverStep_sized.
    + intros Hu. rewrite E4. rewrite Hu in Hb. apply (tgt_inv_step cfg _ (sv (tun w)) x e (tgt w)); [by apply Htgt|done|].
      intros sq q. apply next_record; [done|by rewrite <- E2|by rewrite <- E3].
  - destruct (serverDoes_spec (tun w) (if err then Some (Shut "closed") else None) e Ht) as (E1 & E2 & E3 & E4 & E5 & E6 & E7);
      [by destruct err|]. set (t' := serverDoes _ _ _ _) in *. destruct E6 as [E6 E8].
    assert (Hf : files (core (srv (sv (tun w)))) (if err then Some (Shut "closed") else None) (base e) = []) by by destruct err.
    rewrite Hf, app_nil_r in E3.
    split; cbn [tun up upRead down downRead tgt]; rewrite ?E1, ?E2, ?E3, ?E6, ?E8; try done;
      [by apply E7|by apply E5|by eapply down_inv_weaken|].
    intros Hu. destruct (Htgt Hu) as [Hwf Hs]. pose proof (idleFn_spec (tgt w) Hwf) as H. rewrite Hid in H.
    destruct H as (Hwf' & Est & _). split; [done|]. by rewrite Est.
Qed.

End System.

Definition upDead (w : link) : bool := ended (upump (up w)) || sessClosed (hs (cl (tun w))).


End WithInterfaces.

(** * A run *)

Section Witness.
#[local] Existing Instance toy_crypto.
#[local] Existing Instance xor_code.

Definition goUp (w : link) (r : read_result) (e : senv) : link :=
  let s := hs (cl (tun w)) in
  let '(c, u) := uplinkTurn s (up w) r (clientSession_maxPayload 0 (bool_decide (is_Some (fecSend (arq s))))) 0 (base e) in
  mkLink (clientDoes (tun w) c e) u (upRead w ++ upReads s (upump (up w)) r) (down w) (downRead w) (tgt w).
Definition goServer (w : link) (x : stimulus) (e : senv) : link :=
  let b := match x, sw (sv (tun w)) with
           | Call (Writer WoCommit), WWriting _ p =>
               match writeFn (tgt w) p with Some (_, b) => b | None => tgt w end
           | _, _ => tgt w
           end in
  mkLink (serverMoves toy_cfg (tun w) x e) (up w) (upRead w) (down w) (downRead w) b.
Definition goIdle (w : link) (e : senv) : link :=
  let '(err, b) := idleFn (tgt w) in
  mkLink (serverDoes toy_cfg (tun w) (if err then Some (Shut "closed") else None) e) (up w) (upRead w) (down w) (downRead w) b.

(** The application writes three bytes; the pump reads them, waits for more in vain and
    sends them; the server delivers them to its target. *)
Definition demo_fresh : link := startLink (toy_session true) (srv toy_server) 0 (mkTarget [] []).
Definition demo_sent : link :=
  goUp (goUp (goUp demo_fresh (ReadData (str "1st")) (toy_senv 10)) ReadTimeout (toy_senv 20)) ReadNothing (toy_senv 30).
Definition demo_received : link :=
  goServer (goServer (goServer demo_sent (Receive (wire_no (fromC (tun demo_sent)) 0) toy_remote 443) (toy_senv 40))
    (Call (Writer WoWake)) (toy_senv 50)) (Call (Writer WoCheck)) (toy_senv 60).
Definition demo_written : link :=
  goServer (goServer demo_received (Call (Writer WoCommit)) (toy_senv 70)) (Call (Writer WoCheck)) (toy_senv 80).
Definition demo_link : link := goIdle demo_written (toy_senv 90).

Lemma goUp_step w r e :
  read_ok (uplinkBuf - len (inPump (upump (up w)))) r → xstep toy_cfg false w (goUp w r e).
Proof. intros Hr. unfold goUp. destruct (uplinkTurn _ _ _ _ _ _) as [c u] eqn:E. eapply X_uplink; [|exact Hr|exact E]. by left. Qed.

Definition writes_well (w : link) : bool :=
  match sw (sv (tun w)) with
  | WWriting _ p => match writeFn (tgt w) p with Some (false, _) => true | _ => false end
  | _ => true
  end.

Lemma goServer_step w x e :
  stimulus_ok (fromC (tun w)) (core (srv (sv (tun w)))) x → foreign x →
  x ≠ Call (Writer WoFail) → (x = Call (Writer WoCommit) → writes_well w = true) → xstep toy_cfg false w (goServer w x e).
Proof.
  intros Hx Hf Hn Hw. apply X_server; [done|done|]. unfold targetMove, writes_well in *.
  destruct x as [|[]]; try done. destruct (sw (sv (tun w))) as [| |sq p|]; destruct o; try done.
  specialize (Hw eq_refl). by destruct (writeFn (tgt w) p) as [[[] b]|].
Qed.

(** The run, one step at a time. *)
Definition reached (w : link) : Prop := rtc (xstep toy_cfg false) demo_fresh w.

Lemma reach_up w r e :
  reached w → read_ok (uplinkBuf - len (inPump (upump (up w)))) r → reached (goUp w r e).
Proof. intros H Hr. eapply rtc_r; [exact H|by apply goUp_step]. Qed.

Lemma reach_writer w o e :
  reached w → match o with WoFail => False | WoCommit => writes_well w = true | _ => True end →
  reached (goServer w (Call (Writer o)) e).
Proof. intros H Ho. eapply rtc_r; [exact H|]. apply goServer_step; [exact I|exact I|by intros [= ->]|by intros [= ->]]. Qed.

Lemma demo_link_reached : reached demo_link.
Proof.
  assert (R : reached demo_sent).
  { apply reach_up; [apply reach_up; [apply reach_up; [apply rtc_refl|]|exact I]|exact I].
    split; [by apply (bool_decide_unpack _)|by vm_compute]. }
  assert (R2 : reached demo_received).
  { apply reach_writer; [apply reach_writer; [|exact I]|exact I]. eapply rtc_r; [exact R|].
    apply goServer_step; [apply wire_no_ok|exact I|discriminate|discriminate]. }
  assert (R3 : reached demo_written).
  { apply reach_writer; [apply reach_writer; [exact R2|]|exact I]. by vm_compute. }
  eapply rtc_r; [exact R3|]. unfold demo_link, goIdle. destruct (idleFn (tgt demo_written)) as [err b] eqn:E.
  apply X_idle; [by vm_compute|exact E].
Qed.


End Witness.
