(* ===== verification/Migration.v ===== *)
(** Who the server talks to: what a datagram can do to a session's idea of the
    client's address, and what the address tables can grow to. *)
From S2P Require Import Prelude Protocol F64 Rtt FecLoss FecWire Erasure FecBlock FecSender FecReceiver Replay Delivery AckCoalesce Flow Sack Arq Session ClientSession ServerSession Endpoint Actions.
Local Open Scope Z_scope.

Section WithInterfaces.
Context {C : Crypto} {RS : ReedSolomon}.

(** Go's iteration visits the keys of the map. *)
Definition orders_ok (e : senv) : Prop :=
  (∀ m k, k ∈ pathOrder e m ↔ is_Some (m !! k)) ∧ (∀ m k, k ∈ challengeOrder e m ↔ is_Some (m !! k)).

Definition paths_bounded (cfg : serverCfg) (s : serverSession) : Prop :=
  Z.of_nat (size (pathAddrs s)) ≤ Z.max 1 (sockLimit cfg).
Definition challenges_bounded (s : serverSession) : Prop :=
  Z.of_nat (size (pathChallenges s)) ≤ maxPathChallenges.

(** The address's IP and the challenges are as before, and the path table within
    its bound if it was. *)
Record stays (cfg : serverCfg) (s s' : serverSession) : Prop := {
  st_ip : fst <$> raddr s' = fst <$> raddr s;
  st_challenges : pathChallenges s' = pathChallenges s;
  st_paths : paths_bounded cfg s → paths_bounded cfg s';
}.

#[export] Instance stays_preorder cfg : PreOrder (stays cfg).
Proof.
  split; [by split|]. intros s1 s2 s3 [A1 A2 A3] [B1 B2 B3].
  split; [by rewrite B1|by rewrite B2|auto].
Qed.

Lemma stays_core cfg s c : stays cfg s (set_core s c).
Proof. by split. Qed.

Lemma oldestPath_in keys m port t : oldestPath keys m = Some (port, t) → is_Some (m !! port).
Proof.
  unfold oldestPath.
  assert (H : ∀ acc, (∀ p u, acc = Some (p, u) → is_Some (m !! p)) →
    foldl (λ acc port, match m !! port with
      | None => acc
      | Some pe => match acc with
                   | None => Some (port, usedAt pe)
                   | Some (_, oldest) => if usedAt pe <? oldest then Some (port, usedAt pe) else acc
                   end end) acc keys = Some (port, t) → is_Some (m !! port)).
  { induction keys as [|k keys IH]; intros acc Hacc; simpl; [apply Hacc|]. apply IH.
    intros p u. destruct (m !! k) as [pe|] eqn:Hk; [|apply Hacc].
    destruct acc as [[p' u']|]; [destruct (_ <? _); [|apply Hacc]|]; intros [= <- <-]; by eexists. }
  by apply H.
Qed.

Lemma oldestPath_some keys m k :
  k ∈ keys → is_Some (m !! k) → is_Some (oldestPath keys m).
Proof.
  intros Hin [pe Hpe]. unfold oldestPath.
  assert (Hmono : ∀ ks acc, is_Some acc → is_Some (foldl (λ acc port, match m !! port with
      | None => acc
      | Some pe => match acc with
                   | None => Some (port, usedAt pe)
                   | Some (_, oldest) => if usedAt pe <? oldest then Some (port, usedAt pe) else acc
                   end end) acc ks)).
  { induction ks as [|x ks IH]; intros acc Hacc; simpl; [done|]. apply IH.
    destruct (m !! x); [|done]. destruct acc as [[??]|]; [destruct (_ <? _)|]; by eexists. }
  revert Hin. generalize (@None (Z * Z)). induction keys as [|x keys IH]; intros acc Hin; [by apply not_elem_of_nil in Hin|].
  simpl. apply elem_of_cons in Hin as [<-|Hin]; [|by apply IH]. apply Hmono. rewrite Hpe.
  destruct acc as [[??]|]; [destruct (_ <? _)|]; by eexists.
Qed.

Lemma evictPath_size cfg m port e :
  orders_ok e → Z.of_nat (size m) ≤ Z.max 1 (sockLimit cfg) →
  ∀ pe, Z.of_nat (size (<[port := pe]> (evictPath cfg m port e))) ≤ Z.max 1 (sockLimit cfg).
Proof.
  intros [Ho _] Hm pe. unfold evictPath. case_bool_decide as Hn; cbn [andb].
  - destruct (Z.leb_spec (sockLimit cfg) (Z.of_nat (size m))) as [Hl|Hl].
    + destruct (oldestPath (pathOrder e m) m) as [[p t]|] eqn:Hp.
      * apply oldestPath_in in Hp as Hin. destruct Hin as [pe' Hpe'].
        assert (Hd : size (delete p m) = pred (size m)) by (apply map_size_delete_Some; by eexists).
        assert (Hmp : size m ≠ 0%nat). { apply map_size_non_empty_iff. intros He. by rewrite He, lookup_empty in Hpe'. }
        rewrite map_size_insert_None; [lia|]. destruct (decide (p = port)) as [->|]; [apply lookup_delete_eq|by rewrite lookup_delete_ne].
      * assert (He : m = ∅).
        { apply map_empty. intros k. destruct (m !! k) eqn:Hk; [|done].
          destruct (oldestPath_some (pathOrder e m) m k) as [? Hs]; [by apply Ho; eexists|by eexists|congruence]. }
        rewrite He, delete_empty, map_size_insert_None, map_size_empty by apply lookup_empty. lia.
    + rewrite map_size_insert_None by done. lia.
  - destruct (m !! port) as [x|] eqn:Hx; [|done]. rewrite map_size_insert_Some by (by rewrite Hx). lia.
Qed.

Lemma setPath_stays cfg s port a e : orders_ok e → stays cfg s (setPath cfg s port a e).
Proof.
  intros Ho. unfold setPath. destruct (_ <=? _); [done|]. destruct (_ && _); [done|].
  split; [done|done|]. unfold paths_bounded. cbn. intros Hb. by apply evictPath_size.
Qed.

Lemma updateRemoteAddr_stays cfg s a b : sameRemoteIP s a = true ∨ b = false ∧ is_Some (raddr s) → stays cfg s (updateRemoteAddr s a b).
Proof.
  unfold sameRemoteIP, updateRemoteAddr. destruct (raddr s) as [r|] eqn:Hr; [|by intros [|[_ []]]].
  intros Hc. destruct (bool_decide (r = a)); [done|].
  destruct (decide (r.1 = a.1)) as [E|E].
  - rewrite (bool_decide_eq_true_2 _ E). split; cbn; try done. by rewrite Hr, <- E.
  - rewrite (bool_decide_eq_false_2 _ E) in *. by destruct Hc as [|[-> _]].
Qed.

Lemma same_ip_stays cfg s s' a : stays cfg s s' → sameRemoteIP s a = true → sameRemoteIP s' a = true.
Proof.
  intros [H _ _]. unfold sameRemoteIP. destruct (raddr s) as [r|], (raddr s') as [r'|]; try done.
  cbn in H. injection H as H. by rewrite H.
Qed.

Lemma noteObserved_stays cfg s n : stays cfg s (noteObservedPayload s n).
Proof. unfold noteObservedPayload. destruct (_ <=? _); [done|]. by destruct (_ <=? _). Qed.

Lemma applyMtuCommit_stays cfg s n : stays cfg s (applyMtuCommit cfg s n).
Proof. unfold applyMtuCommit. by destruct (_ && _). Qed.

Lemma handleDataFromPath_stays cfg s f a port e :
  orders_ok e → sameRemoteIP s a = true → stays cfg s (handleDataFromPath cfg s f a port e).2.
Proof.
  intros Ho Ha. unfold handleDataFromPath.
  pose proof (noteObserved_stays cfg s (len (Data f))) as H0. set (s1 := noteObservedPayload s _) in *.
  destruct (offer _ _ _ _) as [[ok acks] d]. destruct (sendACKs _ acks (base e)) as [out c].
  assert (H1 : stays cfg s (set_core s1 c)) by (etrans; [exact H0|apply stays_core]).
  destruct (negb ok); cbn [snd]; [exact H1|]. etrans; [|apply stays_core]. etrans; [exact H1|].
  etrans; [|by apply setPath_stays]. apply updateRemoteAddr_stays. left. by eapply same_ip_stays.
Qed.

Lemma server_deliver_stays cfg s rec a port e :
  orders_ok e → sameRemoteIP s a = true → stays cfg s (server_deliverRecoveredFEC cfg s rec a port e).2.
Proof.
  intros Ho. revert s. induction rec as [|[sq p] rec IH]; intros s Ha; simpl; [done|].
  assert (H1 : stays cfg s (if sq =? 0 then ([], s) else
    let '(_, out, s) := handleDataFromPath cfg s (frameOf (core s) CMD_DATA sq 0 0 p) a port e in (out, s)).2).
  { destruct (sq =? 0); [done|].
    pose proof (handleDataFromPath_stays cfg s (frameOf (core s) CMD_DATA sq 0 0 p) a port e Ho Ha) as H.
    by destruct (handleDataFromPath _ _ _ _ _ _) as [[? ?] ?]. }
  destruct (if sq =? 0 then _ else _) as [out s1]. specialize (IH s1).
  destruct (server_deliverRecoveredFEC _ _ _ _ _ _) as [outs s2]. cbn [snd] in *.
  etrans; [exact H1|]. apply IH. by eapply same_ip_stays.
Qed.

Lemma serverHandle_stays cfg s f a port e :
  orders_ok e → sameRemoteIP s a = true → stays cfg s (serverHandle cfg s f a port e).2.
Proof.
  intros Ho Ha. unfold serverHandle. cbv zeta.
  assert (Hreply : ∀ cmd data, stays cfg s
    (let '(_, out, c) := sendControl (core s) (frameOf (core s) cmd 0 (currentAck (core s)) 0 data) (base e) in
     (out, set_core s c)).2).
  { intros cmd data. by destruct (sendControl _ _ _) as [[? ?] ?]. }
  destruct (Cmd f =? CMD_SACK); [by destruct (handleSACK _ _ _)|].
  destruct (Cmd f =? CMD_PING); [apply Hreply|]. destruct (Cmd f =? CMD_FEC).
  { destruct (fecReceive _ _) as [rec k]. etrans; [apply (stays_core cfg s k)|]. by apply server_deliver_stays. }
  destruct (Cmd f =? CMD_FIN); [by destruct (closeSession _ _ _)|].
  destruct (Cmd f =? CMD_MTU_PROBE); [destruct (mtuProbe cfg); [apply Hreply|done]|].
  destruct (Cmd f =? CMD_MTU_COMMIT); [apply applyMtuCommit_stays|done].
Qed.

Lemma handleIncoming_stays cfg s f a port e :
  orders_ok e → sameRemoteIP s a = true → stays cfg s (handleIncomingFrame cfg s f a port e).2.
Proof.
  intros Ho Ha. unfold handleIncomingFrame. rewrite Ha. cbn [negb]. destruct (_ =? CMD_DATA).
  - destruct (fecReceive _ _) as [rec k].
    pose proof (server_deliver_stays cfg (set_core (openMtuGate s) k) rec a port e Ho Ha) as H1.
    destruct (server_deliverRecoveredFEC _ _ _ _ _ _) as [out1 s1]. cbn [snd] in H1.
    assert (H1' : stays cfg s s1) by (etrans; [|exact H1]; by split).
    pose proof (handleDataFromPath_stays cfg s1 f a port e Ho (same_ip_stays _ _ _ _ H1' Ha)) as H2.
    destruct (handleDataFromPath _ _ _ _ _ _) as [[ok out2] s2]. by etrans.
  - assert (Hr : is_Some (raddr s)) by (unfold sameRemoteIP in Ha; by destruct (raddr s)).
    set (s1 := setPath _ _ _ _ _).
    assert (H1 : stays cfg s s1).
    { etrans; [apply (updateRemoteAddr_stays cfg s a false); by right|by apply setPath_stays]. }
    match goal with |- context [serverHandle cfg (set_core s1 ?c)] => set (c2 := c) end.
    pose proof (serverHandle_stays cfg (set_core s1 c2) f a port e Ho) as H2.
    assert (H1' : stays cfg s (set_core s1 c2)) by (etrans; [exact H1|apply stays_core]).
    specialize (H2 (same_ip_stays _ _ _ _ H1' Ha)).
    destruct (serverHandle _ _ _ _ _ _) as [out s3]. by etrans.
Qed.

(** * A frame from another address *)

Lemma challengeFor_spec s ip e :
  match challengeFor s ip e with
  | Some (tok, s') =>
      core s' = core s ∧ raddr s' = raddr s ∧ pathAddrs s' = pathAddrs s ∧ lastOrigPort s' = lastOrigPort s ∧
      token <$> pathChallenges s' !! ip = Some tok ∧
      (orders_ok e → challenges_bounded s → challenges_bounded s')
  | None => True
  end.
Proof.
  unfold challengeFor. set (m := filter _ (pathChallenges s)).
  assert (Hm : (size m ≤ size (pathChallenges s))%nat) by apply map_subseteq_size, map_filter_subseteq.
  destruct (m !! ip) as [p|] eqn:Hp.
  { cbn. rewrite Hp. split_and!; try done. intros _. unfold challenges_bounded. cbn. lia. }
  destruct (random e) as [tok|]; [|done]. cbn. rewrite lookup_insert_eq. split_and!; try done.
  intros [_ Ho]. unfold challenges_bounded, maxPathChallenges in *. cbn. intros Hb.
  destruct (Z.leb_spec 8 (Z.of_nat (size m))) as [H8|H8].
  - destruct (challengeOrder e m) as [|ip' rest] eqn:Hor.
    + assert (He : m = ∅). { apply map_empty. intros k. destruct (m !! k) eqn:Hk; [|done].
        assert (Hin : k ∈ challengeOrder e m) by (apply Ho; by eexists). rewrite Hor in Hin. by apply not_elem_of_nil in Hin. }
      rewrite He, map_size_insert_None, map_size_empty by apply lookup_empty. lia.
    + assert (Hin : is_Some (m !! ip')) by (apply Ho; rewrite Hor; by left).
      assert (Hd : size (delete ip' m) = pred (size m)) by by apply map_size_delete_Some.
      rewrite map_size_insert_None; [lia|]. destruct (decide (ip' = ip)) as [->|]; [apply lookup_delete_eq|by rewrite lookup_delete_ne].
  - rewrite map_size_insert_None by done. lia.
Qed.

Lemma acceptPathResponse_spec s a data e :
  let '(ok, s') := acceptPathResponse s a data e in
  raddr s' = raddr s ∧ pathAddrs s' = pathAddrs s ∧ core s' = core s ∧ (challenges_bounded s → challenges_bounded s') ∧
  (if ok then ∃ c, pathChallenges s !! a.1 = Some c ∧ data = token c ∧ now (base e) ≤ expires c ∧
                   pathChallenges s' = delete a.1 (pathChallenges s)
   else s' = s).
Proof.
  unfold acceptPathResponse. destruct (negb _); [done|]. destruct (pathChallenges s !! a.1) as [c|] eqn:Hc; [|done].
  destruct ((expires c <? _) || _) eqn:Hx; [done|]. apply orb_false_iff in Hx as [H1%Z.ltb_ge H2].
  apply negb_false_iff, bool_decide_eq_true in H2. split_and!; try done; [|by exists c].
  unfold challenges_bounded. cbn. rewrite map_size_delete, Hc. unfold id. lia.
Qed.

Lemma sendPathChallenge_spec s a port e :
  let s' := (sendPathChallenge s a port e).2 in
  raddr s' = raddr s ∧ pathAddrs s' = pathAddrs s ∧ lastOrigPort s' = lastOrigPort s ∧
  (orders_ok e → challenges_bounded s → challenges_bounded s').
Proof.
  unfold sendPathChallenge. pose proof (challengeFor_spec s a.1 e) as H.
  destruct (challengeFor s a.1 e) as [[tok s1]|].
  - destruct H as (_ & H2 & H3 & H4 & _ & H5). by destruct (sendControlTo _ _ _ _) as [[? ?] ?].
  - split_and!; try done. intros _. unfold challenges_bounded. cbn.
    match goal with |- context [filter ?P ?m] => assert ((size (filter P m) ≤ size m)%nat) by apply map_subseteq_size, map_filter_subseteq end. lia.
Qed.

(** * Replies that leave the stream alone *)

Definition quiet (s : session) (r : list output * session) : Prop :=
  unacked (arq r.2) = unacked (arq s) ∧ sendSeq (arq r.2) = sendSeq (arq s) ∧ len (wires r.1) ≤ 1 ∧
  (OutExhausted ∉ r.1 → deliv r.2 = deliv s ∧ sessClosed r.2 = sessClosed s).

Lemma quiet_nil s s' :
  arq s' = arq s → deliv s' = deliv s → sessClosed s' = sessClosed s → quiet s ([], s').
Proof. intros E1 E2 E3. unfold quiet. cbn. by rewrite E1. Qed.

Lemma quiet_from s s1 r :
  arq s1 = arq s → deliv s1 = deliv s → sessClosed s1 = sessClosed s → quiet s1 r → quiet s r.
Proof. intros E1 E2 E3 H. unfold quiet in *. by rewrite <- E1, <- E2, <- E3. Qed.

Lemma writeControl_view s f e :
  arq (writeControl s f e) = arq s ∧ deliv (writeControl s f e) = deliv s ∧
  sessClosed (writeControl s f e) = sessClosed s.
Proof. unfold writeControl. by destruct (_ || _). Qed.

Lemma sealControl_view s f :
  let s' := (sealControl s f).2 in
  arq s' = arq s ∧ deliv s' = deliv s ∧ sessClosed s' = sessClosed s.
Proof. unfold sealControl. destruct (_ =? 0); [done|]. by destruct (_ =? 0). Qed.

Lemma closeSession_arq s reason e :
  let r := closeSession s reason e in
  unacked (arq r.2) = unacked (arq s) ∧ sendSeq (arq r.2) = sendSeq (arq s) ∧ len (wires r.1) ≤ 1.
Proof.
  unfold closeSession. destruct (sessClosed s); [done|]. set (s1 := Session.set_arq _ _).
  destruct (isClient s1); [|done].
  pose proof (sealControl_view s1 (frameOf s1 CMD_FIN 0 0 0 [])) as (E & _).
  destruct (sealControl s1 _) as [[f w| |] s2]; cbn [snd fst] in *.
  - destruct (writeControl_view s2 f e) as (-> & _). by rewrite E.
  - by rewrite E.
  - by rewrite E.
Qed.

Lemma sendControlTo_quiet s f send e :
  (∀ w, wires [send w] = [w]) → quiet s ((sendControlTo s f send e).1.2, (sendControlTo s f send e).2).
Proof.
  intros Hsend. unfold sendControlTo. pose proof (sealControl_view s f) as (E1 & E2 & E3).
  destruct (sealControl s f) as [[g w| |] s2]; cbn [snd] in *.
  - destruct (writeControl_view s2 g e) as (F1 & F2 & F3). unfold quiet. cbn [fst snd].
    rewrite F1, F2, F3, E1, E2, E3. split_and!; try done.
    change (wires [OutSeal (PacketNo g); send w]) with (wires [send w]). by rewrite Hsend.
  - pose proof (closeSession_arq s2 exhausted_reason e) as (F1 & F2 & F3).
    destruct (closeSession s2 _ e) as [out s3]. unfold quiet. cbn [fst snd] in *.
    rewrite F1, F2, E1. split_and!; try done. intros Hx. destruct Hx. by left.
  - by apply quiet_nil.
Qed.

Lemma emitFeedback_quiet s a e : quiet s (emitFeedback s a e).
Proof.
  unfold emitFeedback, sendControl. pose proof (sendControlTo_quiet s (feedbackFrame s a) OutWrite e ltac:(done)) as H.
  by destruct (sendControlTo _ _ _ _) as [[? ?] ?].
Qed.

Lemma sendACK_quiet s a e : quiet s (sendACK s a e).
Proof.
  unfold sendACK. destruct (sessClosed s) eqn:Hc; [by apply quiet_nil|].
  match goal with |- context [let '(_, _) := ?x in _] => destruct x as [ack urgent] end.
  destruct (claim _ _ _ _ _) as [ok c]. destruct ok; [|by apply quiet_nil].
  eapply quiet_from; [| | |apply emitFeedback_quiet]; done.
Qed.

Lemma reack_quiet s e : quiet s (reackDuplicateData s e).
Proof. unfold reackDuplicateData. destruct (_ <? _); [apply sendACK_quiet|by apply quiet_nil]. Qed.

Lemma observeRemote_view s f :
  unacked (arq (observeRemote s f)) = unacked (arq s) ∧ sendSeq (arq (observeRemote s f)) = sendSeq (arq s) ∧
  deliv (observeRemote s f) = deliv s ∧ sessClosed (observeRemote s f) = sessClosed s.
Proof. unfold observeRemote. repeat case_match; done. Qed.

(** * Datagrams and the address *)

(** How far a datagram got. *)
Lemma serverReceive_cases cfg s w a port e :
  let r := serverReceive cfg s w a port e in
  r = (false, [], s) ∨
  ∃ f q, parseUDPCFrame w (smagic (core s)) = Ok f ∧ SessionID f = sid (core s) ∧
    OpenFrameAEADInto f (Recv (skeys (core s))) = Ok q ∧
    let c1 := Session.set_replay (core s) (Accept (replay (core s)) (PacketNo f)).2 in
    if (Accept (replay (core s)) (PacketNo f)).1 then
      let '(ok, out, s2) := handleIncomingFrame cfg (set_core s (observeRemote c1 (with_data f q))) (with_data f q) a port e in
      ∃ rf, r = (ok, out, set_core s2 (Session.set_replay (core s2) rf)) ∧ (ok = true → rf = replay (core s2))
    else
      r = (false, [], set_core s c1) ∨
      r = (false, (reackDuplicateData c1 (base e)).1, set_core s (reackDuplicateData c1 (base e)).2).
Proof.
  cbv zeta. unfold serverReceive. destruct (parseUDPCFrame w _) as [f|] eqn:Hf; [|by left].
  destruct (Z.eqb_spec (SessionID f) (sid (core s))) as [Hs|]; [|by left]. unfold processIncomingFrame.
  destruct (_ && _); [by left|]. destruct (negb _); [by left|].
  destruct (OpenFrameAEADInto f _) as [q|] eqn:Hq; [|by left]. right. exists f, q. split_and!; try done.
  cbv zeta. change (PacketNo (with_data f q)) with (PacketNo f).
  destruct (Accept _ (PacketNo f)) as [fresh rf]. cbn [fst snd].
  destruct fresh; cbn [negb].
  - set (s0 := set_core s _). destruct (handleIncomingFrame _ s0 _ _ _ _) as [[ok out] s2].
    assert (Hid : s2 = set_core s2 (Session.set_replay (core s2) (replay (core s2)))) by by destruct s2 as [[]].
    destruct ok; cbn [negb]; [exists (replay (core s2)); split; [by rewrite <- Hid|done]|].
    destruct (_ =? CMD_DATA).
    + eexists. split; [reflexivity|done].
    + exists (replay (core s2)). split; [by rewrite <- Hid|done].
  - destruct (_ =? CMD_DATA); [right|by left]. by destruct (reackDuplicateData _ _).
Qed.

(** Every datagram of [out] leaves from [port] for [a]. *)
Definition only_to (port : Z) (a : AddrPort) (out : list output) : Prop :=
  Forall (λ o, ∀ w, wire_of o = Some w → o = OutWriteTo port a w) out.

Lemma sendPathChallenge_quiet s a port e :
  let r := sendPathChallenge s a port e in
  quiet (core s) (r.1, core r.2) ∧ (OutExhausted ∉ r.1 → only_to port a r.1).
Proof.
  unfold sendPathChallenge. destruct (challengeFor s a.1 e) as [[tok s1]|] eqn:Hc; [|by split; [apply quiet_nil|constructor]].
  apply challengeFor_core in Hc. rewrite <- Hc.
  pose proof (sendControlTo_quiet (core s1) (frameOf (core s1) CMD_PATH_CHALLENGE 0 0 0 tok) (OutWriteTo port a)
    (base e) ltac:(done)) as H.
  assert (Ho : OutExhausted ∉ (sendControlTo (core s1) (frameOf (core s1) CMD_PATH_CHALLENGE 0 0 0 tok)
    (OutWriteTo port a) (base e)).1.2 → only_to port a (sendControlTo (core s1)
    (frameOf (core s1) CMD_PATH_CHALLENGE 0 0 0 tok) (OutWriteTo port a) (base e)).1.2).
  { unfold sendControlTo. destruct (sealControl _ _) as [[g w| |] c]; cbn [fst snd].
    - intros _. constructor; [done|]. constructor; [|constructor]. by intros w' [= ->].
    - destruct (closeSession _ _ _). intros Hx. destruct Hx. by left.
    - constructor. }
  by destruct (sendControlTo _ _ _ _) as [[? ?] ?].
Qed.

(** A frame from an address whose IP is not the session's. *)
Lemma handleIncoming_elsewhere cfg s f a port e :
  orders_ok e → sameRemoteIP s a = false → is_Some (raddr s) →
  let '(ok, out, s') := handleIncomingFrame cfg s f a port e in
  (challenges_bounded s → challenges_bounded s') ∧ (paths_bounded cfg s → paths_bounded cfg s') ∧
  if ok then
    raddr s' = Some a ∧ Cmd f = CMD_PATH_RESPONSE ∧
    ∃ c, pathChallenges s !! a.1 = Some c ∧ Data f = token c ∧ now (base e) ≤ expires c ∧
         pathChallenges s' = delete a.1 (pathChallenges s)
  else
    raddr s' = raddr s ∧ pathAddrs s' = pathAddrs s ∧ lastOrigPort s' = lastOrigPort s ∧
    quiet (core s) (out, core s') ∧ (OutExhausted ∉ out → only_to port a out).
Proof.
  intros Ho Ha Hr. unfold handleIncomingFrame. rewrite Ha. cbn [negb].
  destruct (if Cmd f =? CMD_PATH_RESPONSE then _ else _) as [ok s1] eqn:Hp.
  assert (H : (challenges_bounded s → challenges_bounded s1) ∧ raddr s1 = raddr s ∧ pathAddrs s1 = pathAddrs s ∧
    if ok then Cmd f = CMD_PATH_RESPONSE ∧ ∃ c, pathChallenges s !! a.1 = Some c ∧ Data f = token c ∧
      now (base e) ≤ expires c ∧ pathChallenges s1 = delete a.1 (pathChallenges s) else s1 = s).
  { destruct (Z.eqb_spec (Cmd f) CMD_PATH_RESPONSE) as [Hc|]; [|by injection Hp as <- <-].
    pose proof (acceptPathResponse_spec s a (Data f) e) as H. rewrite Hp in H.
    destruct H as (H1 & H2 & H3 & H4 & H5). split_and!; try done. by destruct ok. }
  destruct H as (H1 & H2 & H3 & H4). destruct ok.
  - destruct H4 as (Hc & c & Hc1 & Hc2 & Hc3 & Hc4).
    set (s2 := updateRemoteAddr s1 a true).
    assert (Hs2 : raddr s2 = Some a ∧ pathChallenges s2 = pathChallenges s1 ∧ pathAddrs s2 = pathAddrs s1).
    { unfold s2, updateRemoteAddr. destruct (raddr s1) as [r|] eqn:E; [|done].
      destruct (decide (r = a)) as [->|Hne]; [by rewrite bool_decide_eq_true_2|].
      rewrite bool_decide_eq_false_2 by done. by rewrite andb_false_r. }
    pose proof (setPath_stays cfg s2 port a e Ho) as [P1 P2 P3].
    destruct Hs2 as (R1 & R2 & R3). cbn [set_core raddr pathChallenges].
    split_and!.
    + intros Hb. specialize (H1 Hb). unfold challenges_bounded in *. cbn. by rewrite P2, R2.
    + intros Hb. unfold paths_bounded in *. cbn. apply P3. by rewrite R3, H3.
    + assert (Hra : raddr (setPath cfg s2 port a e) = raddr s2).
      { unfold setPath. destruct (_ <=? _); [done|]. by destruct (_ && _). }
      by rewrite Hra.
    + done.
    + exists c. by rewrite P2, R2.
  - subst s1. pose proof (sendPathChallenge_spec s a port e) as (Q1 & Q2 & Q3 & Q4).
    pose proof (sendPathChallenge_quiet s a port e) as Q5.
    destruct (sendPathChallenge s a port e) as [out s2]. cbn [fst snd] in *. destruct Q5 as [Q5 Q6].
    split_and!; try done; [by apply Q4|]. unfold paths_bounded. by rewrite Q2.
Qed.

(** What any datagram does to the addresses. *)
Lemma serverReceive_book cfg s w a port e :
  orders_ok e → is_Some (raddr s) →
  let s' := (serverReceive cfg s w a port e).2 in
  is_Some (raddr s') ∧ (challenges_bounded s → challenges_bounded s') ∧
  (paths_bounded cfg s → paths_bounded cfg s').
Proof.
  intros Ho Hr. cbv zeta.
  destruct (serverReceive_cases cfg s w a port e) as [-> | (f & q & _ & _ & _ & H)]; [done|].
  destruct (Accept _ _) as [fresh rf]. cbn [fst snd] in H.
  destruct fresh; [|by destruct H as [-> | ->]].
  set (c1 := observeRemote _ _) in H. set (s0 := set_core s c1) in H.
  destruct (sameRemoteIP s0 a) eqn:Ha.
  - pose proof (handleIncoming_stays cfg s0 (with_data f q) a port e Ho Ha) as [P1 P2 P3].
    destruct (handleIncomingFrame _ _ _ _ _ _) as [[ok out] s2]. destruct H as (rf2 & -> & _). cbn in *.
    split_and!; [|intros Hb; unfold challenges_bounded in *; cbn; by rewrite P2|exact P3].
    destruct Hr as [r Hr]. rewrite Hr in P1. by destruct (raddr s2).
  - pose proof (handleIncoming_elsewhere cfg s0 (with_data f q) a port e Ho Ha Hr) as P.
    destruct (handleIncomingFrame _ _ _ _ _ _) as [[ok out] s2]. destruct H as (rf2 & -> & _). cbn.
    destruct P as (P1 & P2 & P3). split_and!; [|exact P1|exact P2].
    destruct ok; [destruct P3 as (-> & _)|destruct P3 as (-> & _)]; [by eexists|exact Hr].
Qed.

(** C17: (safety) A session moves to another IP only through a return-routability check: if a
    datagram from [a] changes the IP of the client's address, that datagram was an
    authentic, not yet seen PATH_RESPONSE of this session carrying the unexpired
    token challenged for [a]'s IP; the token is spent and the address is [a]. *)
Theorem migration_authenticated cfg s w a port e r :
  orders_ok e → raddr s = Some r →
  let '(ok, out, s') := serverReceive cfg s w a port e in
  fst <$> raddr s' = Some r.1 ∨
  ok = true ∧ raddr s' = Some a ∧
  ∃ f q c, parseUDPCFrame w (smagic (core s)) = Ok f ∧ SessionID f = sid (core s) ∧
    OpenFrameAEADInto f (Recv (skeys (core s))) = Ok q ∧ Cmd f = CMD_PATH_RESPONSE ∧
    (Accept (replay (core s)) (PacketNo f)).1 = true ∧
    pathChallenges s !! a.1 = Some c ∧ q = token c ∧ now (base e) ≤ expires c ∧
    pathChallenges s' !! a.1 = None.
Proof.
  intros Ho Hr. destruct (serverReceive_cases cfg s w a port e) as [-> | (f & q & Hf & Hs & Hq & H)].
  { left. by rewrite Hr. }
  destruct (Accept _ _) as [fresh rf] eqn:Hacc. cbn [fst snd] in H.
  destruct fresh; [|destruct H as [-> | ->]; left; cbn; by rewrite Hr].
  set (c1 := observeRemote _ _) in H. set (s0 := set_core s c1) in H.
  destruct (sameRemoteIP s0 a) eqn:Ha.
  - pose proof (handleIncoming_stays cfg s0 (with_data f q) a port e Ho Ha) as [P1 _ _].
    destruct (handleIncomingFrame _ _ _ _ _ _) as [[ok out] s2]. destruct H as (rf2 & -> & _). left.
    cbn in *. by rewrite P1, Hr.
  - pose proof (handleIncoming_elsewhere cfg s0 (with_data f q) a port e Ho Ha ltac:(by eexists)) as P.
    destruct (handleIncomingFrame _ _ _ _ _ _) as [[ok out] s2]. destruct H as (rf2 & -> & _). cbn [set_core raddr pathChallenges].
    destruct P as (_ & _ & P3). destruct ok.
    + right. destruct P3 as (P1 & P2 & c & P3 & P4 & P5 & P6). split_and!; [done|done|].
      exists f, q, c. split_and!; try done; [by rewrite Hacc|]. rewrite P6. apply lookup_delete_eq.
    + left. destruct P3 as (-> & _). cbn. by rewrite Hr.
Qed.

(** Until it is validated, another IP can do nothing to a session: a datagram from
    there that is not such a response leaves the route, the delivered and buffered
    data, the outstanding records and the open state as they were, and sends at
    most one datagram, a challenge to where it came from (or, for a replayed
    record, an acknowledgement to the known address). *)
Theorem unvalidated_path_inert cfg s w a port e r :
  orders_ok e → raddr s = Some r → r.1 ≠ a.1 →
  let '(ok, out, s') := serverReceive cfg s w a port e in
  ok = false →
  raddr s' = raddr s ∧ pathAddrs s' = pathAddrs s ∧ lastOrigPort s' = lastOrigPort s ∧
  unacked (arq (core s')) = unacked (arq (core s)) ∧ sendSeq (arq (core s')) = sendSeq (arq (core s)) ∧
  len (wires out) ≤ 1 ∧
  (OutExhausted ∉ out → deliv (core s') = deliv (core s) ∧ sessClosed (core s') = sessClosed (core s)).
Proof.
  intros Ho Hr Hip. destruct (serverReceive_cases cfg s w a port e) as [-> | (f & q & Hf & Hs & Hq & H)]; [done|].
  destruct (Accept _ _) as [fresh rf]. cbn [fst snd] in H. set (c0 := Session.set_replay (core s) rf) in H.
  destruct fresh.
  - set (c1 := observeRemote c0 _) in H. set (s0 := set_core s c1) in H.
    assert (Ha : sameRemoteIP s0 a = false).
    { unfold sameRemoteIP. cbn. rewrite Hr. by apply bool_decide_eq_false_2. }
    pose proof (handleIncoming_elsewhere cfg s0 (with_data f q) a port e Ho Ha ltac:(by eexists)) as P.
    destruct (handleIncomingFrame _ _ _ _ _ _) as [[ok out] s2]. destruct H as (rf2 & -> & _). intros ->.
    destruct P as (_ & _ & P1 & P2 & P3 & (Q1 & Q2 & Q3 & Q4) & _).
    destruct (observeRemote_view c0 (with_data f q)) as (V1 & V2 & V3 & V4). fold c1 in V1, V2, V3, V4.
    cbn [fst snd set_core core s0 raddr pathAddrs lastOrigPort Session.set_replay arq deliv sessClosed] in *.
    rewrite Q1, Q2, V1, V2. split_and!; try done. intros Hx. destruct (Q4 Hx) as [-> ->]. by rewrite V3, V4.
  - destruct H as [-> | ->]; [done|]. intros _.
    destruct (reack_quiet c0 (base e)) as (Q1 & Q2 & Q3 & Q4). cbn [set_core core raddr pathAddrs lastOrigPort].
    by split_and!.
Qed.


(** Retransmission has a horizon of packet numbers, not of DATA records: a resent
    datagram keeps the packet number of the first attempt, and once the receiver has
    accepted any record - data, parity or control - 4096 numbers later, no copy of
    it can advance the stream again: it is refused as a replay and leaves the
    delivery state as it was. *)
Theorem late_retransmission_refused cfg s w a port e f :
  parseUDPCFrame w (smagic (core s)) = Ok f → seenMax (replay (core s)) = true →
  PacketNo f + replayWindowPackets ≤ maxSeq (replay (core s)) →
  let '(ok, out, s') := serverReceive cfg s w a port e in
  ok = false ∧ unacked (arq (core s')) = unacked (arq (core s)) ∧
  (OutExhausted ∉ out → deliv (core s') = deliv (core s)).
Proof.
  intros Hf Hseen Hold.
  assert (Hacc : Accept (replay (core s)) (PacketNo f) = (false, replay (core s))).
  { unfold Accept, acceptLocked. destruct (_ =? 0); [done|]. rewrite Hseen. cbn [negb].
    unfold replayWindowPackets in *. destruct (Z.ltb_spec (maxSeq (replay (core s))) (PacketNo f)); [lia|].
    destruct (Z.leb_spec 4096 (maxSeq (replay (core s)) - PacketNo f)); [done|lia]. }
  destruct (serverReceive_cases cfg s w a port e) as [-> | (f' & q & Hf' & Hs & Hq & H)]; [done|].
  assert (f' = f) as -> by congruence. rewrite Hacc in H. cbn [fst snd] in H.
  set (c0 := Session.set_replay (core s) _) in H. destruct H as [-> | ->]; [done|].
  destruct (reack_quiet c0 (base e)) as (Q1 & _ & _ & Q4). split_and!; [done|done|]. by intros [? _]%Q4.
Qed.

(** Over any run of the server's session - datagrams from anywhere, timers, sends,
    close - it never remembers more than eight outstanding path challenges nor more
    reply paths than the socket pool's limit (one, if that is zero). *)
Theorem address_tables_bounded cfg h xs :
  Forall (λ '(_, e), orders_ok e) xs → is_Some (raddr (srv h)) →
  challenges_bounded (srv h) → paths_bounded cfg (srv h) →
  let h' := (runs (serverStep cfg) h xs).2 in
  challenges_bounded (srv h') ∧ paths_bounded cfg (srv h').
Proof.
  intros Hxs. revert h. induction Hxs as [|[x e] xs He _ IH]; intros h Hr H1 H2; simpl; [done|].
  destruct (serverStep cfg h x e) as [o h1] eqn:Hstep.
  assert (H : is_Some (raddr (srv h1)) ∧ challenges_bounded (srv h1) ∧ paths_bounded cfg (srv h1)).
  { destruct x as [w a port|c]; cbn in Hstep.
    - destruct (serverReceive_book cfg (srv h) w a port e He Hr) as (B1 & B2 & B3).
      destruct (serverReceive _ _ _ _ _ _) as [[ok out] s]. injection Hstep as _ <-. by auto.
    - destruct (doCall _ _ _) as [out k]. by injection Hstep as _ <-. }
  destruct H as (K1 & K2 & K3). specialize (IH h1 K1 K2 K3).
  by destruct (runs (serverStep cfg) h1 xs).
Qed.

End WithInterfaces.

(** * Witnesses *)

Section Witnesses.
#[local] Existing Instance toy_crypto.
#[local] Existing Instance xor_code.

Lemma toy_orders_ok t : orders_ok (toy_senv t).
Proof.
  split; intros m k; cbn; rewrite list_elem_of_fmap; split.
  - intros ([k' p] & -> & Hp%elem_of_map_to_list). by eexists.
  - intros [p Hp]. exists (k, p). by rewrite elem_of_map_to_list.
  - intros ([k' p] & -> & Hp%elem_of_map_to_list). by eexists.
  - intros [p Hp]. exists (k, p). by rewrite elem_of_map_to_list.
Qed.

Definition elsewhere : AddrPort := (str "198.51.100.7", 5000).

(** A ping of the client from another address; and a session that has challenged
    that address, with the answer it gets. *)
Definition demo_ping : bytes :=
  nth 0 (wires (sendControl (toy_session true) (frameOf (toy_session true) CMD_PING 0 0 0 []) (toy_env 5)).1.2) [].
Definition demo_challenged : serverSession :=
  set_challenges (srv toy_server) {[ elsewhere.1 := mkChallenge (repeat 5 16) 1000 ]}.
Definition demo_response : bytes :=
  nth 0 (wires (sendControl (toy_session true)
    (frameOf (toy_session true) CMD_PATH_RESPONSE 0 0 0 (repeat 5 16)) (toy_env 5)).1.2) [].

Lemma migration_authenticated_witness :
  let '(ok, out, s') := serverReceive toy_cfg demo_challenged demo_response elsewhere 443 (toy_senv 30) in
  raddr demo_challenged = Some toy_remote ∧ raddr s' = Some elsewhere ∧
  ∃ f q c, parseUDPCFrame demo_response (smagic (core demo_challenged)) = Ok f ∧
    SessionID f = sid (core demo_challenged) ∧
    OpenFrameAEADInto f (Recv (skeys (core demo_challenged))) = Ok q ∧ Cmd f = CMD_PATH_RESPONSE ∧
    (Accept (replay (core demo_challenged)) (PacketNo f)).1 = true ∧
    pathChallenges demo_challenged !! elsewhere.1 = Some c ∧ q = token c ∧ 30 ≤ expires c ∧
    pathChallenges s' !! elsewhere.1 = None.
Proof.
  assert (Hm : raddr (serverReceive toy_cfg demo_challenged demo_response elsewhere 443 (toy_senv 30)).2 = Some elsewhere)
    by (vm_compute; reflexivity).
  pose proof (migration_authenticated toy_cfg demo_challenged demo_response elsewhere 443 (toy_senv 30)
    toy_remote (toy_orders_ok 30) eq_refl) as H.
  destruct (serverReceive toy_cfg demo_challenged demo_response elsewhere 443 (toy_senv 30)) as [[ok out] s'].
  cbn [snd] in Hm. split; [reflexivity|split; [exact Hm|]].
  destruct H as [H|(_ & _ & H)]; [|exact H]. exfalso. rewrite Hm in H. vm_compute in H. discriminate H.
Defined.

Lemma unvalidated_path_inert_witness :
  let '(ok, out, s') := serverReceive toy_cfg (srv toy_server) demo_ping elsewhere 443 (toy_senv 10) in
  ok = false ∧ raddr s' = Some toy_remote ∧ len (wires out) ≤ 1.
Proof.
  assert (Hok : (serverReceive toy_cfg (srv toy_server) demo_ping elsewhere 443 (toy_senv 10)).1.1 = false)
    by (vm_compute; reflexivity).
  assert (Hip : toy_remote.1 ≠ elsewhere.1) by (vm_compute; discriminate).
  pose proof (unvalidated_path_inert toy_cfg (srv toy_server) demo_ping elsewhere 443 (toy_senv 10)
    toy_remote (toy_orders_ok 10) eq_refl Hip) as H.
  destruct (serverReceive toy_cfg (srv toy_server) demo_ping elsewhere 443 (toy_senv 10)) as [[ok out] s'].
  cbn [fst snd] in *. destruct (H Hok) as (H1 & _ & _ & _ & _ & H2 & _).
  split; [exact Hok|split; [exact H1|exact H2]].
Defined.


Definition demo_late : serverSession :=
  set_core (srv toy_server) (Session.set_replay (core (srv toy_server)) (Accept newReplayFilter 5000).2).
Definition demo_record : bytes :=
  nth 0 (wires (sendRecord (toy_session true) (str "late") (toy_env 5)).1.2) [].

Lemma late_retransmission_refused_witness :
  let '(ok, out, s') := serverReceive toy_cfg demo_late demo_record toy_remote 443 (toy_senv 10) in
  ok = false ∧ unacked (arq (core s')) = unacked (arq (core demo_late)).
Proof.
  assert (Hf : ∃ f, parseUDPCFrame demo_record UDPC_MAGIC_DEFAULT = Ok f ∧ PacketNo f = 1 ∧ Cmd f = CMD_DATA).
  { eexists. split; [vm_compute; reflexivity|split; reflexivity]. }
  destruct Hf as (f & Hf & Hn & _).
  assert (Hm : PacketNo f + replayWindowPackets ≤ maxSeq (replay (core demo_late)))
    by (rewrite Hn; vm_compute; discriminate).
  pose proof (late_retransmission_refused toy_cfg demo_late demo_record toy_remote 443 (toy_senv 10) f Hf eq_refl Hm) as H.
  destruct (serverReceive toy_cfg demo_late demo_record toy_remote 443 (toy_senv 10)) as [[ok out] s'].
  destruct H as (H1 & H2 & _). exact (conj H1 H2).
Defined.

Lemma address_tables_bounded_witness :
  let h' := (runs (serverStep toy_cfg) toy_server [(Receive demo_ping elsewhere 443, toy_senv 10)]).2 in
  challenges_bounded (srv h') ∧ paths_bounded toy_cfg (srv h').
Proof.
  apply (address_tables_bounded toy_cfg toy_server [(Receive demo_ping elsewhere 443, toy_senv 10)]).
  - constructor; [apply toy_orders_ok|constructor].
  - by eexists.
  - by vm_compute.
  - by vm_compute.
Defined.

End Witnesses.
