(* ===== verification/Mtu.v ===== *)
(** Record size: the configured budget (src/tunnel/mtu.go) and the client's probing
    of the path (src/tunnel/mtuprobe.go).

    A probe's surroundings - the random identifier, the echoes that reach its
    channel before the timeout, whether the session was closed meanwhile - are a
    value of [probe]; the walk of a ladder reads them from a stream indexed by the
    probes made so far.  Contexts never fire: [convergeFrameBudget] strips the
    dial's cancellation and the idle re-probe uses the background context.  Log
    lines are not modelled. *)
From S2P Require Import Prelude GoStrings Protocol F64 Rtt FecLoss FecWire Erasure FecBlock FecSender FecReceiver Replay Delivery AckCoalesce Flow Sack Arq Session ClientSession ServerSession Endpoint FecLink Actions.
Local Open Scope Z_scope.

(** * The configured budget *)

Definition ipv4DatagramOverhead : Z := 28.
Definition ipv6DatagramOverhead : Z := 48.
Definition pathMTUCheckpoints : list Z := [1500; 1492; 1420; 1280; 576].

Definition resolveMaxPkt (configured : Z) : Z :=
  if configured =? 0 then maxPktCeiling
  else if configured <? 0 then maxPktCeiling
  else if configured <? maxPktFloor then maxPktFloor
  else if maxPktCeiling <? configured then maxPktCeiling
  else configured.

Definition describeMaxPkt (maxPkt : Z) : bytes :=
  let v4 := maxPkt + ipv4DatagramOverhead in
  str "max_pkt=" ++ Itoa maxPkt ++ str " payload=" ++ Itoa (payloadCap maxPkt) ++
  str " -> IPv4 datagram " ++ Itoa v4 ++ str " B, IPv6 " ++ Itoa (maxPkt + ipv6DatagramOverhead) ++
  str " B |" ++
  concat (map (λ mtu, str " " ++ Itoa mtu ++ if v4 <=? mtu then str ":ok" else str ":over")
    pathMTUCheckpoints).

(** * The ladder *)

Definition mtuProbeCacheTTL : Z := 10 * 60 * second.
Definition mtuProbeFloor : Z := 548.
Definition weakNetworkMtuFallback : Z := mtuProbeFloor.
Definition mtuCommitSends : nat := 2.
Definition mtuReprobeInterval : Z := 30 * second.
Definition defaultProbeAttempts : nat := 2.
Definition mtuProbeLadder : list Z := [1450; 1392; 1200; 1000; 800; mtuProbeFloor].

Definition mtuLadderFor (ceiling : Z) : list Z :=
  ceiling :: filter (λ v, v < ceiling) mtuProbeLadder.

Definition mtuProbeEnabled (p : option bool) : bool := match p with None => true | Some b => b end.

Definition conservativeMtuFallback (ceiling : Z) : Z :=
  if ceiling <=? weakNetworkMtuFallback then ceiling else weakNetworkMtuFallback.

Definition mtuInitialCap (maxPkt : Z) : Z := if maxPkt <=? mtuProbeFloor then maxPkt else mtuProbeFloor.
Definition mtuStartCap (maxPkt : Z) (probe : bool) : Z := if negb probe then maxPkt else mtuInitialCap maxPkt.

Definition clampMtuCap (n maxPkt : Z) : Z :=
  if n <? mtuInitialCap maxPkt then mtuInitialCap maxPkt else if maxPkt <? n then maxPkt else n.

Definition lowerSendCap (cur n : Z) : Z := if cur <=? n then cur else n.
Definition raiseSendCap (cur n : Z) : Z := if n <=? cur then cur else n.

Fixpoint largestRungBelow (ladder : list Z) (cur : Z) : Z :=
  match ladder with
  | [] => 0
  | v :: ladder => if v <? cur then v else largestRungBelow ladder cur
  end.

Fixpoint nextLadderRungAbove_from (prev : Z) (ladder : list Z) (cur : Z) : Z :=
  match ladder with
  | [] => prev
  | v :: ladder => if v <=? cur then prev else nextLadderRungAbove_from v ladder cur
  end.
Definition nextLadderRungAbove : list Z → Z → Z := nextLadderRungAbove_from 0.

(** * The cache *)

Record mtuProbeCache := mkProbeCache { cached : Z; cachedAt : Z; generation : Z }.

Definition getFor (m : mtuProbeCache) (gen now : Z) : Z :=
  if negb (generation m =? gen) then 0
  else if (0 <? cached m) && (now - cachedAt m <? mtuProbeCacheTTL) then cached m else 0.

Definition storeFor (m : mtuProbeCache) (n gen now : Z) : mtuProbeCache := mkProbeCache n now gen.

(** [get] and [store] keep the generation they find. *)
Definition get (m : mtuProbeCache) (now : Z) : Z := getFor m (generation m) now.
Definition store (m : mtuProbeCache) (n now : Z) : mtuProbeCache := storeFor m n (generation m) now.

(** * Probing *)

Record probe := mkProbe {
  probeEnv : env;
  probeID : option bytes;        (* rand.Read *)
  echoes : bytes → list bytes;   (* what arrives before the deadline, given the payload sent *)
  closedBefore : bool;           (* isClosed at the top of the rung *)
}.

Definition probe_ok (p : probe) : Prop :=
  match probeID p with Some id => len id = mtuProbeIDSize ∧ Forall is_byte id | None => True end.

Section WithInterfaces.
Context {C : Crypto} {RS : ReedSolomon}.

Definition echoMatches (payload got : bytes) : bool :=
  (len got =? len payload) && bool_decide (slice 0 mtuProbeIDSize got = slice 0 mtuProbeIDSize payload).

Definition probeOnce (s : session) (size : Z) (p : probe) : bool * list output * session :=
  let cap := size - UDPC_HDR_SIZE - UDPC_TRAILER_SIZE in
  if (cap <? mtuProbeIDSize) || (mtuProbeMaxPayload <? cap) then (false, [], s) else
  match probeID p with
  | None => (false, [], s)
  | Some id =>
      let payload := id ++ zeros (cap - mtuProbeIDSize) in
      let '(ok, out, s) := sendControl s (frameOf s CMD_MTU_PROBE 0 0 0 payload) (probeEnv p) in
      (ok && existsb (echoMatches payload) (echoes p payload), out, s)
  end.

Fixpoint sendTimes (n : nat) (s : session) (f : UDPCFrame) (e : env) : list output * session :=
  match n with
  | O => ([], s)
  | S n =>
      let '(ok, out, s) := sendControl s f e in
      if negb ok then (out, s) else let '(outs, s) := sendTimes n s f e in (out ++ outs, s)
  end.

Definition sendMtuCommit (s : session) (size : Z) (e : env) : list output * session :=
  if (size <=? 0) || (maxPktCeiling <? size) then ([], s)
  else sendTimes mtuCommitSends s (frameOf s CMD_MTU_COMMIT 0 0 0 (be_bytes 2 (u16 size))) e.

(** A walk: the number of probes made, the outputs so far and the session. *)
Definition walk := (nat * list output * session)%type.

Definition probeAt (w : nat → probe) (size : Z) (k : walk) : bool * walk :=
  let '(i, out, s) := k in
  let '(ok, o, s) := probeOnce s size (w i) in (ok, (S i, out ++ o, s)).

Fixpoint probeAttempts (n : nat) (w : nat → probe) (size : Z) (k : walk) : bool * walk :=
  match n with
  | O => (false, k)
  | S n => let '(ok, k) := probeAt w size k in if ok then (true, k) else probeAttempts n w size k
  end.

(** The rungs in order, [attempts] times each; 0 when none answers. *)
Fixpoint probePath (attempts : nat) (w : nat → probe) (ladder : list Z) (k : walk) : Z * walk :=
  match ladder with
  | [] => (0, k)
  | size :: ladder =>
      if closedBefore (w k.1.1) then (0, k) else
      let '(ok, k) := probeAttempts attempts w size k in
      if ok then (size, k) else probePath attempts w ladder k
  end.

(** * The send cap *)

(** A session's cap, the client's cache, and the sizes handed to [sendMtuCommit]. *)
Record capState := mkCap { sendCap : Z; cache : mtuProbeCache; commits : list Z }.

Definition commit (st : capState) (n : Z) (k : walk) (e : env) : capState * walk :=
  let '(i, out, s) := k in
  let '(o, s) := sendMtuCommit s n e in (mkCap (sendCap st) (cache st) (commits st ++ [n]), (i, out ++ o, s)).

Definition set_cap (st : capState) (n : Z) : capState := mkCap n (cache st) (commits st).

(** [convergeFrameBudget], up to starting the idle re-probe; [gen] is the dialer's
    generation. *)
Definition convergeFrameBudget (enabled : option bool) (maxPkt gen : Z) (attempts : nat)
    (w : nat → probe) (st : capState) (k : walk) (e : env) : capState * walk :=
  if negb (mtuProbeEnabled enabled) then commit st maxPkt k e else
  let '(st, k) := commit (set_cap st (mtuInitialCap maxPkt)) (mtuInitialCap maxPkt) k e in
  let '(n, st, k) :=
    let n := getFor (cache st) gen (now e) in
    if n =? 0 then
      let '(n, k) := probePath attempts w (mtuLadderFor maxPkt) k in
      if 0 <? n then (n, mkCap (sendCap st) (storeFor (cache st) n gen (now e)) (commits st), k)
      else (conservativeMtuFallback maxPkt, st, k)
    else (n, st, k) in
  let n := clampMtuCap n maxPkt in
  if n =? sendCap st then (st, k) else commit (set_cap st n) n k e.

Definition tryRaiseOneRung (maxPkt : Z) (ladder : list Z) (cur : Z) (w : nat → probe)
    (st : capState) (k : walk) (e : env) : capState * walk :=
  let next := nextLadderRungAbove ladder cur in
  if (next <=? 0) || (maxPkt <? next) then (st, k) else
  let '(ok, k) := probeAt w next k in
  if ok then commit (set_cap st (raiseSendCap (sendCap st) next)) next k e else (st, k).

(** The walk down: the rung that answered, or the last one tried. *)
Fixpoint walkDown (fuel : nat) (floor : Z) (ladder : list Z) (below : Z) (w : nat → probe) (k : walk) : Z * walk :=
  match fuel with
  | O => (below, k)
  | S fuel =>
      if (0 <? below) && (floor <? below) then
        let '(ok, k) := probeAt w below k in
        if ok then (below, k) else walkDown fuel floor ladder (largestRungBelow ladder below) w k
      else (below, k)
  end.

(** [reprobeIdleTick]; [lastActivity] is that of the session. *)
Definition reprobeIdleTick (maxPkt : Z) (ladder : list Z) (lastActivity : Z) (w : nat → probe)
    (st : capState) (k : walk) (e : env) : capState * walk :=
  if now e - lastActivity <? Z.quot mtuReprobeInterval 2 then (st, k) else
  let floor := mtuInitialCap maxPkt in
  let cur := sendCap st in
  if floor <? cur then
    let '(ok, k) := probeAt w cur k in
    if ok then tryRaiseOneRung maxPkt ladder cur w st k e
    else
      let '(below, k) := walkDown (S (length ladder)) floor ladder (largestRungBelow ladder cur) w k in
      let target := if below <=? 0 then floor else below in
      if target <? cur then commit (set_cap st (lowerSendCap (sendCap st) target)) target k e else (st, k)
  else tryRaiseOneRung maxPkt ladder cur w st k e.

End WithInterfaces.

(** * Probing and the ladder *)

Lemma first_rung maxPkt : maxPktFloor ≤ maxPkt →
  mtuInitialCap maxPkt ≤ maxPkt ∧ 0 < mtuInitialCap maxPkt ∧
  Forall (λ r, mtuInitialCap maxPkt ≤ r ≤ maxPkt) (mtuLadderFor maxPkt).
Proof.
  unfold maxPktFloor, UDPC_HDR_SIZE, UDPC_TRAILER_SIZE, mtuInitialCap, mtuProbeFloor. intros Hm.
  split_and!; [destruct (Z.leb_spec maxPkt 548); lia..|].
  constructor; [destruct (Z.leb_spec maxPkt 548); lia|].
  apply Forall_forall. intros r [Hr Hin]%list_elem_of_filter.
  repeat (apply elem_of_cons in Hin as [->|Hin]; [destruct (Z.leb_spec maxPkt 548); unfold mtuProbeFloor in *; lia|]).
  by apply not_elem_of_nil in Hin.
Qed.

Lemma largestRungBelow_spec ladder cur :
  largestRungBelow ladder cur = 0 ∨ largestRungBelow ladder cur ∈ ladder ∧ largestRungBelow ladder cur < cur.
Proof.
  induction ladder as [|v ladder IH]; simpl; [by left|]. destruct (Z.ltb_spec v cur); [right; split; [by left|done]|].
  destruct IH as [->|[H1 H2]]; [by left|right]. split; [by right|done].
Qed.

Lemma nextRung_spec ladder prev cur :
  (prev = 0 ∨ cur < prev) → let n := nextLadderRungAbove_from prev ladder cur in n = prev ∨ n ∈ ladder ∧ cur < n.
Proof.
  revert prev. induction ladder as [|v ladder IH]; intros prev Hp; simpl; [by left|].
  destruct (Z.leb_spec v cur); [by left|]. destruct (IH v) as [->|[H1 H2]]; [by right|..].
  - right. split; [by left|done].
  - right. split; [by right|done].
Qed.

Section Caps.
Context {C : Crypto} {RS : ReedSolomon}.

Definition in_caps (maxPkt n : Z) : Prop := mtuInitialCap maxPkt ≤ n ≤ maxPkt.
Definition caps_ok (maxPkt : Z) (st : capState) : Prop :=
  in_caps maxPkt (sendCap st) ∧ Forall (in_caps maxPkt) (commits st).

Lemma commit_caps maxPkt st n k e :
  caps_ok maxPkt st → in_caps maxPkt n → caps_ok maxPkt (commit st n k e).1.
Proof.
  intros [H1 H2] Hn. unfold commit. destruct k as [[i out] s]. destruct (sendMtuCommit s n e) as [o s'].
  split; [done|]. apply Forall_app. split; [done|by constructor].
Qed.

Lemma set_cap_caps maxPkt st n : caps_ok maxPkt st → in_caps maxPkt n → caps_ok maxPkt (set_cap st n).
Proof. by intros [_ H2]. Qed.

Lemma clamp_caps maxPkt n : maxPktFloor ≤ maxPkt → in_caps maxPkt (clampMtuCap n maxPkt).
Proof.
  intros Hm. destruct (first_rung maxPkt Hm) as (H1 & _). unfold clampMtuCap, in_caps.
  destruct (Z.ltb_spec n (mtuInitialCap maxPkt)); [lia|]. destruct (Z.ltb_spec maxPkt n); lia.
Qed.

Lemma tryRaise_caps maxPkt w st k e :
  maxPktFloor ≤ maxPkt → caps_ok maxPkt st →
  caps_ok maxPkt (tryRaiseOneRung maxPkt (mtuLadderFor maxPkt) (sendCap st) w st k e).1.
Proof.
  intros Hm Hst. unfold tryRaiseOneRung. destruct (_ || _) eqn:Hg; [done|].
  apply orb_false_iff in Hg as [G1%Z.leb_gt G2%Z.ltb_ge].
  destruct (probeAt w _ k) as [ok k']. destruct ok; [|done].
  destruct (nextRung_spec (mtuLadderFor maxPkt) 0 (sendCap st)) as [E|[Hin Hlt]]; [by left| |].
  { unfold nextLadderRungAbove in G1. lia. }
  unfold nextLadderRungAbove in *. set (n := nextLadderRungAbove_from 0 _ _) in *.
  replace (raiseSendCap (sendCap st) n) with n.
  - destruct (first_rung maxPkt Hm) as (_ & _ & Hall). rewrite Forall_forall in Hall.
    apply commit_caps; [apply set_cap_caps; [done|]|]; by apply Hall.
  - unfold raiseSendCap. by destruct (Z.leb_spec n (sendCap st)); [lia|].
Qed.

(** The walk down stops at a rung that answered, at one not above the floor, or
    with nothing below. *)
Lemma walkDown_spec fuel floor ladder below w k :
  (below = 0 ∨ below ∈ ladder) → (0 < fuel)%nat →
  let b := (walkDown fuel floor ladder below w k).1 in b = 0 ∨ b ∈ ladder ∧ b ≤ below.
Proof.
  revert below k. induction fuel as [|fuel IH]; intros below k Hb Hf; [lia|]. cbn [walkDown].
  destruct (_ && _) eqn:Hg; [|destruct Hb; [by left|by right]].
  apply andb_true_iff in Hg as [G1%Z.ltb_lt G2%Z.ltb_lt].
  destruct (probeAt w below k) as [ok k']. destruct ok; [destruct Hb; [lia|by right]|].
  destruct (largestRungBelow_spec ladder below) as [E|[E1 E2]].
  - rewrite E. left. destruct fuel; [done|]. by cbn.
  - destruct fuel as [|fuel]; [right; split; [done|cbn; lia]|].
    destruct (IH (largestRungBelow ladder below) k' ltac:(by right) ltac:(lia)) as [?|[??]]; [by left|right; split; [done|lia]].
Qed.

Lemma tick_caps maxPkt la w st k e :
  maxPktFloor ≤ maxPkt → caps_ok maxPkt st →
  caps_ok maxPkt (reprobeIdleTick maxPkt (mtuLadderFor maxPkt) la w st k e).1.
Proof.
  intros Hm Hst. unfold reprobeIdleTick. destruct (_ <? _); [done|].
  destruct (first_rung maxPkt Hm) as (F1 & F2 & Hall). rewrite Forall_forall in Hall.
  destruct (mtuInitialCap maxPkt <? sendCap st); [|by apply tryRaise_caps].
  destruct (probeAt w (sendCap st) k) as [ok k']. destruct ok; [by apply tryRaise_caps|].
  destruct (walkDown_spec (S (length (mtuLadderFor maxPkt))) (mtuInitialCap maxPkt) (mtuLadderFor maxPkt)
    (largestRungBelow (mtuLadderFor maxPkt) (sendCap st)) w k') as [E|[E _]]; [|lia| |].
  { destruct (largestRungBelow_spec (mtuLadderFor maxPkt) (sendCap st)) as [->|[? _]]; auto. }
  all: destruct (walkDown _ _ _ _ _ _) as [below k2]; cbn [fst] in E.
  all: set (target := if below <=? 0 then _ else below).
  all: assert (Ht : in_caps maxPkt target).
  - unfold target. rewrite E. cbn. unfold in_caps. lia.
  - destruct (Z.ltb_spec target (sendCap st)); [|done]. unfold lowerSendCap.
    destruct (Z.leb_spec (sendCap st) target); [lia|]. (apply commit_caps; [by apply set_cap_caps|done]).
  - unfold target. apply Hall in E. destruct (Z.leb_spec below 0); unfold in_caps; lia.
  - destruct (Z.ltb_spec target (sendCap st)); [|done]. unfold lowerSendCap.
    destruct (Z.leb_spec (sendCap st) target); [lia|]. (apply commit_caps; [by apply set_cap_caps|done]).
Qed.

Lemma converge_caps en maxPkt gen n w st k e :
  maxPktFloor ≤ maxPkt → caps_ok maxPkt st → caps_ok maxPkt (convergeFrameBudget en maxPkt gen n w st k e).1.
Proof.
  intros Hm Hst. unfold convergeFrameBudget. destruct (first_rung maxPkt Hm) as (F1 & F2 & _).
  assert (Hfin : ∀ m st2 k2, caps_ok maxPkt st2 →
    caps_ok maxPkt (if clampMtuCap m maxPkt =? sendCap st2 then (st2, k2)
                    else commit (set_cap st2 (clampMtuCap m maxPkt)) (clampMtuCap m maxPkt) k2 e).1).
  { intros m st2 k2 H. destruct (_ =? _); [done|]. pose proof (clamp_caps maxPkt m Hm).
    apply commit_caps; [by apply set_cap_caps|done]. }
  destruct (negb _); [apply commit_caps; [done|unfold in_caps; lia]|].
  assert (H1 : caps_ok maxPkt (commit (set_cap st (mtuInitialCap maxPkt)) (mtuInitialCap maxPkt) k e).1).
  { apply commit_caps; [apply set_cap_caps; [done|]|]; unfold in_caps; lia. }
  destruct (commit _ _ k e) as [st1 k1]. cbn [fst] in H1.
  destruct (getFor _ _ _ =? 0); [|by apply Hfin].
  destruct (probePath _ _ _ _) as [m k2]. destruct (0 <? m); by apply Hfin.
Qed.

(** * A path that carries [c] bytes *)

(** Every probe that fits is echoed in time, no other is; the session stays open. *)
Definition path_carries (w : nat → probe) (c : Z) : Prop :=
  ∀ i, (∃ id, probeID (w i) = Some id ∧ len id = mtuProbeIDSize) ∧ closedBefore (w i) = false ∧
       ∀ payload, existsb (echoMatches payload) (echoes (w i) payload) =
                  (len payload + UDPC_HDR_SIZE + UDPC_TRAILER_SIZE <=? c).

Lemma sendControl_ok s f e :
  0 ≤ packetNo s → packetNo s + 1 < 2 ^ 64 →
  let '(ok, out, s') := sendControl s f e in ok = true ∧ packetNo s' = packetNo s + 1.
Proof.
  intros H0 H1. unfold sendControl, sendControlTo, sealControl. rewrite u64_small by lia.
  destruct (Z.eqb_spec (packetNo s + 1) 0); [lia|].
  match goal with |- context [len ?x =? 0] => assert (Hw : (len x =? 0) = false) end.
  { apply Z.eqb_neq. unfold sealControlFrameAEAD, sealFrameAEADInto. rewrite len_app, len_header.
    match goal with |- _ + len ?x ≠ 0 => pose proof (len_nonneg x) end. lia. }
  rewrite Hw. split; [done|]. unfold writeControl. by destruct (_ || _).
Qed.

Lemma probeOnce_carries w c s size i :
  path_carries w c → 64 ≤ size ≤ maxPktCeiling → 0 ≤ packetNo s → packetNo s + 1 < 2 ^ 64 →
  (probeOnce s size (w i)).1.1 = (size <=? c) ∧ packetNo (probeOnce s size (w i)).2 = packetNo s + 1.
Proof.
  intros Hw Hs H0 H1. destruct (Hw i) as ((id & Hid & Hl) & _ & He).
  unfold maxPktCeiling, UDPC_MAX_PKT in Hs. unfold probeOnce, mtuProbeMaxPayload, maxPktCeiling, mtuProbeIDSize,
    UDPC_MAX_PKT, UDPC_HDR_SIZE, UDPC_TRAILER_SIZE in *.
  destruct (Z.ltb_spec (size - 40 - 16) 8); [lia|]. destruct (Z.ltb_spec (1450 - 40 - 16) (size - 40 - 16)); [lia|].
  cbn [orb]. rewrite Hid. set (payload := id ++ _).
  assert (Hp : len payload = size - 56).
  { unfold payload. rewrite len_app, len_zeros, Hl by lia. lia. }
  pose proof (sendControl_ok s (frameOf s CMD_MTU_PROBE 0 0 0 payload) (probeEnv (w i)) H0 H1) as Hsc.
  destruct (sendControl _ _ _) as [[ok out] s2]. destruct Hsc as [-> Hsc]. cbn [fst snd andb].
  split; [|done]. rewrite He, Hp. f_equal. lia.
Qed.

Lemma probeAttempts_carries n w c size k :
  path_carries w c → 64 ≤ size ≤ maxPktCeiling → 0 ≤ packetNo k.2 → packetNo k.2 + Z.of_nat n < 2 ^ 64 →
  let '(ok, k') := probeAttempts n w size k in
  ok = (size <=? c) && (0 <? Z.of_nat n) ∧ packetNo k.2 ≤ packetNo k'.2 ≤ packetNo k.2 + Z.of_nat n.
Proof.
  intros Hw Hs. revert k. induction n as [|n IH]; intros [[i out] s] H0 H1; cbn [probeAttempts].
  { rewrite andb_false_r. cbn [snd]. split; [done|lia]. }
  cbn [snd] in H0, H1. destruct (probeOnce_carries w c s size i Hw Hs H0 ltac:(lia)) as [H2 H3].
  unfold probeAt. destruct (probeOnce s size (w i)) as [[ok o] s']. cbn [fst snd] in H2, H3. subst ok.
  destruct (Z.leb_spec size c) as [Hc|Hc].
  - cbn [snd]. split; [|lia]. by destruct (Z.ltb_spec 0 (Z.of_nat (S n))); [|lia].
  - specialize (IH (S i, out ++ o, s')). cbn [snd] in IH. rewrite H3 in IH. specialize (IH ltac:(lia) ltac:(lia)).
    destruct (probeAttempts n w size _) as [ok k']. destruct IH as [-> IH].
    destruct (Z.leb_spec size c); [lia|]. cbn [snd]. split; [done|lia].
Qed.

Lemma probePath_carries n w c ladder k :
  path_carries w c → Forall (λ r, 64 ≤ r ≤ maxPktCeiling) ladder → (0 < n)%nat →
  0 ≤ packetNo k.2 → packetNo k.2 + len ladder * Z.of_nat n < 2 ^ 64 →
  let '(r, k') := probePath n w ladder k in
  r = default 0 (head (filter (λ r, r ≤ c) ladder)) ∧
  packetNo k.2 ≤ packetNo k'.2 ≤ packetNo k.2 + len ladder * Z.of_nat n.
Proof.
  intros Hw Hl Hn. revert k. induction Hl as [|size ladder Hs Hl IH]; intros k H0 H1; cbn [probePath].
  { change (len (@nil Z)) with 0 in *. split; [done|lia]. }
  rewrite len_cons in H1. pose proof (len_nonneg ladder).
  destruct (Hw k.1.1) as (_ & -> & _).
  pose proof (probeAttempts_carries n w c size k Hw Hs H0 ltac:(nia)) as H2.
  destruct (probeAttempts n w size k) as [ok k1]. destruct H2 as [-> H2].
  rewrite filter_cons. destruct (Z.leb_spec size c) as [Hc|Hc]; cbn [andb].
  - destruct (Z.ltb_spec 0 (Z.of_nat n)); [|lia]. rewrite decide_True by lia. rewrite len_cons. cbn. split; [done|nia].
  - rewrite decide_False by lia. specialize (IH k1 ltac:(lia) ltac:(nia)).
    destruct (probePath n w ladder k1) as [r k2]. destruct IH as [-> IH]. rewrite len_cons. split; [done|nia].
Qed.

Lemma commit_number st n k e :
  0 ≤ packetNo k.2 → packetNo k.2 + 2 < 2 ^ 64 →
  let '(st', k') := commit st n k e in
  sendCap st' = sendCap st ∧ cache st' = cache st ∧ packetNo k.2 ≤ packetNo k'.2 ≤ packetNo k.2 + 2.
Proof.
  destruct k as [[i out] s]. cbn [snd]. intros H0 H1. unfold commit, sendMtuCommit.
  destruct (_ || _); [cbn; split_and!; done || lia|]. set (f := frameOf _ _ _ _ _ _). unfold mtuCommitSends. cbn [sendTimes].
  pose proof (sendControl_ok s f e H0 ltac:(lia)) as H2. destruct (sendControl s f e) as [[ok o1] s1].
  destruct H2 as [-> H2]. cbn [negb].
  pose proof (sendControl_ok s1 f e ltac:(lia) ltac:(lia)) as H3. destruct (sendControl s1 f e) as [[ok o2] s2].
  destruct H3 as [-> H3]. cbn. split_and!; [done|done|lia|lia].
Qed.

(** C36: (functional) Probing finds the path's record size: on a path that carries records of up
    to [c] bytes, with no usable cached result, the session converges to the
    largest rung of the ladder that fits, or, if none does, to the never-fragment
    floor (the configured budget, if smaller) - and remembers it for this socket
    generation only if it was measured. *)
Theorem probing_converges en maxPkt gen n w c st k e :
  maxPktFloor ≤ maxPkt ≤ maxPktCeiling → mtuProbeEnabled en = true → (0 < n)%nat →
  path_carries w c → getFor (cache st) gen (now e) = 0 →
  0 ≤ packetNo k.2 → packetNo k.2 + 7 * Z.of_nat n + 4 < 2 ^ 64 →
  let '(st', _) := convergeFrameBudget en maxPkt gen n w st k e in
  match head (filter (λ r, r ≤ c) (mtuLadderFor maxPkt)) with
  | Some r => sendCap st' = r ∧ getFor (cache st') gen (now e) = r
  | None => sendCap st' = Z.min maxPkt mtuProbeFloor ∧ cache st' = cache st
  end.
Proof.
  intros Hm Hen Hn Hw Hcache H0 H1. unfold convergeFrameBudget. rewrite Hen. cbn [negb].
  set (st0 := set_cap st _).
  pose proof (commit_number st0 (mtuInitialCap maxPkt) k e H0 ltac:(lia)) as H2.
  destruct (commit st0 _ k e) as [st1 k1]. destruct H2 as (E1 & E2 & E3). rewrite E2.
  change (cache st0) with (cache st). rewrite Hcache. cbn [Z.eqb].
  destruct (first_rung maxPkt (proj1 Hm)) as (F1 & F2 & Hall).
  assert (Hlen : len (mtuLadderFor maxPkt) ≤ 7).
  { unfold mtuLadderFor. rewrite len_cons. unfold len.
    pose proof (length_filter (λ v, v < maxPkt) mtuProbeLadder). change (length mtuProbeLadder) with 6%nat in *. lia. }
  assert (Hval : Forall (λ r, 64 ≤ r ≤ maxPktCeiling) (mtuLadderFor maxPkt)).
  { eapply Forall_impl; [exact Hall|]. cbv beta. unfold mtuInitialCap, mtuProbeFloor, maxPktFloor, UDPC_HDR_SIZE,
      UDPC_TRAILER_SIZE in *. intros r. destruct (Z.leb_spec maxPkt 548); lia. }
  pose proof (probePath_carries n w c (mtuLadderFor maxPkt) k1 Hw Hval Hn ltac:(lia) ltac:(nia)) as H3.
  destruct (probePath n w (mtuLadderFor maxPkt) k1) as [r k2]. destruct H3 as [-> H3].
  assert (Hin : ∀ r, head (filter (λ r, r ≤ c) (mtuLadderFor maxPkt)) = Some r → mtuInitialCap maxPkt ≤ r ≤ maxPkt).
  { intros r Hr. rewrite Forall_forall in Hall. apply Hall. apply head_Some_elem_of in Hr.
    by apply list_elem_of_filter in Hr as [_ Hr]. }
  assert (Hfin : ∀ m st2, mtuInitialCap maxPkt ≤ m ≤ maxPkt →
    sendCap (if clampMtuCap m maxPkt =? sendCap st2 then (st2, k2)
      else commit (set_cap st2 (clampMtuCap m maxPkt)) (clampMtuCap m maxPkt) k2 e).1 = m ∧
    cache (if clampMtuCap m maxPkt =? sendCap st2 then (st2, k2)
      else commit (set_cap st2 (clampMtuCap m maxPkt)) (clampMtuCap m maxPkt) k2 e).1 = cache st2).
  { intros m st2 Hr.
    assert (Hc : clampMtuCap m maxPkt = m).
    { unfold clampMtuCap. destruct (Z.ltb_spec m (mtuInitialCap maxPkt)); [lia|]. by destruct (Z.ltb_spec maxPkt m); [lia|]. }
    rewrite Hc. destruct (Z.eqb_spec m (sendCap st2)) as [->|]; [done|].
    pose proof (commit_number (set_cap st2 m) m k2 e ltac:(lia) ltac:(nia)) as Hcn. destruct (commit _ _ _ _) as [st3 k3]. destruct Hcn as (Q1 & Q2 & _). cbn [fst]. by rewrite Q1, Q2. }
  assert (Hlet : ∀ (P : capState → Prop) (x : capState * walk), P x.1 → let '(a, _) := x in P a) by (by intros P [??]).
  destruct (head _) as [r|] eqn:Hr; cbn [default]; unfold id.
  - specialize (Hin r eq_refl). destruct (Z.ltb_spec 0 r); [|lia].
    destruct (Hfin r (mkCap (sendCap st1) (storeFor (cache st) r gen (now e)) (commits st1)) Hin) as [G1 G2].
    apply (Hlet (λ st', sendCap st' = r ∧ getFor (cache st') gen (now e) = r)).
    split; [exact G1|]. etrans; [apply (f_equal (λ m, getFor m gen (now e)) G2)|].
    unfold getFor, storeFor. cbn. rewrite Z.eqb_refl. cbn.
    destruct (Z.ltb_spec 0 r); [|lia]. by rewrite Z.sub_diag.
  - change (0 <? 0) with false. cbv iota.
    destruct (Hfin (conservativeMtuFallback maxPkt) st1) as [G1 G2].
    { unfold conservativeMtuFallback, weakNetworkMtuFallback, mtuInitialCap in *. destruct (Z.leb_spec maxPkt mtuProbeFloor); lia. }
    apply (Hlet (λ st', sendCap st' = Z.min maxPkt mtuProbeFloor ∧ cache st' = cache st)).
    split; [etrans; [exact G1|]|by etrans].
    unfold conservativeMtuFallback, weakNetworkMtuFallback. destruct (Z.leb_spec maxPkt mtuProbeFloor); lia.
Qed.

(** * A session's life *)

Inductive mtu_op :=
| Converge (enabled : option bool) (gen : Z) (attempts : nat)
| Tick (lastActivity : Z).

Definition mtuStep (maxPkt : Z) (w : nat → probe) (op : mtu_op) (e : env) (st : capState) (k : walk) : capState * walk :=
  match op with
  | Converge en gen n => convergeFrameBudget en maxPkt gen n w st k e
  | Tick la => reprobeIdleTick maxPkt (mtuLadderFor maxPkt) la w st k e
  end.

Fixpoint mtuRun (maxPkt : Z) (w : nat → probe) (ops : list (mtu_op * env)) (st : capState) (k : walk) : capState * walk :=
  match ops with
  | [] => (st, k)
  | (op, e) :: ops => let '(st, k) := mtuStep maxPkt w op e st k in mtuRun maxPkt w ops st k
  end.

(** Whatever the path does - losing probes, echoing garbage, stale caches - a session's
    record cap stays between the never-fragment floor (or the budget, if smaller)
    and the configured budget, so does every size committed to the server, and a
    record cut to the cap is a datagram no larger than the configured budget with
    at least one byte of payload. *)
Theorem send_cap_bounded enabled maxPkt w ops ca k fec :
  maxPktFloor ≤ maxPkt ≤ maxPktCeiling →
  let st := (mtuRun maxPkt w ops (mkCap (mtuStartCap maxPkt enabled) ca []) k).1 in
  Z.min maxPkt mtuProbeFloor ≤ sendCap st ≤ maxPkt ∧
  Forall (λ n, Z.min maxPkt mtuProbeFloor ≤ n ≤ maxPkt) (commits st) ∧
  1 ≤ clientSession_maxPayload (sendCap st) fec ∧
  UDPC_HDR_SIZE + clientSession_maxPayload (sendCap st) fec + UDPC_TRAILER_SIZE ≤ maxPkt.
Proof.
  intros Hm. cbv zeta. destruct (first_rung maxPkt (proj1 Hm)) as (F1 & F2 & _).
  assert (Hi : mtuInitialCap maxPkt = Z.min maxPkt mtuProbeFloor).
  { unfold mtuInitialCap. destruct (Z.leb_spec maxPkt mtuProbeFloor); lia. }
  assert (H0 : caps_ok maxPkt (mkCap (mtuStartCap maxPkt enabled) ca [])).
  { split; [|constructor]. unfold in_caps, mtuStartCap. cbn. destruct enabled; cbn; lia. }
  assert (H : caps_ok maxPkt (mtuRun maxPkt w ops (mkCap (mtuStartCap maxPkt enabled) ca []) k).1).
  { revert H0 k. generalize (mkCap (mtuStartCap maxPkt enabled) ca []). induction ops as [|[op e] ops IH]; intros st H0 k; [done|].
    cbn [mtuRun]. assert (H1 : caps_ok maxPkt (mtuStep maxPkt w op e st k).1).
    { destruct op; [apply converge_caps; [apply Hm|done]|apply tick_caps; [apply Hm|done]]. }
    destruct (mtuStep _ _ _ _ _ _) as [st1 k1]. by apply IH. }
  destruct H as [H1 H2]. unfold in_caps in *. rewrite Hi in *.
  set (cap := sendCap _) in *. split; [lia|]. split; [exact H2|].
  unfold maxPktFloor, maxPktCeiling, mtuProbeFloor in *.
  assert (Hb : budget_ok cap) by (right; unfold UDPC_HDR_SIZE, UDPC_TRAILER_SIZE, UDPC_MAX_PKT in *; lia).
  destruct (client_cap_range cap fec Hb) as [H3 _]. split; [done|].
  assert (He : effectivePayloadCap cap = payloadCap cap).
  { unfold effectivePayloadCap. unfold UDPC_HDR_SIZE, UDPC_TRAILER_SIZE in *. destruct (Z.leb_spec cap 0); [lia|done]. }
  assert (H4 : clientSession_maxPayload cap fec ≤ payloadCap cap).
  { unfold clientSession_maxPayload. rewrite He. destruct fec; [|lia].
    apply fecDataPayloadCap_range. unfold payloadCap, UDPC_HDR_SIZE, UDPC_TRAILER_SIZE in *. lia. }
  unfold payloadCap in H4. lia.
Qed.

(** The idle re-probe moves the cap only on evidence: it goes up only to a size a
    probe of which was echoed in that very tick, and down only when a probe of the
    current size was not; a session that was active lately is left alone. *)
Theorem reprobe_on_evidence maxPkt la w st k e :
  maxPktFloor ≤ maxPkt → mtuInitialCap maxPkt ≤ sendCap st →
  let '(st', k') := reprobeIdleTick maxPkt (mtuLadderFor maxPkt) la w st k e in
  (sendCap st < sendCap st' → ∃ i s, (probeOnce s (sendCap st') (w i)).1.1 = true ∧ (k.1.1 ≤ i < k'.1.1)%nat) ∧
  (sendCap st' < sendCap st → (probeOnce k.2 (sendCap st) (w k.1.1)).1.1 = false) ∧
  (now e - la < 15 * second → st' = st ∧ k' = k).
Proof.
  intros Hm Hlo. unfold reprobeIdleTick. change (Z.quot mtuReprobeInterval 2) with (15 * second).
  destruct (Z.ltb_spec (now e - la) (15 * second)) as [Hq|Hq]; [split_and!; [intros; exfalso; lia|intros; exfalso; lia|done]|].
  assert (Hcommit : ∀ st1 n (k1 : walk), (commit st1 n k1 e).2.1.1 = k1.1.1 ∧ sendCap (commit st1 n k1 e).1 = sendCap st1).
  { intros st1 n [[i o] s]. unfold commit. by destruct (sendMtuCommit _ _ _). }
  assert (Hraise : ∀ k0 : walk, (k.1.1 ≤ k0.1.1)%nat →
    let '(st', k') := tryRaiseOneRung maxPkt (mtuLadderFor maxPkt) (sendCap st) w st k0 e in
    (sendCap st < sendCap st' → ∃ i s, (probeOnce s (sendCap st') (w i)).1.1 = true ∧ (k.1.1 ≤ i < k'.1.1)%nat) ∧
    sendCap st ≤ sendCap st').
  { intros k0 Hk. unfold tryRaiseOneRung. set (n := nextLadderRungAbove _ _).
    destruct (_ || _); [split; [intros; exfalso; lia|lia]|]. destruct k0 as [[i o] s]. unfold probeAt.
    destruct (probeOnce s n (w i)) as [[ok o2] s2] eqn:Hp. destruct ok; [|split; [intros; exfalso; lia|lia]].
    pose proof (Hcommit (set_cap st (raiseSendCap (sendCap st) n)) n (S i, o ++ o2, s2)) as [C1 C2].
    destruct (commit _ _ _ _) as [st2 k2]. cbn [fst snd sendCap set_cap] in C1, C2, Hk. rewrite C2. unfold raiseSendCap.
    destruct (Z.leb_spec n (sendCap st)); [split; [intros; exfalso; lia|lia]|]. split; [|lia]. intros _.
    exists i, s. rewrite Hp, C1. split; [done|lia]. }
  destruct (mtuInitialCap maxPkt <? sendCap st) eqn:Hf.
  - destruct k as [[i o] s]. cbn [fst snd] in *. unfold probeAt at 1.
    destruct (probeOnce s (sendCap st) (w i)) as [[ok o2] s2] eqn:Hp. destruct ok.
    + specialize (Hraise (S i, o ++ o2, s2)). cbn [fst] in Hraise. specialize (Hraise ltac:(lia)).
      destruct (tryRaiseOneRung _ _ _ _ _ _ _) as [st' k']. destruct Hraise as [R1 R2].
      split_and!; [done|intros; exfalso; lia|intros; exfalso; lia].
    + destruct (walkDown _ _ _ _ _ _) as [below k2]. set (target := if below <=? 0 then _ else below).
      destruct (Z.ltb_spec target (sendCap st)); [|split_and!; [intros; exfalso; lia|done|intros; exfalso; lia]].
      destruct (Hcommit (set_cap st (lowerSendCap (sendCap st) target)) target k2) as [_ C2].
      destruct (commit _ _ _ _) as [st3 k3]. cbn [fst snd sendCap set_cap] in C2. rewrite C2. unfold lowerSendCap.
      destruct (Z.leb_spec (sendCap st) target); [lia|]. split_and!; [intros; exfalso; lia|done|intros; exfalso; lia].
  - specialize (Hraise k ltac:(lia)). destruct (tryRaiseOneRung _ _ _ _ _ _ _) as [st' k'].
    destruct Hraise as [R1 R2]. split_and!; [done|intros; exfalso; lia|intros; exfalso; lia].
Qed.

(** * Sizes on the wire *)

Context {L : CryptoLaws C}.

Lemma sealControl_wire s f g w s' :
  len (aead_key (Send (skeys s))) = 32 → sealControl s f = (Sealed g w, s') →
  len w = UDPC_HDR_SIZE + len (Data f) + UDPC_TRAILER_SIZE.
Proof.
  intros Hk. unfold sealControl. destruct (_ =? 0); [done|]. destruct (_ =? 0); [done|]. intros [= _ <- _].
  unfold sealControlFrameAEAD, sealFrameAEADInto. rewrite len_app, len_header, seal_len by (done || apply len_packetNonce).
  cbn [with_packetNo Data]. destruct (feedback_fields s f) as (_ & _ & _ & -> & _).
  unfold UDPC_HDR_SIZE, UDPC_TRAILER_SIZE. lia.
Qed.

Lemma sendControl_wire s f e w :
  len (aead_key (Send (skeys s))) = 32 →
  let '(_, out, _) := sendControl s f e in
  OutExhausted ∉ out → w ∈ wires out → len w = UDPC_HDR_SIZE + len (Data f) + UDPC_TRAILER_SIZE.
Proof.
  intros Hk. unfold sendControl, sendControlTo. destruct (sealControl s f) as [[g w'| |] s'] eqn:Hs.
  - intros _ Hw. change (wires _) with [w'] in Hw. apply list_elem_of_singleton in Hw as ->. by eapply sealControl_wire.
  - destruct (closeSession _ _ _) as [out s2]. intros Hx. destruct Hx. by left.
  - intros _ Hw. by apply not_elem_of_nil in Hw.
Qed.

Lemma opened_length w m f key q :
  len (aead_key key) = 32 → parseUDPCFrame w m = Ok f → OpenFrameAEADInto f key = Ok q →
  len w = UDPC_HDR_SIZE + len q + UDPC_TRAILER_SIZE.
Proof.
  intros Hk Hp Ho. apply parse_inv in Hp as (Hl & _ & _ & _ & _ & Hf).
  assert (Hraw : raw f = w) by by rewrite Hf.
  unfold OpenFrameAEADInto in Ho. rewrite Hraw in Ho. destruct (_ <? _); [done|].
  destruct (aead_open _ _ _ _) as [p|] eqn:Hop; [|done]. injection Ho as ->.
  apply open_sound in Hop; [|done|apply len_packetNonce].
  assert (Hn : len (from UDPC_HDR_SIZE w) = len q + 16) by (rewrite Hop; apply seal_len; [done|apply len_packetNonce]).
  unfold UDPC_HDR_SIZE, UDPC_TRAILER_SIZE in *. rewrite len_from in Hn by lia. lia.
Qed.

(** A probe measures both directions: the client's probe for [size] is a datagram of
    exactly [size] bytes, an answer counts only if it carries the probe's own
    identifier at the probe's own length, and whatever a server sends in reply to a
    probe from its client's address is a datagram of exactly the probe's size - so
    it neither amplifies nor lets a small echo vouch for a large record. *)
Theorem probe_measures_both_ways cfg (c : session) (p : probe) size (s : serverSession) a port e :
  probe_ok p → len (aead_key (Send (skeys c))) = 32 →
  len (aead_key (Send (skeys (core s)))) = 32 → len (aead_key (Recv (skeys (core s)))) = 32 →
  sameRemoteIP s a = true →
  (let '(ok, out, _) := probeOnce c size p in
   (OutExhausted ∉ out → ∀ w, w ∈ wires out → len w = size) ∧
   (ok = true → ∃ id got, probeID p = Some id ∧
      got ∈ echoes p (id ++ zeros (size - UDPC_HDR_SIZE - UDPC_TRAILER_SIZE - mtuProbeIDSize)) ∧
      slice 0 mtuProbeIDSize got = id ∧ UDPC_HDR_SIZE + len got + UDPC_TRAILER_SIZE = size)) ∧
  ∀ w f, parseUDPCFrame w (smagic (core s)) = Ok f → Cmd f = CMD_MTU_PROBE →
    let '(_, out, _) := serverReceive cfg s w a port e in
    OutExhausted ∉ out → ∀ w', w' ∈ wires out → len w' = len w.
Proof.
  intros Hp Hkc Hks Hkr Ha. split.
  - unfold probeOnce. destruct (_ || _) eqn:Hg; [split; [intros _ w Hw; by apply not_elem_of_nil in Hw|done]|].
    apply orb_false_iff in Hg as [G1%Z.ltb_ge G2%Z.ltb_ge]. unfold probe_ok in Hp.
    destruct (probeID p) as [id|]; [|split; [intros _ w Hw; by apply not_elem_of_nil in Hw|done]].
    destruct Hp as [Hid _]. set (payload := id ++ _).
    assert (Hlen : UDPC_HDR_SIZE + len payload + UDPC_TRAILER_SIZE = size).
    { unfold payload. rewrite len_app, len_zeros, Hid by lia. lia. }
    pose proof (λ w, sendControl_wire c (frameOf c CMD_MTU_PROBE 0 0 0 payload) (probeEnv p) w Hkc) as Hs.
    destruct (sendControl _ _ _) as [[ok out] c2]. cbn [frameOf Data] in Hs. rewrite Hlen in Hs.
    split; [intros Hx w Hw; by apply Hs|].
    intros [_ (got & Hin & Hm)%existsb_exists]%andb_true_iff. exists id, got.
    apply andb_true_iff in Hm as [M1%Z.eqb_eq M2%bool_decide_eq_true].
    split_and!; [done|by apply list_elem_of_In| |rewrite M1; exact Hlen].
    rewrite M2. unfold payload. rewrite <- Hid. by rewrite slice_0, upto_app.
  - intros w f Hf Hc. unfold serverReceive. rewrite Hf. destruct (_ =? sid _); [|by intros _ w' Hw%not_elem_of_nil].
    unfold processIncomingFrame. destruct (_ && _); [by intros _ w' Hw%not_elem_of_nil|].
    destruct (negb _); [by intros _ w' Hw%not_elem_of_nil|].
    destruct (OpenFrameAEADInto f _) as [q|] eqn:Hq; [|by intros _ w' Hw%not_elem_of_nil].
    pose proof (opened_length w _ f _ q Hkr Hf Hq) as Hl. cbv zeta.
    change (PacketNo (with_data f q)) with (PacketNo f). change (Cmd (with_data f q)) with (Cmd f). rewrite Hc.
    destruct (Accept _ (PacketNo f)) as [fresh rf]. destruct (negb fresh); [by intros _ w' Hw%not_elem_of_nil|].
    set (s0 := set_core s _). unfold handleIncomingFrame.
    change (Cmd (with_data f q)) with (Cmd f). rewrite Hc.
    assert (Ha0 : sameRemoteIP s0 a = true) by done. rewrite Ha0. cbn [negb].
    change (CMD_MTU_PROBE =? CMD_DATA) with false. cbv iota zeta.
    set (s1 := set_core (setPath _ _ _ _ _) _). unfold serverHandle. cbv zeta.
    change (Cmd (with_data f q)) with (Cmd f). rewrite Hc.
    change (CMD_MTU_PROBE =? CMD_SACK) with false. change (CMD_MTU_PROBE =? CMD_PING) with false.
    change (CMD_MTU_PROBE =? CMD_FEC) with false. change (CMD_MTU_PROBE =? CMD_FIN) with false.
    change (CMD_MTU_PROBE =? CMD_MTU_PROBE) with true. cbv iota.
    destruct (mtuProbe cfg); [|by intros _ w' Hw%not_elem_of_nil].
    assert (Hk1 : len (aead_key (Send (skeys (core s1)))) = 32).
    { unfold s1. cbn [set_core core].
      match goal with |- context [if ?b then _ else _] => destruct b end;
        cbn [Session.set_arq touch skeys]; rewrite setPath_core, updateRemoteAddr_core;
        unfold s0; cbn [set_core core]; unfold observeRemote; repeat case_match; exact Hks. }
    pose proof (λ w', sendControl_wire (core s1) (frameOf (core s1) CMD_MTU_PROBE_REPLY 0 (currentAck (core s1)) 0
      (Data (with_data f q))) (base e) w' Hk1) as Hs.
    destruct (sendControl _ _ _) as [[ok out] c2]. intros Hx w' Hw. rewrite Hl. by apply Hs.
Qed.


End Caps.

Example ladder_1420 : mtuLadderFor 1420 = [1420; 1392; 1200; 1000; 800; 548].
Proof. reflexivity. Qed.
Example describe_1392 : describeMaxPkt 1392 =
  str "max_pkt=1392 payload=1336 -> IPv4 datagram 1420 B, IPv6 1440 B | 1500:ok 1492:ok 1420:ok 1280:over 576:over".
Proof. reflexivity. Qed.

(** * Witnesses *)

Section Witnesses.
#[local] Existing Instance toy_crypto.
#[local] Existing Instance xor_code.

(** A path that echoes records of up to [c] bytes. *)
Definition path_of (c : Z) : nat → probe := λ _,
  mkProbe (toy_env 5) (Some (repeat 3 8))
    (λ payload, if len payload + UDPC_HDR_SIZE + UDPC_TRAILER_SIZE <=? c then [payload] else []) false.

Lemma path_of_carries c : path_carries (path_of c) c.
Proof.
  intros i. split_and!; [by eexists|done|]. intros payload. cbn.
  destruct (_ <=? c); [|done]. cbn. unfold echoMatches. by rewrite Z.eqb_refl, bool_decide_eq_true_2.
Qed.

Definition start_walk : walk := (0%nat, [], toy_session true).
Definition start_caps (n : Z) : capState := mkCap n (mkProbeCache 0 0 0) [].

Lemma send_cap_bounded_witness :
  let st := (mtuRun 1450 (path_of 1000) [(Converge None 1 2, toy_env 5); (Tick 0, toy_env (60 * second))]
    (mkCap (mtuStartCap 1450 true) (mkProbeCache 0 0 0) []) start_walk).1 in
  548 ≤ sendCap st ≤ 1450.
Proof.
  assert (Hm : maxPktFloor ≤ 1450 ≤ maxPktCeiling) by (split; vm_compute; discriminate).
  exact (proj1 (send_cap_bounded true 1450 (path_of 1000)
    [(Converge None 1 2, toy_env 5); (Tick 0, toy_env (60 * second))] (mkProbeCache 0 0 0) start_walk true Hm)).
Defined.

Lemma probing_converges_witness :
  let '(st', _) := convergeFrameBudget None 1450 1 2 (path_of 1400) (start_caps 548) start_walk (toy_env 5) in
  sendCap st' = 1392 ∧ getFor (cache st') 1 5 = 1392.
Proof.
  assert (Hm : maxPktFloor ≤ 1450 ≤ maxPktCeiling) by (split; vm_compute; discriminate).
  assert (Hh : head (filter (λ r, r ≤ 1400) (mtuLadderFor 1450)) = Some 1392) by reflexivity.
  pose proof (probing_converges None 1450 1 2 (path_of 1400) 1400 (start_caps 548) start_walk (toy_env 5)
    Hm eq_refl ltac:(lia) (path_of_carries 1400) eq_refl ltac:(done) ltac:(done)) as H.
  rewrite Hh in H. exact H.
Defined.

Lemma reprobe_on_evidence_witness :
  let '(st', k') := reprobeIdleTick 1450 (mtuLadderFor 1450) 0 (path_of 1000) (start_caps 548) start_walk (toy_env second) in
  st' = start_caps 548 ∧ k' = start_walk.
Proof.
  assert (Hm : maxPktFloor ≤ 1450) by (vm_compute; discriminate).
  assert (Hl : mtuInitialCap 1450 ≤ sendCap (start_caps 548)) by (vm_compute; discriminate).
  pose proof (reprobe_on_evidence 1450 0 (path_of 1000) (start_caps 548) start_walk (toy_env second) Hm Hl) as H.
  destruct (reprobeIdleTick _ _ _ _ _ _ _) as [st' k']. destruct H as (_ & _ & H). apply H. reflexivity.
Defined.

Lemma probe_measures_both_ways_witness :
  let '(ok, out, _) := probeOnce (toy_session true) 200 (path_of 1000 0%nat) in
  OutExhausted ∉ out → ∀ w, w ∈ wires out → len w = 200.
Proof.
  assert (Hp : probe_ok (path_of 1000 0%nat)).
  { split; [reflexivity|]. repeat (constructor; [split; [discriminate|reflexivity]|]). constructor. }
  assert (K : ∀ c, len (aead_key (Send (skeys (toy_session c)))) = 32) by (intros; vm_compute; reflexivity).
  pose proof (probe_measures_both_ways (L := toy_crypto_laws) toy_cfg (toy_session true) (path_of 1000 0%nat) 200
    (srv toy_server) toy_remote 443 (toy_senv 5) Hp (K true) (K false) (K false) eq_refl) as [H _].
  destruct (probeOnce _ _ _) as [[ok out] s']. exact (proj1 H).
Defined.

End Witnesses.
