(* ===== verification/Noise.v ===== *)
(** The Noise NK handshake (src/tunnel/noise.go): the symmetric state, the client's
    and the server's side, and what they agree on.

    curve25519, blake2s and HKDF over blake2s (golang.org/x/crypto) are the interface
    [NoisePrims]; ChaCha20-Poly1305 is that of [Protocol].  Random bytes are
    arguments, [None] when they cannot be read. *)
From S2P Require Import Prelude Sha256 Protocol.
Local Open Scope Z_scope.
Local Open Scope go_scope.

(** [X25519 scalar point] is [None] on a wrong length and on a point of low order. *)
Class NoisePrims := {
  X25519 : bytes → bytes → option bytes;
  Basepoint : bytes;
  blake2s : bytes → bytes;
  hkdf_blake2s : bytes → bytes → bytes → Z → bytes;
}.

(** RFC 7748, 7693 and 5869: lengths, and Diffie-Hellman agreement. *)
Class NoiseLaws (N : NoisePrims) : Prop := {
  x25519_len : ∀ a p s, X25519 a p = Some s → len s = 32;
  x25519_base : ∀ a, len a = 32 → is_Some (X25519 a Basepoint);
  x25519_comm : ∀ a b A B, len a = 32 → len b = 32 →
    X25519 a Basepoint = Some A → X25519 b Basepoint = Some B → X25519 a B = X25519 b A;
  blake2s_len : ∀ m, len (blake2s m) = 32;
  hkdf_blake2s_len : ∀ secret salt info n, 0 ≤ n ≤ 255 * 32 → len (hkdf_blake2s secret salt info n) = n;
}.

Inductive noise_error :=
| ErrRand
| ErrX25519
| ErrDegenerate
| ErrMsg1Size
| ErrMsg2Size
| ErrUnexpectedMsg1Size
| ErrAuthentication
| ErrFinished
| ErrCipher (e : wire_error).

Definition noiseProtocolName : bytes := str "Noise_NK_25519_ChaChaPoly_BLAKE2s".

Section Noise.
Context {C : Crypto} {N : NoisePrims}.

(** * Keys *)

Record NoiseKeyPair := mkKeyPair { PrivateKey : bytes; PublicKey : bytes }.

(** [priv[0] &= 248; priv[31] &= 127; priv[31] |= 64] *)
Definition clamp (priv : bytes) : bytes :=
  let priv := <[0%nat := Z.land (at_z 0 priv) 248]> priv in
  let priv := <[31%nat := Z.land (at_z 31 priv) 127]> priv in
  <[31%nat := Z.lor (at_z 31 priv) 64]> priv.

Definition generateEphemeral (rand : option bytes) : result (bytes * bytes) noise_error :=
  match rand with
  | None => Err ErrRand
  | Some priv =>
      let priv := clamp priv in
      match X25519 priv Basepoint with
      | None => Err ErrX25519
      | Some pub => Ok (priv, pub)
      end
  end.

Definition GenerateNoiseKeyPair (rand : option bytes) : result NoiseKeyPair noise_error :=
  match rand with
  | None => Err ErrRand
  | Some priv =>
      let priv := clamp priv in
      match X25519 priv Basepoint with
      | None => Err ErrX25519
      | Some pub => Ok (mkKeyPair priv pub)
      end
  end.

(** The accumulator of the constant-time comparison. *)
Definition diffBytes (a b : bytes) : Z := foldl (λ v xy, Z.lor v (Z.lxor xy.1 xy.2)) 0 (zip a b).
Definition subtleEqual (a b : bytes) : bool :=
  if negb (len a =? len b) then false else diffBytes a b =? 0.

Definition dh (priv pub : bytes) : result bytes noise_error :=
  match X25519 priv pub with
  | None => Err ErrX25519
  | Some out => if subtleEqual out (zeros 32) then Err ErrDegenerate else Ok out
  end.

(** * The symmetric state *)

Record symmetricState := mkSS {
  ssCk : bytes;
  ssHash : bytes;
  ssAead : option AEADCipherState;   (* nil until the first mixKey *)
  ssN : Z;
}.

Definition mixHash (s : symmetricState) (data : bytes) : symmetricState :=
  mkSS (ssCk s) (blake2s (ssHash s ++ data)) (ssAead s) (ssN s).

Definition newSymmetricState : symmetricState :=
  let h := if len noiseProtocolName <=? 32
           then noiseProtocolName ++ zeros (32 - len noiseProtocolName)
           else blake2s noiseProtocolName in
  mixHash (mkSS h h None 0) [].

Definition nkInit (responderStaticPub : bytes) : symmetricState :=
  mixHash newSymmetricState responderStaticPub.

(** The two panics of the source need a failing HKDF or a key that is not 32
    bytes; [mixKey_ok] excludes them. *)
Definition mixKey (s : symmetricState) (ikm : bytes) : symmetricState :=
  let out := hkdf_blake2s ikm (ssCk s) [] 64 in
  mkSS (upto 32 out) (ssHash s) (Some {| aead_key := from 32 out |}) 0.

Definition handshakeNonce (s : symmetricState) : bytes := zeros 4 ++ le_bytes 8 (ssN s).

Definition encryptAndHash (s : symmetricState) (plaintext : bytes) : bytes * symmetricState :=
  match ssAead s with
  | None => (plaintext, mixHash s plaintext)
  | Some k =>
      let ct := aead_seal (aead_key k) (handshakeNonce s) plaintext (ssHash s) in
      (ct, mixHash (mkSS (ssCk s) (ssHash s) (ssAead s) (u64 (ssN s + 1))) ct)
  end.

Definition decryptAndHash (s : symmetricState) (ciphertext : bytes) :
    result bytes noise_error * symmetricState :=
  match ssAead s with
  | None => (Ok ciphertext, mixHash s ciphertext)
  | Some k =>
      match aead_open (aead_key k) (handshakeNonce s) ciphertext (ssHash s) with
      | None => (Err ErrAuthentication, s)
      | Some pt => (Ok pt, mixHash (mkSS (ssCk s) (ssHash s) (ssAead s) (u64 (ssN s + 1))) ciphertext)
      end
  end.

Definition split (s : symmetricState) : bytes * bytes :=
  let out := hkdf_blake2s [] (ssCk s) [] 64 in (upto 32 out, from 32 out).

(** * The session that results *)

Record NoiseSession := mkNoise {
  SendCipher : AEADCipherState;
  RecvCipher : AEADCipherState;
  HandshakeHash : bytes;
}.

Definition cipher (key : bytes) : result AEADCipherState noise_error :=
  match newAEADCipherState key with Ok c => Ok c | Err e => Err (ErrCipher e) end.

Definition newNoiseSession (sendKey recvKey hash : bytes) : result NoiseSession noise_error :=
  send <-! cipher sendKey ;;
  recv <-! cipher recvKey ;;
  Ok (mkNoise send recv hash).

(** * The client *)

Record ClientNK := mkClientNK {
  nkState : symmetricState;
  ePriv : bytes;
  ePub : bytes;
  serverPub : bytes;
  msg1 : option bytes;
  finished : bool;
}.

Definition NewClientNK (serverPub : bytes) (rand : option bytes) : result ClientNK noise_error :=
  e <-! generateEphemeral rand ;;
  let s := mixHash (nkInit serverPub) e.2 in
  shared <-! dh e.1 serverPub ;;
  Ok (mkClientNK (mixKey s shared) e.1 e.2 serverPub None false).

Definition set_ss (c : ClientNK) (s : symmetricState) : ClientNK :=
  mkClientNK s (ePriv c) (ePub c) (serverPub c) (msg1 c) (finished c).

Definition Message1 (c : ClientNK) : result bytes noise_error * ClientNK :=
  match msg1 c with
  | Some m => (Ok m, c)
  | None =>
      let '(tag, s) := encryptAndHash (nkState c) [] in
      let c := set_ss c s in
      let out := ePub c ++ tag in
      if negb (len out =? noiseMsg1Size) then (Err ErrUnexpectedMsg1Size, c) else
      (Ok out, mkClientNK s (ePriv c) (ePub c) (serverPub c) (Some out) (finished c))
  end.

Definition Finish (c : ClientNK) (msg2 : bytes) : result NoiseSession noise_error * ClientNK :=
  if finished c then (Err ErrFinished, c) else
  if negb (len msg2 =? noiseMsg2Size) then (Err ErrMsg2Size, c) else
  let s := mixHash (nkState c) (upto 32 msg2) in
  match dh (ePriv c) (upto 32 msg2) with
  | Err e => (Err e, set_ss c s)
  | Ok shared =>
      let '(r, s) := decryptAndHash (mixKey s shared) (from 32 msg2) in
      match r with
      | Err e => (Err e, set_ss c s)
      | Ok _ =>
          let '(k1, k2) := split s in
          match newNoiseSession k1 k2 (ssHash s) with
          | Err e => (Err e, set_ss c s)
          | Ok sess => (Ok sess, mkClientNK s (ePriv c) (ePub c) (serverPub c) (msg1 c) true)
          end
      end
  end.

(** * The server *)

Definition NewServerNoiseSession (serverPrivkey msg1 : bytes) (rand : option bytes) :
    result (NoiseSession * bytes) noise_error :=
  if negb (len msg1 =? noiseMsg1Size) then Err ErrMsg1Size else
  match X25519 serverPrivkey Basepoint with
  | None => Err ErrX25519
  | Some serverPub =>
      let s := mixHash (nkInit serverPub) (upto 32 msg1) in
      es <-! dh serverPrivkey (upto 32 msg1) ;;
      let '(r, s) := decryptAndHash (mixKey s es) (from 32 msg1) in
      _ <-! r ;;
      e <-! generateEphemeral rand ;;
      let s := mixHash s e.2 in
      ee <-! dh e.1 (upto 32 msg1) ;;
      let '(tag, s) := encryptAndHash (mixKey s ee) [] in
      let '(k1, k2) := split s in
      sess <-! newNoiseSession k2 k1 (ssHash s) ;;
      Ok (sess, e.2 ++ tag)
  end.

End Noise.

(** * Agreement and tamper evidence *)

Section NoiseTheorems.
Context {C : Crypto} {CL : CryptoLaws C} {N : NoisePrims} {NL : NoiseLaws N}.

Lemma len_handshakeNonce s : len (handshakeNonce s) = 12.
Proof. apply (len_packetNonce (ssN s)). Qed.

Lemma mixKey_ok s ikm :
  ∃ k, ssAead (mixKey s ikm) = Some k ∧ len (aead_key k) = 32 ∧ len (ssCk (mixKey s ikm)) = 32.
Proof.
  assert (Hl : len (hkdf_blake2s ikm (ssCk s) [] 64) = 64) by (apply hkdf_blake2s_len; lia).
  eexists. split; [reflexivity|]. simpl. rewrite len_from, len_upto by lia. lia.
Qed.

(** What [encryptAndHash] writes under a key, [decryptAndHash] accepts, and both
    sides' states stay equal. *)
Lemma decrypt_encrypt s ikm :
  let '(tag, s') := encryptAndHash (mixKey s ikm) [] in
  decryptAndHash (mixKey s ikm) tag = (Ok [], s') ∧ len tag = 16.
Proof.
  destruct (mixKey_ok s ikm) as (k & Hk & Hlk & _).
  unfold encryptAndHash, decryptAndHash. rewrite Hk.
  rewrite open_seal, seal_len by (first [done | apply len_handshakeNonce | constructor]).
  done.
Qed.

(** Under a fresh key only one 16-byte tag is accepted. *)
Lemma decrypt_tag s ikm c p s' :
  decryptAndHash (mixKey s ikm) c = (Ok p, s') → len c = 16 →
  c = (encryptAndHash (mixKey s ikm) []).1.
Proof.
  destruct (mixKey_ok s ikm) as (k & Hk & Hlk & _).
  unfold encryptAndHash, decryptAndHash. rewrite Hk.
  destruct (aead_open _ _ _ _) as [q|] eqn:Ho; [|done]. intros [= <- _] Hc.
  apply open_sound in Ho; [|done|apply len_handshakeNonce].
  assert (Hq : len q = 0).
  { apply (f_equal len) in Ho. rewrite seal_len in Ho by (done || apply len_handshakeNonce). lia. }
  apply len_nil_inv in Hq. by subst.
Qed.

Lemma newNoiseSession_ok s hash :
  let '(k1, k2) := split s in
  newNoiseSession k1 k2 hash = Ok (mkNoise {| aead_key := k1 |} {| aead_key := k2 |} hash) ∧
  newNoiseSession k2 k1 hash = Ok (mkNoise {| aead_key := k2 |} {| aead_key := k1 |} hash).
Proof.
  unfold split. assert (Hl : len (hkdf_blake2s [] (ssCk s) [] 64) = 64) by (apply hkdf_blake2s_len; lia).
  unfold newNoiseSession, cipher, newAEADCipherState. rewrite len_upto, len_from by lia. rewrite Hl.
  done.
Qed.

(** A session's keys have the length the cipher wants, whatever the primitives do. *)
Lemma newNoiseSession_keys k1 k2 hash sess :
  newNoiseSession k1 k2 hash = Ok sess →
  len (aead_key (SendCipher sess)) = 32 ∧ len (aead_key (RecvCipher sess)) = 32.
Proof.
  unfold newNoiseSession, cipher, newAEADCipherState.
  destruct (Z.eqb_spec (len k1) 32); [|done]. cbn [result_bind].
  destruct (Z.eqb_spec (len k2) 32); [|done]. cbn [result_bind]. by intros [= <-].
Qed.

Lemma server_noise_keys sk m r sess m2 :
  NewServerNoiseSession sk m r = Ok (sess, m2) →
  len (aead_key (SendCipher sess)) = 32 ∧ len (aead_key (RecvCipher sess)) = 32.
Proof.
  unfold NewServerNoiseSession. destruct (negb _); [done|]. destruct (X25519 _ _); [|done].
  destruct (dh sk _) as [es|]; [|done]. cbn [result_bind]. destruct (decryptAndHash _ _) as [[p|] s1]; [|done].
  cbn [result_bind]. destruct (generateEphemeral r) as [e|]; [|done]. cbn [result_bind].
  destruct (dh e.1 _) as [ee|]; [|done]. cbn [result_bind]. destruct (encryptAndHash _ _) as [tag s2].
  destruct (split s2) as [k1 k2]. destruct (newNoiseSession k2 k1 _) as [x|] eqn:Hx; [|done].
  cbn [result_bind]. intros [= <- _]. by eapply newNoiseSession_keys.
Qed.

Lemma clamp_len priv : len (clamp priv) = len priv.
Proof. unfold clamp, len. by rewrite !length_insert. Qed.

Lemma generateEphemeral_ok rand :
  len rand = 32 → ∃ E, X25519 (clamp rand) Basepoint = Some E ∧ len E = 32 ∧
  generateEphemeral (Some rand) = Ok (clamp rand, E).
Proof.
  intros Hr. destruct (x25519_base (clamp rand)) as [E HE]; [by rewrite clamp_len|].
  exists E. split; [done|]. split; [by apply (x25519_len _ _ _ HE)|].
  unfold generateEphemeral. by rewrite HE.
Qed.

(** Diffie-Hellman between two key pairs, from either side. *)
Lemma dh_comm a b A B :
  len a = 32 → len b = 32 → X25519 a Basepoint = Some A → X25519 b Basepoint = Some B →
  dh a B = dh b A.
Proof. intros. unfold dh. by rewrite (x25519_comm a b A B). Qed.

Lemma Message1_new S rand c :
  NewClientNK S rand = Ok c →
  ∃ s es, nkState c = mixKey s es ∧ s = mixHash (nkInit S) (ePub c) ∧
  dh (ePriv c) S = Ok es ∧ finished c = false ∧
  generateEphemeral rand = Ok (ePriv c, ePub c) ∧
  (len (ePub c) = 32 →
   Message1 c = (Ok (ePub c ++ (encryptAndHash (mixKey s es) []).1),
     mkClientNK (encryptAndHash (mixKey s es) []).2 (ePriv c) (ePub c) S
       (Some (ePub c ++ (encryptAndHash (mixKey s es) []).1)) false)).
Proof.
  unfold NewClientNK. destruct (generateEphemeral rand) as [e|] eqn:He; [|done].
  cbn [result_bind]. destruct (dh e.1 S) as [es|] eqn:Hes; [|done]. cbn [result_bind].
  intros [= <-]. exists (mixHash (nkInit S) e.2), es. cbn [nkState ePub ePriv finished msg1].
  split_and!; try done; [by destruct e|]. intros Hlen.
  unfold Message1. cbn [msg1 nkState ePub].
  pose proof (decrypt_encrypt (mixHash (nkInit S) e.2) es) as Hd.
  destruct (encryptAndHash _ _) as [tag s'] eqn:Henc. destruct Hd as [_ Hlt].
  unfold noiseMsg1Size, set_ss. cbn [ePub ePriv serverPub msg1 finished nkState fst snd].
  rewrite len_app, Hlt, Hlen. done.
Qed.

(** An honest run, step by step. *)
Lemma honest_run sk S rc rs c :
  len sk = 32 → len rc = 32 → len rs = 32 → X25519 sk Basepoint = Some S →
  NewClientNK S (Some rc) = Ok c →
  ∃ m1 c', Message1 c = (Ok m1, c') ∧ len m1 = noiseMsg1Size ∧
  match NewServerNoiseSession sk m1 (Some rs) with
  | Err e => dh (clamp rs) (ePub c) = Err e
  | Ok (server, m2) =>
      len m2 = noiseMsg2Size ∧ ∃ client, (Finish c' m2).1 = Ok client ∧
      SendCipher client = RecvCipher server ∧ RecvCipher client = SendCipher server ∧
      HandshakeHash client = HandshakeHash server
  end.
Proof.
  intros Hsk Hrc Hrs HS Hc. destruct (Message1_new _ _ _ Hc) as (s & es & _ & Hs & Hes & _ & Hg & Hm).
  destruct (generateEphemeral_ok rc Hrc) as (EC & HEC & HlEC & Hg'). rewrite Hg' in Hg.
  injection Hg as HeP HeC. rewrite <- HeC in *. rewrite <- HeP in *.
  pose proof (decrypt_encrypt s es) as Hd1. specialize (Hm HlEC).
  destruct (encryptAndHash (mixKey s es) []) as [tag1 s1] eqn:He1. destruct Hd1 as [Hd1 Hlt1].
  simpl in Hm. eexists _, _. split; [exact Hm|]. unfold noiseMsg1Size, noiseMsg2Size.
  split; [rewrite len_app; lia|]. unfold NewServerNoiseSession, noiseMsg1Size.
  replace (negb (len (EC ++ tag1) =? 32 + 16)) with false by (rewrite len_app, HlEC, Hlt1; done).
  rewrite HS, upto_app, from_app, <- Hs by done.
  rewrite (dh_comm sk (clamp rc) S EC) by (rewrite ?clamp_len; done). rewrite Hes. cbn [result_bind].
  rewrite Hd1. cbn [result_bind].
  destruct (generateEphemeral_ok rs Hrs) as (ES & HES & HlES & ->). cbn [result_bind fst snd].
  destruct (dh (clamp rs) EC) as [ee|e] eqn:Hee; [|done]. cbn [result_bind].
  pose proof (decrypt_encrypt (mixHash s1 ES) ee) as Hd2.
  destruct (encryptAndHash (mixKey (mixHash s1 ES) ee) []) as [tag2 s2] eqn:He2.
  destruct Hd2 as [Hd2 Hlt2]. pose proof (newNoiseSession_ok s2 (ssHash s2)) as Hn.
  destruct (split s2) as [k1 k2] eqn:Hsp. destruct Hn as [Hn1 Hn2]. rewrite Hn2. cbn [result_bind].
  split; [rewrite len_app; lia|]. unfold Finish, noiseMsg2Size. cbn [finished nkState ePriv].
  replace (negb (len (ES ++ tag2) =? 32 + 16)) with false by (rewrite len_app, HlES, Hlt2; done).
  rewrite upto_app, from_app by done.
  rewrite (dh_comm (clamp rc) (clamp rs) EC ES) by (rewrite ?clamp_len; done). rewrite Hee, Hd2, Hsp, Hn1.
  by eexists.
Qed.

Lemma server_unique sk m m' r r' x x' :
  NewServerNoiseSession sk m r = Ok x → NewServerNoiseSession sk m' r' = Ok x' →
  upto 32 m = upto 32 m' → m = m'.
Proof.
  unfold NewServerNoiseSession. destruct (Z.eqb_spec (len m) noiseMsg1Size) as [Hl|]; [|done].
  destruct (Z.eqb_spec (len m') noiseMsg1Size) as [Hl'|]; [|done]. cbn [negb].
  destruct (X25519 sk Basepoint); [|done]. intros Hm Hm' Heq. rewrite <- Heq in Hm'.
  unfold noiseMsg1Size in *. destruct (dh sk (upto 32 m)) as [es|]; [|done]. cbn [result_bind] in *.
  destruct (decryptAndHash _ (from 32 m)) as [[p|] s1] eqn:Hd; [|done].
  destruct (decryptAndHash _ (from 32 m')) as [[p'|] s1'] eqn:Hd'; [|done].
  apply decrypt_tag in Hd; [|rewrite len_from; lia]. apply decrypt_tag in Hd'; [|rewrite len_from; lia].
  by rewrite <- (upto_from 32 m), <- (upto_from 32 m'), Heq, Hd, Hd'.
Qed.

Lemma client_unique c m2 m2' y y' :
  (Finish c m2).1 = Ok y → (Finish c m2').1 = Ok y' → upto 32 m2 = upto 32 m2' → m2 = m2'.
Proof.
  unfold Finish. destruct (finished c); [done|].
  destruct (Z.eqb_spec (len m2) noiseMsg2Size) as [Hl|]; [|done].
  destruct (Z.eqb_spec (len m2') noiseMsg2Size) as [Hl'|]; [|done]. cbn [negb].
  intros Hm Hm' Heq. rewrite <- Heq in Hm'. unfold noiseMsg2Size in *.
  destruct (dh (ePriv c) (upto 32 m2)) as [ee|]; [|done].
  destruct (decryptAndHash _ (from 32 m2)) as [[p|] s1] eqn:Hd; [|done].
  destruct (decryptAndHash _ (from 32 m2')) as [[p'|] s1'] eqn:Hd'; [|done].
  apply decrypt_tag in Hd; [|rewrite len_from; lia]. apply decrypt_tag in Hd'; [|rewrite len_from; lia].
  by rewrite <- (upto_from 32 m2), <- (upto_from 32 m2'), Heq, Hd, Hd'.
Qed.

(** C12: (equivalence) The two sides of the Noise handshake agree.  For every server
    key, every pair of ephemeral keys and whatever the primitives compute, the
    server accepts the client's first message and the client the server's answer,
    each send key is the other side's receive key and the channel bindings are
    equal; the one failure left is a degenerate shared secret. *)
Theorem noise_agreement sk S rc rs c :
  len sk = 32 → len rc = 32 → len rs = 32 → X25519 sk Basepoint = Some S →
  NewClientNK S (Some rc) = Ok c →
  ∃ m1 c', Message1 c = (Ok m1, c') ∧ len m1 = noiseMsg1Size ∧
  match NewServerNoiseSession sk m1 (Some rs) with
  | Err e => dh (clamp rs) (ePub c) = Err e
  | Ok (server, m2) =>
      len m2 = noiseMsg2Size ∧ ∃ client, (Finish c' m2).1 = Ok client ∧
      SendCipher client = RecvCipher server ∧ RecvCipher client = SendCipher server ∧
      HandshakeHash client = HandshakeHash server
  end.
Proof. apply honest_run. Qed.

(** C13: (safety) Handshake messages are tamper evident.  When a server accepts a
    first message, it rejects every other one that carries the same ephemeral key;
    when a client accepts a second message, it would have rejected every other one
    with the same ephemeral key. *)
Theorem noise_tamper_evident sk m m' r r' x c m2 m2' y :
  (NewServerNoiseSession sk m r = Ok x → upto 32 m = upto 32 m' → m ≠ m' →
   is_Ok (NewServerNoiseSession sk m' r') = false) ∧
  ((Finish c m2).1 = Ok y → upto 32 m2 = upto 32 m2' → m2 ≠ m2' →
   is_Ok (Finish c m2').1 = false).
Proof.
  split.
  - intros Hm Heq Hne. destruct (NewServerNoiseSession sk m' r') as [x'|] eqn:Hm'; [|done].
    by destruct Hne; eapply server_unique.
  - intros Hm Heq Hne. destruct (Finish c m2').1 as [y'|] eqn:Hm'; [|done].
    by destruct Hne; eapply client_unique.
Qed.

End NoiseTheorems.

(** * Concrete primitives for the witnesses *)

Definition addBytes (a b : bytes) : bytes := zip_with (λ x y, (x + y) mod 256) a b.

#[local] Existing Instance toy_crypto.
#[local] Existing Instance toy_crypto_laws.

#[local] Instance toy_noise : NoisePrims := {|
  X25519 a p := if (len a =? 32) && (len p =? 32) then Some (addBytes a p) else None;
  Basepoint := zeros 32;
  blake2s := Sha256.sum256;
  hkdf_blake2s := hkdf_sha256;
|}.

Lemma len_addBytes a b : len a = 32 → len b = 32 → len (addBytes a b) = 32.
Proof. intros. unfold addBytes, len in *. rewrite length_zip_with. lia. Qed.

Lemma addBytes_comm a b z :
  length a = length b → length z = length a →
  addBytes a (addBytes b z) = addBytes b (addBytes a z).
Proof.
  unfold addBytes. revert b z. induction a as [|x a IH]; intros [|y b] [|w z]; try done; simpl.
  intros [= ?] [= ?]. f_equal; [|by apply IH]. rewrite !Zplus_mod_idemp_r. f_equal. lia.
Qed.

#[local] Instance toy_noise_laws : NoiseLaws toy_noise.
Proof.
  split; cbn [X25519 Basepoint blake2s hkdf_blake2s toy_noise].
  - intros a p s. destruct (Z.eqb_spec (len a) 32), (Z.eqb_spec (len p) 32); try done.
    intros [= <-]. by apply len_addBytes.
  - intros a ->. by eexists.
  - intros a b A B Ha Hb. rewrite Ha, Hb. cbn. intros [= <-] [= <-].
    rewrite !len_addBytes by done. cbn. f_equal. apply addBytes_comm; unfold len in *; [lia|]. simpl. lia.
  - intros. apply Sha256.len_sum256.
  - intros. by apply hkdf_len.
Qed.

Definition wit_secret (b : Z) : bytes := replicate 32 b.

Lemma wit_client : ∃ c, NewClientNK (wit_secret 7) (Some (wit_secret 9)) = Ok c.
Proof.
  unfold NewClientNK. replace (generateEphemeral _)
    with (Ok (clamp (wit_secret 9), clamp (wit_secret 9)) : result (bytes * bytes) noise_error) by reflexivity.
  cbn [result_bind fst snd]. replace (dh _ _)
    with (Ok (addBytes (clamp (wit_secret 9)) (wit_secret 7)) : result bytes noise_error) by reflexivity.
  by eexists.
Qed.

Lemma wit_public c :
  NewClientNK (wit_secret 7) (Some (wit_secret 9)) = Ok c → ePub c = clamp (wit_secret 9).
Proof. intros Hc. destruct (Message1_new _ _ _ Hc) as (?&?&_&_&_&_&Hg&_). by injection Hg. Qed.

Lemma noise_agreement_witness :
  ∃ c, NewClientNK (wit_secret 7) (Some (wit_secret 9)) = Ok c ∧
  ∃ m1 c', Message1 c = (Ok m1, c') ∧ len m1 = noiseMsg1Size ∧
  match NewServerNoiseSession (wit_secret 7) m1 (Some (wit_secret 11)) with
  | Err e => dh (clamp (wit_secret 11)) (ePub c) = Err e
  | Ok (server, m2) =>
      len m2 = noiseMsg2Size ∧ ∃ client, (Finish c' m2).1 = Ok client ∧
      SendCipher client = RecvCipher server ∧ RecvCipher client = SendCipher server ∧
      HandshakeHash client = HandshakeHash server
  end.
Proof.
  destruct wit_client as [c Hc]. exists c. split; [done|].
  apply (noise_agreement (wit_secret 7) (wit_secret 7) (wit_secret 9)); done.
Defined.

Lemma noise_tamper_evident_witness :
  ∃ c m x, NewClientNK (wit_secret 7) (Some (wit_secret 9)) = Ok c ∧ (Message1 c).1 = Ok m ∧
  NewServerNoiseSession (wit_secret 7) m (Some (wit_secret 11)) = Ok x ∧
  ∀ m', upto 32 m = upto 32 m' → m ≠ m' →
  is_Ok (NewServerNoiseSession (wit_secret 7) m' (Some (wit_secret 13))) = false.
Proof.
  destruct wit_client as [c Hc].
  destruct (honest_run (wit_secret 7) (wit_secret 7) (wit_secret 9) (wit_secret 11) c)
    as (m & c' & Hm & _ & Hserver); [done..|]. rewrite (wit_public _ Hc) in Hserver.
  destruct (NewServerNoiseSession (wit_secret 7) m (Some (wit_secret 11))) as [[sess m2]|e] eqn:Hx;
    [|exfalso; revert Hserver; cbn; done].
  destruct Hserver as (_ & cl & Hf & _). exists c, m, (sess, m2). split_and!; [done|by rewrite Hm|done|].
  intros m'. exact (proj1 (noise_tamper_evident (wit_secret 7) m m' (Some (wit_secret 11))
    (Some (wit_secret 13)) (sess, m2) c' m2 m2 cl) Hx).
Defined.
