(* ===== verification/NoiseKeys.v ===== *)
(** The text forms of Noise keys: [ParseNoiseKey] and [FormatNoiseKey] of
    src/tunnel/noise.go, with the hexadecimal and base64 codecs of Go's standard
    library they use. *)
From S2P Require Import Prelude GoStrings.
Local Open Scope Z_scope.

(** * encoding/hex *)

Definition hexDigit (n : Z) : Z := if n <? 10 then 48 + n else 87 + n.
Definition hexEncode (b : bytes) : bytes := flat_map (λ x, [hexDigit (x / 16); hexDigit (x mod 16)]) b.

Definition fromHexChar (c : Z) : option Z :=
  if (48 <=? c) && (c <=? 57) then Some (c - 48) else
  if (97 <=? c) && (c <=? 102) then Some (c - 87) else
  if (65 <=? c) && (c <=? 70) then Some (c - 55) else None.

(** [hex.DecodeString]; [None] is its error. *)
Fixpoint hexDecode (s : bytes) : option bytes :=
  match s with
  | [] => Some []
  | [_] => None
  | a :: b :: s =>
      match fromHexChar a, fromHexChar b, hexDecode s with
      | Some x, Some y, Some r => Some (16 * x + y :: r)
      | _, _, _ => None
      end
  end.

(** * encoding/base64 *)

Definition pad : Z := 61.

(** The standard alphabet and its inverse. *)
Definition b64Char (n : Z) : Z :=
  if n <? 26 then 65 + n else if n <? 52 then 71 + n else if n <? 62 then n - 4 else if n =? 62 then 43 else 47.
Definition fromB64Char (c : Z) : option Z :=
  if (65 <=? c) && (c <=? 90) then Some (c - 65) else
  if (97 <=? c) && (c <=? 122) then Some (c - 71) else
  if (48 <=? c) && (c <=? 57) then Some (c + 4) else
  if c =? 43 then Some 62 else if c =? 47 then Some 63 else None.

Fixpoint b64Encode (padded : bool) (b : bytes) : bytes :=
  match b with
  | [] => []
  | [x] => [b64Char (x / 4); b64Char (x mod 4 * 16)] ++ (if padded then [pad; pad] else [])
  | [x; y] => [b64Char (x / 4); b64Char (x mod 4 * 16 + y / 16); b64Char (y mod 16 * 4)] ++ (if padded then [pad] else [])
  | x :: y :: z :: b =>
      [b64Char (x / 4); b64Char (x mod 4 * 16 + y / 16); b64Char (y mod 16 * 4 + z / 64); b64Char (z mod 64)]
      ++ b64Encode padded b
  end.

(** The decoder skips line ends wherever they are. *)
Definition newline (c : Z) : Prop := c = 10 ∨ c = 13.

#[global] Instance newline_dec c : Decision (newline c).
Proof. unfold newline. apply _. Defined.

(** Quanta of four characters; the last may be short.  Bits beyond the last byte are
    ignored: the encodings are not strict. *)
Fixpoint b64Quanta (padded : bool) (s : bytes) : option bytes :=
  match s with
  | [] => Some []
  | [c; d] =>
      if padded then None else
      match fromB64Char c, fromB64Char d with Some p, Some q => Some [p * 4 + q / 16] | _, _ => None end
  | [c; d; e] =>
      if padded then None else
      match fromB64Char c, fromB64Char d, fromB64Char e with
      | Some p, Some q, Some r => Some [p * 4 + q / 16; q mod 16 * 16 + r / 4]
      | _, _, _ => None
      end
  | c :: d :: e :: f :: s =>
      match fromB64Char c, fromB64Char d with
      | Some p, Some q =>
          match fromB64Char e, fromB64Char f with
          | Some r, Some t =>
              match b64Quanta padded s with
              | Some l => Some (p * 4 + q / 16 :: q mod 16 * 16 + r / 4 :: r mod 4 * 64 + t :: l)
              | None => None
              end
          | Some r, None =>
              if padded && (f =? pad) && bool_decide (s = []) then Some [p * 4 + q / 16; q mod 16 * 16 + r / 4] else None
          | None, _ =>
              if padded && (e =? pad) && (f =? pad) && bool_decide (s = []) then Some [p * 4 + q / 16] else None
          end
      | _, _ => None
      end
  | _ => None
  end.

Definition b64Decode (padded : bool) (s : bytes) : option bytes :=
  b64Quanta padded (filter (λ c, ¬ newline c) s).

(** * Noise keys *)

Definition ParseNoiseKey (s : bytes) : option bytes :=
  let s := TrimSpace s in
  let key32 (b : option bytes) := match b with Some k => if len k =? 32 then Some k else None | None => None end in
  match (if len s =? 64 then key32 (hexDecode s) else None) with
  | Some k => Some k
  | None =>
      match key32 (b64Decode true s) with
      | Some k => Some k
      | None => key32 (b64Decode false s)
      end
  end.

Definition FormatNoiseKey (key : bytes) : bytes * bytes := (hexEncode key, b64Encode true key).

(** * Decoding what was encoded *)

#[local] Ltac Zify.zify_post_hook ::= Z.to_euclidean_division_equations.

(** A list is taken three elements at a time, with a tail of at most two. *)
Lemma three_at_a_time (P : bytes → Prop) :
  P [] → (∀ x, P [x]) → (∀ x y, P [x; y]) → (∀ x y z l, P l → P (x :: y :: z :: l)) → ∀ l, P l.
Proof.
  intros H0 H1 H2 H3. fix IH 1. intros [|x [|y [|z l]]]; [done|done|done|]. apply H3, IH.
Qed.

Lemma fromHexChar_digit n : 0 ≤ n < 16 → fromHexChar (hexDigit n) = Some n.
Proof. intros Hn. unfold fromHexChar, hexDigit. repeat case_match; f_equal; lia. Qed.

Lemma fromB64Char_char n : 0 ≤ n < 64 → fromB64Char (b64Char n) = Some n.
Proof. intros Hn. unfold fromB64Char, b64Char. repeat case_match; f_equal; lia. Qed.

Lemma fromB64Char_pad : fromB64Char pad = None.
Proof. done. Qed.

Lemma hexDecode_hexEncode b : Forall is_byte b → hexDecode (hexEncode b) = Some b.
Proof.
  induction 1 as [|x b Hx Hb IH]; [done|]. unfold is_byte in Hx. cbn [hexEncode flat_map app hexDecode].
  rewrite !fromHexChar_digit by lia. unfold hexEncode in IH. rewrite IH. repeat f_equal. lia.
Qed.

Lemma b64Quanta_b64Encode padded b : Forall is_byte b → b64Quanta padded (b64Encode padded b) = Some b.
Proof.
  induction b as [|x|x y|x y z b IH] using three_at_a_time; intros Hb; [done|..];
    repeat match goal with H : Forall is_byte (_ :: _) |- _ => apply Forall_cons in H as [? H] end;
    unfold is_byte in *; destruct padded; cbn [b64Encode app b64Quanta];
    rewrite ?fromB64Char_pad, !fromB64Char_char by lia; cbn [andb].
  1-4: repeat f_equal; lia.
  all: rewrite IH by done; repeat f_equal; lia.
Qed.

(** ** The encoded texts are visible characters. *)

Lemma hexDigit_visible n : 0 ≤ n < 16 → visible (hexDigit n) = true.
Proof. intros. unfold visible, isSpace, hexDigit. case_match; lia. Qed.

Lemma b64Char_visible n : 0 ≤ n < 64 → visible (b64Char n) = true.
Proof. intros. unfold visible, isSpace, b64Char. repeat case_match; lia. Qed.

Lemma hexEncode_visible b : Forall is_byte b → Forall (λ c, visible c = true) (hexEncode b).
Proof.
  induction 1 as [|x b Hx Hb IH]; [constructor|]. unfold is_byte in Hx. cbn [hexEncode flat_map app].
  repeat constructor; [apply hexDigit_visible; lia..|done].
Qed.

Lemma b64Encode_visible padded b : Forall is_byte b → Forall (λ c, visible c = true) (b64Encode padded b).
Proof.
  induction b as [|x|x y|x y z b IH] using three_at_a_time; intros Hb; [constructor|..];
    repeat match goal with H : Forall is_byte (_ :: _) |- _ => apply Forall_cons in H as [? H] end;
    unfold is_byte in *; destruct padded; cbn [b64Encode app];
    repeat constructor; try (apply b64Char_visible; lia); by apply IH.
Qed.

Lemma filter_visible s : Forall (λ c, visible c = true) s → filter (λ c, ¬ newline c) s = s.
Proof.
  induction 1 as [|c s Hc Hs IH]; [done|]. rewrite filter_cons_True, IH; [done|].
  intros [-> | ->]; by vm_compute in Hc.
Qed.

Lemma b64Decode_b64Encode padded b : Forall is_byte b → b64Decode padded (b64Encode padded b) = Some b.
Proof.
  intros Hb. unfold b64Decode. rewrite filter_visible by by apply b64Encode_visible. by apply b64Quanta_b64Encode.
Qed.

Lemma len_hexEncode b : len (hexEncode b) = 2 * len b.
Proof. induction b as [|x b IH]; [done|]. cbn [hexEncode flat_map app]. rewrite !len_cons. unfold hexEncode in IH. lia. Qed.

(** A text without padding does not decode as a padded one when its length is not a
    multiple of four. *)
Lemma b64Quanta_length s k : b64Quanta true s = Some k → len s mod 4 = 0.
Proof.
  revert k. induction s as [s IH] using (induction_ltof1 _ length); unfold ltof in IH. intros k.
  destruct s as [|c [|d [|e [|f s]]]]; [done..|]. rewrite !len_cons. cbn [b64Quanta]. intros Hk.
  assert (Hmod : len s mod 4 = 0 → (len s + 1 + 1 + 1 + 1) mod 4 = 0) by lia.
  apply Hmod. repeat case_match; simplify_eq; try (eapply IH; [|done]; cbn; lia);
    repeat match goal with H : _ && _ = true |- _ => apply andb_true_iff in H as [? H] end;
    match goal with H : bool_decide (s = []) = true |- _ => apply bool_decide_eq_true in H as -> end; done.
Qed.

Lemma len_b64Encode padded b :
  len (b64Encode padded b) = if padded then (len b + 2) / 3 * 4 else (len b * 8 + 5) / 6.
Proof.
  induction b as [|x|x y|x y z b IH] using three_at_a_time; [by destruct padded..|].
  change (b64Encode padded (x :: y :: z :: b)) with
    (b64Char (x / 4) :: b64Char (x mod 4 * 16 + y / 16) :: b64Char (y mod 16 * 4 + z / 64) :: b64Char (z mod 64)
     :: b64Encode padded b).
  rewrite !len_cons, IH. destruct padded; lia.
Qed.

(** ** Surrounding white space *)

Definition blank (s : bytes) : Prop := Forall (λ c, isSpace c = true) s.

Lemma trimRunes_blank two three a s : blank a → trimRunes two three (a ++ s) = trimRunes two three s.
Proof. induction 1 as [|c a Hc Ha IH]; [done|]. cbn [app trimRunes]. by rewrite Hc. Qed.

Lemma TrimSpace_blank a s b : blank a → blank b → Forall (λ c, visible c = true) s → s ≠ [] →
  TrimSpace (a ++ s ++ b) = s.
Proof.
  intros Ha Hb Hs Hne. unfold TrimSpace, trimLeft, trimLast. rewrite trimRunes_blank by done. fold trimLeft trimLast.
  rewrite (trimLeft_id (s ++ b)) by (destruct Hs; done).
  unfold trimLast. rewrite reverse_app, trimRunes_blank by by apply Forall_reverse. fold trimLast.
  rewrite trimLast_id; [by rewrite reverse_involutive|].
  assert (Hr : Forall (λ c, visible c = true) (reverse s)) by by apply Forall_reverse. by destruct Hr.
Qed.

(** * Keys read back *)

Section Keys.
Context (k s : bytes) (Hlen : len k = 32) (Hk : Forall is_byte k).

Lemma parse_hex : TrimSpace s = hexEncode k → ParseNoiseKey s = Some k.
Proof.
  intros Ht. unfold ParseNoiseKey. rewrite Ht, len_hexEncode, Hlen, hexDecode_hexEncode by done. cbn -[len].
  by rewrite Hlen.
Qed.

Lemma parse_b64 padded : TrimSpace s = b64Encode padded k → ParseNoiseKey s = Some k.
Proof.
  intros Ht. unfold ParseNoiseKey. rewrite Ht. pose proof (len_b64Encode padded k) as Hl. rewrite Hlen in Hl.
  destruct (Z.eqb_spec (len (b64Encode padded k)) 64) as [H64|_]; [destruct padded; lia|].
  destruct padded.
  - rewrite b64Decode_b64Encode by done. by rewrite Hlen.
  - destruct (b64Decode true (b64Encode false k)) as [r|] eqn:Hd.
    + unfold b64Decode in Hd. rewrite filter_visible in Hd by by apply b64Encode_visible.
      apply b64Quanta_length in Hd. lia.
    + rewrite b64Decode_b64Encode by done. by rewrite Hlen.
Qed.
End Keys.

(** A 32-byte Noise key written by FormatNoiseKey, in hexadecimal or in
    base64, or in base64 without padding, with any white space around it, is read back by
    ParseNoiseKey as the same key; and whatever text ParseNoiseKey accepts gives 32
    bytes. *)
Theorem noise_key_roundtrip k a b :
  len k = 32 → Forall is_byte k → blank a → blank b →
  ParseNoiseKey (a ++ (FormatNoiseKey k).1 ++ b) = Some k ∧
  ParseNoiseKey (a ++ (FormatNoiseKey k).2 ++ b) = Some k ∧
  ParseNoiseKey (a ++ b64Encode false k ++ b) = Some k ∧
  (∀ s r, ParseNoiseKey s = Some r → len r = 32).
Proof.
  intros Hlen Hk Ha Hb. assert (Hne : ∀ t : bytes, len t ≠ 0 → t ≠ []) by (intros t Ht ->; done).
  split_and!.
  - apply parse_hex; [done..|]. apply TrimSpace_blank; [done..|by apply hexEncode_visible|].
    apply Hne. cbn. rewrite len_hexEncode. lia.
  - apply (parse_b64 _ _ Hlen Hk true). apply TrimSpace_blank; [done..|by apply b64Encode_visible|].
    apply Hne. cbn. rewrite len_b64Encode. lia.
  - apply (parse_b64 _ _ Hlen Hk false). apply TrimSpace_blank; [done..|by apply b64Encode_visible|].
    apply Hne. rewrite len_b64Encode. lia.
  - intros s r. unfold ParseNoiseKey. repeat case_match; intros; simplify_eq; lia.
Qed.

Lemma noise_key_roundtrip_witness :
  ParseNoiseKey ([32] ++ (FormatNoiseKey (repeat 171 32)).1 ++ [10]) = Some (repeat 171 32).
Proof.
  apply (noise_key_roundtrip (repeat 171 32) [32] [10]);
    [done|apply Forall_forall; intros x ->%list_elem_of_In%repeat_spec; unfold is_byte; lia|by constructor|by constructor].
Defined.
