(* ===== verification/HandshakeClient.v ===== *)
(** The client's half of the handshake (src/tunnel/client.go): [handshake], the
    routing of ACK frames to it by [dispatch], and the session [establish] builds.

    [handshake] is a loop over what its select sees: the ACK frames queued for it,
    its timer, the client closing, the dial's context ending.  Sending a SYN has no
    result the loop looks at; the SYNs it sends are its output. *)
From S2P Require Import Prelude GoStrings Protocol Noise F64 Rtt FecLoss FecWire Erasure FecBlock FecSender FecReceiver Replay Delivery AckCoalesce Flow Sack Arq Session Mtu.
Local Open Scope Z_scope.
Local Open Scope go_scope.

Definition clientMaxHandshakeAttempts : Z := 8.
Definition clientHandshakeBackoff : Z := 300 * millisecond.
Definition clientHandshakeBackoffMax : Z := 2 * second.

(** What the handshake reads of the client: its configuration as [NewClient] leaves
    it. *)
Record clientCfg := mkClientCfg {
  cPasswords : list bytes;
  cServerPub : bytes;
  cMagic : Z;
  cSendWindow : Z;
  cAutoWindow : bool;
  cMaxPkt : Z;
  cRecovery : option bool;
  cWideWindow : option bool;
  cFEC : option bool;
  cFECExtParity : option bool;
  cWestwood : option bool;
  cMtuProbe : option bool;
}.

(** [NewClient] and [newServer]: passwords trimmed, empty ones dropped. *)
Definition cleanPasswords (ps : list bytes) : list bytes :=
  filter (λ p, p ≠ []) (map TrimSpace ps).

Definition resolveMagic (magic : Z) : Z := if magic =? 0 then UDPC_MAGIC_DEFAULT else magic.
Definition resolveSendWindow (w : Z) : Z := if w <=? 0 then defaultSendWindow else w.

Inductive hs_error :=
| ErrTargetTooLong
| ErrNoise (e : noise_error)
| ErrNonce
| ErrNonceCollision
| ErrSealSyn
| ErrAckPayload (e : wire_error)
| ErrCipherInit (e : wire_error)
| ErrNoiseFinish (e : noise_error)
| ErrClientClosed
| ErrContext
| ErrHandshakeTimeout.

Record pendingHandshake := mkPending {
  ackMACs : list bytes;
  ch : list UDPCFrame;    (* the candidates, at most [ackQueueCap] *)
}.

Definition ackQueueCap : Z := 8.

Abbreviation pending_map := (gmap bytes pendingHandshake).

Section WithInterfaces.
Context {C : Crypto} {N : NoisePrims} {RS : ReedSolomon}.

Definition verifyAck (p : pendingHandshake) (wire : bytes) : bool :=
  existsb (λ k, is_Ok (VerifyFrameAuth wire k)) (ackMACs p).

(** * Starting *)

(** The local variables of [handshake] once the loop begins. *)
Record hsClient := mkHs {
  hsNonce : bytes;
  hsPayload : bytes;
  hsFlags : Z;
  hsNK : option ClientNK;
  hsMACs : list bytes;
}.

Definition clientEncrypted (cfg : clientCfg) : bool := negb (bool_decide (cServerPub cfg = zeros 32)).

(** The client's half of Noise, if a server key is configured: message 1. *)
Definition startNoise (cfg : clientCfg) (rand : option bytes) :
    result (option ClientNK * bytes) noise_error :=
  if clientEncrypted cfg then
    nk <-! NewClientNK (cServerPub cfg) rand ;;
    let '(m, nk) := Message1 nk in
    m <-! m ;;
    Ok (Some nk, m)
  else Ok (None, []).

Definition synPayload (nonce : bytes) (unix : Z) (target msg1 : bytes) : bytes :=
  appendTargetTLV (nonce ++ be_bytes 8 (u64 unix)) target ++ msg1.

Definition flag (b : bool) (f : Z) : Z := if b then f else 0.

Definition synFlags (cfg : clientCfg) : Z :=
  let fl := Z.lor 0 (flag (fecEnabled (cRecovery cfg)) FLAG_RECOVERY_CAPABLE) in
  let fl := Z.lor fl (flag (fecEnabled (cWideWindow cfg)) FLAG_WIDE_WINDOW) in
  if fecEnabled (cFEC cfg) then
    Z.lor (Z.lor fl FLAG_FEC_CAPABLE) (flag (fecEnabled (cFECExtParity cfg)) FLAG_FEC_EXT_PARITY)
  else fl.

Definition startHandshake (cfg : clientCfg) (pending : pending_map) (target : bytes)
    (noiseRand nonceRand : option bytes) (unix : Z) : result hsClient hs_error * pending_map :=
  if TargetMaxLen <? len target then (Err ErrTargetTooLong, pending) else
  match startNoise cfg noiseRand with
  | Err e => (Err (ErrNoise e), pending)
  | Ok (nk, m1) =>
      match nonceRand with
      | None => (Err ErrNonce, pending)
      | Some nonce =>
          if bool_decide (is_Some (pending !! nonce)) then (Err ErrNonceCollision, pending) else
          let macs := map (λ psk, AckMAC (DerivePSKHandshakeKeys psk nonce)) (cPasswords cfg) in
          (Ok (mkHs nonce (synPayload nonce unix target m1) (synFlags cfg) nk macs),
           <[nonce := mkPending macs []]> pending)
      end
  end.

(** The deferred removal. *)
Definition endHandshake (pending : pending_map) (hs : hsClient) : pending_map :=
  delete (hsNonce hs) pending.

(** * Sending *)

(** The PSK of an attempt: the configured ones in turn. *)
Definition attemptPSK (cfg : clientCfg) (attempt : Z) : bytes :=
  nth (Z.to_nat (Z.rem (attempt - 1) (len (cPasswords cfg)))) (cPasswords cfg) [].

Definition synFrame (cfg : clientCfg) (hs : hsClient) : UDPCFrame :=
  mkFrame (cMagic cfg) UDPC_VERSION CMD_HANDSHAKE_SYN (hsFlags hs) 0 0 0 0 0 (hsPayload hs) [].

Definition sealSyn (cfg : clientCfg) (hs : hsClient) (attempt : Z) : bytes :=
  SealFrameMAC (synFrame cfg hs) (SynMAC (DerivePSKHandshakeKeys (attemptPSK cfg attempt) (hsNonce hs))).

Definition attemptTimeout (attempt : Z) : Z :=
  Z.min (i64 (Z.shiftl clientHandshakeBackoff (attempt - 1))) clientHandshakeBackoffMax.

(** * Receiving *)

(** The ACK branch of [dispatch]. *)
Definition dispatchAck (pending : pending_map) (f : UDPCFrame) : pending_map :=
  if (SessionID f =? 0) || negb (PacketNo f =? 0) || negb (Seq f =? 0) || negb (Ack f =? 0)
     || (len (Data f) <? ackPayloadBase) then pending else
  let nonce := upto clientNonceSize (Data f) in
  match pending !! nonce with
  | None => pending
  | Some p =>
      if verifyAck p (raw f) && (len (ch p) <? ackQueueCap)
      then <[nonce := mkPending (ackMACs p) (ch p ++ [f])]> pending else pending
  end.

(** The first configured PSK under whose key the ACK verifies. *)
Fixpoint matchAckPSK (wire : bytes) (passwords macs : list bytes) : option bytes :=
  match passwords, macs with
  | psk :: passwords, k :: macs =>
      if is_Ok (VerifyFrameAuth wire k) then Some psk else matchAckPSK wire passwords macs
  | _, _ => None
  end.

(** The negotiated features: offered here and echoed there. *)
Definition clientNegotiate (cfg : clientCfg) (flags : Z) (k : FrameKeys) : FrameKeys :=
  let has f := negb (Z.land flags f =? 0) in
  let fec := fecEnabled (cFEC cfg) && has FLAG_FEC_CAPABLE in
  mkFrameKeys (Send k) (Recv k) fec (fec && has FLAG_FEC_EXT_PARITY)
    (fecEnabled (cWideWindow cfg) && has FLAG_WIDE_WINDOW)
    (fecEnabled (cRecovery cfg) && has FLAG_RECOVERY_CAPABLE).

Inductive ack_result :=
| AckIgnored
| AckFailed (e : hs_error)
| AckEstablished (sid : Z) (noise : option NoiseSession) (keys : FrameKeys) (granted : bytes).

(** One ACK taken from the channel.  An empty PSK counts as no match, as in the
    source. *)
Definition acceptAck (cfg : clientCfg) (hs : hsClient) (ack : UDPCFrame) : ack_result :=
  match matchAckPSK (raw ack) (cPasswords cfg) (hsMACs hs) with
  | None | Some [] => AckIgnored
  | Some psk =>
      match splitAckPayload (Data ack) (clientEncrypted cfg) with
      | Err e => AckFailed (ErrAckPayload e)
      | Ok (granted, noiseMsg2) =>
          if negb (bool_decide (upto clientNonceSize (Data ack) = hsNonce hs)) then AckIgnored else
          let serverNonce := slice clientNonceSize ackPayloadBase (Data ack) in
          match hsNK hs with
          | None =>
              match ClientFrameCiphers (DerivePSKSessionKeys psk (hsNonce hs) serverNonce (SessionID ack)) with
              | Err e => AckFailed (ErrCipherInit e)
              | Ok k => AckEstablished (SessionID ack) None (clientNegotiate cfg (Flags ack) k) granted
              end
          | Some nk =>
              match (Finish nk noiseMsg2).1 with
              | Err e => AckFailed (ErrNoiseFinish e)
              | Ok sess =>
                  AckEstablished (SessionID ack) (Some sess)
                    (clientNegotiate cfg (Flags ack) (newFrameKeys (SendCipher sess) (RecvCipher sess))) granted
              end
          end
      end
  end.

(** * The loop *)

Inductive hs_event :=
| EvAck (f : UDPCFrame)
| EvTimer
| EvClosed
| EvContext.

Inductive hs_outcome :=
| Waiting                       (* the events ran out *)
| HsFailed (e : hs_error)
| HsEstablished (sid : Z) (noise : option NoiseSession) (keys : FrameKeys) (granted : bytes).

(** From the select of an attempt on; the list is the SYNs sent from here. *)
Fixpoint hsWait (cfg : clientCfg) (hs : hsClient) (attempt : Z) (evs : list hs_event) :
    list bytes * hs_outcome :=
  match evs with
  | [] => ([], Waiting)
  | EvAck f :: evs =>
      match acceptAck cfg hs f with
      | AckIgnored => hsWait cfg hs attempt evs
      | AckFailed e => ([], HsFailed e)
      | AckEstablished sid noise keys granted => ([], HsEstablished sid noise keys granted)
      end
  | EvTimer :: evs =>
      let attempt := attempt + 1 in
      if attempt <=? clientMaxHandshakeAttempts then
        let syn := sealSyn cfg hs attempt in
        if len syn =? 0 then ([], HsFailed ErrSealSyn) else
        let '(syns, o) := hsWait cfg hs attempt evs in (syn :: syns, o)
      else ([], HsFailed ErrHandshakeTimeout)
  | EvClosed :: _ => ([], HsFailed ErrClientClosed)
  | EvContext :: _ => ([], HsFailed ErrContext)
  end.

Definition hsRun (cfg : clientCfg) (hs : hsClient) (evs : list hs_event) : list bytes * hs_outcome :=
  let syn := sealSyn cfg hs 1 in
  if len syn =? 0 then ([], HsFailed ErrSealSyn) else
  let '(syns, o) := hsWait cfg hs 1 evs in (syn :: syns, o).

(** * The session *)

(** [establish]: the session of the negotiated keys; the memo of an earlier
    session's loss seeds its FEC sender. *)
Definition establishSession (cfg : clientCfg) (sid : Z) (keys : FrameKeys) (memo : option fecLossMemo)
    (now : Z) : session :=
  let s := newSession true (cMagic cfg) sid keys (cSendWindow cfg) (cAutoWindow cfg)
             (fecEnabled (cWestwood cfg)) (clientLimit keys) now in
  match fecSend (arq s), m ← memo; memo_get m now with
  | Some f, Some v => set_arq s (set_fec (arq s) (Some (seedLoss f v)))
  | _, _ => s
  end.

Definition startCap (cfg : clientCfg) : Z := mtuStartCap (cMaxPkt cfg) (mtuProbeEnabled (cMtuProbe cfg)).

(** Registration in [c.sessions], between the two looks at [c.closed]. *)
Definition registerSession (sessions : gmap Z session) (s : session) (closedBefore closedAfter : bool)
    (e : env) : result session unit * list output * gmap Z session :=
  if closedBefore then (Err tt, (closeSession s "" e).1, sessions) else
  let sessions := <[Session.sid s := s]> sessions in
  if closedAfter then (Err tt, (closeSession s "" e).1, <[Session.sid s := (closeSession s "" e).2]> sessions)
  else (Ok s, [], sessions).

End WithInterfaces.
