(* ===== verification/HandshakeServer.v ===== *)
(** The server's half of the handshake and its session table (src/tunnel/server.go):
    the SYN gate of [serveConn], [handleHandshake], [ServerSession.Close] as far as
    the table goes, [cleanupLoop] and [Close].  The SessionClosed event is the
    session's own [OutClosed]; sweeps drop it.

    [handleHandshake] runs on its own goroutine and blocks twice, waiting for a
    handshake slot and dialing the target; it is [admitSyn], [prepare] and, after the
    dial, [build] and then [commitStep] from phase to phase, one for each atomic access
    to what goroutines share: the LoadOrStore, the second look at [closed], the mark
    [registered], the counter, the path, the SYN cache, the answer.  Other goroutines
    run in between; [commit] and [handleHandshake] are runs nothing interferes with.
    [ServerSession.Close] is cut likewise: [beginClose], then [closeStep] for the mark,
    the counter and the table.  The clock, random draws, the outcome of the dial and
    whether the slot came free are arguments. *)
From S2P Require Import Prelude GoStrings Protocol Noise F64 Rtt FecLoss FecWire Erasure FecBlock FecSender FecReceiver Replay Targets Delivery AckCoalesce Flow Sack Arq Session ClientSession ServerSession SynGuard Endpoint HandshakeClient.
Local Open Scope Z_scope.

Definition synTimestampWindow : Z := 300.
Definition handshakeMaxConcurrent : Z := 64.
Definition sessionIdleTimeout : Z := 180 * second.

(** The server's configuration as [newServer] leaves it. *)
Record srvConf := mkSrvConf {
  sPasswords : list bytes;
  sMagic : Z;
  sPriv : option bytes;          (* privKey, if hasPrivKey *)
  sAllowed : list bytes;
  sTarget : bytes;
  sFEC : option bool;
  sFECExtParity : option bool;
  sRecovery : option bool;
  sWideWindow : option bool;
  sWestwood : option bool;
  sSendWindow : Z;
  sAutoWindow : bool;
  sMaxRecvQueue : Z;
  sMaxSessions : Z;
  sPaths : serverCfg;
}.

Inductive srv_event :=
| SessionEstablished (sid : Z) (remote : AddrPort) (net : network) (address detail : bytes)
| SessionTargetDenied (remote : AddrPort) (net : network) (address detail : bytes).

Inductive srv_output :=
| SrvReply (port : Z) (remote : AddrPort) (wire : bytes)    (* replyFromOrigPort *)
| SrvEvent (ev : srv_event)
| SrvDial (sid : Z) (net : network) (address : bytes)
| SrvCloseUpstream.

Section WithInterfaces.
Context {C : Crypto} {N : NoisePrims} {RS : ReedSolomon}.
Context (toLower : bytes → bytes).    (* strings.ToLower on non-ASCII text *)

(** What the table holds is a pointer: [ident] tells one stored session from another,
    [registered] is its mark. *)
Record handle := mkHandle { ident : Z; registered : bool }.

Record server := mkServerState {
  synC : synCache;
  synL : synLimiter;
  sessions : gmap Z serverSession;
  handles : gmap Z handle;       (* the same keys *)
  liveSessions : Z;
  idents : Z;                    (* the next [ident] *)
  slots : Z;                     (* len(handshakeSem) *)
  srvClosed : bool;
}.

Definition set_synC (st : server) (c : synCache) : server :=
  mkServerState c (synL st) (sessions st) (handles st) (liveSessions st) (idents st) (slots st) (srvClosed st).
Definition set_slots (st : server) (n : Z) : server :=
  mkServerState (synC st) (synL st) (sessions st) (handles st) (liveSessions st) (idents st) n (srvClosed st).
Definition set_synL (st : server) (l : synLimiter) : server :=
  mkServerState (synC st) l (sessions st) (handles st) (liveSessions st) (idents st) (slots st) (srvClosed st).
Definition set_live (st : server) (n : Z) : server :=
  mkServerState (synC st) (synL st) (sessions st) (handles st) n (idents st) (slots st) (srvClosed st).
Definition set_table (st : server) (m : gmap Z serverSession) (h : gmap Z handle) (next : Z) : server :=
  mkServerState (synC st) (synL st) m h (liveSessions st) next (slots st) (srvClosed st).
Definition set_entry (st : server) (sid : Z) (s : serverSession) : server :=
  set_table st (<[sid := s]> (sessions st)) (handles st) (idents st).
Definition set_handle (st : server) (sid : Z) (h : handle) : server :=
  set_table st (sessions st) (<[sid := h]> (handles st)) (idents st).
Definition set_srvClosed (st : server) : server :=
  mkServerState (synC st) (synL st) (sessions st) (handles st) (liveSessions st) (idents st) (slots st) true.

(** Is session [i] the one stored under [sid]? *)
Definition holds (st : server) (sid i : Z) : bool :=
  match handles st !! sid with Some h => ident h =? i | None => false end.

Definition newServerState : server :=
  mkServerState newSynCache (newSynLimiter synRatePerSec synBurst) ∅ ∅ 0 0 0 false.

Definition hasPrivKey (cfg : srvConf) : bool := bool_decide (is_Some (sPriv cfg)).

(** * The SYN gate *)

Inductive syn_verdict :=
| SynRateLimited
| SynMalformed
| SynBacklogFull
| SynUnverified
| SynVerified (psk : bytes).

Definition serveSyn (cfg : srvConf) (st : server) (f : UDPCFrame) (remote : AddrPort) (now : Z)
    (range : bucket_map → list bytes) : syn_verdict * server :=
  let '(ok, l) := Allow (synL st) remote.1 now range in
  let st := set_synL st l in
  if negb ok then (SynRateLimited, st) else
  if negb (SessionID f =? 0) || negb (PacketNo f =? 0) || negb (Seq f =? 0) || negb (Ack f =? 0)
     || (len (Data f) <? synPayloadBase) then (SynMalformed, st) else
  if handshakeMaxConcurrent <=? slots st then (SynBacklogFull, st) else
  match matchSynPSK (raw f) (sPasswords cfg) (upto clientNonceSize (Data f)) with
  | [] => (SynUnverified, st)
  | psk => (SynVerified psk, st)
  end.

(** * Admission: [handleHandshake] up to the SYN cache *)

(** What the goroutine carries from here. *)
Record ticket := mkTicket {
  tkKey : synCacheKey;
  tkNonce : bytes;
  tkPSK : bytes;
  tkRemote : AddrPort;
  tkPort : Z;
  tkTarget : bytes;
  tkMsg1 : bytes;
  tkFlags : Z;
}.

Inductive admission :=
| BadLength
| ExpiredTimestamp
| BadPayload (e : wire_error)
| TrailingBytes
| TargetDenied
| SessionCapReached
| Replayed
| InProgress
| SynAdmitted (t : ticket).

Definition timestampOf (data : bytes) : Z := i64 (be_val (slice clientNonceSize synPayloadBase data)).

(** [nowUnix] and [now] are the two clock readings, in seconds and nanoseconds. *)
Definition admitSyn (cfg : srvConf) (st : server) (remote : AddrPort) (f : UDPCFrame) (origPort : Z)
    (matchedPSK : bytes) (nowUnix now : Z) : admission * list srv_output * server :=
  let data := Data f in
  let expectedLen := synPayloadBase + (if hasPrivKey cfg then noiseMsg1Size else 0) in
  if bool_decide (matchedPSK = []) || (len data <? expectedLen)
     || (synPayloadBase + targetRequestTLVLen + TargetMaxLen + noiseMsg1Size <? len data)
  then (BadLength, [], st) else
  let clientNonce := upto clientNonceSize data in
  let timestamp := timestampOf data in
  if (timestamp <? nowUnix - synTimestampWindow) || (nowUnix + synTimestampWindow <? timestamp)
  then (ExpiredTimestamp, [], st) else
  match splitSynPayload data (hasPrivKey cfg) with
  | Err e => (BadPayload e, [], st)
  | Ok (requested, msg1) =>
      if negb (len data =? synPayloadBase + len (requestedTargetTLV requested) + len msg1)
      then (TrailingBytes, [], st) else
      if negb (bool_decide (requested = [])) && negb (targetAllowed toLower requested (sAllowed cfg)) then
        let '(net, addr) := parseTargetNetworkAndAddr toLower requested in
        (TargetDenied, [SrvEvent (SessionTargetDenied remote net addr requested)], st)
      else
      if (0 <? sMaxSessions cfg) && (sMaxSessions cfg <=? liveSessions st)
      then (SessionCapReached, [], st) else
      let keys := DerivePSKHandshakeKeys matchedPSK clientNonce in
      let key := makeSynCacheKey clientNonce (SynMAC keys) in
      let '((cached, owner), c) := Acquire (synC st) key now remote in
      let st := set_synC st c in
      match cached with
      | Some ack => (Replayed, [SrvReply origPort remote ack], st)
      | None =>
          if negb owner then (InProgress, [], st)
          else (SynAdmitted (mkTicket key clientNonce matchedPSK remote origPort requested msg1 (Flags f)), [], st)
      end
  end.

(** * Preparation: from the slot to the dial *)

(** The deferred functions: the reservation is given back unless the handshake
    completed, the slot once it was taken. *)
Definition abandon (st : server) (t : ticket) : server := set_synC st (Abort_ (synC st) (tkKey t)).
Definition release (st : server) : server := set_slots st (slots st - 1).

(** The draws until one is a new session's; the list ends when rand.Read fails. *)
Fixpoint pickSID (draws : list Z) (m : gmap Z serverSession) : option Z :=
  match draws with
  | [] => None
  | sid :: draws =>
      if negb (sid =? 0) && bool_decide (m !! sid = None) then Some sid else pickSID draws m
  end.

Record dialing := mkDialing {
  dTicket : ticket;
  dSid : Z;
  dNoise : option (NoiseSession * bytes);
  dNet : network;
  dAddr : bytes;
}.

Inductive slot_outcome := SlotFree | SlotClosed | SlotTimeout.

(** The Noise half, [None] if it fails, [Some None] without a private key. *)
Definition serverNoise (cfg : srvConf) (t : ticket) (rand : option bytes) : option (option (NoiseSession * bytes)) :=
  match sPriv cfg with
  | None => Some None
  | Some priv =>
      match NewServerNoiseSession priv (tkMsg1 t) rand with Ok r => Some (Some r) | Err _ => None end
  end.

(** [prepare] ends with the dial under way and the slot held, or with everything
    given back. *)
Definition prepare (cfg : srvConf) (st : server) (t : ticket) (slot : slot_outcome) (noiseRand : option bytes)
    (draws : list Z) : option dialing * list srv_output * server :=
  match slot with
  | SlotClosed | SlotTimeout => (None, [], abandon st t)
  | SlotFree =>
      let st := set_slots st (slots st + 1) in
      match serverNoise cfg t noiseRand with
      | None => (None, [], release (abandon st t))
      | Some noise =>
          let target := if bool_decide (tkTarget t = []) then sTarget cfg else tkTarget t in
          let '(net, addr) := parseTargetNetworkAndAddr toLower target in
          match pickSID draws (sessions st) with
          | None => (None, [], release (abandon st t))
          | Some sid => (Some (mkDialing t sid noise net addr), [SrvDial sid net addr], st)
          end
      end
  end.

(** * Completion *)

Definition serverNegotiate (cfg : srvConf) (flags : Z) (k : FrameKeys) : FrameKeys :=
  let has f := negb (Z.land flags f =? 0) in
  let fec := fecEnabled (sFEC cfg) && has FLAG_FEC_CAPABLE in
  mkFrameKeys (Send k) (Recv k) fec (fec && fecEnabled (sFECExtParity cfg) && has FLAG_FEC_EXT_PARITY)
    (fecEnabled (sWideWindow cfg) && has FLAG_WIDE_WINDOW)
    (fecEnabled (sRecovery cfg) && has FLAG_RECOVERY_CAPABLE).

Definition ackFlags (k : FrameKeys) : Z :=
  let fl := Z.lor 0 (flag (recovery k) FLAG_RECOVERY_CAPABLE) in
  let fl := Z.lor fl (flag (wideWindow k) FLAG_WIDE_WINDOW) in
  if fec k then Z.lor (Z.lor fl FLAG_FEC_CAPABLE) (flag (fecExt k) FLAG_FEC_EXT_PARITY) else fl.

Definition serverKeys (d : dialing) (serverNonce : bytes) : result FrameKeys wire_error :=
  match dNoise d with
  | Some (n, _) => Ok (newFrameKeys (SendCipher n) (RecvCipher n))
  | None => ServerFrameCiphers (DerivePSKSessionKeys (tkPSK (dTicket d)) (tkNonce (dTicket d)) serverNonce (dSid d))
  end.

Definition ackPayload (d : dialing) (serverNonce : bytes) : bytes :=
  appendTargetTLV (tkNonce (dTicket d) ++ serverNonce) (tkTarget (dTicket d)) ++
  match dNoise d with Some (_, msg2) => msg2 | None => [] end.

Definition ackFrameOf (cfg : srvConf) (d : dialing) (k : FrameKeys) (serverNonce : bytes) : UDPCFrame :=
  mkFrame (sMagic cfg) UDPC_VERSION CMD_HANDSHAKE_ACK (ackFlags k) (dSid d) 0 0 0 advertisedWindowFull
    (ackPayload d serverNonce) [].

Definition sealAck (cfg : srvConf) (d : dialing) (k : FrameKeys) (serverNonce : bytes) : bytes :=
  SealFrameMAC (ackFrameOf cfg d k serverNonce)
    (AckMAC (DerivePSKHandshakeKeys (tkPSK (dTicket d)) (tkNonce (dTicket d)))).

Definition createSession (cfg : srvConf) (d : dialing) (k : FrameKeys) (now : Z) : serverSession :=
  newServerSession
    (newSession false (sMagic cfg) (dSid d) k (sSendWindow cfg) (sAutoWindow cfg) (fecEnabled (sWestwood cfg))
       (serverLimit (sMaxRecvQueue cfg) k) now)
    (tkRemote (dTicket d)) (tkPort (dTicket d)).

(** ** From the dial to the store *)

(** A session that is built, and what its ACK needs. *)
Record opening := mkOpening { oDial : dialing; oKeys : FrameKeys; oNonce : bytes; oSession : serverSession }.

(** After the dial: [dialed] tells whether it succeeded. *)
Definition build (cfg : srvConf) (st : server) (d : dialing) (dialed : bool) (serverNonce : option bytes) (e : senv) :
    option opening * list srv_output * server :=
  let t := dTicket d in
  if negb dialed then (None, [], release (abandon st t)) else
  if srvClosed st then (None, [SrvCloseUpstream], release (abandon (abandon st t) t)) else
  match serverNonce with
  | None => (None, [SrvCloseUpstream], release (abandon st t))
  | Some nonce =>
      match serverKeys d nonce with
      | Err _ => (None, [SrvCloseUpstream], release (abandon st t))
      | Ok k =>
          let k := serverNegotiate cfg (tkFlags t) k in
          (Some (mkOpening d k nonce (createSession cfg d k (now (base e)))), [], st)
      end
  end.

(** ** From the store to the answer *)

Inductive phase :=
| Built
| Stored (i : Z)            (* in the table as session [i] *)
| Checked (i : Z)           (* the server was not closed *)
| Marked (i : Z)            (* [registered] *)
| Counted (i : Z)
| Pathed
| Cached                    (* the ACK is in the SYN cache *)
| Refused (i : option Z)    (* the session is still to be closed *)
| Leaving.

(** What is left of [Close] in a session that is not [registered], and will not be. *)
Definition closeUnregistered (st : server) (sid i : Z) (e : env) : server :=
  match sessions st !! sid with
  | Some s =>
      if holds st sid i && negb (sessClosed (core s))
      then set_entry st sid (set_core s (closeSession (core s) "" e).2) else st
  | None => st
  end.

(** One step; [late] tells whether the server closed since [build] looked. *)
Definition commitStep (cfg : srvConf) (st : server) (o : opening) (ph : phase) (late : bool) (e : senv) :
    option phase * list srv_output * server :=
  let d := oDial o in
  let t := dTicket d in
  let sid := dSid d in
  match ph with
  | Built =>
      match sessions st !! sid with
      | Some _ => (Some (Refused None), [SrvCloseUpstream], abandon st t)
      | None =>
          (Some (Stored (idents st)), [],
           set_table st (<[sid := oSession o]> (sessions st)) (<[sid := mkHandle (idents st) false]> (handles st)) (idents st + 1))
      end
  | Stored i =>
      if srvClosed st || late then (Some (Refused (Some i)), [SrvCloseUpstream], abandon st t)
      else (Some (Checked i), [], st)
  | Checked i => (Some (Marked i), [], if holds st sid i then set_handle st sid (mkHandle i true) else st)
  | Marked i => (Some (Counted i), [], set_live st (liveSessions st + 1))
  | Counted i =>
      (Some Pathed, [],
       match sessions st !! sid with
       | Some s => if holds st sid i then set_entry st sid (setPath (sPaths cfg) s (tkPort t) (tkRemote t) e) else st
       | None => st
       end)
  | Pathed => (Some Cached, [], set_synC st (Complete (synC st) (tkKey t) (sealAck cfg d (oKeys o) (oNonce o))))
  | Cached =>
      (None, [SrvReply (tkPort t) (tkRemote t) (sealAck cfg d (oKeys o) (oNonce o));
              SrvEvent (SessionEstablished sid (tkRemote t) (dNet d) (dAddr d) (tkTarget t))], release st)
  | Refused i =>
      (Some Leaving, [], match i with Some i => closeUnregistered st sid i (base e) | None => st end)
  | Leaving => (None, [], release (abandon st t))
  end.

(** The steps in a row; at most seven. *)
Fixpoint commitRun (cfg : srvConf) (fuel : nat) (st : server) (o : opening) (ph : phase) (late : bool) (e : senv) :
    list srv_output * server :=
  match fuel with
  | O => ([], st)
  | S fuel =>
      match commitStep cfg st o ph late e with
      | (None, out, st) => (out, st)
      | (Some ph, out, st) => let '(out', st) := commitRun cfg fuel st o ph late e in (out ++ out', st)
      end
  end.

Definition commit (cfg : srvConf) (st : server) (d : dialing) (dialed closedLate : bool)
    (serverNonce : option bytes) (e : senv) : list srv_output * server :=
  match build cfg st d dialed serverNonce e with
  | (None, out, st) => (out, st)
  | (Some o, out, st) => let '(out', st) := commitRun cfg 7 st o Built closedLate e in (out ++ out', st)
  end.

(** The whole of [handleHandshake], on a goroutine nothing else interferes with. *)
Definition handleHandshake (cfg : srvConf) (st : server) (remote : AddrPort) (f : UDPCFrame) (origPort : Z)
    (matchedPSK : bytes) (nowUnix : Z) (slot : slot_outcome) (noiseRand : option bytes) (draws : list Z)
    (dialed closedLate : bool) (serverNonce : option bytes) (e : senv) : list srv_output * server :=
  match admitSyn cfg st remote f origPort matchedPSK nowUnix (now (base e)) with
  | (SynAdmitted t, out1, st) =>
      match prepare cfg st t slot noiseRand draws with
      | (Some d, out2, st) =>
          let '(out3, st) := commit cfg st d dialed closedLate serverNonce e in (out1 ++ out2 ++ out3, st)
      | (None, out2, st) => (out1 ++ out2, st)
      end
  | (_, out, st) => (out, st)
  end.

(** * The table afterwards *)

(** [ServerSession.Close], once the session is marked closed. *)
Inductive close_phase := Closed_ | Unmarked | Uncounted.
#[export] Instance close_phase_eq : EqDecision close_phase.
Proof. solve_decision. Defined.

Record closing := mkClosing { cSid : Z; cIdent : Z; cPhase : close_phase }.

(** The mark is taken back, or [Close] leaves the table alone; the counter; the table. *)
Definition closeStep (st : server) (c : closing) : option closing * server :=
  match cPhase c with
  | Closed_ =>
      match handles st !! cSid c with
      | Some h =>
          if holds st (cSid c) (cIdent c) && registered h
          then (Some (mkClosing (cSid c) (cIdent c) Unmarked), set_handle st (cSid c) (mkHandle (cIdent c) false))
          else (None, st)
      | None => (None, st)
      end
  | Unmarked => (Some (mkClosing (cSid c) (cIdent c) Uncounted), set_live st (liveSessions st - 1))
  | Uncounted => (None, set_table st (delete (cSid c) (sessions st)) (delete (cSid c) (handles st)) (idents st))
  end.

(** What a call on the session under [sid] leaves: its new state, and a [Close] to be
    finished if the call closed it. *)
Definition settle (st : server) (sid : Z) (s s' : serverSession) : option closing * server :=
  (if sessClosed (core s') && negb (sessClosed (core s))
   then h ← handles st !! sid; Some (mkClosing sid (ident h) Closed_) else None,
   set_entry st sid s').

(** [Close] of a session of the table, up to its mark; a second call finds it closed. *)
Definition beginClose (st : server) (sid : Z) (reason : string) (e : env) : list output * option closing * server :=
  match sessions st !! sid with
  | Some s =>
      if sessClosed (core s) then ([], None, st) else
      let '(out, c) := closeSession (core s) reason e in
      let '(r, st) := settle st sid s (set_core s c) in (out, r, st)
  | None => ([], None, st)
  end.

Definition idle (now : Z) (s : serverSession) : bool := sessionIdleTimeout <? now - lastActive (core s).

(** A tick of [cleanupLoop] at one session of its walk. *)
Definition cleanupVisit (st : server) (sid now : Z) (e : env) : list output * option closing * server :=
  match sessions st !! sid with
  | Some s => if idle now s then beginClose st sid "" e else ([], None, st)
  | None => ([], None, st)
  end.

(** [Server.Close]: the flag, then its walk, which closes whatever it meets
    ([beginClose]). *)
Definition closeServer (st : server) : bool * server :=
  if srvClosed st then (false, st) else (true, set_srvClosed st).

(** The rest of [serveConn]: a datagram for an established session. *)
Definition serveFrame (cfg : srvConf) (st : server) (wire : bytes) (remote : AddrPort) (origPort : Z) (e : senv) :
    list output * option closing * server :=
  match parseUDPCFrame wire (sMagic cfg) with
  | Err _ => ([], None, st)
  | Ok f =>
      if Cmd f =? CMD_HANDSHAKE_SYN then ([], None, st) else
      match sessions st !! SessionID f with
      | None => ([], None, st)
      | Some s =>
          let '(_, out, s') := serverReceive (sPaths cfg) s wire remote origPort e in
          let '(r, st) := settle st (SessionID f) s s' in (out, r, st)
      end
  end.

(** Nothing interfering: the session is stored, registered and answered, or all is
    given back. *)
Lemma commit_alone cfg st d late nonce e k :
  srvClosed st = false → serverKeys d nonce = Ok k →
  let t := dTicket d in
  let k := serverNegotiate cfg (tkFlags t) k in
  let s := createSession cfg d k (now (base e)) in
  let ack := sealAck cfg d k nonce in
  let r := commit cfg st d true late (Some nonce) e in
  match sessions st !! dSid d with
  | Some _ => r = ([SrvCloseUpstream], release (abandon (abandon st t) t))
  | None =>
      if late then
        r.1 = [SrvCloseUpstream] ∧
        sessions r.2 = <[dSid d := set_core s (closeSession (core s) "" (base e)).2]> (sessions st) ∧
        liveSessions r.2 = liveSessions st ∧ slots r.2 = slots st - 1 ∧ synC r.2 = synC (abandon (abandon st t) t)
      else
        r.1 = [SrvReply (tkPort t) (tkRemote t) ack;
               SrvEvent (SessionEstablished (dSid d) (tkRemote t) (dNet d) (dAddr d) (tkTarget t))] ∧
        sessions r.2 = <[dSid d := setPath (sPaths cfg) s (tkPort t) (tkRemote t) e]> (sessions st) ∧
        handles r.2 = <[dSid d := mkHandle (idents st) true]> (handles st) ∧
        liveSessions r.2 = liveSessions st + 1 ∧ slots r.2 = slots st - 1 ∧
        synC r.2 = Complete (synC st) (tkKey t) ack
  end.
Proof.
  intros Hopen Hk t k' s ack r. subst r. unfold commit, build. cbn [negb]. rewrite Hopen, Hk. fold t k' s.
  cbn [commitRun commitStep oDial]. fold t. destruct (sessions st !! dSid d) as [s0|] eqn:Hs; [done|].
  cbn [commitRun commitStep oDial oKeys oNonce oSession]. fold t ack.
  cbn [srvClosed set_table]. rewrite Hopen. destruct late; cbn [orb].
  - cbn [commitRun commitStep oDial]. unfold closeUnregistered, holds.
    cbn [abandon set_synC set_table sessions handles]. rewrite !lookup_insert_eq. cbn [ident]. rewrite Z.eqb_refl. cbn.
    by rewrite insert_insert_eq.
  - cbn [commitRun commitStep oDial oKeys oNonce oSession]. unfold holds. cbn.
    do 4 (rewrite ?lookup_insert_eq; cbn; rewrite ?Z.eqb_refl; cbn). by rewrite !insert_insert_eq.
Qed.

(** The session a handshake stores. *)
Lemma commit_stores cfg st d dialed late nonce e out st' s :
  sessions st !! dSid d = None → commit cfg st d dialed late nonce e = (out, st') → sessions st' !! dSid d = Some s →
  ∃ k, let s0 := createSession cfg d k (now (base e)) in
  s = if late then set_core s0 (closeSession (core s0) "" (base e)).2
      else setPath (sPaths cfg) s0 (tkPort (dTicket d)) (tkRemote (dTicket d)) e.
Proof.
  intros Hnone Hc Hs. destruct (decide (dialed = true ∧ srvClosed st = false ∧ is_Some nonce)) as [(-> & Ho & [n ->])|Hno].
  - destruct (serverKeys d n) as [k|] eqn:Hk.
    + pose proof (commit_alone cfg st d late n e k Ho Hk) as H. cbv zeta in H. rewrite Hnone, Hc in H. cbn [fst snd] in H.
      exists (serverNegotiate cfg (tkFlags (dTicket d)) k).
      destruct late; destruct H as (_ & E & _); rewrite E, lookup_insert_eq in Hs; by injection Hs as <-.
    + exfalso. unfold commit, build in Hc. cbn [negb] in Hc. rewrite Ho, Hk in Hc. injection Hc as <- <-. cbn in Hs. congruence.
  - exfalso. assert (E : sessions st' = sessions st); [|congruence]. unfold commit, build in Hc.
    destruct dialed; cbn [negb] in Hc; [|by injection Hc as <- <-].
    destruct (srvClosed st); [by injection Hc as <- <-|]. destruct nonce; [destruct Hno; by eauto|by injection Hc as <- <-].
Qed.

End WithInterfaces.

(** * A concrete pair, for evaluation *)

(** A cipher without secrets: the laws hold of it, and it computes at once. *)
#[local] Instance plain_crypto : Crypto := {|
  hkdf_sha256 secret salt info n := upto n (secret ++ salt ++ zeros n);
  aead_seal k n p a := p ++ zeros 16;
  aead_open k n c a :=
    let p := upto (len c - 16) c in
    if (16 <=? len c) && bool_decide (from (len p) c = zeros 16) then Some p else None;
|}.

#[local] Instance plain_crypto_laws : CryptoLaws plain_crypto.
Proof.
  split; cbn [hkdf_sha256 aead_seal aead_open plain_crypto].
  - intros. apply len_upto. rewrite !len_app, len_zeros by lia.
    pose proof (len_nonneg secret). pose proof (len_nonneg salt). lia.
  - intros. by rewrite len_app, len_zeros.
  - intros k n p a _ _ _. rewrite len_app, len_zeros by lia. pose proof (len_nonneg p).
    destruct (Z.leb_spec 16 (len p + 16)); [|lia]. rewrite (upto_app (len p + 16 - 16)) by lia.
    rewrite from_app by done. by rewrite bool_decide_eq_true_2.
  - intros k n c a p _ _. destruct (Z.leb_spec 16 (len c)); [|done]. simpl.
    case_bool_decide as Ht; [|done]. intros [= <-]. by rewrite <- Ht, len_upto, upto_from by lia.
Qed.

Definition demo_client : clientCfg :=
  mkClientCfg [str "alpha"; str "beta"] (zeros 32) UDPC_MAGIC_DEFAULT 256 true 1450 None None (Some false) None None None.
Definition demo_server (cap : Z) : srvConf :=
  mkSrvConf [str "alpha"; str "beta"] UDPC_MAGIC_DEFAULT None [str "tcp://h:*"] (str "tcp://127.0.0.1:22")
    None None None None None 256 true 4096 cap toy_cfg.
Definition demo_from : AddrPort := (str "192.0.2.7", 4000).
Definition demo_nonce : bytes := replicate 16 7.
Definition demo_target : bytes := str "tcp://h:80".

(** The client's handshake, started at second 1000. *)
Definition demo_hs : hsClient :=
  mkHs demo_nonce (synPayload demo_nonce 1000 demo_target []) (synFlags demo_client) None
    (map (λ psk, AckMAC (DerivePSKHandshakeKeys psk demo_nonce)) [str "alpha"; str "beta"]).

Definition demo_syn : UDPCFrame :=
  with_raw (synFrame demo_client demo_hs) (hsPayload demo_hs) (sealSyn demo_client demo_hs 1).
