(* ===== verification/Replies.v ===== *)
(** Where a server session's datagrams go: [replyFromOrigPort] and [sendToSession] of
    src/tunnel/server.go, [sendToSessionBatch] of src/tunnel/session_transport.go, on
    top of the pool of reply sockets ([SendSock]) and the paths of a session
    ([ServerSession]).

    What the system answers to binds and writes is an argument, one [wire_env] per
    datagram; the datagrams it accepts are the result. *)
From S2P Require Import Prelude GoStrings Protocol Noise F64 Rtt FecLoss FecWire Erasure FecBlock FecSender FecReceiver Replay Targets Delivery AckCoalesce Flow Sack Arq Session ClientSession ServerSession Endpoint SynGuard HandshakeClient HandshakeServer PortRange Spread SendSock.
Local Open Scope Z_scope.

(** A datagram accepted for sending: from which port ([None]: the listening socket), to
    whom. *)
Record sent := mkSent { via : option Z; dst : AddrPort; wire : bytes }.

Record wire_env := mkWire {
  bound : option Z;                        (* the socket a bind of the port gives *)
  portWrites : list (option write_error);  (* writes through the port's socket *)
  rebound : option Z;                      (* the socket a second bind gives *)
  mainWrite : option write_error;          (* the write through the listening socket *)
}.

Definition mainSend (a : AddrPort) (data : bytes) (w : wire_env) : list sent :=
  match mainWrite w with None => [mkSent None a data] | Some _ => [] end.

Definition replyFromOrigPort (bindPort : Z) (p : sendSockPool) (origPort : Z) (a : AddrPort) (data : bytes)
    (w : wire_env) : list sent * sendSockPool :=
  if (0 <? origPort) && negb (origPort =? bindPort) then
    match Get p origPort (bound w) with
    | (Ok id, p) =>
        match WriteToUDPAddrPort 1 p id (portWrites w) (rebound w) with
        | (Written, p) => ([mkSent (Some origPort) a data], p)
        | (_, p) => (mainSend a data w, p)
        end
    | (Err _, p) => (mainSend a data w, p)
    end
  else (mainSend a data w, p).

Section WithInterfaces.
Context {C : Crypto} {RS : ReedSolomon}.

Definition set_lastOrigPort (s : serverSession) (port : Z) : serverSession := set_paths s port (pathAddrs s).

(** The most recently used path with a port, the first met on ties. *)
Definition newestPath (m : gmap Z pathEntry) (keys : list Z) (acc : Z * option pathEntry) : Z * option pathEntry :=
  foldl (λ '(port, best) k,
    match m !! k with
    | None => (port, best)
    | Some pe =>
        if (0 <? k) && match best with None => true | Some b => usedAt b <? usedAt pe end then (k, Some pe) else (port, best)
    end) acc keys.

(** The path [sendToSession] chooses; [order] is the iteration order of the map. *)
Definition chosenPath (s : serverSession) (order : list Z) : Z * option pathEntry :=
  match pathAddrs s !! lastOrigPort s with
  | Some pe => (lastOrigPort s, Some pe)
  | None => newestPath (pathAddrs s) order (lastOrigPort s, None)
  end.

Definition sendToSession (bindPort : Z) (p : sendSockPool) (s : serverSession) (data : bytes) (order : list Z)
    (w : wire_env) : list sent * sendSockPool * serverSession :=
  match chosenPath s order with
  | (port, Some pe) =>
      if 0 <? port then (replyFromOrigPort bindPort p port (addr pe) data w, set_lastOrigPort s port)
      else match raddr s with Some ra => (replyFromOrigPort bindPort p 0 ra data w, s) | None => ([], p, s) end
  | (_, None) => match raddr s with Some ra => (replyFromOrigPort bindPort p 0 ra data w, s) | None => ([], p, s) end
  end.

Fixpoint sendEach (bindPort : Z) (p : sendSockPool) (s : serverSession) (order : list Z) (wires : list (bytes * wire_env)) :
    list sent * sendSockPool * serverSession :=
  match wires with
  | [] => ([], p, s)
  | (data, w) :: wires =>
      let '(o, p, s) := sendToSession bindPort p s data order w in
      let '(os, p, s) := sendEach bindPort p s order wires in (o ++ os, p, s)
  end.

(** The rest of a batch through the port's socket, without falling back. *)
Fixpoint writeEach (p : sendSockPool) (id port : Z) (a : AddrPort) (wires : list (bytes * wire_env)) :
    list sent * sendSockPool :=
  match wires with
  | [] => ([], p)
  | (data, w) :: wires =>
      let '(r, p) := WriteToUDPAddrPort 1 p id (portWrites w) (rebound w) in
      let '(os, p) := writeEach p id port a wires in
      (match r with Written => [mkSent (Some port) a data] | _ => [] end ++ os, p)
  end.

Fixpoint mainEach (bindPort : Z) (p : sendSockPool) (a : AddrPort) (wires : list (bytes * wire_env)) :
    list sent * sendSockPool :=
  match wires with
  | [] => ([], p)
  | (data, w) :: wires =>
      let '(o, p) := replyFromOrigPort bindPort p 0 a data w in
      let '(os, p) := mainEach bindPort p a wires in (o ++ os, p)
  end.

(** [sendToSessionBatch]: [bind] is what a bind of the port gives, [n] how many datagrams
    the system takes from the batch. *)
Definition sendToSessionBatch (bindPort : Z) (p : sendSockPool) (s : serverSession) (wires : list (bytes * wire_env))
    (order : list Z) (bind : option Z) (n : nat) : list sent * sendSockPool * serverSession :=
  let port := lastOrigPort s in
  match pathAddrs s !! port with
  | None => sendEach bindPort p s order wires
  | Some pe =>
      let a := addr pe in
      if (0 <? port) && negb (port =? bindPort) then
        match Get p port bind with
        | (Err _, p) => sendEach bindPort p s order wires
        | (Ok id, p) =>
            let p := unpinWrite (addRefs p id 1) id in
            let '(os, p) := writeEach p id port a (drop n wires) in
            (map (mkSent (Some port) a) (take n wires).*1 ++ os, p, s)
        end
      else
        let '(os, p) := mainEach bindPort p a (drop n wires) in
        (map (mkSent None a) (take n wires).*1 ++ os, p, s)
  end.

(** * Each datagram at most once, in order, on one route *)

(** The wires of [os] are, in order, among those of [ws]; all go to [a]. *)
Definition routed (a : AddrPort) (os : list sent) (ws : list bytes) : Prop :=
  map wire os `sublist_of` ws ∧ Forall (λ o, dst o = a) os.

Lemma routed_nil a ws : routed a [] ws.
Proof. split; [apply sublist_nil_l|constructor]. Qed.
Lemma routed_app a os1 os2 ws1 ws2 : routed a os1 ws1 → routed a os2 ws2 → routed a (os1 ++ os2) (ws1 ++ ws2).
Proof. intros [H1 H2] [H3 H4]. split; [rewrite map_app; by apply sublist_app|by apply Forall_app_2]. Qed.
Lemma routed_one a v data : routed a [mkSent v a data] [data].
Proof. by repeat constructor. Qed.
Lemma routed_map a v ws : routed a (map (mkSent v a) ws) ws.
Proof.
  induction ws as [|x ws IH]; [apply routed_nil|]. apply (routed_app a [mkSent v a x] _ [x] ws); [apply routed_one|done].
Qed.

Lemma mainSend_routed a data w : routed a (mainSend a data w) [data].
Proof. unfold mainSend. destruct (mainWrite w); [apply routed_nil|apply routed_one]. Qed.

Lemma reply_routed bindPort p port a data w : routed a (replyFromOrigPort bindPort p port a data w).1 [data].
Proof.
  unfold replyFromOrigPort. destruct (_ && _); [|apply mainSend_routed].
  destruct (Get _ _ _) as [[id|?] p1]; [|apply mainSend_routed].
  destruct (WriteToUDPAddrPort _ _ _ _ _) as [[] p2]; [apply routed_one|apply mainSend_routed..].
Qed.

Lemma writeEach_routed p id port a wires : routed a (writeEach p id port a wires).1 wires.*1.
Proof.
  revert p. induction wires as [|[data w] wires IH]; intros p; [apply routed_nil|]. cbn [writeEach].
  destruct (WriteToUDPAddrPort _ _ _ _ _) as [r p1]. specialize (IH p1).
  destruct (writeEach _ _ _ _ _) as [os p2]. apply (routed_app a _ _ [data]); [|exact IH].
  destruct r; [apply routed_one|apply routed_nil..].
Qed.

Lemma mainEach_routed bindPort p a wires : routed a (mainEach bindPort p a wires).1 wires.*1.
Proof.
  revert p. induction wires as [|[data w] wires IH]; intros p; [apply routed_nil|]. cbn [mainEach].
  pose proof (reply_routed bindPort p 0 a data w) as H. destruct (replyFromOrigPort _ _ _ _ _ _) as [o p1].
  specialize (IH p1). destruct (mainEach _ _ _ _) as [os p2]. by apply (routed_app a _ _ [data]).
Qed.

(** ** The route of a session *)

(** Where [sendToSession] sends: a path, or the listening socket and the last
    authenticated address. *)
Definition route (s : serverSession) (order : list Z) : option (Z * AddrPort) :=
  match chosenPath s order with
  | (port, Some pe) => if 0 <? port then Some (port, addr pe) else pair 0 <$> raddr s
  | (_, None) => pair 0 <$> raddr s
  end.

Lemma sendToSession_route bindPort p s data order w :
  sendToSession bindPort p s data order w =
  match route s order with
  | Some (port, a) => (replyFromOrigPort bindPort p port a data w, if 0 <? port then set_lastOrigPort s port else s)
  | None => ([], p, s)
  end.
Proof.
  unfold sendToSession, route. destruct (chosenPath s order) as [port [pe|]].
  - destruct (0 <? port) eqn:E; [by rewrite E|]. by destruct (raddr s).
  - by destruct (raddr s).
Qed.

Lemma newestPath_in m keys acc port pe :
  newestPath m keys acc = (port, Some pe) → acc = (port, Some pe) ∨ m !! port = Some pe ∧ 0 < port.
Proof.
  revert acc. induction keys as [|k keys IH]; intros [pt best] H; [by left|]. cbn in H. apply IH in H.
  destruct (m !! k) as [pe'|] eqn:E; [|done]. destruct (_ && _) eqn:G; [|done]. destruct H as [[= <- <-]|H]; [|by right].
  right. apply andb_true_iff in G as [G%Z.ltb_lt _]. done.
Qed.

(** The route is a path, or the remote address. *)
Lemma route_known s order port a :
  route s order = Some (port, a) → (∃ pe, pathAddrs s !! port = Some pe ∧ addr pe = a ∧ 0 < port) ∨ port = 0 ∧ raddr s = Some a.
Proof.
  unfold route, chosenPath. destruct (pathAddrs s !! lastOrigPort s) as [pe|] eqn:E.
  - destruct (Z.ltb_spec 0 (lastOrigPort s)); [intros [= <- <-]; left; by exists pe|].
    destruct (raddr s); [intros [= <- <-]; by right|done].
  - destruct (newestPath _ _ _) as [pt [pe|]] eqn:F.
    + apply newestPath_in in F as [[=]|[F1 F2]]. destruct (Z.ltb_spec 0 pt); [|lia]. intros [= <- <-]. left. by exists pe.
    + destruct (raddr s); [intros [= <- <-]; by right|done].
Qed.

(** Sending does not change the route. *)
Lemma route_again s order port a :
  route s order = Some (port, a) → route (if 0 <? port then set_lastOrigPort s port else s) order = Some (port, a).
Proof.
  intros H. destruct (route_known _ _ _ _ H) as [(pe & Hp & <- & Hpos)|[-> _]]; [|done].
  destruct (Z.ltb_spec 0 port); [|lia]. unfold route, chosenPath. cbn [set_lastOrigPort set_paths lastOrigPort pathAddrs].
  rewrite Hp. by destruct (Z.ltb_spec 0 port); [|lia].
Qed.

(** ** Any answers *)

Lemma sendEach_routed bindPort p s order wires port a :
  route s order = Some (port, a) → routed a (sendEach bindPort p s order wires).1.1 wires.*1.
Proof.
  revert p s. induction wires as [|[data w] wires IH]; intros p s Hr; [apply routed_nil|]. cbn [sendEach].
  rewrite sendToSession_route, Hr. pose proof (reply_routed bindPort p port a data w) as H.
  destruct (replyFromOrigPort _ _ _ _ _ _) as [o p1]. specialize (IH p1 _ (route_again _ _ _ _ Hr)).
  destruct (sendEach _ _ _ _ _) as [[os p2] s2]. by apply (routed_app a _ _ [data]).
Qed.

Definition paths_ok (s : serverSession) : Prop := ∀ k, is_Some (pathAddrs s !! k) → 0 < k ≤ 65535.

Lemma route_path s order pe :
  paths_ok s → pathAddrs s !! lastOrigPort s = Some pe → route s order = Some (lastOrigPort s, addr pe).
Proof.
  intros Hok Hp. unfold route, chosenPath. rewrite Hp. destruct (Hok (lastOrigPort s)) as [H _]; [by eexists|].
  by destruct (Z.ltb_spec 0 (lastOrigPort s)); [|lia].
Qed.

Lemma batch_routed bindPort p s wires order bind n port a :
  paths_ok s → route s order = Some (port, a) →
  routed a (sendToSessionBatch bindPort p s wires order bind n).1.1 wires.*1.
Proof.
  intros Hok Hr. unfold sendToSessionBatch.
  destruct (pathAddrs s !! lastOrigPort s) as [pe|] eqn:E; [|by eapply sendEach_routed].
  assert (H : ∀ v os, routed a os (drop n wires).*1 →
    routed a (map (mkSent v a) (take n wires).*1 ++ os) wires.*1).
  { intros v os Hos. rewrite <- (take_drop n wires) at 2. rewrite fmap_app. apply routed_app; [apply routed_map|done]. }
  pose proof (route_path s order pe Hok E) as Hr'. rewrite Hr in Hr'. injection Hr' as -> ->.
  destruct (_ && _).
  - destruct (Get _ _ _) as [[id|?] p1]; [|by eapply sendEach_routed].
    pose proof (writeEach_routed (unpinWrite (addRefs p1 id 1) id) id (lastOrigPort s) (addr pe) (drop n wires)) as Hw.
    destruct (writeEach _ _ _ _ _) as [os p2]. by apply H.
  - pose proof (mainEach_routed bindPort p (addr pe) (drop n wires)) as Hw. destruct (mainEach _ _ _ _) as [os p2]. by apply H.
Qed.

(** ** When the system accepts everything *)

Definition accepts (w : wire_env) : Prop :=
  is_Some (bound w) ∧ default None (head (portWrites w)) = None ∧ mainWrite w = None.

Lemma reclaimLoop_open fuel p : pclosed (reclaimLoop fuel p) = pclosed p.
Proof.
  revert p. induction fuel as [|fuel IH]; intros p; [done|]. cbn [reclaimLoop]. destruct (scan p) as [v|]; [|done].
  unfold evict. destruct (negb _); [done|]. destruct (pconns p !! v.1) as [id|]; [|done].
  destruct (id =? v.2); [|done]. by rewrite IH.
Qed.

Lemma unpin_open p id : pclosed (unpinWrite p id) = pclosed p.
Proof. unfold unpinWrite. destruct (_ && _); [|done]. unfold reclaimOverflow. by rewrite reclaimLoop_open. Qed.

Lemma Get_open p port b :
  0 < port ≤ 65535 → pclosed p = false → is_Some b → ∃ id p', Get p port b = (Ok id, p') ∧ pclosed p' = false.
Proof.
  intros Hp Ho [id Hb]. unfold Get, getFast. destruct (Z.leb_spec port 0); [lia|]. destruct (Z.ltb_spec 65535 port); [lia|].
  cbn [orb]. rewrite Ho. destruct (pconns p !! port) as [i|] eqn:E; [by eexists i, _|].
  unfold getSlow. rewrite E, Ho, Hb. eexists id, _. split; [done|]. unfold reclaimFor. destruct (_ <? _); [|done].
  cbn [addRefs set_objs pclosed]. unfold reclaimOverflow. by rewrite reclaimLoop_open.
Qed.

Lemma write_open p id w :
  accepts w → ∃ p', WriteToUDPAddrPort 1 p id (portWrites w) (rebound w) = (Written, p') ∧ pclosed p' = pclosed p.
Proof.
  intros (_ & Hw & _). cbn [WriteToUDPAddrPort]. unfold writeOnce. rewrite Hw. cbn. eexists. split; [done|].
  by rewrite unpin_open.
Qed.

(** The source port of a route. *)
Definition source (bindPort port : Z) : option Z := if (0 <? port) && negb (port =? bindPort) then Some port else None.

Lemma reply_accepted bindPort p port a data w :
  port ≤ 65535 → pclosed p = false → accepts w →
  ∃ p', replyFromOrigPort bindPort p port a data w = ([mkSent (source bindPort port) a data], p') ∧ pclosed p' = false.
Proof.
  intros Hp Ho Hw. unfold replyFromOrigPort, source. destruct (_ && _) eqn:G.
  - apply andb_true_iff in G as [G%Z.ltb_lt _].
    destruct (Get_open p port (bound w) ltac:(lia) Ho (proj1 Hw)) as (id & p1 & -> & H1).
    destruct (write_open p1 id w Hw) as (p2 & -> & H2). eexists. split; [done|congruence].
  - unfold mainSend. destruct Hw as (_ & _ & ->). by eexists.
Qed.

Lemma sendEach_accepted bindPort p s order wires port a :
  route s order = Some (port, a) → port ≤ 65535 → pclosed p = false → Forall accepts wires.*2 →
  (sendEach bindPort p s order wires).1.1 = map (mkSent (source bindPort port) a) wires.*1.
Proof.
  revert p s. induction wires as [|[data w] wires IH]; intros p s Hr Hp Ho Hw; [done|]. cbn [sendEach].
  apply Forall_cons in Hw as [Hw Hws]. rewrite sendToSession_route, Hr.
  destruct (reply_accepted bindPort p port a data w Hp Ho Hw) as (p1 & -> & H1).
  specialize (IH p1 _ (route_again _ _ _ _ Hr) Hp H1 Hws). destruct (sendEach _ _ _ _ _) as [[os p2] s2].
  cbn [fst] in IH. by rewrite IH.
Qed.

Lemma writeEach_accepted p id port a wires :
  pclosed p = false → Forall accepts wires.*2 → (writeEach p id port a wires).1 = map (mkSent (Some port) a) wires.*1.
Proof.
  revert p. induction wires as [|[data w] wires IH]; intros p Ho Hw; [done|]. cbn [writeEach].
  apply Forall_cons in Hw as [Hw Hws]. destruct (write_open p id w Hw) as (p1 & -> & H1).
  specialize (IH p1 ltac:(congruence) Hws). destruct (writeEach _ _ _ _ _) as [os p2]. cbn [fst] in IH. by rewrite IH.
Qed.

Lemma mainEach_accepted bindPort p a wires :
  Forall accepts wires.*2 → (mainEach bindPort p a wires).1 = map (mkSent None a) wires.*1.
Proof.
  revert p. induction wires as [|[data w] wires IH]; intros p Hw; [done|]. cbn [mainEach].
  apply Forall_cons in Hw as [(_ & _ & Hw) Hws]. cbn [snd] in Hw. unfold replyFromOrigPort, mainSend. cbn [Z.ltb Z.compare andb].
  rewrite Hw.
  specialize (IH p Hws). destruct (mainEach _ _ _ _) as [os p2]. cbn [fst] in IH. by rewrite IH.
Qed.

Lemma batch_accepted bindPort p s wires order bind n port a :
  paths_ok s → route s order = Some (port, a) → port ≤ 65535 → pclosed p = false → is_Some bind → Forall accepts wires.*2 →
  (sendToSessionBatch bindPort p s wires order bind n).1.1 = map (mkSent (source bindPort port) a) wires.*1.
Proof.
  intros Hok Hr Hp Ho Hb Hw. unfold sendToSessionBatch.
  destruct (pathAddrs s !! lastOrigPort s) as [pe|] eqn:E; [|by apply sendEach_accepted].
  assert (H : ∀ v, map (mkSent v a) (take n wires).*1 ++ map (mkSent v a) (drop n wires).*1 = map (mkSent v a) wires.*1).
  { intros v. by rewrite <- map_app, <- fmap_app, take_drop. }
  assert (Hd : Forall accepts (drop n wires).*2) by (rewrite fmap_drop; by apply Forall_drop).
  pose proof (route_path s order pe Hok E) as Hr'. rewrite Hr in Hr'. injection Hr' as -> ->. unfold source.
  destruct (_ && _) eqn:G.
  - apply andb_true_iff in G as [G%Z.ltb_lt _].
    destruct (Get_open p (lastOrigPort s) bind ltac:(lia) Ho Hb) as (id & p1 & -> & H1).
    pose proof (writeEach_accepted (unpinWrite (addRefs p1 id 1) id) id (lastOrigPort s) (addr pe) (drop n wires)) as Hx.
    rewrite unpin_open in Hx. specialize (Hx H1 Hd). destruct (writeEach _ _ _ _ _) as [os p2]. cbn [fst] in *. by rewrite Hx.
  - pose proof (mainEach_accepted bindPort p (addr pe) (drop n wires) Hd) as Hx. destruct (mainEach _ _ _ _) as [os p2].
    cbn [fst] in *. by rewrite Hx.
Qed.


(** * Replies go to authenticated addresses *)

(** Every address of the session satisfies [A], and its paths have ports. *)
Record known (A : AddrPort → Prop) (s : serverSession) : Prop := {
  kn_remote : ∀ a, raddr s = Some a → A a;
  kn_paths : ∀ k pe, pathAddrs s !! k = Some pe → A (addr pe);
}.

Lemma known_core A s c : known A s → known A (set_core s c).
Proof. intros []. by split. Qed.
Lemma known_same A s s' : raddr s' = raddr s → pathAddrs s' = pathAddrs s → known A s → known A s'.
Proof. intros E1 E2 [H1 H2]. split; rewrite ?E1, ?E2; done. Qed.

Lemma updateRemoteAddr_known A s a b : A a → known A s → known A (updateRemoteAddr s a b).
Proof.
  intros Ha Hk. assert (H : known A (set_raddr s a)) by (destruct Hk; split; [by intros ? [= <-]|done]).
  unfold updateRemoteAddr. destruct (raddr s); [|done]. case_bool_decide; [done|]. by destruct (_ && _).
Qed.

Lemma setPath_known cfg A s port a e : A a → known A s → known A (setPath cfg s port a e).
Proof.
  intros Ha Hk. unfold setPath. destruct (_ <=? _); [done|]. destruct (_ && _); [done|]. destruct Hk as [H1 H2].
  split; [done|]. cbn [set_paths pathAddrs]. intros k pe. rewrite lookup_insert_Some.
  intros [[_ <-]|[_ H]]; [done|]. revert H. unfold evictPath. destruct (_ && _); [|by apply H2].
  destruct (oldestPath _ _) as [[q ?]|]; rewrite lookup_delete_Some; intros [_ H]; by eapply H2.
Qed.

Lemma noteObserved_known A s n : known A s → known A (noteObservedPayload s n).
Proof. unfold noteObservedPayload. destruct (_ <=? _); [done|]. destruct (_ <=? _); [done|]. by apply known_same. Qed.

Lemma applyMtuCommit_known cfg A s n : known A s → known A (applyMtuCommit cfg s n).
Proof. intros Hk. unfold applyMtuCommit. cbv zeta. destruct (negb _ && _); by apply (known_same _ s). Qed.

Lemma acceptPathResponse_known A s a d e : known A s → known A (acceptPathResponse s a d e).2.
Proof.
  unfold acceptPathResponse. destruct (negb _); [done|]. destruct (_ !! _); [|done]. destruct (_ || _); [done|].
  by apply known_same.
Qed.

Lemma sendPathChallenge_known A s a port e : known A s → known A (sendPathChallenge s a port e).2.
Proof.
  intros Hk. unfold sendPathChallenge. destruct (challengeFor s a.1 e) as [[tok s1]|] eqn:H; [|by apply (known_same _ s)].
  assert (E : known A s1).
  { revert H. unfold challengeFor. destruct (_ !! a.1); [|destruct (random e); [|done]]; intros [= _ <-]; by apply (known_same _ s). }
  destruct (sendControlTo _ _ _ _) as [[? ?] ?]. by apply known_core.
Qed.

Ltac know := repeat first [assumption | apply known_core | apply setPath_known; [assumption|] | apply updateRemoteAddr_known; [assumption|]].

Lemma handleDataFromPath_known cfg A s f a port e :
  A a → known A s → known A (handleDataFromPath cfg s f a port e).2.
Proof.
  intros Ha Hk. unfold handleDataFromPath. apply (noteObserved_known A s (len (Data f))) in Hk.
  destruct (offer _ _ _ _) as [[ok acks] d]. destruct (sendACKs _ _ _) as [out c].
  destruct (negb ok); cbn [snd]; know.
Qed.

Lemma server_deliver_known cfg A s rec a port e :
  A a → known A s → known A (server_deliverRecoveredFEC cfg s rec a port e).2.
Proof.
  intros Ha. revert s. induction rec as [|[sq p] rec IH]; intros s Hk; [done|]. cbn [server_deliverRecoveredFEC].
  destruct (sq =? 0).
  - specialize (IH s Hk). by destruct (server_deliverRecoveredFEC _ _ _ _ _ _).
  - pose proof (handleDataFromPath_known cfg A s (frameOf (core s) CMD_DATA sq 0 0 p) a port e Ha Hk) as H.
    destruct (handleDataFromPath _ _ _ _ _ _) as [[? out] s1]. specialize (IH s1 H).
    by destruct (server_deliverRecoveredFEC _ _ _ _ _ _).
Qed.

Lemma serverHandle_known cfg A s f a port e : A a → known A s → known A (serverHandle cfg s f a port e).2.
Proof.
  intros Ha Hk. unfold serverHandle. destruct (_ =? CMD_SACK); [by destruct (handleSACK _ _ _); apply known_core|].
  destruct (_ =? CMD_PING); [by destruct (sendControl _ _ _) as [[? ?] ?]; apply known_core|].
  destruct (_ =? CMD_FEC).
  { destruct (fecReceive _ _) as [rec k]. apply server_deliver_known; [done|]. by apply known_core. }
  destruct (_ =? CMD_FIN); [by destruct (closeSession _ _ _); apply known_core|].
  destruct (_ =? CMD_MTU_PROBE).
  { destruct (mtuProbe cfg); [|done]. by destruct (sendControl _ _ _) as [[? ?] ?]; apply known_core. }
  destruct (_ =? CMD_MTU_COMMIT); [by apply applyMtuCommit_known|done].
Qed.

Lemma handleIncomingFrame_known cfg A s f a port e :
  A a → known A s → known A (handleIncomingFrame cfg s f a port e).2.
Proof.
  intros Ha Hk. unfold handleIncomingFrame. destruct (negb _).
  - assert (H : ∃ ok s1, (if Cmd f =? CMD_PATH_RESPONSE then acceptPathResponse s a (Data f) e else (false, s)) = (ok, s1) ∧ known A s1).
    { destruct (_ =? _); [|by eexists _, _]. pose proof (acceptPathResponse_known A s a (Data f) e Hk).
      destruct (acceptPathResponse _ _ _ _) as [ok s1]. by eexists _, _. }
    destruct H as (ok & s1 & -> & H1). destruct ok; cbn [snd].
    + know.
    + pose proof (sendPathChallenge_known A s1 a port e H1). by destruct (sendPathChallenge _ _ _ _).
  - destruct (_ =? CMD_DATA).
    + destruct (fecReceive _ _) as [rec k].
      assert (H0 : known A (set_core (openMtuGate s) k)) by (apply known_core; by apply (known_same _ s)).
      pose proof (server_deliver_known cfg A _ rec a port e Ha H0) as H1.
      destruct (server_deliverRecoveredFEC _ _ _ _ _ _) as [out1 s2].
      pose proof (handleDataFromPath_known cfg A s2 f a port e Ha H1) as H2.
      by destruct (handleDataFromPath _ _ _ _ _ _) as [[ok out2] s3].
    + match goal with |- context [serverHandle cfg ?s1 f a port e] =>
        assert (H1 : known A s1) end.
      { know. }
      pose proof (serverHandle_known cfg A _ f a port e Ha H1). by destruct (serverHandle _ _ _ _ _ _).
Qed.

(** The datagram is a record of the session that opens under its key. *)
Definition authentic (s : session) (w : bytes) : Prop :=
  ∃ f q, parseUDPCFrame w (smagic s) = Ok f ∧ SessionID f = sid s ∧ OpenFrameAEADInto f (Recv (skeys s)) = Ok q.

Lemma serverReceive_known cfg A s w a port e :
  (authentic (core s) w → A a) → known A s → known A (serverReceive cfg s w a port e).2.
Proof.
  intros Ha Hk. unfold serverReceive. destruct (parseUDPCFrame _ _) as [f|] eqn:Hf; [|done].
  destruct (Z.eqb_spec (SessionID f) (sid (core s))) as [Es|]; [|done]. unfold processIncomingFrame.
  destruct (_ && _); [done|]. destruct (negb _); [done|].
  destruct (OpenFrameAEADInto _ _) as [q|] eqn:Hq; [|done]. assert (Haa : A a) by (apply Ha; by exists f, q).
  destruct (Accept _ _) as [fresh rf]. destruct (negb fresh).
  - destruct (if _ =? _ then _ else _) as [out c]. by apply known_core.
  - match goal with |- context [handleIncomingFrame cfg ?s1 ?g a port e] =>
      pose proof (handleIncomingFrame_known cfg A s1 g a port e Haa (known_core _ _ _ Hk)) as H end.
    destruct (handleIncomingFrame _ _ _ _ _ _) as [[ok out] s2]. destruct (negb ok); [|done]. cbn [snd].
    destruct (_ =? _); [by apply known_core|done].
Qed.

(** The addresses authenticated in a run that starts at [h]. *)
Inductive heard (cfg : serverCfg) (h : serverHalf) (xs : list (stimulus * senv)) (a : AddrPort) : Prop :=
| Heard pre w port e post :
    xs = pre ++ (Receive w a port, e) :: post →
    authentic (core (srv (runs (serverStep cfg) h pre).2)) w → heard cfg h xs a.

Lemma heard_later cfg h x e xs a : heard cfg (serverStep cfg h x e).2 xs a → heard cfg h ((x, e) :: xs) a.
Proof.
  intros [pre w port e' post -> H]. apply (Heard _ _ _ _ ((x, e) :: pre) w port e' post); [done|].
  cbn [runs]. destruct (serverStep cfg h x e) as [o h1]. cbn [snd] in H. by destruct (runs _ _ pre).
Qed.

Lemma runs_known cfg A h xs :
  known A (srv h) → known (λ a, A a ∨ heard cfg h xs a) (srv (runs (serverStep cfg) h xs).2).
Proof.
  revert h A. induction xs as [|[x e] xs IH]; intros h A Hk; cbn [runs].
  { destruct Hk as [H1 H2]. split; eauto. }
  set (B := λ a, A a ∨ heard cfg h ((x, e) :: xs) a).
  assert (H1 : known B (srv (serverStep cfg h x e).2)).
  { assert (Hb : known B (srv h)) by (destruct Hk as [K1 K2]; split; unfold B; eauto).
    destruct x as [w a port|c]; cbn [serverStep].
    - pose proof (serverReceive_known cfg B (srv h) w a port e) as H. destruct (serverReceive _ _ _ _ _ _) as [[? ?] ?].
      apply H; [|done]. intros Hau. right. by apply (Heard _ _ _ _ [] w port e xs).
    - destruct (doCall _ _ _) as [out k]. by apply known_core. }
  pose proof (heard_later cfg h x e xs) as Hl. destruct (serverStep cfg h x e) as [o h1]. cbn [snd] in *.
  specialize (IH h1 B H1). destruct (runs _ h1 xs) as [os h2]. cbn [snd] in *.
  destruct IH as [K1 K2]. split; [intros a Ha|intros k pe Hp].
  - destruct (K1 a Ha) as [H|H%Hl]; [exact H|by right].
  - destruct (K2 k pe Hp) as [H|H%Hl]; [exact H|by right].
Qed.

(** ** Where a session with known addresses sends *)

Lemma sends_known A bindPort s order wires p :
  known A s → Forall (λ o, A (dst o)) (sendEach bindPort p s order wires).1.1.
Proof.
  intros Hk. destruct (route s order) as [[port a]|] eqn:E.
  - destruct (sendEach_routed bindPort p s order wires port a E) as [_ H]. eapply Forall_impl; [exact H|].
    cbv beta. intros o ->. apply route_known in E as [(pe & H1 & <- & _)|[_ H1]]; [by apply (kn_paths _ _ Hk _ _ H1)|by apply (kn_remote _ _ Hk)].
  - clear -E. induction wires as [|[data w] ws IH]; [constructor|]. cbn [sendEach]. rewrite sendToSession_route, E.
    by destruct (sendEach _ _ _ _ ws) as [[os ?] ?].
Qed.

Lemma batch_known A bindPort p s wires order bind n :
  known A s → Forall (λ o, A (dst o)) (sendToSessionBatch bindPort p s wires order bind n).1.1.
Proof.
  intros Hk. unfold sendToSessionBatch. destruct (pathAddrs s !! lastOrigPort s) as [pe|] eqn:E; [|by apply sends_known].
  pose proof (kn_paths _ _ Hk _ _ E) as Ha.
  assert (Hto : ∀ os, Forall (λ o, dst o = addr pe) os → Forall (λ o, A (dst o)) os).
  { intros os Ho. eapply Forall_impl; [exact Ho|]. cbv beta. by intros ? ->. }
  assert (H : ∀ v os, Forall (λ o, dst o = addr pe) os → Forall (λ o, A (dst o)) (map (mkSent v (addr pe)) (take n wires).*1 ++ os)).
  { intros v os Ho. apply Forall_app_2; [|by apply Hto]. destruct (routed_map (addr pe) v (take n wires).*1) as [_ H]. by apply Hto. }
  destruct (_ && _).
  - destruct (Get _ _ _) as [[id|?] p1]; [|by apply sends_known].
    pose proof (writeEach_routed (unpinWrite (addRefs p1 id 1) id) id (lastOrigPort s) (addr pe) (drop n wires)) as [_ Hw].
    destruct (writeEach _ _ _ _ _) as [os p2]. by apply H.
  - pose proof (mainEach_routed bindPort p (addr pe) (drop n wires)) as [_ Hw]. destruct (mainEach _ _ _ _) as [os p2]. by apply H.
Qed.

(** The path of the handshake, in an otherwise empty table of paths. *)
Lemma setPath_route cfg c remote port e order :
  0 < port → route (setPath cfg (newServerSession c remote port) port remote e) order = Some (port, remote).
Proof.
  intros Hp. unfold setPath. destruct (Z.leb_spec port 0); [lia|]. cbn [newServerSession lastOrigPort pathAddrs].
  rewrite lookup_empty. cbn [fmap option_fmap option_map]. rewrite (bool_decide_eq_false_2 (None = Some remote)) by done.
  rewrite andb_false_r. unfold route, chosenPath. cbn [set_paths lastOrigPort pathAddrs]. rewrite lookup_insert_eq.
  by destruct (Z.ltb_spec 0 port); [|lia].
Qed.

(** C18: (safety) A server session sends to authenticated addresses only.  Take a session
    as a handshake leaves it in the server's table, its first path recorded.  Its first
    route is the address the handshake came from, by the port it was sent to.  And
    whatever the session has received and done since, wherever [sendToSession] or a
    batch sends a datagram is that address or one from which a record arrived that
    opened under the session's key at that time - never an address a forger chose. *)
Theorem replies_authenticated scfg st d dialed late nonce e0 out0 st' s0 bindPort xs p order wires bind n :
  sessions st !! dSid d = None → commit scfg st d dialed late nonce e0 = (out0, st') → sessions st' !! dSid d = Some s0 →
  let remote := tkRemote (dTicket d) in
  let h := mkServerHalf s0 WSleep [] in
  let s := srv (runs (serverStep (sPaths scfg)) h xs).2 in
  let ok := λ o, dst o = remote ∨ heard (sPaths scfg) h xs (dst o) in
  (late = false → 0 < tkPort (dTicket d) → route s0 order = Some (tkPort (dTicket d), remote)) ∧
  Forall ok (sendEach bindPort p s order wires).1.1 ∧
  Forall ok (sendToSessionBatch bindPort p s wires order bind n).1.1.
Proof.
  intros Hnone Hc Hs remote h s ok. destruct (commit_stores _ _ _ _ _ _ _ _ _ _ Hnone Hc Hs) as [k Hs0]. cbv zeta in Hs0.
  split; [intros -> Hp; rewrite Hs0; by apply setPath_route|]. assert (H0 : known (λ a, a = remote) s0).
  { rewrite Hs0. destruct late; [apply known_core|apply setPath_known; [done|]]; (split; [by intros a [= <-]|done]). }
  assert (Hk : known (λ a, a = remote ∨ heard (sPaths scfg) h xs a) s) by (by apply (runs_known (sPaths scfg) (λ a, a = remote))).
  split; [by apply (sends_known (λ a, a = remote ∨ heard (sPaths scfg) h xs a))|].
  by apply (batch_known (λ a, a = remote ∨ heard (sPaths scfg) h xs a)).
Qed.

End WithInterfaces.

Section Witness.
#[local] Existing Instance toy_crypto.
#[local] Existing Instance xor_code.

Definition demo_session : serverSession := set_paths (srv toy_server) 25000 {[ 25000 := mkPath toy_remote 7 ]}.
Definition demo_wires : list (bytes * wire_env) := map (λ b, ([b], mkWire (Some 9) [] None None)) [1; 2; 3].


(** A handshake on port 25000 and a reply of the new session. *)
Definition demo_dialing : dialing :=
  mkDialing (mkTicket (makeSynCacheKey demo_nonce []) demo_nonce (str "alpha") toy_remote 25000 [] [] 0) 9 None TCP [].
Definition demo_committed : list srv_output * server :=
  commit (demo_server 0) newServerState demo_dialing true false (Some (replicate 16 3)) (toy_senv 5).
Definition demo_first : serverSession := default (srv toy_server) (sessions demo_committed.2 !! 9).

Definition demo_half : serverHalf := mkServerHalf demo_first WSleep [].

Lemma demo_new : sessions newServerState !! dSid demo_dialing = None.
Proof. reflexivity. Qed.

Lemma demo_commits :
  commit (demo_server 0) newServerState demo_dialing true false (Some (replicate 16 3)) (toy_senv 5) =
    (demo_committed.1, demo_committed.2).
Proof. unfold demo_committed. apply surjective_pairing. Qed.

Lemma demo_stored : sessions demo_committed.2 !! dSid demo_dialing = Some demo_first.
Proof. vm_compute. reflexivity. Qed.

Lemma demo_ported : 0 < tkPort (dTicket demo_dialing).
Proof. done. Qed.

Lemma replies_authenticated_witness :
  route demo_first [] = Some (tkPort (dTicket demo_dialing), tkRemote (dTicket demo_dialing)) ∧
  Forall (λ o, dst o = tkRemote (dTicket demo_dialing) ∨ heard (sPaths (demo_server 0)) demo_half [] (dst o))
    (sendEach 443 (newSendSockPool 8) (srv (runs (serverStep (sPaths (demo_server 0))) demo_half []).2) [] demo_wires).1.1.
Proof.
  destruct (replies_authenticated (demo_server 0) newServerState demo_dialing true false (Some (replicate 16 3)) (toy_senv 5)
    demo_committed.1 demo_committed.2 demo_first 443 [] (newSendSockPool 8) [] demo_wires (Some 5) 2
    demo_new demo_commits demo_stored) as (H1 & H2 & _).
  split; [exact (H1 eq_refl demo_ported)|exact H2].
Defined.

End Witness.
