(* ===== verification/SessionTable.v ===== *)
(** The server's session table over any interleaving of its goroutines: SYN gates,
    handshakes in each of their phases, established sessions, the idle sweep and
    shutdown. *)
From S2P Require Import Prelude GoStrings Protocol Noise F64 Rtt FecLoss FecWire Erasure FecBlock FecSender FecReceiver Replay Targets Delivery AckCoalesce Flow Sack Arq Session ClientSession ServerSession SynGuard Endpoint Actions Tunnel HandshakeClient HandshakeServer.
Local Open Scope Z_scope.

Section Table.
Context {C : Crypto} {CL : CryptoLaws C} {N : NoisePrims} {RS : ReedSolomon}.
Context (toLower : bytes → bytes) (cfg : srvConf).

(** A verified SYN whose goroutine has not looked at the cache yet. *)
Record synJob := mkJob { jFrame : UDPCFrame; jRemote : AddrPort; jPort : Z; jPSK : bytes }.

(** A handshake after the dial. *)
Record job := mkJob' { jOpening : opening; jPhase : phase }.

Record world := mkWorld {
  wsrv : server;
  verified : list synJob;
  waiting : list ticket;       (* admitted, waiting for a slot *)
  inflight : list dialing;     (* holding a slot, dialing *)
  storing : list job;          (* holding a slot, after the dial *)
  closings : list closing;     (* sessions being closed *)
  early : gset Z;              (* those closed before they were registered *)
}.

Definition set_wsrv (w : world) (st : server) : world :=
  mkWorld st (verified w) (waiting w) (inflight w) (storing w) (closings w) (early w).
Definition set_closings (w : world) (st : server) (cs : list closing) (rc : gset Z) : world :=
  mkWorld st (verified w) (waiting w) (inflight w) (storing w) cs rc.

Inductive wstep (w : world) : world → Prop :=
| W_gate f remote port now range v st :
    serveSyn cfg (wsrv w) f remote now range = (v, st) →
    wstep w (mkWorld st (match v with SynVerified psk => mkJob f remote port psk :: verified w | _ => verified w end)
               (waiting w) (inflight w) (storing w) (closings w) (early w))
| W_admit j js nowUnix now r out st :
    verified w ≡ₚ j :: js →
    admitSyn toLower cfg (wsrv w) (jRemote j) (jFrame j) (jPort j) (jPSK j) nowUnix now = (r, out, st) →
    wstep w (mkWorld st js (match r with SynAdmitted t => t :: waiting w | _ => waiting w end) (inflight w)
               (storing w) (closings w) (early w))
| W_prepare t ts slot rand draws r out st :
    waiting w ≡ₚ t :: ts → (slot = SlotFree → slots (wsrv w) < handshakeMaxConcurrent) →
    Forall (λ sid, 0 ≤ sid < 2 ^ 32) draws →
    prepare toLower cfg (wsrv w) t slot rand draws = (r, out, st) →
    wstep w (mkWorld st (verified w) ts (match r with Some d => d :: inflight w | None => inflight w end)
               (storing w) (closings w) (early w))
| W_build d ds dialed nonce e r out st :
    inflight w ≡ₚ d :: ds → build cfg (wsrv w) d dialed nonce e = (r, out, st) →
    wstep w (mkWorld st (verified w) (waiting w) ds
               (match r with Some o => mkJob' o Built :: storing w | None => storing w end) (closings w) (early w))
| W_commit j js e r out st :
    storing w ≡ₚ j :: js → commitStep cfg (wsrv w) (jOpening j) (jPhase j) false e = (r, out, st) →
    wstep w (mkWorld st (verified w) (waiting w) (inflight w)
               (match r with Some ph => mkJob' (jOpening j) ph :: js | None => js end) (closings w) (early w))
| W_session sid h x e r st :
    sessions (wsrv w) !! sid = Some (srv h) → writer_ok (deliv (core (srv h))) (sw h) →
    (∀ c, x = Call c → call_ok c) →
    settle (wsrv w) sid (srv h) (srv (serverStep (sPaths cfg) h x e).2) = (r, st) →
    wstep w (set_closings w st (option_list r ++ closings w) (early w))
| W_close sid reason e out r st :
    beginClose (wsrv w) sid reason e = (out, r, st) →
    wstep w (set_closings w st (option_list r ++ closings w) (early w))
| W_closing c cs r st :
    closings w ≡ₚ c :: cs → closeStep (wsrv w) c = (r, st) →
    wstep w (set_closings w st (option_list r ++ cs)
               (match cPhase c, r with Closed_, None => {[cIdent c]} ∪ early w | _, _ => early w end))
| W_cleanup sid now e out r st :
    cleanupVisit (wsrv w) sid now e = (out, r, st) →
    wstep w (set_closings w st (option_list r ++ closings w) (early w))
| W_shutdown : wstep w (set_wsrv w (closeServer (wsrv w)).2).

Definition newWorld : world := mkWorld newServerState [] [] [] [] [] ∅.

(** * What the table holds *)

Definition entry_ok (sid : Z) (s : serverSession) : Prop := sid ≠ 0 ∧ ∃ k, plain_ok k sid (core s).

Definition dialing_ok (d : dialing) : Prop :=
  dSid d ≠ 0 ∧ 0 ≤ dSid d < 2 ^ 32 ∧
  match dNoise d with Some (n, _) => len (aead_key (SendCipher n)) = 32 | None => True end.

Definition opening_ok (o : opening) : Prop :=
  entry_ok (dSid (oDial o)) (oSession o) ∧ sessClosed (core (oSession o)) = false.

(** The table's open sessions, and its registered ones. *)
Definition openSids (st : server) : gset Z := dom (filter (λ kv, sessClosed (core kv.2) = false) (sessions st)).
Definition registeredSids (st : server) : gset Z := dom (filter (λ kv, registered kv.2 = true) (handles st)).

Definition total {A} (f : A → Z) (l : list A) : Z := foldr (λ x n, f x + n) 0 l.

(** Between the mark and the counter, on the way in and on the way out. *)
Definition counting (j : job) : Z := match jPhase j with Marked _ => 1 | _ => 0 end.
Definition uncounting (c : closing) : Z := match cPhase c with Unmarked => 1 | _ => 0 end.

(** The session a handshake has stored and not registered, and may register or close. *)
Definition pending (j : job) : list (Z * Z) :=
  match jPhase j with
  | Stored i | Checked i | Refused (Some i) => [(dSid (oDial (jOpening j)), i)]
  | _ => []
  end.

(** The table against the handshakes (their sessions [ps], [m] of them about to be
    counted) and the [Close]s under way. *)
Record table_ok (st : server) (ps : list (Z * Z)) (m : Z) (cs : list closing) (rc : gset Z) : Prop := {
  ti_entries : map_Forall entry_ok (sessions st);
  ti_dom : ∀ sid, is_Some (handles st !! sid) ↔ is_Some (sessions st !! sid);
  ti_live : liveSessions st + m = Z.of_nat (size (registeredSids st)) + total uncounting cs;
  ti_fresh : ∀ sid h, handles st !! sid = Some h → ident h < idents st;
  ti_pend : ∀ sid i, (sid, i) ∈ ps → handles st !! sid = Some (mkHandle i false);
  ti_once : NoDup ps;
  ti_close : ∀ c, c ∈ cs → ∃ h s, handles st !! cSid c = Some h ∧ ident h = cIdent c ∧
    sessions st !! cSid c = Some s ∧ sessClosed (core s) = true ∧
    (cPhase c ≠ Closed_ → registered h = false ∧ (cSid c, cIdent c) ∉ ps);
  ti_each : NoDup (map cSid cs);
  ti_open : ∀ sid h s, handles st !! sid = Some h → sessions st !! sid = Some s → registered h = false →
    sessClosed (core s) = false → (sid, ident h) ∈ ps;
  ti_dead : ∀ sid h s, handles st !! sid = Some h → sessions st !! sid = Some s → sessClosed (core s) = true →
    registered h = true ∨ (sid, ident h) ∈ ps →
    (∃ c, c ∈ cs ∧ cSid c = sid ∧ cPhase c = Closed_) ∨ ident h ∈ rc;
}.

Definition jobs_ok (w : world) : Prop :=
  table_ok (wsrv w) (storing w ≫= pending) (total counting (storing w)) (closings w) (early w).

Record winv (w : world) : Prop := {
  wi_table : jobs_ok w;
  wi_slots : slots (wsrv w) = len (inflight w) + len (storing w);
  wi_cap : slots (wsrv w) ≤ handshakeMaxConcurrent;
  wi_dialing : Forall dialing_ok (inflight w);
  wi_storing : Forall (λ j, opening_ok (jOpening j)) (storing w);
}.

Lemma total_cons {A} (f : A → Z) x l : total f (x :: l) = f x + total f l.
Proof. done. Qed.

Lemma total_app {A} (f : A → Z) l1 l2 : total f (l1 ++ l2) = total f l1 + total f l2.
Proof. induction l1 as [|x l1 IH]; [done|]. cbn. unfold total in *. lia. Qed.

Lemma total_perm {A} (f : A → Z) l1 l2 : l1 ≡ₚ l2 → total f l1 = total f l2.
Proof. induction 1; unfold total in *; cbn; lia. Qed.

(** ** Registered sessions *)

Lemma elem_registered st sid : sid ∈ registeredSids st ↔ ∃ h, handles st !! sid = Some h ∧ registered h = true.
Proof.
  unfold registeredSids. rewrite elem_of_dom. split.
  - intros [h [H1 H2]%map_lookup_filter_Some]. by exists h.
  - intros (h & H1 & H2). exists h. by apply map_lookup_filter_Some.
Qed.

Lemma elem_open st sid : sid ∈ openSids st ↔ ∃ s, sessions st !! sid = Some s ∧ sessClosed (core s) = false.
Proof.
  unfold openSids. rewrite elem_of_dom. split.
  - intros [s [H1 H2]%map_lookup_filter_Some]. by exists s.
  - intros (s & H1 & H2). exists s. by apply map_lookup_filter_Some.
Qed.

Lemma registered_same st st' : handles st' = handles st → registeredSids st' = registeredSids st.
Proof. unfold registeredSids. by intros ->. Qed.

Lemma registered_on st sid i :
  sid ∉ registeredSids st → registeredSids (set_handle st sid (mkHandle i true)) = {[sid]} ∪ registeredSids st.
Proof.
  intros Hn. apply set_eq. intros k. rewrite elem_of_union, elem_of_singleton, !elem_registered. cbn [set_handle set_table handles].
  destruct (decide (k = sid)) as [->|Hk].
  - rewrite lookup_insert_eq. split; [by left|]. intros _. by eexists.
  - rewrite lookup_insert_ne by done. split; [by right|by intros [?|?]].
Qed.

Lemma registered_off st m hs n sid :
  (∀ k, k ≠ sid → hs !! k = handles st !! k) → (∀ h, hs !! sid = Some h → registered h = false) →
  registeredSids (set_table st m hs n) = registeredSids st ∖ {[sid]}.
Proof.
  intros Ho Hs. apply set_eq. intros k. rewrite elem_of_difference, elem_of_singleton, !elem_registered. cbn [set_table handles].
  destruct (decide (k = sid)) as [->|Hk].
  - split; [intros (h & H1 & H2); apply Hs in H1; congruence|by intros [_ []]].
  - rewrite Ho by done. split; [done|by intros [? _]].
Qed.

(** ** The table under the steps of handshakes and closings *)

Lemma table_same st st' ps m cs rc :
  sessions st' = sessions st → handles st' = handles st → liveSessions st' = liveSessions st → idents st' = idents st →
  table_ok st ps m cs rc → table_ok st' ps m cs rc.
Proof.
  intros E1 E2 E3 E4 []. split; rewrite ?E1, ?E2, ?E3, ?E4; try done. by rewrite (registered_same st st' E2).
Qed.

(** Adding or dropping what the entries do not depend on. *)
Lemma table_perm st ps ps' m cs cs' rc : ps ≡ₚ ps' → cs ≡ₚ cs' → table_ok st ps m cs rc → table_ok st ps' m cs' rc.
Proof.
  intros Hp Hc []. assert (Hin : ∀ x, x ∈ ps ↔ x ∈ ps') by (intros x; by rewrite Hp).
  assert (Hic : ∀ x, x ∈ cs ↔ x ∈ cs') by (intros x; by rewrite Hc).
  split; try done.
  - by rewrite <- (total_perm _ _ _ Hc).
  - intros sid i. rewrite <- Hin. apply ti_pend0.
  - by rewrite <- Hp.
  - intros c (h & s & H1 & H2 & H3 & H4 & H5)%Hic%ti_close0. exists h, s. rewrite <- Hin. done.
  - by rewrite <- Hc.
  - intros sid h s. rewrite <- Hin. apply ti_open0.
  - intros sid h s H1 H2 H3. rewrite <- Hin. intros [(c & ?%Hic & ?)|?]%(ti_dead0 _ _ _ H1 H2 H3); eauto.
Qed.

(** LoadOrStore puts the session in, unregistered. *)
Lemma table_store st ps m cs rc sid s :
  sessions st !! sid = None → entry_ok sid s → sessClosed (core s) = false → table_ok st ps m cs rc →
  table_ok (set_table st (<[sid := s]> (sessions st)) (<[sid := mkHandle (idents st) false]> (handles st)) (idents st + 1))
    ((sid, idents st) :: ps) m cs rc.
Proof.
  intros Hnone Hok Hopen []. assert (Hh : handles st !! sid = None).
  { apply eq_None_not_Some. rewrite ti_dom0, Hnone. apply is_Some_None. }
  assert (Hne : ∀ k h, handles st !! k = Some h → k ≠ sid) by (intros k h Hk ->; congruence).
  assert (Hnew : ∀ k, (k, idents st) ∉ ps) by (intros k Hk%ti_pend0; pose proof (ti_fresh0 _ _ Hk) as Hl; cbn in Hl; lia).
  split; cbn [set_table sessions handles liveSessions idents].
  - by apply map_Forall_insert_2.
  - intros k. destruct (decide (k = sid)) as [->|Hk]; [rewrite !lookup_insert_eq|by rewrite !lookup_insert_ne].
    by split; eexists.
  - rewrite (registered_off _ _ _ _ sid).
    + rewrite difference_disjoint_L; [done|]. apply disjoint_singleton_r. intros (h & H & _)%elem_registered. congruence.
    + intros k Hk. by rewrite lookup_insert_ne.
    + intros h. rewrite lookup_insert_eq. by intros [= <-].
  - intros k h. rewrite lookup_insert_Some. intros [[_ <-]|[_ H%ti_fresh0]]; cbn; lia.
  - intros k i [[= -> ->]|Hi]%elem_of_cons; [apply lookup_insert_eq|]. apply ti_pend0 in Hi.
    rewrite lookup_insert_ne by (symmetry; by eapply Hne). done.
  - apply NoDup_cons. done.
  - intros c (h & s' & H1 & H2 & H3 & H4 & H5)%ti_close0. exists h, s'. pose proof (Hne _ _ H1).
    rewrite !lookup_insert_ne by done. split_and!; try done. intros Hc. destruct (H5 Hc) as [? H6]. split; [done|].
    intros [[= E _]|Hin]%elem_of_cons; [congruence|done].
  - done.
  - intros k h s'. destruct (decide (k = sid)) as [->|Hk].
    + rewrite !lookup_insert_eq. intros [= <-] [= <-] _ _. by left.
    + rewrite !lookup_insert_ne by done. intros. right. by eapply ti_open0.
  - intros k h s'. destruct (decide (k = sid)) as [->|Hk].
    + rewrite !lookup_insert_eq. intros _ [= <-]. congruence.
    + rewrite !lookup_insert_ne by done. intros H1 H2 H3 [H4|[[= E _]|H4]%elem_of_cons]; [|congruence|]; eapply ti_dead0; eauto.
Qed.

(** A stored session is registered, and will be counted. *)
Lemma table_register st ps m cs rc sid i :
  table_ok st ((sid, i) :: ps) m cs rc →
  table_ok (if holds st sid i then set_handle st sid (mkHandle i true) else st) ps (m + 1) cs rc.
Proof.
  intros []. assert (Hh : handles st !! sid = Some (mkHandle i false)) by (apply ti_pend0; by left).
  apply NoDup_cons in ti_once0 as [Hn Ho]. unfold holds. rewrite Hh. cbn [ident]. rewrite Z.eqb_refl.
  assert (Hps : ∀ k j, (k, j) ∈ ps → k ≠ sid).
  { intros k j Hk ->. apply Hn. pose proof (ti_pend0 sid j ltac:(by right)) as H. rewrite Hh in H. by injection H as ->. }
  assert (Hcs : ∀ c, c ∈ cs → cSid c = sid → cPhase c = Closed_ ∧ cIdent c = i).
  { intros c Hc E. destruct (ti_close0 _ Hc) as (h & s & H1 & H2 & _ & _ & H5). rewrite E, Hh in H1. injection H1 as <-.
    split; [|done]. destruct (decide (cPhase c = Closed_)) as [|Hp]; [done|]. destruct (H5 Hp) as [_ []]. rewrite E. cbn in H2. subst i. by left. }
  split; cbn [set_handle set_table sessions handles liveSessions idents]; try done.
  - intros k. rewrite <- ti_dom0. destruct (decide (k = sid)) as [->|Hk]; [rewrite lookup_insert_eq, Hh|by rewrite lookup_insert_ne].
    by split; eexists.
  - assert (Hr : sid ∉ registeredSids st) by (rewrite elem_registered, Hh; intros (h & [= <-] & [=])).
    rewrite registered_on, size_union, size_singleton by (done || set_solver). lia.
  - intros k h. rewrite lookup_insert_Some. intros [[<- <-]|[_ H]]; [apply (ti_fresh0 _ _ Hh)|by eapply ti_fresh0].
  - intros k j Hk. rewrite lookup_insert_ne by (symmetry; by eapply Hps). apply ti_pend0. by right.
  - intros c Hc. destruct (ti_close0 c Hc) as (h & s & H1 & H2 & H3 & H4 & H5).
    destruct (decide (cSid c = sid)) as [E|E].
    + destruct (Hcs c Hc E) as [Hp Hi]. exists (mkHandle i true), s. rewrite E, lookup_insert_eq. rewrite E in H3. done.
    + exists h, s. rewrite lookup_insert_ne by done. split_and!; try done. intros Hp. destruct (H5 Hp) as [? H6].
      split; [done|]. intros Hin. apply H6. by right.
  - intros k h s. rewrite lookup_insert_Some. intros [[<- <-]|[Hk H]] H1 H2 H3; [done|].
    pose proof (ti_open0 _ _ _ H H1 H2 H3) as [[= E _]|?]%elem_of_cons; [congruence|done].
  - intros k h s. rewrite lookup_insert_Some. intros [[<- <-]|[Hk H]] H1 H2 H3.
    + apply (ti_dead0 sid _ s Hh H1 H2). right. by left.
    + apply (ti_dead0 k h s H H1 H2). destruct H3 as [?|?]; [by left|right; by right].
Qed.

Lemma table_count st ps m cs rc n :
  table_ok st ps m cs rc → table_ok (set_live st (liveSessions st + n)) ps (m - n) cs rc.
Proof.
  intros []. split; try done. rewrite (registered_same st) by done. cbn [set_live liveSessions]. lia.
Qed.

(** A session of the table changes; one that is newly closed is a [Close] under way,
    or was pending and no longer is. *)
Lemma table_entry st ps m cs rc sid s s' :
  sessions st !! sid = Some s → entry_ok sid s' → (sessClosed (core s) = true → sessClosed (core s') = true) →
  (sessClosed (core s') = true → sessClosed (core s) = true) → table_ok st ps m cs rc → table_ok (set_entry st sid s') ps m cs rc.
Proof.
  intros Hs Hok Hc1 Hc2 []. assert (Hk : ∀ k s2, <[sid := s']> (sessions st) !! k = Some s2 →
    ∃ s1, sessions st !! k = Some s1 ∧ sessClosed (core s2) = sessClosed (core s1)).
  { intros k s2. rewrite lookup_insert_Some. intros [[<- <-]|[_ H]]; [|by exists s2]. exists s. split; [done|].
    destruct (sessClosed (core s)), (sessClosed (core s')); try done; [by rewrite Hc1|by rewrite Hc2]. }
  split; cbn [set_entry set_table sessions handles liveSessions idents]; try done.
  - by apply map_Forall_insert_2.
  - intros k. rewrite ti_dom0. destruct (decide (k = sid)) as [->|?]; [|by rewrite lookup_insert_ne].
    rewrite lookup_insert_eq, Hs. by split; eexists.
  - intros c (h & s1 & H1 & H2 & H3 & H4 & H5)%ti_close0. destruct (decide (cSid c = sid)) as [E|E].
    + exists h, s'. rewrite E in *. rewrite lookup_insert_eq. assert (s1 = s) as -> by congruence. split_and!; auto.
    + exists h, s1. by rewrite lookup_insert_ne.
  - intros k h s2 H1 (s1 & H2 & E)%Hk. rewrite E. by eapply ti_open0.
  - intros k h s2 H1 (s1 & H2 & E)%Hk. rewrite E. by eapply ti_dead0.
Qed.

Lemma table_closed st ps m cs rc sid s s' h :
  sessions st !! sid = Some s → handles st !! sid = Some h → entry_ok sid s' →
  sessClosed (core s) = false → sessClosed (core s') = true → table_ok st ps m cs rc →
  table_ok (set_entry st sid s') ps m (mkClosing sid (ident h) Closed_ :: cs) rc.
Proof.
  intros Hs Hh Hok Hc1 Hc2 []. assert (Hcs : ∀ c, c ∈ cs → cSid c ≠ sid).
  { intros c (h1 & s1 & _ & _ & H3 & H4 & _)%ti_close0 E. congruence. }
  split; cbn [set_entry set_table sessions handles liveSessions idents]; try done.
  - by apply map_Forall_insert_2.
  - intros k. rewrite ti_dom0. destruct (decide (k = sid)) as [->|?]; [|by rewrite lookup_insert_ne].
    rewrite lookup_insert_eq, Hs. by split; eexists.
  - intros c [->|Hc]%elem_of_cons.
    + exists h, s'. cbn [cSid cIdent cPhase]. by rewrite lookup_insert_eq.
    + destruct (ti_close0 c Hc) as (h1 & s1 & H1). exists h1, s1. rewrite lookup_insert_ne by (symmetry; by apply Hcs). done.
  - cbn [map cSid]. apply NoDup_cons. split; [|done]. intros (c & E & Hc)%list_elem_of_fmap. by apply (Hcs c Hc).
  - intros k h1 s1 H1. rewrite lookup_insert_Some. intros [[<- <-]|[_ H2]] H3 H4; [congruence|by eapply ti_open0].
  - intros k h1 s1 H1. rewrite lookup_insert_Some. intros [[<- <-]|[Hk H2]] H3 H4.
    + left. exists (mkClosing sid (ident h) Closed_). by split; [left|].
    + destruct (ti_dead0 _ _ _ H1 H2 H3 H4) as [(c & Hc & ?)|?]; [|by right]. left. exists c. by split; [right|].
Qed.

(** A handshake closes the session it stored: nothing registers it any more. *)
Lemma table_refuse st ps m cs rc sid i s s' :
  sessions st !! sid = Some s → entry_ok sid s' → sessClosed (core s') = true → table_ok st ((sid, i) :: ps) m cs rc →
  table_ok (set_entry st sid s') ps m cs rc.
Proof.
  intros Hs Hok Hc2 []. apply NoDup_cons in ti_once0 as [Hn Ho].
  assert (Hh : handles st !! sid = Some (mkHandle i false)) by (apply ti_pend0; by left).
  split; cbn [set_entry set_table sessions handles liveSessions idents]; try done.
  - by apply map_Forall_insert_2.
  - intros k. rewrite ti_dom0. destruct (decide (k = sid)) as [->|?]; [|by rewrite lookup_insert_ne].
    rewrite lookup_insert_eq, Hs. by split; eexists.
  - intros k j Hk. apply ti_pend0. by right.
  - intros c (h & s1 & H1 & H2 & H3 & H4 & H5)%ti_close0.
    assert (Hp : cPhase c ≠ Closed_ → registered h = false ∧ (cSid c, cIdent c) ∉ ps).
    { intros [? H6]%H5. split; [done|]. intros Hin. apply H6. by right. }
    destruct (decide (cSid c = sid)) as [E|E].
    + exists h, s'. rewrite E in *. by rewrite lookup_insert_eq.
    + exists h, s1. by rewrite lookup_insert_ne.
  - intros k h s1 H1. rewrite lookup_insert_Some. intros [[<- <-]|[Hk H2]] H3 H4; [congruence|].
    pose proof (ti_open0 _ _ _ H1 H2 H3 H4) as [[= E _]|?]%elem_of_cons; [congruence|done].
  - intros k h s1 H1. rewrite lookup_insert_Some. intros [[<- <-]|[Hk H2]] H3 H4.
    + rewrite Hh in H1. injection H1 as <-. destruct H4 as [?|Hin]; [done|by destruct Hn].
    + apply (ti_dead0 k h s1 H1 H2 H3). destruct H4; [by left|right; by right].
Qed.

(** [Close] takes back the mark, or finds none. *)
Lemma table_unmark st ps m cs rc c r st' :
  cPhase c = Closed_ → closeStep st c = (r, st') → table_ok st ps m (c :: cs) rc →
  table_ok st' ps m (option_list r ++ cs) (match r with Some _ => rc | None => {[cIdent c]} ∪ rc end).
Proof.
  intros Hp Hstep []. apply NoDup_cons in ti_each0 as [Hn Ho].
  destruct (ti_close0 c ltac:(by left)) as (h & s & H1 & H2 & H3 & H4 & _).
  assert (Hcs : ∀ c', c' ∈ cs → cSid c' ≠ cSid c).
  { intros c' Hc E. apply Hn. apply list_elem_of_fmap. by exists c'. }
  assert (Huc : uncounting c = 0) by (unfold uncounting; by rewrite Hp).
  unfold closeStep, holds in Hstep. rewrite Hp, H1, H2, Z.eqb_refl in Hstep. cbn [andb] in Hstep.
  destruct (registered h) eqn:Hr; injection Hstep as <- <-; unfold option_list; cbn [option_rect app].
  - assert (Hnp : ∀ i, (cSid c, i) ∉ ps) by (intros i Hi%ti_pend0; rewrite H1 in Hi; injection Hi as ->; done).
    split; cbn [set_handle set_table sessions handles liveSessions idents]; try done.
    + intros k. rewrite <- ti_dom0. destruct (decide (k = cSid c)) as [->|?]; [|by rewrite lookup_insert_ne].
      rewrite lookup_insert_eq, H1. by split; eexists.
    + assert (Hin : cSid c ∈ registeredSids st) by (apply elem_registered; by exists h).
      unfold set_handle. rewrite (registered_off _ _ _ _ (cSid c)).
      * rewrite size_difference, size_singleton by set_solver.
        assert (size (registeredSids st) ≠ 0%nat) by (intros E0%size_empty_inv; set_solver).
        rewrite total_cons in ti_live0 |- *. rewrite Huc in ti_live0. unfold uncounting at 1. cbn [cPhase]. lia.
      * intros k Hk. by rewrite lookup_insert_ne.
      * intros h'. rewrite lookup_insert_eq. by intros [= <-].
    + intros k h'. rewrite lookup_insert_Some. intros [[<- <-]|[_ ?%ti_fresh0]]; [|done]. cbn. rewrite <- H2. by eapply ti_fresh0.
    + intros k i Hk. rewrite lookup_insert_ne; [by apply ti_pend0|]. intros E. apply (Hnp i). by rewrite E.
    + intros c' [->|Hc]%elem_of_cons.
      * exists (mkHandle (cIdent c) false), s. cbn [cSid cIdent cPhase]. by rewrite lookup_insert_eq.
      * destruct (ti_close0 c' ltac:(by right)) as (h' & s' & ?). exists h', s'.
        rewrite lookup_insert_ne by (symmetry; by apply Hcs). done.
    + cbn. by apply NoDup_cons.
    + intros k h' s'. rewrite lookup_insert_Some. intros [[<- <-]|[_ ?]] ? ? ?; [congruence|by eapply ti_open0].
    + intros k h' s'. rewrite lookup_insert_Some. intros [[<- <-]|[Hk E1]] E2 E3 E4.
      * destruct E4 as [?|Hin]; [done|by destruct (Hnp _ Hin)].
      * destruct (ti_dead0 _ _ _ E1 E2 E3 E4) as [(c' & [->|Hc]%elem_of_cons & E5 & E6)|?]; [cbn in E5; congruence| |by right].
        left. exists c'. by split; [right|].
  - split; try done.
    + rewrite total_cons, Huc in ti_live0. lia.
    + intros c' Hc. apply ti_close0. by right.
    + intros k h' s' E1 E2 E3 E4. destruct (ti_dead0 _ _ _ E1 E2 E3 E4) as [(c' & [->|Hc]%elem_of_cons & <- & ?)|?].
      * right. set_solver by congruence.
      * left. by exists c'.
      * right. set_solver.
Qed.

Lemma table_unmarked st ps m cs rc c :
  cPhase c = Unmarked → table_ok st ps m (c :: cs) rc →
  table_ok (set_live st (liveSessions st - 1)) ps m (mkClosing (cSid c) (cIdent c) Uncounted :: cs) rc.
Proof.
  intros Hp []. split; try done.
  - rewrite (registered_same st) by done. rewrite total_cons in *. cbn [set_live liveSessions].
    assert (uncounting c = 1) by (unfold uncounting; by rewrite Hp). unfold uncounting at 1. cbn [cPhase]. lia.
  - intros c' [->|Hc]%elem_of_cons; [|apply ti_close0; by right].
    destruct (ti_close0 c ltac:(by left)) as (h & s & H1 & H2 & H3 & H4 & H5). exists h, s. cbn [cSid cIdent cPhase].
    split_and!; try done. intros _. apply H5. by rewrite Hp.
  - intros k h s H1 H2 H3 H4. destruct (ti_dead0 _ _ _ H1 H2 H3 H4) as [(c' & [->|Hc]%elem_of_cons & E1 & E2)|?];
      [congruence| |by right]. left. exists c'. by split; [right|].
Qed.

(** The closed session leaves the table. *)
Lemma table_remove st ps m cs rc c :
  cPhase c = Uncounted → table_ok st ps m (c :: cs) rc →
  table_ok (set_table st (delete (cSid c) (sessions st)) (delete (cSid c) (handles st)) (idents st)) ps m cs rc.
Proof.
  intros Hp []. apply NoDup_cons in ti_each0 as [Hn Ho].
  destruct (ti_close0 c ltac:(by left)) as (h & s & H1 & H2 & H3 & H4 & H5).
  destruct H5 as [Hr Hnp]; [by rewrite Hp|]. assert (Huc : uncounting c = 0) by (unfold uncounting; by rewrite Hp).
  assert (Hcs : ∀ c', c' ∈ cs → cSid c' ≠ cSid c).
  { intros c' Hc E. apply Hn. apply list_elem_of_fmap. by exists c'. }
  split; cbn [set_table sessions handles liveSessions idents]; try done.
  - by apply map_Forall_delete.
  - intros k. destruct (decide (k = cSid c)) as [->|?]; [by rewrite !lookup_delete_eq|by rewrite !lookup_delete_ne].
  - rewrite (registered_off _ _ _ _ (cSid c)).
    + rewrite difference_disjoint_L.
      * rewrite total_cons, Huc in ti_live0. lia.
      * apply disjoint_singleton_r. intros (h' & E & ?)%elem_registered. congruence.
    + intros k Hk. by rewrite lookup_delete_ne.
    + intros h'. by rewrite lookup_delete_eq.
  - intros k h' [_ ?%ti_fresh0]%lookup_delete_Some. done.
  - intros k i Hk. pose proof (ti_pend0 _ _ Hk) as E. rewrite lookup_delete_ne; [done|]. intros <-.
    apply Hnp. rewrite H1 in E. injection E as ->. by rewrite <- H2.
  - intros c' Hc. destruct (ti_close0 c' ltac:(by right)) as (h' & s' & ?). exists h', s'.
    rewrite !lookup_delete_ne by (symmetry; by apply Hcs). done.
  - intros k h' s' [_ ?]%lookup_delete_Some [_ ?]%lookup_delete_Some. by eapply ti_open0.
  - intros k h' s' [Hk E1]%lookup_delete_Some [_ E2]%lookup_delete_Some E3 E4.
    destruct (ti_dead0 _ _ _ E1 E2 E3 E4) as [(c' & [->|Hc]%elem_of_cons & <- & ?)|?]; [congruence| |by right].
    left. by exists c'.
Qed.

(** ** What each phase does to the table *)

Definition same_table (st st' : server) : Prop :=
  sessions st' = sessions st ∧ handles st' = handles st ∧ liveSessions st' = liveSessions st ∧ idents st' = idents st.

Lemma same_table_ok st st' ps m cs rc : same_table st st' → table_ok st ps m cs rc → table_ok st' ps m cs rc.
Proof. intros (E1 & E2 & E3 & E4). by apply table_same. Qed.

Lemma serveSyn_table st f remote now range :
  let st' := (serveSyn cfg st f remote now range).2 in same_table st st' ∧ slots st' = slots st ∧ synC st' = synC st.
Proof. unfold serveSyn. destruct (Allow _ _ _ _) as [ok l]. repeat case_match; done. Qed.

Lemma admit_table st remote f port psk t1 t2 :
  let st' := (admitSyn toLower cfg st remote f port psk t1 t2).2 in same_table st st' ∧ slots st' = slots st.
Proof.
  unfold admitSyn. destruct (_ || _ || _); [done|]. destruct (_ || _); [done|].
  destruct (splitSynPayload _ _) as [[rq m1]|]; [|done]. destruct (negb _); [done|].
  destruct (negb _ && negb _). { by destruct (parseTargetNetworkAndAddr _ _). }
  destruct (_ && _); [done|]. destruct (Acquire _ _ _ _) as [[cached owner] c].
  destruct cached; [done|]. by destruct (negb owner).
Qed.

Lemma pickSID_spec draws m sid : pickSID draws m = Some sid → sid ∈ draws ∧ sid ≠ 0 ∧ m !! sid = None.
Proof.
  induction draws as [|x draws IH]; [done|]. cbn [pickSID].
  assert (Hrec : pickSID draws m = Some sid → sid ∈ x :: draws ∧ sid ≠ 0 ∧ m !! sid = None).
  { intros (?&?&?)%IH. split_and!; [by right|done|done]. }
  destruct (Z.eqb_spec x 0); [exact Hrec|]. case_bool_decide; [|exact Hrec]. cbn [negb andb].
  intros [= <-]. split_and!; [by left|done|done].
Qed.

Lemma serverNoise_keys t rand n m2 :
  serverNoise cfg t rand = Some (Some (n, m2)) → len (aead_key (SendCipher n)) = 32.
Proof.
  unfold serverNoise. destruct (sPriv cfg) as [priv|]; [|done].
  destruct (NewServerNoiseSession _ _ _) as [[x y]|] eqn:Hx; [|done].
  intros [= <- <-]. by eapply server_noise_keys.
Qed.

Lemma prepare_table st t slot rand draws :
  Forall (λ sid, 0 ≤ sid < 2 ^ 32) draws →
  let '(r, _, st') := prepare toLower cfg st t slot rand draws in
  same_table st st' ∧
  match r with
  | Some d => slot = SlotFree ∧ slots st' = slots st + 1 ∧ dialing_ok d ∧ dTicket d = t
  | None => slots st' = slots st
  end.
Proof.
  intros Hd. unfold prepare. destruct slot; [|done..].
  destruct (serverNoise cfg t rand) as [n|] eqn:Hn; [|split; [done|cbn; lia]].
  destruct (parseTargetNetworkAndAddr _ _) as [net addr].
  destruct (pickSID _ _) as [sid|] eqn:Hp; [|split; [done|cbn; lia]].
  apply pickSID_spec in Hp as (Hin & Hne & _). rewrite Forall_forall in Hd.
  split; [done|]. split_and!; try done. split; [done|]. split; [by apply Hd|]. destruct n as [[n m2]|]; [|done]. by eapply serverNoise_keys.
Qed.

Lemma serverKeys_len d nonce k :
  dialing_ok d → serverKeys d nonce = Ok k → len (aead_key (Send k)) = 32.
Proof.
  intros (_ & _ & Hn). unfold serverKeys. destruct (dNoise d) as [[n m2]|]; [by intros [= <-]|].
  unfold ServerFrameCiphers, newAEADCipherState.
  destruct (Z.eqb_spec (len (S2C (DerivePSKSessionKeys (tkPSK (dTicket d)) (tkNonce (dTicket d)) nonce (dSid d)))) 32);
    [|done]. cbn [result_bind]. destruct (_ =? 32); [|done]. by intros [= <-].
Qed.

(** A session as [commit] builds it. *)
Lemma createSession_ok d k0 flags t :
  0 ≤ sMagic cfg < 2 ^ 32 → dialing_ok d → len (aead_key (Send k0)) = 32 →
  let k := serverNegotiate cfg flags k0 in
  plain_ok k (dSid d) (core (createSession cfg d k t)) ∧ sessClosed (core (createSession cfg d k t)) = false.
Proof.
  intros Hm (Hne & Hs & _) Hk k. split; [|done]. by apply newSession_plain.
Qed.

Lemma build_table st d dialed nonce e :
  0 ≤ sMagic cfg < 2 ^ 32 → dialing_ok d →
  let '(r, _, st') := build cfg st d dialed nonce e in
  same_table st st' ∧ match r with Some o => slots st' = slots st ∧ opening_ok o | None => slots st' = slots st - 1 end.
Proof.
  intros Hm Hd. unfold build. destruct (negb dialed); [done|]. destruct (srvClosed st); [done|].
  destruct nonce as [nonce|]; [|done]. destruct (serverKeys d nonce) as [k0|] eqn:Hk; [|done].
  apply (serverKeys_len _ _ _ Hd) in Hk.
  destruct (createSession_ok d k0 (tkFlags (dTicket d)) (now (base e)) Hm Hd Hk) as [Hs Ho].
  split; [done|]. split; [done|]. split; [|done]. split; [by destruct Hd|]. by eexists.
Qed.

(** What a step of a handshake leaves pending, and about to be counted. *)
Definition pendings (o : opening) (r : option phase) : list (Z * Z) :=
  match r with Some ph => pending (mkJob' o ph) | None => [] end.
Definition countings (o : opening) (r : option phase) : Z :=
  match r with Some ph => counting (mkJob' o ph) | None => 0 end.

Lemma closeUnregistered_table st ps m cs rc sid i e :
  table_ok st ((sid, i) :: ps) m cs rc → table_ok (closeUnregistered st sid i e) ps m cs rc.
Proof.
  intros Ht. pose proof (ti_pend _ _ _ _ _ Ht sid i ltac:(by left)) as Hh.
  assert (Hs : is_Some (sessions st !! sid)) by (apply (ti_dom _ _ _ _ _ Ht); by eexists). destruct Hs as [s Hs].
  pose proof (ti_entries _ _ _ _ _ Ht _ _ Hs) as [Hne [k Hk]].
  unfold closeUnregistered, holds. rewrite Hs, Hh. cbn [ident]. rewrite Z.eqb_refl. cbn [andb].
  destruct (sessClosed (core s)) eqn:Hc; cbn [negb].
  - replace st with (set_entry st sid s); [by eapply table_refuse; [exact Hs|split; [|exists k]| |exact Ht]|].
    unfold set_entry, set_table. rewrite insert_id by done. by destruct st.
  - eapply table_refuse; [done| | |done].
    + split; [done|]. exists k. by apply closeSession_plain.
    + apply closeSession_closed.
Qed.

Lemma commitStep_table st o ph e r out st' ps m cs rc :
  opening_ok o → table_ok st (pending (mkJob' o ph) ++ ps) (counting (mkJob' o ph) + m) cs rc →
  commitStep cfg st o ph false e = (r, out, st') →
  table_ok st' (pendings o r ++ ps) (countings o r + m) cs rc ∧
  slots st' = slots st - (if r is Some _ then 0 else 1).
Proof.
  intros [Hok Hopen] Ht. unfold commitStep. rewrite orb_false_r. cbv zeta. set (t := dTicket (oDial o)).
  destruct ph as [|i|i|i|i| | |[i|]|];
    pose proof (λ st1 H, same_table_ok st st1 _ _ _ _ H Ht) as Hsame.
  - destruct (sessions st !! dSid (oDial o)) as [s0|] eqn:Hs; intros [= <- _ <-]; (split; [|cbn; lia]); [by apply Hsame|].
    by apply table_store.
  - destruct (srvClosed st); intros [= <- _ <-]; (split; [|cbn; lia]); [by apply Hsame|exact Ht].
  - intros [= <- _ <-]. split; [|destruct (holds _ _ _); cbn; lia]. cbn [pendings countings pending counting app jPhase].
    rewrite Z.add_comm. apply table_register. exact Ht.
  - intros [= <- _ <-]. split; [|cbn; lia]. replace (countings o _ + m) with (counting (mkJob' o (Marked i)) + m - 1) by (cbn; lia).
    by apply table_count.
  - intros [= <- _ <-]. split.
    2: { destruct (sessions st !! _); [|cbn; lia]. destruct (holds _ _ _); cbn; lia. }
    destruct (sessions st !! _) as [s|] eqn:Hs; [|exact Ht]. destruct (holds _ _ _); [|exact Ht].
    pose proof (ti_entries _ _ _ _ _ Ht _ _ Hs) as [Hne [k Hk]].
    eapply table_entry; [done| | | |exact Ht]; rewrite ?setPath_core; try done.
    split; [done|]. exists k. by rewrite setPath_core.
  - intros [= <- _ <-]. split; [by apply Hsame|cbn; lia].
  - intros [= <- _ <-]. split; [by apply Hsame|cbn; lia].
  - intros [= <- _ <-]. split; [by apply closeUnregistered_table|].
    unfold closeUnregistered. destruct (sessions st !! _); [|cbn; lia]. destruct (_ && _); cbn; lia.
  - intros [= <- _ <-]. split; [by apply Hsame|cbn; lia].
  - intros [= <- _ <-]. split; [by apply Hsame|cbn; lia].
Qed.

(** ** Sessions of the table *)

(** A call on a session never reopens it, nor changes what it is. *)
Lemma serverStep_entry sid h x e :
  entry_ok sid (srv h) → writer_ok (deliv (core (srv h))) (sw h) → (∀ c, x = Call c → call_ok c) →
  entry_ok sid (srv (serverStep (sPaths cfg) h x e).2) ∧
  (sessClosed (core (srv h)) = true → sessClosed (core (srv (serverStep (sPaths cfg) h x e).2)) = true).
Proof.
  intros [Hne [k Hk]] Hw Hx. destruct (serverStep_plain k sid (sPaths cfg) h x e Hk Hw Hx) as [Hk' Hc].
  split; [|exact Hc]. split; [done|by exists k].
Qed.

Lemma settle_table st ps m cs rc sid s s' r st' :
  sessions st !! sid = Some s → entry_ok sid s' → (sessClosed (core s) = true → sessClosed (core s') = true) →
  settle st sid s s' = (r, st') → table_ok st ps m cs rc →
  table_ok st' ps m (option_list r ++ cs) rc ∧ slots st' = slots st.
Proof.
  intros Hs Hok Hc Hset Ht. unfold settle in Hset. injection Hset as <- <-. split; [|done].
  destruct (sessClosed (core s')) eqn:E'; [destruct (sessClosed (core s)) eqn:E|]; cbn [andb negb].
  - eapply table_entry; [done|done|by rewrite E'|by rewrite E|done].
  - assert (Hh : is_Some (handles st !! sid)) by (apply (ti_dom _ _ _ _ _ Ht); by eexists). destruct Hh as [h Hh].
    rewrite Hh. by eapply table_closed.
  - eapply table_entry; [done|done|by rewrite E'|by rewrite E'|done].
Qed.

Lemma beginClose_table st ps m cs rc sid reason e out r st' :
  beginClose st sid reason e = (out, r, st') → table_ok st ps m cs rc →
  table_ok st' ps m (option_list r ++ cs) rc ∧ slots st' = slots st.
Proof.
  unfold beginClose. destruct (sessions st !! sid) as [s|] eqn:Hs; [|by intros [= _ <- <-]].
  destruct (sessClosed (core s)) eqn:Hc; [by intros [= _ <- <-]|].
  destruct (closeSession (core s) reason e) as [o c] eqn:Hcl. intros Hset Ht.
  destruct (settle st sid s (set_core s c)) as [r1 st1] eqn:E. injection Hset as _ <- <-.
  pose proof (ti_entries _ _ _ _ _ Ht _ _ Hs) as [Hne [k Hk]].
  eapply settle_table; [exact Hs| |by rewrite Hc|exact E|exact Ht].
  split; [done|]. exists k. pose proof (closeSession_plain k sid (core s) reason e Hk) as H. by rewrite Hcl in H.
Qed.

Lemma closeStep_table st c cs ps m rc r st' :
  closeStep st c = (r, st') → table_ok st ps m (c :: cs) rc →
  table_ok st' ps m (option_list r ++ cs) (match cPhase c, r with Closed_, None => {[cIdent c]} ∪ rc | _, _ => rc end) ∧
  slots st' = slots st.
Proof.
  intros Hstep Ht. destruct (cPhase c) eqn:Hp.
  - split; [by eapply table_unmark|]. unfold closeStep in Hstep. rewrite Hp in Hstep.
    destruct (handles st !! _); [destruct (_ && _)|]; by injection Hstep as _ <-.
  - unfold closeStep in Hstep. rewrite Hp in Hstep. injection Hstep as <- <-. split; [|done].
    eapply (table_unmarked _ _ _ _ _ c); done.
  - pose proof (table_remove st ps m cs rc c Hp Ht) as H. unfold closeStep in Hstep. rewrite Hp in Hstep.
    injection Hstep as <- <-. done.
Qed.

(** ** Every step *)

Lemma closings_inv w st cs rc :
  winv w → table_ok st (storing w ≫= pending) (total counting (storing w)) cs rc → slots st = slots (wsrv w) →
  winv (set_closings w st cs rc).
Proof. intros [_ Hs Hcap Hd Ho] Ht E. split; cbn [set_closings wsrv inflight storing]; rewrite ?E; done. Qed.

Lemma wstep_inv w w' : 0 ≤ sMagic cfg < 2 ^ 32 → winv w → wstep w w' → winv w'.
Proof.
  intros Hm Hw. pose proof Hw as [Ht Hs Hcap Hd Ho]. unfold jobs_ok in Ht. destruct 1 as
    [f remote port t range v st Hg|j js t1 t2 r out st Hj Ha|t ts slot rand draws r out st Hp Hslot Hdr Hprep
    |d ds dialed nonce e r out st Hin Hb|j js e r out st Hin Hc|sid h x e r st Hsid Hwr Hx Hset|sid reason e out r st Hb
    |c cs r st Hin Hc|sid t e out r st Hv|].
  - pose proof (serveSyn_table (wsrv w) f remote t range) as (E & E3 & _). rewrite Hg in E, E3. cbn [snd] in E, E3.
    split; cbn [wsrv inflight storing]; rewrite ?E3; try done. by eapply same_table_ok.
  - pose proof (admit_table (wsrv w) (jRemote j) (jFrame j) (jPort j) (jPSK j) t1 t2) as (E & E3). rewrite Ha in E, E3.
    split; cbn [wsrv inflight storing snd] in *; rewrite ?E3; try done. by eapply same_table_ok.
  - pose proof (prepare_table (wsrv w) t slot rand draws Hdr) as E. rewrite Hprep in E. destruct E as (E & E3).
    split; cbn [wsrv inflight storing]; [by eapply same_table_ok|..|done]; destruct r as [d|]; rewrite ?len_cons;
      (destruct E3 as (-> & E3 & Hok & _); specialize (Hslot eq_refl)) || idtac; try lia; try done. by constructor.
  - assert (Hd' : dialing_ok d ∧ Forall dialing_ok ds) by (rewrite Hin in Hd; by apply Forall_cons in Hd).
    destruct Hd' as [Hok Hds]. pose proof (build_table (wsrv w) d dialed nonce e Hm Hok) as E. rewrite Hb in E.
    assert (Hlen : len (inflight w) = len ds + 1) by (unfold len; rewrite Hin; simpl; lia). destruct E as [E E3].
    split; cbn [wsrv inflight storing]; [|destruct r as [o|]; rewrite ?len_cons; lia|destruct r; lia|done|].
    + eapply same_table_ok in Ht; [|exact E]. by destruct r.
    + destruct r as [o|]; [|done]. constructor; [apply E3|done].
  - assert (Ho' : opening_ok (jOpening j) ∧ Forall (λ j, opening_ok (jOpening j)) js) by (rewrite Hin in Ho; by apply Forall_cons in Ho).
    destruct Ho' as [Hok Hjs]. assert (Hlen : len (storing w) = len js + 1) by (unfold len; rewrite Hin; simpl; lia).
    eapply table_perm in Ht; [|apply bind_Permutation, Hin|done]. rewrite (total_perm _ _ _ Hin) in Ht.
    destruct (commitStep_table (wsrv w) (jOpening j) (jPhase j) e r out st _ _ _ _ Hok Ht Hc) as [E E3].
    split; cbn [wsrv inflight storing]; [by destruct r|destruct r; rewrite ?len_cons; lia|destruct r; lia|done|].
    destruct r; [by constructor|done].
  - pose proof (ti_entries _ _ _ _ _ Ht _ _ Hsid) as Hentry.
    destruct (serverStep_entry sid h x e Hentry Hwr Hx) as [H1 H2].
    destruct (settle_table _ _ _ _ _ _ _ _ _ _ Hsid H1 H2 Hset Ht) as [E E3]. by apply closings_inv.
  - destruct (beginClose_table _ _ _ _ _ _ _ _ _ _ _ Hb Ht) as [E E3]. by apply closings_inv.
  - eapply table_perm in Ht; [|done|exact Hin].
    destruct (closeStep_table _ _ _ _ _ _ _ _ Hc Ht) as [E E3]. by apply closings_inv.
  - assert (H : (∃ reason, beginClose (wsrv w) sid reason e = (out, r, st)) ∨ (r = None ∧ st = wsrv w)).
    { unfold cleanupVisit in Hv. destruct (sessions (wsrv w) !! sid) as [s|]; [|by injection Hv as _ <- <-; right].
      destruct (idle t s); [by left; exists ""|by injection Hv as _ <- <-; right]. }
    destruct H as [[reason Hb]|[-> ->]]; [|by apply closings_inv].
    destruct (beginClose_table _ _ _ _ _ _ _ _ _ _ _ Hb Ht) as [E E3]. by apply closings_inv.
  - unfold closeServer. destruct (srvClosed (wsrv w)); cbn [snd];
      (split; [eapply (table_same (wsrv w)); [done..|exact Ht]|done..]).
Qed.

(** At rest the table has no session that is open and not registered. *)
Lemma table_rest st rc : table_ok st [] 0 [] rc →
  openSids st ⊆ registeredSids st ∧
  liveSessions st = Z.of_nat (size (openSids st)) + Z.of_nat (size (registeredSids st ∖ openSids st)) ∧
  ∀ sid h, sid ∈ registeredSids st ∖ openSids st → handles st !! sid = Some h → ident h ∈ rc.
Proof.
  intros []. assert (Hsub : openSids st ⊆ registeredSids st).
  { intros sid (s & H1 & H2)%elem_open. assert (Hh : is_Some (handles st !! sid)) by (apply ti_dom0; by eexists).
    destruct Hh as [h Hh]. apply elem_registered. exists h. split; [done|]. apply not_false_is_true. intros Hr.
    by apply (ti_open0 _ _ _ Hh H1 Hr) in H2 as ?%elem_of_nil. }
  split_and!; [done| |].
  - rewrite <- Nat2Z.inj_add, <- size_union by set_solver. rewrite <- union_difference_L by done. cbn in ti_live0. lia.
  - intros sid h [Hr Hn]%elem_of_difference Hh. apply elem_registered in Hr as (h' & E & Hr). assert (h' = h) as -> by congruence.
    assert (Hs : is_Some (sessions st !! sid)) by (apply ti_dom0; by eexists). destruct Hs as [s Hs].
    assert (Hc : sessClosed (core s) = true).
    { apply not_false_is_true. intros Hc. apply Hn, elem_open. by exists s. }
    destruct (ti_dead0 _ _ _ Hh Hs Hc (or_introl Hr)) as [(c & ?%elem_of_nil & _)|?]; done.
Qed.

Lemma winv_new : winv newWorld.
Proof.
  split; [|done..]. change (table_ok newServerState [] 0 [] ∅).
  split; cbn [newServerState sessions handles liveSessions idents]; try done; try apply map_Forall_empty; try apply NoDup_nil_2.
  - intros sid. rewrite !lookup_empty. split; intros [? [=]].
  - intros sid i Hin. by apply elem_of_nil in Hin.
  - intros c Hin. by apply elem_of_nil in Hin.
Qed.

(** C5: (invariant) The session table, over every interleaving of SYNs, handshakes in
    all their phases - each atomic access between the dial and the answer a step of its
    own - traffic, closing sessions, idle sweeps and shutdown.  Every session sits under
    its own, nonzero identifier with keys of the right length.  The live-session counter
    that the session cap tests, with the handshakes that have marked their session and
    not yet counted it, is the number of registered sessions, with the [Close]s that
    have taken a mark back and not yet discounted it.  When no handshake and no [Close]
    is on its way, every open session is registered, so the counter is the number of
    open sessions plus that of dead ones still registered, and those are sessions whose
    [Close] looked at the mark before their handshake set it.  And the handshakes between
    slot and answer are as many as the slots taken, at most 64. *)
Theorem session_table_consistent w :
  0 ≤ sMagic cfg < 2 ^ 32 → rtc wstep newWorld w →
  let st := wsrv w in
  (∀ sid s, sessions st !! sid = Some s →
     sid ≠ 0 ∧ Session.sid (core s) = sid ∧ len (aead_key (Send (skeys (core s)))) = 32) ∧
  liveSessions st + total counting (storing w) = Z.of_nat (size (registeredSids st)) + total uncounting (closings w) ∧
  (storing w = [] → closings w = [] →
     openSids st ⊆ registeredSids st ∧
     liveSessions st = Z.of_nat (size (openSids st)) + Z.of_nat (size (registeredSids st ∖ openSids st)) ∧
     (∀ sid h, sid ∈ registeredSids st ∖ openSids st → handles st !! sid = Some h → ident h ∈ early w) ∧
     (early w = ∅ → liveSessions st = Z.of_nat (size (openSids st)))) ∧
  slots st = len (inflight w) + len (storing w) ∧ slots st ≤ handshakeMaxConcurrent.
Proof.
  intros Hm Hrun st. assert (H : winv w).
  { revert w Hrun st. refine (rtc_ind_r _ _ _ _); [apply winv_new|].
    intros w w' _ Hstep IH. by eapply wstep_inv. }
  destruct H as [Ht Hs Hcap _ _]. pose proof Ht as Ht0. destruct Ht0 as [He _ Hl _ _ _ _ _ _ _]. split_and!; try done.
  - intros sid s Hsid. destruct (He _ _ Hsid) as [Hne [k Hk]].
    split_and!; [done|apply (so_id _ _ _ Hk)|]. rewrite (so_keys _ _ _ Hk). apply (so_key _ _ _ Hk).
  - intros E1 E2. unfold jobs_ok in Ht. rewrite E1, E2 in Ht. apply table_rest in Ht as (R1 & R2 & R3).
    split_and!; [done|done|done|]. intros E3. fold st in R2. rewrite R2.
    replace (registeredSids st ∖ openSids st) with (∅ : gset Z); [rewrite size_empty; lia|].
    symmetry. apply elem_of_equiv_empty_L. intros sid Hin. pose proof Hin as [Hr _]%elem_of_difference.
    apply elem_registered in Hr as (h & Hh & _). specialize (R3 sid h Hin Hh). rewrite E3 in R3. set_solver.
Qed.

(** ** A session closed before it was registered *)

(** Registered, dead, and no [Close] under way for it. *)
Definition leaked (w : world) (sid i : Z) : Prop :=
  handles (wsrv w) !! sid = Some (mkHandle i true) ∧
  (∃ s, sessions (wsrv w) !! sid = Some s ∧ sessClosed (core s) = true) ∧ (∀ c, c ∈ closings w → cSid c ≠ sid).

Lemma leaked_same w sid i st :
  handles st = handles (wsrv w) → sessions st = sessions (wsrv w) → leaked w sid i →
  ∀ v wt inf js, leaked (mkWorld st v wt inf js (closings w) (early w)) sid i.
Proof. intros E1 E2 H v wt inf js. unfold leaked. cbn [wsrv closings]. by rewrite E1, E2. Qed.

Lemma leaked_settle w sid i k s s' r st :
  sessions (wsrv w) !! k = Some s → (sessClosed (core s) = true → sessClosed (core s') = true) →
  settle (wsrv w) k s s' = (r, st) → leaked w sid i → leaked (set_closings w st (option_list r ++ closings w) (early w)) sid i.
Proof.
  intros Hs Hc Hset (Hh & (s0 & H0 & H1) & Hn). unfold settle in Hset. injection Hset as <- <-.
  split_and!; cbn [set_closings wsrv closings set_entry set_table handles sessions].
  - done.
  - destruct (decide (k = sid)) as [->|Hk]; [|exists s0; by rewrite lookup_insert_ne]. exists s'. rewrite lookup_insert_eq.
    split; [done|]. apply Hc. congruence.
  - intros c [Hin|Hin]%elem_of_app; [|by apply Hn]. destruct (_ && _) eqn:E; [|by apply elem_of_nil in Hin].
    destruct (handles (wsrv w) !! k) as [h|]; [|by apply elem_of_nil in Hin]. apply list_elem_of_singleton in Hin as ->.
    cbn [cSid]. intros ->. apply andb_true_iff in E as [_ E]. assert (s = s0) as -> by congruence. by rewrite H1 in E.
Qed.

Lemma leaked_beginClose w sid i k reason e out r st :
  beginClose (wsrv w) k reason e = (out, r, st) → leaked w sid i →
  leaked (set_closings w st (option_list r ++ closings w) (early w)) sid i.
Proof.
  unfold beginClose. assert (Hsame : leaked w sid i → leaked (set_closings w (wsrv w) (option_list None ++ closings w) (early w)) sid i) by done.
  destruct (sessions (wsrv w) !! k) as [s|] eqn:Hs; [|by intros [= _ <- <-]].
  destruct (sessClosed (core s)) eqn:Hc; [by intros [= _ <- <-]|].
  destruct (closeSession (core s) reason e) as [o c]. destruct (settle _ k s _) as [r1 st1] eqn:E. intros [= _ <- <-].
  eapply leaked_settle; [exact Hs|by rewrite Hc|exact E].
Qed.

(** A step of a handshake leaves it alone. *)
Lemma leaked_commit w sid i o ph e r out st :
  commitStep cfg (wsrv w) o ph false e = (r, out, st) → leaked w sid i →
  ∀ js, leaked (mkWorld st (verified w) (waiting w) (inflight w) js (closings w) (early w)) sid i.
Proof.
  intros Hc Hl js. pose proof Hl as (Hh & (s0 & H0 & H1) & Hn).
  assert (Hsame : ∀ st1, handles st1 = handles (wsrv w) → sessions st1 = sessions (wsrv w) →
    leaked (mkWorld st1 (verified w) (waiting w) (inflight w) js (closings w) (early w)) sid i).
  { intros. by apply leaked_same. }
  assert (Hset : ∀ k s s', sessions (wsrv w) !! k = Some s → (sessClosed (core s) = true → sessClosed (core s') = true) →
    leaked (mkWorld (set_entry (wsrv w) k s') (verified w) (waiting w) (inflight w) js (closings w) (early w)) sid i).
  { intros k s s' Hk Hcl. split_and!; [done| |done]. cbn [wsrv set_entry set_table sessions].
    destruct (decide (k = sid)) as [->|]; [|exists s0; by rewrite lookup_insert_ne]. exists s'. rewrite lookup_insert_eq.
    split; [done|]. apply Hcl. congruence. }
  unfold commitStep in Hc. destruct ph as [|j|j|j|j| | |[j|]|]; try (injection Hc as _ _ <-; by apply Hsame).
  - destruct (sessions (wsrv w) !! dSid (oDial o)) as [s|] eqn:Hs; injection Hc as _ _ <-; [by apply Hsame|].
    assert (dSid (oDial o) ≠ sid) by congruence. split_and!; cbn [wsrv set_table handles sessions closings];
      [by rewrite lookup_insert_ne| |done]. exists s0. by rewrite lookup_insert_ne.
  - destruct (_ || _); injection Hc as _ _ <-; by apply Hsame.
  - injection Hc as _ _ <-. unfold holds. destruct (handles (wsrv w) !! dSid (oDial o)) as [h|] eqn:E; [|by apply Hsame].
    destruct (Z.eqb_spec (ident h) j) as [Ej|]; [|by apply Hsame]. split_and!; [|by exists s0|done].
    cbn [wsrv set_handle set_table handles]. destruct (decide (dSid (oDial o) = sid)) as [Ed|]; [|by rewrite lookup_insert_ne].
    rewrite Ed in *. rewrite lookup_insert_eq. rewrite Hh in E. injection E as <-. by subst j.
  - injection Hc as _ _ <-. destruct (sessions (wsrv w) !! dSid (oDial o)) as [s|] eqn:Hs; [|by apply Hsame].
    destruct (holds _ _ _); [|by apply Hsame]. eapply Hset; [exact Hs|]. by rewrite setPath_core.
  - injection Hc as _ _ <-. unfold closeUnregistered.
    destruct (sessions (wsrv w) !! dSid (oDial o)) as [s|] eqn:Hs; [|by apply Hsame].
    destruct (_ && _); [|by apply Hsame]. eapply Hset; [exact Hs|]. intros _. apply closeSession_closed.
Qed.

Lemma leaked_step w w' sid i : winv w → wstep w w' → leaked w sid i → leaked w' sid i.
Proof.
  intros Hw Hstep Hl. pose proof (wi_table _ Hw) as Ht. unfold jobs_ok in Ht. pose proof Hl as (Hh & (s0 & H0 & H1) & Hn).
  destruct Hstep as
    [f remote port t range v st Hg|j js t1 t2 r out st Hj Ha|t ts slot rand draws r out st Hp Hslot Hdr Hprep
    |d ds dialed nonce e r out st Hin Hb|j js e r out st Hin Hc|k h x e r st Hsid Hwr Hx Hset|k reason e out r st Hb
    |c cs r st Hin Hc|k t e out r st Hv|].
  - pose proof (serveSyn_table (wsrv w) f remote t range) as ((E1 & E2 & _) & _). rewrite Hg in *. by apply leaked_same.
  - pose proof (admit_table (wsrv w) (jRemote j) (jFrame j) (jPort j) (jPSK j) t1 t2) as ((E1 & E2 & _) & _).
    rewrite Ha in *. by apply leaked_same.
  - pose proof (prepare_table (wsrv w) t slot rand draws Hdr) as E. rewrite Hprep in E. destruct E as ((E1 & E2 & _) & _).
    by apply leaked_same.
  - assert (E : sessions st = sessions (wsrv w) ∧ handles st = handles (wsrv w)).
    { unfold build in Hb. repeat case_match; by injection Hb as _ _ <-. }
    destruct E. by apply leaked_same.
  - by eapply leaked_commit.
  - destruct (serverStep_entry k h x e (ti_entries _ _ _ _ _ Ht _ _ Hsid) Hwr Hx) as [_ H2].
    exact (leaked_settle w sid i k _ _ r st Hsid H2 Hset Hl).
  - by eapply leaked_beginClose.
  - assert (Hcin : c ∈ closings w) by (rewrite Hin; by left). assert (Hne : cSid c ≠ sid) by by apply Hn.
    assert (Hcs : ∀ c', c' ∈ cs → cSid c' ≠ sid) by (intros c' ?; apply Hn; rewrite Hin; by right).
    assert (E : handles st !! sid = handles (wsrv w) !! sid ∧ sessions st !! sid = sessions (wsrv w) !! sid ∧
                ∀ c', c' ∈ option_list r → cSid c' = cSid c).
    { unfold closeStep in Hc. destruct (cPhase c); [destruct (handles (wsrv w) !! cSid c); [destruct (_ && _)|]|..];
        injection Hc as <- <-; cbn [set_handle set_live set_table handles sessions];
        rewrite ?lookup_insert_ne, ?lookup_delete_ne by done; (split_and!; [done|done|]); intros c' Hin';
        first [by apply elem_of_nil in Hin'|by apply list_elem_of_singleton in Hin' as ->]. }
    destruct E as (E1 & E2 & E3). split_and!; cbn [set_closings wsrv closings]; [by rewrite E1|exists s0; by rewrite E2|].
    intros c' [Hc'|Hc']%elem_of_app; [rewrite (E3 _ Hc'); done|by apply Hcs].
  - unfold cleanupVisit in Hv. destruct (sessions (wsrv w) !! k) as [s|]; [|by injection Hv as _ <- <-].
    destruct (idle t s); [by eapply leaked_beginClose|by injection Hv as _ <- <-].
  - unfold closeServer, set_wsrv. destruct (srvClosed (wsrv w)); cbn [snd]; by apply leaked_same.
Qed.

(** The race is not repaired.  A dead session that got registered stays in the table
    whatever happens afterwards: [Close] has run and runs no second time.  Its
    identifier stays taken, and whenever the server is at rest the counter is above the
    number of open sessions. *)
Theorem early_close_leaks w w' sid i :
  0 ≤ sMagic cfg < 2 ^ 32 → rtc wstep newWorld w → leaked w sid i → rtc wstep w w' →
  leaked w' sid i ∧
  (storing w' = [] → closings w' = [] → Z.of_nat (size (openSids (wsrv w'))) < liveSessions (wsrv w')).
Proof.
  intros Hm Hrun Hl Hrun'. assert (Hw : winv w).
  { clear Hl Hrun'. revert w Hrun. refine (rtc_ind_r _ _ _ _); [apply winv_new|].
    intros w1 w2 _ Hstep IH. by eapply wstep_inv. }
  assert (H : winv w' ∧ leaked w' sid i).
  { revert w' Hrun'. refine (rtc_ind_r _ _ _ _); [done|]. intros w1 w2 _ Hstep [I1 I2].
    split; [by eapply wstep_inv|by eapply leaked_step]. }
  destruct H as [[Ht _ _ _ _] Hl']. split; [done|]. intros E1 E2. unfold jobs_ok in Ht. rewrite E1, E2 in Ht.
  apply table_rest in Ht as (_ & R2 & _). destruct Hl' as (Hh & (s & Hs & Hc) & _).
  assert (Hin : sid ∈ registeredSids (wsrv w') ∖ openSids (wsrv w')).
  { apply elem_of_difference. split; [apply elem_registered; by eexists|]. intros (s' & E & ?)%elem_open. congruence. }
  assert (size (registeredSids (wsrv w') ∖ openSids (wsrv w')) ≠ 0%nat) by (intros E0%size_empty_inv; set_solver). lia.
Qed.

(** ** A handshake nothing interferes with *)

(** How many steps a phase is from the end. *)
Definition rank (ph : phase) : nat :=
  match ph with
  | Built => 7 | Stored _ => 6 | Checked _ => 5 | Marked _ => 4 | Counted _ => 3 | Pathed => 2 | Cached => 1
  | Refused _ => 2 | Leaving => 1
  end.

(** [commitRun] has fuel enough, and is a run of the table. *)
Lemma commitRun_steps fuel st o ph e v wt inf js cs rc :
  (rank ph ≤ fuel)%nat →
  rtc wstep (mkWorld st v wt inf (mkJob' o ph :: js) cs rc) (mkWorld (commitRun cfg fuel st o ph false e).2 v wt inf js cs rc).
Proof.
  revert st ph. induction fuel as [|fuel IH]; intros st ph Hr; [destruct ph; cbn in Hr; lia|].
  cbn [commitRun]. destruct (commitStep cfg st o ph false e) as [[r out] st1] eqn:E.
  eapply rtc_l; [by eapply (W_commit _ (mkJob' o ph) js e r out st1)|]. cbn [wsrv verified waiting inflight storing closings early jOpening].
  destruct r as [ph1|]; [|done].
  assert (Hr1 : (rank ph1 ≤ fuel)%nat).
  { unfold commitStep in E. destruct ph; cbn in Hr; repeat case_match; simplify_eq; cbn; lia. }
  specialize (IH st1 ph1 Hr1). by destruct (commitRun cfg fuel st1 o ph1 false e).
Qed.

Lemma commit_steps w d ds dialed nonce e :
  inflight w ≡ₚ d :: ds →
  rtc wstep w (mkWorld (commit cfg (wsrv w) d dialed false nonce e).2 (verified w) (waiting w) ds (storing w) (closings w) (early w)).
Proof.
  intros Hin. unfold commit. destruct (build cfg (wsrv w) d dialed nonce e) as [[r out] st] eqn:E.
  eapply rtc_l; [by eapply W_build|]. destruct r as [o|]; [|done].
  pose proof (commitRun_steps 7 st o Built e (verified w) (waiting w) ds (storing w) (closings w) (early w) ltac:(done)) as H.
  by destruct (commitRun cfg 7 st o Built false e).
Qed.

End Table.

(** * A run *)

Section Witness.
#[local] Existing Instance plain_crypto.
#[local] Existing Instance toy_noise.
#[local] Existing Instance xor_code.

Definition demo_gated : syn_verdict * server :=
  serveSyn (demo_server 0) newServerState demo_syn demo_from (1000 * second) (λ _, []).
Definition demo_admitted : admission * list srv_output * server :=
  admitSyn id (demo_server 0) demo_gated.2 demo_from demo_syn 443 (str "alpha") 1000 (1000 * second).
Definition demo_ticket : ticket :=
  mkTicket (makeSynCacheKey demo_nonce (SynMAC (DerivePSKHandshakeKeys (str "alpha") demo_nonce))) demo_nonce
    (str "alpha") demo_from 443 demo_target [] (synFlags demo_client).
Definition demo_prepared : option dialing * list srv_output * server :=
  prepare id (demo_server 0) demo_admitted.2 demo_ticket SlotFree None [9].
Definition demo_dialing : dialing := mkDialing demo_ticket 9 None TCP (str "h:80").
Definition demo_done : list srv_output * server :=
  commit (demo_server 0) demo_prepared.2 demo_dialing true false (Some (replicate 16 3)) (toy_senv (1000 * second)).

Definition demo_world : world := mkWorld demo_done.2 [] [] [] [] [] ∅.

Lemma demo_phases :
  demo_gated.1 = SynVerified (str "alpha") ∧ demo_admitted.1.1 = SynAdmitted demo_ticket ∧
  demo_prepared.1.1 = Some demo_dialing ∧ size (sessions demo_done.2) = 1%nat ∧ size (openSids demo_done.2) = 1%nat.
Proof. vm_compute. done. Qed.

Lemma demo_slots : slots demo_admitted.2 = 0.
Proof.
  destruct (admit_table id (demo_server 0) demo_gated.2 demo_from demo_syn 443 (str "alpha") 1000 (1000 * second)) as (_ & E).
  destruct (serveSyn_table (demo_server 0) newServerState demo_syn demo_from (1000 * second) (λ _, [])) as (_ & E' & _).
  exact (eq_trans E E').
Qed.

(** The handshake up to the dial. *)
Lemma demo_dialed : rtc (wstep id (demo_server 0)) newWorld (mkWorld demo_prepared.2 [] [] [demo_dialing] [] [] ∅).
Proof.
  destruct demo_phases as (E1 & E2 & E3 & _).
  eapply rtc_l.
  { eapply (W_gate _ _ newWorld demo_syn demo_from 443 (1000 * second) (λ _, []) demo_gated.1 demo_gated.2).
    apply surjective_pairing. }
  rewrite E1. eapply rtc_l.
  { eapply (W_admit _ _ _ (mkJob demo_syn demo_from 443 (str "alpha")) [] 1000 (1000 * second)
      demo_admitted.1.1 demo_admitted.1.2 demo_admitted.2); [reflexivity|].
    rewrite <- !surjective_pairing. reflexivity. }
  rewrite E2. apply rtc_once.
  pose proof (W_prepare id (demo_server 0) (mkWorld demo_admitted.2 [] [demo_ticket] [] [] [] ∅) demo_ticket [] SlotFree None [9]
    demo_prepared.1.1 demo_prepared.1.2 demo_prepared.2) as H. rewrite E3 in H. apply H;
      [reflexivity|intros _; cbn [wsrv]; by rewrite demo_slots|repeat constructor; lia|]. rewrite <- E3, <- !surjective_pairing. reflexivity.
Qed.

Lemma demo_world_reached : rtc (wstep id (demo_server 0)) newWorld demo_world.
Proof.
  etransitivity; [exact demo_dialed|].
  exact (commit_steps id (demo_server 0) (mkWorld demo_prepared.2 [] [] [demo_dialing] [] [] ∅) demo_dialing [] true
    (Some (replicate 16 3)) (toy_senv (1000 * second)) (Permutation_refl _)).
Qed.

Lemma demo_magic : 0 ≤ sMagic (demo_server 0) < 2 ^ 32.
Proof. vm_compute. split; [discriminate|reflexivity]. Qed.

Lemma session_table_consistent_witness :
  size (openSids (wsrv demo_world)) = 1%nat ∧ liveSessions (wsrv demo_world) = 1.
Proof.
  destruct demo_phases as (_ & _ & _ & _ & E5). split; [exact E5|].
  destruct (session_table_consistent (CL := plain_crypto_laws) id (demo_server 0) demo_world demo_magic demo_world_reached)
    as (_ & _ & H & _). destruct (H eq_refl eq_refl) as (_ & _ & _ & H4). rewrite (H4 eq_refl).
  change (wsrv demo_world) with demo_done.2. rewrite E5. reflexivity.
Defined.

(** Between the store and the registration the server shuts down and closes the session. *)
Definition demo_env : senv := toy_senv (1000 * second).
Definition demo_keys : FrameKeys :=
  match serverKeys demo_dialing (replicate 16 3) with
  | Ok k => serverNegotiate (demo_server 0) (tkFlags demo_ticket) k
  | Err _ => newFrameKeys {| aead_key := [] |} {| aead_key := [] |}
  end.
Definition demo_opening : opening :=
  mkOpening demo_dialing demo_keys (replicate 16 3) (createSession (demo_server 0) demo_dialing demo_keys (1000 * second)).
Definition demo_stored : server := (commitStep (demo_server 0) demo_prepared.2 demo_opening Built false demo_env).2.
Definition demo_shut : server := (closeServer demo_stored).2.
Definition demo_closed : server := (beginClose demo_shut 9 "" (base demo_env)).2.
Definition demo_leak : world :=
  mkWorld (commitRun (demo_server 0) 7 demo_closed demo_opening (Checked 0) false demo_env).2 [] [] [] [] [] ({[0]} ∪ ∅).

Lemma demo_race :
  build (demo_server 0) demo_prepared.2 demo_dialing true (Some (replicate 16 3)) demo_env = (Some demo_opening, [], demo_prepared.2) ∧
  commitStep (demo_server 0) demo_prepared.2 demo_opening Built false demo_env = (Some (Stored 0), [], demo_stored) ∧
  commitStep (demo_server 0) demo_stored demo_opening (Stored 0) false demo_env = (Some (Checked 0), [], demo_stored) ∧
  beginClose demo_shut 9 "" (base demo_env) =
    ((beginClose demo_shut 9 "" (base demo_env)).1.1, Some (mkClosing 9 0 Closed_), demo_closed) ∧
  closeStep demo_closed (mkClosing 9 0 Closed_) = (None, demo_closed).
Proof. vm_compute. done. Qed.

Lemma demo_leak_reached : rtc (wstep id (demo_server 0)) newWorld demo_leak.
Proof.
  destruct demo_race as (E1 & E2 & E3 & E4 & E5). etransitivity; [exact demo_dialed|].
  eapply rtc_l; [by eapply (W_build _ _ _ demo_dialing []); [reflexivity|exact E1]|]. cbn [wsrv verified waiting inflight storing closings early].
  eapply rtc_l; [by eapply (W_commit _ _ _ (mkJob' demo_opening Built) []); [reflexivity|exact E2]|].
  cbn [wsrv verified waiting inflight storing closings early jOpening].
  eapply rtc_l; [by eapply (W_commit _ _ _ (mkJob' demo_opening (Stored 0)) []); [reflexivity|exact E3]|].
  cbn [wsrv verified waiting inflight storing closings early jOpening].
  eapply rtc_l; [apply W_shutdown|]. unfold set_wsrv. cbn [wsrv verified waiting inflight storing closings early]. fold demo_shut.
  eapply rtc_l; [eapply (W_close _ _ _ 9); exact E4|]. unfold set_closings.
  cbn [wsrv verified waiting inflight storing closings early option_list option_rect app].
  eapply rtc_l; [by eapply (W_closing _ _ _ (mkClosing 9 0 Closed_) []); [reflexivity|exact E5]|]. unfold set_closings.
  cbn [wsrv verified waiting inflight storing closings early option_list option_rect app cPhase cIdent].
  by apply (commitRun_steps id (demo_server 0)); cbn; lia.
Qed.

Lemma early_close_leaks_witness :
  leaked demo_leak 9 0 ∧ size (openSids (wsrv demo_leak)) = 0%nat ∧ 0 < liveSessions (wsrv demo_leak).
Proof.
  assert (Hl : leaked demo_leak 9 0).
  { split_and!; [by vm_compute|eexists; split; [vm_compute; reflexivity|reflexivity]|]. intros c Hc. by apply elem_of_nil in Hc. }
  destruct (early_close_leaks (CL := plain_crypto_laws) id (demo_server 0) demo_leak demo_leak 9 0 demo_magic demo_leak_reached Hl (rtc_refl _ _))
    as [H1 H2].
  assert (E : size (openSids (wsrv demo_leak)) = 0%nat) by (by vm_compute).
  split; [exact H1|]. split; [exact E|]. specialize (H2 eq_refl eq_refl). rewrite E in H2. exact H2.
Defined.

End Witness.
