(* ===== verification/Handshake.v ===== *)
(** The handshake as a protocol: the client of [HandshakeClient] and the server of
    [HandshakeServer] joined.  What they agree on, what a failed handshake leaves
    behind, what a repeated SYN does, and when the client gives up. *)
From S2P Require Import Prelude GoStrings Protocol Noise F64 Rtt FecLoss FecWire Erasure FecBlock FecSender FecReceiver Replay Targets Delivery AckCoalesce Flow Sack Arq Session ClientSession ServerSession SynGuard Endpoint Actions Tunnel Pump HandshakeClient HandshakeServer SessionTable.
Local Open Scope Z_scope.
Local Open Scope go_scope.

(** * Frames under the handshake MAC *)

(** A sealed handshake frame verifies under its key and parses back, whatever its
    payload holds. *)
Lemma sealed_mac f key m :
  frame_wf (with_raw f [] []) → Version f = UDPC_VERSION → validUDPCCommand (Cmd f) = true →
  len (Data f) ≤ UDPC_MAX_DATA → (m = 0 ∨ m = Magic f) →
  let wire := SealFrameMAC f key in
  VerifyFrameAuth wire key = Ok tt ∧ parseUDPCFrame wire m = Ok (with_raw f (Data f) wire) ∧ len wire ≠ 0.
Proof.
  intros Hwf Hv Hc Hlen Hm. set (msg := encodeHeaderInto f (len (Data f)) ++ Data f).
  assert (Hl : len msg = 40 + len (Data f)) by (subst msg; by autorewrite with len).
  pose proof (len_nonneg (Data f)) as H0.
  assert (Hwire : SealFrameMAC f key = msg ++ frameMACInto key msg).
  { unfold SealFrameMAC, MarshalBinary, macWire.
    unfold UDPC_MAX_DATA, UDPC_MAX_PKT, UDPC_HDR_SIZE, UDPC_TRAILER_SIZE in *.
    destruct (Z.ltb_spec 65535 (len (Data f))); [lia|].
    destruct (Z.ltb_spec 1450 (40 + len (Data f) + 16)); [lia|].
    rewrite app_assoc. fold msg. rewrite len_app, len_zeros by lia.
    destruct (Z.ltb_spec (len msg + 16) (40 + 16)); [lia|]. by rewrite upto_app by lia. }
  cbv zeta. rewrite Hwire. split_and!.
  - apply verify_iff. exists msg. split; [lia|done].
  - subst msg. rewrite <- !app_assoc.
    exact (parse_encode (with_raw f [] []) (Data f) (frameMACInto key _) m Hwf Hv Hc Hlen (len_frameMAC _ _) Hm).
  - rewrite len_app, len_frameMAC. lia.
Qed.

Lemma ack_payload_roundtrip base target msg2 (hasNoise : bool) :
  len base = ackPayloadBase → len target ≤ TargetMaxLen →
  len msg2 = (if hasNoise then noiseMsg2Size else 0) →
  splitAckPayload (handshake_payload base target msg2) hasNoise = Ok (target, msg2).
Proof.
  intros Hb Ht Hm. unfold handshake_payload. rewrite appendTargetTLV_app by done.
  unfold splitAckPayload. autorewrite with len. rewrite Hb.
  pose proof (len_nonneg (requestedTargetTLV target)). pose proof (len_nonneg msg2).
  destruct (Z.ltb_spec (ackPayloadBase + len (requestedTargetTLV target) + len msg2)
              ackPayloadBase); [lia|].
  rewrite <- app_assoc, from_app by done.
  exact (split_rest_complete target msg2 hasNoise ErrAckMissingMsg2 ErrInvalidGrantedField Ht Hm).
Qed.

Lemma len_requestedTLV target :
  len target ≤ TargetMaxLen → 0 ≤ len (requestedTargetTLV target) ≤ targetRequestTLVLen + TargetMaxLen.
Proof.
  unfold requestedTargetTLV, targetRequestTLVLen, TargetMaxLen. pose proof (len_nonneg target).
  case_bool_decide; [|rewrite len_app, len_be_bytes; lia]. change (len (@nil Z)) with 0. lia.
Qed.

(** A payload of the common shape: its length and the fields in front. *)
Lemma handshake_payload_fields base target msg :
  len target ≤ TargetMaxLen →
  len (handshake_payload base target msg) = len base + len (requestedTargetTLV target) + len msg ∧
  ∀ i j, 0 ≤ i ≤ j → j ≤ len base →
    slice i j (handshake_payload base target msg) = slice i j base.
Proof.
  intros Ht. unfold handshake_payload. rewrite appendTargetTLV_app by done. split; [by rewrite !len_app|].
  intros i j Hi Hj. rewrite <- app_assoc. unfold slice, len in *.
  rewrite drop_app_le by lia. rewrite take_app_le; [done|]. rewrite length_drop. lia.
Qed.

Section Agreement.
Context {C : Crypto} {CL : CryptoLaws C} {N : NoisePrims} {NL : NoiseLaws N} {RS : ReedSolomon}.
Context (toLower : bytes → bytes) (cc : clientCfg) (sc : srvConf).

(** The two configurations fit: one magic, and either the client knows the server's
    public key or neither side uses Noise. *)
Definition configs_match : Prop :=
  cMagic cc = sMagic sc ∧ 0 ≤ cMagic cc < 2 ^ 32 ∧
  match sPriv sc with
  | Some sk => len sk = 32 ∧ X25519 sk Basepoint = Some (cServerPub cc) ∧ cServerPub cc ≠ zeros 32
  | None => cServerPub cc = zeros 32
  end.

Lemma encrypted_iff : configs_match → clientEncrypted cc = hasPrivKey sc.
Proof.
  intros (_ & _ & H). unfold clientEncrypted, hasPrivKey. destruct (sPriv sc).
  - destruct H as (_ & _ & H). by rewrite bool_decide_eq_false_2 by done.
  - by rewrite bool_decide_eq_true_2 by done.
Qed.

(** ** The client's SYN *)

Lemma synFlags_range : 0 ≤ synFlags cc < 2 ^ 16.
Proof.
  unfold synFlags. destruct (fecEnabled (cRecovery cc)), (fecEnabled (cWideWindow cc)), (fecEnabled (cFEC cc)),
    (fecEnabled (cFECExtParity cc)); vm_compute; (split; [discriminate|reflexivity]).
Qed.

(** What a successful start says. *)
Lemma startHandshake_inv pending target nr nonceR unix hs pending' :
  startHandshake cc pending target nr nonceR unix = (Ok hs, pending') →
  ∃ nonce m1, nonceR = Some nonce ∧ startNoise cc nr = Ok (hsNK hs, m1) ∧ len target ≤ TargetMaxLen ∧
  hsNonce hs = nonce ∧ hsFlags hs = synFlags cc ∧ hsPayload hs = synPayload nonce unix target m1 ∧
  hsMACs hs = map (λ psk, AckMAC (DerivePSKHandshakeKeys psk nonce)) (cPasswords cc) ∧
  pending' = <[nonce := mkPending (hsMACs hs) []]> pending.
Proof.
  unfold startHandshake. destruct (Z.ltb_spec TargetMaxLen (len target)); [done|].
  destruct (startNoise cc nr) as [[nk m1]|]; [|done]. destruct nonceR as [nonce|]; [|done].
  case_bool_decide; [done|]. intros [= <- <-]. by exists nonce, m1.
Qed.

Lemma startNoise_len nr nk m1 :
  configs_match → startNoise cc nr = Ok (nk, m1) → (∀ r, nr = Some r → len r = 32) →
  len m1 = if hasPrivKey sc then noiseMsg1Size else 0.
Proof.
  intros Hcfg. unfold startNoise. rewrite (encrypted_iff Hcfg). destruct (hasPrivKey sc) eqn:Hp; [|by intros [= _ <-]].
  destruct (NewClientNK (cServerPub cc) nr) as [c|] eqn:Hc; [|done]. cbn [result_bind].
  intros H Hr. destruct nr as [r|]; [|done].
  destruct (generateEphemeral_ok r (Hr r eq_refl)) as (E & _ & HlE & Hg).
  destruct (Message1_new _ _ _ Hc) as (s & es & _ & _ & _ & _ & Hg' & Hm). rewrite Hg in Hg'.
  injection Hg' as _ HE. rewrite <- HE in Hm. specialize (Hm HlE). pose proof (decrypt_encrypt s es) as Hd.
  destruct (encryptAndHash (mixKey s es) []) as [tag s']. destruct Hd as [_ Hd]. rewrite Hm in H.
  cbn [result_bind fst snd] in H. injection H as _ <-. rewrite len_app, HlE, Hd. done.
Qed.

(** The SYN of any attempt, as the server's parser sees it. *)
Lemma syn_arrives hs target unix nonce m1 attempt :
  configs_match → hsFlags hs = synFlags cc → hsPayload hs = synPayload nonce unix target m1 →
  len nonce = clientNonceSize → len target ≤ TargetMaxLen → len m1 ≤ noiseMsg1Size →
  let wire := sealSyn cc hs attempt in
  VerifyFrameAuth wire (SynMAC (DerivePSKHandshakeKeys (attemptPSK cc attempt) (hsNonce hs))) = Ok tt ∧
  parseUDPCFrame wire (sMagic sc) = Ok (with_raw (synFrame cc hs) (hsPayload hs) wire) ∧ len wire ≠ 0.
Proof.
  intros (Hm & Hr & _) Hf Hp Hn Ht Hm1. apply sealed_mac; cbn [synFrame Version Cmd Magic Data]; try done; [| |by right].
  - split_and!; cbn; rewrite ?Hf; try done; try apply synFlags_range; apply Hr.
  - rewrite Hp. destruct (handshake_payload_fields (nonce ++ be_bytes 8 (u64 unix)) target m1 Ht) as [Hl _].
    unfold synPayload. fold (handshake_payload (nonce ++ be_bytes 8 (u64 unix)) target m1). rewrite Hl.
    pose proof (len_requestedTLV target Ht). rewrite len_app, len_be_bytes.
    unfold UDPC_MAX_DATA, UDPC_MAX_PKT, UDPC_HDR_SIZE, UDPC_TRAILER_SIZE, clientNonceSize, noiseMsg1Size,
      targetRequestTLVLen, TargetMaxLen in *. lia.
Qed.

(** What the server reads in the SYN's payload. *)
Lemma syn_payload_read nonce unix target m1 :
  len nonce = clientNonceSize → len target ≤ TargetMaxLen → - 2 ^ 63 ≤ unix < 2 ^ 63 →
  len m1 = (if hasPrivKey sc then noiseMsg1Size else 0) →
  let data := synPayload nonce unix target m1 in
  upto clientNonceSize data = nonce ∧ timestampOf data = unix ∧
  splitSynPayload data (hasPrivKey sc) = Ok (target, m1) ∧
  len data = synPayloadBase + len (requestedTargetTLV target) + len m1.
Proof.
  intros Hn Ht Hu Hm1 data. set (base := nonce ++ be_bytes 8 (u64 unix)).
  assert (Hb : len base = synPayloadBase) by (unfold base; rewrite len_app, Hn, len_be_bytes; done).
  destruct (handshake_payload_fields base target m1 Ht) as [Hl Hf].
  change data with (handshake_payload base target m1).
  assert (Hc : 0 ≤ clientNonceSize ≤ synPayloadBase) by (unfold synPayloadBase, clientNonceSize; lia).
  split_and!.
  - rewrite <- slice_0, Hf by lia. unfold base. rewrite slice_0. by apply upto_app.
  - unfold timestampOf. rewrite Hf by lia. unfold base. rewrite <- (app_nil_r (be_bytes 8 (u64 unix))).
    rewrite slice_app by (done || by rewrite len_be_bytes).
    rewrite be_val_be_bytes_small by (change (256 ^ Z.of_nat 8) with (2 ^ 64); apply u64_range).
    unfold i64, u64, swrap, uwrap. rewrite Zplus_mod_idemp_l. by apply i64_small.
  - by apply syn_payload_roundtrip.
  - by rewrite Hl, Hb.
Qed.

(** ** The server's side *)

Definition ticketFor (nonce psk : bytes) (remote : AddrPort) (port : Z) (target m1 : bytes) : ticket :=
  mkTicket (makeSynCacheKey nonce (SynMAC (DerivePSKHandshakeKeys psk nonce))) nonce psk remote port target m1
    (synFlags cc).

(** The circumstances in which the server takes a well-formed SYN on. *)
Record admits (st : server) (nonce psk : bytes) (remote : AddrPort) (target : bytes) (unix nowUnix t : Z) : Prop := {
  ad_psk : psk ≠ [];
  ad_time : nowUnix - synTimestampWindow ≤ unix ≤ nowUnix + synTimestampWindow;
  ad_target : target = [] ∨ targetAllowed toLower target (sAllowed sc) = true;
  ad_cap : sMaxSessions sc ≤ 0 ∨ liveSessions st < sMaxSessions sc;
  ad_fresh : (Acquire (synC st) (makeSynCacheKey nonce (SynMAC (DerivePSKHandshakeKeys psk nonce))) t remote).1 = (None, true);
}.

Lemma server_admits st f nonce psk remote port target m1 unix nowUnix t :
  Data f = synPayload nonce unix target m1 → Flags f = synFlags cc →
  len nonce = clientNonceSize → len target ≤ TargetMaxLen → - 2 ^ 63 ≤ unix < 2 ^ 63 →
  len m1 = (if hasPrivKey sc then noiseMsg1Size else 0) →
  admits st nonce psk remote target unix nowUnix t →
  admitSyn toLower sc st remote f port psk nowUnix t =
  (SynAdmitted (ticketFor nonce psk remote port target m1), [],
   set_synC st (Acquire (synC st) (tkKey (ticketFor nonce psk remote port target m1)) t remote).2).
Proof.
  intros Hd Hf Hn Ht Hu Hm1 [Hpsk Htime Htarget Hcap Hfresh].
  destruct (syn_payload_read nonce unix target m1 Hn Ht Hu Hm1) as (R1 & R2 & R3 & R4).
  pose proof (len_requestedTLV target Ht) as HT. unfold admitSyn. rewrite Hd, R1, R2, R3, R4, Hf.
  rewrite bool_decide_eq_false_2 by done. cbn [orb].
  assert (Hlen : ∀ n, len m1 = n → n = (if hasPrivKey sc then noiseMsg1Size else 0)) by congruence.
  destruct (Z.ltb_spec (synPayloadBase + len (requestedTargetTLV target) + len m1)
    (synPayloadBase + (if hasPrivKey sc then noiseMsg1Size else 0))); [lia|]. cbn [orb].
  destruct (Z.ltb_spec (synPayloadBase + targetRequestTLVLen + TargetMaxLen + noiseMsg1Size)
    (synPayloadBase + len (requestedTargetTLV target) + len m1)).
  { exfalso. rewrite Hm1 in *. unfold noiseMsg1Size in *. destruct (hasPrivKey sc); lia. }
  destruct (Z.ltb_spec unix (nowUnix - synTimestampWindow)); [lia|]. cbn [orb].
  destruct (Z.ltb_spec (nowUnix + synTimestampWindow) unix); [lia|]. rewrite Z.eqb_refl. cbn [negb].
  replace (negb (bool_decide (target = [])) && negb (targetAllowed toLower target (sAllowed sc))) with false.
  2: { destruct Htarget as [-> | ->]; [done|]. cbn [negb]. by rewrite andb_false_r. }
  replace ((0 <? sMaxSessions sc) && (sMaxSessions sc <=? liveSessions st)) with false.
  2: { destruct (Z.ltb_spec 0 (sMaxSessions sc)), (Z.leb_spec (sMaxSessions sc) (liveSessions st)); try done; lia. }
  cbn [tkKey ticketFor] in *. destruct (Acquire _ _ _ _) as [[cached owner] c]. cbn [fst snd] in *.
  injection Hfresh as -> ->. done.
Qed.

Lemma negotiate_agree k0 k1 :
  let ks := serverNegotiate sc (synFlags cc) k0 in
  let kc := clientNegotiate cc (ackFlags ks) k1 in
  fec kc = fec ks ∧ fecExt kc = fecExt ks ∧ wideWindow kc = wideWindow ks ∧ recovery kc = recovery ks.
Proof.
  unfold serverNegotiate, clientNegotiate, ackFlags, synFlags. cbn [fec fecExt wideWindow recovery].
  destruct (fecEnabled (cRecovery cc)), (fecEnabled (cWideWindow cc)), (fecEnabled (cFEC cc)),
    (fecEnabled (cFECExtParity cc)), (fecEnabled (sRecovery sc)), (fecEnabled (sWideWindow sc)),
    (fecEnabled (sFEC sc)), (fecEnabled (sFECExtParity sc)); vm_compute; done.
Qed.

Lemma ackFlags_range k : 0 ≤ ackFlags k < 2 ^ 16.
Proof.
  unfold ackFlags. destruct (fec k), (fecExt k), (wideWindow k), (recovery k); vm_compute;
    (split; [discriminate|reflexivity]).
Qed.

(** ** The client's side *)

Lemma matchAck_first psk nonce wire passwords :
  psk ∈ passwords → VerifyFrameAuth wire (AckMAC (DerivePSKHandshakeKeys psk nonce)) = Ok tt →
  (∀ p, p ∈ passwords → VerifyFrameAuth wire (AckMAC (DerivePSKHandshakeKeys p nonce)) = Ok tt → p = psk) →
  matchAckPSK wire passwords (map (λ p, AckMAC (DerivePSKHandshakeKeys p nonce)) passwords) = Some psk.
Proof.
  induction passwords as [|p ps IH]; intros Hin Hv Honly; [by apply elem_of_nil in Hin|]. cbn [map matchAckPSK].
  destruct (VerifyFrameAuth wire (AckMAC (DerivePSKHandshakeKeys p nonce))) as [[]|] eqn:Hp; cbn [is_Ok].
  - f_equal. apply Honly; [by left|done].
  - apply IH; [|done|intros q Hq; apply Honly; by right].
    apply elem_of_cons in Hin as [->|]; [congruence|done].
Qed.

Lemma attemptPSK_in attempt : 1 ≤ attempt → cPasswords cc ≠ [] → attemptPSK cc attempt ∈ cPasswords cc.
Proof.
  intros Ha Hne. unfold attemptPSK. apply list_elem_of_In, nth_In. unfold len.
  destruct (cPasswords cc) as [|p ps]; [done|].
  pose proof (Z.rem_bound_pos (attempt - 1) (Z.of_nat (length (p :: ps))) ltac:(lia) ltac:(simpl; lia)). lia.
Qed.

(** The ACK, as the client's parser sees it. *)
Lemma ack_arrives d k serverNonce :
  configs_match → dialing_ok d → len (ackPayload d serverNonce) ≤ UDPC_MAX_DATA →
  let wire := sealAck sc d k serverNonce in
  VerifyFrameAuth wire (AckMAC (DerivePSKHandshakeKeys (tkPSK (dTicket d)) (tkNonce (dTicket d)))) = Ok tt ∧
  parseUDPCFrame wire (cMagic cc) = Ok (with_raw (ackFrameOf sc d k serverNonce) (ackPayload d serverNonce) wire) ∧
  len wire ≠ 0.
Proof.
  intros (Hm & Hr & _) (Hne & Hs & _) Hl. apply sealed_mac; cbn [ackFrameOf Version Cmd Magic Data]; try done; [|by right].
  split_and!; cbn; try done; try apply ackFlags_range; try apply Hs; rewrite <- Hm; apply Hr.
Qed.

(** ** Both sides' keys *)

(** The keys each side derives, before the features are negotiated. *)
Definition keys_match (kc ks : FrameKeys) : Prop :=
  Send kc = Recv ks ∧ Recv kc = Send ks ∧ len (aead_key (Send kc)) = 32 ∧ len (aead_key (Send ks)) = 32.

(** What the client makes of the ACK of a dialed handshake [d]. *)
Definition client_keys (hs : hsClient) (psk serverNonce : bytes) (sid : Z) (msg2 : bytes) :
    result (option NoiseSession * FrameKeys) hs_error :=
  match hsNK hs with
  | None =>
      match ClientFrameCiphers (DerivePSKSessionKeys psk (hsNonce hs) serverNonce sid) with
      | Err e => Err (ErrCipherInit e)
      | Ok k => Ok (None, k)
      end
  | Some nk =>
      match (Finish nk msg2).1 with
      | Err e => Err (ErrNoiseFinish e)
      | Ok sess => Ok (Some sess, newFrameKeys (SendCipher sess) (RecvCipher sess))
      end
  end.

Lemma keys_agree hs rc rs m1 nonce psk remote port target sid serverNonce :
  configs_match → startNoise cc (Some rc) = Ok (hsNK hs, m1) → hsNonce hs = nonce →
  len rc = 32 → len rs = 32 →
  (∀ nk, hsNK hs = Some nk → is_Ok (dh (clamp rs) (ePub nk)) = true) →
  let t := ticketFor nonce psk remote port target m1 in
  ∃ n ks ns kc, serverNoise sc t (Some rs) = Some n ∧
  (∀ net addr, serverKeys (mkDialing t sid n net addr) serverNonce = Ok ks) ∧
  len (match n with Some (_, m2) => m2 | None => [] end) = (if hasPrivKey sc then noiseMsg2Size else 0) ∧
  client_keys hs psk serverNonce sid (match n with Some (_, m2) => m2 | None => [] end) = Ok (ns, kc) ∧
  keys_match kc ks.
Proof.
  intros Hcfg Hnoise Hnonce Hrc Hrs Hdh t. pose proof (encrypted_iff Hcfg) as Henc.
  destruct Hcfg as (_ & _ & Hpriv). unfold startNoise in Hnoise. rewrite Henc in Hnoise.
  unfold serverNoise, serverKeys, client_keys, hasPrivKey in *.
  destruct (sPriv sc) as [sk|]; cbn [is_Some] in *.
  - rewrite bool_decide_eq_true_2 in * by done. destruct Hpriv as (Hsk & HS & _).
    destruct (NewClientNK (cServerPub cc) (Some rc)) as [c|] eqn:Hc; [|done]. cbn [result_bind] in Hnoise.
    destruct (honest_run sk (cServerPub cc) rc rs c Hsk Hrc Hrs HS Hc) as (m1' & c' & Hm & _ & Hrun).
    rewrite Hm in Hnoise. cbn [result_bind] in Hnoise.
    assert (Hnk : hsNK hs = Some c' ∧ m1' = m1) by (split; congruence). destruct Hnk as [Hnk ->]. rewrite Hnk. cbn [tkMsg1 ticketFor t].
    destruct (NewServerNoiseSession sk m1 (Some rs)) as [[server m2]|e] eqn:Hserver.
    + destruct Hrun as (Hl & client & Hf & E1 & E2 & _).
      exists (Some (server, m2)), (newFrameKeys (SendCipher server) (RecvCipher server)), (Some client),
        (newFrameKeys (SendCipher client) (RecvCipher client)). rewrite Hf.
      destruct (server_noise_keys _ _ _ _ _ Hserver) as [L1 L2].
      split_and!; try done. split_and!; cbn; congruence.
    + exfalso. specialize (Hdh c' Hnk). assert (Hpub : ePub c' = ePub c).
      { unfold Message1 in Hm. destruct (msg1 c); [by simplify_eq|]. destruct (encryptAndHash _ _).
        destruct (negb _); simplify_eq; done. }
      rewrite Hpub, Hrun in Hdh. done.
  - rewrite bool_decide_eq_false_2 in * by (by intros []). injection Hnoise as <- <-.
    destruct (session_keys_len psk nonce serverNonce sid) as [L1 L2].
    destruct (ciphers_agree _ L1 L2) as (ck & sk & E1 & E2 & E3 & E4).
    exists None, sk, None, ck. cbn [tkPSK tkNonce ticketFor t dTicket dSid]. rewrite Hnonce, E1, E2. split_and!; try done.
    split_and!; [done|done| |].
    + revert E1. unfold ClientFrameCiphers, newAEADCipherState. rewrite L1, L2. cbn. by intros [= <-].
    + revert E2. unfold ServerFrameCiphers, newAEADCipherState. rewrite L1, L2. cbn. by intros [= <-].
Qed.

(** [acceptAck] on an ACK it recognises. *)
Lemma acceptAck_ok hs nonce psk serverNonce target m2 sid flags window wire ns kc :
  configs_match → psk ≠ [] → hsNonce hs = nonce → len nonce = clientNonceSize → len serverNonce = serverNonceSize →
  len target ≤ TargetMaxLen → len m2 = (if hasPrivKey sc then noiseMsg2Size else 0) →
  matchAckPSK wire (cPasswords cc) (hsMACs hs) = Some psk →
  client_keys hs psk serverNonce sid m2 = Ok (ns, kc) →
  let g := mkFrame (cMagic cc) UDPC_VERSION CMD_HANDSHAKE_ACK flags sid 0 0 0 window
             (handshake_payload (nonce ++ serverNonce) target m2) wire in
  acceptAck cc hs g = AckEstablished sid ns (clientNegotiate cc flags kc) target.
Proof.
  intros Hcfg Hpsk Hnonce Hn Hsn Ht Hm2 Hmatch Hkeys g. unfold acceptAck. cbn [g raw Data SessionID Flags].
  rewrite Hmatch. destruct psk as [|b psk]; [done|].
  assert (Hb : len (nonce ++ serverNonce) = ackPayloadBase) by (rewrite len_app, Hn, Hsn; done).
  destruct (handshake_payload_fields (nonce ++ serverNonce) target m2 Ht) as [_ Hf].
  rewrite (encrypted_iff Hcfg), ack_payload_roundtrip by done.
  assert (Hc : 0 ≤ clientNonceSize ≤ ackPayloadBase) by (unfold ackPayloadBase, clientNonceSize, serverNonceSize; lia).
  rewrite <- slice_0, !Hf by lia. rewrite slice_0, upto_app, Hnonce by done. rewrite bool_decide_eq_true_2 by done. cbn [negb].
  replace (slice clientNonceSize ackPayloadBase (nonce ++ serverNonce)) with serverNonce.
  2: { rewrite <- (app_nil_r serverNonce) at 2. by rewrite slice_app. }
  unfold client_keys in Hkeys. rewrite Hnonce in Hkeys. destruct (hsNK hs) as [nk|].
  - destruct (Finish nk m2).1 as [sess|]; [|done]. by injection Hkeys as <- <-.
  - destruct (ClientFrameCiphers _) as [k|]; [|done]. by injection Hkeys as <- <-.
Qed.

(** An ACK of the right shape reaches the handshake waiting for it. *)
Lemma dispatchAck_ok pending nonce macs psk sid flags window data wire :
  sid ≠ 0 → ackPayloadBase ≤ len data → upto clientNonceSize data = nonce →
  In (AckMAC (DerivePSKHandshakeKeys psk nonce)) macs →
  VerifyFrameAuth wire (AckMAC (DerivePSKHandshakeKeys psk nonce)) = Ok tt →
  let g := mkFrame (cMagic cc) UDPC_VERSION CMD_HANDSHAKE_ACK flags sid 0 0 0 window data wire in
  dispatchAck (<[nonce := mkPending macs []]> pending) g !! nonce = Some (mkPending macs [g]).
Proof.
  intros Hs Hd Hu Hin Hv g. unfold dispatchAck. cbn [g SessionID PacketNo Seq Ack Data raw].
  destruct (Z.eqb_spec sid 0); [done|]. cbn [orb negb].
  destruct (Z.ltb_spec (len data) ackPayloadBase); [lia|]. change (0 =? 0) with true. cbn [negb orb]. rewrite Hu, lookup_insert_eq. cbn [ch ackMACs].
  replace (verifyAck (mkPending macs []) wire) with true; [change (len (@nil UDPCFrame) <? ackQueueCap) with true; cbn [andb app]; by rewrite lookup_insert_eq|].
  symmetry. unfold verifyAck. cbn [ackMACs]. apply existsb_exists. eexists. split; [exact Hin|]. by rewrite Hv.
Qed.

(** The gate in front of [handleHandshake]. *)
Lemma gate_passes st f nonce psk remote t range :
  SessionID f = 0 → PacketNo f = 0 → Seq f = 0 → Ack f = 0 → synPayloadBase ≤ len (Data f) →
  upto clientNonceSize (Data f) = nonce → matchSynPSK (raw f) (sPasswords sc) nonce = psk → psk ≠ [] →
  (Allow (synL st) remote.1 t range).1 = true → slots st < handshakeMaxConcurrent →
  (serveSyn sc st f remote t range).1 = SynVerified psk.
Proof.
  intros E1 E2 E3 E4 Hl Hu Hm Hne Ha Hs. unfold serveSyn. destruct (Allow _ _ _ _) as [ok l].
  cbn [fst] in Ha. subst ok. rewrite E1, E2, E3, E4, Hu, Hm. cbn [negb orb Z.eqb].
  destruct (Z.ltb_spec (len (Data f)) synPayloadBase); [lia|].
  cbn [set_synL slots]. destruct (Z.leb_spec handshakeMaxConcurrent (slots st)); [lia|]. by destruct psk.
Qed.

(** The server's run on a SYN it lets in. *)
Lemma server_establishes st f nonce psk remote port target m1 unix nowUnix rs draws sid serverNonce e n k0 :
  Data f = synPayload nonce unix target m1 → Flags f = synFlags cc →
  len nonce = clientNonceSize → len target ≤ TargetMaxLen → - 2 ^ 63 ≤ unix < 2 ^ 63 →
  len m1 = (if hasPrivKey sc then noiseMsg1Size else 0) →
  admits st nonce psk remote target unix nowUnix (now (base e)) → srvClosed st = false →
  let t := ticketFor nonce psk remote port target m1 in
  serverNoise sc t (Some rs) = Some n →
  (∀ net addr, serverKeys (mkDialing t sid n net addr) serverNonce = Ok k0) →
  pickSID draws (sessions st) = Some sid →
  let r := handleHandshake toLower sc st remote f port psk nowUnix SlotFree (Some rs) draws true false (Some serverNonce) e in
  let ks := serverNegotiate sc (synFlags cc) k0 in
  ∃ net addr s,
  r.1 = [SrvDial sid net addr; SrvReply port remote (sealAck sc (mkDialing t sid n net addr) ks serverNonce);
         SrvEvent (SessionEstablished sid remote net addr target)] ∧
  sessions r.2 = <[sid := s]> (sessions st) ∧ fresh_session (sMagic sc) sid false ks (core s) ∧ sessMaxPkt s = 0.
Proof.
  intros Hd Hf Hn Ht Hu Hm1 Hadm Hopen t Hnoise Hsk Hsid. unfold handleHandshake.
  rewrite (server_admits st f nonce psk remote port target m1 unix nowUnix (now (base e)) Hd Hf Hn Ht Hu Hm1 Hadm).
  fold t. unfold prepare. cbn [slots set_slots set_synC sessions].
  rewrite Hnoise. destruct (parseTargetNetworkAndAddr _ _) as [net addr]. rewrite Hsid.
  destruct (pickSID_spec _ _ _ Hsid) as (_ & _ & Hnone).
  specialize (Hsk net addr). set (d := mkDialing t sid n net addr) in *.
  pose proof (λ st1 H, commit_alone sc st1 d false serverNonce e k0 H Hsk) as Hc. cbv zeta in Hc.
  match goal with |- context [commit sc ?st1 d true false (Some serverNonce) e] => specialize (Hc st1) end.
  destruct (commit _ _ _ _ _ _ _) as [out3 st3]. cbn [fst snd srvClosed set_slots set_synC sessions dSid d] in Hc.
  rewrite Hnone in Hc. destruct (Hc Hopen) as (-> & H2 & _). cbn [app fst snd].
  eexists net, addr, _. split; [done|]. split; [exact H2|]. rewrite setPath_core.
  rewrite setPath_sized. split; [|done].
  cbn [core createSession newServerSession]. eexists _, _, _, _, _, None. unfold seeded. by destruct (fecSend _).
Qed.

(** What [establish] builds is a fresh session. *)
Lemma establish_fresh sid k memo t : fresh_session (cMagic cc) sid true k (establishSession cc sid k memo t).
Proof.
  exists (cSendWindow cc), (cAutoWindow cc), (fecEnabled (cWestwood cc)), (clientLimit k), t, (m ← memo; memo_get m t).
  unfold establishSession, seeded. destruct (fecSend _); [|done]. by destruct memo.
Qed.

(** The ACK's payload, as the client reads it. *)
Lemma ack_payload_read nonce psk remote port target m1 sid n net addr serverNonce :
  len nonce = clientNonceSize → len serverNonce = serverNonceSize → len target ≤ TargetMaxLen →
  let m2 := match n with Some (_, m2) => m2 | None => [] end in
  len m2 = (if hasPrivKey sc then noiseMsg2Size else 0) →
  let data := ackPayload (mkDialing (ticketFor nonce psk remote port target m1) sid n net addr) serverNonce in
  data = handshake_payload (nonce ++ serverNonce) target m2 ∧
  ackPayloadBase ≤ len data ≤ UDPC_MAX_DATA ∧ upto clientNonceSize data = nonce.
Proof.
  intros Hn Hsn Ht m2 Hm2 data. change data with (handshake_payload (nonce ++ serverNonce) target m2).
  destruct (handshake_payload_fields (nonce ++ serverNonce) target m2 Ht) as [Hpl Hpf].
  assert (Hb : len (nonce ++ serverNonce) = ackPayloadBase) by (rewrite len_app, Hn, Hsn; done).
  pose proof (len_requestedTLV target Ht). split_and!; [done| | |].
  - rewrite Hpl, Hb, Hm2. unfold noiseMsg2Size. destruct (hasPrivKey sc); lia.
  - rewrite Hpl, Hb, Hm2. unfold UDPC_MAX_DATA, UDPC_MAX_PKT, UDPC_HDR_SIZE, UDPC_TRAILER_SIZE, ackPayloadBase,
      clientNonceSize, serverNonceSize, noiseMsg2Size, targetRequestTLVLen, TargetMaxLen in *. destruct (hasPrivKey sc); lia.
  - rewrite <- slice_0, Hpf; [|done|by rewrite Hb]. rewrite slice_0. by apply upto_app.
Qed.

(** C3: (equivalence) The handshake establishes one session on both sides.  Take a
    client and a server whose configurations fit, with or without Noise, and the
    SYN of any attempt.  If the server's gates let it in - PSK known, clock within
    five minutes, target allowed, room for a session, not a repeat - then the server
    dials, stores exactly one new session and answers with an ACK that the client's
    receive path queues; if that ACK authenticates under no other of the client's
    passwords, the client accepts it, and both ends hold the same session id, each
    other's keys, the same negotiated features and the granted target: the two
    fresh sessions a tunnel starts from. *)
Theorem handshake_agreement pending target rc nonce unix hs pending' attempt st remote port nowUnix
    rs draws sid serverNonce memo range e :
  configs_match → startHandshake cc pending target (Some rc) (Some nonce) unix = (Ok hs, pending') →
  len rc = 32 → len rs = 32 → len nonce = clientNonceSize → len serverNonce = serverNonceSize →
  - 2 ^ 63 ≤ unix < 2 ^ 63 → 1 ≤ attempt → cPasswords cc ≠ [] → Forall (λ i, 0 ≤ i < 2 ^ 32) draws →
  (∀ nk, hsNK hs = Some nk → is_Ok (dh (clamp rs) (ePub nk)) = true) →
  let psk := attemptPSK cc attempt in let syn := sealSyn cc hs attempt in
  admits st nonce psk remote target unix nowUnix (now (base e)) → srvClosed st = false →
  matchSynPSK syn (sPasswords sc) nonce = psk →
  (Allow (synL st) remote.1 (now (base e)) range).1 = true → slots st < handshakeMaxConcurrent →
  pickSID draws (sessions st) = Some sid →
  ∃ f, parseUDPCFrame syn (sMagic sc) = Ok f ∧
  (serveSyn sc st f remote (now (base e)) range).1 = SynVerified psk ∧
  let '(out, st') := handleHandshake toLower sc st remote f port psk nowUnix SlotFree (Some rs) draws
                       true false (Some serverNonce) e in
  ∃ ack net addr s ks,
  out = [SrvDial sid net addr; SrvReply port remote ack; SrvEvent (SessionEstablished sid remote net addr target)] ∧
  sessions st' = <[sid := s]> (sessions st) ∧ sessions st !! sid = None ∧
  fresh_session (sMagic sc) sid false ks (core s) ∧ sessMaxPkt s = 0 ∧
  ∃ g, parseUDPCFrame ack (cMagic cc) = Ok g ∧
  dispatchAck pending' g !! nonce = Some (mkPending (hsMACs hs) [g]) ∧
  ((∀ p, p ∈ cPasswords cc → VerifyFrameAuth ack (AckMAC (DerivePSKHandshakeKeys p nonce)) = Ok tt → p = psk) →
   ∃ ns kc, acceptAck cc hs g = AckEstablished sid ns kc target ∧
   fec kc = fec ks ∧ wideWindow kc = wideWindow ks ∧ recovery kc = recovery ks ∧
   ∀ t, paired kc ks (cMagic cc) sid (establishSession cc sid kc memo t) (core s)).
Proof.
  intros Hcfg Hstart Hrc Hrs Hn Hsn Hu Hatt Hpw Hdraws Hdh psk syn Hadm Hopen Hmatch Hallow Hslots Hsid.
  destruct (startHandshake_inv _ _ _ _ _ _ _ Hstart) as (nonce' & m1 & [= <-] & Hnoise & Ht & Hhn & Hhf & Hhp & Hmacs & ->).
  assert (Hm1 : len m1 = if hasPrivKey sc then noiseMsg1Size else 0).
  { apply (startNoise_len _ _ _ Hcfg Hnoise). by intros r [= <-]. }
  assert (Hm1' : len m1 ≤ noiseMsg1Size) by (rewrite Hm1; destruct (hasPrivKey sc); done).
  destruct (syn_arrives hs target unix nonce m1 attempt Hcfg Hhf Hhp Hn Ht Hm1') as (_ & Hparse & _).
  destruct (syn_payload_read nonce unix target m1 Hn Ht Hu Hm1) as (R1 & R2 & R3 & R4).
  eexists. split; [exact Hparse|]. fold syn. set (f := with_raw (synFrame cc hs) (hsPayload hs) syn).
  assert (Hpsk : psk ≠ []) by apply (ad_psk _ _ _ _ _ _ _ _ Hadm).
  split.
  { apply (gate_passes st f nonce); try done; cbn [f with_raw Data]; rewrite Hhp; [|done].
    rewrite R4. pose proof (len_requestedTLV target Ht). pose proof (len_nonneg m1). lia. }
  destruct (keys_agree hs rc rs m1 nonce psk remote port target sid serverNonce Hcfg Hnoise Hhn Hrc Hrs Hdh)
    as (n & k0 & ns & k1 & Hsn1 & Hsk & Hm2 & Hck & Hkm).
  destruct (server_establishes st f nonce psk remote port target m1 unix nowUnix rs draws sid serverNonce e n k0
    Hhp Hhf Hn Ht Hu Hm1 Hadm Hopen Hsn1 Hsk Hsid) as (net & addr & s & Hout & Hsess & Hfresh & Hmax0).
  destruct (handleHandshake _ _ _ _ _ _ _ _ _ _ _ _ _ _ _) as [out st']. cbn [fst snd] in Hout, Hsess.
  set (t := ticketFor nonce psk remote port target m1) in *. set (ks := serverNegotiate sc (synFlags cc) k0) in *.
  set (d := mkDialing t sid n net addr) in *. destruct (pickSID_spec _ _ _ Hsid) as (Hin & Hne & Hnone).
  assert (Hdok : dialing_ok d).
  { rewrite Forall_forall in Hdraws. split_and!; [done|by apply Hdraws|by apply Hdraws|]. cbn [dNoise d].
    destruct n as [[x y]|]; [|done]. by eapply (serverNoise_keys sc t). }
  destruct (ack_payload_read nonce psk remote port target m1 sid n net addr serverNonce Hn Hsn Ht Hm2)
    as (Hpay & [Hmin Hmax] & Hnon). fold t d in Hpay, Hmin, Hmax, Hnon.
  destruct (ack_arrives d ks serverNonce Hcfg Hdok Hmax) as (Hv & Hack & _). set (ack := sealAck sc d ks serverNonce) in *.
  exists ack, net, addr, s, ks. split_and!; try done. eexists. split; [exact Hack|].
  unfold with_raw. cbn [ackFrameOf Magic Version Cmd Flags SessionID PacketNo Seq Ack WindowSize].
  rewrite <- (proj1 Hcfg). split.
  { rewrite Hmacs. apply (dispatchAck_ok _ nonce _ psk); try done.
    apply (in_map (λ p, AckMAC (DerivePSKHandshakeKeys p nonce))), list_elem_of_In. by apply attemptPSK_in. }
  intros Honly. exists ns, (clientNegotiate cc (ackFlags ks) k1). split.
  { rewrite Hpay. apply (acceptAck_ok hs nonce psk serverNonce); try done.
    rewrite Hmacs. apply matchAck_first; [by apply attemptPSK_in|done|done]. }
  destruct (negotiate_agree k0 k1) as (N1 & N2 & N3 & N4).
  split_and!; try done. intros t0. destruct Hkm as (E1 & E2 & E3 & E4). split; try done.
  - apply Hcfg.
  - rewrite Forall_forall in Hdraws. by apply Hdraws.
  - apply establish_fresh.
  - by rewrite (proj1 Hcfg).
Qed.

End Agreement.

(** * A run *)

Section Witness.
#[local] Existing Instance plain_crypto.
#[local] Existing Instance toy_noise.
#[local] Existing Instance xor_code.

Lemma demo_configs cap : configs_match demo_client (demo_server cap).
Proof. split_and!; [done|by vm_compute|done|done]. Qed.

Lemma demo_started :
  startHandshake demo_client ∅ demo_target (Some (replicate 32 1)) (Some demo_nonce) 1000 =
  (Ok demo_hs, <[demo_nonce := mkPending (hsMACs demo_hs) []]> ∅).
Proof. reflexivity. Qed.

Lemma demo_verified :
  matchSynPSK (sealSyn demo_client demo_hs 1) [str "alpha"; str "beta"] demo_nonce = str "alpha".
Proof.
  destruct (syn_arrives demo_client (demo_server 0) demo_hs demo_target 1000 demo_nonce [] 1 (demo_configs 0) eq_refl eq_refl
    eq_refl ltac:(by vm_compute) ltac:(by vm_compute)) as (Hv & _ & _).
  cbn [matchSynPSK]. change (attemptPSK demo_client 1) with (str "alpha") in Hv. change (hsNonce demo_hs) with demo_nonce in Hv.
  by rewrite Hv.
Qed.

Lemma demo_admits : admits id (demo_server 0) newServerState demo_nonce (str "alpha") demo_from demo_target 1000 1100 0.
Proof.
  split; [done|by vm_compute|right; by vm_compute|by left|]. unfold Acquire, newServerState. cbn [synC newSynCache entries].
  by rewrite lookup_empty.
Qed.

Lemma handshake_agreement_witness :
  ∃ f, parseUDPCFrame (sealSyn demo_client demo_hs 1) (sMagic (demo_server 0)) = Ok f ∧
  let r := handleHandshake id (demo_server 0) newServerState demo_from f 443 (str "alpha") 1100 SlotFree
             (Some (replicate 32 2)) [9] true false (Some (replicate 16 3)) (toy_senv 0) in
  ∃ s ks, sessions r.2 = {[9 := s]} ∧ fresh_session UDPC_MAGIC_DEFAULT 9 false ks (core s).
Proof.
  destruct (handshake_agreement (CL := plain_crypto_laws) (NL := toy_noise_laws) id demo_client (demo_server 0) ∅ demo_target (replicate 32 1)
    demo_nonce 1000 demo_hs _ 1 newServerState demo_from 443 1100 (replicate 32 2) [9] 9 (replicate 16 3) None (λ _, [])
    (toy_senv 0) (demo_configs 0) demo_started eq_refl eq_refl eq_refl eq_refl ltac:(lia) ltac:(lia) ltac:(done)
    ltac:(repeat constructor; lia) ltac:(done) demo_admits eq_refl demo_verified ltac:(by vm_compute) ltac:(by vm_compute) eq_refl)
    as (f & Hf & _ & H).
  exists f. split; [exact Hf|]. cbv zeta. change (attemptPSK demo_client 1) with (str "alpha") in H.
  destruct (handleHandshake _ _ _ _ _ _ _ _ _ _ _ _ _ _ _) as [out st']. destruct H as (ack & net & addr & s & ks & _ & Hs & _ & Hfresh & _).
  exists s, ks. split; [exact Hs|exact Hfresh].
Defined.

End Witness.
