(* ===== verification/HandshakeSafety.v ===== *)
(** What the handshake refuses, rolls back and repeats.  The client's loop ends and
    trusts authenticated answers only; a SYN the server turns away, or a handshake
    that fails half way, leaves the server as it was; a repeated SYN is answered from
    the cache, with three exceptions. *)
From S2P Require Import Prelude GoStrings Protocol Noise F64 Rtt FecLoss FecWire Erasure FecBlock FecSender FecReceiver Replay Targets Delivery AckCoalesce Flow Sack Arq Session ClientSession ServerSession SynGuard Endpoint Actions Tunnel HandshakeClient HandshakeServer SessionTable Handshake.
Local Open Scope Z_scope.

(** * The client's loop *)

Section Client.
Context {C : Crypto} {N : NoisePrims} {RS : ReedSolomon}.
Context (cc : clientCfg).

Lemma matchAckPSK_sound wire passwords macs psk :
  matchAckPSK wire passwords macs = Some psk →
  ∃ i k, passwords !! i = Some psk ∧ macs !! i = Some k ∧ VerifyFrameAuth wire k = Ok tt.
Proof.
  revert macs. induction passwords as [|p ps IH]; intros [|k macs]; try done. cbn [matchAckPSK].
  destruct (VerifyFrameAuth wire k) as [[]|] eqn:Hk; cbn [is_Ok].
  - intros [= <-]. by exists 0%nat, k.
  - intros (i & k' & ?)%IH. by exists (S i), k'.
Qed.

(** C4: (safety) The client trusts authenticated answers only.  An ACK that ends its
    handshake in a session carries the MAC of one of the configured passwords,
    derived for this handshake's nonce, and echoes that nonce; an ACK without such a
    MAC neither enters the queue of candidates nor, taken from it, has any effect. *)
Theorem established_authentic pending target nr nonceR unix hs pending' ack :
  startHandshake cc pending target nr nonceR unix = (Ok hs, pending') →
  (∀ sid ns kc granted, acceptAck cc hs ack = AckEstablished sid ns kc granted →
     upto clientNonceSize (Data ack) = hsNonce hs ∧
     ∃ psk msg, psk ∈ cPasswords cc ∧ raw ack = msg ++ frameMACInto (AckMAC (DerivePSKHandshakeKeys psk (hsNonce hs))) msg) ∧
  ((∀ psk, psk ∈ cPasswords cc →
      VerifyFrameAuth (raw ack) (AckMAC (DerivePSKHandshakeKeys psk (hsNonce hs))) ≠ Ok tt) →
   acceptAck cc hs ack = AckIgnored ∧ dispatchAck pending' ack !! hsNonce hs = pending' !! hsNonce hs).
Proof.
  intros Hs. destruct (startHandshake_inv _ _ _ _ _ _ _ _ Hs) as (nonce & m1 & -> & _ & _ & <- & _ & _ & Hm & ->).
  assert (Hpsk : ∀ psk, matchAckPSK (raw ack) (cPasswords cc) (hsMACs hs) = Some psk →
    psk ∈ cPasswords cc ∧ VerifyFrameAuth (raw ack) (AckMAC (DerivePSKHandshakeKeys psk (hsNonce hs))) = Ok tt).
  { intros psk (i & k & Hi & Hk & Hv)%matchAckPSK_sound. split; [by eapply list_elem_of_lookup_2|].
    rewrite Hm, list_lookup_fmap, Hi in Hk. by injection Hk as <-. }
  split.
  - intros sid ns kc granted. unfold acceptAck. destruct (matchAckPSK _ _ _) as [psk|] eqn:Hp; [|done].
    destruct (Hpsk psk eq_refl) as [Hin Hv]. destruct psk as [|b psk]; [done|].
    destruct (splitAckPayload _ _) as [[g m2]|]; [|done]. case_bool_decide as Hn; [|done]. intros _. split; [done|].
    apply verify_iff in Hv as (msg & _ & Hv). by exists (b :: psk), msg.
  - intros Hno. split.
    + unfold acceptAck. destruct (matchAckPSK _ _ _) as [psk|] eqn:Hp; [|done].
      destruct (Hpsk psk eq_refl) as [Hin Hv]. by destruct (Hno psk Hin).
    + unfold dispatchAck. destruct (_ || _); [done|]. cbv zeta.
      destruct (decide (upto clientNonceSize (Data ack) = hsNonce hs)) as [->|Hne].
      * rewrite lookup_insert_eq. replace (verifyAck _ _) with false; [cbn [andb]; by rewrite lookup_insert_eq|]. symmetry. apply not_true_is_false.
        unfold verifyAck. cbn [ackMACs]. rewrite existsb_exists. intros (k & Hk & Hv). rewrite Hm in Hk.
        apply in_map_iff in Hk as (psk & <- & Hin). apply list_elem_of_In in Hin. apply (Hno psk Hin).
        by destruct (VerifyFrameAuth _ _) as [[]|].
      * destruct (_ !! upto clientNonceSize (Data ack)); [|done]. destruct (_ && _); [|done].
        by rewrite lookup_insert_ne.
Qed.

(** ** Termination *)

Definition is_timer (ev : hs_event) : bool := match ev with EvTimer => true | _ => false end.
Definition timers (evs : list hs_event) : Z := len (List.filter is_timer evs).

Lemma hsWait_spec hs evs attempt :
  1 ≤ attempt ≤ clientMaxHandshakeAttempts →
  let r := hsWait cc hs attempt evs in
  len r.1 ≤ clientMaxHandshakeAttempts - attempt ∧
  (∀ (i : nat) w, r.1 !! i = Some w → w = sealSyn cc hs (attempt + 1 + Z.of_nat i)) ∧
  (clientMaxHandshakeAttempts - attempt < timers evs → r.2 ≠ Waiting).
Proof.
  revert attempt. induction evs as [|ev evs IH]; intros attempt Ha.
  { cbn [hsWait fst snd]. unfold timers. change (len (List.filter is_timer [])) with 0.
    change (len (@nil bytes)) with 0. split_and!; [lia|done|lia]. }
  assert (stop : ∀ o (n : Z), o ≠ Waiting → let r := (@nil bytes, o) in len r.1 ≤ clientMaxHandshakeAttempts - attempt ∧
    (∀ (i : nat) w, r.1 !! i = Some w → w = sealSyn cc hs (attempt + 1 + Z.of_nat i)) ∧
    (clientMaxHandshakeAttempts - attempt < n → r.2 ≠ Waiting)).
  { intros o n Ho. cbn [fst snd]. change (len (@nil bytes)) with 0. split_and!; [lia|done|done]. }
  destruct ev as [f| | |]; cbn [hsWait].
  - destruct (acceptAck cc hs f); [|by apply stop..]. exact (IH attempt Ha).
  - unfold timers. cbn [List.filter is_timer]. rewrite len_cons. fold (timers evs).
    destruct (Z.leb_spec (attempt + 1) clientMaxHandshakeAttempts); [|by apply stop].
    destruct (_ =? 0); [by apply stop|].
    specialize (IH (attempt + 1) ltac:(lia)). cbv zeta in IH.
    destruct (hsWait cc hs (attempt + 1) evs) as [syns o]. cbn [fst snd] in *. destruct IH as (I1 & I2 & I3).
    rewrite len_cons. split_and!; [lia| |intros; apply I3; lia].
    intros [|i] w; cbn; [intros [= <-]; f_equal; lia|]. intros ->%I2. f_equal. lia.
  - by apply stop.
  - by apply stop.
Qed.

(** C20: (termination) The client's handshake ends.  Whatever arrives, it sends at most
    eight SYNs, the i-th under the i-th configured password in turn; by the eighth
    time its timer fires it has returned; and the eight timers add up to 12.1
    seconds. *)
Theorem handshake_terminates hs evs :
  let r := hsRun cc hs evs in
  len r.1 ≤ clientMaxHandshakeAttempts ∧
  (∀ (i : nat) w, r.1 !! i = Some w → w = sealSyn cc hs (Z.of_nat i + 1)) ∧
  (clientMaxHandshakeAttempts ≤ timers evs → r.2 ≠ Waiting) ∧
  foldr Z.add 0 (map attemptTimeout (seqZ 1 clientMaxHandshakeAttempts)) = 12100 * millisecond.
Proof.
  unfold hsRun. destruct (_ =? 0).
  { cbn [fst snd]. unfold clientMaxHandshakeAttempts. split_and!; [done|done|done|by vm_compute]. }
  pose proof (hsWait_spec hs evs 1 ltac:(unfold clientMaxHandshakeAttempts; lia)) as (I1 & I2 & I3).
  destruct (hsWait cc hs 1 evs) as [syns o]. cbn [fst snd] in *. rewrite len_cons.
  split_and!; [lia| |intros; apply I3; lia|by vm_compute].
  intros [|i] w; cbn; [by intros [= <-]|]. intros ->%I2. f_equal. lia.
Qed.

End Client.

(** * The server *)

Section Server.
Context {C : Crypto} {N : NoisePrims} {RS : ReedSolomon}.
Context (toLower : bytes → bytes) (sc : srvConf).

Lemma set_synC_id st : set_synC st (synC st) = st.
Proof. by destruct st. Qed.

(** What [Acquire] returns without ownership, it returns without a trace. *)
Lemma Acquire_no_owner c key t src : (Acquire c key t src).1.2 = false → (Acquire c key t src).2 = c.
Proof. unfold Acquire. repeat case_match; done. Qed.

(** A granted reservation is pending, and aborting it removes it. *)
Lemma Acquire_owner c key t src :
  (Acquire c key t src).1.2 = true →
  (Acquire c key t src).1.1 = None ∧ entries (Acquire c key t src).2 !! key = Some (mkSyn None t src.1).
Proof.
  unfold Acquire. repeat case_match; try done; intros _; cbn [fst snd entries]; (split; [done|apply lookup_insert_eq]).
Qed.

Lemma Abort_pending c key t ip :
  entries c !! key = Some (mkSyn None t ip) → entries (Abort_ c key) !! key = None.
Proof. intros H. unfold Abort_. rewrite H. cbn [ackFrame]. apply lookup_delete_eq. Qed.

Lemma Abort_gone c key : entries c !! key = None → Abort_ c key = c.
Proof. intros H. unfold Abort_. by rewrite H. Qed.

Lemma Acquire_absent c key t src : entries c !! key = None → (Acquire c key t src).1 = (None, true).
Proof. intros He. unfold Acquire. by rewrite He. Qed.

Lemma Abort_other c key k : k ≠ key → entries (Abort_ c key) !! k = entries c !! k.
Proof.
  intros Hk. unfold Abort_. destruct (entries c !! key) as [r|]; [|done]. destruct (ackFrame r); [done|].
  cbn [entries]. by rewrite lookup_delete_ne.
Qed.

Definition keyOf (f : UDPCFrame) (psk : bytes) : synCacheKey :=
  let n := upto clientNonceSize (Data f) in makeSynCacheKey n (SynMAC (DerivePSKHandshakeKeys psk n)).

(** The outcomes of [admitSyn]. *)
Lemma admit_cases st remote f port psk t1 t2 :
  let '(r, out, st') := admitSyn toLower sc st remote f port psk t1 t2 in
  match r with
  | SynAdmitted tk =>
      out = [] ∧ tkRemote tk = remote ∧ tkPort tk = port ∧ tkPSK tk = psk ∧ tkNonce tk = upto clientNonceSize (Data f) ∧
      tkKey tk = makeSynCacheKey (tkNonce tk) (SynMAC (DerivePSKHandshakeKeys psk (tkNonce tk))) ∧
      st' = set_synC st (Acquire (synC st) (tkKey tk) t2 remote).2 ∧
      entries (synC st') !! tkKey tk = Some (mkSyn None t2 remote.1)
  | _ => st' = st
  end.
Proof.
  unfold admitSyn. destruct (_ || _ || _); [done|]. destruct (_ || _); [done|].
  destruct (splitSynPayload _ _) as [[rq m1]|]; [|done]. destruct (negb _); [done|].
  destruct (negb _ && negb _). { by destruct (parseTargetNetworkAndAddr _ _). }
  destruct (_ && _); [done|]. cbv zeta. set (key := makeSynCacheKey _ _).
  pose proof (Acquire_no_owner (synC st) key t2 remote) as H0. pose proof (Acquire_owner (synC st) key t2 remote) as H1.
  destruct (Acquire (synC st) key t2 remote) as [[cached owner] c] eqn:Ha. cbn [fst snd] in *.
  destruct owner.
  - destruct (H1 eq_refl) as [-> He]. cbn [negb tkKey tkRemote tkPort tkPSK tkNonce set_synC synC]. fold key. rewrite Ha. done.
  - rewrite (H0 eq_refl), set_synC_id. by destruct cached.
Qed.

(** Did the handshake establish a session? *)
Definition established (out : list srv_output) : Prop := ∃ sid r n a d, SrvEvent (SessionEstablished sid r n a d) ∈ out.

Lemma abandon_entry st t tm ip :
  entries (synC st) !! tkKey t = Some (mkSyn None tm ip) →
  entries (synC (abandon st t)) !! tkKey t = None ∧ sessions (abandon st t) = sessions st ∧
  liveSessions (abandon st t) = liveSessions st ∧ slots (abandon st t) = slots st.
Proof. intros H. split_and!; try done. by eapply Abort_pending. Qed.

Lemma abandon_twice st t tm ip :
  entries (synC st) !! tkKey t = Some (mkSyn None tm ip) → abandon (abandon st t) t = abandon st t.
Proof.
  intros H. unfold abandon at 1. rewrite Abort_gone; [apply set_synC_id|]. by eapply Abort_pending.
Qed.

(** Rolled back: nothing of the handshake is left but the time it took. *)
Definition rolled_back (st st' : server) (key : synCacheKey) : Prop :=
  sessions st' = sessions st ∧ liveSessions st' = liveSessions st ∧ slots st' = slots st ∧
  synC st' = Abort_ (synC st) key.

Lemma prepare_rollback st t tm ip slot rand draws out st' :
  entries (synC st) !! tkKey t = Some (mkSyn None tm ip) →
  prepare toLower sc st t slot rand draws = (None, out, st') → rolled_back st st' (tkKey t).
Proof.
  intros He. assert (Hback : rolled_back st (release (abandon (set_slots st (slots st + 1)) t)) (tkKey t)).
  { split_and!; [done|done|cbn; lia|done]. }
  unfold prepare. destruct slot; [|by intros [= _ <-]..].
  destruct (serverNoise _ _ _); [|by intros [= _ <-]]. destruct (parseTargetNetworkAndAddr _ _).
  destruct (pickSID _ _); [done|by intros [= _ <-]].
Qed.

(** [prepare] that goes through to the dial. *)
Lemma prepare_dials st t slot rand draws d out st' :
  prepare toLower sc st t slot rand draws = (Some d, out, st') →
  dTicket d = t ∧ slots st' = slots st + 1 ∧ sessions st' = sessions st ∧ liveSessions st' = liveSessions st ∧
  synC st' = synC st ∧ ∀ ev, SrvEvent ev ∉ out.
Proof.
  unfold prepare. destruct slot; [|done..]. destruct (serverNoise _ _ _); [|done].
  destruct (parseTargetNetworkAndAddr _ _). destruct (pickSID _ _); [|done]. intros [= <- <- <-].
  split_and!; [done..|]. intros ev. set_solver.
Qed.

(** [commit] without the late race either establishes or rolls back, the slot
    released in both cases. *)
Lemma commit_outcome st d tm ip dialed nonce e out st' :
  entries (synC st) !! tkKey (dTicket d) = Some (mkSyn None tm ip) →
  commit sc st d dialed false nonce e = (out, st') →
  (∃ ack sid r n a b, out = [SrvReply (tkPort (dTicket d)) (tkRemote (dTicket d)) ack; SrvEvent (SessionEstablished sid r n a b)] ∧
     synC st' = Complete (synC st) (tkKey (dTicket d)) ack) ∨
  ¬ established out ∧ sessions st' = sessions st ∧ liveSessions st' = liveSessions st ∧ slots st' = slots st - 1 ∧
  synC st' = Abort_ (synC st) (tkKey (dTicket d)).
Proof.
  intros He. pose proof (abandon_twice _ _ _ _ He) as Hab.
  assert (Hnil : ¬ established []) by (intros (?&?&?&?&?&Hin); by apply elem_of_nil in Hin).
  assert (Hup : ¬ established [SrvCloseUpstream]) by (intros (?&?&?&?&?&Hin); by apply list_elem_of_singleton in Hin).
  destruct (decide (dialed = true ∧ srvClosed st = false ∧ is_Some nonce)) as [(-> & Hc & [n ->])|Hno].
  - destruct (serverKeys d n) as [k|] eqn:Hk.
    + pose proof (commit_alone sc st d false n e k Hc Hk) as H. cbv zeta in H. intros E. rewrite E in H. cbn [fst snd] in H.
      destruct (sessions st !! dSid d).
      * apply pair_equal_spec in H as [-> ->]. right. by rewrite Hab.
      * left. destruct H as (-> & _ & _ & _ & _ & H). repeat eexists. exact H.
    + unfold commit, build. cbn [negb]. rewrite Hc, Hk. intros [= <- <-]. by right.
  - unfold commit, build. destruct dialed; cbn [negb]; [|intros [= <- <-]; by right].
    destruct (srvClosed st); [intros [= <- <-]; right; by rewrite Hab|].
    destruct nonce; [destruct Hno; by eauto|intros [= <- <-]; by right].
Qed.

(** C21: (error) A handshake that does not succeed leaves no trace.  A SYN that is turned
    away before it owns its cache entry - malformed, stale, for a forbidden target,
    over the cap, repeated - leaves the server exactly as it was, so a repeat neither
    disturbs the handshake under way nor the answer in the cache.  One that was admitted
    and fails later, for want of a slot, in the Noise exchange, at the dial, or because
    the server is closing, gives back its slot and its reservation: the table and the
    counters are as before, the other entries of the cache are as its admission left
    them, and the same SYN gets the reservation again from anyone, at any time.  Left
    out is the race in which the server closes between the two looks [commit] takes at
    it. *)
Theorem failed_handshake_leaves_nothing st remote f port psk nowUnix slot nr draws dialed nonce e out st' :
  handleHandshake toLower sc st remote f port psk nowUnix slot nr draws dialed false nonce e = (out, st') →
  ¬ established out →
  match (admitSyn toLower sc st remote f port psk nowUnix (now (base e))).1.1 with
  | SynAdmitted t =>
      let admitted := (Acquire (synC st) (tkKey t) (now (base e)) remote).2 in
      tkKey t = keyOf f psk ∧
      sessions st' = sessions st ∧ liveSessions st' = liveSessions st ∧ slots st' = slots st ∧
      (∀ key, key ≠ tkKey t → entries (synC st') !! key = entries admitted !! key) ∧
      (∀ t2 src, (Acquire (synC st') (tkKey t) t2 src).1 = (None, true))
  | _ => st' = st
  end.
Proof.
  unfold handleHandshake. pose proof (admit_cases st remote f port psk nowUnix (now (base e))) as Hadm.
  destruct (admitSyn _ _ _ _ _ _ _ _ _) as [[r out1] st1]. cbn [fst].
  destruct r as [| | | | | | | |t]; try (by intros [= _ <-] _).
  destruct Hadm as (-> & _ & _ & _ & Hn & Hkey & Hst1 & He).
  assert (Hback : sessions st' = sessions st ∧ liveSessions st' = liveSessions st ∧ slots st' = slots st ∧
    synC st' = Abort_ (synC st1) (tkKey t) → tkKey t = keyOf f psk ∧
    sessions st' = sessions st ∧ liveSessions st' = liveSessions st ∧ slots st' = slots st ∧
    (∀ key, key ≠ tkKey t → entries (synC st') !! key = entries (Acquire (synC st) (tkKey t) (now (base e)) remote).2 !! key) ∧
    (∀ t2 src, (Acquire (synC st') (tkKey t) t2 src).1 = (None, true))).
  { intros (E1 & E2 & E3 & E4). rewrite E4. split_and!; [by rewrite Hkey, Hn|done|done|done| |].
    - intros key Hne. rewrite Hst1. cbn [set_synC synC]. by apply Abort_other.
    - intros t2 src. apply Acquire_absent. by eapply Abort_pending. }
  assert (E1 : sessions st1 = sessions st ∧ liveSessions st1 = liveSessions st ∧ slots st1 = slots st) by by rewrite Hst1.
  destruct E1 as (E1 & E2 & E3).
  destruct (prepare _ _ _ _ _ _ _) as [[[d|] out2] st2] eqn:Hp.
  - destruct (prepare_dials _ _ _ _ _ _ _ _ Hp) as (Hdt & D1 & D2 & D3 & D4 & _).
    destruct (commit _ _ _ _ _ _ _) as [out3 st3] eqn:Hc. intros [= <- <-] Hno.
    rewrite <- Hdt, <- D4 in He.
    destruct (commit_outcome _ _ _ _ _ _ _ _ _ He Hc) as [(?&?&?&?&?&?& -> &_)|(_ & C1 & C2 & C3 & C4)].
    + destruct Hno. repeat eexists. apply elem_of_app. right. right. by left.
    + apply Hback. rewrite Hdt, D4 in C4. split_and!; [congruence|congruence|lia|done].
  - intros [= _ <-] _. destruct (prepare_rollback _ _ _ _ _ _ _ _ _ He Hp) as (P1 & P2 & P3 & P4).
    apply Hback. split_and!; congruence.
Qed.

(** ** Repeated SYNs *)

Definition fresh_timestamp (f : UDPCFrame) (nowUnix : Z) : Prop :=
  nowUnix - synTimestampWindow ≤ timestampOf (Data f) ≤ nowUnix + synTimestampWindow.

Definition cap_reached (st : server) : bool := (0 <? sMaxSessions sc) && (sMaxSessions sc <=? liveSessions st).

(** A SYN whose payload was admitted once passes the same gates later, under any
    password; the timestamp, the session cap and the cache decide. *)
Lemma admit_again st remote f port psk n1 t1 tk out st' st2 remote2 f2 port2 psk2 n2 t2 :
  admitSyn toLower sc st remote f port psk n1 t1 = (SynAdmitted tk, out, st') →
  Data f2 = Data f → psk2 ≠ [] → fresh_timestamp f2 n2 →
  admitSyn toLower sc st2 remote2 f2 port2 psk2 n2 t2 =
  if cap_reached st2 then (SessionCapReached, [], st2) else
  let '((cached, owner), c) := Acquire (synC st2) (keyOf f2 psk2) t2 remote2 in
  match cached with
  | Some ack => (Replayed, [SrvReply port2 remote2 ack], set_synC st2 c)
  | None =>
      if negb owner then (InProgress, [], set_synC st2 c)
      else (SynAdmitted (mkTicket (keyOf f2 psk2) (tkNonce tk) psk2 remote2 port2 (tkTarget tk) (tkMsg1 tk) (Flags f2)),
            [], set_synC st2 c)
  end.
Proof.
  intros H Hd Hpsk [Ht1 Ht2]. unfold keyOf, cap_reached. rewrite Hd in *. unfold admitSyn in *. rewrite Hd.
  rewrite (bool_decide_eq_false_2 (psk2 = [])) by done.
  destruct (bool_decide (psk = [])); [done|]. cbn [orb] in *.
  destruct (_ || _); [done|]. destruct ((timestampOf (Data f) <? n1 - _) || _); [done|].
  destruct (Z.ltb_spec (timestampOf (Data f)) (n2 - synTimestampWindow)); [lia|].
  destruct (Z.ltb_spec (n2 + synTimestampWindow) (timestampOf (Data f))); [lia|]. cbn [orb].
  destruct (splitSynPayload _ _) as [[rq m1]|]; [|done]. destruct (negb (_ =? _)); [done|].
  destruct (negb _ && negb _). { by destruct (parseTargetNetworkAndAddr _ _). }
  destruct (_ && (sMaxSessions sc <=? liveSessions st)); [done|].
  destruct (Acquire (synC st) _ _ _) as [[ca ow] c]. destruct ca; [done|]. destruct (negb ow); [done|].
  injection H as <- _ _. done.
Qed.

Lemma Acquire_known c key t src ack t0 ip :
  entries c !! key = Some (mkSyn (Some ack) t0 ip) → t - t0 ≤ synCacheTTL →
  Acquire c key t src = ((if bool_decide (ip = src.1) then Some ack else None, false), c).
Proof.
  intros He Ht. unfold Acquire. rewrite He. cbn [createdAt ackFrame ownerIP].
  destruct (Z.leb_spec (t - t0) synCacheTTL); [|lia]. by case_bool_decide.
Qed.

Lemma Acquire_expired c key t src ack t0 ip :
  entries c !! key = Some (mkSyn (Some ack) t0 ip) → synCacheTTL < t - t0 → (Acquire c key t src).1 = (None, true).
Proof.
  intros He Ht. unfold Acquire. rewrite He. cbn [createdAt]. by destruct (Z.leb_spec (t - t0) synCacheTTL); [lia|].
Qed.

Lemma admit_quiet st remote f port psk t1 t2 : ¬ established (admitSyn toLower sc st remote f port psk t1 t2).1.2.
Proof.
  assert (Hnil : ¬ established []) by (intros (?&?&?&?&?&Hin); by apply elem_of_nil in Hin).
  assert (Hone : ∀ o, (∀ sid r n a d, o ≠ SrvEvent (SessionEstablished sid r n a d)) → ¬ established [o]).
  { intros o Ho (?&?&?&?&?&Hin). apply list_elem_of_singleton in Hin. by apply (Ho _ _ _ _ _ (eq_sym Hin)). }
  unfold admitSyn. destruct (_ || _ || _); [done|]. destruct (_ || _); [done|].
  destruct (splitSynPayload _ _) as [[rq m1]|]; [|done]. destruct (negb _); [done|].
  destruct (negb _ && negb _). { destruct (parseTargetNetworkAndAddr _ _). by apply Hone. }
  destruct (_ && _); [done|]. destruct (Acquire _ _ _ _) as [[cached owner] c].
  destruct cached; [by apply Hone|]. by destruct (negb owner).
Qed.

(** What an established handshake leaves in the cache. *)
Lemma established_inv st remote f port psk nowUnix slot nr draws dialed nonce e out st' :
  handleHandshake toLower sc st remote f port psk nowUnix slot nr draws dialed false nonce e = (out, st') →
  established out →
  ∃ tk o st1 ack, admitSyn toLower sc st remote f port psk nowUnix (now (base e)) = (SynAdmitted tk, o, st1) ∧
  SrvReply port remote ack ∈ out ∧
  (ack ≠ [] → entries (synC st') !! keyOf f psk = Some (mkSyn (Some ack) (now (base e)) remote.1)).
Proof.
  unfold handleHandshake. pose proof (admit_cases st remote f port psk nowUnix (now (base e))) as Hadm.
  destruct (admitSyn _ _ _ _ _ _ _ _ _) as [[r out1] st1] eqn:Ha.
  pose proof (admit_quiet st remote f port psk nowUnix (now (base e))) as Hquiet. rewrite Ha in Hquiet. cbn [fst snd] in Hquiet.
  destruct r as [| | | | | | | |t]; try (by intros [= <- <-] Hest).
  destruct Hadm as (-> & Hr & Hp & Hk & Hn & Hkey & Hst1 & He).
  assert (HkeyOf : keyOf f psk = tkKey t) by (rewrite Hkey, Hn; done).
  destruct (prepare _ _ _ _ _ _ _) as [[[d|] out2] st2] eqn:Hprep.
  2: { intros [= <- <-] (?&?&?&?&?&Hin). exfalso. unfold prepare in Hprep.
       destruct slot; repeat case_match; simplify_eq/=; set_solver. }
  destruct (prepare_dials _ _ _ _ _ _ _ _ Hprep) as (Hdt & _ & _ & _ & Hsyn & Hev).
  destruct (commit _ _ _ _ _ _ _) as [out3 st3] eqn:Hc.
  intros [= <- <-] (sid & r0 & n0 & a0 & d0 & Hin). exists t, [], st1.
  apply elem_of_app in Hin as [Hin|Hin]; [by apply Hev in Hin|]. rewrite <- Hdt, <- Hsyn in He.
  destruct (commit_outcome _ _ _ _ _ _ _ _ _ He Hc) as [(ack & ? & ? & ? & ? & ? & -> & Hs)|[Hno _]]; [|destruct Hno; by repeat eexists].
  rewrite Hdt in *. exists ack. rewrite Hr, Hp. split; [done|]. split; [apply elem_of_app; right; by left|]. intros Hack.
  rewrite Hs, HkeyOf. unfold Complete. rewrite He. cbn [ackFrame createdAt ownerIP entries]. rewrite lookup_insert_eq.
  unfold copyFrame. by destruct ack.
Qed.

(** A repeated SYN is idempotent while its cache entry lives.  After a
    handshake has succeeded, the same SYN from the same address within ten minutes
    gets the very ACK of the first time, and nothing else happens: no session, no
    dial, no change of state.  From another address it gets nothing.  It gets
    nothing either while the session cap is reached: the cap is tested before the
    cache, so the answer to a lost ACK is withheld. *)
Theorem repeated_syn_answered st remote f port psk nowUnix slot nr draws dialed nonce e out st' :
  handleHandshake toLower sc st remote f port psk nowUnix slot nr draws dialed false nonce e = (out, st') →
  established out → psk ≠ [] →
  ∃ ack, SrvReply port remote ack ∈ out ∧
  (ack ≠ [] → ∀ st2 remote2 port2 n2 slot2 nr2 draws2 dialed2 late2 nonce2 e2,
   entries (synC st2) !! keyOf f psk = entries (synC st') !! keyOf f psk →
   fresh_timestamp f n2 → now (base e2) - now (base e) ≤ synCacheTTL →
   handleHandshake toLower sc st2 remote2 f port2 psk n2 slot2 nr2 draws2 dialed2 late2 nonce2 e2 =
   (if negb (cap_reached st2) && bool_decide (remote2.1 = remote.1) then [SrvReply port2 remote2 ack] else [], st2)).
Proof.
  intros Hrun Hest Hpsk. destruct (established_inv _ _ _ _ _ _ _ _ _ _ _ _ _ _ Hrun Hest) as (tk & o & st1 & ack & Ha & Hin & He).
  exists ack. split; [done|]. intros Hne st2 remote2 port2 n2 slot2 nr2 draws2 dialed2 late2 nonce2 e2 Hsame Hts Hage.
  specialize (He Hne). rewrite <- Hsame in He. unfold handleHandshake.
  rewrite (admit_again _ _ _ _ _ _ _ _ _ _ st2 remote2 f port2 psk n2 (now (base e2)) Ha eq_refl Hpsk Hts).
  destruct (cap_reached st2); [done|]. rewrite (Acquire_known _ _ _ remote2 _ _ _ He Hage).
  rewrite set_synC_id. cbn [negb andb]. do 2 case_bool_decide; try congruence; done.
Qed.

(** What the cache does not recognise: the same client nonce under
    another password.  The cache key holds a digest of the PSK, so when a client
    whose ACK was lost retries with its next password - and the server knows both -
    the handshake is admitted afresh while the first session is still there: a
    second dial and a second session for one connection. *)
Theorem rotation_admitted_again st remote f port psk nowUnix slot nr draws dialed nonce e out st' f2 psk2 n2 t2 :
  handleHandshake toLower sc st remote f port psk nowUnix slot nr draws dialed false nonce e = (out, st') →
  established out → Data f2 = Data f → psk2 ≠ [] → fresh_timestamp f2 n2 → cap_reached st' = false →
  entries (synC st') !! keyOf f2 psk2 = None →
  ∃ tk2 st2, admitSyn toLower sc st' remote f2 port psk2 n2 t2 = (SynAdmitted tk2, [], st2) ∧
  tkNonce tk2 = upto clientNonceSize (Data f) ∧ sessions st2 = sessions st' ∧ tkPSK tk2 = psk2.
Proof.
  intros Hrun Hest Hd Hpsk Hts Hcap Hnone.
  destruct (established_inv _ _ _ _ _ _ _ _ _ _ _ _ _ _ Hrun Hest) as (tk & o & st1 & ack & Ha & _ & _).
  rewrite (admit_again _ _ _ _ _ _ _ _ _ _ st' remote f2 port psk2 n2 t2 Ha Hd Hpsk Hts), Hcap.
  pose proof (Acquire_absent _ _ t2 remote Hnone) as Hacq.
  destruct (Acquire (synC st') _ t2 remote) as [[cached owner] c]. injection Hacq as -> ->. cbn [negb].
  eexists _, _. split; [done|]. cbn [tkNonce tkPSK set_synC sessions]. split_and!; try done.
  pose proof (admit_cases st remote f port psk nowUnix (now (base e))) as H. rewrite Ha in H. by destruct H as (_&_&_&_&->&_).
Qed.

(** The cache forgets a second too early.  Timestamps are compared in
    whole seconds and accepted up to 300 seconds either way, so a SYN may be shown
    from 300 seconds before its timestamp until just under 301 seconds after; its
    cache entry lives for 600.  In that last second the same bytes, replayed, are
    admitted again. *)
Theorem syn_replay_gap st remote f port psk nowUnix t tk o st1 ack ip st2 remote2 port2 delta :
  let ts := timestampOf (Data f) in
  admitSyn toLower sc st remote f port psk nowUnix t = (SynAdmitted tk, o, st1) →
  t = (ts - synTimestampWindow) * second → 0 < delta < second → psk ≠ [] →
  entries (synC st2) !! keyOf f psk = Some (mkSyn (Some ack) t ip) → cap_reached st2 = false →
  let t2 := (ts + synTimestampWindow) * second + delta in
  ∃ tk2 st3, admitSyn toLower sc st2 remote2 f port2 psk (t2 / second) t2 = (SynAdmitted tk2, [], st3) ∧
  tkNonce tk2 = tkNonce tk.
Proof.
  intros ts Ha Ht Hdelta Hpsk He Hcap t2.
  assert (Hsec : t2 / second = ts + synTimestampWindow).
  { unfold t2. rewrite Z.add_comm, Z.div_add by (unfold second; lia). rewrite Z.div_small by lia. lia. }
  assert (Hts : fresh_timestamp f (t2 / second)).
  { unfold fresh_timestamp. fold ts. rewrite Hsec. unfold synTimestampWindow. lia. }
  rewrite (admit_again _ _ _ _ _ _ _ _ _ _ st2 remote2 f port2 psk _ t2 Ha eq_refl Hpsk Hts), Hcap.
  assert (Hexp : synCacheTTL < t2 - t).
  { rewrite Ht. unfold t2, synCacheTTL, minute, synTimestampWindow, second in *. lia. }
  pose proof (Acquire_expired _ _ t2 remote2 _ _ _ He Hexp) as Hacq.
  destruct (Acquire (synC st2) _ t2 remote2) as [[cached owner] c]. injection Hacq as -> ->. cbn [negb].
  by eexists _, _.
Qed.

End Server.

(** * Runs *)

Section Witness.
#[local] Existing Instance plain_crypto.
#[local] Existing Instance toy_noise.
#[local] Existing Instance xor_code.

(** The demo SYN with its authentication left to the gate. *)
Definition demo_frame : UDPCFrame := with_raw (synFrame demo_client demo_hs) (hsPayload demo_hs) [].

Definition demo_handle (dialed : bool) : list srv_output * server :=
  handleHandshake id (demo_server 0) newServerState demo_from demo_frame 443 (str "alpha") 700 SlotFree None [9]
    dialed false (Some (replicate 16 3)) (toy_senv (700 * second)).

Lemma established_authentic_witness :
  acceptAck demo_client demo_hs demo_frame = AckIgnored.
Proof.
  destruct (established_authentic demo_client ∅ demo_target (Some (replicate 32 1)) (Some demo_nonce) 1000 demo_hs _ demo_frame
    demo_started) as [_ H].
  exact (proj1 (H ltac:(done))).
Defined.

Lemma demo_frame_admitted :
  (admitSyn id (demo_server 0) newServerState demo_from demo_frame 443 (str "alpha") 700 (now (base (toy_senv (700 * second))))).1.1 =
  SynAdmitted demo_ticket.
Proof. vm_compute. reflexivity. Qed.

(** The dial fails: nothing is left, and the SYN may be tried again. *)
Lemma failed_handshake_leaves_nothing_witness :
  sessions (demo_handle false).2 = ∅ ∧ slots (demo_handle false).2 = 0 ∧
  (Acquire (synC (demo_handle false).2) (tkKey demo_ticket) (701 * second) demo_from).1 = (None, true).
Proof.
  assert (Hout : (demo_handle false).1 = [SrvDial 9 TCP (str "h:80")]) by (vm_compute; reflexivity).
  assert (Hne : ¬ established (demo_handle false).1).
  { rewrite Hout. intros (?&?&?&?&?&Hin). by apply list_elem_of_singleton in Hin. }
  pose proof (failed_handshake_leaves_nothing id (demo_server 0) newServerState demo_from demo_frame 443 (str "alpha") 700 SlotFree None [9]
    false (Some (replicate 16 3)) (toy_senv (700 * second)) (demo_handle false).1 (demo_handle false).2 (surjective_pairing _) Hne) as H.
  rewrite demo_frame_admitted in H. destruct H as (_ & E1 & _ & E3 & _ & E5).
  split; [exact E1|]. split; [exact E3|exact (E5 (701 * second) demo_from)].
Defined.

Lemma demo_established : established (demo_handle true).1.
Proof.
  assert (H : (demo_handle true).1 !! 2%nat = Some (SrvEvent (SessionEstablished 9 demo_from TCP (str "h:80") demo_target)))
    by (vm_compute; reflexivity).
  repeat eexists. by eapply list_elem_of_lookup_2.
Qed.

Lemma demo_handled dialed : demo_handle dialed = ((demo_handle dialed).1, (demo_handle dialed).2).
Proof. apply surjective_pairing. Qed.

Lemma repeated_syn_answered_witness :
  ∃ ack, SrvReply 443 demo_from ack ∈ (demo_handle true).1 ∧
  (ack ≠ [] → handleHandshake id (demo_server 0) (demo_handle true).2 (str "192.0.2.7", 5000) demo_frame 444 (str "alpha") 750
     SlotFree None [] true false None (toy_senv (750 * second)) =
     ([SrvReply 444 (str "192.0.2.7", 5000) ack], (demo_handle true).2)).
Proof.
  destruct (repeated_syn_answered id (demo_server 0) _ _ _ _ _ _ _ _ _ _ _ _ _ _
    (demo_handled true) demo_established ltac:(done)) as (ack & Hin & H).
  exists ack. split; [exact Hin|]. intros Hne.
  exact (H Hne (demo_handle true).2 (str "192.0.2.7", 5000) 444 750 SlotFree None [] true false None (toy_senv (750 * second))
    eq_refl ltac:(by vm_compute) ltac:(by vm_compute)).
Defined.

Lemma rotation_admitted_again_witness :
  ∃ tk2 st2, admitSyn id (demo_server 0) (demo_handle true).2 demo_from demo_frame 443 (str "beta") 710 (710 * second) =
  (SynAdmitted tk2, [], st2) ∧ sessions st2 = sessions (demo_handle true).2.
Proof.
  assert (Hts : fresh_timestamp demo_frame 710) by (by vm_compute).
  assert (Hcap : cap_reached (demo_server 0) (demo_handle true).2 = false) by reflexivity.
  assert (Hpsk : str "beta" ≠ []) by done.
  assert (Hnone : entries (synC (demo_handle true).2) !! keyOf demo_frame (str "beta") = None) by (vm_compute; reflexivity).
  destruct (rotation_admitted_again id (demo_server 0) newServerState demo_from demo_frame 443 (str "alpha") 700 SlotFree None [9]
    true (Some (replicate 16 3)) (toy_senv (700 * second)) (demo_handle true).1 (demo_handle true).2 demo_frame (str "beta") 710
    (710 * second) (demo_handled true) demo_established eq_refl Hpsk Hts Hcap Hnone) as (tk2 & st2 & E & _ & Es & _).
  exists tk2, st2. split; [exact E|exact Es].
Defined.

(** The state ten minutes and half a second after the SYN was first admitted. *)
Definition demo_remembering : server :=
  set_synC newServerState
    (mkCache {[keyOf demo_frame (str "alpha") := mkSyn (Some (str "ack")) (700 * second) (str "192.0.2.7")]} []).

Lemma syn_replay_gap_witness :
  ∃ tk2 st3, admitSyn id (demo_server 0) demo_remembering demo_from demo_frame 443 (str "alpha")
    (((1000 + 300) * second + 500 * millisecond) / second) ((1000 + 300) * second + 500 * millisecond) = (SynAdmitted tk2, [], st3).
Proof.
  assert (Hts : timestampOf (Data demo_frame) = 1000) by (vm_compute; reflexivity).
  destruct (admitSyn id (demo_server 0) newServerState demo_from demo_frame 443 (str "alpha") 700 (700 * second)) as [[r o] st1] eqn:Ha.
  assert (Hr : ∃ tk, r = SynAdmitted tk).
  { assert (E : (admitSyn id (demo_server 0) newServerState demo_from demo_frame 443 (str "alpha") 700 (700 * second)).1.1 = r)
      by by rewrite Ha. rewrite <- E. eexists. vm_compute. reflexivity. }
  destruct Hr as [tk ->].
  assert (He : entries (synC demo_remembering) !! keyOf demo_frame (str "alpha") =
    Some (mkSyn (Some (str "ack")) (700 * second) (str "192.0.2.7"))) by apply lookup_singleton_eq.
  pose proof (syn_replay_gap id (demo_server 0) _ _ demo_frame 443 (str "alpha") 700 (700 * second) tk o st1 (str "ack")
    (str "192.0.2.7") demo_remembering demo_from 443 (500 * millisecond) Ha) as H. cbv zeta in H. rewrite Hts in H.
  destruct (H eq_refl ltac:(by vm_compute) ltac:(done) He eq_refl) as (tk2 & st3 & E & _).
  exists tk2, st3. exact E.
Defined.

End Witness.
