(* ===== verification/Config.v ===== *)
(** From a configuration file to the two ends: the password and magic handling and the
    choice of role in src/main.go, [newServer] of src/tunnel/server.go and [NewClient] of
    src/tunnel/client.go.

    The file is given as parsed JSON.  What the system answers to name resolution and
    binds is an argument.  Log lines are left out, except the warnings of
    [validatePortRange], which are its result. *)
From S2P Require Import Prelude GoStrings GoNet Protocol F64 Rtt FecLoss FecWire Erasure FecBlock FecSender FecReceiver Replay Delivery AckCoalesce Flow Sack Arq Session ClientSession ServerSession Endpoint PathQuality PortRange Spread SendSock Targets SynGuard Noise NoiseKeys Mtu HandshakeClient HandshakeServer Handshake Pump.
Local Open Scope Z_scope.

(** * The configuration file *)

(** A JSON value where a password may stand. *)
Inductive json := JNull | JString (s : bytes) | JArray (items : list (option bytes)) | JOther.

Record Config := mkConfig {
  Mode : bytes;
  Sockets : Z;
  Paths : Z;
  PubKey : bytes;
  Server_ : bytes;
  Listen : bytes;
  Host : bytes;
  PortRangeSpec : bytes;
  Target : bytes;
  rawPasswords : json;    (* passwords, token, auth_token, psk *)
  rawToken : json;
  rawAuthToken : json;
  rawPSK : json;
  rawPassword : bytes;    (* password *)
  Magic_ : bytes;
  PrivKey : bytes;
  AllowedTargets : list bytes;
  ReceiveSockets : Z;
  OrigDst : option bool;
  SendSockMax : Z;
  SendWindow : Z;
  MaxPkt : Z;
  MtuProbe : option bool;
  FEC : option bool;
  Recovery : option bool;
  PathQuality_ : option bool;
  FECExtParity : option bool;
  FECLossMemo : option bool;
  Westwood : option bool;
  WideWindow : option bool;
}.

(** The closure [collect] of [UnmarshalJSON]; an item that is not a string is [None]. *)
Definition collect (v : json) : list bytes :=
  match v with
  | JString s => filter (λ p, p ≠ []) (map TrimSpace (Split 44 s))
  | JArray items => filter (λ p, p ≠ []) (map TrimSpace (omap id items))
  | JNull | JOther => []
  end.

Definition Passwords (c : Config) : list bytes :=
  collect (rawPasswords c) ++ collect (rawToken c) ++ collect (rawAuthToken c) ++ collect (rawPSK c) ++
  (if bool_decide (rawPassword c = []) then [] else [TrimSpace (rawPassword c)]).

Definition parseMagicHeader (m : bytes) : Z := if len m =? 4 then be_val m else 0x55445043.

(** strings.EqualFold with a lower-case ASCII text without k or s. *)
Definition lowerASCII (c : Z) : Z := if (65 <=? c) && (c <=? 90) then c + 32 else c.
Definition EqualFold (s t : bytes) : bool := bool_decide (map lowerASCII s = t).

Definition orElse (s dflt : bytes) : bytes := if bool_decide (s = []) then dflt else s.

Definition magicOf (c : Config) : bytes := orElse (Magic_ c) (str "UDPC").
Definition isClient (c : Config) : bool := EqualFold (TrimSpace (Mode c)) (str "client").
Definition listenOf (c : Config) : bytes := orElse (Listen c) (str ":36712").
Definition origDstOf (c : Config) : bool := match OrigDst c with Some b => b | None => true end.

(** ** The checks at boot *)

Inductive warning := ExceedsSendSockMax (total limit : Z) | OrigDstOff (total : Z) | ContainsListenPort (port : Z).

Definition validatePortRange (portRange listen : bytes) (origDst : bool) (sendSockMax : Z) : list warning :=
  match PortRangeOf portRange with
  | None => []
  | Some pr =>
      if Total pr =? 1 then [] else
      let limit := if sendSockMax <=? 0 then DefaultSendSockMax else sendSockMax in
      (if limit <? Total pr then [ExceedsSendSockMax (Total pr) limit] else []) ++
      (if origDst then [] else [OrigDstOff (Total pr)]) ++
      match SplitHostPort listen with
      | Some (_, lp) =>
          match Atoi lp with Some p => if Contains pr p then [ContainsListenPort p] else [] | None => [] end
      | None => []
      end
  end.

(** * The server *)

Definition maxReceiveSockets : Z := 8.

Inductive server_error := NoPassword | ListenFailed | BadPrivateKey.

(** [ServerConfig] as [runFromConfig] fills it. *)
Definition serverConf (c : Config) (priv : option bytes) (pool : sendSockPool) : srvConf :=
  mkSrvConf (cleanPasswords (Passwords c)) (resolveMagic (parseMagicHeader (magicOf c))) priv (AllowedTargets c)
    (orElse (Target c) (str "tcp://127.0.0.1:22")) (FEC c) (FECExtParity c) (Recovery c) (WideWindow c) (Westwood c)
    (if 0 <? SendWindow c then SendWindow c else defaultSendWindow) (SendWindow c <=? 0) deliveryWindowWide 0
    (mkCfg (limit pool) (resolveMaxPkt (MaxPkt c)) (mtuProbeEnabled (MtuProbe c))).

Record built := mkBuilt {
  bConf : srvConf;
  recvConns : list Conn;
  bindPort : Z;
  origDstOK : bool;
  portRange : option PortRange;
  sockPool : sendSockPool;
}.

(** The rest of the reuseport group: up to the first bind that fails. *)
Fixpoint bindGroup (n : nat) (binds : list (option Conn)) : list Conn :=
  match n, binds with
  | S n, Some c :: binds => c :: bindGroup n binds
  | _, _ => []
  end.

Definition receiveCount (configured : Z) : Z :=
  let n := if configured <? 1 then 1 else configured in if maxReceiveSockets <? n then maxReceiveSockets else n.

(** The receiving sockets and their port: the caller's, or those bound. *)
Definition openSockets (c : Config) (injected bind : option (Conn * Z)) (binds : list (option Conn)) :
    option (list Conn * Z) :=
  match injected, bind with
  | Some (conn, port), _ => Some ([conn], port)
  | None, None => None
  | None, Some (conn, port) => Some (conn :: bindGroup (Z.to_nat (receiveCount (ReceiveSockets c) - 1)) binds, port)
  end.

(** [newServer] of what [runFromConfig] passes, and the sockets it closes again.
    [injected] is a socket of the caller's; [bind] the first socket bound and its port;
    [binds] the further ones; [origdst] says on which sockets the option can be set. *)
Definition newServer (c : Config) (injected : option (Conn * Z)) (bind : option (Conn * Z)) (binds : list (option Conn))
    (origdst : Conn → bool) : result built server_error * list Conn :=
  if bool_decide (cleanPasswords (Passwords c) = []) then (Err NoPassword, []) else
  match openSockets c injected bind binds with
  | None => (Err ListenFailed, [])
  | Some (conns, port) =>
      let ok := origDstOf c && existsb origdst conns in
      let pool := newSendSockPool (SendSockMax c) in
      let mk priv := Ok (mkBuilt (serverConf c priv pool) conns port ok (PortRangeOf (PortRangeSpec c)) pool) in
      if bool_decide (PrivKey c = []) then (mk None, []) else
      match ParseNoiseKey (PrivKey c) with
      | None => (Err BadPrivateKey, conns)
      | Some k => (mk (Some k), [])
      end
  end.

(** * The client *)

Inductive client_error := NoServer | BadPublicKey | NoClientPassword | DialerFailed (e : spread_error).

(** [runClientMode] up to [NewClient]: the server's public key. *)
Definition clientPub (c : Config) : option bytes :=
  if bool_decide (TrimSpace (PubKey c) = []) then Some (zeros 32) else ParseNoiseKey (TrimSpace (PubKey c)).

Definition clientConf (c : Config) (pub : bytes) : clientCfg :=
  mkClientCfg (cleanPasswords (Passwords c)) pub (resolveMagic (parseMagicHeader (magicOf c)))
    (resolveSendWindow (SendWindow c)) (SendWindow c <=? 0) (resolveMaxPkt (MaxPkt c)) (Recovery c) (WideWindow c) (FEC c)
    (FECExtParity c) (Westwood c) (MtuProbe c).

(** [NewClient] of what [runClientMode] passes, with the sockets closed again. *)
Definition NewClient (c : Config) (lookup : option (list bytes)) (draws : list Z) (binds : list (option Conn))
    (seeds : nat → list Z) : result (clientCfg * SpreadDialer) client_error * list Conn :=
  let serverAddr := TrimSpace (Server_ c) in
  if bool_decide (serverAddr = []) then (Err NoServer, []) else
  match clientPub c with
  | None => (Err BadPublicKey, [])
  | Some pub =>
      if bool_decide (cleanPasswords (Passwords c) = []) then (Err NoClientPassword, []) else
      match newSpreadDialer serverAddr (Sockets c) (Paths c) lookup draws binds seeds with
      | (Err e, closed) => (Err (DialerFailed e), closed)
      | (Ok d, closed) =>
          (Ok (clientConf c pub, if fecEnabled (PathQuality_ c) then d else SetPathScorer d None), closed)
      end
  end.

(** * What the ends can rely on *)

Lemma cleanPasswords_spec ps : Forall (λ p, p ≠ []) (cleanPasswords ps).
Proof. unfold cleanPasswords. apply Forall_forall. by intros p [? _]%list_elem_of_filter. Qed.

Lemma resolveMaxPkt_range n : maxPktFloor ≤ resolveMaxPkt n ≤ UDPC_MAX_PKT.
Proof.
  unfold resolveMaxPkt, maxPktFloor, maxPktCeiling, UDPC_HDR_SIZE, UDPC_TRAILER_SIZE, UDPC_MAX_PKT. repeat case_match; lia.
Qed.

Lemma magic_range m : Forall is_byte m → 0 < resolveMagic (parseMagicHeader m) < 2 ^ 32.
Proof.
  intros Hm. unfold resolveMagic, parseMagicHeader. destruct (Z.eqb_spec (len m) 4) as [H4|_]; [|done].
  pose proof (be_val_range m Hm) as H. rewrite H4 in H. change (256 ^ 4) with (2 ^ 32) in H.
  destruct (Z.eqb_spec (be_val m) 0); [done|lia].
Qed.

Lemma magicOf_bytes c : Forall is_byte (Magic_ c) → Forall is_byte (magicOf c).
Proof. intros Hm. unfold magicOf, orElse. case_bool_decide; [|done]. unfold str. cbn. repeat constructor; unfold is_byte; lia. Qed.

Lemma bindGroup_length n binds : (length (bindGroup n binds) <= n)%nat.
Proof. revert binds. induction n as [|n IH]; intros [|[c|] binds]; cbn; try lia. specialize (IH binds). lia. Qed.

Lemma bindGroup_prefix n binds : map Some (bindGroup n binds) `prefix_of` binds.
Proof.
  revert binds. induction n as [|n IH]; intros binds; [by apply prefix_nil|].
  destruct binds as [|[c|] binds]; cbn; [done| |by apply prefix_nil]. by apply prefix_cons.
Qed.

Lemma ParseNoiseKey_len s k : ParseNoiseKey s = Some k → len k = 32.
Proof. unfold ParseNoiseKey. repeat case_match; intros; simplify_eq; lia. Qed.

(** A server's configuration is well formed. *)
Record conf_ok (c : srvConf) : Prop := {
  co_passwords : sPasswords c ≠ [] ∧ Forall (λ p, p ≠ []) (sPasswords c);
  co_magic : 0 < sMagic c < 2 ^ 32;
  co_key : ∀ k, sPriv c = Some k → len k = 32;
  co_window : 0 < sSendWindow c;
  co_budget : cfg_ok (sPaths c);
  co_socks : 0 < sockLimit (sPaths c);
}.

Lemma serverConf_ok c priv pool :
  Forall is_byte (Magic_ c) → cleanPasswords (Passwords c) ≠ [] → (∀ k, priv = Some k → len k = 32) → 0 < limit pool →
  conf_ok (serverConf c priv pool).
Proof.
  intros Hm Hp Hk Hl. split; cbn [serverConf sPasswords sMagic sPriv sSendWindow sPaths sockLimit]; try done.
  - split; [done|apply cleanPasswords_spec].
  - by apply magic_range, magicOf_bytes.
  - destruct (Z.ltb_spec 0 (SendWindow c)); [done|]. unfold defaultSendWindow. lia.
  - apply resolveMaxPkt_range.
Qed.

Lemma newSendSockPool_limit n : 0 < limit (newSendSockPool n).
Proof. unfold newSendSockPool. cbn. destruct (Z.leb_spec n 0); [done|lia]. Qed.


(** C22: (functional) Two configuration files that fit give two ends that fit: with the
    same magic, and either no keys on both sides or the client's key being the public
    key of the server's, the client built from one and the server built from the other
    meet what the handshake assumes of its two configurations, and the client's packets
    fit the server's limits. *)
Theorem configured_ends_match {N : NoisePrims} c s lookup draws binds seeds cli d closed injected bind sbinds origdst b sclosed :
  Forall is_byte (Magic_ c) → magicOf c = magicOf s →
  NewClient c lookup draws binds seeds = (Ok (cli, d), closed) →
  newServer s injected bind sbinds origdst = (Ok b, sclosed) →
  (PrivKey s = [] ∧ TrimSpace (PubKey c) = [] ∨
   ∃ sk pub, PrivKey s ≠ [] ∧ ParseNoiseKey (PrivKey s) = Some sk ∧ TrimSpace (PubKey c) ≠ [] ∧
     ParseNoiseKey (TrimSpace (PubKey c)) = Some pub ∧ X25519 sk Basepoint = Some pub ∧ pub ≠ zeros 32) →
  configs_match cli (bConf b) ∧ cPasswords cli ≠ [] ∧ budget_ok (cMaxPkt cli) ∧ Len d = Z.max 1 (Sockets c).
Proof.
  intros Hm Hmm Hc Hs Hkeys. unfold NewClient in Hc. case_bool_decide as H0; [done|].
  destruct (clientPub c) as [pub|] eqn:Hpub; [|done]. case_bool_decide as Hpw; [done|].
  destruct (newSpreadDialer _ _ _ _ _ _ _) as [[d0|] cl0] eqn:Hd; [|done]. injection Hc as <- Hdd _.
  unfold newServer in Hs. case_bool_decide as Hp; [done|].
  destruct (openSockets s injected bind sbinds) as [[conns port]|]; [|done].
  split_and!; [|done| |].
  - unfold configs_match. cbn [clientConf cMagic cServerPub].
    assert (Hmag : ∀ priv pool, sMagic (serverConf s priv pool) = resolveMagic (parseMagicHeader (magicOf c)))
      by (intros; cbn [serverConf sMagic]; by rewrite Hmm).
    assert (Hrange : 0 ≤ resolveMagic (parseMagicHeader (magicOf c)) < 2 ^ 32).
    { pose proof (magic_range _ (magicOf_bytes c Hm)). lia. }
    unfold clientPub in Hpub. destruct Hkeys as [[Hk1 Hk2]|(sk & pk & Hk1 & Hk2 & Hk3 & Hk4 & Hk5 & Hk6)].
    + rewrite bool_decide_eq_true_2 in Hs by done. injection Hs as <- _. rewrite bool_decide_eq_true_2 in Hpub by done.
      injection Hpub as <-. cbn [bConf]. by rewrite Hmag.
    + rewrite bool_decide_eq_false_2, Hk2 in Hs by done. injection Hs as <- _.
      rewrite bool_decide_eq_false_2, Hk4 in Hpub by done. injection Hpub as <-. cbn [bConf]. rewrite Hmag.
      split_and!; try done; try apply Hrange. cbn [serverConf sPriv]. split_and!; try done. by eapply ParseNoiseKey_len.
  - right. cbn [clientConf cMaxPkt]. pose proof (resolveMaxPkt_range (MaxPkt c)).
    unfold maxPktFloor, UDPC_HDR_SIZE, UDPC_TRAILER_SIZE in *. lia.
  - destruct (dialer_reached _ _ _ _ _ _ _ _ _ [] Hd) as (_ & _ & _ & _ & _ & _ & Hl & _). cbn in Hl. rewrite <- Hdd.
    by destruct (fecEnabled _).
Qed.

(** * Witnesses *)

Section Witness.
#[local] Existing Instance toy_noise.

Definition demo_config (mode server_ pub priv : bytes) : Config :=
  mkConfig mode 2 0 pub server_ [] [] [] [] JNull (JString (str "first, second")) JNull (JArray [Some (str " third "); None]) []
    (str "UDPX") priv [] 2 None 0 0 1200 None None None None None None None None.

Definition demo_priv : bytes := repeat 7 32.
Definition demo_pub : bytes := default [] (X25519 demo_priv Basepoint).
Definition demo_server : Config := demo_config (str "server") [] [] (hexEncode demo_priv).
Definition demo_client : Config := demo_config (str " Client ") (str "192.0.2.1:25000-25003") (hexEncode demo_pub) [].


Lemma configured_ends_match_witness :
  match NewClient demo_client None [] [Some 1; Some 2] (λ _, [0]),
        newServer demo_server None (Some (3, 36712)) [None] (λ _, true) with
  | (Ok (cli, d), _), (Ok b, _) => configs_match cli (bConf b) ∧ Len d = 2
  | _, _ => False
  end.
Proof.
  destruct (NewClient _ _ _ _ _) as [r1 cl1] eqn:E1. destruct (newServer _ _ _ _ _) as [r2 cl2] eqn:E2.
  assert (H1 : is_Ok r1 = true).
  { change r1 with (r1, cl1).1. rewrite <- E1. vm_compute. reflexivity. }
  assert (H2 : is_Ok r2 = true).
  { change r2 with (r2, cl2).1. rewrite <- E2. vm_compute. reflexivity. }
  destruct r1 as [[cli d]|]; [|done]. destruct r2 as [b|]; [|done].
  refine (let H := configured_ends_match demo_client demo_server _ _ _ _ cli d cl1 _ _ _ _ b cl2 _ eq_refl E1 E2 _ in
    conj (proj1 H) (proj2 (proj2 (proj2 H)))).
  - repeat constructor; vm_compute; done.
  - right. exists demo_priv, demo_pub. vm_compute. split_and!; done.
Defined.

End Witness.
