(* ===== verification/AutoReconnect.v ===== *)
(** Re-establishing tunnels: src/tunnel/autoreconnect.go.

    [ensure] holds [dialMu] throughout and lets go of [mu] during the dial, so it is
    two functions, [ensureBegin] and [ensureEnd], with the outcome of the dial in
    between; operations on the connections, [drop], [Close] and the deadline setters
    come in between ([rstep]).  Connections and dial errors are identities, times
    nanoseconds, the zero time is [None].  [dialSession] is the handshake of
    HandshakeClient and enters by its outcome. *)
From S2P Require Import Prelude Rtt.
Local Open Scope Z_scope.

Definition reconnectBackoffBase : Z := 2 * second.
Definition reconnectBackoffMax : Z := 30 * second.

Inductive rc_error := RCClosed | RCThrottled (wait cause : Z) | RCDial (e : Z).

Record AutoReconnect := mkRC {
  rconn : option Z;
  rclosed : bool;
  needsRestart : bool;
  reconnectAttempts : Z;
  restarts : Z;
  readDeadline : option Z;
  writeDeadline : option Z;
  dialFails : Z;
  nextDialAt : option Z;
  lastDialErr : option Z;
}.

Definition NewAutoReconnect : AutoReconnect := mkRC None false false 0 0 None None 0 None None.

(** What the wrapper does to a connection, and the event it emits. *)
Inductive rc_output :=
| CloseConn (c : Z)
| SetRead (c : Z) (t : option Z)
| SetWrite (c : Z) (t : option Z)
| Reconnecting (attempt : Z).

(** * [ensure] *)

Inductive ens := EnsFail (e : rc_error) | EnsConn (c : Z) | EnsDial (isReconnect : bool).

(** Under [mu], before the dial. *)
Definition ensureBegin (a : AutoReconnect) (now : Z) : ens * AutoReconnect * list rc_output :=
  if rclosed a then (EnsFail RCClosed, a, []) else
  match rconn a with
  | Some c => (EnsConn c, a, [])
  | None =>
      match nextDialAt a with
      | Some t =>
          if 0 <? t - now then (EnsFail (RCThrottled (t - now) (default 0 (lastDialErr a))), a, [])
          else (EnsDial (needsRestart a), a, [])
      | None => (EnsDial (needsRestart a), a, [])
      end
  end.

(** The attempt counter and the event of a reconnect. *)
Definition noteAttempt (a : AutoReconnect) : AutoReconnect * list rc_output :=
  if needsRestart a then
    let n := u64 (reconnectAttempts a + 1) in
    (mkRC (rconn a) (rclosed a) (needsRestart a) n (restarts a) (readDeadline a) (writeDeadline a) (dialFails a)
       (nextDialAt a) (lastDialErr a), [Reconnecting n])
  else (a, []).

Definition ensureStart (a : AutoReconnect) (now : Z) : ens * AutoReconnect * list rc_output :=
  match ensureBegin a now with
  | (EnsDial b, a, out) => let '(a, ev) := noteAttempt a in (EnsDial b, a, out ++ ev)
  | r => r
  end.

Definition backoff (fails : Z) : Z :=
  let b := Z.shiftl reconnectBackoffBase (Z.min (u64 (fails - 1)) 4) in
  if reconnectBackoffMax <? b then reconnectBackoffMax else b.

(** After the dial: it failed with [e], or made connection [c]. *)
Definition ensureEnd (a : AutoReconnect) (isReconnect : bool) (now : Z) (r : result Z Z) :
    result Z rc_error * AutoReconnect * list rc_output :=
  match r with
  | Err e =>
      let fails := u64 (dialFails a + 1) in
      (Err (RCDial e),
       mkRC (rconn a) (rclosed a) (needsRestart a) (reconnectAttempts a) (restarts a) (readDeadline a)
         (writeDeadline a) fails (Some (now + backoff fails)) (Some e), [])
  | Ok c =>
      if rclosed a then (Err RCClosed, a, [CloseConn c]) else
      let dl := (if readDeadline a is Some _ then [SetRead c (readDeadline a)] else []) ++
                (if writeDeadline a is Some _ then [SetWrite c (writeDeadline a)] else []) in
      (Ok c,
       mkRC (Some c) (rclosed a) (if isReconnect then false else needsRestart a)
         (if isReconnect then 0 else reconnectAttempts a) (if isReconnect then u64 (restarts a + 1) else restarts a)
         (readDeadline a) (writeDeadline a) 0 None None, dl)
  end.

(** * The rest *)

Definition drop (a : AutoReconnect) (c : Z) : AutoReconnect * list rc_output :=
  (if bool_decide (rconn a = Some c)
   then mkRC None (rclosed a) true (reconnectAttempts a) (restarts a) (readDeadline a) (writeDeadline a) (dialFails a)
          (nextDialAt a) (lastDialErr a)
   else a, [CloseConn c]).

(** [Read] and [Write], once [ensure] has given connection [c] and the operation on
    it ended. *)
Definition afterIO (a : AutoReconnect) (c : Z) (failed : bool) : AutoReconnect * list rc_output :=
  if failed then drop a c else (a, []).

Definition RestartCount (a : AutoReconnect) : Z := restarts a.

Definition rcClose (a : AutoReconnect) : AutoReconnect * list rc_output :=
  if rclosed a then (a, []) else
  (mkRC None true (needsRestart a) (reconnectAttempts a) (restarts a) (readDeadline a) (writeDeadline a) (dialFails a)
     (nextDialAt a) (lastDialErr a),
   match rconn a with Some c => [CloseConn c] | None => [] end).

Definition set_deadlines (a : AutoReconnect) (rd wd : option Z) : AutoReconnect :=
  mkRC (rconn a) (rclosed a) (needsRestart a) (reconnectAttempts a) (restarts a) rd wd (dialFails a) (nextDialAt a)
    (lastDialErr a).

Definition SetReadDeadline (a : AutoReconnect) (t : option Z) : AutoReconnect * list rc_output :=
  (set_deadlines a t (writeDeadline a), match rconn a with Some c => [SetRead c t] | None => [] end).
Definition SetWriteDeadline (a : AutoReconnect) (t : option Z) : AutoReconnect * list rc_output :=
  (set_deadlines a (readDeadline a) t, match rconn a with Some c => [SetWrite c t] | None => [] end).
Definition SetDeadline (a : AutoReconnect) (t : option Z) : AutoReconnect * list rc_output :=
  (set_deadlines a t t, match rconn a with Some c => [SetRead c t; SetWrite c t] | None => [] end).

(** * All the callers *)

(** The connections with their deadlines while they are open, the identities handed
    out so far, the caller inside [ensure]'s dial, if any, the connections callers
    are reading from or writing to, and how many connections have been put to use. *)
Record rworld := mkRW {
  rc : AutoReconnect;
  conns : gmap Z (option Z * option Z);
  given : gset Z;
  dialing : option bool;
  inUse : list Z;
  uses : Z;
}.

Definition applyOut (m : gmap Z (option Z * option Z)) (o : rc_output) : gmap Z (option Z * option Z) :=
  match o with
  | CloseConn c => delete c m
  | SetRead c t => alter (λ d, (t, d.2)) c m
  | SetWrite c t => alter (λ d, (d.1, t)) c m
  | Reconnecting _ => m
  end.
Definition applyOuts : gmap Z (option Z * option Z) → list rc_output → gmap Z (option Z * option Z) := foldl applyOut.

Inductive rstep (w : rworld) : rworld → Prop :=
| RBegin now r a out :
    dialing w = None → ensureStart (rc w) now = (r, a, out) →
    rstep w (mkRW a (applyOuts (conns w) out) (given w) (match r with EnsDial b => Some b | _ => None end)
               (match r with EnsConn c => c :: inUse w | _ => inUse w end) (uses w))
| RDialFailed b now e r a out :
    dialing w = Some b → ensureEnd (rc w) b now (Err e) = (r, a, out) →
    rstep w (mkRW a (applyOuts (conns w) out) (given w) None (inUse w) (uses w))
| RDialed b now c r a out :
    dialing w = Some b → c ∉ given w → ensureEnd (rc w) b now (Ok c) = (r, a, out) →
    rstep w (mkRW a (applyOuts (<[c := (None, None)]> (conns w)) out) ({[c]} ∪ given w) None
               (match r with Ok c => c :: inUse w | Err _ => inUse w end)
               (match r with Ok _ => uses w + 1 | Err _ => uses w end))
| RIO l1 c l2 failed a out :
    inUse w = l1 ++ c :: l2 → afterIO (rc w) c failed = (a, out) →
    rstep w (mkRW a (applyOuts (conns w) out) (given w) (dialing w) (l1 ++ l2) (uses w))
| RClose a out :
    rcClose (rc w) = (a, out) → rstep w (mkRW a (applyOuts (conns w) out) (given w) (dialing w) (inUse w) (uses w))
| RSetDeadline t a out :
    SetReadDeadline (rc w) t = (a, out) ∨ SetWriteDeadline (rc w) t = (a, out) ∨ SetDeadline (rc w) t = (a, out) →
    rstep w (mkRW a (applyOuts (conns w) out) (given w) (dialing w) (inUse w) (uses w)).

Definition newRWorld : rworld := mkRW NewAutoReconnect ∅ ∅ None [] 0.

(** * One session at a time *)

Record rinv (w : rworld) : Prop := {
  ri_conns : conns w = match rconn (rc w) with
                       | Some c => {[c := (readDeadline (rc w), writeDeadline (rc w))]}
                       | None => ∅ end;
  ri_given : ∀ c, rconn (rc w) = Some c → c ∈ given w;
  ri_closed : rclosed (rc w) = true → rconn (rc w) = None;
  ri_dialing : ∀ b, dialing w = Some b → rconn (rc w) = None ∧ (rclosed (rc w) = false → b = needsRestart (rc w));
  ri_uses : 0 ≤ uses w ∧ (rconn (rc w) ≠ None → 0 < uses w);
  ri_restarts : restarts (rc w) = u64 (Z.max 0 (uses w - 1));
  ri_needs : rclosed (rc w) = false → needsRestart (rc w) = bool_decide (0 < uses w ∧ rconn (rc w) = None);
}.

Lemma rinv_new : rinv newRWorld.
Proof. by split. Qed.

(** Steps that leave the wrapper alone but for its counters. *)
Lemma ensureStart_cases a now :
  let '(r, a', out) := ensureStart a now in
  rconn a' = rconn a ∧ rclosed a' = rclosed a ∧ needsRestart a' = needsRestart a ∧ restarts a' = restarts a ∧
  readDeadline a' = readDeadline a ∧ writeDeadline a' = writeDeadline a ∧ (∀ m, applyOuts m out = m) ∧
  match r with
  | EnsConn c => rconn a = Some c
  | EnsDial b => rclosed a = false ∧ rconn a = None ∧ b = needsRestart a
  | EnsFail _ => True
  end.
Proof.
  unfold ensureStart, ensureBegin. destruct (rclosed a) eqn:Hc; [by rewrite Hc|].
  destruct (rconn a) as [c|] eqn:Hr; [by rewrite Hc, Hr|].
  assert (Hdial : let '(r, a', out) := let '(a', ev) := noteAttempt a in (EnsDial (needsRestart a), a', [] ++ ev) in
    rconn a' = None ∧ rclosed a' = false ∧ needsRestart a' = needsRestart a ∧ restarts a' = restarts a ∧
    readDeadline a' = readDeadline a ∧ writeDeadline a' = writeDeadline a ∧ (∀ m, applyOuts m out = m) ∧
    match r with EnsConn c => None = Some c | EnsDial b => false = false ∧ @None Z = None ∧ b = needsRestart a | EnsFail _ => True end).
  { unfold noteAttempt. destruct (needsRestart a) eqn:Hn; by cbn; rewrite ?Hc, ?Hr, ?Hn. }
  destruct (nextDialAt a) as [t|]; [|exact Hdial]. destruct (0 <? t - now); [by rewrite Hc, Hr|exact Hdial].
Qed.

Ltac fields := cbn [set_deadlines rc conns given dialing inUse uses rconn rclosed readDeadline writeDeadline restarts needsRestart] in *.

Lemma rstep_inv w w' : rinv w → rstep w w' → rinv w'.
Proof.
  intros Hw. pose proof Hw as [Hc Hg Hcl Hd [Hu Hpos] Hr Hn].
  destruct 1 as [now r a out Hnd He|b now e r a out Hdl He|b now c r a out Hdl Hfresh He|l1 c l2 failed a out Hl He|a out He|t a out He].
  - pose proof (ensureStart_cases (rc w) now) as H. rewrite He in H. destruct H as (E1 & E2 & E3 & E4 & E5 & E6 & E7 & E8).
    split; fields; rewrite ?E1, ?E2, ?E3, ?E4, ?E5, ?E6, ?E7; try done.
    intros b. destruct r; try done. intros [= <-]. by destruct E8 as (_ & ? & ?).
  - cbn [ensureEnd] in He. injection He as <- <- <-. by split.
  - destruct (Hd _ Hdl) as [Hnone Hb]. rewrite Hnone in Hc. unfold ensureEnd in He.
    destruct (rclosed (rc w)) eqn:Hclosed.
    + injection He as <- <- <-. split; fields; rewrite ?Hnone; try done; [|congruence].
      rewrite Hc. cbn. by rewrite delete_insert_eq.
    + specialize (Hb eq_refl). specialize (Hn eq_refl). rewrite Hnone in Hn. injection He as <- <- <-.
      split; fields; try done; try congruence.
      * rewrite Hc, insert_empty. unfold applyOuts. rewrite foldl_app.
        destruct (readDeadline (rc w)), (writeDeadline (rc w)); cbn; by rewrite ?alter_singleton_eq.
      * intros c' [= <-]. set_solver.
      * lia.
      * rewrite Hr, Hb, Hn. destruct (Z.ltb_spec 0 (uses w)).
        -- rewrite bool_decide_true by done. unfold u64, uwrap. rewrite Z.add_mod_idemp_l by lia. f_equal. lia.
        -- rewrite bool_decide_false by lia. f_equal. lia.
      * intros _. rewrite bool_decide_false by (intros [_ ?]; done). rewrite Hb, Hn. by destruct (bool_decide _).
  - unfold afterIO, drop in He. destruct failed; [|injection He as <- <-; by split].
    injection He as <- <-. destruct (bool_decide_reflect (rconn (rc w) = Some c)) as [Hcur|Hcur].
    + rewrite Hcur in *. split; fields; try done.
      * rewrite Hc. cbn. by rewrite delete_singleton_eq.
      * intros b Hb. by destruct (Hd b Hb).
      * intros Hclosed. rewrite bool_decide_true; [done|]. split; [by apply Hpos|done].
    + split; fields; try done. rewrite Hc. cbn. destruct (rconn (rc w)) as [c'|].
      * rewrite delete_singleton_ne; [done|congruence].
      * apply delete_empty.
  - unfold rcClose in He. destruct (rclosed (rc w)) eqn:Hclosed; [injection He as <- <-; destruct Hw; by split|]. injection He as <- <-.
    split; fields; try done.
    + rewrite Hc. destruct (rconn (rc w)); cbn; [by rewrite delete_singleton_eq|done].
  - unfold SetReadDeadline, SetWriteDeadline, SetDeadline in He.
    destruct He as [He|[He|He]]; injection He as <- <-; split; fields; try done;
      rewrite Hc; destruct (rconn (rc w)); unfold applyOuts; cbn [foldl applyOut]; by rewrite ?alter_singleton_eq.
Qed.

(** C30: (invariant) There is one session at a time.  Over every interleaving of reads and
    writes, dials, failures, deadline changes and [Close]: the only connection open
    is the wrapper's current one, so a connection that failed, or was dialed while
    the wrapper was being closed, has been closed; a failure of an old connection
    does not touch its replacement; the current connection has the deadlines last
    set; and the restart count is the number of connections put to use after the
    first. *)
Theorem reconnect_one_session w :
  rtc rstep newRWorld w →
  conns w = match rconn (rc w) with
            | Some c => {[c := (readDeadline (rc w), writeDeadline (rc w))]}
            | None => ∅ end ∧
  (rclosed (rc w) = true → conns w = ∅) ∧
  RestartCount (rc w) = u64 (Z.max 0 (uses w - 1)) ∧
  (∀ l1 c l2, inUse w = l1 ++ c :: l2 → rconn (rc w) ≠ Some c → (drop (rc w) c).1 = rc w).
Proof.
  intros Hrun. assert (Hw : rinv w).
  { revert w Hrun. refine (rtc_ind_r _ _ rinv_new _). intros w w' _ Hs IH. by eapply rstep_inv. }
  destruct Hw as [Hc Hg Hcl Hd Hu Hr Hn]. split_and!; try done.
  - intros H. by rewrite Hc, (Hcl H).
  - intros l1 c l2 _ Hne. unfold drop. by rewrite bool_decide_false.
Qed.

(** A deadline, a dial, and a failure that drops the connection. *)
Definition demo_rc (c : option Z) (needs : bool) : AutoReconnect := mkRC c false needs 0 0 (Some 5) None 0 None None.
Definition demo_dropped : rworld := mkRW (demo_rc None true) ∅ ({[7]} ∪ ∅) None [] 1.

Lemma reconnect_one_session_witness :
  conns demo_dropped = ∅ ∧ RestartCount (rc demo_dropped) = 0 ∧ needsRestart (rc demo_dropped) = true.
Proof.
  assert (H1 : rstep newRWorld (mkRW (demo_rc None false) ∅ ∅ None [] 0)) by (apply (RSetDeadline newRWorld (Some 5) (demo_rc None false) []); by left).
  assert (H2 : rstep (mkRW (demo_rc None false) ∅ ∅ None [] 0) (mkRW (demo_rc None false) ∅ ∅ (Some false) [] 0))
    by by apply (RBegin (mkRW (demo_rc None false) ∅ ∅ None [] 0) 0 (EnsDial false) (demo_rc None false) []).
  assert (H3 : rstep (mkRW (demo_rc None false) ∅ ∅ (Some false) [] 0)
                 (mkRW (demo_rc (Some 7) false) {[7 := (Some 5, None)]} ({[7]} ∪ ∅) None [7] 1)).
  { refine (eq_ind _ (rstep _) (RDialed (mkRW (demo_rc None false) ∅ ∅ (Some false) [] 0) false 1 7 (Ok 7)
      (demo_rc (Some 7) false) [SetRead 7 (Some 5)] eq_refl _ eq_refl) _ _); by vm_compute. }
  assert (H4 : rstep (mkRW (demo_rc (Some 7) false) {[7 := (Some 5, None)]} ({[7]} ∪ ∅) None [7] 1) demo_dropped).
  { refine (eq_ind _ (rstep _) (RIO (mkRW (demo_rc (Some 7) false) {[7 := (Some 5, None)]} ({[7]} ∪ ∅) None [7] 1) [] 7 [] true
      (demo_rc None true) [CloseConn 7] eq_refl eq_refl) _ _); by vm_compute. }
  destruct (reconnect_one_session demo_dropped) as (C & _ & R & _);
    [eapply rtc_l; [exact H1|]; eapply rtc_l; [exact H2|]; eapply rtc_l; [exact H3|]; by apply rtc_once|].
  split; [exact C|]. split; [exact R|done].
Defined.

(** * Throttling *)

(** Calls of [ensure] by one caller after another, at the given times, every dial
    failing after [took]: when the dials started. *)
Fixpoint redials (a : AutoReconnect) (calls : list (Z * Z)) : list Z :=
  match calls with
  | [] => []
  | (now, took) :: calls =>
      match ensureStart a now with
      | (EnsDial b, a, _) => now :: redials (ensureEnd a b (now + took) (Err 0)).1.2 calls
      | (_, a, _) => redials a calls
      end
  end.

Lemma backoff_eq n : 1 ≤ n < 2 ^ 64 → backoff n = Z.min (2 ^ n) 30 * second.
Proof.
  intros Hn. unfold backoff. rewrite u64_small by lia. unfold reconnectBackoffBase, reconnectBackoffMax.
  destruct (Z.le_gt_cases n 4) as [Hle|Hgt].
  - assert (n = 1 ∨ n = 2 ∨ n = 3 ∨ n = 4) as [->|[->|[->| ->]]] by lia; by vm_compute.
  - rewrite Z.min_r by lia. assert (32 ≤ 2 ^ n) by (change 32 with (2 ^ 5); apply Z.pow_le_mono_r; lia).
    rewrite Z.min_r by lia. by vm_compute.
Qed.

(** A wrapper without a connection after [k] failed dials; the next may start at [t]. *)
Record waiting (a : AutoReconnect) (k t : Z) : Prop := {
  wt_closed : rclosed a = false;
  wt_conn : rconn a = None;
  wt_fails : dialFails a = k;
  wt_next : default t (nextDialAt a) = t;
}.

Lemma redials_gap calls a k t : waiting a k t → 0 ≤ k → k + Z.of_nat (length calls) < 2 ^ 64 → Forall (λ c, 0 ≤ c.2) calls →
  (∀ s, head (redials a calls) = Some s → nextDialAt a = None ∨ t ≤ s) ∧
  ∀ (i : nat) s s', redials a calls !! i = Some s → redials a calls !! S i = Some s' →
    Z.min (2 ^ (k + Z.of_nat i + 1)) 30 * second ≤ s' - s.
Proof.
  revert a k t. induction calls as [|[now took] calls IH]; intros a k t [Hcl Hc Hf Hn] Hk Hlen Hall; [done|].
  apply Forall_cons in Hall as [Htook Hall]. cbn [fst snd length] in *. cbn [redials].
  unfold ensureStart, ensureBegin. rewrite Hcl, Hc.
  assert (Hthr : (∀ t', nextDialAt a = Some t' → t' = t)) by (intros t' E; by rewrite E in Hn).
  assert (Hskip : nextDialAt a ≠ None → (∀ s, head (redials a calls) = Some s → nextDialAt a = None ∨ t ≤ s) ∧
    ∀ (i : nat) s s', redials a calls !! i = Some s → redials a calls !! S i = Some s' →
      Z.min (2 ^ (k + Z.of_nat i + 1)) 30 * second ≤ s' - s) by (intros _; apply IH; done || lia).
  assert (Hgo : nextDialAt a = None ∨ t ≤ now →
    let '(a1, _) := noteAttempt a in
    let l := now :: redials (ensureEnd a1 (needsRestart a) (now + took) (Err 0)).1.2 calls in
    (∀ s, head l = Some s → nextDialAt a = None ∨ t ≤ s) ∧
    ∀ (i : nat) s s', l !! i = Some s → l !! S i = Some s' → Z.min (2 ^ (k + Z.of_nat i + 1)) 30 * second ≤ s' - s).
  { intros Hstart. assert (Ha1 : rclosed (noteAttempt a).1 = false ∧ rconn (noteAttempt a).1 = None ∧ dialFails (noteAttempt a).1 = k)
      by (unfold noteAttempt; by destruct (needsRestart a)).
    destruct (noteAttempt a) as [a1 ev]. destruct Ha1 as (A1 & A2 & A3). cbn [fst] in *.
    set (a2 := (ensureEnd a1 (needsRestart a) (now + took) (Err 0)).1.2).
    assert (Hfails : u64 (dialFails a1 + 1) = k + 1) by (rewrite A3; apply u64_small; lia).
    assert (Hw : waiting a2 (k + 1) (now + took + backoff (k + 1))).
    { split; cbn; [done|done|done|by rewrite Hfails]. }
    destruct (IH a2 (k + 1) _ Hw) as [I1 I2]; [lia|lia|done|]. split; [by intros s [= <-]|].
    intros [|i] s s'; cbn [lookup list_lookup].
    - intros [= <-] Hs'. assert (Hh : head (redials a2 calls) = Some s') by by destruct (redials a2 calls).
      destruct (I1 s' Hh) as [?|Hle]; [done|]. rewrite backoff_eq in Hle by lia.
      replace (k + Z.of_nat 0 + 1) with (k + 1) by lia. lia.
    - intros Hs Hs'. specialize (I2 i s s' Hs Hs'). by replace (k + Z.of_nat (S i) + 1) with (k + 1 + Z.of_nat i + 1) by lia. }
  destruct (nextDialAt a) as [t'|] eqn:Et.
  - rewrite (Hthr t' eq_refl) in *. destruct (Z.ltb_spec 0 (t - now)); [by apply Hskip|].
    specialize (Hgo ltac:(right; lia)). by destruct (noteAttempt a).
  - specialize (Hgo ltac:(by left)). by destruct (noteAttempt a).
Qed.

(** A server that refuses sessions is not hammered.  However often and
    whenever operations are attempted, the i-th failed dial and the next one are at
    least min(2^i, 30) seconds apart; everything in between fails at once with the
    error of that dial. *)
Theorem redials_throttled calls :
  Forall (λ c, 0 ≤ c.2) calls → Z.of_nat (length calls) < 2 ^ 64 →
  ∀ (i : nat) s s', redials NewAutoReconnect calls !! i = Some s → redials NewAutoReconnect calls !! S i = Some s' →
    Z.min (2 ^ (Z.of_nat i + 1)) 30 * second ≤ s' - s.
Proof.
  intros Hall Hlen i s s' Hs Hs'. destruct (redials_gap calls NewAutoReconnect 0 0) as [_ H]; try done.
  specialize (H i s s' Hs Hs'). by rewrite Z.add_0_l in H.
Qed.

Lemma redials_throttled_witness :
  redials NewAutoReconnect [(0, 0); (second, 0); (2 * second, 0); (5 * second, 0); (6 * second, 0)] = [0; 2 * second; 6 * second] ∧
  4 * second ≤ 6 * second - 2 * second.
Proof.
  split; [by vm_compute|].
  apply (redials_throttled [(0, 0); (second, 0); (2 * second, 0); (5 * second, 0); (6 * second, 0)]) with (i := 1%nat);
    [by repeat constructor|done|by vm_compute|by vm_compute].
Defined.
