(* ===== verification/EventBus.v ===== *)
(** The event bus: src/tunnel/events.go.

    The channel is its buffered contents; producers, [setHandler] and the consumer
    goroutine interleave at every channel operation and at every access to the
    handler ([bstep]).  A handler is its identity; what it does, panics included,
    stays inside [safeEventCall]. *)
From S2P Require Import Prelude.
Local Open Scope Z_scope.

Section EventBus.
Context {T : Type}.

Record eventBus := mkBus {
  ch : list T;
  capacity : Z;
  bdropped : Z;
  stopped : bool;
  handler : option Z;
  started : bool;                (* handlerOnce has run, or is running *)
}.

Definition newEventBus (cap : Z) : eventBus := mkBus [] cap 0 false None false.

Definition set_ch (b : eventBus) (q : list T) (n : Z) : eventBus :=
  mkBus q (capacity b) n (stopped b) (handler b) (started b).

(** The send of [emit]: it never blocks. *)
Definition emit (b : eventBus) (ev : T) : eventBus :=
  if stopped b then b else
  if Z.of_nat (length (ch b)) <? capacity b then set_ch b (ch b ++ [ev]) (bdropped b)
  else set_ch b (ch b) (u64 (bdropped b + 1)).

Definition droppedCount (b : eventBus) : Z := bdropped b.

(** [setHandler]: the swap, and whether this call runs the drain. *)
Definition swapHandler (b : eventBus) (h : option Z) : eventBus :=
  mkBus (ch b) (capacity b) (bdropped b) (stopped b) h (started b).
Definition takeOnce (b : eventBus) : bool * eventBus :=
  (negb (started b), mkBus (ch b) (capacity b) (bdropped b) (stopped b) (handler b) true).

(** One turn of the drain loop: [false] when the backlog is gone. *)
Definition drainOne (b : eventBus) : bool * eventBus :=
  match ch b with
  | [] => (false, b)
  | _ :: q => (true, set_ch b q (u64 (bdropped b + 1)))
  end.

Definition closeBus (b : eventBus) : eventBus :=
  mkBus (ch b) (capacity b) (bdropped b) true (handler b) (started b).

(** * Producers, subscriber and consumer *)

Inductive consumer := NoConsumer | Draining | Ready | Holding (ev : T) | Calling (h : Z) (ev : T) | Exited.

(** [offered] are the events handed to [emit] while the bus ran, [calls] the calls
    of handlers, [ignored] the events received while no handler was set, [stale] how
    many events were offered before the first subscriber's drain was over. *)
Record bworld := mkBW {
  bus : eventBus;
  cons : consumer;
  offered : list T;
  calls : list (Z * T);
  ignored : Z;
  stale : nat;
}.

Inductive bstep (w : bworld) : bworld → Prop :=
| BEmit ev :
    bstep w (mkBW (emit (bus w) ev) (cons w) (if stopped (bus w) then offered w else offered w ++ [ev]) (calls w) (ignored w) (stale w))
| BSwap h : bstep w (mkBW (swapHandler (bus w) h) (cons w) (offered w) (calls w) (ignored w) (stale w))
| BOnce b :
    takeOnce (bus w) = (true, b) → bstep w (mkBW b Draining (offered w) (calls w) (ignored w) (stale w))
| BDrain b :
    cons w = Draining → drainOne (bus w) = (true, b) → bstep w (mkBW b Draining (offered w) (calls w) (ignored w) (stale w))
| BDrained b :
    cons w = Draining → drainOne (bus w) = (false, b) → bstep w (mkBW b Ready (offered w) (calls w) (ignored w) (length (offered w)))
| BReceive ev q :
    cons w = Ready → ch (bus w) = ev :: q →
    bstep w (mkBW (set_ch (bus w) q (bdropped (bus w))) (Holding ev) (offered w) (calls w) (ignored w) (stale w))
| BLook ev :
    cons w = Holding ev →
    bstep w (match handler (bus w) with
             | Some h => mkBW (bus w) (Calling h ev) (offered w) (calls w) (ignored w) (stale w)
             | None => mkBW (bus w) Ready (offered w) (calls w) (ignored w + 1) (stale w)
             end)
| BCall h ev :
    cons w = Calling h ev → bstep w (mkBW (bus w) Ready (offered w) (calls w ++ [(h, ev)]) (ignored w) (stale w))
| BStop : bstep w (mkBW (closeBus (bus w)) (cons w) (offered w) (calls w) (ignored w) (stale w))
| BExit : cons w = Ready → stopped (bus w) = true → bstep w (mkBW (bus w) Exited (offered w) (calls w) (ignored w) (stale w)).

Definition newBWorld (cap : Z) : bworld := mkBW (newEventBus cap) NoConsumer [] [] 0 0.

(** The event the consumer has in hand. *)
Definition inHand (c : consumer) : list T :=
  match c with Holding ev | Calling _ ev => [ev] | _ => [] end.

Definition passed (w : bworld) : list T := map snd (calls w) ++ inHand (cons w) ++ ch (bus w).

Record binv (w : bworld) : Prop := {
  bi_order : sublist (passed w) (drop (stale w) (offered w));
  bi_stale : (stale w ≤ length (offered w))%nat;
  bi_count : u64 (Z.of_nat (length (offered w))) = u64 (Z.of_nat (length (passed w)) + ignored w + bdropped (bus w));
  bi_cap : Z.of_nat (length (ch (bus w))) ≤ Z.max 0 (capacity (bus w));
  bi_before : started (bus w) = false → cons w = NoConsumer;
  bi_silent : cons w = NoConsumer ∨ cons w = Draining → calls w = [];
}.

Lemma u64_ext a b c d : u64 a = u64 b → c - a = d - b → u64 c = u64 d.
Proof.
  unfold u64, uwrap. intros H E. replace c with (a + (c - a)) by lia. replace d with (b + (c - a)) by lia.
  rewrite <- (Z.add_mod_idemp_l a), <- (Z.add_mod_idemp_l b) by lia. by rewrite H.
Qed.

Lemma u64_idem_r a b : u64 (a + u64 b) = u64 (a + b).
Proof. unfold u64, uwrap. apply Z.add_mod_idemp_r. lia. Qed.

Lemma drop_app_stale (n : nat) (l : list T) x : (n ≤ length l)%nat → drop n (l ++ [x]) = drop n l ++ [x].
Proof. intros H. rewrite drop_app. by replace (n - length l)%nat with 0%nat by lia. Qed.

Lemma sublist_drop_one (a : list T) x q l : sublist (a ++ x :: q) l → sublist (a ++ q) l.
Proof. intros H. etransitivity; [|exact H]. apply sublist_app; [done|]. by constructor. Qed.

Ltac bus_fields := cbn [bus cons offered calls ignored stale ch capacity bdropped stopped handler started set_ch inHand app length] in *.

Lemma bstep_inv w w' : binv w → bstep w w' → binv w'.
Proof.
  intros [Ho Hs Hc Hcap Hb Hq] Hstep. unfold passed in *.
  destruct Hstep as [ev|h|b Hb'|b Hd Hb'|b Hd Hb'|ev q Hr Hch|ev Hh|h ev Hh| |Hr Hst].
  - unfold emit. destruct (stopped (bus w)) eqn:Est; [by split|].
    assert (Hmore : sublist (map snd (calls w) ++ inHand (cons w) ++ ch (bus w)) (drop (stale w) (offered w ++ [ev])))
      by (rewrite drop_app_stale by done; by apply sublist_inserts_r).
    destruct (Z.ltb_spec (Z.of_nat (length (ch (bus w)))) (capacity (bus w))); split; bus_fields; try done; rewrite ?length_app; cbn [length]; try lia.
    + unfold passed. bus_fields. rewrite drop_app_stale, !app_assoc by done. rewrite <- !app_assoc. rewrite (app_assoc (inHand _)), (app_assoc (map snd _)).
      apply sublist_app; [|done]. by rewrite <- ?app_assoc.
    + eapply u64_ext; [exact Hc|]. unfold passed. bus_fields. rewrite !length_app. cbn [length]. lia.
    + rewrite u64_idem_r. eapply u64_ext; [exact Hc|]. unfold passed. bus_fields. rewrite !length_app. lia.
  - by split.
  - unfold takeOnce in Hb'. injection Hb' as Hst <-. apply negb_true_iff in Hst. rewrite (Hb Hst) in *.
    specialize (Hq ltac:(by left)). split; bus_fields; try done.
  - unfold drainOne in Hb'. destruct (ch (bus w)) as [|x q] eqn:Ech; [done|]. injection Hb' as <-. rewrite Hd in *.
    bus_fields. split; unfold passed; bus_fields; try done.
    + by eapply sublist_drop_one.
    + rewrite u64_idem_r. eapply u64_ext; [exact Hc|]. rewrite !length_app. cbn [length]. lia.
    + lia.
  - unfold drainOne in Hb'. destruct (ch (bus w)) as [|x q] eqn:Ech; [|done]. injection Hb' as <-. rewrite Hd in *.
    specialize (Hq ltac:(by right)). rewrite Hq in *. bus_fields. split; unfold passed; bus_fields; rewrite ?Ech, ?Hq; try done.
    + apply sublist_nil_l.
    + intros Hf. specialize (Hb Hf). done.
  - rewrite Hr, Hch in *. bus_fields. split; unfold passed; bus_fields; try done; [lia|intros Hf; by specialize (Hb Hf)|by intros [?|?]].
  - rewrite Hh in *. bus_fields. destruct (handler (bus w)); split; unfold passed; bus_fields; try done.
    + intros Hf; by specialize (Hb Hf).
    + by intros [?|?].
    + by eapply sublist_drop_one.
    + eapply u64_ext; [exact Hc|]. rewrite !length_app. cbn [length]. lia.
    + intros Hf; by specialize (Hb Hf).
    + by intros [?|?].
  - rewrite Hh in *. bus_fields. split; unfold passed; bus_fields; rewrite ?map_app, <- ?app_assoc; try done.
    + intros Hf; by specialize (Hb Hf).
    + by intros [?|?].
  - by split.
  - rewrite Hr in *. split; try done; [intros Hf; by specialize (Hb Hf)|by intros [?|?]].
Qed.

(** Events reach handlers in order and at most once, and none vanishes
    uncounted.  Over every interleaving of producers, subscribers, the consumer and
    [close]: the handler calls made, the event in hand and the queue are, in this
    order, among the events offered since the first subscription took effect, in the
    order they were offered; the queue never exceeds its capacity, so producers
    never wait; and every event offered is accounted for as delivered, in hand,
    queued, received while no handler was set, or dropped (the counter modulo 2^64). *)
Theorem events_in_order cap w :
  rtc bstep (newBWorld cap) w →
  sublist (map snd (calls w) ++ inHand (cons w) ++ ch (bus w)) (drop (stale w) (offered w)) ∧
  (cons w = NoConsumer ∨ cons w = Draining → calls w = []) ∧
  Z.of_nat (length (ch (bus w))) ≤ Z.max 0 (capacity (bus w)) ∧
  u64 (Z.of_nat (length (offered w))) =
    u64 (Z.of_nat (length (calls w)) + Z.of_nat (length (inHand (cons w))) + Z.of_nat (length (ch (bus w))) +
         ignored w + droppedCount (bus w)).
Proof.
  intros Hrun. assert (Hw : binv w).
  { revert w Hrun. refine (rtc_ind_r _ _ _ _); [|intros w w' _ Hs IH; by eapply bstep_inv].
    split; try done; cbn; lia. }
  destruct Hw as [Ho Hs Hc Hcap _ Hq]. split_and!; try done. rewrite Hc. f_equal. unfold passed, droppedCount.
  rewrite !length_app, length_map. lia.
Qed.
End EventBus.

(** Two early events for a queue of one, a subscription, and an event delivered. *)
Definition demo_bus (q : list Z) (d : Z) (h : option Z) (st : bool) : eventBus := mkBus q 1 d false h st.
Definition demo_delivered : bworld := mkBW (demo_bus [] 2 (Some 1) true) Ready [10; 11; 20] [(1, 20)] 0 2.

Lemma events_in_order_witness :
  rtc bstep (newBWorld 1) demo_delivered ∧ droppedCount (bus demo_delivered) = 2 ∧
  sublist (map snd (calls demo_delivered)) (drop (stale demo_delivered) (offered demo_delivered)).
Proof.
  set (w0 := newBWorld 1 : @bworld Z).
  set (w1 := mkBW (demo_bus [10] 0 None false) NoConsumer [10] [] 0 0).
  set (w2 := mkBW (demo_bus [10] 1 None false) NoConsumer [10; 11] [] 0 0).
  set (w3 := mkBW (demo_bus [10] 1 (Some 1) false) NoConsumer [10; 11] [] 0 0).
  set (w4 := mkBW (demo_bus [10] 1 (Some 1) true) Draining [10; 11] [] 0 0).
  set (w5 := mkBW (demo_bus [] 2 (Some 1) true) Draining [10; 11] [] 0 0).
  set (w6 := mkBW (demo_bus [] 2 (Some 1) true) Ready [10; 11] [] 0 2).
  set (w7 := mkBW (demo_bus [20] 2 (Some 1) true) Ready [10; 11; 20] [] 0 2).
  set (w8 := mkBW (demo_bus [] 2 (Some 1) true) (Holding 20) [10; 11; 20] [] 0 2).
  set (w9 := mkBW (demo_bus [] 2 (Some 1) true) (Calling 1 20) [10; 11; 20] [] 0 2).
  assert (Hrun : rtc bstep w0 demo_delivered).
  { apply (rtc_l _ _ w1); [by apply (BEmit w0 10)|].
    apply (rtc_l _ _ w2); [by apply (BEmit w1 11)|].
    apply (rtc_l _ _ w3); [by apply (BSwap w2 (Some 1))|].
    apply (rtc_l _ _ w4); [by apply (BOnce w3 (demo_bus [10] 1 (Some 1) true))|].
    apply (rtc_l _ _ w5); [by apply (BDrain w4 (demo_bus [] 2 (Some 1) true))|].
    apply (rtc_l _ _ w6); [by apply (BDrained w5 (demo_bus [] 2 (Some 1) true))|].
    apply (rtc_l _ _ w7); [by apply (BEmit w6 20)|].
    apply (rtc_l _ _ w8); [by apply (BReceive w7 20 [])|].
    apply (rtc_l _ _ w9); [by apply (BLook w8 20)|].
    apply rtc_once. by apply (BCall w9 1 20). }
  destruct (events_in_order 1 demo_delivered Hrun) as (H & _). split; [exact Hrun|]. split; [done|exact H].
Defined.
