(* ===== verification/Transmit.v ===== *)
(** The batch transmitter: src/tunnel/transmit.go.

    A bounded channel between the goroutines that seal records and the one that
    writes them.  [submit], [bestEffort] and the turns of [run] interleave at every
    channel operation ([tqstep]); [send], [pace], [before] and [burst] are what the
    session passed in and enter by their answers. *)
From S2P Require Import Prelude.
Local Open Scope Z_scope.

Definition transmitBurst : Z := 64.

(** Where the [run] goroutine is; an abandoned batch stays with [Ended]. *)
Inductive runner :=
| Idle
| Filling (batch : list bytes) (limit : Z)
| Pacing (batch : list bytes)
| Sending (batch : list bytes)
| Marking (batch : list bytes)
| Ended (batch : list bytes).

Definition count (l : list bytes) : Z := Z.of_nat (length l).

Record transmitQueue := mkTQ {
  queue : list bytes;
  tdone : bool;
  run : runner;
}.

Definition newTransmitQueue : transmitQueue := mkTQ [] false Idle.

(** [submit] when it need not wait: into the channel, or refused once [done] is
    closed; [choice] is which of two ready cases [select] takes. *)
Definition submit (t : transmitQueue) (wire : bytes) (choice : bool) : option (bool * transmitQueue) :=
  let room := count (queue t) <? transmitBurst in
  if tdone t && (negb room || choice) then Some (false, t) else
  if room then Some (true, mkTQ (queue t ++ [wire]) (tdone t) (run t)) else None.

Definition bestEffort (t : transmitQueue) (wire : bytes) (choice : bool) : bool * transmitQueue :=
  default (false, t) (submit t wire choice).

Definition batchLimit (burst : Z) : Z := Z.min transmitBurst (Z.max 1 burst).

(** One turn of [run]: which frames it takes, and what the session's functions
    answer. *)
Inductive turn := TakeFirst (burst : Z) | TakeMore | Full | Paced (ok : bool) | Sent (failed : bool) | Marked | Quit.

(** The second component: a batch handed to [send], then to [before]. *)
Inductive tq_output := OutSend (batch : list bytes) | OutError | OutBefore (batch : list bytes).

Definition runTurn (t : transmitQueue) (u : turn) : option (transmitQueue * list tq_output) :=
  match run t, u with
  | Idle, Quit => if tdone t then Some (mkTQ (queue t) (tdone t) (Ended []), []) else None
  | Idle, TakeFirst burst =>
      match queue t with
      | w :: q => Some (mkTQ q (tdone t) (Filling [w] (batchLimit burst)), [])
      | [] => None
      end
  | Filling b l, TakeMore =>
      match queue t with
      | w :: q => if count b <? l then Some (mkTQ q (tdone t) (Filling (b ++ [w]) l), []) else None
      | [] => None
      end
  | Filling b l, Full =>
      if (count b <? l) && negb (bool_decide (queue t = [])) then None else Some (mkTQ (queue t) (tdone t) (Pacing b), [])
  | Pacing b, Paced ok => Some (mkTQ (queue t) (tdone t) (if ok then Sending b else Ended b), [])
  | Sending b, Sent failed =>
      Some (mkTQ (queue t) (tdone t) (Marking b), OutSend b :: (if failed then [OutError] else []))
  | Marking b, Marked => Some (mkTQ (queue t) (tdone t) Idle, [OutBefore b])
  | _, _ => None
  end.

(** * The goroutines together *)

Record tqworld := mkTW {
  tq : transmitQueue;
  accepted : list bytes;             (* frames [submit] or [bestEffort] took *)
  log : list tq_output;
}.

Inductive tqstep (w : tqworld) : tqworld → Prop :=
| TQSubmit wire choice ok t :
    submit (tq w) wire choice = Some (ok, t) →
    tqstep w (mkTW t (if ok then accepted w ++ [wire] else accepted w) (log w))
| TQBestEffort wire choice ok t :
    bestEffort (tq w) wire choice = (ok, t) →
    tqstep w (mkTW t (if ok then accepted w ++ [wire] else accepted w) (log w))
| TQDone : tqstep w (mkTW (mkTQ (queue (tq w)) true (run (tq w))) (accepted w) (log w))
| TQRun u t out : runTurn (tq w) u = Some (t, out) → tqstep w (mkTW t (accepted w) (log w ++ out)).

Definition newTQWorld : tqworld := mkTW newTransmitQueue [] [].

Definition sentOf (o : tq_output) : list (list bytes) := match o with OutSend b => [b] | _ => [] end.
Definition markedOf (o : tq_output) : list (list bytes) := match o with OutBefore b => [b] | _ => [] end.
Definition sends (l : list tq_output) : list (list bytes) := concat (map sentOf l).
Definition marks (l : list tq_output) : list (list bytes) := concat (map markedOf l).

(** Frames taken from the channel and not yet handed to [send]. *)
Definition unsent (r : runner) : list bytes :=
  match r with Filling b _ | Pacing b | Sending b | Ended b => b | Idle | Marking _ => [] end.

Record tqinv (w : tqworld) : Prop := {
  ti_fifo : accepted w = concat (sends (log w)) ++ unsent (run (tq w)) ++ queue (tq w);
  ti_marks : sends (log w) = marks (log w) ++ match run (tq w) with Marking b => [b] | _ => [] end;
  ti_sizes : Forall (λ b, 1 ≤ count b ≤ transmitBurst) (sends (log w));
  ti_batch : match run (tq w) with
             | Filling b l => 1 ≤ count b ≤ l ∧ l ≤ transmitBurst
             | Pacing b | Sending b => 1 ≤ count b ≤ transmitBurst
             | _ => True
             end;
  ti_room : count (queue (tq w)) ≤ transmitBurst;
}.

Lemma sends_app a b : sends (a ++ b) = sends a ++ sends b.
Proof. unfold sends. by rewrite map_app, concat_app. Qed.
Lemma marks_app a b : marks (a ++ b) = marks a ++ marks b.
Proof. unfold marks. by rewrite map_app, concat_app. Qed.

Lemma submit_inv w wire choice ok t : tqinv w → submit (tq w) wire choice = Some (ok, t) →
  tqinv (mkTW t (if ok then accepted w ++ [wire] else accepted w) (log w)).
Proof.
  intros Hw Hs. unfold submit in Hs. destruct (_ && _); [injection Hs as <- <-; by destruct Hw; split|].
  destruct (Z.ltb_spec (count (queue (tq w))) transmitBurst); [|done]. injection Hs as <- <-. destruct Hw as [F M S B R].
  split; cbn [tq accepted log queue run]; try done.
  - rewrite F. by rewrite <- !app_assoc.
  - unfold count in *. rewrite length_app. cbn. lia.
Qed.

Lemma tqstep_inv w w' : tqinv w → tqstep w w' → tqinv w'.
Proof.
  intros Hw [wire choice ok t Hs|wire choice ok t Hs| |u t out Hs].
  - by apply (submit_inv w wire choice).
  - unfold bestEffort in Hs. destruct (submit (tq w) wire choice) as [[ok' t']|] eqn:E.
    + cbn in Hs. injection Hs as -> ->. by apply (submit_inv w wire choice).
    + cbn in Hs. injection Hs as <- <-. by destruct Hw; split.
  - by destruct Hw; split.
  - destruct Hw as [F M S B R]. unfold runTurn in Hs.
    destruct (run (tq w)) as [|b l|b|b|b|b] eqn:Er, u as [burst| | |pok|failed| |]; try done.
    + destruct (queue (tq w)) as [|x q] eqn:Eq; [done|]. injection Hs as <- <-. rewrite app_nil_r.
      split; cbn [tq accepted log queue run unsent] in *; try done; unfold count, batchLimit in *; cbn in *; lia.
    + destruct (tdone (tq w)); [|done]. injection Hs as <- <-. rewrite app_nil_r. by split.
    + destruct (queue (tq w)) as [|x q] eqn:Eq; [done|]. destruct (Z.ltb_spec (count b) l); [|done]. injection Hs as <- <-.
      rewrite app_nil_r. split; cbn [tq accepted log queue run unsent] in *; try done.
      * rewrite F. by rewrite <- !app_assoc.
      * unfold count in *. rewrite length_app. cbn. lia.
      * unfold count in *. cbn in *. lia.
    + destruct (_ && _); [done|]. injection Hs as <- <-. rewrite app_nil_r.
      split; cbn [tq accepted log queue run unsent] in *; try done. lia.
    + injection Hs as <- <-. rewrite app_nil_r. by destruct pok; split.
    + injection Hs as <- <-. split; cbn [tq accepted log queue run unsent] in *; try done; rewrite ?sends_app, ?marks_app.
      * rewrite F, concat_app. destruct failed; cbn; by rewrite ?app_nil_r, <- ?app_assoc.
      * rewrite M. destruct failed; cbn; by rewrite ?app_nil_r.
      * apply Forall_app. split; [done|]. destruct failed; by apply Forall_singleton.
    + injection Hs as <- <-. split; cbn [tq accepted log queue run unsent] in *; try done; rewrite ?sends_app, ?marks_app; cbn.
      * by rewrite app_nil_r.
      * by rewrite !app_nil_r.
      * by rewrite app_nil_r.
Qed.

(** The transmitter is a queue.  Over every interleaving of submissions,
    the sending goroutine and the session's end: the frames accepted are, in order,
    those handed to the socket, the batch in hand and the channel - none twice, none
    out of turn; a batch has 1 to 64 frames; and a batch is marked transmitted after
    it was handed over, each exactly once, whether the write failed or not. *)
Theorem transmit_in_order w :
  rtc tqstep newTQWorld w →
  accepted w = concat (sends (log w)) ++ unsent (run (tq w)) ++ queue (tq w) ∧
  Forall (λ b, 1 ≤ count b ≤ transmitBurst) (sends (log w)) ∧
  (sends (log w) = marks (log w) ∨ ∃ b, run (tq w) = Marking b ∧ sends (log w) = marks (log w) ++ [b]) ∧
  count (queue (tq w)) ≤ transmitBurst.
Proof.
  intros Hrun. assert (Hw : tqinv w).
  { revert w Hrun. refine (rtc_ind_r _ _ _ _); [by split|]. intros w w' _ Hs IH. by eapply tqstep_inv. }
  destruct Hw as [F M S B R]. split_and!; try done. rewrite M. destruct (run (tq w)); rewrite ?app_nil_r; try (by left).
  right. eexists. split; [done|]. done.
Qed.

Definition demo_tq : tqworld := mkTW (mkTQ [[2]] false (Marking [[1]])) [[1]; [2]] [OutSend [[1]]; OutError].

Lemma transmit_in_order_witness : accepted demo_tq = [[1]] ++ [] ++ [[2]] ∧ rtc tqstep newTQWorld demo_tq.
Proof.
  set (w1 := mkTW (mkTQ [[1]] false Idle) [[1]] []).
  set (w2 := mkTW (mkTQ [] false (Filling [[1]] 1)) [[1]] []).
  set (w3 := mkTW (mkTQ [[2]] false (Filling [[1]] 1)) [[1]; [2]] []).
  set (w4 := mkTW (mkTQ [[2]] false (Pacing [[1]])) [[1]; [2]] []).
  set (w5 := mkTW (mkTQ [[2]] false (Sending [[1]])) [[1]; [2]] []).
  assert (Hrun : rtc tqstep newTQWorld demo_tq).
  { apply (rtc_l _ _ w1); [by apply (TQSubmit newTQWorld [1] false true (tq w1))|].
    apply (rtc_l _ _ w2); [by apply (TQRun w1 (TakeFirst 0) (tq w2) [])|].
    apply (rtc_l _ _ w3); [by apply (TQSubmit w2 [2] false true (tq w3))|].
    apply (rtc_l _ _ w4); [by apply (TQRun w3 Full (tq w4) [])|].
    apply (rtc_l _ _ w5); [by apply (TQRun w4 (Paced true) (tq w5) [])|].
    apply rtc_once. by apply (TQRun w5 (Sent true) (tq demo_tq) [OutSend [[1]]; OutError]). }
  destruct (transmit_in_order demo_tq Hrun) as (H & _). split; [exact H|exact Hrun].
Defined.
