(* ===== verification/ShareUri.v ===== *)
(** Sharing a node: the encrypted envelope of src/sharecrypto.go, the two links of
    src/uri.go and the command that prints them, [runGenURI] of src/main.go.

    What the libraries compute is the interface [ShareLib]: PBKDF2, AES-GCM, gzip and
    the decoding of the envelope's JSON; base64 is Go's ([NoiseKeys]), and the
    encoding of the envelope, whose strings are all base64, is written out.  Random
    draws are arguments, [None] where reading them fails. *)
From S2P Require Import Prelude GoStrings GoNet Protocol Targets PortRange Noise NoiseKeys Config.
Local Open Scope Z_scope.

Definition shareSaltLen : Z := 16.
Definition shareIvLen : Z := 12.
Definition shareIterations : Z := 10000.
Definition shareKeyLen : Z := 32.
Definition shareMaxSize : Z := Z.shiftl 1 20.

Record shareEnvelope := mkEnvelope { V : Z; G : Z; S_ : bytes; I_ : bytes; C_ : bytes }.

Record StunProfile := mkProfile {
  ID : bytes; Name : bytes; SSHAddr : bytes; User : bytes; Pass : bytes; AuthType : bytes;
  TunnelType : bytes; ProxyAddr : bytes; CustomHost : bytes; ServerName : bytes; CustomPath : bytes;
  EnableCustomPath : bool; ProxyAuthRequired : bool;
  UDPCustomPsk : bytes; UDPCustomMagic : bytes; NoisePublicKey : bytes;
}.

Class ShareLib := {
  pbkdf2_key : bytes → bytes → Z → Z → bytes;          (* password, salt, iterations, length *)
  gcm_seal : bytes → bytes → bytes → bytes;            (* key, nonce, plaintext *)
  gcm_open : bytes → bytes → bytes → option bytes;
  gzip_write : bytes → option bytes;                   (* a whole stream; [None] is an error *)
  gzip_read : bytes → Z → option bytes;                (* what at most so many bytes read from it *)
  json_unmarshal : bytes → option shareEnvelope;
  json_profile : StunProfile → option bytes;
}.

Inductive share_error :=
| ErrRandom | ErrCipher | ErrEnvelopeSize | ErrBase64 | ErrJSON | ErrShareVersion (v : Z) | ErrShareFlag (g : Z)
| ErrSaltLen (n : Z) | ErrNonceLen (n : Z) | ErrCipherShort | ErrOpen | ErrGunzip | ErrProfileSize.

(** * Text *)

(** fmt's "%06d" of a number below 10^6. *)
Definition pinText (n : Z) : bytes := map (λ k, 48 + n / 10 ^ k mod 10) [5; 4; 3; 2; 1; 0].

Definition GenerateRandomPIN (draw : option Z) : option bytes := pinText <$> draw.

(** json.Marshal of an envelope; base64 needs no escapes. *)
Definition quoted (s : bytes) : bytes := 34 :: s ++ [34].
Definition marshalEnvelope (e : shareEnvelope) : bytes :=
  123 :: quoted (str "v") ++ 58 :: Itoa (V e) ++ 44 :: quoted (str "g") ++ 58 :: Itoa (G e) ++
  44 :: quoted (str "s") ++ 58 :: quoted (S_ e) ++ 44 :: quoted (str "i") ++ 58 :: quoted (I_ e) ++
  44 :: quoted (str "c") ++ 58 :: quoted (C_ e) ++ [125].

(** base64.StdEncoding.DecodedLen *)
Definition DecodedLen (n : Z) : Z := n / 4 * 3.

(** The runes of a string as [range] walks it; [None] is an invalid byte. *)
Definition cont (b : Z) : bool := (128 <=? b) && (b <=? 191).
Definition in_ (lo hi b : Z) : bool := (lo <=? b) && (b <=? hi).
Fixpoint runes (s : bytes) : list (option bytes) :=
  match s with
  | [] => []
  | a :: s1 =>
      if a <? 128 then Some [a] :: runes s1 else
      match s1 with
      | b :: s2 =>
          if in_ 194 223 a && cont b then Some [a; b] :: runes s2 else
          match s2 with
          | c :: s3 =>
              if in_ 224 239 a && in_ (if a =? 224 then 160 else 128) (if a =? 237 then 159 else 191) b && cont c
              then Some [a; b; c] :: runes s3 else
              match s3 with
              | d :: s4 =>
                  if in_ 240 244 a && in_ (if a =? 240 then 144 else 128) (if a =? 244 then 143 else 191) b && cont c && cont d
                  then Some [a; b; c; d] :: runes s4 else None :: runes s1
              | [] => None :: runes s1
              end
          | [] => None :: runes s1
          end
      | [] => None :: runes s1
      end
  end.

Definition isWs (r : bytes) : bool :=
  bool_decide (r = [32]) || bool_decide (r = [10]) || bool_decide (r = [13]) || bool_decide (r = [239; 187; 191]) ||
  bool_decide (r = [9]).

(** An invalid byte is written as U+FFFD. *)
Definition stripWs (s : bytes) : bytes :=
  flat_map (λ r, match r with
                 | None => [239; 191; 189]
                 | Some r => if isWs r then [] else r
                 end) (runes s).

Definition scheme : bytes := str "stun://".

Section WithLib.
Context {SL : ShareLib}.

(** * The envelope *)

Definition gunzipData (b : bytes) : result bytes share_error :=
  match gzip_read b (shareMaxSize + 1) with
  | None => Err ErrGunzip
  | Some plain => if shareMaxSize <? len plain then Err ErrProfileSize else Ok plain
  end.

(** aes.NewCipher accepts three key lengths. *)
Definition aesKey (key : bytes) : bool := (len key =? 16) || (len key =? 24) || (len key =? 32).

(** What is encrypted: the text, compressed where that makes it shorter. *)
Definition maybeGzip (plainText : bytes) : bytes :=
  match gzip_write plainText with
  | Some z => if len z <? len plainText then z else plainText
  | None => plainText
  end.

(** [encryptStunURI]: the URI, or what went wrong, and the PIN. *)
Definition encryptStunURI (plainText pin : bytes) (draw : option Z) (salt iv : option bytes) :
    result bytes share_error * bytes :=
  match (if bool_decide (pin = []) then GenerateRandomPIN draw else Some pin) with
  | None => (Err ErrRandom, [])
  | Some usedPin =>
      let raw := maybeGzip plainText in
      match salt with
      | None => (Err ErrRandom, usedPin)
      | Some salt =>
          match iv with
          | None => (Err ErrRandom, usedPin)
          | Some iv =>
              let key := pbkdf2_key usedPin salt shareIterations shareKeyLen in
              if negb (aesKey key) then (Err ErrCipher, usedPin) else
              let ciphertext := gcm_seal key iv raw in
              let env := mkEnvelope 1 (if len raw <? len plainText then 1 else 0)
                           (b64Encode true salt) (b64Encode true iv) (b64Encode true ciphertext) in
              (Ok (scheme ++ b64Encode true (marshalEnvelope env)), usedPin)
          end
      end
  end.

Definition decryptStunURI (payload pin : bytes) : result bytes share_error :=
  let clean := if (7 <? len payload) && bool_decide (upto 7 payload = scheme) then from 7 payload else payload in
  let clean := stripWs clean in
  if shareMaxSize <? DecodedLen (len clean) then Err ErrEnvelopeSize else
  match b64Decode true clean with
  | None => Err ErrBase64
  | Some envBytes =>
      match json_unmarshal envBytes with
      | None => Err ErrJSON
      | Some env =>
          if negb (V env =? 1) then Err (ErrShareVersion (V env)) else
          if negb (G env =? 0) && negb (G env =? 1) then Err (ErrShareFlag (G env)) else
          match b64Decode true (S_ env), b64Decode true (I_ env), b64Decode true (C_ env) with
          | Some salt, Some iv, Some ct =>
              if negb (len salt =? shareSaltLen) then Err (ErrSaltLen (len salt)) else
              if negb (len iv =? shareIvLen) then Err (ErrNonceLen (len iv)) else
              if len ct <? 16 then Err ErrCipherShort else
              let key := pbkdf2_key pin salt shareIterations shareKeyLen in
              if negb (aesKey key) then Err ErrCipher else
              match gcm_open key iv ct with
              | None => Err ErrOpen
              | Some plain => if G env =? 1 then gunzipData plain else Ok plain
              end
          | _, _, _ => Err ErrBase64
          end
      end
  end.

(** * The links *)

(** What is printed, in order. *)
Inductive printed :=
| Refused                       (* an error message only *)
| PrintStun (uri : bytes)
| PrintPin (pin : bytes)
| PrintPinGiven
| PrintDirect (uri : bytes).

(** The server's key as the links carry it. *)
Definition sharedKey (pubKey : bytes) : bytes :=
  if bool_decide (pubKey = []) then [] else
  match ParseNoiseKey pubKey with Some pk => (FormatNoiseKey pk).2 | None => [] end.

Definition shareAddr (host port : bytes) : bytes :=
  if bool_decide (host = []) || bool_decide (host = str "0.0.0.0") || bool_decide (host = str ":")
  then str "YOUR_SERVER_IP:" ++ port else host ++ colon :: port.

Definition profileOf (host port password magic pubKey remark : bytes) : StunProfile :=
  let serverAddr := shareAddr host port in
  mkProfile [] (orElse remark (str "UDPCustom - " ++ serverAddr)) (str "127.0.0.1:22") (str "root") [] (str "password")
    (str "udp_custom") serverAddr [] [] [] false false password magic (sharedKey pubKey).

Definition directURI (host port password magic pubKey : bytes) : bytes :=
  str "udpc://" ++ shareAddr host port ++ str "?magic=" ++ magic ++
  (if bool_decide (password = []) then [] else str "&psk=" ++ password) ++
  (if bool_decide (sharedKey pubKey = []) then [] else str "&pubkey=" ++ sharedKey pubKey).

(** [GenerateUDPCustomURI]: what it prints and the encrypted link, empty on failure. *)
Definition GenerateUDPCustomURI (host port password magic pubKey remark pin : bytes)
    (draw : option Z) (salt iv : option bytes) : list printed * bytes :=
  match json_profile (profileOf host port password magic pubKey remark) with
  | None => ([Refused], [])
  | Some profJSON =>
      match encryptStunURI profJSON pin draw salt iv with
      | (Err _, _) => ([Refused], [])
      | (Ok stunURI, usedPin) =>
          ([PrintStun stunURI; if bool_decide (pin = []) then PrintPin usedPin else PrintPinGiven;
            PrintDirect (directURI host port password magic pubKey)], stunURI)
      end
  end.

(** The command's flags. *)
Record genURIFlags := mkFlags {
  fHost : bytes; fPort : bytes; fPassword : bytes; fMagic : bytes; fPubKey : bytes; fName : bytes; fPin : bytes;
}.

(** [runGenURI]'s merge of the file into the flags, and the fallbacks. *)
Definition mergePort (port : bytes) (c : Config) : bytes :=
  let port := if bool_decide (port = []) && negb (bool_decide (PortRangeSpec c = [])) then
                match ParsePortRangeSpec (PortRangeSpec c) with Ok ports => FormatPortList ports | Err _ => port end
              else port in
  if bool_decide (port = []) && negb (bool_decide (Listen c = [])) then
    match SplitHostPort (Listen c) with Some (_, p) => p | None => port end
  else port.

Definition mergePubKey (pubKey : bytes) (c : Config) : bytes :=
  let pubKey := if bool_decide (pubKey = []) then PubKey c else pubKey in
  if bool_decide (pubKey = []) && negb (bool_decide (PrivKey c = [])) then
    match ParseNoiseKey (PrivKey c) with Some kp => (FormatNoiseKey kp).2 | None => pubKey end
  else pubKey.

Definition mergeConfig (f : genURIFlags) (c : Config) : genURIFlags :=
  mkFlags (orElse (fHost f) (Host c)) (mergePort (fPort f) c) (orElse (fPassword f) (default [] (head (Passwords c))))
    (orElse (fMagic f) (Magic_ c)) (mergePubKey (fPubKey f) c) (fName f) (fPin f).

(** [file]: none given, one that cannot be loaded ([Some None]: the command exits), or
    what it says. *)
Definition runGenURI (f : genURIFlags) (file : option (option Config)) (draw : option Z) (salt iv : option bytes) :
    option (list printed * bytes) :=
  match (match file with
         | None => Some f
         | Some None => None
         | Some (Some c) => Some (mergeConfig f c)
         end) with
  | None => None
  | Some f =>
      Some (GenerateUDPCustomURI (orElse (fHost f) (str "your-server-ip")) (orElse (fPort f) (str "36712")) (fPassword f)
              (orElse (fMagic f) (str "UDPC")) (fPubKey f) (orElse (fName f) (str "UDP Custom Node")) (fPin f) draw salt iv)
  end.

End WithLib.

(** * What the libraries promise *)

(** Text that JSON and the URI carry as it is. *)
Definition plainText (s : bytes) : Prop := Forall (λ c, is_byte c ∧ visible c = true ∧ c ≠ 34 ∧ c ≠ 58 ∧ c ≠ 92) s.

Record share_laws {SL : ShareLib} : Prop := {
  sl_key pin salt : len (pbkdf2_key pin salt shareIterations shareKeyLen) = shareKeyLen;
  sl_seal k iv p : len k = 32 → len iv = 12 → Forall is_byte p →
    Forall is_byte (gcm_seal k iv p) ∧ len (gcm_seal k iv p) = len p + 16 ∧ gcm_open k iv (gcm_seal k iv p) = Some p;
  sl_gzip p z : Forall is_byte p → gzip_write p = Some z →
    Forall is_byte z ∧ ∀ n, 0 ≤ n → gzip_read z n = Some (upto n p);
  sl_json e : V e = 1 → G e = 0 ∨ G e = 1 → plainText (S_ e) → plainText (I_ e) → plainText (C_ e) →
    json_unmarshal (marshalEnvelope e) = Some e;
}.

(** * Stripping white space *)

Lemma b64Char_plain n : 
  0 ≤ n < 64 → is_byte (b64Char n) ∧ visible (b64Char n) = true ∧ b64Char n ≠ 34 ∧ b64Char n ≠ 58 ∧ b64Char n ≠ 92.
Proof. intros. unfold is_byte, visible, isSpace, b64Char. repeat case_match; lia. Qed.

Lemma b64Encode_plain padded b : Forall is_byte b → plainText (b64Encode padded b).
Proof.
  unfold plainText.
  induction b as [|x|x y|x y z b IH] using three_at_a_time; intros Hb; [constructor|..];
    repeat match goal with H : Forall is_byte (_ :: _) |- _ => apply Forall_cons in H as [? H] end;
    unfold is_byte in *; destruct padded; cbn [b64Encode app];
    repeat constructor; try (apply b64Char_plain; Z.to_euclidean_division_equations; lia); try done; by apply IH.
Qed.

Lemma b64Encode_nonempty b : b64Encode true b = [] → b = [].
Proof. by destruct b as [|x [|y [|z b]]]. Qed.

Lemma runes_ascii a s : a < 128 → runes (a :: s) = Some [a] :: runes s.
Proof. intros Ha. cbn [runes]. by destruct (Z.ltb_spec a 128); [|lia]. Qed.

Lemma stripWs_ascii a s : a < 128 → isWs [a] = false → stripWs (a :: s) = a :: stripWs s.
Proof. intros Ha Hw. unfold stripWs. rewrite runes_ascii by done. cbn [flat_map]. by rewrite Hw. Qed.

Lemma visible_ascii c : visible c = true → c < 128 ∧ isWs [c] = false.
Proof.
  unfold visible, isSpace. intros H. apply andb_true_iff in H as [H1 H2]. split; [lia|].
  unfold isWs. rewrite !bool_decide_eq_false_2 by (intros [= ->]; done). done.
Qed.

Lemma stripWs_visible a s : Forall (λ c, visible c = true) a → stripWs (a ++ s) = a ++ stripWs s.
Proof.
  induction 1 as [|c a Hc _ IH]; [done|]. apply visible_ascii in Hc as [H1 H2]. cbn [app].
  by rewrite stripWs_ascii, IH.
Qed.

Lemma plain_visible s : plainText s → Forall (λ c, visible c = true) s.
Proof. intros Hs. eapply Forall_impl; [exact Hs|]. by intros c (_ & ? & _). Qed.

(** The scheme is recognised whatever follows, and nothing else is taken for it. *)
Lemma scheme_cut body :
  body ≠ [] → (7 <? len (scheme ++ body)) && bool_decide (upto 7 (scheme ++ body) = scheme) = true ∧
  from 7 (scheme ++ body) = body.
Proof.
  intros Hb. rewrite upto_app, from_app, len_app by done. rewrite bool_decide_eq_true_2 by done.
  split; [|done]. change (len scheme) with 7. assert (0 < len body); [|lia].
  destruct body; [done|]. rewrite len_cons. pose proof (len_nonneg body). lia.
Qed.

Lemma no_scheme body :
  plainText (stripWs body) → (7 <? len body) && bool_decide (upto 7 body = scheme) = false.
Proof.
  intros Hp. apply not_true_iff_false. intros [_ H%bool_decide_eq_true]%andb_true_iff.
  rewrite <- (upto_from 7 body), H, stripWs_visible in Hp by (repeat constructor).
  apply Forall_app in Hp as [Hp _]. vm_compute in Hp.
  repeat (apply Forall_cons in Hp as [(? & ? & ? & ? & ?) Hp]; try done).
Qed.

(** * The link opens again *)

Lemma plain_is_byte s : plainText s → Forall is_byte s.
Proof.
  intros Hs. eapply Forall_impl; [exact Hs|]. by intros c [? _].
Qed.

Lemma marshal_is_byte e :
  V e = 1 → G e = 0 ∨ G e = 1 → Forall is_byte (S_ e) → Forall is_byte (I_ e) → Forall is_byte (C_ e) →
  Forall is_byte (marshalEnvelope e).
Proof.
  intros HV HG HS HI HC. unfold marshalEnvelope, quoted. rewrite HV.
  destruct HG as [-> | ->];
    repeat (rewrite Forall_app || rewrite Forall_cons || split || assumption || done || by (vm_compute; repeat constructor)).
Qed.

Section Roundtrip.
Context {SL : ShareLib} (laws : share_laws).

Lemma maybeGzip_bytes plain : Forall is_byte plain → Forall is_byte (maybeGzip plain).
Proof.
  intros Hp. unfold maybeGzip. destruct (gzip_write plain) as [z|] eqn:Hz; [|done].
  case_match; [|done]. by apply (sl_gzip laws plain z).
Qed.

(** Decompressing what was compressed, within the limit. *)
Lemma maybeGzip_open plain : Forall is_byte plain →
  (if len (maybeGzip plain) <? len plain then gunzipData (maybeGzip plain) else Ok (maybeGzip plain)) =
  if (len (maybeGzip plain) <? len plain) && (shareMaxSize <? len plain) then Err ErrProfileSize else Ok plain.
Proof.
  intros Hp. unfold maybeGzip. destruct (gzip_write plain) as [z|] eqn:Hz;
    [destruct (Z.ltb_spec (len z) (len plain)) as [Hl|Hl]|]; [|by rewrite Z.ltb_irrefl..].
  destruct (Z.ltb_spec (len z) (len plain)); [cbn [andb]|lia].
  unfold gunzipData. rewrite (proj2 (sl_gzip laws _ _ Hp Hz)) by done. change (shareMaxSize + 1) with 1048577. change shareMaxSize with 1048576.
  destruct (Z.ltb_spec 1048576 (len plain)).
  - by rewrite len_upto by lia.
  - rewrite upto_all by lia. by destruct (Z.ltb_spec 1048576 (len plain)); [lia|].
Qed.

(** The envelope of a ciphertext, opened with the PIN it was made with. *)
Lemma decrypt_envelope plain pin salt iv clean payload :
  let raw := maybeGzip plain in
  Forall is_byte plain → Forall is_byte salt → Forall is_byte iv → len salt = shareSaltLen → len iv = shareIvLen →
  clean = b64Encode true (marshalEnvelope
    (mkEnvelope 1 (if len raw <? len plain then 1 else 0) (b64Encode true salt) (b64Encode true iv)
       (b64Encode true (gcm_seal (pbkdf2_key pin salt shareIterations shareKeyLen) iv raw)))) →
  stripWs (if (7 <? len payload) && bool_decide (upto 7 payload = scheme) then from 7 payload else payload) = clean →
  decryptStunURI payload pin =
    if shareMaxSize <? DecodedLen (len clean) then Err ErrEnvelopeSize else
    if (len raw <? len plain) && (shareMaxSize <? len plain) then Err ErrProfileSize else Ok plain.
Proof.
  intros raw Hp Hs Hi Ls Li -> Hstrip. unfold decryptStunURI. rewrite Hstrip.
  set (env := mkEnvelope _ _ _ _ _) in *.
  destruct (sl_seal laws (pbkdf2_key pin salt shareIterations shareKeyLen) iv raw) as (Hct & Lct & Hopen);
    [by apply sl_key|done|by apply maybeGzip_bytes|].
  assert (G env = 0 ∨ G env = 1) as HG by (cbn [G env]; destruct (_ <? _); auto).
  destruct (shareMaxSize <? DecodedLen _); [done|].
  rewrite b64Decode_b64Encode by (apply marshal_is_byte; [done..| | |]; by apply plain_is_byte, b64Encode_plain).
  rewrite (sl_json laws env) by (done || by apply b64Encode_plain).
  replace (negb (G env =? 0) && negb (G env =? 1)) with false by (destruct HG as [-> | ->]; done).
  cbn [V S_ I_ C_ env]. rewrite !b64Decode_b64Encode by done. rewrite Ls, Li. cbn [negb Z.eqb shareSaltLen shareIvLen].
  cbn zeta. unfold aesKey. rewrite (sl_key laws), Hopen, Lct. cbn [negb orb Z.eqb shareKeyLen Pos.eqb]. pose proof (len_nonneg raw).
  destruct (Z.ltb_spec (len raw + 16) 16); [lia|].
  fold raw in env |- *. pose proof (maybeGzip_open plain Hp) as Hg. fold raw in Hg. rewrite <- Hg.
  cbn [G env]. by destruct (len raw <? len plain).
Qed.

(** The scheme left in the text is no base64. *)
Lemma scheme_not_b64 s : s ≠ [] → Forall (λ c, visible c = true) s → b64Decode true (scheme ++ s) = None.
Proof.
  intros Hs Hv. unfold b64Decode. rewrite filter_visible by (apply Forall_app; split; [by repeat constructor|done]).
  by destruct s as [|c s].
Qed.

(** C38: (roundtrip) A link opens again: what encryptStunURI makes of any bytes, with
    the PIN given or the one it drew, decryptStunURI turns back into those bytes, with
    the scheme or without it, however the text behind the scheme - all of it, when there
    is no scheme - was wrapped or padded with spaces, tabs, line ends and byte order
    marks on the way; except that a link too large for the reader, or whose compressed
    text opens to more than it accepts, is refused: encryptStunURI itself does not look
    at the size.  White space before the scheme or inside it is not forgiven: of the
    texts that are the link with white space added anywhere, those that begin with the
    scheme itself open and every other is refused, as not being base64 or as too
    large. *)
Theorem share_uri_roundtrip plain pin draw salt iv uri used body link :
  Forall is_byte plain → Forall is_byte salt → Forall is_byte iv → len salt = shareSaltLen → len iv = shareIvLen →
  encryptStunURI plain pin draw (Some salt) (Some iv) = (Ok uri, used) →
  stripWs body = from 7 uri → stripWs link = uri →
  let opened :=
    if shareMaxSize <? DecodedLen (len (from 7 uri)) then Err ErrEnvelopeSize else
    if (len (maybeGzip plain) <? len plain) && (shareMaxSize <? len plain) then Err ErrProfileSize else Ok plain in
  Some used = (if bool_decide (pin = []) then GenerateRandomPIN draw else Some pin) ∧
  upto 7 uri = scheme ∧ stripWs uri = uri ∧
  decryptStunURI (scheme ++ body) used = opened ∧ decryptStunURI body used = opened ∧
  decryptStunURI link used =
    if bool_decide (upto 7 link = scheme) then opened
    else if shareMaxSize <? DecodedLen (len uri) then Err ErrEnvelopeSize else Err ErrBase64.
Proof.
  intros Hp Hs Hi Ls Li Henc Hbody Hlink opened. unfold encryptStunURI in Henc.
  destruct (if bool_decide (pin = []) then _ else _) as [u|]; [|done].
  destruct (negb (aesKey _)); [done|]. apply pair_equal_spec in Henc as [Huri <-].
  apply (f_equal (λ r, match r with Ok u => u | Err _ => [] end)) in Huri. cbv beta iota in Huri. subst uri.
  subst opened. rewrite upto_app by done. rewrite from_app in Hbody |- * by done.
  set (clean := b64Encode true _) in *.
  assert (plainText clean) as Hplain.
  { apply b64Encode_plain, marshal_is_byte; [done|cbn [G]; destruct (_ <? _); auto| | |];
      apply plain_is_byte, b64Encode_plain; [done..|].
    eapply (sl_seal laws); [by apply sl_key|done|by apply maybeGzip_bytes]. }
  assert (clean ≠ []) as Hne by (by intros ?%b64Encode_nonempty).
  assert (stripWs clean = clean) as Hclean.
  { rewrite <- (app_nil_r clean) at 1. rewrite stripWs_visible by by apply plain_visible. apply app_nil_r. }
  pose proof (λ payload, decrypt_envelope plain u salt iv clean payload Hp Hs Hi Ls Li eq_refl) as Hopen. cbv zeta in Hopen.
  assert (∀ t, stripWs t = clean → t ≠ []) as Hcut by (by intros t Ht ->).
  split_and!; [done..| | | |].
  - rewrite stripWs_visible by by repeat constructor. by rewrite Hclean.
  - apply Hopen. by destruct (scheme_cut body (Hcut body Hbody)) as [-> ->].
  - apply Hopen. rewrite no_scheme; [done|]. by rewrite Hbody.
  - destruct (bool_decide_reflect (upto 7 link = scheme)) as [E|E].
    + rewrite <- (upto_from 7 link), E, stripWs_visible in Hlink by by repeat constructor. apply app_inv_head in Hlink.
      apply Hopen. rewrite <- (upto_from 7 link), E. by destruct (scheme_cut (from 7 link) (Hcut _ Hlink)) as [-> ->].
    + unfold decryptStunURI. rewrite (bool_decide_eq_false_2 _ E), andb_false_r, Hlink.
      by rewrite scheme_not_b64 by (done || by apply plain_visible).
Qed.

End Roundtrip.

(** * What the links carry *)

Section Links.
Context {SL : ShareLib}.
Implicit Types (f : genURIFlags) (c : Config).

Lemma parse_formatted k : len k = 32 → Forall is_byte k → ParseNoiseKey (b64Encode true k) = Some k.
Proof.
  intros Hl Hk. apply (parse_b64 _ _ Hl Hk true).
  rewrite <- (app_nil_l (b64Encode true k)) at 1. rewrite <- (app_nil_r (b64Encode true k)) at 1.
  apply TrimSpace_blank; [constructor..|by apply b64Encode_visible|]. by intros ->%b64Encode_nonempty.
Qed.

(** The key in the links is the one the text stands for. *)
Lemma sharedKey_b64 k : len k = 32 → Forall is_byte k → sharedKey (b64Encode true k) = b64Encode true k.
Proof.
  intros Hl Hk. unfold sharedKey.
  assert (b64Encode true k ≠ []) as Hne by (intros ->%b64Encode_nonempty; done).
  rewrite bool_decide_eq_false_2 by done.
  by rewrite parse_formatted.
Qed.

Lemma directURI_key host port password magic pubKey :
  sharedKey pubKey ≠ [] → ∃ a, directURI host port password magic pubKey = a ++ str "&pubkey=" ++ sharedKey pubKey.
Proof.
  intros Hk. unfold directURI. rewrite (bool_decide_eq_false_2 (sharedKey pubKey = [])) by done.
  rewrite !app_assoc. eexists. by rewrite <- app_assoc.
Qed.

(** A configuration that has only the server's private key: the links the command
    prints carry that private key where the public key belongs, in the clear in the
    direct link, and reading it back gives the private key. *)
Theorem gen_uri_shares_private_key f c k draw salt iv out link :
  fPubKey f = [] → PubKey c = [] → PrivKey c ≠ [] → ParseNoiseKey (PrivKey c) = Some k → len k = 32 → Forall is_byte k →
  runGenURI f (Some (Some c)) draw salt iv = Some (out, link) → out ≠ [Refused] →
  sharedKey (mergePubKey (fPubKey f) c) = b64Encode true k ∧
  ParseNoiseKey (mergePubKey (fPubKey f) c) = Some k ∧
  ∃ stun pin a, out = [stun; pin; PrintDirect (a ++ str "&pubkey=" ++ b64Encode true k)].
Proof.
  intros Hf Hc Hp Hk Hl Hb Hrun Hout.
  assert (mergePubKey (fPubKey f) c = b64Encode true k) as Hkey.
  { unfold mergePubKey. rewrite Hf, Hc. cbn [bool_decide decide_rel]. rewrite (bool_decide_eq_false_2 (PrivKey c = [])) by done.
    by rewrite Hk. }
  rewrite Hkey, sharedKey_b64, parse_formatted by done. split_and!; [done..|].
  unfold runGenURI, mergeConfig in Hrun. cbn [fHost fPort fPassword fMagic fPubKey fName fPin] in Hrun. rewrite Hkey in Hrun.
  injection Hrun as Hrun. unfold GenerateUDPCustomURI in Hrun.
  destruct (json_profile _); [|by injection Hrun as <- _].
  destruct (encryptStunURI _ _ _ _ _) as [[uri|] used]; [|by injection Hrun as <- _].
  apply pair_equal_spec in Hrun as [<- _].
  edestruct directURI_key as [a ->]; [|by rewrite sharedKey_b64; eauto].
  rewrite sharedKey_b64 by done. by intros ->%b64Encode_nonempty.
Qed.

End Links.

(** * A library the laws hold of *)

Definition toy_tag (k : bytes) : bytes := map (λ b, b mod 256) (upto 16 k).
Definition toy_unmarshal (j : bytes) : option shareEnvelope :=
  match Split 34 j with
  | [_; _; _; _; [_; g; _]; _; _; s; _; _; _; i; _; _; _; c; _] => Some (mkEnvelope 1 (g - 48) s i c)
  | _ => None
  end.

(** A key that is the PIN and the salt cut to length, a tag that is half of the key,
    runs for compression, and the envelope cut at its quotes. *)
Definition toy_share : ShareLib := {|
  pbkdf2_key pin salt _ n := upto 32 (pin ++ salt ++ repeat 0 32);
  gcm_seal k _ p := p ++ toy_tag k;
  gcm_open k _ c := if bool_decide (from (len c - 16) c = toy_tag k) then Some (upto (len c - 16) c) else None;
  gzip_write p := match p with
                  | x :: _ => if bool_decide (p = repeat x (length p)) && (len p <? 256) then Some [len p; x] else None
                  | [] => None
                  end;
  gzip_read z n := match z with [l; x] => Some (upto n (repeat x (Z.to_nat l))) | _ => None end;
  json_unmarshal := toy_unmarshal;
  json_profile p := Some (Name p ++ UDPCustomPsk p ++ NoisePublicKey p);
|}.

Lemma toy_tag_ok k : len k = 32 → Forall is_byte (toy_tag k) ∧ len (toy_tag k) = 16.
Proof.
  intros Hk. unfold toy_tag. split.
  - apply Forall_map, Forall_true. intros b. unfold is_byte, compose. pose proof (Z.mod_pos_bound b 256). lia.
  - unfold len. rewrite length_map. apply (len_upto 16 k). lia.
Qed.

Lemma toy_json e :
  V e = 1 → G e = 0 ∨ G e = 1 → plainText (S_ e) → plainText (I_ e) → plainText (C_ e) →
  toy_unmarshal (marshalEnvelope e) = Some e.
Proof.
  assert (∀ s, plainText s → 34 ∉ s) as Hs.
  { intros s Hs Hin. unfold plainText in Hs. rewrite Forall_forall in Hs. by destruct (Hs 34 Hin) as (_ & _ & ? & _). }
  destruct e as [v g s i c]. cbn [V G S_ I_ C_]. intros -> Hg H1%Hs H2%Hs H3%Hs.
  assert (marshalEnvelope (mkEnvelope 1 g s i c) =
    Join 34 [[123]; [118]; [58; 49; 44]; [103]; 58 :: Itoa g ++ [44]; [115]; [58]; s; [44]; [105]; [58]; i; [44]; [99]; [58]; c; [125]])
    as ->.
  { unfold marshalEnvelope, quoted. cbn [V G S_ I_ C_ Join]. destruct Hg as [-> | ->]; cbn; by rewrite <- !app_assoc. }
  unfold toy_unmarshal. rewrite Split_Join; [by destruct Hg as [-> | ->]|done|].
  destruct Hg as [-> | ->]; repeat ((apply Forall_cons; split) || assumption || by apply Forall_nil || by refine (bool_decide_unpack (_ ∉ _) _)).
Qed.

#[local] Existing Instance toy_share.

Lemma toy_laws : share_laws.
Proof.
  split.
  - intros pin salt. change (len (upto 32 (pin ++ salt ++ repeat 0 32)) = 32). apply len_upto. rewrite !len_app. pose proof (len_nonneg pin). pose proof (len_nonneg salt).
    change (len (repeat 0 32)) with 32. lia.
  - intros k iv p Hk _ Hp. cbn. destruct (toy_tag_ok k Hk) as [Ht Hl]. split_and!.
    + by apply Forall_app.
    + rewrite len_app. lia.
    + rewrite len_app, Hl. replace (len p + 16 - 16) with (len p) by lia.
      rewrite from_app, upto_app by done. by rewrite bool_decide_eq_true_2.
  - intros [|x p] z Hp; [done|]. cbn [gzip_write toy_share].
    destruct (bool_decide _) eqn:Hd; [|done]. apply bool_decide_eq_true in Hd.
    destruct (Z.ltb_spec (len (x :: p)) 256); [|done]. cbn [andb]. intros [= <-].
    apply Forall_cons in Hp as [Hx _]. pose proof (len_nonneg p). split.
    + repeat constructor; [unfold is_byte; rewrite len_cons in *; lia..|apply Hx|apply Hx].
    + intros n _. cbn [gzip_read toy_share]. unfold len. rewrite Nat2Z.id. by rewrite <- Hd.
  - intros e. apply toy_json.
Qed.

Definition demo_salt : bytes := map (λ i, 7 * Z.of_nat i mod 256) (seq 0 16).
Definition demo_iv : bytes := map (λ i, 11 * Z.of_nat i mod 256) (seq 0 12).

(** Forty times the same byte, so the text is compressed, with a drawn PIN; on the way
    the link got a byte order mark, a line break and a blank - behind the scheme, and in
    front of it. *)
Lemma share_uri_roundtrip_witness :
  ∃ uri body, encryptStunURI (repeat 65 40) [] (Some 4071) (Some demo_salt) (Some demo_iv) = (Ok uri, str "004071") ∧
    len (maybeGzip (repeat 65 40)) = 2 ∧ body ≠ from 7 uri ∧
    decryptStunURI (scheme ++ body) (str "004071") = Ok (repeat 65 40) ∧
    decryptStunURI body (str "004071") = Ok (repeat 65 40) ∧ decryptStunURI body (str "004072") = Err ErrOpen ∧
    decryptStunURI (32 :: uri) (str "004071") = Err ErrBase64.
Proof.
  set (uri := match (encryptStunURI (repeat 65 40) [] (Some 4071) (Some demo_salt) (Some demo_iv)).1 with
              | Ok u => u | Err _ => [] end).
  set (body := [239; 187; 191] ++ slice 7 27 uri ++ [13; 10] ++ from 27 uri ++ [32]).
  exists uri, body.
  destruct (share_uri_roundtrip toy_laws (repeat 65 40) [] (Some 4071) demo_salt demo_iv uri (str "004071") body (32 :: uri))
    as (_ & _ & _ & H1 & H2 & H3).
  - by repeat constructor.
  - by repeat constructor.
  - by repeat constructor.
  - reflexivity.
  - reflexivity.
  - by vm_compute.
  - by vm_compute.
  - by vm_compute.
  - split_and!; [by vm_compute..| | | |];
      [rewrite H1; by vm_compute|rewrite H2; by vm_compute|by vm_compute|rewrite H3; by vm_compute].
Defined.

(** The configuration of [new_server_sound]'s witness has the private key only. *)
Example demo_private_link :
  ∃ uri pin, runGenURI (mkFlags [] [] [] [] [] [] []) (Some (Some demo_server)) (Some 4071) (Some demo_salt) (Some demo_iv) =
    Some ([PrintStun uri; pin; PrintDirect (str "udpc://your-server-ip:36712?magic=UDPX&psk=first&pubkey=" ++ b64Encode true demo_priv)], uri).
Proof. do 2 eexists. vm_compute. reflexivity. Qed.
